(* ===== verification/_CoqProject ===== *)
-Q . S2P
Prelude.v
Errors.v
Replay.v
Wire.v
Sack.v
Rto.v
StreamSend.v
StreamRecv.v
Growth.v
Arq.v
F64.v
WinFilter.v
Bbr.v
Stream.v
Path.v
Crypto.v
Shaping.v
Cid.v
Session.v
Channel.v
RekeySync.v
Datagram.v
Coalesce.v
Mux.v
Pump.v
StreamTable.v
Delivery.v
DeliveryEnd.v
Pacer.v
SendLoop.v
SendQueue.v
Liveness.v
SessionCache.v
Pow.v
Reputation.v
HandshakeWire.v
Hybrid.v
Handshake.v
HandshakeGate.v
Connect.v
ZeroRtt.v
Routes.v
CidRoutes.v
Demux.v
UdpTransport.v
Repair.v
AddressWalk.v
PumpLoop.v
CloseFrames.v
ByteStream.v
TlsRecords.v
TlsHello.v
TlsPrelude.v
Frames.v
Wasi.v
Compression.v
SessionApi.v
Listener.v
Sidelines.v
