(* ===== verification/Prelude.v ===== *)
(** * Phantom Protocol: a verification development

    Phantom Protocol is a Rust transport library: two peers run a post-quantum
    handshake, then exchange AEAD-protected packets that carry multiplexed reliable
    and unreliable streams over UDP or a byte stream, with key rotation, connection
    migration and traffic shaping.  This library is a shallow embedding of the
    protocol core ([core/src]): each file translates one part of the source into
    executable definitions under the source's own names and proves what makes the
    part correct.

    ** How the program fits together

    A client walks the addresses of a name, opens a transport (PhantomUDP, TCP, a TLS
    look-alike, an embedded or WASI leg) and runs the handshake; a listener admits the
    first message behind a cookie and a proof of work, and routes the datagrams of a
    session by rotating connection ids.  Both ends then run the data pump
    ([core/src/api/session.rs]), which owns a [Session]
    ([core/src/transport/session.rs]) and one [Stream] per stream id
    ([core/src/transport/stream.rs]).  Outbound, writes of the application are queued as
    commands, moved into send buffers, taken as segments by [Stream::poll_send] within
    the congestion window and the rate of the pacer, framed, sealed with
    [Session::encrypt_packet], masked and handed to the transport, which for UDP splits
    them into datagrams.  Inbound, datagrams are reassembled, unmasked, opened with
    [decrypt_packet_accepting_rekey] and dispatched on their flags: acknowledgements to
    [Stream::on_sack], data to [accept_in_order] and through the delivery tasks to the
    application, control frames to the path registry or the flow-control ledger.  A
    heartbeat watches for silence; the close flushes, announces the end and drains.

    ** Files

    Foundations.
    - [Prelude] (this file): machine integers ([in_u], [wrap], saturating and checked
      arithmetic), [result] with the [?] operator as [<-?], big-endian codecs,
      [slice] and [chunks], shared list lemmas, the hint database [phantom].
    - [Errors]: [errors.rs] and the AEAD errors.
    - [F64]: binary64 arithmetic as the bandwidth estimator uses it.

    Packets and keys.
    - [Replay]: [security/replay_window.rs].  [Wire]: [transport/types.rs], the flags,
      header, AAD image, packet codec.  [Sack]: [transport/sack.rs].  [Shaping]:
      [transport/shaping.rs].  [Coalesce]: [transport/packet_coalescer.rs] and the bundle
      codec.  [Compression]: [transport/compression.rs] over the class [Codecs].
    - [Crypto]: [crypto/adaptive_crypto.rs], [crypto/kdf.rs],
      [crypto/header_protection.rs] over the class [Primitives] of third-party ciphers
      and hashes, with their documented behaviour in the class [PrimitiveLaws].
    - [Cid]: [crypto/cid_chain.rs] and the connection-id part of the session.
    - [Session]: [transport/session.rs] (keys, epochs, packet protection) and the
      frame senders and opening sequence of [api/session.rs].
    - [Channel]: traces of one session's operations.  [RekeySync]: two sessions and a
      lossy network, as a step relation.
    - [Path]: [transport/path.rs], [transport/path_validation_codec.rs].

    Streams.
    - [Rto], [StreamSend], [StreamRecv], [Stream]: [transport/stream.rs], split into
      the retransmission timer, the sending half, the receiving half and the
      lifecycle around them.
    - [Growth]: the receive-window budget all streams of a session share, as a step
      relation with one rule per atomic operation.
    - [Arq]: both halves joined by the pump's reliable-frame code and a network that
      loses, repeats and reorders.
    - [Mux]: [transport/multiplexer.rs] and the stream-id record and gauges of
      [api/session.rs], over the class [Mpsc] of the runtime's bounded channel.
    - [WinFilter], [Bbr]: [transport/bandwidth_estimator.rs].  [Pacer]:
      [transport/pacer.rs].

    The data pump ([api/session.rs]).
    - [Pump]: [handle_packet] and the functions it calls.  The state is what the reader
      task shares with the rest of the pump; what it asks of the transport, the
      congestion controller and the application is a log of [Effect]s, what they answer a
      [TransportView] given with each packet.
    - [StreamTable]: opening and retiring streams, and the table of held streams under
      every operation of the pump.
    - [Delivery], [DeliveryEnd]: the router and delivery tasks between the reader and the
      application, and what they do once the reader has gone.
    - [SendLoop]: the drain pass and its congestion accounting.  [SendQueue]: commands,
      deferred writes, releases of dropped handles.  [PumpLoop]: the select loop of
      [run_data_pump], its close and its draining.  [CloseFrames]: the close frames at
      the peer.  [Liveness]: [transport/liveness.rs], the heartbeat, the published state.
    - [SessionApi]: [api/stream.rs] and the calls of [PhantomSession], alone and as steps
      beside the task that connects and pumps.

    Connecting.
    - [HandshakeWire], [Hybrid], [Handshake], [HandshakeGate]: [transport/handshake.rs],
      [crypto/hybrid_kem.rs], [crypto/hybrid_sign.rs]: messages and their bounds, the
      hybrid primitives over the class [HybridPrims], server and client, the gate.
    - [SessionCache], [Pow], [Reputation]: the modules of those names.
    - [Connect]: the client and server handshake loops against each other.  [ZeroRtt]:
      resumption with early data.
    - [Routes], [CidRoutes], [Demux]: [api/udp_listener.rs].  [Listener]:
      [api/listener.rs].
    - [AddressWalk]: the walk over the addresses of a name.

    Transports.
    - [Datagram]: [transport/phantom_udp], [transport/fragmentation.rs],
      [transport/mtu.rs].  [UdpTransport]: [api/udp_transport.rs].  [Repair]: its timer
      against the demultiplexer.
    - [ByteStream]: [transport/write_stall.rs] and [api/tcp_transport.rs]; the class
      [Framing] is what a transport needs of its framing, [FramingLaws] what it owes.
    - [TlsRecords], [TlsHello], [TlsPrelude]: [transport/legs/mimic_tls].
    - [Frames]: [transport/framing.rs] and the embedded leg.  [Wasi]:
      [transport/legs/wasi.rs].

    - [Sidelines]: [transport/scheduler.rs], [transport/fallback.rs],
      [transport/buffer_pool.rs], [validation.rs], [config.rs].

    ** What the theorems show

    - Packets.  A sealed frame is opened by the peer to the same bytes
      ([Session.session_delivers]); opening accepts exactly what the AEAD opens under
      the epochs its gate admits ([packet_open_exact]); no key and nonce are used twice
      ([Channel.nonce_never_reused]); a packet is delivered at most once
      ([channel_delivers_at_most_once]), which rests on the refinement of the bitmap
      window to the set of numbers seen ([Replay.replay_window_refines_set]).  Header,
      acknowledgement, padding, bundle and compression codecs are inverse ([Wire], [Sack],
      [Shaping], [Coalesce], [Compression]).
    - Key rotation.  Two peers that rotate at will over a lossy network accept each
      other's packets ([RekeySync.rekey_gate_admits_honest]), except for one
      interleaving of sender and receiver task ([confirm_race_wedges_peers]).
    - Streams.  The sending half keeps its bookkeeping under every event
      ([StreamSend.send_invariant]) and answers acknowledgements exactly
      ([on_sack_exact]); the receiving half reassembles in order whatever arrives
      ([StreamRecv.reassembly_in_order]); joined over a network that loses, repeats and
      reorders, the application reads a prefix of what was written
      ([Arq.arq_delivers_prefix]) and nothing acknowledged is missing
      ([arq_nothing_lost]).  Flow-control credit keeps up with reading
      ([window_updates_keep_up]) and the shared budget is conserved by interleaved
      claims ([Growth.growth_budget_conserved]).
    - Congestion.  The filters keep the extremum of their window
      ([WinFilter.window_filters_exact]), the modes and the window stay in their bounds
      ([Bbr.bbr_modes_sound], [flight_within_one_segment]), the pacer never exceeds its
      rate beyond a burst ([Pacer.pacing_bounds_rate]).
    - The pump.  A packet that is not fresh and authentic changes nothing
      ([Pump.only_fresh_packets_act]); the reliable branch is the one [Arq] joins
      ([reliable_branch_is_arq]), and so is a drain pass ([SendLoop.drain_pass_is_arq]),
      which stops for the reason it names ([drain_stops_truthfully]); the stream table
      refines a table of four sets and counters ([StreamTable.stream_table_sound]); items
      reach the application in order and are charged exactly
      ([Delivery.delivery_fifo_accounted]), to the last one when the session ends
      ([DeliveryEnd.session_end_hands_over_everything]).
    - The end.  A local close pushes what is queued before it announces
      ([PumpLoop.close_pushes_then_announces]), the close of the peer drains
      ([peer_close_drains]), a silent path is given up behind its timeouts
      ([Liveness.silent_path_dies]).
    - The application.  Accepted writes reach the send buffers in order
      ([SessionApi.accepted_writes_in_order]), with the interleavings that break this or
      block the session stated beside it ([handshake_race_strands_write],
      [early_flush_holds_session_forever]).
    - Handshake.  A client accepts only what the owner of the pinned key answered to its
      own hello, or a forged signature or a SHA-256 collision is at hand
      ([Handshake.client_accepts_signed_answer]); the two loops connect over a
      transport that delivers ([Connect.connects]), also with early data
      ([ZeroRtt.resumes_with_data]); the length walk admits exactly what decodes
      within the caps ([HandshakeWire.hello_walk_exact]).
    - Listener.  Tables, tasks and queues stay bounded ([Demux.listener_bounded],
      [Listener.listener_is_bounded]), nothing is committed without a cookie
      ([Demux.commits_need_a_cookie]), live routes stay ([Routes.live_routes_stay]) and
      follow a migrating peer ([CidRoutes.window_stays_routed]).
    - Paths and connection ids.  A path is validated only by echoing its challenge
      ([Path.validated_only_by_challenge]), and challenges do not amplify
      ([UdpTransport.challenges_not_amplified]); the id window follows a peer that
      migrates ([Cid.cid_window_tracks_peer]), and the theorems beside it show where it
      does not.
    - Transports.  Fragments reassemble in any order ([Datagram.fragments_any_order])
      within the published limits ([assembler_bounded]); a lost handshake reply is
      repaired ([Repair.lost_reply_repaired]); the TCP framing delivers the messages
      written, however the bytes are cut ([ByteStream.Tcp.tcp_delivers]), and so do the
      records of the mimicry leg ([TlsRecords.mimic_delivers]) in bounded memory
      ([mimic_memory_bounded]); its prelude completes ([TlsPrelude.prelude_completes]);
      the embedded and the WASI leg speak the TCP framing
      ([Frames.Embedded.embedded_speaks_tcp], [Wasi.wasi_speaks_tcp]).
    - Theorems about what the code does against its own comments are stated as facts of
      the model, among them [Arq.unstampable_ack_drops_run], [Cid.sack_echo_keeps_rotating],
      [Cid.cid_wrap_strands_peer], [Datagram.stray_chunk_destroys],
      [Delivery.gap_fill_exceeds_published_charge], [DeliveryEnd.late_stream_never_ends],
      [Listener.second_accept_survives_shutdown], [Liveness.keepalive_answer_race_kills],
      [Pump.path_validation_lost_after_rekey], [Replay.replay_usize32_accepts_twice],
      [SessionApi.early_flush_reorders_writes], [TlsHello.hello_breaks_tls_rules].

    ** Conventions

    A [u8] to [u64] is a [Z] with its range as [in_u w]; wrapping, saturating and checked
    operations are written as the source has them.  Bytes are [Z]s in a list.  [Instant]s
    and [Duration]s are nanoseconds, the clock an argument [now].  Locks and
    atomics held for one operation are that operation's atomicity; where several tasks
    meet, a step relation has one rule per section between two waits.  [HashMap], [DashMap] and [BTreeMap] are finite maps, or association lists
    where the code scans them in order.

    Code outside the repository is a parameter.  The ciphers, hashes and key derivation
    are the fields of [Crypto.Primitives]; what is assumed of them (the sizes of their
    outputs, and that a sealed text opens to its plaintext) is [Crypto.PrimitiveLaws],
    and [toy_laws] shows the laws can hold.  No theorem assumes unforgeability: the ones
    about what is accepted say which AEAD call has to succeed.  The runtime's bounded
    channel is [Mux.Mpsc], of which nothing is assumed, except in [DeliveryEnd] that it
    drains while the application reads; its unbounded channels are first-in first-out
    lists.  [Hybrid.HybridPrims], [Handshake.HandshakeHash],
    [HandshakeWire.Borsh], [Pow.PowHash], [Compression.Codecs], [TlsHello.Rng] and
    [Wasi.WasiInput] stand for the crates and the host they name, each with its laws in
    a class beside it and an instance that satisfies them.  Other random draws, the
    answers of sockets and what another task did are arguments.

    ** Fuel

    Loops that are not structural run on fuel that is never short: [ratchet_loop] gets
    256 passes and an epoch is one byte; [StreamRecv.drain] gets the number of buffered
    segments and each pass removes one; [chunks] gets the length of the list and each
    pass takes at least one element; [dec_collect] gets the claimed count of
    sub-packets, which is the loop bound of the source; [Routes.evict_until] gets the
    size of the table and each pass forgets an entry; [drain_loop] of [TlsRecords],
    [parse_shares] and [parse_extensions] of [TlsHello] and the body readers of
    [ByteStream] and [Wasi] get the number of bytes and each pass takes at least one;
    [AddressWalk.contact] gets one turn per address.  The lemmas [drain_spec],
    [chunks_fuel_concat], [ratchet_to_epoch_reaches], [drain_loop_fuel], [read_body_spec]
    and [read_body_reads] prove it.  [PumpLoop.drain_passes] is bounded by the constant of
    the source.  The draws of [TlsHello.fresh_server_random], which the source repeats
    until one is allowed, are bounded by an argument.

    ** Not modelled

    The entry points of [lib.rs] and the foreign-function bindings (conversions around
    the calls modelled here); the WebSocket leg and the runtimes (adapters to the
    platform); the self tests and the AEAD wrapper (calls of third-party primitives);
    metrics and exporters, on which no control flow depends; the command-line, server and
    test programs.  Of the session, the resume constructor, the stream opening on the
    struct itself and its scheduler field, which the data path does not use.  Sockets,
    name resolution and log lines belong to the platform. *)

From Stdlib Require Import ZArith Lia.
From stdpp Require Import base numbers option list.

Local Open Scope Z_scope.

(** ** Machine integers

    A [w]-bit unsigned Rust integer is a [Z] together with the range predicate
    [in_u w]; the arithmetic the source asks for by name is spelled out here
    ([wrapping_*], [saturating_*], [checked_*]). *)

Definition u_max (w : Z) : Z := 2 ^ w - 1.
Arguments u_max w : simpl never.
Definition in_u (w x : Z) : Prop := 0 <= x < 2 ^ w.
Definition wrap (w x : Z) : Z := x mod 2 ^ w.
Definition sat_add (w x y : Z) : Z := Z.min (x + y) (u_max w).
Definition sat_mul (w x y : Z) : Z := Z.min (x * y) (u_max w).
Definition sat_sub (x y : Z) : Z := Z.max 0 (x - y).
Definition checked_add (w x y : Z) : option Z :=
  if x + y <=? u_max w then Some (x + y) else None.
Definition checked_sub (x y : Z) : option Z :=
  if y <=? x then Some (x - y) else None.
(** [i64]: the largest value, [try_from(x).unwrap_or(i64::MAX)] for [x >= 0], and the
    saturating operations. *)
Definition i64_max : Z := 2 ^ 63 - 1.
Definition to_i64 (x : Z) : Z := Z.min x i64_max.
Definition sat_i64 (x : Z) : Z := Z.max (- 2 ^ 63) (Z.min x i64_max).
(** [Ord::clamp]. *)
Definition clamp (x lo hi : Z) : Z := Z.max lo (Z.min x hi).

(** ** Results

    [Result<A, E>] of the source, with the [?] operator as a bind. *)

Inductive result (A E : Type) : Type :=
| Ok (a : A)
| Err (e : E).
Arguments Ok {A E} a.
Arguments Err {A E} e.

Declare Scope phantom_scope.
Delimit Scope phantom_scope with phantom.

Notation "x <-? m ; k" :=
  (match m with Ok x => k | Err e => Err e end)
  (at level 100, m at next level, right associativity) : phantom_scope.

Definition ok_or {A E} (o : option A) (e : E) : result A E :=
  match o with Some a => Ok a | None => Err e end.

Definition is_ok {A E} (r : result A E) : bool :=
  match r with Ok _ => true | Err _ => false end.

(** [unwrap] of a result known to be [Ok]. *)
Definition unwrap {A E} (r : result A E) : is_ok r = true -> A :=
  match r with Ok a => λ _, a | Err _ => λ H, False_rect A (Bool.diff_false_true H) end.

Lemma unwrap_eq {A E} (r : result A E) (H : is_ok r = true) : r = Ok (unwrap r H).
Proof. by destruct r. Qed.

(** ** Bytes

    A byte is a [Z] below 256; [be_encode n] is [to_be_bytes] of an integer of
    [n] bytes and [be_decode] is [from_be_bytes]. *)

Definition is_byte (b : Z) : Prop := 0 <= b < 256.
Definition is_bytes (l : list Z) : Prop := Forall is_byte l.

Fixpoint be_encode (n : nat) (x : Z) : list Z :=
  match n with
  | O => []
  | S n' => (x / 256 ^ Z.of_nat n') mod 256 :: be_encode n' x
  end.

Definition be_decode (l : list Z) : Z := foldl (λ acc b, acc * 256 + b) 0 l.

(** [to_le_bytes] and [from_le_bytes] are the same codec on the reversed list. *)
Definition le_encode (n : nat) (x : Z) : list Z := reverse (be_encode n x).
Definition le_decode (l : list Z) : Z := be_decode (reverse l).

(** [slice.len()] as a number. *)
Definition len {A} (l : list A) : Z := Z.of_nat (length l).

(** Half-open slice [l[a..b]]. *)
Definition slice {A} (a b : nat) (l : list A) : list A := take (b - a) (drop a l).

(** Rust's [slice::chunks n]: pieces of [n] elements, the last one shorter. *)
Fixpoint chunks_fuel {A} (fuel n : nat) (l : list A) : list (list A) :=
  match fuel with
  | O => []
  | S fuel' =>
    match l with
    | [] => []
    | _ => take n l :: chunks_fuel fuel' n (drop n l)
    end
  end.
Definition chunks {A} (n : nat) (l : list A) : list (list A) := chunks_fuel (length l) n l.

(** [usize::div_ceil]. *)
Definition div_ceil (a b : Z) : Z := (a + b - 1) / b.

(** Sum of a list of integers ([iter().sum()]). *)
Definition sum_Z (l : list Z) : Z := foldr Z.add 0 l.

(** Positions of a list counted from zero, as integers ([iter().enumerate()]). *)
Fixpoint index_from {A} (i : Z) (l : list A) : list (Z * A) :=
  match l with
  | [] => []
  | x :: l' => (i, x) :: index_from (i + 1) l'
  end.

(** ** Automation *)

Create HintDb phantom.
Create Rewrite HintDb phantom.

Ltac bool_to_prop :=
  repeat match goal with
  | H : (_ <? _) = true |- _ => apply Z.ltb_lt in H
  | H : (_ <? _) = false |- _ => apply Z.ltb_ge in H
  | H : (_ <=? _) = true |- _ => apply Z.leb_le in H
  | H : (_ <=? _) = false |- _ => apply Z.leb_gt in H
  | H : (_ =? _) = true |- _ => apply Z.eqb_eq in H
  | H : (_ =? _) = false |- _ => apply Z.eqb_neq in H
  | H : (_ && _)%bool = true |- _ => apply andb_true_iff in H; destruct H
  | H : (_ || _)%bool = false |- _ => apply orb_false_iff in H; destruct H
  | H : negb _ = true |- _ => apply negb_true_iff in H
  | H : negb _ = false |- _ => apply negb_false_iff in H
  end.

(** Case analysis on the next boolean test or [option] match of the goal. *)
Ltac case_test :=
  match goal with
  | |- context [if ?b then _ else _] => destruct b eqn:?; bool_to_prop
  | |- context [match ?o with Some _ => _ | None => _ end] => destruct o eqn:?
  end.

Ltac unfold_ints := unfold in_u, u_max, wrap, sat_add, sat_mul, sat_sub, checked_add, checked_sub in *.

(** ** Lemmas on integers *)

Lemma in_u_0 w : 0 <= w -> in_u w 0.
Proof. intros; unfold in_u; split; [lia | apply Z.pow_pos_nonneg; lia]. Qed.

Lemma clamp_bounds x lo hi : lo <= hi -> lo <= clamp x lo hi <= hi.
Proof. unfold clamp. lia. Qed.

Lemma wrap_small w x : in_u w x -> wrap w x = x.
Proof. apply Z.mod_small. Qed.

Lemma wrap_in_u w x : 0 <= w -> in_u w (wrap w x).
Proof. intros. apply Z.mod_pos_bound. apply Z.pow_pos_nonneg; lia. Qed.

Lemma checked_add_Some w x y z :
  checked_add w x y = Some z <-> z = x + y /\ x + y <= u_max w.
Proof.
  unfold checked_add. destruct (Z.leb_spec (x + y) (u_max w)).
  - split; [intros [= <-]; lia | by intros [-> _]].
  - split; [done | lia].
Qed.

Lemma checked_sub_Some x y z :
  checked_sub x y = Some z <-> z = x - y /\ y <= x.
Proof.
  unfold checked_sub. destruct (Z.leb_spec y x).
  - split; [intros [= <-]; lia | by intros [-> _]].
  - split; [done | lia].
Qed.

Lemma checked_sub_None x y : checked_sub x y = None <-> x < y.
Proof. unfold checked_sub. destruct (Z.leb_spec y x); split; (done || lia). Qed.

(** ** Lemmas on bytes *)

Lemma be_encode_length n x : length (be_encode n x) = n.
Proof. induction n; simpl; auto. Qed.

Lemma be_encode_bytes n x : is_bytes (be_encode n x).
Proof.
  induction n; simpl; constructor; auto.
  unfold is_byte. apply Z.mod_pos_bound; lia.
Qed.

Lemma foldl_be_acc l acc :
  foldl (λ acc b, acc * 256 + b) acc l
  = acc * 256 ^ Z.of_nat (length l) + be_decode l.
Proof.
  unfold be_decode. revert acc. induction l as [|b l IH]; intros acc; cbn [foldl length]; [lia|].
  rewrite IH, (IH (0 * 256 + b)). rewrite Nat2Z.inj_succ, Z.pow_succ_r by lia. lia.
Qed.

Lemma be_decode_cons b l :
  be_decode (b :: l) = b * 256 ^ Z.of_nat (length l) + be_decode l.
Proof. unfold be_decode at 1. simpl. apply foldl_be_acc. Qed.

Lemma be_decode_app l1 l2 :
  be_decode (l1 ++ l2) = be_decode l1 * 256 ^ Z.of_nat (length l2) + be_decode l2.
Proof. unfold be_decode at 1. rewrite foldl_app. apply foldl_be_acc. Qed.

Lemma be_decode_bound l : is_bytes l -> 0 <= be_decode l < 256 ^ Z.of_nat (length l).
Proof.
  induction 1 as [|b l Hb _ IH]; [cbv; split; congruence|].
  rewrite be_decode_cons. simpl length. rewrite Nat2Z.inj_succ, Z.pow_succ_r by lia.
  unfold is_byte in Hb. nia.
Qed.

Lemma be_decode_encode_mod n x :
  be_decode (be_encode n x) = x mod 256 ^ Z.of_nat n.
Proof.
  induction n as [|n IH]; [cbn; by rewrite Z.mod_1_r|].
  cbn [be_encode]. rewrite be_decode_cons, be_encode_length, IH.
  rewrite Nat2Z.inj_succ, Z.pow_succ_r by lia.
  rewrite (Z.mul_comm 256 (256 ^ _)), Z.rem_mul_r; [lia| |lia].
  apply Z.pow_nonzero; lia.
Qed.

Lemma be_decode_encode n x :
  0 <= x < 256 ^ Z.of_nat n -> be_decode (be_encode n x) = x.
Proof. intros. rewrite be_decode_encode_mod. by apply Z.mod_small. Qed.

Lemma be_encode_decode_gen l hi :
  is_bytes l -> be_encode (length l) (hi * 256 ^ Z.of_nat (length l) + be_decode l) = l.
Proof.
  intros H. revert hi. induction H as [|b l Hb Hl IH]; intros hi; [done|].
  cbn [length be_encode]. f_equal.
  - rewrite be_decode_cons, Nat2Z.inj_succ, Z.pow_succ_r by lia.
    pose proof (be_decode_bound l Hl). unfold is_byte in Hb.
    replace (hi * (256 * 256 ^ Z.of_nat (length l)) +
             (b * 256 ^ Z.of_nat (length l) + be_decode l))
      with ((hi * 256 + b) * 256 ^ Z.of_nat (length l) + be_decode l) by lia.
    rewrite Z.div_add_l by lia. rewrite Z.div_small, Z.add_0_r by lia.
    rewrite Z.add_comm, Z.mod_add by lia. by apply Z.mod_small.
  - rewrite be_decode_cons, Nat2Z.inj_succ, Z.pow_succ_r by lia.
    etrans; [|apply (IH (hi * 256 + b))]. f_equal. lia.
Qed.

Lemma be_encode_decode l : is_bytes l -> be_encode (length l) (be_decode l) = l.
Proof. intros H. pose proof (be_encode_decode_gen l 0 H) as E. by rewrite Z.mul_0_l in E. Qed.

Lemma be_encode_decode_len n l :
  n = length l -> is_bytes l -> be_encode n (be_decode l) = l.
Proof. intros ->. apply be_encode_decode. Qed.

Lemma be_encode_inj n x y :
  0 <= x < 256 ^ Z.of_nat n -> 0 <= y < 256 ^ Z.of_nat n ->
  be_encode n x = be_encode n y -> x = y.
Proof.
  intros Hx Hy E. apply (f_equal be_decode) in E. by rewrite !be_decode_encode in E.
Qed.

Lemma le_decode_encode n x :
  0 <= x < 256 ^ Z.of_nat n -> le_decode (le_encode n x) = x.
Proof. intros. unfold le_decode, le_encode. rewrite reverse_involutive. by apply be_decode_encode. Qed.

Lemma le_encode_length n x : length (le_encode n x) = n.
Proof. unfold le_encode. by rewrite length_reverse, be_encode_length. Qed.

Lemma is_bytes_check l : forallb (λ b, (0 <=? b) && (b <? 256)) l = true -> is_bytes l.
Proof. intros Hl. apply Forall_forall. intros b Hb%list_elem_of_In. rewrite forallb_forall in Hl. specialize (Hl b Hb). unfold is_byte. lia. Qed.

Lemma is_bytes_app l1 l2 : is_bytes (l1 ++ l2) <-> is_bytes l1 /\ is_bytes l2.
Proof. apply Forall_app. Qed.

Lemma is_bytes_take n l : is_bytes l -> is_bytes (take n l).
Proof. apply Forall_take. Qed.

Lemma is_bytes_drop n l : is_bytes l -> is_bytes (drop n l).
Proof. apply Forall_drop. Qed.

(** ** Lemmas on lists *)

Lemma sum_Z_cons x l : sum_Z (x :: l) = x + sum_Z l.
Proof. done. Qed.

Lemma sum_Z_app l1 l2 : sum_Z (l1 ++ l2) = sum_Z l1 + sum_Z l2.
Proof. induction l1; simpl; lia. Qed.

Lemma sum_Z_perm l1 l2 : l1 ≡ₚ l2 -> sum_Z l1 = sum_Z l2.
Proof. induction 1; simpl; lia. Qed.

#[export] Instance sum_Z_proper : Proper ((≡ₚ) ==> (=)) sum_Z.
Proof. intros l1 l2. apply sum_Z_perm. Qed.

Lemma sum_Z_nonneg l : Forall (λ x, 0 <= x) l -> 0 <= sum_Z l.
Proof. induction 1; simpl; lia. Qed.

Lemma filter_of_fmap {A B} (f : A -> B) (P : B -> Prop) `{∀ x, Decision (P x)} (l : list A) :
  filter P (f <$> l) = f <$> filter (λ x, P (f x)) l.
Proof.
  induction l as [|x l IH]; [done|]. rewrite fmap_cons, !filter_cons.
  case_decide; rewrite ?fmap_cons; by rewrite IH.
Qed.

Lemma len_nonneg {A} (l : list A) : 0 <= len l.
Proof. unfold len; lia. Qed.

Lemma len_cons {A} (x : A) (l : list A) : len (x :: l) = 1 + len l.
Proof. unfold len. cbn [length]. lia. Qed.

Lemma len_app {A} (l1 l2 : list A) : len (l1 ++ l2) = len l1 + len l2.
Proof. unfold len. rewrite length_app. lia. Qed.

Lemma take_app_exact {A} n (l1 l2 : list A) : n = length l1 -> take n (l1 ++ l2) = l1.
Proof. intros ->. apply take_app_length. Qed.

Lemma drop_app_exact {A} n (l1 l2 : list A) : n = length l1 -> drop n (l1 ++ l2) = l2.
Proof. intros ->. apply drop_app_length. Qed.

Lemma slice_app_mid {A} a b (pre mid t : list A) :
  a = length pre -> b = (a + length mid)%nat -> slice a b (pre ++ mid ++ t) = mid.
Proof.
  intros -> ->. unfold slice. rewrite drop_app_length.
  replace (length pre + length mid - length pre)%nat with (length mid) by lia. apply take_app_length.
Qed.

Lemma slice_bytes a b l : is_bytes l -> is_bytes (slice a b l).
Proof. intros. unfold slice. by apply is_bytes_take, is_bytes_drop. Qed.

Lemma slice_length {A} a b (l : list A) :
  (a <= b <= length l)%nat -> length (slice a b l) = (b - a)%nat.
Proof. intros. unfold slice. rewrite length_take, length_drop. lia. Qed.

(** A big-endian field read from a byte string is within its width. *)
Lemma be_field_bound a b l :
  is_bytes l -> (a <= b <= length l)%nat ->
  0 <= be_decode (slice a b l) < 256 ^ Z.of_nat (b - a).
Proof.
  intros Hl Hab. rewrite <- (slice_length a b l Hab). by apply be_decode_bound, slice_bytes.
Qed.

Lemma chunks_fuel_concat {A} fuel n (l : list A) :
  (0 < n)%nat -> (length l <= fuel)%nat -> concat (chunks_fuel fuel n l) = l.
Proof.
  intros Hn. revert l. induction fuel as [|fuel IH]; intros l Hl; simpl.
  - by destruct l; [|simpl in Hl; lia].
  - destruct l as [|x l]; [done|]. simpl concat.
    rewrite IH; [apply take_drop|]. rewrite length_drop. simpl in *. lia.
Qed.

Lemma chunks_concat {A} n (l : list A) : (0 < n)%nat -> concat (chunks n l) = l.
Proof. intros. by apply chunks_fuel_concat. Qed.

Lemma chunks_fuel_bound {A} fuel n (l : list A) :
  Forall (λ c, (length c <= n)%nat) (chunks_fuel fuel n l).
Proof.
  revert l. induction fuel as [|fuel IH]; intros l; simpl; [constructor|].
  destruct l; constructor; [rewrite length_take; lia | apply IH].
Qed.

Lemma chunks_fuel_length {A} fuel n (l : list A) :
  (0 < n)%nat -> (length l <= fuel)%nat ->
  Z.of_nat (length (chunks_fuel fuel n l)) = div_ceil (len l) (Z.of_nat n).
Proof.
  intros Hn. unfold div_ceil, len. revert l. induction fuel as [|fuel IH]; intros l Hl; simpl.
  - destruct l; [|simpl in Hl; lia]. simpl. symmetry. apply Z.div_small. lia.
  - destruct l as [|x l].
    + simpl. symmetry. apply Z.div_small. lia.
    + cbn [length]. rewrite Nat2Z.inj_succ, IH; [|rewrite length_drop; simpl in *; lia].
      rewrite length_drop. cbn [length].
      destruct (decide (S (length l) <= n)%nat) as [Hs|Hs].
      * replace (S (length l) - n)%nat with 0%nat by lia.
        rewrite Z.div_small by lia.
        replace (Z.of_nat (S (length l)) + Z.of_nat n - 1)
          with (Z.of_nat (length l) + 1 * Z.of_nat n) by lia.
        rewrite Z.div_add by lia. rewrite Z.div_small by lia. lia.
      * rewrite Nat2Z.inj_sub by lia.
        replace (Z.of_nat (S (length l)) + Z.of_nat n - 1)
          with ((Z.of_nat (S (length l)) - Z.of_nat n + Z.of_nat n - 1) + 1 * Z.of_nat n) by lia.
        rewrite Z.div_add by lia. lia.
Qed.

Lemma chunks_length {A} n (l : list A) :
  (0 < n)%nat -> len (chunks n l) = div_ceil (len l) (Z.of_nat n).
Proof. intros. by apply chunks_fuel_length. Qed.

Lemma index_from_fst {A} i (l : list A) :
  (index_from i l).*1 = seqZ i (len l).
Proof.
  revert i. induction l as [|x l IH]; intros i; [done|].
  cbn [index_from fmap list_fmap fst]. rewrite IH. unfold len. cbn [length].
  rewrite Nat2Z.inj_succ, (seqZ_cons i), Z.pred_succ by lia. done.
Qed.

Lemma index_from_snd {A} i (l : list A) : (index_from i l).*2 = l.
Proof. revert i. induction l as [|x l IH]; intros i; [done|]. cbn. by rewrite IH. Qed.

#[export] Hint Resolve be_encode_bytes is_bytes_take is_bytes_drop slice_bytes len_nonneg : phantom.
#[export] Hint Rewrite @length_app be_encode_length @length_take @length_drop @len_app : phantom.
