(* ===== verification/Errors.v ===== *)
(** * Errors ([core/src/errors.rs] and the AEAD errors of
      [core/src/crypto/adaptive_crypto.rs])

    The source's error values carry human-readable messages.  Where the code can
    fail for several reasons under one variant, the message is kept as a
    constructor of [CryptoFailure], so that theorems can tell the reasons apart;
    the texts themselves are not modelled. *)

From stdpp Require Import base decidable.

(** [adaptive_crypto::CryptoError]. *)
Inductive AeadError := EncryptionFailed | DecryptionFailed | NonceExhausted.

(** What the message of a [CoreError::CryptoError] says. *)
Inductive CryptoFailure :=
| KeySetupFailed            (* the AEAD or HKDF key could not be set up *)
| AeadFailure (e : AeadError)
| EpochSaturated            (* the epoch is u8::MAX; reconnect required *)
| EpochBehind               (* the packet's epoch is behind the current one *)
| ForwardEpochUnflagged     (* forward epoch without the REKEY flag *)
| EpochTooFarAhead          (* more than MAX_REKEY_CATCHUP ahead *)
| HpPayloadTooShort         (* the payload is shorter than the AEAD tag *)
| HpMalformedPacket
| HpUnmaskFailed.

Inductive CoreError :=
| NetworkError
| SerializationError
| ConfigError
| CryptoError (why : CryptoFailure)
| ValidationError
| KeyDerivationError
| RngError
| InternalError
| HandshakeError
| StreamError
| ConnectionClosed
| Timeout
| ReplayDetected
| CipherSuiteUnavailable
| ServerIdentityMismatch
| ProtocolRejected
| Unsupported
| FipsSelfTestFailure.

#[export] Instance AeadError_eq_dec : EqDecision AeadError.
Proof. solve_decision. Defined.
#[export] Instance CryptoFailure_eq_dec : EqDecision CryptoFailure.
Proof. solve_decision. Defined.
#[export] Instance CoreError_eq_dec : EqDecision CoreError.
Proof. solve_decision. Defined.
