(* ===== verification/Replay.v ===== *)
(** * The per-direction replay window ([core/src/security/replay_window.rs])

    The bitmap is the source's array of sixteen [u64] words, shifted in place by
    the two loops of [shift_left]; the cast [as usize] is kept, with the width of
    [usize] as a parameter of the section (64 on the servers, 32 on wasm32 and the
    small embedded targets).  The specification is a plain set of accepted numbers:
    a number is novel when it was not accepted before and lies less than
    [WINDOW_BITS] below the largest accepted one. *)

From Stdlib Require Import ZArith Lia.
From stdpp Require Import base numbers option list gmap.
From S2P Require Import Prelude.

Local Open Scope Z_scope.

Definition WINDOW_BITS : Z := 1024.
Definition WINDOW_WORDS : nat := 16.

Record ReplayWindow := mk_window {
  bitmap : list Z;
  high_watermark : Z;
  initialized : bool;
}.

(** [ReplayWindow::new]. *)
Definition new : ReplayWindow := mk_window (replicate WINDOW_WORDS 0) 0 false.

(** The loop [for i in (a..16).rev() { bitmap[i] = f(bitmap, i) }]. *)
Definition rev_update (f : list Z -> nat -> Z) (a : nat) (bm : list Z) : list Z :=
  foldl (λ bm i, <[i := f bm i]> bm) bm (reverse (seq a (WINDOW_WORDS - a))).

(** The words move [word_shift] places up and the lowest ones are cleared. *)
Definition move_words (word_shift : nat) (bm : list Z) : list Z :=
  foldl (λ bm i, <[i := 0]> bm)
    (rev_update (λ bm i, bm !!! (i - word_shift)%nat) word_shift bm)
    (seq 0 word_shift).

(** Each word moves up by [bit_shift], taking the carry of the word below. *)
Definition carry_word (bit_shift : Z) (bm : list Z) (i : nat) : Z :=
  let inv := 64 - bit_shift in
  Z.lor (wrap 64 (Z.shiftl (bm !!! i) bit_shift)) (Z.shiftr (bm !!! (i - 1)%nat) inv).

Definition move_bits (bit_shift : Z) (bm : list Z) : list Z :=
  let bm' := rev_update (carry_word bit_shift) 1 bm in
  <[0%nat := wrap 64 (Z.shiftl (bm' !!! 0%nat) bit_shift)]> bm'.

Definition shift_left (bm : list Z) (shift : Z) : list Z :=
  let word_shift := Z.to_nat (shift / 64) in
  let bit_shift := shift mod 64 in
  let bm1 := if (0 <? word_shift)%nat then move_words word_shift bm else bm in
  if 0 <? bit_shift then move_bits bit_shift bm1 else bm1.

Section Accept.

(** The width of [usize] on the target. *)
Context (usize_bits : Z).

(** [ReplayWindow::accept]: the verdict and the updated window. *)
Definition accept (w : ReplayWindow) (seq : Z) : bool * ReplayWindow :=
  if negb (initialized w) then
    (true, mk_window (<[0%nat := 1]> (bitmap w)) seq true)
  else if high_watermark w <? seq then
    let shift := wrap usize_bits (seq - high_watermark w) in
    let bm := if WINDOW_BITS <=? shift then replicate WINDOW_WORDS 0
              else shift_left (bitmap w) shift in
    (true, mk_window (<[0%nat := Z.lor (bm !!! 0%nat) 1]> bm) seq true)
  else
    let offset := wrap usize_bits (high_watermark w - seq) in
    if WINDOW_BITS <=? offset then (false, w)
    else
      let word := Z.to_nat (offset / 64) in
      let mask := Z.shiftl 1 (offset mod 64) in
      if negb (Z.land (bitmap w !!! word) mask =? 0) then (false, w)
      else (true, mk_window (<[word := Z.lor (bitmap w !!! word) mask]> (bitmap w))
                            (high_watermark w) (initialized w)).

(** The verdicts on a sequence of packet numbers. *)
Fixpoint run (w : ReplayWindow) (seqs : list Z) : list bool :=
  match seqs with
  | [] => []
  | n :: seqs' => let '(v, w') := accept w n in v :: run w' seqs'
  end.

End Accept.

(** ** Specification: the set of accepted numbers *)

Record seen_set := mk_seen { seen : gset Z; top : option Z }.

Definition spec_new : seen_set := mk_seen ∅ None.

Definition spec_accept (s : seen_set) (n : Z) : bool * seen_set :=
  match top s with
  | None => (true, mk_seen ({[n]} ∪ seen s) (Some n))
  | Some t =>
    if bool_decide ((n ∉ seen s) ∧ t - WINDOW_BITS < n)
    then (true, mk_seen ({[n]} ∪ seen s) (Some (Z.max t n)))
    else (false, s)
  end.

Fixpoint spec_run (s : seen_set) (seqs : list Z) : list bool :=
  match seqs with
  | [] => []
  | n :: seqs' => let '(v, s') := spec_accept s n in v :: spec_run s' seqs'
  end.

(** The numbers of [seqs] that a list of verdicts accepts. *)
Definition accepted (vs : list bool) (seqs : list Z) : list Z :=
  (filter (λ p, p.1 = true) (zip vs seqs)).*2.

(** ** Reading the bitmap *)

Definition bit_at (bm : list Z) (k : Z) : bool :=
  Z.testbit (bm !!! Z.to_nat (k / 64)) (k mod 64).

(** A well-formed bitmap: sixteen 64-bit words. *)
Definition wf_bitmap (bm : list Z) : Prop :=
  length bm = WINDOW_WORDS ∧ Forall (in_u 64) bm.

(** ** The two loops of [shift_left] *)

(** A descending update loop whose step reads only positions at or below the one
    it writes computes every position from the original array. *)
Lemma rev_fold_lookup (f : list Z -> nat -> Z) (a n : nat) (bm : list Z) (i : nat) :
  (∀ bm bm' i, (∀ j, (j <= i)%nat -> bm !!! j = bm' !!! j) -> f bm i = f bm' i) ->
  (a + n <= length bm)%nat ->
  foldl (λ bm i, <[i := f bm i]> bm) bm (reverse (seq a n)) !!! i
  = if decide (a <= i < a + n)%nat then f bm i else bm !!! i.
Proof.
  intros Hf. revert bm. induction n as [|n IH]; intros bm Hlen.
  { simpl. by rewrite decide_False by lia. }
  rewrite seq_S, reverse_snoc. cbn [foldl].
  rewrite IH by (rewrite length_insert; lia).
  destruct (decide (i = a + n)%nat) as [->|Hi].
  - rewrite decide_False, decide_True by lia.
    apply list_lookup_total_insert_eq. lia.
  - destruct (decide (a <= i < a + n)%nat).
    + rewrite decide_True by lia. apply Hf. intros j Hj.
      apply list_lookup_total_insert_ne. lia.
    + rewrite decide_False by lia. apply list_lookup_total_insert_ne. lia.
Qed.

Lemma rev_fold_length (f : list Z -> nat -> Z) l (bm : list Z) :
  length (foldl (λ bm i, <[i := f bm i]> bm) bm l) = length bm.
Proof. revert bm. induction l as [|i l IH]; intros bm; simpl; [done|]. by rewrite IH, length_insert. Qed.

Lemma rev_fold_wf (f : list Z -> nat -> Z) l (bm : list Z) :
  (∀ bm i, wf_bitmap bm -> in_u 64 (f bm i)) -> wf_bitmap bm ->
  wf_bitmap (foldl (λ bm i, <[i := f bm i]> bm) bm l).
Proof.
  intros Hf. revert bm. induction l as [|i l IH]; intros bm Hbm; simpl; [done|].
  apply IH. destruct Hbm as [Hl HF]. split; [by rewrite length_insert|].
  apply Forall_insert; [done|]. by apply Hf.
Qed.

Lemma zero_fold_lookup (n : nat) (bm : list Z) (i : nat) :
  (n <= length bm)%nat ->
  foldl (λ bm i, <[i := 0]> bm) bm (seq 0 n) !!! i = if decide (i < n)%nat then 0 else bm !!! i.
Proof.
  intros Hn. induction n as [|n IH]; [done|].
  rewrite seq_S, foldl_app. cbn [foldl]. simpl.
  destruct (decide (i = n)) as [->|Hi].
  - rewrite decide_True by lia. apply list_lookup_total_insert_eq.
    rewrite (rev_fold_length (λ _ _, 0)). lia.
  - rewrite list_lookup_total_insert_ne, IH by lia.
    repeat case_decide; (done || lia).
Qed.

Lemma wf_bitmap_word bm i : wf_bitmap bm -> in_u 64 (bm !!! i).
Proof.
  intros [_ HF]. destruct (decide (i < length bm)%nat) as [Hi|Hi].
  - by apply (Forall_lookup_total_1 _ _ _ HF).
  - rewrite list_lookup_total_alt, lookup_ge_None_2 by lia. unfold in_u; cbn; lia.
Qed.

Lemma testbit_above w j : in_u 64 w -> 64 <= j -> Z.testbit w j = false.
Proof.
  intros [H0 H64] Hj. destruct (decide (w = 0)) as [->|]; [apply Z.bits_0|].
  apply Z.bits_above_log2; [done|]. apply Z.log2_lt_pow2; [lia|].
  eapply Z.lt_le_trans; [done|]. apply Z.pow_le_mono_r; lia.
Qed.

Lemma in_u_lor w x y : in_u w x -> in_u w y -> in_u w (Z.lor x y).
Proof.
  intros [Hx1 Hx2] [Hy1 Hy2]. split; [apply Z.lor_nonneg; lia|].
  destruct (decide (Z.lor x y = 0)) as [->|]; [lia|].
  assert (Hl : 0 <= Z.lor x y) by (apply Z.lor_nonneg; lia).
  apply Z.log2_lt_pow2; [lia|]. rewrite Z.log2_lor by lia.
  assert (Hw : 0 < w).
  { destruct (decide (w < 0)); [rewrite Z.pow_neg_r in Hx2 by lia; lia|].
    destruct (decide (w = 0)) as [->|]; [|lia].
    assert (x = 0 ∧ y = 0) as [-> ->] by (change (2 ^ 0) with 1 in *; lia). done. }
  apply Z.max_lub_lt.
  - destruct (decide (x = 0)) as [->|]; [done|]. apply Z.log2_lt_pow2; lia.
  - destruct (decide (y = 0)) as [->|]; [done|]. apply Z.log2_lt_pow2; lia.
Qed.

Lemma in_u_shiftr w x n : 0 <= n -> in_u w x -> in_u w (Z.shiftr x n).
Proof.
  intros Hn [H0 H1]. rewrite Z.shiftr_div_pow2 by done.
  assert (0 < 2 ^ n) by (apply Z.pow_pos_nonneg; lia).
  split; [apply Z.div_pos; lia|].
  eapply Z.le_lt_trans; [apply Z.div_le_upper_bound with (q := x)|]; nia.
Qed.

Lemma move_words_bit ws bm k :
  wf_bitmap bm -> (ws <= WINDOW_WORDS)%nat -> 0 <= k < WINDOW_BITS ->
  bit_at (move_words ws bm) k
  = if k <? 64 * Z.of_nat ws then false else bit_at bm (k - 64 * Z.of_nat ws).
Proof.
  intros [Hlen _] Hws Hk. unfold bit_at, move_words, rev_update, WINDOW_WORDS, WINDOW_BITS in *.
  rewrite zero_fold_lookup by (rewrite (rev_fold_length (λ bm i, bm !!! (i - ws)%nat)); lia).
  rewrite (rev_fold_lookup (λ bm i, bm !!! (i - ws)%nat));
    [|intros ??? H; apply H; lia|lia].
  destruct (Z.ltb_spec k (64 * Z.of_nat ws)).
  - rewrite decide_True by (apply Nat2Z.inj_lt; rewrite Z2Nat.id; Z.to_euclidean_division_equations; lia).
    apply Z.bits_0.
  - rewrite decide_False by (rewrite Nat2Z.inj_lt, Z2Nat.id; Z.to_euclidean_division_equations; lia).
    rewrite decide_True by (rewrite Nat2Z.inj_le, Nat2Z.inj_lt, Z2Nat.id; Z.to_euclidean_division_equations; lia).
    f_equal; [f_equal|]; Z.to_euclidean_division_equations; lia.
Qed.

Lemma move_bits_lookup bs bm i :
  wf_bitmap bm -> (i < WINDOW_WORDS)%nat ->
  move_bits bs bm !!! i
  = Z.lor (wrap 64 (Z.shiftl (bm !!! i) bs))
          (if decide (i = 0%nat) then 0 else Z.shiftr (bm !!! (i - 1)%nat) (64 - bs)).
Proof.
  intros [Hlen _] Hi. unfold move_bits, rev_update, WINDOW_WORDS in *.
  set (f := carry_word bs).
  assert (Hf : ∀ bm bm' i, (∀ j, (j <= i)%nat -> bm !!! j = bm' !!! j) -> f bm i = f bm' i).
  { intros b b' j H. unfold f, carry_word. by rewrite !H by lia. }
  destruct (decide (i = 0%nat)) as [->|Hi0].
  - rewrite list_lookup_total_insert_eq by (rewrite (rev_fold_length f); lia).
    rewrite (rev_fold_lookup f) by (done || lia).
    rewrite decide_False by lia. by rewrite Z.lor_0_r.
  - rewrite list_lookup_total_insert_ne by done.
    rewrite (rev_fold_lookup f) by (done || lia). by rewrite decide_True by lia.
Qed.

Lemma move_bits_bit bs bm k :
  wf_bitmap bm -> 0 < bs < 64 -> 0 <= k < WINDOW_BITS ->
  bit_at (move_bits bs bm) k = if k <? bs then false else bit_at bm (k - bs).
Proof.
  intros Hwf Hbs Hk. unfold bit_at, WINDOW_BITS in *.
  set (j := k mod 64). set (i := Z.to_nat (k / 64)).
  assert (Hj : 0 <= j < 64) by (apply Z.mod_pos_bound; lia).
  assert (Hi : Z.of_nat i = k / 64) by (apply Z2Nat.id, Z.div_pos; lia).
  assert (Hkij : k = 64 * Z.of_nat i + j) by (rewrite Hi; apply Z.div_mod; lia).
  rewrite move_bits_lookup by (done || (unfold WINDOW_WORDS; lia)).
  rewrite Z.lor_spec. unfold wrap. rewrite Z.mod_pow2_bits_low, Z.shiftl_spec by lia.
  destruct (decide (bs <= j)) as [Hb|Hb].
  - destruct (Z.ltb_spec k bs); [lia|].
    replace (Z.to_nat ((k - bs) / 64)) with i by (Z.to_euclidean_division_equations; lia).
    replace ((k - bs) mod 64) with (j - bs) by (Z.to_euclidean_division_equations; lia).
    case_decide; [by rewrite Z.bits_0, orb_false_r|].
    rewrite Z.shiftr_spec by lia.
    rewrite (testbit_above _ (j + _)) by (lia || by apply wf_bitmap_word).
    apply orb_false_r.
  - rewrite (Z.testbit_neg_r _ (j - bs)) by lia. cbn [orb].
    case_decide as Hi0.
    + rewrite Z.bits_0. destruct (Z.ltb_spec k bs); [done|lia].
    + destruct (Z.ltb_spec k bs); [lia|]. rewrite Z.shiftr_spec by lia.
      f_equal; [f_equal|]; Z.to_euclidean_division_equations; lia.
Qed.

Lemma move_words_wf ws bm : wf_bitmap bm -> wf_bitmap (move_words ws bm).
Proof.
  intros. apply (rev_fold_wf (λ _ _, 0)); [intros; by apply in_u_0|].
  apply rev_fold_wf; [|done]. intros b i Hb. by apply wf_bitmap_word.
Qed.

Lemma move_bits_wf bs bm : 0 < bs < 64 -> wf_bitmap bm -> wf_bitmap (move_bits bs bm).
Proof.
  intros Hbs Hbm. unfold move_bits, rev_update.
  match goal with |- wf_bitmap (<[_ := _]> ?b) => assert (Hb : wf_bitmap b) end.
  { apply rev_fold_wf; [|done].
    intros b i Hb'. apply in_u_lor; [by apply wrap_in_u|].
    apply in_u_shiftr; [lia|]. by apply wf_bitmap_word. }
  destruct Hb as [Hl HF]. split; [by rewrite length_insert|].
  apply Forall_insert; [done|]. by apply wrap_in_u.
Qed.

Lemma shift_left_wf bm s : 0 <= s < WINDOW_BITS -> wf_bitmap bm -> wf_bitmap (shift_left bm s).
Proof.
  intros Hs Hbm. unfold shift_left.
  assert (wf_bitmap (if (0 <? Z.to_nat (s / 64))%nat then move_words (Z.to_nat (s / 64)) bm else bm)).
  { case_match; [by apply move_words_wf|done]. }
  destruct (Z.ltb_spec 0 (s mod 64)); [|done].
  apply move_bits_wf; [|done]. pose proof (Z.mod_pos_bound s 64). lia.
Qed.

(** The whole shift moves every bit [s] places up, across word boundaries. *)
Lemma shift_left_bit_at bm s k :
  wf_bitmap bm -> 0 <= s < WINDOW_BITS -> 0 <= k < WINDOW_BITS ->
  bit_at (shift_left bm s) k = if k <? s then false else bit_at bm (k - s).
Proof.
  intros Hwf Hs Hk. unfold shift_left.
  set (ws := Z.to_nat (s / 64)). set (bs := s mod 64).
  assert (Hbs : 0 <= bs < 64) by (apply Z.mod_pos_bound; lia).
  assert (Hws : Z.of_nat ws = s / 64) by (apply Z2Nat.id, Z.div_pos; lia).
  assert (Hsum : s = 64 * Z.of_nat ws + bs) by (rewrite Hws; apply Z.div_mod; lia).
  assert (Hw : ∀ k, 0 <= k < WINDOW_BITS ->
     bit_at (if (0 <? ws)%nat then move_words ws bm else bm) k
     = if k <? 64 * Z.of_nat ws then false else bit_at bm (k - 64 * Z.of_nat ws)).
  { intros k' Hk'. destruct (Nat.ltb_spec 0 ws).
    - apply move_words_bit; [done| |done]. unfold WINDOW_WORDS, WINDOW_BITS in *. lia.
    - replace ws with 0%nat by lia. rewrite Z.mul_0_r, Z.sub_0_r.
      by destruct (Z.ltb_spec k' 0); [lia|]. }
  destruct (Z.ltb_spec 0 bs).
  - rewrite move_bits_bit by (try apply Hk; try lia; case_match; by try apply move_words_wf).
    destruct (Z.ltb_spec k bs); [by destruct (Z.ltb_spec k s); [|lia]|].
    rewrite Hw by lia.
    destruct (Z.ltb_spec (k - bs) (64 * Z.of_nat ws)), (Z.ltb_spec k s); try (done || lia).
    f_equal. lia.
  - rewrite Hw by done. by replace (64 * Z.of_nat ws) with s by lia.
Qed.

(** ** Refinement of the set specification *)

Lemma bit_at_set_gen bm k j :
  0 <= k -> 0 <= j -> (Z.to_nat (k / 64) < length bm)%nat ->
  bit_at (<[Z.to_nat (k / 64) := Z.lor (bm !!! Z.to_nat (k / 64)) (Z.shiftl 1 (k mod 64))]> bm) j
  = (j =? k) || bit_at bm j.
Proof.
  intros Hk Hj Hlen. unfold bit_at.
  destruct (decide (Z.to_nat (j / 64) = Z.to_nat (k / 64))) as [E|E].
  - rewrite <- E in *. rewrite list_lookup_total_insert_eq by done.
    rewrite Z.lor_spec, orb_comm. f_equal.
    rewrite Z.shiftl_spec by (apply Z.mod_pos_bound; lia).
    destruct (Z.eqb_spec j k) as [->|Hne]; [by rewrite Z.sub_diag|].
    destruct (decide (j mod 64 - k mod 64 < 0)); [by rewrite Z.testbit_neg_r|].
    apply (Z.bits_above_log2 1); [lia|].
    change (Z.log2 1) with 0. Z.to_euclidean_division_equations. lia.
  - rewrite list_lookup_total_insert_ne by done.
    destruct (Z.eqb_spec j k) as [->|]; done.
Qed.

Lemma bit_at_set bm k j :
  wf_bitmap bm -> 0 <= k < WINDOW_BITS -> 0 <= j < WINDOW_BITS ->
  bit_at (<[Z.to_nat (k / 64) := Z.lor (bm !!! Z.to_nat (k / 64)) (Z.shiftl 1 (k mod 64))]> bm) j
  = (j =? k) || bit_at bm j.
Proof.
  intros [Hlen _] Hk Hj. apply bit_at_set_gen; [lia..|]. rewrite Hlen.
  unfold WINDOW_BITS, WINDOW_WORDS in *. Z.to_euclidean_division_equations. lia.
Qed.

Lemma set_bit_wf bm i x : wf_bitmap bm -> in_u 64 x -> wf_bitmap (<[i := x]> bm).
Proof. intros [Hl HF] Hx. split; [by rewrite length_insert|]. by apply Forall_insert. Qed.

Lemma zero_bitmap_wf : wf_bitmap (replicate WINDOW_WORDS 0).
Proof. split; [done|]. apply Forall_replicate. by apply in_u_0. Qed.

Lemma zero_bitmap_bit k : 0 <= k < WINDOW_BITS -> bit_at (replicate WINDOW_WORDS 0) k = false.
Proof.
  intros Hk. unfold bit_at, WINDOW_BITS, WINDOW_WORDS in *.
  rewrite lookup_total_replicate_2 by (Z.to_euclidean_division_equations; lia). apply Z.bits_0.
Qed.

Lemma land_mask_bit bm k :
  0 <= k -> (Z.land (bm !!! Z.to_nat (k / 64)) (Z.shiftl 1 (k mod 64)) =? 0) = negb (bit_at bm k).
Proof.
  intros Hk. unfold bit_at. set (w := bm !!! _). set (b := k mod 64).
  assert (0 <= b) by (apply Z.mod_pos_bound; lia).
  destruct (Z.testbit w b) eqn:E; cbn [negb].
  - apply Z.eqb_neq. intros H0. apply (f_equal (λ x, Z.testbit x b)) in H0.
    rewrite Z.land_spec, Z.shiftl_spec, Z.sub_diag, E, Z.bits_0 in H0 by done. done.
  - apply Z.eqb_eq. apply Z.bits_inj'. intros n Hn.
    rewrite Z.land_spec, Z.bits_0, Z.shiftl_spec by done.
    destruct (decide (n = b)) as [->|]; [by rewrite E|].
    destruct (decide (n < b)); [by rewrite (Z.testbit_neg_r _ (n - b)), andb_false_r by lia|].
    rewrite (Z.bits_above_log2 1); [apply andb_false_r|lia|change (Z.log2 1) with 0; lia].
Qed.

(** The bitmap describes the last [WINDOW_BITS] numbers below the high watermark. *)
Record represents (w : ReplayWindow) (s : seen_set) : Prop := {
  rep_wf : wf_bitmap (bitmap w);
  rep_top : top s = if initialized w then Some (high_watermark w) else None;
  rep_range : ∀ n, n ∈ seen s -> 0 <= n <= high_watermark w;
  rep_high : initialized w = true -> high_watermark w ∈ seen s;
  rep_empty : initialized w = false -> seen s = ∅ ∧ bitmap w = replicate WINDOW_WORDS 0;
  rep_bits : initialized w = true -> ∀ k, 0 <= k < WINDOW_BITS ->
             bit_at (bitmap w) k = true <-> (high_watermark w - k) ∈ seen s;
}.

Lemma represents_new : represents new spec_new.
Proof.
  split; simpl; try done.
  apply zero_bitmap_wf.
Qed.

Lemma lor_1_is_set (bm : list Z) :
  <[0%nat := Z.lor (bm !!! 0%nat) 1]> bm
  = <[Z.to_nat (0 / 64) := Z.lor (bm !!! Z.to_nat (0 / 64)) (Z.shiftl 1 (0 mod 64))]> bm.
Proof. done. Qed.

(** After a new top number every bit reads the old window [d] places lower. *)
Lemma forward_represents (w : ReplayWindow) s n bm :
  represents w s -> initialized w = true -> high_watermark w < n ->
  wf_bitmap bm ->
  (∀ k, 0 <= k < WINDOW_BITS ->
     bit_at bm k = if k <? n - high_watermark w then false
                   else bit_at (bitmap w) (k - (n - high_watermark w))) ->
  represents (mk_window (<[0%nat := Z.lor (bm !!! 0%nat) 1]> bm) n true)
             (mk_seen ({[n]} ∪ seen s) (Some n)).
Proof.
  intros [Hwf Htop Hrange Hhigh _ Hbits] Hi Hlt Hbm Hbit.
  pose proof (Hrange _ (Hhigh Hi)). specialize (Hbits Hi).
  split; cbn; try done.
  - apply set_bit_wf; [done|]. apply in_u_lor; [by apply wf_bitmap_word|]. by split.
  - intros m [->%elem_of_singleton|Hm]%elem_of_union; [lia|]. specialize (Hrange _ Hm). lia.
  - intros _. set_solver.
  - intros _ k Hk. rewrite lor_1_is_set, bit_at_set by (done || unfold WINDOW_BITS; lia).
    rewrite Hbit by done. rewrite orb_true_iff, Z.eqb_eq.
    rewrite elem_of_union, elem_of_singleton.
    destruct (Z.ltb_spec k (n - high_watermark w)).
    + split; [intros [->|[=]]; left; lia|]. intros [?|Hm%Hrange]; [left; lia|lia].
    + rewrite Hbits by lia. replace (high_watermark w - _) with (n - k) by lia. naive_solver lia.
Qed.

Lemma first_represents w s n :
  represents w s -> initialized w = false -> 0 <= n ->
  represents (mk_window (<[0%nat := 1]> (bitmap w)) n true) (mk_seen ({[n]} ∪ seen s) (Some n)).
Proof.
  intros [_ _ _ _ Hempty _] Hi Hn. destruct (Hempty Hi) as [-> ->].
  change (<[0%nat := 1]> (replicate WINDOW_WORDS 0))
    with (<[0%nat := Z.lor (replicate WINDOW_WORDS 0 !!! 0%nat) 1]> (replicate WINDOW_WORDS 0)).
  split; cbn [bitmap high_watermark initialized seen top]; try done.
  - apply set_bit_wf; [apply zero_bitmap_wf|by split].
  - intros m Hm. assert (m = n) as -> by set_solver. lia.
  - intros _. set_solver.
  - intros _ k Hk.
    rewrite lor_1_is_set, bit_at_set by (apply zero_bitmap_wf || unfold WINDOW_BITS in *; lia).
    rewrite zero_bitmap_bit, orb_false_r, Z.eqb_eq by done.
    rewrite elem_of_union, elem_of_singleton. split; [intros ->; left; lia|].
    intros [?|?]; [lia|set_solver].
Qed.

(** Marking a number inside the window sets exactly its bit. *)
Lemma mark_represents w s n :
  let offset := high_watermark w - n in
  let word := Z.to_nat (offset / 64) in
  represents w s -> initialized w = true -> 0 <= n -> 0 <= offset < WINDOW_BITS ->
  represents (mk_window (<[word := Z.lor (bitmap w !!! word) (Z.shiftl 1 (offset mod 64))]> (bitmap w))
                        (high_watermark w) true)
             (mk_seen ({[n]} ∪ seen s) (Some (high_watermark w))).
Proof.
  intros offset word [Hwf Htop Hrange Hhigh _ Hbits] Hi Hn Ho.
  specialize (Hbits Hi). specialize (Hhigh Hi).
  split; cbn; rewrite ?Hi; try done.
  - apply set_bit_wf; [done|]. apply in_u_lor; [by apply wf_bitmap_word|].
    assert (0 <= offset mod 64 < 64) by (apply Z.mod_pos_bound; lia).
    rewrite Z.shiftl_1_l. split; [apply Z.pow_nonneg; lia|]. apply Z.pow_lt_mono_r; lia.
  - intros m [->%elem_of_singleton|Hm]%elem_of_union; [lia|by apply Hrange].
  - intros _. set_solver.
  - intros _ k Hk. unfold word. rewrite bit_at_set, orb_true_iff, Z.eqb_eq, Hbits by (done || lia).
    rewrite elem_of_union, elem_of_singleton. split; (intros [?|?]; [left; lia|by right]).
Qed.

(** One call of [accept] answers as the set does and keeps representing it. *)
Lemma accept_refines usize_bits w s n :
  10 <= usize_bits -> in_u usize_bits n -> in_u usize_bits (high_watermark w) ->
  represents w s ->
  (accept usize_bits w n).1 = (spec_accept s n).1 ∧
  represents (accept usize_bits w n).2 (spec_accept s n).2 ∧
  in_u usize_bits (high_watermark (accept usize_bits w n).2).
Proof.
  intros HW Hn Hh Hrep. unfold accept, spec_accept. rewrite (rep_top _ _ Hrep).
  destruct (initialized w) eqn:Hi; cbn [negb]; [|].
  2: { split; [done|]. split; [|done]. apply first_represents; [done..|]. unfold in_u in Hn; lia. }
  pose proof Hrep as [Hwf Htop Hrange Hhigh _ Hbits]. specialize (Hbits Hi). specialize (Hhigh Hi).
  unfold in_u in Hn, Hh. unfold wrap.
  destruct (Z.ltb_spec (high_watermark w) n) as [Hlt|Hge].
  - rewrite (Z.mod_small (n - _)) by lia.
    rewrite bool_decide_true by (split; [intros Hm; specialize (Hrange _ Hm); lia|unfold WINDOW_BITS; lia]).
    rewrite Z.max_r by lia. split; [done|]. split; [|by unfold in_u; cbn].
    apply (forward_represents w s); [done..| |].
    + destruct (Z.leb_spec WINDOW_BITS (n - high_watermark w)); [apply zero_bitmap_wf|].
      apply shift_left_wf; [lia|done].
    + intros k Hk. destruct (Z.leb_spec WINDOW_BITS (n - high_watermark w)).
      * rewrite zero_bitmap_bit by done. by destruct (Z.ltb_spec k (n - high_watermark w)); [|lia].
      * apply shift_left_bit_at; [done|lia|done].
  - rewrite (Z.mod_small (high_watermark w - n)) by lia.
    destruct (Z.leb_spec WINDOW_BITS (high_watermark w - n)).
    { rewrite bool_decide_false by lia. by split; [|split]. }
    rewrite land_mask_bit, negb_involutive by lia.
    pose proof (Hbits (high_watermark w - n) ltac:(lia)) as Hb.
    replace (high_watermark w - (high_watermark w - n)) with n in Hb by lia.
    destruct (bit_at (bitmap w) (high_watermark w - n)) eqn:Eb.
    { rewrite bool_decide_false by (intros [Hm _]; apply Hm; by apply Hb). by split; [|split]. }
    rewrite bool_decide_true by (split; [intros Hm; apply Hb in Hm; done|lia]).
    rewrite Z.max_l by lia. split; [done|]. split; [|by unfold in_u; cbn].
    cbn [snd]. apply mark_represents; (done || lia).
Qed.

Lemma run_refines usize_bits w s seqs :
  10 <= usize_bits -> Forall (in_u usize_bits) seqs -> in_u usize_bits (high_watermark w) ->
  represents w s -> run usize_bits w seqs = spec_run s seqs.
Proof.
  intros HW HF. revert w s. induction HF as [|n seqs Hn _ IH]; intros w s Hh Hrep; simpl; [done|].
  destruct (accept_refines usize_bits w s n) as (Hv & Hr & Hh'); [done..|].
  destruct (accept usize_bits w n) as [v w'], (spec_accept s n) as [v' s'].
  simpl in *. subst v'. f_equal. by apply IH.
Qed.

Lemma accepted_cons v n vs seqs :
  accepted (v :: vs) (n :: seqs) = (if v then [n] else []) ++ accepted vs seqs.
Proof. unfold accepted. simpl. rewrite filter_cons. by destruct v. Qed.

(** Every number the set accepts is new to it. *)
Lemma spec_accepted_novel s seqs :
  (top s = None -> seen s = ∅) ->
  NoDup (accepted (spec_run s seqs) seqs) ∧
  (∀ n, n ∈ accepted (spec_run s seqs) seqs -> n ∉ seen s).
Proof.
  revert s. induction seqs as [|n seqs IH]; intros s Hs; simpl.
  { split; [constructor|]. intros n Hn. by apply elem_of_nil in Hn. }
  destruct (spec_accept s n) as [v s'] eqn:E. rewrite accepted_cons.
  assert (Hs' : (top s' = None -> seen s' = ∅) ∧
                (if v then (n ∉ seen s) ∧ seen s' = {[n]} ∪ seen s else s' = s)).
  { unfold spec_accept in E. destruct (top s) as [t|] eqn:Et.
    - case_bool_decide as Hd; injection E as <- <-; (split; [done || congruence|]); [by destruct Hd|done].
    - injection E as <- <-. split; [done|]. rewrite (Hs eq_refl). split; [set_solver|done]. }
  destruct Hs' as [Hs1 Hs2]. destruct (IH s' Hs1) as [IH1 IH2]. destruct v; simpl.
  - destruct Hs2 as [Hn Hseen]. rewrite Hseen in IH2. split.
    + constructor; [|done]. intros Hin. apply IH2 in Hin. set_solver.
    + intros m [->|Hm]%elem_of_cons; [done|]. apply IH2 in Hm. set_solver.
  - by subst s'.
Qed.

(** ** Properties *)

(** C37: On every sequence of packet numbers that fit the platform's [usize], the
    sliding bitmap of [ReplayWindow] gives exactly the verdicts of the set
    specification: a number is accepted when it was never accepted before and lies
    less than [WINDOW_BITS] below the largest number accepted so far, and rejected
    otherwise. *)
Theorem replay_window_refines_set (usize_bits : Z) (seqs : list Z) :
  10 <= usize_bits -> Forall (in_u usize_bits) seqs ->
  run usize_bits new seqs = spec_run spec_new seqs.
Proof.
  intros HW HF. apply run_refines; [done..| |apply represents_new].
  apply in_u_0. lia.
Qed.

Lemma replay_window_refines_set_witness :
  run 64 new [5; 7; 5; 2000; 977; 976; 977] = spec_run spec_new [5; 7; 5; 2000; 977; 976; 977] ∧
  run 64 new [5; 7; 5; 2000; 977; 976; 977] = [true; true; false; true; true; false; false].
Proof.
  split; [|vm_compute; reflexivity].
  apply replay_window_refines_set; [lia|].
  repeat constructor; vm_compute; congruence.
Defined.

(** On a 64-bit target no [u64] packet number is ever accepted twice, whatever
    the order in which the numbers arrive. *)
Theorem replay_never_accepts_twice (seqs : list Z) :
  Forall (in_u 64) seqs -> NoDup (accepted (run 64 new seqs) seqs).
Proof.
  intros HF. rewrite (run_refines 64 new spec_new);
    [|lia|done|by apply in_u_0|apply represents_new].
  by apply spec_accepted_novel.
Qed.

Lemma replay_never_accepts_twice_witness :
  NoDup (accepted (run 64 new [3; 1; 3; 1; 4; 1]) [3; 1; 3; 1; 4; 1]).
Proof. apply replay_never_accepts_twice. repeat constructor; vm_compute; congruence. Defined.

(** [shift_left] moves the bit at every position [k - s] to position [k] and
    clears the [s] lowest positions, across the word boundaries of the array. *)
Theorem shift_left_moves_bits (bm : list Z) (s k : Z) :
  wf_bitmap bm -> 0 <= s < WINDOW_BITS -> 0 <= k < WINDOW_BITS ->
  wf_bitmap (shift_left bm s) ∧
  bit_at (shift_left bm s) k = if k <? s then false else bit_at bm (k - s).
Proof.
  intros. split; [by apply shift_left_wf | by apply shift_left_bit_at].
Qed.

Lemma shift_left_moves_bits_witness :
  bit_at (shift_left (1 :: replicate 15 0) 70) 70 = true.
Proof.
  apply (shift_left_moves_bits (1 :: replicate 15 0) 70 70); [|by split..].
  split; [done|]. repeat constructor; vm_compute; congruence.
Defined.

(** With a 32-bit [usize] the casts in [accept] drop the high bits of the
    distance: after a jump past [2^32] the number 100 is accepted a second time. *)
Theorem replay_usize32_accepts_twice :
  run 32 new [100; 2000; 2 ^ 32 + 150; 100] = [true; true; true; true].
Proof. vm_compute. reflexivity. Qed.
