(* ===== verification/Wire.v ===== *)
(** * The data-plane packet codec ([core/src/transport/types.rs])

    Flags, the 15-byte header, the 47-byte image authenticated by the AEAD, the
    packet and the header-protected (masked) packet.  Byte strings are lists of
    byte-sized integers; the header's arrays are the concatenation of the fields
    in the order the source writes them. *)

From Stdlib Require Import ZArith Lia String.
From stdpp Require Import base numbers option list sets.
From S2P Require Import Prelude.

Local Open Scope Z_scope.
Local Open Scope phantom_scope.

Definition WIRE_VERSION : Z := 8.
Definition HEADER_SIZE : nat := 15.
Definition AAD_SIZE : nat := 47.
Definition HP_PROTECTED_OFFSET : nat := 0.
Definition HP_PROTECTED_LEN : nat := HEADER_SIZE - HP_PROTECTED_OFFSET.
Definition WINDOW_UPDATE_PAYLOAD_LEN : nat := 8.
Definition CONTROL_SUBTYPE_LEN : nat := 1.
Definition CONTROL_CLOSE : Z := 1.

Inductive WireError := Truncated.

(** ** Flags *)

Definition RELIABLE : Z := 0x0001.
Definition ACK : Z := 0x0002.
Definition FIN : Z := 0x0004.
Definition UNRELIABLE : Z := 0x0008.
Definition PRIORITY : Z := 0x0010.
Definition ENCRYPTED : Z := 0x0020.
Definition COMPRESSED : Z := 0x0040.
Definition CONTROL : Z := 0x0080.
Definition REKEY : Z := 0x0100.
Definition PATH_VALIDATION : Z := 0x0200.
Definition COALESCED : Z := 0x0400.
Definition WINDOW_UPDATE : Z := 0x0800.
Definition KEEPALIVE : Z := 0x1000.
Definition PADDED : Z := 0x2000.
Definition COVER : Z := 0x4000.

(** Every assigned flag, in the order of the source. *)
Definition all_flags : list Z :=
  [RELIABLE; ACK; FIN; UNRELIABLE; PRIORITY; ENCRYPTED; COMPRESSED; CONTROL; REKEY;
   PATH_VALIDATION; COALESCED; WINDOW_UPDATE; KEEPALIVE; PADDED; COVER].

Definition flags_empty : Z := 0.
Definition flags_contains (f flag : Z) : bool := Z.land f flag =? flag.
Definition flags_set (f flag : Z) : Z := Z.lor f flag.
(** [self.0 &= !flag] on a [u16]. *)
Definition flags_clear (f flag : Z) : Z := Z.land f (Z.lxor flag (u_max 16)).
Definition is_reliable (f : Z) : bool := flags_contains f RELIABLE.
Definition is_ack (f : Z) : bool := flags_contains f ACK.
Definition is_fin (f : Z) : bool := flags_contains f FIN.
Definition is_control (f : Z) : bool := flags_contains f CONTROL.
Definition is_rekey (f : Z) : bool := flags_contains f REKEY.

(** The names [fmt::Debug] prints. *)
Definition flag_names (f : Z) : list string :=
  omap (λ p, if flags_contains f p.1 then Some p.2 else None)
    [(RELIABLE, "RELIABLE"); (ACK, "ACK"); (FIN, "FIN"); (UNRELIABLE, "UNRELIABLE");
     (PRIORITY, "PRIORITY"); (ENCRYPTED, "ENCRYPTED"); (COMPRESSED, "COMPRESSED");
     (CONTROL, "CONTROL"); (REKEY, "REKEY"); (PATH_VALIDATION, "PATH_VALIDATION");
     (COALESCED, "COALESCED"); (WINDOW_UPDATE, "WINDOW_UPDATE")]%string.

(** ** Header *)

Record PacketHeader := mk_header {
  version : Z;
  session_id : list Z;
  stream_id : Z;
  packet_number : Z;
  flags : Z;
  epoch : Z;
  path_id : Z;
}.

Definition header_new (sid : list Z) (stream pn fl : Z) : PacketHeader :=
  mk_header WIRE_VERSION sid stream pn fl 0 0.
Definition with_epoch (h : PacketHeader) (e : Z) : PacketHeader :=
  mk_header (version h) (session_id h) (stream_id h) (packet_number h) (flags h) e (path_id h).
Definition with_path_id (h : PacketHeader) (p : Z) : PacketHeader :=
  mk_header (version h) (session_id h) (stream_id h) (packet_number h) (flags h) (epoch h) p.
(** The assignment of the off-wire [session_id] by the receiving session. *)
Definition with_session_id (h : PacketHeader) (sid : list Z) : PacketHeader :=
  mk_header (version h) sid (stream_id h) (packet_number h) (flags h) (epoch h) (path_id h).

Definition header_to_wire (h : PacketHeader) : list Z :=
  [version h] ++ be_encode 8 (packet_number h) ++ be_encode 2 (flags h)
    ++ be_encode 2 (stream_id h) ++ [epoch h] ++ [path_id h].

Definition to_aad_image (h : PacketHeader) : list Z :=
  [version h] ++ session_id h ++ be_encode 8 (packet_number h) ++ be_encode 2 (flags h)
    ++ be_encode 2 (stream_id h) ++ [epoch h] ++ [path_id h].

Definition header_from_wire (bytes : list Z) : result PacketHeader WireError :=
  if (length bytes <? HEADER_SIZE)%nat then Err Truncated
  else Ok {|
    version := bytes !!! 0%nat;
    session_id := replicate 32 0;
    packet_number := be_decode (slice 1 9 bytes);
    flags := be_decode (slice 9 11 bytes);
    stream_id := be_decode (slice 11 13 bytes);
    epoch := bytes !!! 13%nat;
    path_id := bytes !!! 14%nat;
  |}.

(** ** Packet *)

Record PhantomPacket := mk_packet {
  header : PacketHeader;
  payload : list Z;
  extensions : list Z;
}.

Definition packet_new (h : PacketHeader) (p : list Z) : PhantomPacket := mk_packet h p [].
Definition packet_ack (sid : list Z) (stream pn : Z) : PhantomPacket :=
  mk_packet (header_new sid stream pn ACK) [] [].
Definition wire_size (p : PhantomPacket) : Z := Z.of_nat HEADER_SIZE + len (payload p).
Definition packet_to_wire (p : PhantomPacket) : list Z := header_to_wire (header p) ++ payload p.

(** [for (b, m) in region.zip(mask) { *b ^= *m }]: stops at the shorter list. *)
Fixpoint xor_zip (bs mask : list Z) : list Z :=
  match bs, mask with
  | b :: bs', m :: mask' => Z.lxor b m :: xor_zip bs' mask'
  | _, _ => bs
  end.

Definition to_wire_masked (p : PhantomPacket) (mask : list Z) : list Z :=
  let buf := packet_to_wire p in
  take HP_PROTECTED_OFFSET buf
    ++ xor_zip (slice HP_PROTECTED_OFFSET HEADER_SIZE buf) mask
    ++ drop HEADER_SIZE buf.

Definition packet_from_wire (bytes : list Z) : result PhantomPacket WireError :=
  h <-? header_from_wire bytes;
  Ok (mk_packet h (drop HEADER_SIZE bytes) []).

(** ** Header-protected packet *)

Record RawPacket := mk_raw {
  masked_header : list Z;
  raw_payload : list Z;
  raw_extensions : list Z;
}.

Definition raw_from_wire (bytes : list Z) : result RawPacket WireError :=
  if (length bytes <? HEADER_SIZE)%nat then Err Truncated
  else Ok (mk_raw (slice HP_PROTECTED_OFFSET HEADER_SIZE bytes) (drop HEADER_SIZE bytes) []).

Definition unmask_header (r : RawPacket) (mask : list Z) : result PacketHeader WireError :=
  if (length mask <? HP_PROTECTED_LEN)%nat then Err Truncated
  else header_from_wire (replicate HP_PROTECTED_OFFSET 0 ++ xor_zip (masked_header r) mask).

Definition into_packet (r : RawPacket) (h : PacketHeader) : PhantomPacket :=
  mk_packet h (raw_payload r) (raw_extensions r).

(** ** Label types *)

Inductive ControlMessage :=
| Hello | HelloAck | Resume | ResumeAck | Migrate | MigrateAck | Close | CloseAck | Ping | Pong.

Inductive LegType := Kcp | Tcp | FakeTls | Udp.
Definition leg_is_reliable (l : LegType) : bool :=
  match l with Kcp | Tcp | FakeTls | Udp => true end.
Definition leg_is_obfuscated (l : LegType) : bool :=
  match l with FakeTls => true | _ => false end.

Inductive SchedulerMode := LowLatency | HighThroughput | Reliability | Stealth.

#[export] Instance SchedulerMode_eq_dec : EqDecision SchedulerMode.
Proof. solve_decision. Defined.
#[export] Instance LegType_eq_dec : EqDecision LegType.
Proof. solve_decision. Defined.

(** ** Well-formedness: each field within its width *)

Record wf_header (h : PacketHeader) : Prop := {
  wf_version : is_byte (version h);
  wf_session_id : length (session_id h) = 32%nat;
  wf_stream_id : in_u 16 (stream_id h);
  wf_packet_number : in_u 64 (packet_number h);
  wf_flags : in_u 16 (flags h);
  wf_epoch : is_byte (epoch h);
  wf_path_id : is_byte (path_id h);
}.

(** ** Lemmas *)

Lemma header_to_wire_length h : length (header_to_wire h) = HEADER_SIZE.
Proof. done. Qed.

Lemma header_to_wire_bytes h : wf_header h -> is_bytes (header_to_wire h).
Proof.
  intros Hwf. unfold header_to_wire, is_bytes. rewrite !Forall_app.
  repeat split; try apply be_encode_bytes; apply Forall_singleton; apply Hwf.
Qed.

Lemma xor_zip_length bs mask : length (xor_zip bs mask) = length bs.
Proof. revert mask. induction bs as [|b bs IH]; intros [|m mask]; simpl; auto. Qed.

Lemma xor_zip_involutive bs mask : xor_zip (xor_zip bs mask) mask = bs.
Proof.
  revert mask. induction bs as [|b bs IH]; intros [|m mask]; simpl; [done..|].
  by rewrite IH, Z.lxor_assoc, Z.lxor_nilpotent, Z.lxor_0_r.
Qed.

Lemma short_header_false {A} (h t : list A) :
  length h = HEADER_SIZE -> (length (h ++ t) <? HEADER_SIZE)%nat = false.
Proof. intros E. rewrite length_app, E. apply Nat.ltb_ge. lia. Qed.

(** The header is recovered from its fifteen bytes whatever follows them. *)
Lemma header_from_to_wire h t :
  wf_header h ->
  header_from_wire (header_to_wire h ++ t) = Ok (with_session_id h (replicate 32 0)).
Proof.
  intros [Hv _ Hs Hp Hf He Hi]. unfold header_from_wire.
  rewrite short_header_false by done.
  change (slice 1 9 (header_to_wire h ++ t)) with (be_encode 8 (packet_number h)).
  change (slice 9 11 (header_to_wire h ++ t)) with (be_encode 2 (flags h)).
  change (slice 11 13 (header_to_wire h ++ t)) with (be_encode 2 (stream_id h)).
  rewrite !be_decode_encode by done. done.
Qed.

Lemma header_to_from_wire bytes h :
  is_bytes bytes -> header_from_wire bytes = Ok h -> header_to_wire h = take HEADER_SIZE bytes.
Proof.
  intros Hb. unfold header_from_wire. destruct (Nat.ltb_spec (length bytes) HEADER_SIZE) as [|Hl]; [done|].
  intros [= <-]. unfold header_to_wire, HEADER_SIZE in *. cbn [version packet_number flags stream_id epoch path_id].
  do 15 (destruct bytes as [|? bytes]; [simpl in Hl; lia|]).
  cbn [slice drop take Nat.sub].
  rewrite !be_encode_decode_len by (done || unfold is_bytes in *; decompose_Forall_hyps; decompose_Forall; done).
  done.
Qed.

Lemma header_from_wire_wf bytes h :
  is_bytes bytes -> header_from_wire bytes = Ok h -> wf_header h.
Proof.
  intros Hb. unfold header_from_wire. destruct (Nat.ltb_spec (length bytes) HEADER_SIZE) as [|Hl]; [done|].
  intros [= <-]. unfold HEADER_SIZE in Hl.
  assert (Hi : ∀ i, (i < 15)%nat -> is_byte (bytes !!! i)).
  { intros i Hi. apply (Forall_lookup_total_1 _ _ _ Hb). lia. }
  assert (Hs : ∀ a b, (a <= b <= 15)%nat -> 0 <= be_decode (slice a b bytes) < 256 ^ Z.of_nat (b - a)).
  { intros a b Hab. apply be_field_bound; [done|lia]. }
  split; cbn; first [by apply Hi; lia | done | idtac].
  - apply (Hs 11%nat 13%nat). lia.
  - apply (Hs 1%nat 9%nat). lia.
  - apply (Hs 9%nat 11%nat). lia.
Qed.

Lemma masked_split p mask :
  to_wire_masked p mask = xor_zip (header_to_wire (header p)) mask ++ payload p.
Proof.
  unfold to_wire_masked, packet_to_wire, HP_PROTECTED_OFFSET, slice.
  rewrite take_0, drop_0, Nat.sub_0_r. cbn [app].
  by rewrite take_app_exact, drop_app_exact by done.
Qed.

(** Parsing the masked packet exposes the masked header and the payload. *)
Lemma raw_from_wire_masked p mask :
  raw_from_wire (to_wire_masked p mask)
  = Ok (mk_raw (xor_zip (header_to_wire (header p)) mask) (payload p) []).
Proof.
  rewrite masked_split. unfold raw_from_wire, HP_PROTECTED_OFFSET, slice.
  assert (El : length (xor_zip (header_to_wire (header p)) mask) = HEADER_SIZE)
    by (by rewrite xor_zip_length).
  rewrite short_header_false by done. rewrite drop_0, Nat.sub_0_r.
  by rewrite take_app_exact, drop_app_exact by done.
Qed.

Lemma unmask_header_masked h t ext mask :
  wf_header h -> (HP_PROTECTED_LEN <= length mask)%nat ->
  unmask_header (mk_raw (xor_zip (header_to_wire h) mask) t ext) mask
  = Ok (with_session_id h (replicate 32 0)).
Proof.
  intros Hwf Hm. unfold unmask_header.
  destruct (Nat.ltb_spec (length mask) HP_PROTECTED_LEN); [lia|].
  cbn [masked_header replicate HP_PROTECTED_OFFSET app].
  rewrite xor_zip_involutive, <- (app_nil_r (header_to_wire h)). by apply header_from_to_wire.
Qed.

Lemma testbit_flag f n : 0 <= n -> flags_contains f (2 ^ n) = Z.testbit f n.
Proof.
  intros Hn. unfold flags_contains.
  destruct (Z.testbit f n) eqn:E.
  - apply Z.eqb_eq, Z.bits_inj'. intros m Hm. rewrite Z.land_spec.
    destruct (decide (m = n)) as [->|]; [by rewrite E, Z.pow2_bits_true|].
    by rewrite Z.pow2_bits_false, andb_false_r by lia.
  - apply Z.eqb_neq. intros H. apply (f_equal (λ x, Z.testbit x n)) in H.
    by rewrite Z.land_spec, E, Z.pow2_bits_true in H by done.
Qed.

Lemma flag_is_power flag : flag ∈ all_flags -> ∃ n, 0 <= n < 15 ∧ flag = 2 ^ n.
Proof.
  intros Hin. unfold all_flags in Hin.
  repeat (apply elem_of_cons in Hin as [->|Hin]);
    [exists 0|exists 1|exists 2|exists 3|exists 4|exists 5|exists 6|exists 7|exists 8|exists 9
    |exists 10|exists 11|exists 12|exists 13|exists 14|]; try (split; [lia|done]).
  by apply elem_of_nil in Hin.
Qed.

(** ** Properties *)

(** A packet whose header fields fit their widths survives header protection:
    with any mask of at least fifteen bytes, parsing the masked wire image and
    unmasking it with the same mask gives back every header field and the payload
    (the off-wire session id reads as zeros until the session sets it). *)
Theorem masked_packet_roundtrip (p : PhantomPacket) (mask : list Z) :
  wf_header (header p) -> (HP_PROTECTED_LEN <= length mask)%nat ->
  ∃ r, raw_from_wire (to_wire_masked p mask) = Ok r ∧
       raw_payload r = payload p ∧
       unmask_header r mask = Ok (with_session_id (header p) (replicate 32 0)).
Proof.
  intros Hwf Hm. eexists. split; [apply raw_from_wire_masked|]. split; [done|].
  by apply unmask_header_masked.
Qed.

Definition sample_header : PacketHeader :=
  with_path_id (with_epoch (header_new (replicate 32 7) 3 70000 (flags_set RELIABLE ENCRYPTED)) 2) 1.

Lemma sample_header_wf : wf_header sample_header.
Proof. split; vm_compute; intuition congruence. Qed.

Lemma masked_packet_roundtrip_witness :
  ∃ r, raw_from_wire (to_wire_masked (packet_new sample_header [1; 2; 3]) (seqZ 100 16)) = Ok r ∧
       raw_payload r = [1; 2; 3] ∧
       unmask_header r (seqZ 100 16) = Ok (with_session_id sample_header (replicate 32 0)).
Proof.
  apply (masked_packet_roundtrip (packet_new sample_header [1; 2; 3])).
  - apply sample_header_wf.
  - vm_compute. lia.
Defined.

(** The header decoder inverts the encoder in both directions: encoding then
    decoding gives the header back, and any byte string the decoder accepts
    re-encodes to its own first fifteen bytes, with every decoded field within its
    width. *)
Theorem header_codec_inverse :
  (∀ h t, wf_header h ->
     header_from_wire (header_to_wire h ++ t) = Ok (with_session_id h (replicate 32 0))) ∧
  (∀ bytes h, is_bytes bytes -> header_from_wire bytes = Ok h ->
     header_to_wire h = take HEADER_SIZE bytes ∧ wf_header h).
Proof.
  split; [apply header_from_to_wire|]. intros bytes h Hb Hd.
  split; [by apply header_to_from_wire | by apply (header_from_wire_wf bytes)].
Qed.

Lemma header_codec_inverse_witness :
  header_from_wire (header_to_wire sample_header ++ [9]) = Ok (with_session_id sample_header (replicate 32 0)).
Proof. apply header_codec_inverse. apply sample_header_wf. Defined.

(** The authenticated image binds every header field: two well-formed headers
    with the same 47-byte image are equal, session id included. *)
Theorem aad_image_injective (h1 h2 : PacketHeader) :
  wf_header h1 -> wf_header h2 -> to_aad_image h1 = to_aad_image h2 -> h1 = h2.
Proof.
  intros [Hv1 Hsid1 Hs1 Hp1 Hf1 He1 Hi1] [Hv2 Hsid2 Hs2 Hp2 Hf2 He2 Hi2].
  destruct h1, h2. unfold to_aad_image. cbn [Wire.version Wire.session_id Wire.packet_number
    Wire.flags Wire.stream_id Wire.epoch Wire.path_id] in *. intros E.
  apply app_inj_1 in E as [[= ->] E]; [|done].
  apply app_inj_1 in E as [-> E]; [|congruence].
  apply app_inj_1 in E as [Ep E]; [|done].
  apply app_inj_1 in E as [Ef E]; [|done].
  apply app_inj_1 in E as [Es E]; [|done]. injection E as -> ->.
  apply be_encode_inj in Ep as ->; [|done..].
  apply be_encode_inj in Ef as ->; [|done..].
  apply be_encode_inj in Es as ->; [|done..]. done.
Qed.

Lemma aad_image_injective_witness :
  to_aad_image (with_epoch sample_header 2) = to_aad_image sample_header ∧
  with_epoch sample_header 2 = sample_header.
Proof.
  split; [vm_compute; reflexivity|].
  apply aad_image_injective; [apply sample_header_wf..|vm_compute; reflexivity].
Defined.

(** Setting an assigned flag makes it and no other assigned flag change;
    clearing it removes it and no other, for every assigned pair of flags. *)
Theorem flags_set_clear_exact (f a b : Z) :
  a ∈ all_flags -> b ∈ all_flags ->
  flags_contains (flags_set f a) b = bool_decide (a = b) || flags_contains f b ∧
  flags_contains (flags_clear f a) b = negb (bool_decide (a = b)) && flags_contains f b.
Proof.
  intros Ha Hb.
  apply flag_is_power in Ha as (n & Hn & ->). apply flag_is_power in Hb as (m & Hm & ->).
  rewrite !testbit_flag by lia. unfold flags_set, flags_clear.
  rewrite Z.lor_spec, Z.land_spec, Z.lxor_spec.
  assert (Hu : Z.testbit (u_max 16) m = true).
  { change (u_max 16) with (Z.ones 16). apply Z.ones_spec_low. lia. }
  rewrite Hu. destruct (decide (n = m)) as [->|Hne].
  - rewrite Z.pow2_bits_true, bool_decide_true by (done || lia).
    by rewrite orb_true_r, andb_false_r.
  - rewrite Z.pow2_bits_false by lia.
    rewrite bool_decide_false by (intros ?%Z.pow_inj_r; lia).
    by rewrite orb_false_r, andb_true_r.
Qed.

Lemma flags_set_clear_exact_witness :
  flags_contains (flags_clear (flags_set ENCRYPTED REKEY) ENCRYPTED) REKEY = true.
Proof. by rewrite (proj2 (flags_set_clear_exact (flags_set ENCRYPTED REKEY) ENCRYPTED REKEY
         ltac:(unfold all_flags; set_solver) ltac:(unfold all_flags; set_solver))). Defined.
