(* ===== verification/Sack.v ===== *)
(** * Selective acknowledgements ([core/src/transport/sack.rs])

    A [Sack] is a non-empty, strictly descending list of inclusive ranges of a
    32-bit sequence space; this file has its constructors, its wire codec and the
    membership test, with the invariant of the type and the round trip. *)

From Stdlib Require Import ZArith Lia.
From stdpp Require Import base numbers option list sorting.
From S2P Require Import Prelude.

Local Open Scope Z_scope.
Local Open Scope phantom_scope.

Definition MAX_SACK_RANGES : nat := 32.
Definition MIN_WIRE_LEN : nat := 14.
Definition FIXED_HDR_LEN : nat := 10.
Definition CONTINUATION_BYTES : nat := 8.
Definition MAX_SACK_WIRE : nat := MIN_WIRE_LEN + CONTINUATION_BYTES * (MAX_SACK_RANGES - 1).

Record Sack := mk_sack {
  largest_acked : Z;
  ack_delay_us : Z;
  ranges : list (Z * Z);
}.

Inductive SackError := Truncated | TooManyRanges | Malformed.

(** ** Constructors *)

(** One iteration of the coalescing loops; [desc] is the vector being built, its
    last element first. *)
Definition push_range (desc : list (Z * Z)) (r : Z * Z) : list (Z * Z) :=
  let '(lo, hi) := r in
  match desc with
  | (l, h) :: rest =>
    if lo <=? sat_add 32 h 1 then (if h <? hi then (l, hi) :: rest else desc)
    else (lo, hi) :: desc
  | [] => [(lo, hi)]
  end.

Definition from_ascending_coalesced (asc_ranges : list (Z * Z)) (delay : Z) : option Sack :=
  match reverse asc_ranges with
  | [] => None
  | (lo, hi) :: rest =>
    let desc := (lo, hi) :: rest in
    let kept := if (MAX_SACK_RANGES <? length desc)%nat
                then take (MAX_SACK_RANGES - 1) desc ++ [default (lo, hi) (last desc)]
                else desc in
    match kept with
    | (_, h0) :: _ => Some (mk_sack h0 delay kept)
    | [] => None
    end
  end.

Definition from_received (received : list Z) (delay : Z) : option Sack :=
  match received with
  | [] => None
  | _ =>
    let seqs := merge_sort Z.le received in
    let asc := reverse (foldl (λ acc s, push_range acc (s, s)) [] seqs) in
    from_ascending_coalesced asc delay
  end.

(** Order of the ranges by their low end. *)
Definition lo_le (r1 r2 : Z * Z) : Prop := r1.1 <= r2.1.
#[export] Instance lo_le_dec r1 r2 : Decision (lo_le r1 r2) := Z_le_dec _ _.

Definition from_inclusive_ranges (rs : list (Z * Z)) (delay : Z) : option Sack :=
  match rs with
  | [] => None
  | _ =>
    let sorted := merge_sort lo_le rs in
    let asc := reverse (foldl push_range [] sorted) in
    from_ascending_coalesced asc delay
  end.

(** ** Wire form *)

(** The [(gap, len)] pairs after the first range. *)
Fixpoint encode_continuations (prev_low : Z) (rs : list (Z * Z)) : list Z :=
  match rs with
  | [] => []
  | (low, high) :: rs' =>
    be_encode 4 (sat_sub (sat_sub prev_low 1) high) ++ be_encode 4 (high - low)
      ++ encode_continuations low rs'
  end.

Definition to_wire (s : Sack) : list Z :=
  let range_count_wire := Z.min (len (ranges s)) (u_max 16) in
  let '(first_low, first_high) := ranges s !!! 0%nat in
  be_encode 4 (largest_acked s) ++ be_encode 4 (ack_delay_us s)
    ++ be_encode 2 range_count_wire
    ++ be_encode 4 (first_high - first_low)
    ++ encode_continuations first_low (drop 1 (ranges s)).

(** [n] iterations of the decoding loop from byte [pos]. *)
Fixpoint decode_continuations (n : nat) (pos : nat) (buf : list Z) (prev_low : Z)
  : result (list (Z * Z)) SackError :=
  match n with
  | O => Ok []
  | S n' =>
    let gap := be_decode (slice pos (pos + 4) buf) in
    let rlen := be_decode (slice (pos + 4) (pos + 8) buf) in
    if gap =? 0 then Err Malformed
    else
      below_prev <-? ok_or (checked_sub prev_low 1) Malformed;
      high <-? ok_or (checked_sub below_prev gap) Malformed;
      low <-? ok_or (checked_sub high rlen) Malformed;
      if high <? low then Err Malformed
      else
        rest <-? decode_continuations n' (pos + 8) buf low;
        Ok ((low, high) :: rest)
  end.

Definition from_wire (buf : list Z) : result Sack SackError :=
  if (length buf <? MIN_WIRE_LEN)%nat then Err Truncated
  else
    let largest := be_decode (slice 0 4 buf) in
    let delay := be_decode (slice 4 8 buf) in
    let range_count := Z.to_nat (be_decode (slice 8 10 buf)) in
    if (range_count =? 0)%nat then Err Malformed
    else if (MAX_SACK_RANGES <? range_count)%nat then Err TooManyRanges
    else
      let needed := (FIXED_HDR_LEN + 4 + CONTINUATION_BYTES * (range_count - 1))%nat in
      if (length buf <? needed)%nat then Err Truncated
      else
        let first_len := be_decode (slice 10 14 buf) in
        first_low <-? ok_or (checked_sub largest first_len) Malformed;
        rest <-? decode_continuations (range_count - 1) 14 buf first_low;
        Ok (mk_sack largest delay ((first_low, largest) :: rest)).

(** ** Membership *)

Definition acks (s : Sack) (seq : Z) : bool :=
  existsb (λ r, (r.1 <=? seq) && (seq <=? r.2)) (ranges s).

(** ** Invariant *)

(** Strictly descending, non-adjacent ranges below [ub]. *)
Fixpoint desc_ok (ub : Z) (rs : list (Z * Z)) : Prop :=
  match rs with
  | [] => True
  | (lo, hi) :: rs' => 0 <= lo <= hi ∧ hi <= ub ∧ desc_ok (lo - 2) rs'
  end.

Definition covered (rs : list (Z * Z)) (q : Z) : Prop := Exists (λ r, r.1 <= q <= r.2) rs.

Record wf_sack (s : Sack) : Prop := {
  wf_nonempty : ranges s <> [];
  wf_count : (length (ranges s) <= MAX_SACK_RANGES)%nat;
  wf_desc : desc_ok (u_max 32) (ranges s);
  wf_largest : largest_acked s = (ranges s !!! 0%nat).2;
  wf_delay : in_u 32 (ack_delay_us s);
}.

(** An input range of the constructors. *)
Definition wf_range (r : Z * Z) : Prop := 0 <= r.1 <= r.2 ∧ r.2 <= u_max 32.

(** ** Lemmas on descending range lists *)

Lemma desc_ok_mono ub ub' rs : ub <= ub' -> desc_ok ub rs -> desc_ok ub' rs.
Proof. destruct rs as [|[lo hi] rs]; simpl; [done|]. intros ? (? & ? & ?). repeat split; (done || lia). Qed.

Lemma desc_ok_sublist ub rs rs' : rs' `sublist_of` rs -> desc_ok ub rs -> desc_ok ub rs'.
Proof.
  intros Hs. revert ub. induction Hs as [|[lo hi] l1 l2 _ IH|[lo hi] l1 l2 _ IH]; intros ub; simpl; [done| |].
  - intros (? & ? & ?). naive_solver.
  - intros (? & ? & ?). apply IH. eapply desc_ok_mono; [|done]. lia.
Qed.

Lemma desc_ok_covered_bound ub rs q : desc_ok ub rs -> covered rs q -> 0 <= q <= ub.
Proof.
  intros Hok Hc. revert ub Hok. induction Hc as [[lo hi] rs H|[lo hi] rs _ IH]; intros ub (? & ? & Hok); simpl in *.
  - lia.
  - specialize (IH _ Hok). lia.
Qed.

Lemma covered_cons lo hi rs q : covered ((lo, hi) :: rs) q <-> lo <= q <= hi ∨ covered rs q.
Proof. unfold covered. rewrite Exists_cons. done. Qed.

Lemma covered_app l1 l2 q : covered (l1 ++ l2) q <-> covered l1 q ∨ covered l2 q.
Proof. apply Exists_app. Qed.

Lemma covered_nil q : covered [] q <-> False.
Proof. apply Exists_nil. Qed.

Lemma covered_sublist l1 l2 q : l1 `sublist_of` l2 -> covered l1 q -> covered l2 q.
Proof.
  unfold covered. rewrite !Exists_exists. intros Hs (x & Hx & ?).
  exists x. split; [|done]. by apply (sublist_subseteq _ _ Hs).
Qed.

Lemma acks_covered s q : acks s q = true <-> covered (ranges s) q.
Proof.
  unfold acks, covered. rewrite existsb_exists, Exists_exists.
  split; intros (x & Hx & H); exists x; rewrite list_elem_of_In in *.
  - bool_to_prop. split; [done|lia].
  - split; [done|]. apply andb_true_iff. rewrite !Z.leb_le. lia.
Qed.

(** ** Coalescing *)

Definition head_lo_le (desc : list (Z * Z)) (b : Z) : Prop :=
  match desc with [] => True | (l, _) :: _ => l <= b end.

Lemma push_range_ok desc lo hi :
  wf_range (lo, hi) -> desc_ok (u_max 32) desc -> head_lo_le desc lo ->
  desc_ok (u_max 32) (push_range desc (lo, hi)) ∧
  head_lo_le (push_range desc (lo, hi)) lo ∧
  ∀ q, covered (push_range desc (lo, hi)) q <-> covered desc q ∨ lo <= q <= hi.
Proof.
  unfold wf_range. cbn [fst snd]. intros Hr Hd Hh. unfold push_range.
  destruct desc as [|[l h] rest]; simpl in *.
  { split; [lia|]. split; [lia|]. intros q. rewrite covered_cons, covered_nil. naive_solver. }
  destruct Hd as (? & ? & Hd). unfold sat_add.
  destruct (Z.leb_spec lo (Z.min (h + 1) (u_max 32))) as [Hm|Hm].
  - destruct (Z.ltb_spec h hi); simpl.
    + split; [repeat split; (done || lia)|]. split; [done|].
      intros q. rewrite !covered_cons.
      destruct (decide (l <= q <= hi)); [|naive_solver lia].
      split; [|naive_solver lia]. intros _. destruct (decide (lo <= q)); [lia|left; lia].
    + split; [done|]. split; [done|]. intros q. rewrite covered_cons. naive_solver lia.
  - split; [repeat split; (done || lia)|]. split; [simpl; lia|].
    intros q. rewrite !covered_cons. naive_solver.
Qed.

Lemma coalesce_fold_ok L desc :
  StronglySorted lo_le L -> Forall wf_range L ->
  desc_ok (u_max 32) desc -> Forall (λ r, head_lo_le desc r.1) L ->
  desc_ok (u_max 32) (foldl push_range desc L) ∧
  ∀ q, covered (foldl push_range desc L) q <-> covered desc q ∨ covered L q.
Proof.
  intros HS. revert desc. induction HS as [|[lo hi] L HS IH Hle]; intros desc HF Hd Hh; cbn [foldl].
  { split; [done|]. intros q. rewrite covered_nil. naive_solver. }
  apply Forall_cons in HF as [Hr HF]. apply Forall_cons in Hh as [Hh0 Hh].
  destruct (push_range_ok desc lo hi Hr Hd Hh0) as (Hd' & Hh' & Hc).
  destruct (IH (push_range desc (lo, hi)) HF Hd') as [IH1 IH2].
  { eapply Forall_impl; [exact Hle|]. intros r Hlr. unfold lo_le in Hlr. simpl in Hlr.
    destruct (push_range desc (lo, hi)) as [|[l h] ?]; simpl in *; [done|lia]. }
  split; [done|]. intros q. rewrite IH2, Hc, covered_cons. tauto.
Qed.

#[export] Instance lo_le_trans : Transitive lo_le.
Proof. intros ??? . unfold lo_le. lia. Qed.
#[export] Instance lo_le_total : Total lo_le.
Proof. intros ??. unfold lo_le. lia. Qed.

Lemma covered_perm l1 l2 q : l1 ≡ₚ l2 -> covered l1 q <-> covered l2 q.
Proof. intros Hp. unfold covered. by rewrite Hp. Qed.

(** The coalescing loop gives a descending list that covers the input exactly. *)
Lemma coalesce_ok L :
  StronglySorted lo_le L -> Forall wf_range L ->
  desc_ok (u_max 32) (foldl push_range [] L) ∧
  ∀ q, covered (foldl push_range [] L) q <-> covered L q.
Proof.
  intros HS HF. destruct (coalesce_fold_ok L [] HS HF) as [H1 H2]; [done| |].
  { apply Forall_forall. done. }
  split; [done|]. intros q. rewrite H2, covered_nil. tauto.
Qed.

Lemma push_range_nonempty desc r : push_range desc r <> [].
Proof. destruct r, desc as [|[]]; simpl; repeat case_match; done. Qed.

Lemma foldl_push_nonempty desc L : desc <> [] ∨ L <> [] -> foldl push_range desc L <> [].
Proof.
  revert desc. induction L as [|r L IH]; intros desc H; simpl; [naive_solver|].
  apply IH. left. apply push_range_nonempty.
Qed.

(** ** The cap on the number of ranges *)

(** What [from_ascending_coalesced] keeps of a descending list. *)
Definition reduce (desc : list (Z * Z)) : list (Z * Z) :=
  if (MAX_SACK_RANGES <? length desc)%nat
  then take (MAX_SACK_RANGES - 1) desc ++ [default (0, 0) (last desc)]
  else desc.

Lemma reduce_sublist desc : reduce desc `sublist_of` desc.
Proof.
  unfold reduce, MAX_SACK_RANGES. destruct (Nat.ltb_spec 32 (length desc)) as [Hl|]; [|done].
  rewrite <- (take_drop (32 - 1) desc) at 3. apply sublist_app; [done|].
  assert (Hd : drop (32 - 1) desc <> []).
  { intros E. apply (f_equal length) in E. rewrite length_drop in E. simpl in E. lia. }
  apply last_is_Some in Hd as [x Hx].
  assert (last desc = Some x) as ->.
  { rewrite <- (take_drop (32 - 1) desc), last_app, Hx. done. }
  apply singleton_sublist_l. by apply last_Some_elem_of.
Qed.

Lemma reduce_length desc : (length (reduce desc) <= MAX_SACK_RANGES)%nat.
Proof.
  unfold reduce, MAX_SACK_RANGES. destruct (Nat.ltb_spec 32 (length desc)); [|done].
  rewrite length_app, length_take. cbn [length]. lia.
Qed.

Lemma reduce_small desc : (length desc <= MAX_SACK_RANGES)%nat -> reduce desc = desc.
Proof. intros. unfold reduce. destruct (Nat.ltb_spec MAX_SACK_RANGES (length desc)); [lia|done]. Qed.

Lemma reduce_last desc r : last desc = Some r -> r ∈ reduce desc.
Proof.
  intros Hl. unfold reduce. case_match; [|by apply last_Some_elem_of].
  rewrite Hl. apply elem_of_app. right. by apply list_elem_of_singleton.
Qed.

Lemma reduce_head desc : reduce desc !! 0%nat = desc !! 0%nat.
Proof. unfold reduce, MAX_SACK_RANGES. destruct desc; [done|]. case_match; done. Qed.

Lemma from_ascending_reduce asc delay :
  asc <> [] ->
  from_ascending_coalesced asc delay
  = Some (mk_sack (reduce (reverse asc) !!! 0%nat).2 delay (reduce (reverse asc))).
Proof.
  intros Hne. unfold from_ascending_coalesced, reduce.
  destruct (reverse asc) as [|[lo hi] rest] eqn:E.
  { apply (f_equal reverse) in E. rewrite reverse_involutive in E. done. }
  destruct (last ((lo, hi) :: rest)) eqn:El; [|by apply last_None in El].
  by destruct (MAX_SACK_RANGES <? length ((lo, hi) :: rest))%nat.
Qed.

Lemma from_ascending_wf asc delay s :
  in_u 32 delay -> desc_ok (u_max 32) (reverse asc) -> asc <> [] ->
  from_ascending_coalesced asc delay = Some s -> wf_sack s.
Proof.
  intros Hd Hok Hne. rewrite from_ascending_reduce by done. intros [= <-]. split; cbn; try done.
  - intros E. pose proof (reduce_head (reverse asc)) as Hh. rewrite E in Hh.
    destruct (reverse asc) eqn:Er; [|done]. apply Hne.
    apply (f_equal reverse) in Er. by rewrite reverse_involutive in Er.
  - apply reduce_length.
  - eapply desc_ok_sublist; [apply reduce_sublist|done].
Qed.

(** The numbers of an unbroken run from the smallest covered one lie in the last
    range of a descending list. *)
Lemma lowest_run_in_last ub desc r m q :
  desc_ok ub desc -> last desc = Some r ->
  covered desc m -> (∀ x, covered desc x -> m <= x) ->
  m <= q -> (∀ x, m <= x <= q -> covered desc x) -> r.1 <= q <= r.2.
Proof.
  revert ub. induction desc as [|[lo hi] desc IH]; intros ub; [done|].
  intros (Hr & Hub & Hok) Hlast Hm Hmin Hle Hrun. destruct desc as [|r' desc].
  - injection Hlast as <-. simpl. specialize (Hrun q ltac:(lia)).
    rewrite covered_cons, covered_nil in Hrun. lia.
  - rewrite last_cons_cons in Hlast.
    assert (Hr' : covered (r' :: desc) r'.1).
    { constructor. destruct r', Hok. simpl in *. lia. }
    assert (Hm' : m <= r'.1) by (apply Hmin; by apply Exists_cons_tl).
    pose proof (desc_ok_covered_bound _ _ _ Hok Hr') as Hb.
    assert (Hlow : ∀ x, covered ((lo, hi) :: r' :: desc) x -> x <= lo - 1 -> covered (r' :: desc) x).
    { intros x [?|?]%covered_cons ?; [lia|done]. }
    assert (Hq : q <= lo - 2).
    { destruct (decide (q <= lo - 2)); [done|]. exfalso.
      specialize (Hrun (lo - 1) ltac:(lia)). apply Hlow in Hrun; [|lia].
      pose proof (desc_ok_covered_bound _ _ _ Hok Hrun). lia. }
    apply (IH (lo - 2)); [done..|apply Hlow; [done|lia]| |done|].
    + intros x Hx. apply Hmin. by apply Exists_cons_tl.
    + intros x Hx. apply Hlow; [apply Hrun; lia|lia].
Qed.

(** ** Codec *)

Lemma decode_encode_continuations rs pre t prev_low :
  0 <= prev_low <= u_max 32 -> desc_ok (prev_low - 2) rs ->
  decode_continuations (length rs) (length pre)
    (pre ++ encode_continuations prev_low rs ++ t) prev_low = Ok rs.
Proof.
  revert pre prev_low. induction rs as [|[low high] rs IH]; intros pre prev_low Hp Hok; [done|].
  destruct Hok as (Hr & Hub & Hok). cbn [length decode_continuations encode_continuations].
  unfold sat_sub. rewrite (Z.max_r 0 (prev_low - 1)), (Z.max_r 0 (prev_low - 1 - high)) by lia.
  rewrite <- !(assoc_L (++)).
  rewrite (slice_app_mid _ _ pre) by (rewrite ?be_encode_length; lia).
  rewrite (app_assoc pre).
  rewrite (slice_app_mid _ _ (pre ++ _)) by (rewrite ?length_app, ?be_encode_length; lia).
  unfold u_max in Hp. rewrite !be_decode_encode by (change (256 ^ Z.of_nat 4) with (2 ^ 32); lia).
  destruct (Z.eqb_spec (prev_low - 1 - high) 0); [lia|].
  rewrite (proj2 (checked_sub_Some prev_low 1 (prev_low - 1))) by lia. cbn [ok_or].
  rewrite (proj2 (checked_sub_Some (prev_low - 1) (prev_low - 1 - high) high)) by lia. cbn [ok_or].
  rewrite (proj2 (checked_sub_Some high (high - low) low)) by lia. cbn [ok_or].
  destruct (Z.ltb_spec high low); [lia|].
  rewrite (app_assoc (pre ++ _)).
  replace (length pre + 8)%nat
    with (length ((pre ++ be_encode 4 (prev_low - 1 - high)) ++ be_encode 4 (high - low)))
    by (rewrite !length_app, !be_encode_length; lia).
  rewrite IH; [done|unfold u_max; lia|done].
Qed.

Lemma decode_continuations_sound n pos buf prev_low rs :
  is_bytes buf -> (pos + 8 * n <= length buf)%nat ->
  decode_continuations n pos buf prev_low = Ok rs ->
  desc_ok (prev_low - 2) rs ∧ length rs = n.
Proof.
  intros Hb. revert pos prev_low rs. induction n as [|n IH]; intros pos prev_low rs Hlen; cbn [decode_continuations].
  { by intros [= <-]. }
  pose proof (be_field_bound pos (pos + 4) buf Hb ltac:(lia)) as Hgap.
  pose proof (be_field_bound (pos + 4) (pos + 8) buf Hb ltac:(lia)) as Hl.
  set (gap := be_decode (slice pos _ _)) in *. set (rlen := be_decode (slice (pos + 4) _ _)) in *.
  destruct (Z.eqb_spec gap 0); [done|].
  destruct (checked_sub prev_low 1) as [bp|] eqn:E1; cbn [ok_or]; [|done].
  destruct (checked_sub bp gap) as [high|] eqn:E2; cbn [ok_or]; [|done].
  destruct (checked_sub high rlen) as [low|] eqn:E3; cbn [ok_or]; [|done].
  apply checked_sub_Some in E1 as [-> ?], E2 as [-> ?], E3 as [-> ?].
  case_test; [done|].
  destruct (decode_continuations n _ _ _) as [rest|] eqn:E; [|done]. intros [= <-].
  apply IH in E as [Hok Hlen']; [|lia]. split; [|simpl; lia]. repeat split; (done || lia).
Qed.

Lemma to_wire_split s first_low first_high rest :
  ranges s = (first_low, first_high) :: rest ->
  to_wire s = be_encode 4 (largest_acked s) ++ be_encode 4 (ack_delay_us s)
    ++ be_encode 2 (Z.min (len (ranges s)) (u_max 16)) ++ be_encode 4 (first_high - first_low)
    ++ encode_continuations first_low rest.
Proof. intros E. unfold to_wire. by rewrite E. Qed.

Lemma encode_continuations_length prev rs :
  length (encode_continuations prev rs) = (CONTINUATION_BYTES * length rs)%nat.
Proof.
  unfold CONTINUATION_BYTES. revert prev. induction rs as [|[lo hi] rs IH]; intros prev; [done|].
  cbn [encode_continuations length]. rewrite !length_app, !be_encode_length, IH. lia.
Qed.

(** Decoding ignores whatever follows the encoded acknowledgement. *)
Lemma from_to_wire s t : wf_sack s -> from_wire (to_wire s ++ t) = Ok s.
Proof.
  intros [Hne Hcount Hdesc Hlargest Hdelay]. destruct s as [largest delay [|[lo hi] rest]]; [done|].
  cbn [largest_acked ack_delay_us ranges] in *. simpl in Hlargest. subst largest.
  destruct Hdesc as (Hr & Hub & Hok). unfold MAX_SACK_RANGES in Hcount. cbn [length] in Hcount.
  erewrite to_wire_split by reflexivity. cbn [largest_acked ack_delay_us ranges].
  set (cnt := Z.min _ _).
  assert (Hcnt : cnt = Z.of_nat (S (length rest))).
  { unfold cnt, len, u_max. cbn [length]. lia. }
  set (body := encode_continuations lo rest).
  assert (Hbody : length body = (8 * length rest)%nat) by apply encode_continuations_length.
  rewrite <- !(assoc_L (++)). unfold from_wire.
  set (buf := be_encode 4 hi ++ _).
  assert (Hbuf : length buf = (14 + 8 * length rest + length t)%nat).
  { unfold buf. rewrite !length_app, Hbody. cbn [length be_encode]. lia. }
  change (slice 0 4 buf) with (be_encode 4 hi). change (slice 4 8 buf) with (be_encode 4 delay).
  change (slice 8 10 buf) with (be_encode 2 cnt). change (slice 10 14 buf) with (be_encode 4 (hi - lo)).
  unfold u_max in Hub. unfold in_u in Hdelay.
  rewrite (be_decode_encode 2 cnt) by (change (256 ^ Z.of_nat 2) with 65536; lia).
  rewrite !(be_decode_encode 4) by (change (256 ^ Z.of_nat 4) with (2 ^ 32); lia).
  rewrite Hcnt, Nat2Z.id, Hbuf. unfold MIN_WIRE_LEN, MAX_SACK_RANGES, FIXED_HDR_LEN, CONTINUATION_BYTES.
  destruct (Nat.ltb_spec (14 + 8 * length rest + length t) 14); [lia|].
  destruct (Nat.eqb_spec (S (length rest)) 0); [lia|].
  destruct (Nat.ltb_spec 32 (S (length rest))); [lia|].
  destruct (Nat.ltb_spec (14 + 8 * length rest + length t) (10 + 4 + 8 * (S (length rest) - 1))); [lia|].
  rewrite (proj2 (checked_sub_Some hi (hi - lo) lo)) by lia. cbn [ok_or].
  replace (S (length rest) - 1)%nat with (length rest) by lia.
  change buf with ((be_encode 4 hi ++ be_encode 4 delay ++ be_encode 2 cnt ++ be_encode 4 (hi - lo)) ++ body ++ t).
  change 14%nat with (length (be_encode 4 hi ++ be_encode 4 delay ++ be_encode 2 cnt ++ be_encode 4 (hi - lo))).
  unfold body. rewrite decode_encode_continuations; [done|unfold u_max; lia|done].
Qed.

Lemma from_wire_sound buf s : is_bytes buf -> from_wire buf = Ok s -> wf_sack s.
Proof.
  intros Hb. unfold from_wire, MIN_WIRE_LEN, MAX_SACK_RANGES, FIXED_HDR_LEN, CONTINUATION_BYTES.
  set (cnt := Z.to_nat _).
  destruct (Nat.ltb_spec (length buf) 14); [done|].
  destruct (Nat.eqb_spec cnt 0); [done|]. destruct (Nat.ltb_spec 32 cnt); [done|].
  destruct (Nat.ltb_spec (length buf) (10 + 4 + 8 * (cnt - 1))); [done|].
  pose proof (be_field_bound 0 4 buf Hb ltac:(lia)) as Hl.
  pose proof (be_field_bound 10 14 buf Hb ltac:(lia)) as Hf.
  pose proof (be_field_bound 4 8 buf Hb ltac:(lia)) as Hd.
  change (256 ^ Z.of_nat (4 - 0)) with (2 ^ 32) in *.
  destruct (checked_sub _ _) as [fl|] eqn:E1; cbn [ok_or]; [|done]. apply checked_sub_Some in E1 as [-> ?].
  destruct (decode_continuations _ _ _ _) as [rest|] eqn:E; [|done]. intros [= <-].
  apply decode_continuations_sound in E as [Hok Hlen]; [|done|lia].
  split; cbn [ranges largest_acked ack_delay_us]; try done.
  - cbn [length]. unfold MAX_SACK_RANGES. lia.
  - unfold u_max. repeat split; (done || lia).
Qed.

(** ** What the constructors promise *)

(** [s] acknowledges the numbers covered by [rs]: never more, the largest one and
    the whole unbroken run above the smallest one always, and everything when [rs]
    has at most [MAX_SACK_RANGES] ranges. *)
Record sack_of (rs : list (Z * Z)) (s : Sack) : Prop := {
  so_wf : wf_sack s;
  so_sound : ∀ q, acks s q = true -> covered rs q;
  so_largest : covered rs (largest_acked s) ∧ ∀ q, covered rs q -> q <= largest_acked s;
  so_lowest_run : ∀ m q, covered rs m -> (∀ x, covered rs x -> m <= x) ->
      m <= q -> (∀ x, m <= x <= q -> covered rs x) -> acks s q = true;
  so_exact : (length rs <= MAX_SACK_RANGES)%nat -> ∀ q, covered rs q -> acks s q = true;
}.

Lemma foldl_push_length desc L :
  (length (foldl push_range desc L) <= length desc + length L)%nat.
Proof.
  revert desc. induction L as [|r L IH]; intros desc; simpl; [lia|].
  etrans; [apply IH|].
  assert (length (push_range desc r) <= S (length desc))%nat; [|lia].
  destruct r, desc as [|[]]; simpl; repeat case_match; simpl; lia.
Qed.

Lemma build_sack_of rs L delay :
  L ≡ₚ rs -> L <> [] -> StronglySorted lo_le L -> Forall wf_range L -> in_u 32 delay ->
  ∃ s, from_ascending_coalesced (reverse (foldl push_range [] L)) delay = Some s ∧
       sack_of rs s ∧ ack_delay_us s = delay.
Proof.
  intros Hp Hne HS HF Hd. set (D := foldl push_range [] L).
  destruct (coalesce_ok L HS HF) as [Hok Hc]. fold D in Hok, Hc.
  assert (HD : D <> []) by (apply foldl_push_nonempty; by right).
  assert (HrD : reverse D <> []).
  { intros E. apply HD. apply (f_equal reverse) in E. by rewrite reverse_involutive in E. }
  rewrite from_ascending_reduce, reverse_involutive by done. eexists. split; [done|]. split; [|done].
  assert (Hrc : ∀ q, covered rs q <-> covered D q).
  { intros q. rewrite Hc. by apply covered_perm. }
  assert (Hw : wf_sack (mk_sack (reduce D !!! 0%nat).2 delay (reduce D))).
  { eapply (from_ascending_wf (reverse D)); rewrite ?reverse_involutive; [done..|].
    by rewrite from_ascending_reduce, reverse_involutive. }
  split; [done|..].
  - intros q Hq. apply acks_covered in Hq. apply Hrc. eapply covered_sublist; [apply reduce_sublist|done].
  - cbn [largest_acked]. rewrite list_lookup_total_alt, reduce_head.
    destruct D as [|[lo hi] D']; [done|]. destruct Hok as (? & ? & Hok). cbn.
    split; [apply Hrc, covered_cons; left; lia|].
    intros q [?|Hq]%Hrc%covered_cons; [lia|]. pose proof (desc_ok_covered_bound _ _ _ Hok Hq). lia.
  - intros m q Hm Hmin Hle Hrun. apply acks_covered. cbn [ranges].
    destruct (last D) as [r|] eqn:El; [|by apply last_None in El].
    apply Exists_exists. exists r. split; [by apply reduce_last|].
    eapply (lowest_run_in_last _ D r m q); [done..|by apply Hrc| |done|].
    + intros x Hx. apply Hmin. by apply Hrc.
    + intros x Hx. by apply Hrc, Hrun.
  - intros Hl q Hq. apply acks_covered. cbn [ranges].
    rewrite reduce_small; [by apply Hrc|]. rewrite <- (Permutation_length Hp) in Hl.
    etrans; [apply foldl_push_length|]. done.
Qed.

Lemma from_inclusive_ranges_sack_of rs delay :
  rs <> [] -> Forall wf_range rs -> in_u 32 delay ->
  ∃ s, from_inclusive_ranges rs delay = Some s ∧ sack_of rs s ∧ ack_delay_us s = delay.
Proof.
  intros Hne HF Hd.
  assert (E : from_inclusive_ranges rs delay
    = from_ascending_coalesced (reverse (foldl push_range [] (merge_sort lo_le rs))) delay)
    by (by destruct rs).
  rewrite E. pose proof (merge_sort_Permutation lo_le rs) as Hp.
  apply build_sack_of; [done| |apply StronglySorted_merge_sort; apply _|by rewrite Hp|done].
  intros E'. rewrite E' in Hp. by apply Permutation_nil_l in Hp.
Qed.

Lemma sorted_diag l : StronglySorted Z.le l -> StronglySorted lo_le ((λ s, (s, s)) <$> l).
Proof.
  induction 1 as [|x l HS IH HF]; cbn; constructor; [done|].
  apply Forall_fmap. eapply Forall_impl; [done|]. done.
Qed.

Lemma from_received_sack_of received delay :
  received <> [] -> Forall (in_u 32) received -> in_u 32 delay ->
  ∃ s, from_received received delay = Some s ∧ sack_of ((λ s, (s, s)) <$> received) s ∧
       ack_delay_us s = delay.
Proof.
  intros Hne HF Hd. set (L := (λ s, (s, s)) <$> merge_sort Z.le received).
  pose proof (merge_sort_Permutation Z.le received) as Hp.
  assert (E : from_received received delay
    = from_ascending_coalesced (reverse (foldl push_range [] L)) delay).
  { unfold L. rewrite foldl_fmap. by destruct received. }
  rewrite E. apply build_sack_of; [unfold L; by rewrite Hp| |apply sorted_diag| |done].
  - unfold L. intros E'. apply fmap_nil_inv in E'. rewrite E' in Hp.
    by apply Permutation_nil_l in Hp.
  - apply StronglySorted_merge_sort; apply _.
  - unfold L. rewrite Hp. apply Forall_fmap. eapply Forall_impl; [done|].
    intros x Hx. unfold wf_range, in_u, u_max in *. cbn [fst snd compose]. lia.
Qed.

(** ** Properties *)

(** Every acknowledgement survives the wire: the encoding of a well-formed
    [Sack], whatever bytes follow it, decodes to the same [Sack], and takes
    fourteen bytes plus eight for each range after the first. *)
Theorem sack_roundtrip (s : Sack) (t : list Z) :
  wf_sack s ->
  from_wire (to_wire s ++ t) = Ok s ∧
  length (to_wire s) = (MIN_WIRE_LEN + CONTINUATION_BYTES * (length (ranges s) - 1))%nat.
Proof.
  intros Hwf. split; [by apply from_to_wire|].
  destruct (ranges s) as [|[lo hi] rest] eqn:E; [by destruct Hwf|].
  erewrite to_wire_split by exact E.
  rewrite !length_app, !be_encode_length, encode_continuations_length.
  unfold MIN_WIRE_LEN. cbn [length]. lia.
Qed.

Definition sample_sack : Sack := mk_sack 20 500 [(15, 20); (9, 12); (0, 3)].

Lemma sample_sack_wf : wf_sack sample_sack.
Proof. split; vm_compute; intuition (congruence || lia). Qed.

Lemma sack_roundtrip_witness :
  from_wire (to_wire sample_sack ++ [1; 2]) = Ok sample_sack ∧ length (to_wire sample_sack) = 30%nat.
Proof. apply (sack_roundtrip sample_sack [1; 2]). apply sample_sack_wf. Defined.

(** Whatever a peer sends, an acknowledgement that decodes has at least one and
    at most 32 ranges, all within the 32-bit space, strictly descending and
    non-adjacent, the first of which ends in [largest_acked]. *)
Theorem sack_decode_sound (buf : list Z) (s : Sack) :
  is_bytes buf -> from_wire buf = Ok s -> wf_sack s.
Proof. apply from_wire_sound. Qed.

Lemma sack_decode_sound_witness : wf_sack (mk_sack 7 0 [(5, 7); (1, 2)]).
Proof.
  apply (sack_decode_sound [0;0;0;7; 0;0;0;0; 0;2; 0;0;0;2; 0;0;0;2; 0;0;0;1]).
  - repeat constructor; vm_compute; congruence.
  - vm_compute. reflexivity.
Defined.

(** [from_inclusive_ranges] and [from_received] succeed on every non-empty
    input and give a well-formed acknowledgement of it: nothing outside the input
    is acknowledged, the largest number is [largest_acked], the whole unbroken run
    from the smallest number up is acknowledged even when middle ranges are
    dropped to fit the cap, and with at most 32 input ranges the acknowledged set
    is exactly the input. *)
Theorem sack_constructors_correct :
  (∀ rs delay, rs <> [] -> Forall wf_range rs -> in_u 32 delay ->
     ∃ s, from_inclusive_ranges rs delay = Some s ∧ sack_of rs s ∧ ack_delay_us s = delay) ∧
  (∀ received delay, received <> [] -> Forall (in_u 32) received -> in_u 32 delay ->
     ∃ s, from_received received delay = Some s ∧ sack_of ((λ s, (s, s)) <$> received) s ∧
          ack_delay_us s = delay).
Proof. split; [apply from_inclusive_ranges_sack_of | apply from_received_sack_of]. Qed.

Lemma sack_constructors_correct_witness :
  ∃ s, from_received [4; 9; 5; 3; 9] 7 = Some s ∧
       sack_of ((λ s, (s, s)) <$> [4; 9; 5; 3; 9]) s ∧ ack_delay_us s = 7.
Proof.
  apply (proj2 sack_constructors_correct); [done| |vm_compute; intuition congruence].
  repeat constructor; vm_compute; congruence.
Defined.

(** The decoder's error for each rejected input: too short for the fixed part
    or for the declared ranges, zero ranges, more ranges than the cap (checked
    before any range is read). *)
Theorem sack_decode_errors (buf : list Z) :
  let count := be_decode (slice 8 10 buf) in
  ((length buf < MIN_WIRE_LEN)%nat -> from_wire buf = Err Truncated) ∧
  ((MIN_WIRE_LEN <= length buf)%nat -> count = 0 -> from_wire buf = Err Malformed) ∧
  ((MIN_WIRE_LEN <= length buf)%nat -> Z.of_nat MAX_SACK_RANGES < count ->
     from_wire buf = Err TooManyRanges) ∧
  ((MIN_WIRE_LEN <= length buf)%nat -> 0 < count <= Z.of_nat MAX_SACK_RANGES ->
     Z.of_nat (length buf) < 14 + 8 * (count - 1) -> from_wire buf = Err Truncated).
Proof.
  unfold from_wire, MIN_WIRE_LEN, MAX_SACK_RANGES, FIXED_HDR_LEN, CONTINUATION_BYTES.
  set (count := be_decode _). cbv zeta.
  destruct (Nat.ltb_spec (length buf) 14) as [|Hlen]; [repeat split; (done || lia)|].
  split; [lia|]. split; [by intros _ ->|].
  destruct (Nat.eqb_spec (Z.to_nat count) 0); [repeat split; lia|].
  destruct (Nat.ltb_spec 32 (Z.to_nat count)); [split; [done|lia]|].
  split; [lia|]. intros _ Hc Hshort.
  by destruct (Nat.ltb_spec (length buf) (10 + 4 + 8 * (Z.to_nat count - 1))); [|lia].
Qed.

Lemma sack_decode_errors_witness :
  from_wire (replicate 8 0 ++ [0; 33] ++ replicate 4 0) = Err TooManyRanges.
Proof.
  destruct (sack_decode_errors (replicate 8 0 ++ [0; 33] ++ replicate 4 0)) as (_ & _ & H & _).
  apply H; vm_compute; [lia|done].
Defined.
