(* ===== verification/Rto.v ===== *)
(** * Retransmission timeout estimation ([RtoEstimator] of [core/src/transport/stream.rs])

    Durations are integers of nanoseconds.  Additions and multiplications of
    [Duration] panic beyond [DURATION_MAX]; the estimator is shown to stay below
    the largest sample, so none of them is reached. *)

From Stdlib Require Import ZArith Lia.
From stdpp Require Import base numbers option list.
From S2P Require Import Prelude.

Local Open Scope Z_scope.

Definition millis (n : Z) : Z := n * 1000000.
Definition secs (n : Z) : Z := n * 1000000000.
(** The largest [Duration]: [u64::MAX] seconds and 999999999 nanoseconds. *)
Definition DURATION_MAX : Z := 2 ^ 64 * 1000000000 - 1.

Record RtoEstimator := mk_rto {
  srtt : option Z;
  min_rtt : option Z;
  rttvar : Z;
  backoff_shift : Z;
}.

Definition INITIAL_RTO : Z := secs 1.
Definition MIN_RTO : Z := millis 200.
Definition MAX_RTO : Z := secs 60.
Definition GRANULARITY : Z := millis 1.
Definition MAX_BACKOFF_SHIFT : Z := 6.

Definition rto_new : RtoEstimator := mk_rto None None 0 0.

Definition on_rtt_sample (e : RtoEstimator) (r : Z) : RtoEstimator :=
  let min_rtt' := Some (match min_rtt e with Some m => Z.min m r | None => r end) in
  match srtt e with
  | None => mk_rto (Some r) min_rtt' (r / 2) 0
  | Some s =>
    let diff := Z.abs (s - r) in
    mk_rto (Some ((s * 7 + r) / 8)) min_rtt' ((rttvar e * 3 + diff) / 4) 0
  end.

Definition rto (e : RtoEstimator) : Z :=
  let base := match srtt e with
              | None => INITIAL_RTO
              | Some s => s + Z.max GRANULARITY (rttvar e * 4)
              end in
  let scaled := base * 2 ^ backoff_shift e in
  clamp (if scaled <=? DURATION_MAX then scaled else MAX_RTO) MIN_RTO MAX_RTO.

Definition on_timeout (e : RtoEstimator) : RtoEstimator :=
  mk_rto (srtt e) (min_rtt e) (rttvar e) (Z.min (backoff_shift e + 1) MAX_BACKOFF_SHIFT).

Definition rto_reset (e : RtoEstimator) : RtoEstimator := mk_rto None None 0 0.

(** ** Invariant *)

(** Every estimate lies within the samples' bound [b]. *)
Record rto_ok (b : Z) (e : RtoEstimator) : Prop := {
  ok_srtt : from_option (λ s, 0 <= s <= b) True (srtt e);
  ok_min : from_option (λ m, 0 <= m <= b) True (min_rtt e);
  ok_var : 0 <= rttvar e <= b;
  ok_shift : 0 <= backoff_shift e <= MAX_BACKOFF_SHIFT;
}.

(** An event of the estimator's life. *)
Inductive rto_event := Sample (r : Z) | Timeout | Reset.

Definition rto_step (e : RtoEstimator) (ev : rto_event) : RtoEstimator :=
  match ev with
  | Sample r => on_rtt_sample e r
  | Timeout => on_timeout e
  | Reset => rto_reset e
  end.

Definition sample_within (b : Z) (ev : rto_event) : Prop :=
  match ev with Sample r => 0 <= r <= b | _ => True end.

Lemma rto_new_ok b : 0 <= b -> rto_ok b rto_new.
Proof. intros. split; simpl; unfold MAX_BACKOFF_SHIFT; lia. Qed.

Lemma on_rtt_sample_ok b e r : 0 <= r <= b -> rto_ok b e -> rto_ok b (on_rtt_sample e r).
Proof.
  intros Hr [Hs Hm Hv Hsh]. unfold on_rtt_sample, MAX_BACKOFF_SHIFT.
  assert (0 <= match min_rtt e with Some m => Z.min m r | None => r end <= b)
    by (destruct (min_rtt e); simpl in *; lia).
  destruct (srtt e) as [s|]; simpl in *; split; simpl; unfold MAX_BACKOFF_SHIFT; try done;
    Z.to_euclidean_division_equations; lia.
Qed.

Lemma rto_step_ok b e ev : 0 <= b -> sample_within b ev -> rto_ok b e -> rto_ok b (rto_step e ev).
Proof.
  intros Hb Hev He. destruct ev as [r| |]; simpl in *.
  - by apply on_rtt_sample_ok.
  - destruct He. split; simpl; try done. unfold MAX_BACKOFF_SHIFT in *. lia.
  - by apply rto_new_ok.
Qed.

Lemma rto_run_ok b evs e :
  0 <= b -> Forall (sample_within b) evs -> rto_ok b e -> rto_ok b (foldl rto_step e evs).
Proof.
  intros Hb HF. revert e. induction HF as [|ev evs Hev _ IH]; intros e He; simpl; [done|].
  apply IH. by apply rto_step_ok.
Qed.

Lemma rto_bounds e : MIN_RTO <= rto e <= MAX_RTO.
Proof. apply clamp_bounds. done. Qed.

Lemma timeouts_shift n e :
  0 <= backoff_shift e <= MAX_BACKOFF_SHIFT ->
  Nat.iter n on_timeout e
  = mk_rto (srtt e) (min_rtt e) (rttvar e) (Z.min (backoff_shift e + Z.of_nat n) MAX_BACKOFF_SHIFT).
Proof.
  intros He. induction n as [|n IH].
  - destruct e; simpl in *. f_equal. lia.
  - rewrite Nat.iter_succ, IH. unfold on_timeout. simpl. f_equal. lia.
Qed.

(** Repeating one sample leaves the smoothed estimate and wears the variance down. *)
Lemma steady_samples n e r :
  srtt e = Some r -> 0 <= rttvar e <= Z.of_nat n ->
  srtt (Nat.iter n (λ e, on_rtt_sample e r) e) = Some r ∧
  rttvar (Nat.iter n (λ e, on_rtt_sample e r) e) = 0.
Proof.
  assert (Hstep : ∀ n e, srtt e = Some r -> 0 <= rttvar e ->
    srtt (Nat.iter n (λ e, on_rtt_sample e r) e) = Some r ∧
    0 <= rttvar (Nat.iter n (λ e, on_rtt_sample e r) e) <= Z.max 0 (rttvar e - Z.of_nat n)).
  { clear n e. intros n e Hs Hv. induction n as [|n IH]; [simpl; split; [done|lia]|].
    rewrite Nat.iter_succ. destruct IH as [IHs IHv]. set (e' := Nat.iter n _ e) in *. unfold on_rtt_sample. rewrite IHs. simpl.
    rewrite Z.sub_diag, Z.add_0_r. split.
    - f_equal. Z.to_euclidean_division_equations. lia.
    - Z.to_euclidean_division_equations. lia. }
  intros Hs Hv. destruct (Hstep n e Hs) as [H1 H2]; [lia|]. split; [done|lia].
Qed.

(** ** Properties *)

(** Through any sequence of round-trip samples, timeouts and resets, with all
    samples at most [b] nanoseconds: the smoothed estimate, the minimum and the
    variance never exceed [b], the timeout stays between 200 ms and 60 s, and for
    [b] up to an eighth of the largest [Duration] none of the [Duration]
    additions or multiplications can overflow. *)
Theorem rto_estimator_bounded (b : Z) (evs : list rto_event) :
  0 <= b -> 8 * b + GRANULARITY <= DURATION_MAX -> Forall (sample_within b) evs ->
  let e := foldl rto_step rto_new evs in
  rto_ok b e ∧ MIN_RTO <= rto e <= MAX_RTO ∧
  from_option (λ s, s * 7 + b <= DURATION_MAX ∧
                    s + Z.max GRANULARITY (rttvar e * 4) <= DURATION_MAX) True (srtt e) ∧
  rttvar e * 3 + b <= DURATION_MAX.
Proof.
  intros Hb Hmax HF e.
  assert (He : rto_ok b e) by (apply rto_run_ok; [done..|by apply rto_new_ok]).
  split; [done|]. split; [apply rto_bounds|]. destruct He as [Hs _ Hv _].
  unfold GRANULARITY, millis in *. split; [|lia]. destruct (srtt e); simpl in *; [lia|done].
Qed.

Lemma rto_estimator_bounded_witness :
  rto_ok (secs 2) (foldl rto_step rto_new [Sample (millis 80); Timeout; Sample (secs 2); Reset]).
Proof.
  apply (rto_estimator_bounded (secs 2)); [vm_compute; congruence..|].
  repeat constructor; vm_compute; congruence.
Defined.

(** Backoff and its reset: [n] consecutive timeouts multiply the unclamped
    timeout by [2^min(n,6)] (for a base that cannot overflow), and a fresh sample
    removes the whole backoff. *)
Theorem rto_backoff_exponential (b : Z) (n : nat) (e : RtoEstimator) :
  rto_ok b e -> backoff_shift e = 0 -> 64 * (5 * b + GRANULARITY) <= DURATION_MAX ->
  rto (Nat.iter n on_timeout e)
  = clamp (match srtt e with None => INITIAL_RTO
           | Some s => s + Z.max GRANULARITY (rttvar e * 4) end * 2 ^ Z.min (Z.of_nat n) 6)
          MIN_RTO MAX_RTO ∧
  ∀ r, backoff_shift (on_rtt_sample (Nat.iter n on_timeout e) r) = 0.
Proof.
  intros [Hs _ Hv Hsh] H0 Hmax. rewrite timeouts_shift by done. split.
  - unfold rto. cbn [srtt rttvar backoff_shift]. rewrite H0, Z.add_0_l. unfold MAX_BACKOFF_SHIFT.
    set (base := match srtt e with Some _ => _ | None => _ end).
    assert (Hbase : 0 <= base /\ 64 * base <= DURATION_MAX).
    { unfold base, GRANULARITY, INITIAL_RTO, millis, secs, DURATION_MAX in *.
      destruct (srtt e); simpl in *; lia. }
    assert (0 <= 2 ^ Z.min (Z.of_nat n) 6 <= 2 ^ 6).
    { split; [apply Z.pow_nonneg; lia|apply Z.pow_le_mono_r; lia]. }
    change (2 ^ 6) with 64 in *.
    destruct (Z.leb_spec (base * 2 ^ Z.min (Z.of_nat n) 6) DURATION_MAX); [done|nia].
  - intros r. unfold on_rtt_sample. cbn [srtt]. by destruct (srtt e).
Qed.

Lemma rto_backoff_exponential_witness :
  rto (Nat.iter 2 on_timeout (on_rtt_sample rto_new (millis 100))) = millis 1200.
Proof.
  rewrite (proj1 (rto_backoff_exponential (millis 100) 2 (on_rtt_sample rto_new (millis 100))
    ltac:(split; vm_compute; intuition congruence) eq_refl ltac:(vm_compute; congruence))).
  vm_compute. reflexivity.
Defined.

(** On a steady path the timeout settles: after as many equal samples [r] as
    the variance has nanoseconds, the timeout is [r] plus the 1 ms granularity,
    within the clamp. *)
Theorem rto_settles_on_steady_path (e : RtoEstimator) (r : Z) (n : nat) :
  srtt e = Some r -> 0 <= r <= MAX_RTO -> 0 <= rttvar e <= Z.of_nat n -> (0 < n)%nat ->
  rto (Nat.iter n (λ e, on_rtt_sample e r) e) = clamp (r + GRANULARITY) MIN_RTO MAX_RTO.
Proof.
  intros Hs Hr Hv Hn. destruct (steady_samples n e r Hs Hv) as [H1 H2].
  assert (H3 : backoff_shift (Nat.iter n (λ e, on_rtt_sample e r) e) = 0).
  { destruct n as [|n]; [lia|]. rewrite Nat.iter_succ. unfold on_rtt_sample. by case_match. }
  unfold rto. rewrite H1, H2, H3. cbn [Z.mul]. unfold GRANULARITY, DURATION_MAX, MAX_RTO, millis, secs in *.
  rewrite Z.max_l, Z.mul_1_r by lia.
  destruct (Z.leb_spec (r + 1 * 1000000) (2 ^ 64 * 1000000000 - 1)); [done|lia].
Qed.

Lemma rto_settles_on_steady_path_witness :
  rto (Nat.iter 50 (λ e, on_rtt_sample e (millis 300)) (mk_rto (Some (millis 300)) None 40 3)) = millis 301.
Proof.
  rewrite (rto_settles_on_steady_path (mk_rto (Some (millis 300)) None 40 3) (millis 300) 50
    eq_refl ltac:(vm_compute; intuition congruence) ltac:(vm_compute; intuition congruence) ltac:(lia)).
  vm_compute. reflexivity.
Defined.
