(* ===== verification/StreamSend.v ===== *)
(** * The sending half of a stream ([core/src/transport/stream.rs])

    The reliable send buffer, the unreliable queue, the flow-control ledger, the
    retransmission passes of [poll_send], acknowledgement processing and loss
    detection.  The fields of [Stream] that the sending side owns are the record
    [SendHalf]; an atomic compare-exchange loop is one step, instants and
    durations are nanoseconds, and the clock reading is an argument [now]. *)

From Stdlib Require Import ZArith Lia.
From stdpp Require Import base numbers option list.
From S2P Require Import Prelude Errors Sack Rto.

Local Open Scope Z_scope.
Local Open Scope phantom_scope.

Definition MAX_PENDING_PACKETS : Z := 1024.
Definition PACKET_THRESHOLD : Z := 3.
Definition INITIAL_STREAM_WINDOW : Z := 64 * 1024.
Definition MAX_SEND_WINDOW : Z := 16 * INITIAL_STREAM_WINDOW.

Inductive LossCause := PacketThreshold | TimeThreshold | BothThresholds | RtoExpired.

Record PendingData := mk_pending {
  pd_offset : Z;
  pd_data : list Z;
  pd_sent_at : option Z;
  pd_delivered_at_send : Z;
  pd_delivered_time_at_send : option Z;
  pd_app_limited_at_send : bool;
  pd_retries : Z;
  pd_lost : option LossCause;
  pd_fin : bool;
  pd_charged : bool;
}.

Record RetiredSegment := mk_retired {
  rs_sent_at : option Z;
  rs_size : Z;
  rs_was_retransmit : bool;
  rs_delivered_at_send : Z;
  rs_delivered_time_at_send : option Z;
  rs_app_limited_at_send : bool;
}.

Record LostSegment := mk_lost { ls_offset : Z; ls_size : Z }.

Record SackResult := mk_sack_result { retired : list RetiredSegment; lost : list LostSegment }.

Definition lost_offsets (r : SackResult) : list Z := ls_offset <$> lost r.

Record OutboundSegment := mk_outbound {
  os_offset : Z;
  os_data : list Z;
  os_reliable : bool;
  os_retransmit : bool;
  os_first_retransmit : bool;
  os_loss_cause : option LossCause;
  os_fin : bool;
}.

Inductive SendBlocked := Idle | CongestionWindow | FlowControl.

Record SendHalf := mk_send {
  reliable_offset : Z;
  send_buffer : list PendingData;
  unreliable_buffer : list (list Z);
  local_finished : bool;
  permits : Z;
  bytes_sent : Z;
  peer_send_limit : Z;
  rto_est : RtoEstimator;
  persist_probe_at : option Z;
  highest_acked_plus_one : Z;
}.

Definition send_new : SendHalf :=
  mk_send 0 [] [] false MAX_PENDING_PACKETS 0 INITIAL_STREAM_WINDOW rto_new None 0.

(** Field updates. *)
Definition set_buffer (s : SendHalf) (b : list PendingData) : SendHalf :=
  mk_send (reliable_offset s) b (unreliable_buffer s) (local_finished s) (permits s) (bytes_sent s)
    (peer_send_limit s) (rto_est s) (persist_probe_at s) (highest_acked_plus_one s).
Definition set_unreliable (s : SendHalf) (b : list (list Z)) : SendHalf :=
  mk_send (reliable_offset s) (send_buffer s) b (local_finished s) (permits s) (bytes_sent s)
    (peer_send_limit s) (rto_est s) (persist_probe_at s) (highest_acked_plus_one s).
Definition set_local_finished (s : SendHalf) (b : bool) : SendHalf :=
  mk_send (reliable_offset s) (send_buffer s) (unreliable_buffer s) b (permits s) (bytes_sent s)
    (peer_send_limit s) (rto_est s) (persist_probe_at s) (highest_acked_plus_one s).
Definition set_permits (s : SendHalf) (n : Z) : SendHalf :=
  mk_send (reliable_offset s) (send_buffer s) (unreliable_buffer s) (local_finished s) n (bytes_sent s)
    (peer_send_limit s) (rto_est s) (persist_probe_at s) (highest_acked_plus_one s).
Definition set_bytes_sent (s : SendHalf) (n : Z) : SendHalf :=
  mk_send (reliable_offset s) (send_buffer s) (unreliable_buffer s) (local_finished s) (permits s) n
    (peer_send_limit s) (rto_est s) (persist_probe_at s) (highest_acked_plus_one s).
Definition set_limit (s : SendHalf) (n : Z) : SendHalf :=
  mk_send (reliable_offset s) (send_buffer s) (unreliable_buffer s) (local_finished s) (permits s)
    (bytes_sent s) n (rto_est s) (persist_probe_at s) (highest_acked_plus_one s).
Definition set_rto (s : SendHalf) (e : RtoEstimator) : SendHalf :=
  mk_send (reliable_offset s) (send_buffer s) (unreliable_buffer s) (local_finished s) (permits s)
    (bytes_sent s) (peer_send_limit s) e (persist_probe_at s) (highest_acked_plus_one s).
Definition set_probe_at (s : SendHalf) (t : option Z) : SendHalf :=
  mk_send (reliable_offset s) (send_buffer s) (unreliable_buffer s) (local_finished s) (permits s)
    (bytes_sent s) (peer_send_limit s) (rto_est s) t (highest_acked_plus_one s).
Definition set_highest_acked (s : SendHalf) (n : Z) : SendHalf :=
  mk_send (reliable_offset s) (send_buffer s) (unreliable_buffer s) (local_finished s) (permits s)
    (bytes_sent s) (peer_send_limit s) (rto_est s) (persist_probe_at s) n.
Definition set_reliable_offset (s : SendHalf) (n : Z) : SendHalf :=
  mk_send n (send_buffer s) (unreliable_buffer s) (local_finished s) (permits s)
    (bytes_sent s) (peer_send_limit s) (rto_est s) (persist_probe_at s) (highest_acked_plus_one s).

(** [Instant::duration_since] saturates at zero. *)
Definition since (now t : Z) : Z := sat_sub now t.

(** ** Timer, acknowledged offset, flow control *)

Definition current_rto (s : SendHalf) : Z := rto (rto_est s).
Definition reset_rto (s : SendHalf) : SendHalf := set_rto s (rto_reset (rto_est s)).
Definition record_rtt_sample (s : SendHalf) (rtt : Z) : SendHalf := set_rto s (on_rtt_sample (rto_est s) rtt).
Definition note_rto_timeout (s : SendHalf) : SendHalf := set_rto s (on_timeout (rto_est s)).

Definition note_acked_offset (s : SendHalf) (offset : Z) : SendHalf :=
  set_highest_acked s (Z.max (highest_acked_plus_one s) (sat_add 32 offset 1)).
Definition last_acked_offset (s : SendHalf) : option Z :=
  if highest_acked_plus_one s =? 0 then None else Some (highest_acked_plus_one s - 1).

Definition peer_send_window (s : SendHalf) : Z :=
  Z.min (sat_sub (peer_send_limit s) (bytes_sent s)) (u_max 32).

Definition try_consume_send_window (s : SendHalf) (n : Z) : bool * SendHalf :=
  match checked_add 64 (bytes_sent s) n with
  | None => (false, s)
  | Some next =>
    if peer_send_limit s <? next then (false, s) else (true, set_bytes_sent s next)
  end.

Definition apply_peer_window_limit (s : SendHalf) (limit : Z) : SendHalf :=
  let ceiling := sat_add 64 (bytes_sent s) MAX_SEND_WINDOW in
  set_limit s (Z.max (peer_send_limit s) (Z.min limit ceiling)).

(** ** Queueing *)

Definition next_reliable_offset (s : SendHalf) : result (Z * SendHalf) CoreError :=
  let cur := reliable_offset s in
  next <-? ok_or (checked_add 32 cur 1) StreamError;
  Ok (cur, set_reliable_offset s next).

(** A segment not yet sent. *)
Definition fresh_pending (offset : Z) (data : list Z) (fin : bool) : PendingData :=
  mk_pending offset data None 0 None false 0 None fin false.

(** Assign the offset, forget the permit, push the segment. *)
Definition push_segment (s : SendHalf) (data : list Z) (fin : bool) : result (Z * SendHalf) CoreError :=
  r <-? next_reliable_offset s;
  let '(offset, s1) := r in
  let s2 := set_permits s1 (permits s1 - 1) in
  Ok (offset, set_buffer s2 (send_buffer s2 ++ [fresh_pending offset data fin])).

(** [send_reliable]: [None] while no permit is available (the call waits). *)
Definition send_reliable (s : SendHalf) (data : list Z) : option (result (Z * SendHalf) CoreError) :=
  if permits s <=? 0 then None else Some (push_segment s data false).

Definition try_send_reliable (s : SendHalf) (data : list Z) : result (bool * SendHalf) CoreError :=
  if permits s <=? 0 then Ok (false, s)
  else r <-? push_segment s data false; Ok (true, r.2).

Definition try_queue_fin (s : SendHalf) : result (bool * SendHalf) CoreError :=
  if permits s <=? 0 then Ok (false, s)
  else r <-? push_segment s [] true; Ok (true, set_local_finished r.2 true).

Definition queue_fin (s : SendHalf) : option (result SendHalf CoreError) :=
  if permits s <=? 0 then None
  else Some (r <-? push_segment s [] true; Ok (set_local_finished r.2 true)).

Definition is_fin_acked (s : SendHalf) : bool :=
  local_finished s && match send_buffer s with [] => true | _ => false end.

Definition has_sent_reliable (s : SendHalf) : bool := 0 <? reliable_offset s.

Definition send_unreliable (s : SendHalf) (data : list Z) : SendHalf :=
  set_unreliable s (unreliable_buffer s ++ [data]).

Definition send_buffer_full (s : SendHalf) : bool := permits s =? 0.

Definition pending_send_count (s : SendHalf) : Z := len (send_buffer s).

(** ** Sending *)

(** [for x in buffer.iter_mut() { if cond { mutate; return } }]. *)
Fixpoint update_first {A B} (f : A -> option (A * B)) (l : list A) : option (list A * B) :=
  match l with
  | [] => None
  | x :: l' =>
    match f x with
    | Some (x', b) => Some (x' :: l', b)
    | None => match update_first f l' with
              | Some (l'', b) => Some (x :: l'', b)
              | None => None
              end
    end
  end.

(** The copy handed out by the two retransmission passes. *)
Definition resend (p : PendingData) (cause : LossCause) : OutboundSegment :=
  mk_outbound (pd_offset p) (pd_data p) true true (pd_retries p =? 0) (Some cause) (pd_fin p).

(** Restamp the send time, count the copy; the delivery marks stay. *)
Definition restamp (p : PendingData) (now : Z) (lost : option LossCause) : PendingData :=
  mk_pending (pd_offset p) (pd_data p) (Some now) (pd_delivered_at_send p)
    (pd_delivered_time_at_send p) (pd_app_limited_at_send p) (wrap 32 (pd_retries p + 1)) lost
    (pd_fin p) (pd_charged p).

(** Pass 0: a segment flagged lost. *)
Definition fast_retransmit (now : Z) (p : PendingData) : option (PendingData * OutboundSegment) :=
  match pd_lost p, pd_sent_at p with
  | Some cause, Some _ => Some (restamp p now None, resend p cause)
  | _, _ => None
  end.

(** Pass 1: a timed-out segment. *)
Definition timeout_retransmit (now timeout : Z) (p : PendingData)
  : option (PendingData * OutboundSegment) :=
  match pd_sent_at p with
  | Some t => if timeout <=? since now t
              then Some (restamp p now (pd_lost p), resend p RtoExpired) else None
  | None => None
  end.

(** Pass 2: the first unsent segment, against the congestion budget and the
    peer's window. *)
Definition offer_unsent (s : SendHalf) (now cwnd_budget delivered_now delivered_time_now : Z)
    (app_limited_now : bool) (p : PendingData)
  : option (PendingData * (result OutboundSegment SendBlocked * SendHalf)) :=
  match pd_sent_at p with
  | Some _ => None
  | None =>
    let l := len (pd_data p) in
    if cwnd_budget <? l then Some (p, (Err CongestionWindow, s))
    else
      let '(granted, s1, charged) :=
        if negb (pd_fin p) && negb (pd_charged p)
        then let '(b, s1) := try_consume_send_window s (wrap 32 l) in (b, s1, true)
        else (true, s, pd_charged p) in
      if granted then
        Some (mk_pending (pd_offset p) (pd_data p) (Some now) delivered_now (Some delivered_time_now)
                app_limited_now (pd_retries p) (pd_lost p) (pd_fin p) charged,
              (Ok (mk_outbound (pd_offset p) (pd_data p) true false false None (pd_fin p)), s1))
      else Some (p, (Err FlowControl, s1))
  end.

Definition try_persist_probe (s : SendHalf) (now : Z) (anything_in_flight : bool)
  : option OutboundSegment * SendHalf :=
  if anything_in_flight then (None, s)
  else match last_acked_offset s with
  | None => (None, s)
  | Some offset =>
    let interval := current_rto s in
    if match persist_probe_at s with Some t => since now t <? interval | None => false end
    then (None, s)
    else (Some (mk_outbound offset [] true false false None false), set_probe_at s (Some now))
  end.

Definition in_flight (p : PendingData) : bool :=
  match pd_sent_at p with Some _ => true | None => false end.

Definition poll_send (s : SendHalf) (now cwnd_budget delivered_now delivered_time_now : Z)
    (app_limited_now : bool) : result OutboundSegment SendBlocked * SendHalf :=
  match unreliable_buffer s with
  | data :: rest => (Ok (mk_outbound 0 data false false false None false), set_unreliable s rest)
  | [] =>
    let buffer := send_buffer s in
    let timeout := current_rto s in
    match update_first (fast_retransmit now) buffer with
    | Some (b, seg) => (Ok seg, set_buffer s b)
    | None =>
      match update_first (timeout_retransmit now timeout) buffer with
      | Some (b, seg) => (Ok seg, note_rto_timeout (set_buffer s b))
      | None =>
        let anything_in_flight := existsb in_flight buffer in
        match update_first (offer_unsent s now cwnd_budget delivered_now delivered_time_now
                              app_limited_now) buffer with
        | Some (b, (Ok seg, s1)) => (Ok seg, set_buffer s1 b)
        | Some (_, (Err FlowControl, s1)) =>
          match try_persist_probe s1 now anything_in_flight with
          | (Some probe, s2) => (Ok probe, s2)
          | (None, s2) => (Err FlowControl, s2)
          end
        | Some (_, (Err e, s1)) => (Err e, s1)
        | None => (Err Idle, s)
        end
      end
    end
  end.

(** ** Acknowledgement *)

(** [position] then [remove]. *)
Fixpoint remove_first {A} (f : A -> bool) (l : list A) : option (A * list A) :=
  match l with
  | [] => None
  | x :: l' => if f x then Some (x, l')
               else match remove_first f l' with
                    | Some (y, l'') => Some (y, x :: l'')
                    | None => None
                    end
  end.

Definition ack (s : SendHalf) (now offset : Z) : option (Z * Z) * SendHalf :=
  match remove_first (λ p, pd_offset p =? offset) (send_buffer s) with
  | None => (None, s)
  | Some (p, b) =>
    let s1 := note_acked_offset (set_buffer s b) offset in
    let s2 := set_permits s1 (permits s1 + 1) in
    match pd_sent_at p with
    | None => (None, s2)
    | Some t =>
      (Some (t, len (pd_data p)),
       if pd_retries p =? 0 then record_rtt_sample s2 (since now t) else s2)
    end
  end.

(** [mark_unsent] on one segment; the bytes to give back with it. *)
Definition unsend (offset : Z) (p : PendingData) : option (PendingData * Z) :=
  if pd_offset p =? offset then
    let refund := pd_charged p && (pd_retries p =? 0) in
    Some (mk_pending (pd_offset p) (pd_data p) None (pd_delivered_at_send p)
            (pd_delivered_time_at_send p) (pd_app_limited_at_send p) (pd_retries p) (pd_lost p)
            (pd_fin p) (if refund then false else pd_charged p),
          if refund then len (pd_data p) else 0)
  else None.

Definition mark_unsent (s : SendHalf) (offset : Z) : SendHalf :=
  match update_first (unsend offset) (send_buffer s) with
  | None => s
  | Some (b, uncharge) => set_bytes_sent (set_buffer s b) (sat_sub (bytes_sent s) uncharge)
  end.

(** The retire loop of [on_sack]: the segments kept, those retired in order, and
    the state with its round-trip samples and acknowledged offset. *)
Fixpoint retire_covered (sack : Sack) (now : Z) (s : SendHalf) (buf : list PendingData)
  : list PendingData * list RetiredSegment * SendHalf :=
  match buf with
  | [] => ([], [], s)
  | p :: buf' =>
    if acks sack (pd_offset p) then
      let s1 := note_acked_offset s (pd_offset p) in
      let was_retransmit := 0 <? pd_retries p in
      let s2 := match pd_sent_at p with
                | Some t => if negb was_retransmit then record_rtt_sample s1 (since now t) else s1
                | None => s1
                end in
      let '(kept, ret, s3) := retire_covered sack now s2 buf' in
      (kept,
       mk_retired (pd_sent_at p) (len (pd_data p)) was_retransmit (pd_delivered_at_send p)
         (pd_delivered_time_at_send p) (pd_app_limited_at_send p) :: ret, s3)
    else
      let '(kept, ret, s1) := retire_covered sack now s buf' in (p :: kept, ret, s1)
  end.

Definition flag_lost (p : PendingData) (cause : LossCause) : PendingData :=
  mk_pending (pd_offset p) (pd_data p) (pd_sent_at p) (pd_delivered_at_send p)
    (pd_delivered_time_at_send p) (pd_app_limited_at_send p) (pd_retries p) (Some cause)
    (pd_fin p) (pd_charged p).

(** The loss test on one buffered segment. *)
Definition loss_cause_of (largest now : Z) (time_threshold : option Z) (p : PendingData)
  : option LossCause :=
  match pd_lost p, pd_sent_at p with
  | None, Some t =>
    if largest <=? pd_offset p then None
    else
      let packet_lost := (pd_retries p =? 0) && (sat_add 32 (pd_offset p) PACKET_THRESHOLD <=? largest) in
      let time_lost := match time_threshold with Some d => d <=? since now t | None => false end in
      match packet_lost, time_lost with
      | true, true => Some BothThresholds
      | true, false => Some PacketThreshold
      | false, true => Some TimeThreshold
      | false, false => None
      end
  | _, _ => None
  end.

Fixpoint detect_loss (largest now : Z) (time_threshold : option Z) (buf : list PendingData)
  : list PendingData * list LostSegment :=
  match buf with
  | [] => ([], [])
  | p :: buf' =>
    let '(b, l) := detect_loss largest now time_threshold buf' in
    match loss_cause_of largest now time_threshold p with
    | Some cause => (flag_lost p cause :: b, mk_lost (pd_offset p) (len (pd_data p)) :: l)
    | None => (p :: b, l)
    end
  end.

Definition on_sack (s : SendHalf) (now : Z) (sack : Sack) : SackResult * SendHalf :=
  let '(kept, ret, s1) := retire_covered sack now s (send_buffer s) in
  let largest := Z.min (largest_acked sack) (reliable_offset s1) in
  let time_threshold := (λ r, Z.max (millis 1) (r * 9 / 8)) <$> srtt (rto_est s1) in
  let '(buf, l) := detect_loss largest now time_threshold kept in
  let s2 := set_buffer s1 buf in
  (mk_sack_result ret l, set_permits s2 (permits s2 + len ret)).

(** ** Invariant *)

(** What a buffered segment carries, apart from its bookkeeping. *)
Definition seg_of (p : PendingData) : Z * list Z * bool := (pd_offset p, pd_data p, pd_fin p).

(** Bytes of a segment held against the peer's limit. *)
Definition charge_of (p : PendingData) : Z := if pd_charged p then len (pd_data p) else 0.
Definition charges (buf : list PendingData) : Z := sum_Z (charge_of <$> buf).

Record pending_ok (p : PendingData) : Prop := {
  po_fin : pd_fin p = true -> pd_data p = [] ∧ pd_charged p = false;
  po_len : len (pd_data p) < 2 ^ 32;
  po_sent : is_Some (pd_sent_at p) -> pd_fin p = false -> pd_charged p = true;
  po_resent : pd_retries p <> 0 -> pd_fin p = false -> pd_charged p = true;
  po_retries : 0 <= pd_retries p;
}.

(** The buffer: distinct offsets below the next one to assign. *)
Record buf_ok (next : Z) (buf : list PendingData) : Prop := {
  bo_distinct : NoDup (pd_offset <$> buf);
  bo_range : Forall (λ p, 0 <= pd_offset p < next) buf;
  bo_pending : Forall pending_ok buf;
}.

Record wf_send (s : SendHalf) : Prop := {
  ws_buffer : buf_ok (reliable_offset s) (send_buffer s);
  ws_offset : 0 <= reliable_offset s <= u_max 32;
  ws_permits : 0 <= permits s ∧ permits s + len (send_buffer s) = MAX_PENDING_PACKETS;
  ws_ledger : charges (send_buffer s) <= bytes_sent s <= peer_send_limit s;
  ws_limit : peer_send_limit s <= u_max 64;
  ws_acked : 0 <= highest_acked_plus_one s <= reliable_offset s;
}.

(** Reduce the field updates and projections only. *)
Ltac simpl_send :=
  cbn [reliable_offset send_buffer unreliable_buffer local_finished permits bytes_sent peer_send_limit
       rto_est persist_probe_at highest_acked_plus_one set_buffer set_unreliable set_local_finished
       set_permits set_bytes_sent set_limit set_rto set_probe_at set_highest_acked set_reliable_offset].

(** ** Lemmas on the buffer *)

Lemma update_first_Some {A B} (f : A -> option (A * B)) l l' b :
  update_first f l = Some (l', b) ->
  ∃ l1 x x' l2, l = l1 ++ x :: l2 ∧ l' = l1 ++ x' :: l2 ∧ f x = Some (x', b) ∧
                Forall (λ y, f y = None) l1.
Proof.
  revert l'. induction l as [|x l IH]; intros l'; simpl; [done|].
  destruct (f x) as [[x' b']|] eqn:E.
  - intros [= <- ->]. by exists [], x, x', l.
  - destruct (update_first f l) as [[l'' b']|]; [|done]. intros [= <- ->].
    destruct (IH l'' eq_refl) as (l1 & y & y' & l2 & -> & -> & Hf & HF).
    exists (x :: l1), y, y', l2. repeat split; [done|by constructor].
Qed.

Lemma update_first_None {A B} (f : A -> option (A * B)) l :
  update_first f l = None <-> Forall (λ y, f y = None) l.
Proof.
  induction l as [|x l IH]; simpl; [by split|]. rewrite Forall_cons.
  destruct (f x) as [[x' b']|] eqn:E; [naive_solver|].
  destruct (update_first f l) as [[l'' b']|]; naive_solver.
Qed.

Lemma remove_first_Some {A} (f : A -> bool) l x l' :
  remove_first f l = Some (x, l') ->
  ∃ l1 l2, l = l1 ++ x :: l2 ∧ l' = l1 ++ l2 ∧ f x = true ∧ Forall (λ y, f y = false) l1.
Proof.
  revert l'. induction l as [|y l IH]; intros l'; simpl; [done|].
  destruct (f y) eqn:E; [intros [= <- <-]; by exists [], l|].
  destruct (remove_first f l) as [[z l'']|]; [|done]. intros [= -> <-].
  destruct (IH l'' eq_refl) as (l1 & l2 & -> & -> & Hx & HF).
  exists (y :: l1), l2. repeat split; [done|by constructor].
Qed.

Lemma remove_first_None {A} (f : A -> bool) l :
  remove_first f l = None <-> Forall (λ y, f y = false) l.
Proof.
  induction l as [|x l IH]; simpl; [by split|]. rewrite Forall_cons.
  destruct (f x) eqn:E; [naive_solver|]. destruct (remove_first f l) as [[]|]; naive_solver.
Qed.

Lemma charges_app b1 b2 : charges (b1 ++ b2) = charges b1 + charges b2.
Proof. unfold charges. by rewrite fmap_app, sum_Z_app. Qed.

Lemma charges_cons p b : charges (p :: b) = charge_of p + charges b.
Proof. done. Qed.

Lemma charge_of_nonneg p : 0 <= charge_of p.
Proof. unfold charge_of. pose proof (len_nonneg (pd_data p)). case_match; lia. Qed.

Lemma charges_sublist b1 b2 : b1 `sublist_of` b2 -> charges b1 <= charges b2.
Proof.
  induction 1 as [|p l1 l2 _ IH|p l1 l2 _ IH]; rewrite ?charges_cons; [done|lia|].
  pose proof (charge_of_nonneg p). lia.
Qed.

Lemma buf_ok_sublist next b1 b2 : b1 `sublist_of` b2 -> buf_ok next b2 -> buf_ok next b1.
Proof.
  intros Hs [H1 H2 H3]. pose proof (sublist_subseteq _ _ Hs) as Hsub. split.
  - eapply sublist_NoDup; [exact H1|]. by apply (fmap_sublist pd_offset).
  - rewrite Forall_forall in *. auto.
  - rewrite Forall_forall in *. auto.
Qed.

(** Replacing a segment by one of the same offset. *)
Lemma buf_ok_replace next l1 x x' l2 :
  pd_offset x' = pd_offset x -> pending_ok x' ->
  buf_ok next (l1 ++ x :: l2) -> buf_ok next (l1 ++ x' :: l2).
Proof.
  intros Ho Hp [H1 H2 H3]. split.
  - rewrite fmap_app, fmap_cons in *. by rewrite Ho.
  - rewrite Forall_app, Forall_cons in *. by rewrite Ho.
  - rewrite Forall_app, Forall_cons in *. tauto.
Qed.

Lemma buf_ok_elem next l1 x l2 : buf_ok next (l1 ++ x :: l2) -> pending_ok x ∧ 0 <= pd_offset x < next.
Proof. intros [_ H2 H3]. rewrite Forall_app, Forall_cons in *. tauto. Qed.

Lemma charges_replace l1 x x' l2 :
  charges (l1 ++ x' :: l2) = charges (l1 ++ x :: l2) - charge_of x + charge_of x'.
Proof. rewrite !charges_app, !charges_cons. lia. Qed.

Lemma len_replace {A} l1 (x x' : A) l2 : len (l1 ++ x' :: l2) = len (l1 ++ x :: l2).
Proof. unfold len. by rewrite !length_app. Qed.

(** A state whose buffer has one segment replaced, charging [d] more bytes. *)
Lemma wf_send_replace s l1 x x' l2 d :
  wf_send s -> send_buffer s = l1 ++ x :: l2 ->
  pd_offset x' = pd_offset x -> pending_ok x' -> charge_of x' = charge_of x + d ->
  bytes_sent s + d <= peer_send_limit s ->
  wf_send (set_buffer (set_bytes_sent s (bytes_sent s + d)) (l1 ++ x' :: l2)).
Proof.
  intros [Hb Ho Hp Hl Hlim Ha] E Hoff Hpx Hc Hfit. rewrite E in *.
  split; simpl_send; try done.
  - by eapply buf_ok_replace.
  - by rewrite (len_replace l1 x).
  - rewrite (charges_replace l1 x). lia.
Qed.

Lemma set_bytes_sent_same s : set_bytes_sent s (bytes_sent s + 0) = s.
Proof. destruct s. unfold set_bytes_sent. cbn. by rewrite Z.add_0_r. Qed.

Lemma wf_send_rto s e : wf_send s -> wf_send (set_rto s e).
Proof. by intros []. Qed.

(** ** Each operation keeps the invariant *)

Lemma send_new_wf : wf_send send_new.
Proof.
  split; [split; [apply NoDup_nil_2|apply Forall_nil_2..]|..]; vm_compute; intuition congruence.
Qed.

Lemma try_consume_spec s n b s' :
  0 <= n -> try_consume_send_window s n = (b, s') ->
  if b then s' = set_bytes_sent s (bytes_sent s + n) ∧ bytes_sent s + n <= peer_send_limit s
  else s' = s ∧ (peer_send_limit s < bytes_sent s + n ∨ u_max 64 < bytes_sent s + n).
Proof.
  intros Hn. unfold try_consume_send_window, checked_add.
  destruct (Z.leb_spec (bytes_sent s + n) (u_max 64)); [|intros [= <- <-]; auto].
  destruct (Z.ltb_spec (peer_send_limit s) (bytes_sent s + n)); intros [= <- <-]; auto.
Qed.

Lemma push_segment_wf s data fin r s' :
  len data < 2 ^ 32 -> (fin = true -> data = []) -> 0 < permits s ->
  wf_send s -> push_segment s data fin = Ok (r, s') -> wf_send s' ∧ r = reliable_offset s.
Proof.
  intros Hlen Hfin Hperm [Hb Ho Hp Hl Hlim Ha]. unfold push_segment, next_reliable_offset.
  destruct (checked_add 32 _ 1) as [next|] eqn:E; cbn [ok_or]; [|done].
  apply checked_add_Some in E as [-> ?]. intros [= <- <-]. split; [|done].
  split; simpl_send; try lia.
  - destruct Hb as [H1 H2 H3]. split.
    + rewrite fmap_app. apply NoDup_app. split; [done|]. split; [|apply NoDup_singleton].
      intros x (p & Hx & Hin)%list_elem_of_fmap Hx'%list_elem_of_singleton.
      rewrite Forall_forall in H2. specialize (H2 _ Hin). simpl in *. lia.
    + apply Forall_app; split; [|apply Forall_singleton; simpl; lia].
      eapply Forall_impl; [exact H2|]. simpl. lia.
    + apply Forall_app; split; [done|]. apply Forall_singleton.
      split; cbn; try done. auto.
  - rewrite len_app. unfold len at 2. cbn. lia.
  - rewrite charges_app. unfold charges at 2. cbn. lia.
Qed.

Lemma restamp_ok p now l : is_Some (pd_sent_at p) -> pending_ok p -> pending_ok (restamp p now l).
Proof.
  intros Hs [H1 H2 H3 H4 H5]. split; cbn; auto; try (intros; by apply H3).
  apply wrap_in_u. lia.
Qed.

Lemma charge_restamp p now l : charge_of (restamp p now l) = charge_of p + 0.
Proof. unfold charge_of. cbn. lia. Qed.

Lemma wf_send_restamp s l1 x l2 now l :
  wf_send s -> send_buffer s = l1 ++ x :: l2 -> is_Some (pd_sent_at x) ->
  wf_send (set_buffer s (l1 ++ restamp x now l :: l2)).
Proof.
  intros Hwf E Hx. rewrite <- (set_bytes_sent_same s).
  pose proof (ws_buffer _ Hwf) as Hb. rewrite E in Hb. apply buf_ok_elem in Hb as [Hpx _].
  eapply wf_send_replace; [done|done|done|by apply restamp_ok|apply charge_restamp|].
  destruct Hwf as [_ _ _ ? _ _]. lia.
Qed.

Lemma offer_unsent_ok s now cwnd dn dt al p p' r s1 :
  offer_unsent s now cwnd dn dt al p = Some (p', (r, s1)) -> pending_ok p ->
  pd_sent_at p = None ∧
  match r with
  | Ok seg => len (pd_data p) <= cwnd ∧ seg_of p' = seg_of p ∧ pending_ok p' ∧
      pd_sent_at p' = Some now ∧
      seg = mk_outbound (pd_offset p) (pd_data p) true false false None (pd_fin p) ∧
      ∃ d, 0 <= d ∧ charge_of p' = charge_of p + d ∧ s1 = set_bytes_sent s (bytes_sent s + d) ∧
           (bytes_sent s <= peer_send_limit s -> bytes_sent s + d <= peer_send_limit s)
  | Err CongestionWindow => p' = p ∧ s1 = s ∧ cwnd < len (pd_data p)
  | Err FlowControl => p' = p ∧ s1 = s ∧ pd_fin p = false ∧ pd_charged p = false ∧
      (peer_send_limit s < bytes_sent s + len (pd_data p) ∨ u_max 64 < bytes_sent s + len (pd_data p))
  | Err Idle => False
  end.
Proof.
  unfold offer_unsent. destruct (pd_sent_at p) eqn:Es; [done|]. intros E Hp. split; [done|]. revert E.
  pose proof Hp as [H1 H2 H3 H4 H5]. pose proof (len_nonneg (pd_data p)) as Hl.
  destruct (Z.ltb_spec cwnd (len (pd_data p))); [by intros [= <- <- <-]|].
  rewrite wrap_small by done.
  set (sent c := mk_pending (pd_offset p) (pd_data p) (Some now) dn (Some dt) al (pd_retries p)
    (pd_lost p) (pd_fin p) c).
  assert (Hsent : ∀ c, (c = negb (pd_fin p)) -> pending_ok (sent c)).
  { intros c ->. split; cbn; auto.
    - intros E. rewrite E. destruct (H1 E). done.
    - intros _ E. by rewrite E.
    - intros _ E. by rewrite E. }
  destruct (negb (pd_fin p) && negb (pd_charged p)) eqn:Eg.
  - apply andb_true_iff in Eg as [Ef%negb_true_iff Ec%negb_true_iff]. rewrite Ef, Ec in *.
    destruct (try_consume_send_window s (len (pd_data p))) as [b s2] eqn:Et.
    apply try_consume_spec in Et; [|done]. destruct b; destruct Et as [-> Ht]; intros [= <- <- <-]; [|done].
    split; [done|]. split; [done|]. split; [by apply Hsent|]. split; [done|]. split; [done|].
    exists (len (pd_data p)). unfold charge_of. rewrite Ec. cbn. repeat split; (done || lia).
  - intros [= <- <- <-].
    assert (Hc : pd_charged p = negb (pd_fin p)).
    { destruct (pd_fin p); [by destruct (H1 eq_refl) as [_ ->]|]. by destruct (pd_charged p). }
    split; [done|]. split; [done|]. split; [by apply Hsent|]. split; [done|]. split; [done|].
    exists 0. rewrite set_bytes_sent_same. unfold charge_of. cbn. repeat split; lia.
Qed.

Lemma try_persist_probe_wf s now fl seg s' :
  wf_send s -> try_persist_probe s now fl = (seg, s') -> wf_send s'.
Proof.
  intros Hwf. unfold try_persist_probe. repeat case_match; intros [= <- <-]; try done; by destruct Hwf.
Qed.

Lemma fast_retransmit_Some now p p' seg :
  fast_retransmit now p = Some (p', seg) ->
  ∃ cause, pd_lost p = Some cause ∧ is_Some (pd_sent_at p) ∧
           p' = restamp p now None ∧ seg = resend p cause.
Proof. unfold fast_retransmit. repeat case_match; intros [= <- <-]; eauto. Qed.

Lemma timeout_retransmit_Some now timeout p p' seg :
  timeout_retransmit now timeout p = Some (p', seg) ->
  ∃ t, pd_sent_at p = Some t ∧ timeout <= since now t ∧
       p' = restamp p now (pd_lost p) ∧ seg = resend p RtoExpired.
Proof.
  unfold timeout_retransmit. destruct (pd_sent_at p); [|done].
  case_test; [|done]. intros [= <- <-]. eauto.
Qed.

Lemma poll_send_wf s now cwnd dn dt al r s' :
  wf_send s -> poll_send s now cwnd dn dt al = (r, s') -> wf_send s'.
Proof.
  intros Hwf. unfold poll_send. destruct (unreliable_buffer s) as [|d rest].
  2: { intros [= <- <-]. by destruct Hwf. }
  destruct (update_first (fast_retransmit now) _) as [[b seg]|] eqn:E0.
  { intros [= <- <-]. apply update_first_Some in E0 as (l1 & x & x' & l2 & El & -> & Hf & _).
    apply fast_retransmit_Some in Hf as (c & _ & Hs & -> & _). by apply wf_send_restamp. }
  destruct (update_first (timeout_retransmit _ _) _) as [[b seg]|] eqn:E1.
  { intros [= <- <-]. apply wf_send_rto.
    apply update_first_Some in E1 as (l1 & x & x' & l2 & El & -> & Hf & _).
    apply timeout_retransmit_Some in Hf as (t & Hs & _ & -> & _). apply wf_send_restamp; [done..|].
    rewrite Hs. done. }
  destruct (update_first (offer_unsent _ _ _ _ _ _) _) as [[b [r1 s1]]|] eqn:E2; [|by intros [= <- <-]].
  apply update_first_Some in E2 as (l1 & x & x' & l2 & El & -> & Hf & _).
  pose proof (ws_buffer _ Hwf) as Hb. rewrite El in Hb. apply buf_ok_elem in Hb as [Hpx _].
  apply offer_unsent_ok in Hf as [_ Hf]; [|done].
  destruct r1 as [seg|[| |]].
  - intros [= <- <-]. destruct Hf as (_ & Ho & Hp & _ & _ & d & Hd & Hc & -> & Hle).
    eapply wf_send_replace; [done|done|by injection Ho|done|done|]. apply Hle. destruct Hwf as [_ _ _ ? _ _]. lia.
  - done.
  - destruct Hf as (_ & -> & _). by intros [= <- <-].
  - destruct Hf as (_ & -> & _). destruct (try_persist_probe _ _ _) as [[probe|] s2] eqn:Ep;
      intros [= <- <-]; by eapply try_persist_probe_wf.
Qed.

(** What retiring a segment may change: the estimator and the acknowledged offset. *)
Definition retire_frame (s s' : SendHalf) : Prop :=
  s' = set_highest_acked (set_rto s (rto_est s')) (highest_acked_plus_one s').

Lemma retire_frame_refl s : retire_frame s s.
Proof. by destruct s. Qed.

Lemma retire_frame_trans s1 s2 s3 : retire_frame s1 s2 -> retire_frame s2 s3 -> retire_frame s1 s3.
Proof. unfold retire_frame. intros -> ->. by destruct s1. Qed.

Definition retired_of (p : PendingData) : RetiredSegment :=
  mk_retired (pd_sent_at p) (len (pd_data p)) (0 <? pd_retries p) (pd_delivered_at_send p)
    (pd_delivered_time_at_send p) (pd_app_limited_at_send p).

(** The retire loop keeps the uncovered segments, reports the covered ones in
    order, and raises the acknowledged offset to cover them. *)
Lemma retire_covered_spec sack now s buf kept ret s' :
  retire_covered sack now s buf = (kept, ret, s') ->
  kept = filter (λ p, acks sack (pd_offset p) = false) buf ∧
  ret = retired_of <$> filter (λ p, acks sack (pd_offset p) = true) buf ∧
  retire_frame s s' ∧
  highest_acked_plus_one s <= highest_acked_plus_one s' ∧
  ∀ next, highest_acked_plus_one s <= next -> Forall (λ p, 0 <= pd_offset p < next) buf ->
          highest_acked_plus_one s' <= next.
Proof.
  revert kept ret s s'. induction buf as [|p buf IH]; intros kept ret s s'; simpl.
  { intros [= <- <- <-]. repeat split; [apply retire_frame_refl|lia|lia]. }
  rewrite !filter_cons. destruct (acks sack (pd_offset p)) eqn:Ea.
  - rewrite decide_False, decide_True by done.
    set (s2 := match pd_sent_at p with Some _ => _ | None => _ end).
    assert (Hf : retire_frame s s2 ∧
      highest_acked_plus_one s2 = Z.max (highest_acked_plus_one s) (sat_add 32 (pd_offset p) 1)).
    { unfold s2. destruct s. repeat case_match; by split. }
    destruct Hf as [Hf Hh]. destruct (retire_covered sack now s2 buf) as [[k r] s3] eqn:E.
    intros [= <- <- <-]. apply IH in E as (-> & -> & Hf' & Hm & Hb).
    split; [done|]. split; [done|]. split; [by eapply retire_frame_trans|].
    split; [lia|]. intros next Hn [Hp HF]%Forall_cons. apply Hb; [|done].
    rewrite Hh. unfold sat_add. lia.
  - rewrite decide_True, decide_False by done.
    destruct (retire_covered sack now s buf) as [[k r] s3] eqn:E.
    intros [= <- <- <-]. apply IH in E as (-> & -> & Hf' & Hm & Hb).
    repeat split; [done|done|]. intros next Hn [Hp HF]%Forall_cons. by apply Hb.
Qed.

(** The segment after the loss test. *)
Definition after_loss_test (largest now : Z) (tt : option Z) (p : PendingData) : PendingData :=
  match loss_cause_of largest now tt p with Some cause => flag_lost p cause | None => p end.

Lemma detect_loss_spec largest now tt buf :
  detect_loss largest now tt buf
  = (after_loss_test largest now tt <$> buf,
     (λ p, mk_lost (pd_offset p) (len (pd_data p)))
       <$> filter (λ p, is_Some (loss_cause_of largest now tt p)) buf).
Proof.
  induction buf as [|p buf IH]; [done|]. cbn [detect_loss]. rewrite IH, filter_cons, fmap_cons.
  unfold after_loss_test at 3. destruct (loss_cause_of largest now tt p).
  - by rewrite decide_True by eauto.
  - by rewrite decide_False by (by intros []).
Qed.

Lemma after_loss_test_buf_ok next largest now tt buf :
  buf_ok next buf -> buf_ok next (after_loss_test largest now tt <$> buf) ∧
  charges (after_loss_test largest now tt <$> buf) = charges buf.
Proof.
  intros [H1 H2 H3].
  assert (E : ∀ p, pd_offset (after_loss_test largest now tt p) = pd_offset p ∧
                   charge_of (after_loss_test largest now tt p) = charge_of p ∧
                   (pending_ok p -> pending_ok (after_loss_test largest now tt p))).
  { intros p. unfold after_loss_test. case_match; [|done]. split; [done|]. split; [done|].
    intros []. by split. }
  split; [split|].
  - rewrite <- list_fmap_compose. erewrite list_fmap_ext; [exact H1|]. intros; apply E.
  - apply Forall_fmap. eapply Forall_impl; [exact H2|]. intros p Hp. simpl. by destruct (E p) as [-> _].
  - apply Forall_fmap. eapply Forall_impl; [exact H3|]. intros p Hp. by apply E.
  - unfold charges. rewrite <- list_fmap_compose. f_equal. apply list_fmap_ext. intros; apply E.
Qed.

Lemma filter_split_length {A} (f : A -> bool) l :
  len (filter (λ x, f x = false) l) + len (filter (λ x, f x = true) l) = len l.
Proof.
  unfold len. induction l as [|x l IH]; [done|]. rewrite !filter_cons.
  destruct (f x); repeat case_decide; simpl; (done || lia).
Qed.

Lemma on_sack_wf s now sack r s' : wf_send s -> on_sack s now sack = (r, s') -> wf_send s'.
Proof.
  intros [Hb Ho Hp Hl Hlim Ha]. unfold on_sack.
  destruct (retire_covered _ _ _ _) as [[kept ret] s1] eqn:E.
  apply retire_covered_spec in E as (-> & -> & Hf & Hm & Hbd).
  specialize (Hbd (reliable_offset s) ltac:(lia) (bo_range _ _ Hb)).
  rewrite detect_loss_spec. intros [= <- <-]. rewrite Hf in *. simpl_send.
  pose proof (sublist_filter (λ p, acks sack (pd_offset p) = false) (send_buffer s)) as Hsub.
  set (kept := filter _ _) in *.
  destruct (after_loss_test_buf_ok (reliable_offset s) (Z.min (largest_acked sack) (reliable_offset s)) now
    ((λ r, Z.max (millis 1) (r * 9 / 8)) <$> srtt (rto_est s1)) kept) as [Hk Hc].
  { by eapply buf_ok_sublist. }
  split; simpl_send; try done.
  - assert (El : len (retired_of <$> filter (λ p, acks sack (pd_offset p) = true) (send_buffer s))
                 = len (filter (λ p, acks sack (pd_offset p) = true) (send_buffer s)))
      by (unfold len; by rewrite length_fmap).
    pose proof (filter_split_length (λ p, acks sack (pd_offset p)) (send_buffer s)) as Hsum.
    rewrite El. unfold kept, len in *. rewrite length_fmap. lia.
  - rewrite Hc. pose proof (charges_sublist _ _ Hsub). lia.
  - simpl in *. lia.
Qed.

Lemma ack_wf s now off r s' : wf_send s -> ack s now off = (r, s') -> wf_send s'.
Proof.
  intros Hwf. unfold ack. destruct (remove_first _ _) as [[p b]|] eqn:E; [|by intros [= <- <-]].
  apply remove_first_Some in E as (l1 & l2 & El & -> & Hp & _). apply Z.eqb_eq in Hp.
  set (s2 := set_permits _ _).
  assert (Hw : wf_send s2).
  { unfold s2, note_acked_offset. destruct Hwf as [Hb Ho Hpm Hl Hlim Ha]. rewrite El in *.
    assert (Hsub : l1 ++ l2 `sublist_of` l1 ++ p :: l2) by (apply sublist_app; [done|by apply sublist_cons]).
    apply buf_ok_elem in Hb as Hpo. split; simpl_send; try done.
    - by eapply buf_ok_sublist.
    - rewrite len_app in *. unfold len in *. simpl in *. lia.
    - pose proof (charges_sublist _ _ Hsub). lia.
    - unfold sat_add. destruct Hpo. lia. }
  destruct (pd_sent_at p); [|by intros [= <- <-]].
  case_test; intros [= <- <-]; [by apply wf_send_rto|done].
Qed.

Lemma unsend_ok off p p' d :
  unsend off p = Some (p', d) -> pending_ok p ->
  pd_offset p = off ∧ pd_offset p' = pd_offset p ∧ pd_data p' = pd_data p ∧ pd_sent_at p' = None ∧
  pending_ok p' ∧ charge_of p' = charge_of p - d ∧ 0 <= d <= charge_of p.
Proof.
  unfold unsend. destruct (Z.eqb_spec (pd_offset p) off) as [->|]; [|done]. intros [= <- <-] [H1 H2 H3 H4 H5].
  pose proof (len_nonneg (pd_data p)).
  split; [done|]. split; [done|]. split; [done|]. split; [done|]. unfold charge_of. cbn.
  destruct (pd_charged p) eqn:Ec; cbn [andb].
  - destruct (Z.eqb_spec (pd_retries p) 0).
    + split; [|lia]. split; cbn; auto; first [by intros [] | naive_solver].
    + split; [|lia]. split; cbn; auto.
  - split; [|lia]. split; cbn; auto. by intros [].
Qed.

Lemma mark_unsent_wf s off : wf_send s -> wf_send (mark_unsent s off).
Proof.
  intros Hwf. unfold mark_unsent. destruct (update_first _ _) as [[b d]|] eqn:E; [|done].
  apply update_first_Some in E as (l1 & x & x' & l2 & El & -> & Hf & _).
  pose proof Hwf as [Hb _ _ Hl _ _]. rewrite El in Hb, Hl. apply buf_ok_elem in Hb as Hx.
  apply unsend_ok in Hf as (_ & Ho & _ & _ & Hp & Hc & Hd); [|apply Hx].
  assert (charge_of x <= charges (l1 ++ x :: l2)).
  { transitivity (charges [x]); [unfold charges; simpl; lia|].
    apply charges_sublist, sublist_inserts_l, sublist_skip, sublist_nil_l. }
  unfold sat_sub. rewrite Z.max_r by lia.
  change (set_bytes_sent (set_buffer s (l1 ++ x' :: l2)) (bytes_sent s - d))
    with (set_buffer (set_bytes_sent s (bytes_sent s + - d)) (l1 ++ x' :: l2)).
  eapply wf_send_replace; [done|done|done|done|lia|lia].
Qed.

Lemma apply_limit_wf s limit : wf_send s -> wf_send (apply_peer_window_limit s limit).
Proof.
  intros [Hb Ho Hp Hl Hlim Ha]. split; unfold apply_peer_window_limit; simpl_send; try done.
  - lia.
  - unfold sat_add. lia.
Qed.

(** ** Runs of the sending half *)

Inductive send_event :=
| EvSend (data : list Z)
| EvTrySend (data : list Z)
| EvFin
| EvTryFin
| EvUnreliable (data : list Z)
| EvPoll (now cwnd delivered delivered_time : Z) (app_limited : bool)
| EvAck (now offset : Z)
| EvSack (now : Z) (sack : Sack)
| EvUnsent (offset : Z)
| EvLimit (limit : Z)
| EvResetRto.

(** The state after an event; a call that waits or fails leaves it alone. *)
Definition send_step (s : SendHalf) (ev : send_event) : SendHalf :=
  match ev with
  | EvSend data => match send_reliable s data with Some (Ok (_, s')) => s' | _ => s end
  | EvTrySend data => match try_send_reliable s data with Ok (_, s') => s' | Err _ => s end
  | EvFin => match queue_fin s with Some (Ok s') => s' | _ => s end
  | EvTryFin => match try_queue_fin s with Ok (_, s') => s' | Err _ => s end
  | EvUnreliable data => send_unreliable s data
  | EvPoll now cwnd dn dt al => (poll_send s now cwnd dn dt al).2
  | EvAck now off => (ack s now off).2
  | EvSack now sack => (on_sack s now sack).2
  | EvUnsent off => mark_unsent s off
  | EvLimit limit => apply_peer_window_limit s limit
  | EvResetRto => reset_rto s
  end.

Definition event_ok (ev : send_event) : Prop :=
  match ev with EvSend data | EvTrySend data => len data < 2 ^ 32 | _ => True end.

Lemma wf_send_finished s b : wf_send s -> wf_send (set_local_finished s b).
Proof. by intros []. Qed.

Lemma send_step_wf s ev : event_ok ev -> wf_send s -> wf_send (send_step s ev).
Proof.
  intros Hok Hwf.
  destruct ev; cbn [send_step event_ok] in *.
  - unfold send_reliable. case_test; [done|].
    destruct (push_segment s data false) as [[o s']|] eqn:E; [|done]. by eapply push_segment_wf in E as [? _].
  - unfold try_send_reliable. case_test; [done|].
    destruct (push_segment s data false) as [[o s']|] eqn:E; [|done]. by eapply push_segment_wf in E as [? _].
  - unfold queue_fin. case_test; [done|].
    destruct (push_segment s [] true) as [[o s']|] eqn:E; [|done].
    apply wf_send_finished. by eapply push_segment_wf in E as [? _].
  - unfold try_queue_fin. case_test; [done|].
    destruct (push_segment s [] true) as [[o s']|] eqn:E; [|done].
    apply wf_send_finished. by eapply push_segment_wf in E as [? _].
  - by destruct Hwf.
  - destruct (poll_send _ _ _ _ _ _) eqn:E. by eapply poll_send_wf.
  - destruct (ack _ _ _) eqn:E. by eapply ack_wf.
  - destruct (on_sack _ _ _) eqn:E. by eapply on_sack_wf.
  - by apply mark_unsent_wf.
  - by apply apply_limit_wf.
  - by apply wf_send_rto.
Qed.

Lemma send_run_wf evs s : Forall event_ok evs -> wf_send s -> wf_send (foldl send_step s evs).
Proof.
  intros HF. revert s. induction HF as [|ev evs Hev _ IH]; intros s Hs; simpl; [done|].
  apply IH. by apply send_step_wf.
Qed.

(** ** What a poll may answer *)

Definition flagged (p : PendingData) : Prop := is_Some (pd_lost p) ∧ is_Some (pd_sent_at p).
Definition overdue (s : SendHalf) (now : Z) (p : PendingData) : Prop :=
  ∃ t, pd_sent_at p = Some t ∧ current_rto s <= since now t.
Definition unsent (p : PendingData) : Prop := pd_sent_at p = None.
Definition window_refuses (s : SendHalf) (p : PendingData) : Prop :=
  pd_fin p = false ∧ pd_charged p = false ∧
  (peer_send_limit s < bytes_sent s + len (pd_data p) ∨ u_max 64 < bytes_sent s + len (pd_data p)).

Inductive poll_answer (s : SendHalf) (now cwnd : Z) : result OutboundSegment SendBlocked -> SendHalf -> Prop :=
| answer_unreliable d rest :
    unreliable_buffer s = d :: rest ->
    poll_answer s now cwnd (Ok (mk_outbound 0 d false false false None false)) (set_unreliable s rest)
| answer_fast_retransmit l1 x l2 cause :
    unreliable_buffer s = [] -> send_buffer s = l1 ++ x :: l2 ->
    pd_lost x = Some cause -> is_Some (pd_sent_at x) -> Forall (λ p, ~ flagged p) l1 ->
    poll_answer s now cwnd (Ok (resend x cause)) (set_buffer s (l1 ++ restamp x now None :: l2))
| answer_timeout l1 x l2 :
    unreliable_buffer s = [] -> send_buffer s = l1 ++ x :: l2 ->
    Forall (λ p, ~ flagged p) (send_buffer s) -> overdue s now x -> Forall (λ p, ~ overdue s now p) l1 ->
    poll_answer s now cwnd (Ok (resend x RtoExpired))
      (note_rto_timeout (set_buffer s (l1 ++ restamp x now (pd_lost x) :: l2)))
| answer_new l1 x x' l2 :
    unreliable_buffer s = [] -> send_buffer s = l1 ++ x :: l2 ->
    Forall (λ p, ~ flagged p ∧ ~ overdue s now p) (send_buffer s) ->
    Forall (λ p, ~ unsent p) l1 -> unsent x -> len (pd_data x) <= cwnd ->
    pd_sent_at x' = Some now -> seg_of x' = seg_of x ->
    bytes_sent s - charge_of x + charge_of x' <= peer_send_limit s ->
    poll_answer s now cwnd
      (Ok (mk_outbound (pd_offset x) (pd_data x) true false false None (pd_fin x)))
      (set_buffer (set_bytes_sent s (bytes_sent s - charge_of x + charge_of x')) (l1 ++ x' :: l2))
| answer_cwnd l1 x l2 :
    unreliable_buffer s = [] -> send_buffer s = l1 ++ x :: l2 ->
    Forall (λ p, ~ flagged p ∧ ~ overdue s now p) (send_buffer s) ->
    Forall (λ p, ~ unsent p) l1 -> unsent x -> cwnd < len (pd_data x) ->
    poll_answer s now cwnd (Err CongestionWindow) s
| answer_probe x off :
    unreliable_buffer s = [] -> Forall unsent (send_buffer s) ->
    head (send_buffer s) = Some x -> window_refuses s x ->
    last_acked_offset s = Some off ->
    poll_answer s now cwnd (Ok (mk_outbound off [] true false false None false)) (set_probe_at s (Some now))
| answer_window l1 x l2 :
    unreliable_buffer s = [] -> send_buffer s = l1 ++ x :: l2 ->
    Forall (λ p, ~ flagged p ∧ ~ overdue s now p) (send_buffer s) ->
    Forall (λ p, ~ unsent p) l1 -> unsent x -> window_refuses s x ->
    poll_answer s now cwnd (Err FlowControl) s
| answer_idle :
    unreliable_buffer s = [] ->
    Forall (λ p, ~ flagged p ∧ ~ overdue s now p ∧ ~ unsent p) (send_buffer s) ->
    poll_answer s now cwnd (Err Idle) s.

Lemma fast_retransmit_None now p : fast_retransmit now p = None <-> ~ flagged p.
Proof.
  unfold fast_retransmit, flagged.
  destruct (pd_lost p), (pd_sent_at p); split; try done; try (by intros _ [[? ?] [? ?]]).
  intros H. destruct H. eauto.
Qed.

Lemma timeout_retransmit_None s now p :
  timeout_retransmit now (current_rto s) p = None <-> ~ overdue s now p.
Proof.
  unfold timeout_retransmit, overdue. destruct (pd_sent_at p) as [t|]; [|split; [by intros _ (? & ? & _)|done]].
  destruct (Z.leb_spec (current_rto s) (since now t)); split; try done.
  - intros H'. exfalso. eauto.
  - intros _ (t' & [= <-] & ?). lia.
Qed.

Lemma offer_unsent_None s now cwnd dn dt al p :
  offer_unsent s now cwnd dn dt al p = None <-> ~ unsent p.
Proof.
  unfold offer_unsent, unsent. destruct (pd_sent_at p); [done|]. split; [|done].
  repeat case_match; done.
Qed.

Lemma Forall_iff' {A} (P Q : A -> Prop) l : (∀ x, P x <-> Q x) -> Forall P l -> Forall Q l.
Proof. intros H HF. eapply Forall_impl; [exact HF|]. intros x. apply H. Qed.

Lemma no_in_flight_unsent l : existsb in_flight l = false -> Forall unsent l.
Proof.
  induction l as [|p l IH]; simpl; [constructor|]. intros [Hp Hl]%orb_false_iff. constructor; [|auto].
  unfold in_flight, unsent in *. by destruct (pd_sent_at p).
Qed.

Lemma poll_blocked_by_window s now cwnd l1 x l2 :
  unreliable_buffer s = [] -> send_buffer s = l1 ++ x :: l2 ->
  Forall (λ p, ~ flagged p ∧ ~ overdue s now p) (send_buffer s) ->
  Forall (λ p, ~ unsent p) l1 -> unsent x -> window_refuses s x ->
  poll_answer s now cwnd
    (match try_persist_probe s now (existsb in_flight (send_buffer s)) with
     | (Some probe, _) => Ok probe | (None, _) => Err FlowControl end)
    (try_persist_probe s now (existsb in_flight (send_buffer s))).2.
Proof.
  intros Hu El HF H1 Hx Hw. unfold try_persist_probe.
  destruct (existsb in_flight (send_buffer s)) eqn:Ei; [by eapply answer_window|].
  apply no_in_flight_unsent in Ei.
  assert (l1 = []) as ->.
  { destruct l1 as [|y l1]; [done|]. rewrite El in Ei. apply Forall_cons in Ei as [Hy _].
    apply Forall_cons in H1 as [Hy' _]. done. }
  destruct (last_acked_offset s) as [off|] eqn:Ea; [|by eapply answer_window].
  destruct (match persist_probe_at s with Some _ => _ | None => _ end); [by eapply answer_window|].
  eapply answer_probe; [done|done| |done|done]. by rewrite El.
Qed.

Lemma poll_send_answer s now cwnd dn dt al :
  wf_send s ->
  poll_answer s now cwnd (poll_send s now cwnd dn dt al).1 (poll_send s now cwnd dn dt al).2.
Proof.
  intros Hwf. unfold poll_send.
  destruct (unreliable_buffer s) as [|d rest] eqn:Eu; [|by apply answer_unreliable].
  destruct (update_first (fast_retransmit now) _) as [[b seg]|] eqn:E0.
  { apply update_first_Some in E0 as (l1 & x & x' & l2 & El & -> & Hf & HF).
    apply fast_retransmit_Some in Hf as (c & Hl & Hs & -> & ->). eapply answer_fast_retransmit; try done.
    eapply Forall_iff'; [|exact HF]. intros; apply fast_retransmit_None. }
  apply update_first_None in E0. eapply Forall_iff' in E0; [|intros; apply fast_retransmit_None].
  destruct (update_first (timeout_retransmit _ _) _) as [[b seg]|] eqn:E1.
  { apply update_first_Some in E1 as (l1 & x & x' & l2 & El & -> & Hf & HF).
    apply timeout_retransmit_Some in Hf as (t & Hs & Ht & -> & ->).
    eapply answer_timeout; try done; [by exists t|].
    eapply Forall_iff'; [|exact HF]. intros; apply timeout_retransmit_None. }
  apply update_first_None in E1. eapply Forall_iff' in E1; [|intros; apply timeout_retransmit_None].
  assert (HF : Forall (λ p, ~ flagged p ∧ ~ overdue s now p) (send_buffer s)) by (by apply Forall_and).
  destruct (update_first (offer_unsent _ _ _ _ _ _) _) as [[b [r1 s1]]|] eqn:E2.
  2: { apply answer_idle; [done|]. apply update_first_None in E2.
       eapply Forall_iff' in E2; [|intros; apply offer_unsent_None].
       pose proof (conj HF E2) as H%Forall_and. eapply Forall_iff'; [|exact H]. simpl. tauto. }
  apply update_first_Some in E2 as (l1 & x & x' & l2 & El & -> & Hf & H1).
  eapply Forall_iff' in H1; [|intros; apply offer_unsent_None].
  pose proof (ws_buffer _ Hwf) as Hb. rewrite El in Hb. apply buf_ok_elem in Hb as [Hpx _].
  apply offer_unsent_ok in Hf as [Hx Hf]; [|done]. destruct r1 as [seg|[| |]]; simpl.
  - destruct Hf as (Hc & Ho & _ & Hs & -> & d & Hd & Hch & -> & Hle).
    replace (bytes_sent s + d) with (bytes_sent s - charge_of x + charge_of x') in * by lia.
    eapply answer_new; try done. apply Hle. destruct Hwf as [_ _ _ ? _ _]. lia.
  - done.
  - destruct Hf as (_ & -> & ?). by eapply answer_cwnd.
  - destruct Hf as (_ & -> & Hw).
    pose proof (poll_blocked_by_window s now cwnd l1 x l2 Eu El HF H1 Hx Hw) as Hp.
    by destruct (try_persist_probe s now _) as [[probe|] s2].
Qed.

(** ** Properties *)

(** C38: Whatever sequence of sends, FINs, polls, acknowledgements (single or
    selective), refused writes and window updates a stream goes through: the
    buffered offsets stay distinct and below the next offset, every occupied slot
    is matched by a semaphore permit (at most 1024), the bytes charged to segments
    still buffered never exceed the sent total, and the sent total never exceeds
    the peer's limit. *)
Theorem send_invariant (evs : list send_event) :
  Forall event_ok evs -> wf_send (foldl send_step send_new evs).
Proof. intros HF. apply send_run_wf; [done|apply send_new_wf]. Qed.

Lemma send_invariant_witness :
  wf_send (foldl send_step send_new
    [EvSend [1; 2]; EvFin; EvPoll 10 100 0 0 false; EvUnsent 0; EvPoll 20 100 0 0 false;
     EvSack 30 (mk_sack 1 0 [(0, 1)]); EvLimit 500000]).
Proof. apply send_invariant. repeat constructor; vm_compute; congruence. Defined.

(** The complete answer of [poll_send]: queued unreliable data first; then the
    first segment flagged lost, and only when none is flagged the first one past
    its timeout, both regardless of the congestion budget and of the window; only
    then the first unsent segment in order, if it fits the budget and the peer's
    window (otherwise the pass stops there and says which of the two refused, and
    with nothing in flight an empty probe may go out); idle only when every
    buffered segment is in flight and none is due. *)
Theorem poll_send_answers (s : SendHalf) (now cwnd dn dt : Z) (al : bool) :
  wf_send s ->
  poll_answer s now cwnd (poll_send s now cwnd dn dt al).1 (poll_send s now cwnd dn dt al).2.
Proof. apply poll_send_answer. Qed.

Lemma poll_send_answers_witness :
  poll_answer (send_step send_new (EvSend [7; 8])) 5 10
    (Ok (mk_outbound 0 [7; 8] true false false None false))
    (poll_send (send_step send_new (EvSend [7; 8])) 5 10 0 0 false).2.
Proof.
  apply (poll_send_answers (send_step send_new (EvSend [7; 8])) 5 10 0 0 false).
  apply send_step_wf; [vm_compute; congruence|apply send_new_wf].
Defined.

(** A selective acknowledgement retires exactly the buffered segments it
    covers, in buffer order, frees one permit for each, and flags as lost exactly
    the remaining in-flight unflagged segments below the (clamped) largest
    acknowledged offset that are three or more offsets behind it and never resent,
    or older than nine eighths of the smoothed round trip. *)
Theorem on_sack_exact (s : SendHalf) (now : Z) (sack : Sack) :
  let r := (on_sack s now sack).1 in
  let s' := (on_sack s now sack).2 in
  let kept := filter (λ p, acks sack (pd_offset p) = false) (send_buffer s) in
  let largest := Z.min (largest_acked sack) (reliable_offset s) in
  let time_threshold := (λ r, Z.max (millis 1) (r * 9 / 8)) <$> srtt (rto_est s') in
  retired r = retired_of <$> filter (λ p, acks sack (pd_offset p) = true) (send_buffer s) ∧
  send_buffer s' = after_loss_test largest now time_threshold <$> kept ∧
  permits s' = permits s + len (retired r) ∧
  lost_offsets r
    = pd_offset <$> filter (λ p, is_Some (loss_cause_of largest now time_threshold p)) kept ∧
  bytes_sent s' = bytes_sent s ∧ reliable_offset s' = reliable_offset s.
Proof.
  unfold on_sack. destruct (retire_covered _ _ _ _) as [[kept ret] s1] eqn:E.
  apply retire_covered_spec in E as (-> & -> & Hf & _).
  rewrite Hf. simpl_send. rewrite detect_loss_spec. cbn zeta. simpl_send. unfold lost_offsets.
  cbn [fst snd retired lost]. rewrite <- list_fmap_compose. simpl_send. done.
Qed.

(** A segment whose copy is already out is never flagged again by the packet
    threshold: only the time since that copy left can declare it lost once more. *)
Theorem packet_threshold_is_one_shot (largest now : Z) (tt : option Z) (p : PendingData) (c : LossCause) :
  pd_retries p <> 0 -> loss_cause_of largest now tt p = Some c ->
  c = TimeThreshold ∧ ∃ d t, tt = Some d ∧ pd_sent_at p = Some t ∧ d <= since now t.
Proof.
  intros Hr. unfold loss_cause_of. destruct (pd_lost p); [done|]. destruct (pd_sent_at p) as [t|]; [|done].
  case_test; [done|]. destruct (Z.eqb_spec (pd_retries p) 0); [done|]. cbn [andb].
  destruct tt as [d|]; [|done]. case_test; [|done]. intros [= <-]. eauto 10.
Qed.

Lemma packet_threshold_is_one_shot_witness :
  TimeThreshold = TimeThreshold ∧ ∃ d t, Some 5 = Some d ∧ Some 1 = Some t ∧ d <= since 9 t.
Proof.
  apply (packet_threshold_is_one_shot 10 9 (Some 5)
    (mk_pending 2 [1] (Some 1) 0 None false 1 None false true)); [done|].
  vm_compute. reflexivity.
Defined.

(** When the 32-bit offset space is used up every way of queueing a segment
    fails and leaves the state as it was: no offset is reused, no permit leaks and
    the local side is not marked finished. *)
Theorem offset_exhaustion_fails_closed (s : SendHalf) (data : list Z) :
  reliable_offset s = u_max 32 -> 0 < permits s ->
  send_reliable s data = Some (Err StreamError) ∧ try_send_reliable s data = Err StreamError ∧
  try_queue_fin s = Err StreamError ∧ queue_fin s = Some (Err StreamError).
Proof.
  intros Ho Hp. unfold send_reliable, try_send_reliable, try_queue_fin, queue_fin, push_segment,
    next_reliable_offset, checked_add. rewrite Ho.
  destruct (Z.leb_spec (permits s) 0); [lia|]. by destruct (Z.leb_spec (u_max 32 + 1) (u_max 32)); [lia|].
Qed.

Lemma offset_exhaustion_fails_closed_witness :
  try_send_reliable (set_reliable_offset send_new (2 ^ 32 - 1)) [1] = Err StreamError.
Proof.
  apply (offset_exhaustion_fails_closed (set_reliable_offset send_new (2 ^ 32 - 1)) [1]); [done|].
  vm_compute. reflexivity.
Defined.

(** Window updates are safe to lose, repeat and reorder: applying a limit twice
    or two limits in either order gives the same state, a limit never lowers the
    one in force, and one update never opens more than [MAX_SEND_WINDOW] above the
    bytes already sent. *)
Theorem window_limits_commute (s : SendHalf) (l1 l2 : Z) :
  apply_peer_window_limit (apply_peer_window_limit s l1) l1 = apply_peer_window_limit s l1 ∧
  apply_peer_window_limit (apply_peer_window_limit s l1) l2
    = apply_peer_window_limit (apply_peer_window_limit s l2) l1 ∧
  peer_send_limit s <= peer_send_limit (apply_peer_window_limit s l1)
    <= Z.max (peer_send_limit s) (bytes_sent s + MAX_SEND_WINDOW).
Proof.
  unfold apply_peer_window_limit, set_limit. simpl_send. split; [f_equal; lia|]. split; [f_equal; lia|].
  unfold sat_add. lia.
Qed.
