(* ===== verification/StreamRecv.v ===== *)
(** * The receiving half of a stream ([core/src/transport/stream.rs])

    In-order reassembly with its bounded reorder buffer, the selective
    acknowledgement built from it, end-of-stream, and the receiver's side of flow
    control with the auto-tuned window.  The fields of [Stream] that the receiving
    side owns are the record [RecvHalf]; the session's shared growth budget
    ([SharedRecvTuning]) is passed to the operations that draw on it. *)

From Stdlib Require Import ZArith Lia.
From stdpp Require Import base numbers option list sorting.
From S2P Require Import Prelude Sack Rto StreamSend.

Local Open Scope Z_scope.

Definition MAX_RECV_REORDER : Z := 2048.
Definition MAX_RECV_WINDOW : Z := MAX_SEND_WINDOW.
Definition SESSION_RECV_WINDOW_GROWTH_BUDGET : Z := 8 * 1024 * 1024.
Definition AUTOTUNE_RTT_FALLBACK : Z := MIN_RTO.
Definition AUTOTUNE_MIN_INTERVAL : Z := millis 10.

(** ** The session's growth budget *)

Definition try_take_growth (budget bytes : Z) : bool * Z :=
  if budget <? bytes then (false, budget) else (true, budget - bytes).

Definition return_growth (budget bytes : Z) : Z :=
  if bytes =? 0 then budget
  else Z.min (sat_add 32 budget bytes) SESSION_RECV_WINDOW_GROWTH_BUDGET.

(** ** State *)

Record RecvWindowProbe := mk_probe { started_at : option Z; probe_bytes : Z }.

Record RecvHalf := mk_recv {
  recv_sequence : Z;
  recv_buffer : list (Z * list (list Z));
  recv_buffer_bytes : Z;
  recv_ready : list (list Z);
  remote_finished : bool;
  remote_fin_offset : Z;
  bytes_consumed : Z;
  advertised_recv_window : Z;
  recv_window_probe : RecvWindowProbe;
  bytes_since_last_update : Z;
  pending_window_update : Z;
  last_data_recv_at : option Z;
}.

Definition recv_new : RecvHalf :=
  mk_recv 0 [] 0 [] false (u_max 32) 0 INITIAL_STREAM_WINDOW (mk_probe None 0) 0 0 None.

Definition set_reorder (r : RecvHalf) (seq : Z) (buf : list (Z * list (list Z))) (bytes : Z) : RecvHalf :=
  mk_recv seq buf bytes (recv_ready r) (remote_finished r) (remote_fin_offset r) (bytes_consumed r)
    (advertised_recv_window r) (recv_window_probe r) (bytes_since_last_update r)
    (pending_window_update r) (last_data_recv_at r).
Definition set_ready (r : RecvHalf) (q : list (list Z)) : RecvHalf :=
  mk_recv (recv_sequence r) (recv_buffer r) (recv_buffer_bytes r) q (remote_finished r)
    (remote_fin_offset r) (bytes_consumed r) (advertised_recv_window r) (recv_window_probe r)
    (bytes_since_last_update r) (pending_window_update r) (last_data_recv_at r).
Definition set_fin (r : RecvHalf) (finished : bool) (off : Z) : RecvHalf :=
  mk_recv (recv_sequence r) (recv_buffer r) (recv_buffer_bytes r) (recv_ready r) finished off
    (bytes_consumed r) (advertised_recv_window r) (recv_window_probe r)
    (bytes_since_last_update r) (pending_window_update r) (last_data_recv_at r).
Definition set_window (r : RecvHalf) (w : Z) (probe : RecvWindowProbe) : RecvHalf :=
  mk_recv (recv_sequence r) (recv_buffer r) (recv_buffer_bytes r) (recv_ready r) (remote_finished r)
    (remote_fin_offset r) (bytes_consumed r) w probe (bytes_since_last_update r)
    (pending_window_update r) (last_data_recv_at r).
Definition set_consumed (r : RecvHalf) (c since_update : Z) : RecvHalf :=
  mk_recv (recv_sequence r) (recv_buffer r) (recv_buffer_bytes r) (recv_ready r) (remote_finished r)
    (remote_fin_offset r) c (advertised_recv_window r) (recv_window_probe r) since_update
    (pending_window_update r) (last_data_recv_at r).
Definition set_pending_update (r : RecvHalf) (p : Z) : RecvHalf :=
  mk_recv (recv_sequence r) (recv_buffer r) (recv_buffer_bytes r) (recv_ready r) (remote_finished r)
    (remote_fin_offset r) (bytes_consumed r) (advertised_recv_window r) (recv_window_probe r)
    (bytes_since_last_update r) p (last_data_recv_at r).
Definition set_recv_at (r : RecvHalf) (t : option Z) : RecvHalf :=
  mk_recv (recv_sequence r) (recv_buffer r) (recv_buffer_bytes r) (recv_ready r) (remote_finished r)
    (remote_fin_offset r) (bytes_consumed r) (advertised_recv_window r) (recv_window_probe r)
    (bytes_since_last_update r) (pending_window_update r) t.

(** ** Flow control *)

Definition recv_reorder_byte_limit (r : RecvHalf) : Z :=
  advertised_recv_window r + INITIAL_STREAM_WINDOW.

(** [tune_recv_window]; [min_rtt] is the estimator's minimum. *)
Definition tune_recv_window (r : RecvHalf) (budget now : Z) (min_rtt : option Z) (n : Z)
  : bool * RecvHalf * Z :=
  let window := advertised_recv_window r in
  if MAX_RECV_WINDOW <=? window then (false, r, budget)
  else
    let rtt := default AUTOTUNE_RTT_FALLBACK min_rtt in
    let interval := Z.max (Z.min (rtt * 2) DURATION_MAX) AUTOTUNE_MIN_INTERVAL in
    let bytes := sat_add 64 (probe_bytes (recv_window_probe r)) n in
    match started_at (recv_window_probe r) with
    | None => (false, set_window r window (mk_probe (Some now) bytes), budget)
    | Some start =>
      let elapsed := since now start in
      if elapsed <? interval
      then (false, set_window r window (mk_probe (Some start) bytes), budget)
      else
        let r1 := set_window r window (mk_probe (Some now) 0) in
        let lhs := sat_mul 128 (sat_mul 128 bytes 5) interval in
        let rhs := sat_mul 128 (sat_mul 128 window 4) elapsed in
        if lhs <=? rhs then (false, r1, budget)
        else
          let next := Z.min (sat_mul 32 window 2) MAX_RECV_WINDOW in
          let growth := next - window in
          let '(taken, budget1) := try_take_growth budget growth in
          if negb taken then (false, r1, budget1)
          else if advertised_recv_window r1 =? window
          then (true, set_window r1 next (recv_window_probe r1), budget1)
          else (false, r1, return_growth budget1 growth)
    end.

Definition recv_limit (r : RecvHalf) : Z := sat_add 64 (bytes_consumed r) (advertised_recv_window r).

Definition record_app_consumed (r : RecvHalf) (budget now : Z) (min_rtt : option Z) (n : Z)
    (reliable : bool) : option Z * RecvHalf * Z :=
  if negb reliable then (None, r, budget)
  else
    let r1 := set_consumed r (wrap 64 (bytes_consumed r + n)) (bytes_since_last_update r) in
    let '(grew, r2, budget1) := tune_recv_window r1 budget now min_rtt n in
    let threshold := INITIAL_STREAM_WINDOW / 2 in
    let pending := sat_add 32 (bytes_since_last_update r2) n in
    let '(next, crossed) := if threshold <=? pending then (0, true) else (pending, false) in
    let r3 := set_consumed r2 (bytes_consumed r2) next in
    (if crossed || grew then Some (recv_limit r3) else None, r3, budget1).

Definition stage_window_update_limit (r : RecvHalf) (limit : Z) : RecvHalf :=
  set_pending_update r (Z.max (pending_window_update r) limit).

Definition take_pending_window_update (r : RecvHalf) : option Z * RecvHalf :=
  (if pending_window_update r =? 0 then None else Some (pending_window_update r),
   set_pending_update r 0).

(** [Drop for Stream]: the growth handed back to the session. *)
Definition drop_stream (r : RecvHalf) (budget : Z) : Z :=
  return_growth budget (sat_sub (advertised_recv_window r) INITIAL_STREAM_WINDOW).

(** ** End of stream *)

Definition note_remote_fin (r : RecvHalf) (offset : Z) : RecvHalf :=
  if remote_fin_offset r =? u_max 32 then set_fin r (remote_finished r) offset else r.

Definition take_in_order_fin (r : RecvHalf) : bool * RecvHalf :=
  let fin := remote_fin_offset r in
  if negb (fin =? u_max 32) && (fin <? recv_sequence r)
  then (negb (remote_finished r), set_fin r true fin)
  else (false, r).

Definition note_unordered_remote_fin (r : RecvHalf) : bool * RecvHalf :=
  (negb (remote_finished r), set_fin r true (remote_fin_offset r)).

Definition on_remote_finish (r : RecvHalf) : RecvHalf := set_fin r true (remote_fin_offset r).

(** ** Reassembly *)

Definition payload_bytes (ps : list (list Z)) : Z := sum_Z (len <$> ps).

(** The drain loop: deliver buffered segments while the next one is held. *)
Fixpoint drain (fuel : nat) (seq : Z) (buf : list (Z * list (list Z))) (bytes : Z) (out : list (list Z))
  : Z * list (Z * list (list Z)) * Z * list (list Z) :=
  match fuel with
  | O => (seq, buf, bytes, out)
  | S fuel' =>
    match remove_first (λ e, e.1 =? seq) buf with
    | Some (e, buf') =>
      drain fuel' (wrap 32 (seq + 1)) buf' (bytes - payload_bytes e.2) (out ++ e.2)
    | None => (seq, buf, bytes, out)
    end
  end.

Definition accept_in_order (r0 : RecvHalf) (now sequence : Z) (payloads : list (list Z))
  : list (list Z) * RecvHalf :=
  let r := set_recv_at r0 (Some now) in
  let expected := recv_sequence r in
  if sequence <? expected then ([], r)
  else if negb (sequence =? expected) then
    let buf := recv_buffer r in
    let already := existsb (λ e, e.1 =? sequence) buf in
    let seg_bytes := payload_bytes payloads in
    let within := recv_buffer_bytes r + seg_bytes <=? recv_reorder_byte_limit r in
    if negb already && (len buf <? MAX_RECV_REORDER) && within
    then ([], set_reorder r expected (buf ++ [(sequence, payloads)]) (recv_buffer_bytes r + seg_bytes))
    else ([], r)
  else
    let '(seq, buf, bytes, out) :=
      drain (length (recv_buffer r)) (wrap 32 (expected + 1)) (recv_buffer r) (recv_buffer_bytes r)
        payloads in
    (out, set_reorder r seq buf bytes).

Definition on_receive (r : RecvHalf) (now sequence : Z) (data : list Z) : RecvHalf :=
  let '(delivered, r1) := accept_in_order r now sequence [data] in
  match delivered with [] => r1 | _ => set_ready r1 (recv_ready r1 ++ delivered) end.

(** [recv]: [None] while it waits; [Some None] at end of stream. *)
Definition recv (r : RecvHalf) : option (option (list Z)) * RecvHalf :=
  match recv_ready r with
  | d :: q => (Some (Some d), set_ready r q)
  | [] => (if remote_finished r then Some None else None, r)
  end.

Definition try_recv (r : RecvHalf) : option (list Z) * RecvHalf :=
  match recv_ready r with d :: q => (Some d, set_ready r q) | [] => (None, r) end.

(** ** Acknowledgement *)

Definition received_sack (r : RecvHalf) (now ack_delay : Z) : option Sack :=
  let next := recv_sequence r in
  if (next =? 0) && match recv_buffer r with [] => true | _ => false end then None
  else
    let first := if 0 <? next then [(0, next - 1)] else [] in
    let islands := merge_sort Z.le ((recv_buffer r).*1) in
    let rs := reverse (foldl (λ acc s, push_range acc (s, s)) first islands) in
    let delay :=
      if negb (ack_delay =? 0) then ack_delay
      else match last_data_recv_at r with
           | Some t => let micros := since now t / 1000 in
                       if micros <=? u_max 32 then micros else u_max 32
           | None => 0
           end in
    from_inclusive_ranges rs delay.

(** ** Invariant *)

Definition buffered_bytes (buf : list (Z * list (list Z))) : Z :=
  sum_Z ((λ e, payload_bytes e.2) <$> buf).

Record wf_recv (r : RecvHalf) : Prop := {
  wr_seq : 0 <= recv_sequence r <= u_max 32;
  wr_islands : Forall (λ e, recv_sequence r < e.1 < u_max 32) (recv_buffer r);
  wr_distinct : NoDup (recv_buffer r).*1;
  wr_bytes : recv_buffer_bytes r = buffered_bytes (recv_buffer r);
  wr_byte_bound : recv_buffer_bytes r <= recv_reorder_byte_limit r;
  wr_entry_bound : len (recv_buffer r) <= MAX_RECV_REORDER;
  wr_window : INITIAL_STREAM_WINDOW <= advertised_recv_window r <= MAX_RECV_WINDOW;
  wr_acc : 0 <= bytes_since_last_update r < INITIAL_STREAM_WINDOW / 2;
}.

(** What the receiver holds: the delivered run and the buffered islands. *)
Definition held (r : RecvHalf) (s : Z) : Prop := 0 <= s < recv_sequence r ∨ s ∈ (recv_buffer r).*1.

(** The application data of the positions from [a] up to [b]. *)
Definition run_of (F : Z -> list (list Z)) (a b : Z) : list (list Z) := concat (F <$> seqZ a (b - a)).

(** Every buffered island carries what the sender put at its offset. *)
Definition carries (F : Z -> list (list Z)) (buf : list (Z * list (list Z))) : Prop :=
  Forall (λ e, e.2 = F e.1) buf.

Ltac simpl_recv :=
  cbn [recv_sequence recv_buffer recv_buffer_bytes recv_ready remote_finished remote_fin_offset
       bytes_consumed advertised_recv_window recv_window_probe bytes_since_last_update
       pending_window_update last_data_recv_at set_reorder set_ready set_fin set_window set_consumed
       set_pending_update set_recv_at].

(** ** Lemmas on runs and the drain loop *)

Lemma run_of_empty F a : run_of F a a = [].
Proof. unfold run_of. by rewrite Z.sub_diag. Qed.

Lemma run_of_app F a b c : a <= b <= c -> run_of F a b ++ run_of F b c = run_of F a c.
Proof.
  intros H. unfold run_of. replace (c - a) with ((b - a) + (c - b)) by lia.
  rewrite seqZ_app, fmap_app, concat_app by lia. by replace (a + (b - a)) with b by lia.
Qed.

Lemma run_of_one F a : run_of F a (a + 1) = F a.
Proof.
  unfold run_of. replace (a + 1 - a) with 1 by lia.
  rewrite seqZ_cons by lia. cbn. by rewrite app_nil_r.
Qed.

Lemma run_of_snoc F a b : a <= b -> run_of F a (b + 1) = run_of F a b ++ F b.
Proof. intros. rewrite <- (run_of_app F a b (b + 1)) by lia. by rewrite run_of_one. Qed.

Lemma buffered_bytes_split l1 e l2 :
  buffered_bytes (l1 ++ e :: l2) = buffered_bytes (l1 ++ l2) + payload_bytes e.2.
Proof. unfold buffered_bytes. rewrite !fmap_app, fmap_cons, !sum_Z_app, sum_Z_cons. lia. Qed.

Lemma sum_Z_fmap_nonneg {A} (f : A -> Z) l : (∀ x, 0 <= f x) -> 0 <= sum_Z (f <$> l).
Proof. intros H. apply sum_Z_nonneg, Forall_fmap, Forall_forall. intros x _. apply H. Qed.

Lemma payload_bytes_nonneg ps : 0 <= payload_bytes ps.
Proof. apply sum_Z_fmap_nonneg. intros; apply len_nonneg. Qed.

Lemma buffered_bytes_nonneg buf : 0 <= buffered_bytes buf.
Proof. apply sum_Z_fmap_nonneg. intros; apply payload_bytes_nonneg. Qed.

(** The state of the drain loop: islands at or above the next position. *)
Record drainable (seq : Z) (buf : list (Z * list (list Z))) : Prop := {
  da_seq : 0 <= seq <= u_max 32;
  da_islands : Forall (λ e, seq <= e.1 < u_max 32) buf;
  da_distinct : NoDup buf.*1;
}.

Lemma drainable_remove seq l1 e l2 :
  drainable seq (l1 ++ e :: l2) -> e.1 = seq -> drainable (seq + 1) (l1 ++ l2).
Proof.
  intros [Hs Hi Hd] He. rewrite fmap_app, fmap_cons in Hd.
  rewrite Forall_app, Forall_cons in Hi. destruct Hi as (H1 & H2 & H3).
  assert (Hd' : NoDup (l1.*1 ++ l2.*1) ∧ e.1 ∉ l1.*1 ++ l2.*1).
  { rewrite <- Permutation_middle in Hd. apply NoDup_cons in Hd. tauto. }
  destruct Hd' as [Hd1 Hd2]. split; [lia| |by rewrite fmap_app].
  apply Forall_forall. intros e' He'.
  assert (Hne : e'.1 <> e.1).
  { intros E. apply Hd2. rewrite <- E, <- fmap_app. by apply list_elem_of_fmap_2. }
  assert (Hb : seq <= e'.1 < u_max 32).
  { rewrite Forall_forall in H1, H3. apply elem_of_app in He' as [?|?]; auto. }
  lia.
Qed.

(** The drain loop delivers the maximal contiguous run that the buffer holds. *)
Record drained (F : Z -> list (list Z)) (seq : Z) (buf : list (Z * list (list Z))) (bytes : Z)
    (out : list (list Z)) (seq' : Z) (buf' : list (Z * list (list Z))) (bytes' : Z)
    (out' : list (list Z)) : Prop := {
  dr_seq : seq <= seq' <= u_max 32;
  dr_islands : Forall (λ e, seq' < e.1 < u_max 32) buf';
  dr_sub : buf' `sublist_of` buf;
  dr_bytes : bytes' - buffered_bytes buf' = bytes - buffered_bytes buf;
  dr_out : carries F buf -> out' = out ++ run_of F seq seq';
  dr_held : ∀ s, s ∈ buf.*1 -> s ∈ buf'.*1 ∨ s < seq';
  dr_only : ∀ s, seq <= s < seq' -> s ∈ buf.*1;
}.

Lemma drain_spec F fuel seq buf bytes out :
  (length buf <= fuel)%nat -> drainable seq buf ->
  match drain fuel seq buf bytes out with
  | (seq', buf', bytes', out') => drained F seq buf bytes out seq' buf' bytes' out'
  end.
Proof.
  revert seq buf bytes out. induction fuel as [|fuel IH]; intros seq buf bytes out Hf Hd; cbn [drain].
  { destruct buf; [|simpl in Hf; lia]. destruct Hd. split; try done; try lia.
    - intros _. by rewrite run_of_empty, app_nil_r.
    - auto. }
  destruct (remove_first _ buf) as [[e buf1]|] eqn:E.
  - apply remove_first_Some in E as (l1 & l2 & -> & -> & He & _). apply Z.eqb_eq in He.
    assert (Hlt : seq < u_max 32).
    { destruct Hd as [_ Hi _]. rewrite Forall_app, Forall_cons in Hi. lia. }
    rewrite wrap_small by (destruct Hd as [? _ _]; unfold in_u, u_max in *; lia).
    assert (Hd1 : drainable (seq + 1) (l1 ++ l2)) by (by eapply drainable_remove).
    specialize (IH (seq + 1) (l1 ++ l2) (bytes - payload_bytes e.2) (out ++ e.2)).
    destruct (drain fuel _ _ _ _) as [[[seq' buf'] bytes'] out'].
    destruct IH as [H1 H2 H3 H4 H5 H6 H7]; [rewrite length_app in *; simpl in Hf; lia|done|].
    assert (Hsub : l1 ++ l2 `sublist_of` l1 ++ e :: l2) by (apply sublist_app; [done|by apply sublist_cons]).
    split; try done; try lia.
    + by etrans.
    + rewrite buffered_bytes_split. lia.
    + intros Hc. unfold carries in *. rewrite Forall_app, Forall_cons in Hc.
      rewrite H5 by (apply Forall_app; tauto). destruct Hc as (_ & -> & _).
      rewrite <- (run_of_app F seq (seq + 1) seq'), run_of_one, He, (assoc_L (++)) by lia. done.
    + intros x. rewrite fmap_app, fmap_cons, elem_of_app, elem_of_cons. intros Hx.
      destruct (decide (x = e.1)) as [->|]; [right; lia|].
      apply H6. rewrite fmap_app, elem_of_app. naive_solver.
    + intros x Hx. rewrite fmap_app, fmap_cons, elem_of_app, elem_of_cons.
      destruct (decide (x = seq)) as [->|]; [by right; left|].
      specialize (H7 x ltac:(lia)). rewrite fmap_app, elem_of_app in H7. naive_solver.
  - apply remove_first_None in E. destruct Hd as [Hs Hi Hn]. split; try done; try lia.
    + pose proof (conj Hi E) as H%Forall_and. eapply Forall_impl; [exact H|]. intros x [? ?%Z.eqb_neq]. lia.
    + intros _. by rewrite run_of_empty, app_nil_r.
    + auto.
Qed.

(** ** One arrival *)

Record arrival (F : Z -> list (list Z)) (r : RecvHalf) (sequence : Z) (payloads out : list (list Z))
    (r' : RecvHalf) : Prop := {
  ar_wf : wf_recv r';
  ar_seq : recv_sequence r <= recv_sequence r';
  ar_out : carries F (recv_buffer r) -> payloads = F sequence ->
           out = run_of F (recv_sequence r) (recv_sequence r') ∧ carries F (recv_buffer r');
  ar_keeps : ∀ s, held r s -> held r' s;
  ar_only : ∀ s, held r' s -> held r s ∨ s = sequence;
  ar_frame : remote_finished r' = remote_finished r ∧ remote_fin_offset r' = remote_fin_offset r ∧
             bytes_consumed r' = bytes_consumed r ∧ advertised_recv_window r' = advertised_recv_window r;
}.

Lemma accept_future_wf r now sequence payloads :
  wf_recv r -> recv_sequence r < sequence < u_max 32 ->
  existsb (λ e, e.1 =? sequence) (recv_buffer r) = false -> len (recv_buffer r) < MAX_RECV_REORDER ->
  recv_buffer_bytes r + payload_bytes payloads <= recv_reorder_byte_limit r ->
  wf_recv (set_reorder (set_recv_at r now) (recv_sequence r) (recv_buffer r ++ [(sequence, payloads)])
             (recv_buffer_bytes r + payload_bytes payloads)).
Proof.
  intros [H1 H2 H3 H4 H5 H6 H7 H8] Hs Hnot Hlen Hbytes. split; simpl_recv; try done.
  - apply Forall_app. split; [done|]. apply Forall_singleton. done.
  - rewrite fmap_app. apply NoDup_app. split; [done|]. split; [|apply NoDup_singleton].
    intros x (e & -> & He)%list_elem_of_fmap Hx%list_elem_of_singleton. simpl in Hx.
    assert (existsb (λ e, e.1 =? sequence) (recv_buffer r) = true); [|congruence].
    apply existsb_exists. exists e. split; [by apply list_elem_of_In|by apply Z.eqb_eq].
  - rewrite H4. unfold buffered_bytes. rewrite fmap_app, sum_Z_app.
    change (sum_Z ((λ e, payload_bytes e.2) <$> [(sequence, payloads)])) with (payload_bytes payloads + 0).
    lia.
  - rewrite len_app. unfold len at 2. cbn. lia.
Qed.

Lemma buffered_bytes_sublist b1 b2 : b1 `sublist_of` b2 -> buffered_bytes b1 <= buffered_bytes b2.
Proof.
  unfold buffered_bytes. induction 1 as [|e l1 l2 _ IH|e l1 l2 _ IH]; rewrite ?fmap_cons, ?sum_Z_cons; [done|lia|].
  pose proof (payload_bytes_nonneg e.2). lia.
Qed.

(** The next expected segment arrives: it and the run behind it are delivered. *)
Lemma accept_next_spec F r now payloads :
  wf_recv r -> 0 <= recv_sequence r < u_max 32 ->
  let '(seq, buf, bytes, out) :=
    drain (length (recv_buffer r)) (wrap 32 (recv_sequence r + 1)) (recv_buffer r) (recv_buffer_bytes r)
      payloads in
  arrival F r (recv_sequence r) payloads out (set_reorder (set_recv_at r now) seq buf bytes).
Proof.
  intros Hwf Hs. pose proof Hwf as [H1 H2 H3 H4 H5 H6 H7 H8].
  pose proof (drain_spec F (length (recv_buffer r)) (recv_sequence r + 1) (recv_buffer r)
    (recv_buffer_bytes r) payloads) as Hdr.
  rewrite wrap_small by (unfold in_u, u_max in *; lia).
  destruct (drain _ _ _ _ _) as [[[seq' buf'] bytes'] out'].
  destruct Hdr as [D1 D2 D3 D4 D5 D6 D7]; [done| |].
  { split; [lia| |done]. eapply Forall_impl; [exact H2|]. simpl. lia. }
  cbn [fst snd]. split; simpl_recv; try done; [|lia| | |].
  - pose proof (sublist_length _ _ D3). pose proof (buffered_bytes_nonneg buf').
    pose proof (buffered_bytes_sublist _ _ D3).
    split; simpl_recv; try done; try lia.
    + eapply sublist_NoDup; [exact H3|]. by apply (fmap_sublist fst).
    + unfold recv_reorder_byte_limit in *. simpl_recv. lia.
    + unfold len in *. lia.
  - intros Hc ->. split.
    + rewrite D5 by done. rewrite <- (run_of_app F (recv_sequence r) (recv_sequence r + 1) seq') by lia.
      by rewrite run_of_one.
    + unfold carries in *. rewrite Forall_forall in *. intros e He. apply Hc. by apply (sublist_subseteq _ _ D3).
  - intros s [?|Hin]; unfold held; simpl_recv; [left; lia|].
    rewrite Forall_forall in H2. destruct (D6 s Hin) as [?|?]; [by right|left].
    apply list_elem_of_fmap in Hin as (e & -> & He). specialize (H2 e He). simpl in H2. lia.
  - intros s [Hlt|Hin]; unfold held in *.
    + cbn in Hlt. destruct (decide (s < recv_sequence r)); [left; left; lia|].
      destruct (decide (s = recv_sequence r)); [by right|]. left. right. apply D7. lia.
    + left. right. cbn in Hin. apply list_elem_of_fmap in Hin as (e & -> & He).
      apply list_elem_of_fmap_2. by apply (sublist_subseteq _ _ D3).
Qed.

Lemma accept_in_order_spec F r now sequence payloads :
  wf_recv r -> 0 <= sequence < u_max 32 ->
  arrival F r sequence payloads (accept_in_order r now sequence payloads).1
    (accept_in_order r now sequence payloads).2.
Proof.
  intros Hwf Hs. pose proof Hwf as [H1 H2 H3 H4 H5 H6 H7 H8]. unfold accept_in_order. simpl_recv.
  destruct (Z.ltb_spec sequence (recv_sequence r)) as [Hlt|Hge].
  { split; simpl; try done; auto. intros ? _. by rewrite run_of_empty. }
  destruct (Z.eqb_spec sequence (recv_sequence r)) as [->|Hne]; cbn [negb].
  - pose proof (accept_next_spec F r (Some now) payloads Hwf Hs) as Ha.
    by destruct (drain _ _ _ _ _) as [[[seq' buf'] bytes'] out'].
  - destruct (negb _ && _ && _) eqn:Eg; cbn [fst snd].
    + apply andb_true_iff in Eg as [[Ea%negb_true_iff Eb%Z.ltb_lt]%andb_true_iff Ec%Z.leb_le].
      split; simpl_recv; try done.
      * apply accept_future_wf; (done || lia).
      * intros Hc ->. rewrite run_of_empty. split; [done|]. apply Forall_app.
        split; [done|by apply Forall_singleton].
      * intros s [?|?]; [by left|right]. simpl_recv. rewrite fmap_app. apply elem_of_app. by left.
      * intros s [?|Hin]; [left; by left|]. simpl_recv. cbn in Hin. rewrite fmap_app in Hin.
        apply elem_of_app in Hin as [?|Hin]; [left; by right|]. apply list_elem_of_singleton in Hin. by right.
    + split; simpl_recv; try done; auto. intros ? _. by rewrite run_of_empty.
Qed.

(** ** Window growth *)

Lemma tune_spec r budget now mrtt n grew r' budget' :
  INITIAL_STREAM_WINDOW <= advertised_recv_window r <= MAX_RECV_WINDOW ->
  tune_recv_window r budget now mrtt n = (grew, r', budget') ->
  r' = set_window r (advertised_recv_window r') (recv_window_probe r') ∧
  advertised_recv_window r <= advertised_recv_window r' <= MAX_RECV_WINDOW ∧
  (grew = true <-> advertised_recv_window r < advertised_recv_window r') ∧
  budget' = budget - (advertised_recv_window r' - advertised_recv_window r) ∧
  (0 <= budget -> 0 <= budget').
Proof.
  intros Hw. unfold tune_recv_window, try_take_growth.
  assert (Hid : ∀ probe, set_window r (advertised_recv_window r) probe
    = set_window r (advertised_recv_window (set_window r (advertised_recv_window r) probe)) probe) by done.
  assert (Hr : r = set_window r (advertised_recv_window r) (recv_window_probe r)) by (by destruct r).
  destruct (Z.leb_spec MAX_RECV_WINDOW (advertised_recv_window r));
    [intros [= <- <- <-]; repeat split; (done || lia)|].
  destruct (started_at _); [|intros [= <- <- <-]; simpl_recv; repeat split; (done || lia)].
  case_test; [intros [= <- <- <-]; simpl_recv; repeat split; (done || lia)|].
  case_test; [intros [= <- <- <-]; simpl_recv; repeat split; (done || lia)|].
  simpl_recv. set (next := Z.min _ _).
  assert (Hnext : advertised_recv_window r < next <= MAX_RECV_WINDOW).
  { unfold next, sat_mul, u_max, MAX_RECV_WINDOW, MAX_SEND_WINDOW, INITIAL_STREAM_WINDOW in *. lia. }
  destruct (Z.ltb_spec budget (next - advertised_recv_window r)); cbn [negb];
    [intros [= <- <- <-]; simpl_recv; repeat split; (done || lia)|].
  rewrite Z.eqb_refl. intros [= <- <- <-]. simpl_recv. repeat split; (done || lia).
Qed.

Lemma record_app_consumed_wf r budget now mrtt n rel o r' budget' :
  wf_recv r -> 0 <= n -> record_app_consumed r budget now mrtt n rel = (o, r', budget') -> wf_recv r'.
Proof.
  intros Hwf Hn. unfold record_app_consumed. destruct rel; cbn [negb]; [|by intros [= <- <- <-]].
  set (r1 := set_consumed r _ _).
  assert (Hr1 : wf_recv r1) by (by destruct Hwf).
  destruct (tune_recv_window r1 budget now mrtt n) as [[grew r2] b1] eqn:E.
  apply tune_spec in E as (Hr2 & Hw & _); [|apply Hr1].
  assert (Hr2' : wf_recv r2).
  { destruct Hr1 as [? ? ? ? Hb ? ? ?]. rewrite Hr2. split; simpl_recv; try done; [|lia].
    unfold recv_reorder_byte_limit in *. simpl_recv. lia. }
  destruct (Z.leb_spec (INITIAL_STREAM_WINDOW / 2) (sat_add 32 (bytes_since_last_update r2) n));
    intros [= <- <- <-]; destruct Hr2' as [? ? ? ? ? ? ? Ha]; split; simpl_recv; try done.
  unfold sat_add, u_max in *. lia.
Qed.

(** ** Runs of the receiving half *)

Inductive recv_event :=
| RvArrive (now sequence : Z) (payloads : list (list Z))
| RvConsume (budget now : Z) (min_rtt : option Z) (n : Z) (reliable : bool)
| RvNoteFin (offset : Z)
| RvTakeFin
| RvUnorderedFin
| RvStage (limit : Z)
| RvTakeUpdate.

(** Delivered payloads, whether end of stream was signalled, and the next state. *)
Definition recv_step (r : RecvHalf) (ev : recv_event) : list (list Z) * bool * RecvHalf :=
  match ev with
  | RvArrive now sequence payloads => let '(out, r') := accept_in_order r now sequence payloads in (out, false, r')
  | RvConsume budget now mrtt n rel => ([], false, (record_app_consumed r budget now mrtt n rel).1.2)
  | RvNoteFin off => ([], false, note_remote_fin r off)
  | RvTakeFin => let '(b, r') := take_in_order_fin r in ([], b, r')
  | RvUnorderedFin => let '(b, r') := note_unordered_remote_fin r in ([], b, r')
  | RvStage limit => ([], false, stage_window_update_limit r limit)
  | RvTakeUpdate => ([], false, (take_pending_window_update r).2)
  end.

(** The whole delivered stream, the number of end-of-stream signals, the last state. *)
Fixpoint recv_run (r : RecvHalf) (evs : list recv_event) : list (list Z) * nat * RecvHalf :=
  match evs with
  | [] => ([], 0%nat, r)
  | ev :: evs' =>
    let '(out, eof, r') := recv_step r ev in
    let '(outs, eofs, r'') := recv_run r' evs' in
    (out ++ outs, ((if eof then 1 else 0) + eofs)%nat, r'')
  end.

(** Arrivals carry what the sender put at their offset. *)
Definition genuine (F : Z -> list (list Z)) (ev : recv_event) : Prop :=
  match ev with
  | RvArrive _ sequence payloads => 0 <= sequence < u_max 32 ∧ payloads = F sequence
  | RvConsume _ _ _ n _ => 0 <= n
  | _ => True
  end.

Record stepped (F : Z -> list (list Z)) (r : RecvHalf) (out : list (list Z)) (eof : bool) (r' : RecvHalf)
  : Prop := {
  st_wf : wf_recv r';
  st_carries : carries F (recv_buffer r');
  st_out : out = run_of F (recv_sequence r) (recv_sequence r');
  st_seq : recv_sequence r <= recv_sequence r';
  st_eof : remote_finished r' = eof || remote_finished r ∧ (eof = true -> remote_finished r = false);
}.

Lemma stepped_idle F r r' eof :
  wf_recv r' -> carries F (recv_buffer r') -> recv_sequence r' = recv_sequence r ->
  remote_finished r' = eof || remote_finished r -> (eof = true -> remote_finished r = false) ->
  stepped F r [] eof r'.
Proof. intros. split; try done; [rewrite H1; by rewrite run_of_empty|lia]. Qed.

Lemma wf_recv_fin r b off : wf_recv r -> wf_recv (set_fin r b off).
Proof. by intros []. Qed.

Lemma record_app_consumed_frame r budget now mrtt n rel o r' budget' :
  wf_recv r -> record_app_consumed r budget now mrtt n rel = (o, r', budget') ->
  recv_buffer r' = recv_buffer r ∧ recv_sequence r' = recv_sequence r ∧
  remote_finished r' = remote_finished r ∧ remote_fin_offset r' = remote_fin_offset r.
Proof.
  intros Hwf. unfold record_app_consumed. destruct rel; cbn [negb]; [|by intros [= <- <- <-]].
  destruct (tune_recv_window _ budget now mrtt n) as [[grew r2] b1] eqn:E.
  apply tune_spec in E as (Hr2 & _); [|apply Hwf].
  case_test; intros [= <- <- <-]; rewrite Hr2; done.
Qed.

Lemma recv_step_ok F r ev :
  genuine F ev -> wf_recv r -> carries F (recv_buffer r) ->
  stepped F r (recv_step r ev).1.1 (recv_step r ev).1.2 (recv_step r ev).2.
Proof.
  intros Hg Hwf Hc. destruct ev; cbn [recv_step genuine] in *.
  - destruct Hg as [Hs Hp].
    pose proof (accept_in_order_spec F r now sequence payloads Hwf Hs) as [H1 H2 H3 _ _ [H4 _]].
    destruct (accept_in_order r now sequence payloads) as [out r']. simpl in *.
    destruct (H3 Hc Hp). by split.
  - destruct (record_app_consumed _ _ _ _ _ _) as [[o r'] b'] eqn:E.
    pose proof (record_app_consumed_frame _ _ _ _ _ _ _ _ _ Hwf E) as (E1 & E2 & E3 & _).
    apply stepped_idle; cbn; rewrite ?E1, ?E3; try done. by eapply record_app_consumed_wf.
  - unfold note_remote_fin. case_test; apply stepped_idle; try done. by apply wf_recv_fin.
  - unfold take_in_order_fin. case_test; apply stepped_idle; try done; simpl_recv.
    + by apply wf_recv_fin.
    + by destruct (remote_finished r).
    + by destruct (remote_finished r).
  - apply stepped_idle; try done; cbn; [by apply wf_recv_fin| |]; by destruct (remote_finished r).
  - apply stepped_idle; try done. by destruct Hwf.
  - apply stepped_idle; try done. by destruct Hwf.
Qed.

Lemma recv_run_ok F evs r :
  Forall (genuine F) evs -> wf_recv r -> carries F (recv_buffer r) ->
  let '(outs, eofs, r') := recv_run r evs in
  wf_recv r' ∧ carries F (recv_buffer r') ∧ recv_sequence r <= recv_sequence r' ∧
  outs = run_of F (recv_sequence r) (recv_sequence r') ∧
  (eofs + (if remote_finished r then 1 else 0) = if remote_finished r' then 1 else 0)%nat.
Proof.
  intros HF. revert r. induction HF as [|ev evs Hev _ IH]; intros r Hwf Hc; cbn [recv_run].
  { rewrite run_of_empty. split_and!; (done || lia). }
  pose proof (recv_step_ok F r ev Hev Hwf Hc) as Hst.
  destruct (recv_step r ev) as [[out eof] r1]. destruct Hst as [H1 H2 H3 H4 [H5 H6]]. cbn [fst snd] in *.
  specialize (IH r1 H1 H2). destruct (recv_run r1 evs) as [[outs eofs] r2].
  destruct IH as (I1 & I2 & I3 & I4 & I5). split; [done|]. split; [done|]. split; [lia|]. split.
  - rewrite H3, I4. apply run_of_app. lia.
  - rewrite H5 in I5. destruct eof; [rewrite (H6 eq_refl) in *|]; cbn [orb] in *; lia.
Qed.

Lemma recv_new_wf : wf_recv recv_new.
Proof.
  split; [..|apply Forall_nil_2|apply NoDup_nil_2| | | | |]; vm_compute; intuition congruence.
Qed.

(** ** Arrivals that fit are kept *)

Lemma sum_Z_submseteq {A} (g : A -> Z) l1 l2 :
  (∀ x, 0 <= g x) -> l1 ⊆+ l2 -> sum_Z (g <$> l1) <= sum_Z (g <$> l2).
Proof.
  intros Hg [k ->]%submseteq_Permutation. rewrite fmap_app, sum_Z_app.
  pose proof (sum_Z_fmap_nonneg g k Hg). lia.
Qed.

(** An arrival that is not refused for capacity is held afterwards. *)
Lemma accept_held r now sequence payloads :
  wf_recv r -> 0 <= sequence < u_max 32 ->
  (recv_sequence r < sequence -> sequence ∉ (recv_buffer r).*1 ->
     len (recv_buffer r) < MAX_RECV_REORDER ∧
     recv_buffer_bytes r + payload_bytes payloads <= recv_reorder_byte_limit r) ->
  held (accept_in_order r now sequence payloads).2 sequence.
Proof.
  intros Hwf Hs Hfit. unfold accept_in_order. simpl_recv.
  destruct (Z.ltb_spec sequence (recv_sequence r)); [left; cbn; lia|].
  destruct (Z.eqb_spec sequence (recv_sequence r)) as [->|Hne]; cbn [negb].
  - pose proof (drain_spec (λ _, []) (length (recv_buffer r)) (recv_sequence r + 1) (recv_buffer r)
      (recv_buffer_bytes r) payloads) as Hdr.
    rewrite wrap_small by (unfold in_u, u_max in *; lia).
    destruct (drain _ _ _ _ _) as [[[seq' buf'] bytes'] out'].
    destruct Hdr as [D1 _ _ _ _ _ _]; [done| |left; cbn; lia].
    destruct Hwf as [? Hi Hd _ _ _ _ _]. split; [lia| |done]. eapply Forall_impl; [exact Hi|]. simpl. lia.
  - destruct (existsb _ _) eqn:Ee; cbn [negb andb].
    + right. cbn. apply existsb_exists in Ee as (e & He & <-%Z.eqb_eq).
      apply list_elem_of_fmap_2. by apply list_elem_of_In.
    + destruct Hfit as [Hl%Z.ltb_lt Hb%Z.leb_le]; [lia| |].
      * intros (e & -> & He)%list_elem_of_fmap.
        assert (existsb (λ e', e'.1 =? e.1) (recv_buffer r) = true); [|congruence].
        apply existsb_exists. exists e. split; [by apply list_elem_of_In|apply Z.eqb_refl].
      * unfold recv_reorder_byte_limit in *. simpl_recv. rewrite Hl, Hb. right. cbn.
        rewrite fmap_app. apply elem_of_app. right. by apply list_elem_of_singleton.
Qed.

(** Arrivals of the offsets [seqs], each carrying [F] of its offset. *)
Definition arrivals (F : Z -> list (list Z)) (seqs : list Z) : list recv_event :=
  (λ s, RvArrive 0 s (F s)) <$> seqs.

(** The islands of a state whose offsets all lie below [n] fit the two bounds. *)
Lemma islands_fit F r n s :
  wf_recv r -> carries F (recv_buffer r) -> (∀ x, x ∈ (recv_buffer r).*1 -> x < n) ->
  n <= MAX_RECV_REORDER ->
  sum_Z ((λ s, payload_bytes (F s)) <$> seqZ 0 n) <= recv_reorder_byte_limit r ->
  recv_sequence r < s < n -> s ∉ (recv_buffer r).*1 ->
  len (recv_buffer r) < MAX_RECV_REORDER ∧
  recv_buffer_bytes r + payload_bytes (F s) <= recv_reorder_byte_limit r.
Proof.
  intros [H1 H2 H3 H4 H5 H6 H7 H8] Hc Hlt Hn Hsum Hs Hnot.
  assert (Hsub : s :: (recv_buffer r).*1 ⊆+ seqZ 0 n).
  { apply NoDup_submseteq; [by constructor|]. intros x Hx. apply elem_of_seqZ.
    apply elem_of_cons in Hx as [->|Hx]; [lia|]. specialize (Hlt x Hx).
    apply list_elem_of_fmap in Hx as (e & -> & He). rewrite Forall_forall in H2. specialize (H2 e He). simpl in H2. lia. }
  split.
  - apply submseteq_length in Hsub. rewrite length_seqZ in Hsub. cbn [length] in Hsub.
    rewrite length_fmap in Hsub. unfold len. lia.
  - apply (sum_Z_submseteq (λ s, payload_bytes (F s))) in Hsub; [|intros; apply payload_bytes_nonneg].
    rewrite fmap_cons, sum_Z_cons in Hsub.
    assert (E : (λ s, payload_bytes (F s)) <$> (recv_buffer r).*1 = (λ e, payload_bytes e.2) <$> recv_buffer r).
    { rewrite <- list_fmap_compose. apply list_fmap_ext. intros i e He. cbn. f_equal. symmetry.
      unfold carries in Hc. rewrite Forall_forall in Hc. apply Hc. by eapply list_elem_of_lookup_2. }
    rewrite E in Hsub. unfold buffered_bytes in H4. lia.
Qed.

(** All offsets processed so far are held, as long as they fit. *)
Lemma arrivals_held F n seqs r :
  Forall (λ s, 0 <= s < n) seqs -> n <= MAX_RECV_REORDER ->
  sum_Z ((λ s, payload_bytes (F s)) <$> seqZ 0 n) <= recv_reorder_byte_limit r ->
  wf_recv r -> carries F (recv_buffer r) -> (∀ x, held r x -> x < n) ->
  let r' := (recv_run r (arrivals F seqs)).2 in
  (∀ x, held r' x -> x < n) ∧ (∀ x, held r x ∨ x ∈ seqs -> held r' x).
Proof.
  intros HF Hn. revert r. induction HF as [|s seqs Hs _ IH]; intros r Hsum Hwf Hc Hlt.
  { simpl. split; [done|]. intros x [?|Hx]; [done|]. by apply elem_of_nil in Hx. }
  assert (Hs' : 0 <= s < u_max 32) by (unfold MAX_RECV_REORDER, u_max in *; lia).
  pose proof (accept_in_order_spec F r 0 s (F s) Hwf Hs') as [A1 A2 A3 A4 A5 [_ [_ [_ A6]]]].
  destruct (A3 Hc eq_refl) as [_ Hc'].
  assert (Hh : held (accept_in_order r 0 s (F s)).2 s).
  { apply accept_held; [done|done|]. intros Hgt Hnot. eapply (islands_fit F r n); try done; [|lia].
    intros x Hx. apply Hlt. by right. }
  unfold arrivals. rewrite fmap_cons. cbn [recv_run recv_step]. fold (arrivals F seqs).
  destruct (accept_in_order r 0 s (F s)) as [out r1] eqn:E. cbn [fst snd] in *.
  assert (Hl1 : ∀ x, held r1 x -> x < n). { intros x [?| ->]%A5; [by apply Hlt|lia]. }
  destruct (IH r1) as [I1 I2]; [unfold recv_reorder_byte_limit in *; by rewrite A6|done..|].
  destruct (recv_run r1 (arrivals F seqs)) as [[outs eofs] r2]. cbn [snd] in *.
  split; [done|]. intros x [Hx|[->|Hx]%elem_of_cons]; apply I2; auto.
Qed.

(** ** The acknowledgement built from the reorder state *)

Lemma held_covered r q :
  wf_recv r ->
  let first := if 0 <? recv_sequence r then [(0, recv_sequence r - 1)] else [] in
  covered first q ∨ covered ((λ s, (s, s)) <$> (recv_buffer r).*1) q <-> held r q.
Proof.
  intros Hwf first. unfold held.
  assert (E1 : covered first q <-> 0 <= q < recv_sequence r).
  { unfold first. destruct (Z.ltb_spec 0 (recv_sequence r)).
    - rewrite covered_cons, covered_nil. lia.
    - rewrite covered_nil. destruct Hwf. lia. }
  assert (E2 : covered ((λ s, (s, s)) <$> (recv_buffer r).*1) q <-> q ∈ (recv_buffer r).*1).
  { unfold covered. rewrite Exists_fmap, Exists_exists. split.
    - intros (x & Hx & Hq). simpl in Hq. by replace q with x by lia.
    - intros Hq. exists q. split; [done|]. simpl. lia. }
  by rewrite E1, E2.
Qed.

Lemma desc_ok_ranges ub rs : ub <= u_max 32 -> desc_ok ub rs -> Forall wf_range rs.
Proof.
  revert ub. induction rs as [|[lo hi] rs IH]; intros ub Hub Hok; [constructor|].
  destruct Hok as (? & ? & Hok). constructor; [split; simpl; lia|]. apply (IH (lo - 2)); [lia|done].
Qed.

(** The ascending ranges [received_sack] hands over cover exactly what is held. *)
Lemma sack_ranges_spec r :
  wf_recv r ->
  let first := if 0 <? recv_sequence r then [(0, recv_sequence r - 1)] else [] in
  let desc := foldl (λ acc s, push_range acc (s, s)) first (merge_sort Z.le (recv_buffer r).*1) in
  Forall wf_range desc ∧ (∀ q, covered desc q <-> held r q) ∧
  (length desc <= 1 + length (recv_buffer r))%nat.
Proof.
  intros Hwf first desc. pose proof Hwf as [Hs Hi _ _ _ _ _ _].
  set (islands := merge_sort Z.le (recv_buffer r).*1).
  assert (Hp : islands ≡ₚ (recv_buffer r).*1) by apply merge_sort_Permutation.
  assert (Hr : Forall (λ s, recv_sequence r < s < u_max 32) islands).
  { rewrite Hp. by apply Forall_fmap. }
  assert (Hfirst : desc_ok (u_max 32) first ∧ (length first <= 1)%nat ∧
                   ∀ s, recv_sequence r < s -> head_lo_le first s).
  { unfold first. destruct (Z.ltb_spec 0 (recv_sequence r)); cbn [desc_ok length head_lo_le]; split_and!; (done || lia). }
  destruct Hfirst as (Hf1 & Hf2 & Hf3).
  destruct (coalesce_fold_ok ((λ s, (s, s)) <$> islands) first) as [Hd Hcov]; [| |done| |].
  - apply sorted_diag. apply StronglySorted_merge_sort; apply _.
  - apply Forall_fmap. eapply Forall_impl; [exact Hr|]. intros s Hb. cbn beta in Hb. unfold wf_range. cbn [fst snd compose]. lia.
  - apply Forall_fmap. eapply Forall_impl; [exact Hr|]. intros s Hb. cbn beta in Hb. apply Hf3. cbn [fst]. lia.
  - unfold desc. fold islands. rewrite foldl_fmap in Hd, Hcov. split_and!.
    + by eapply desc_ok_ranges.
    + intros q. pose proof (held_covered r q Hwf) as Hh. cbn zeta in Hh. fold first in Hh.
      assert (Hpq : covered ((λ s, (s, s)) <$> islands) q <-> covered ((λ s, (s, s)) <$> (recv_buffer r).*1) q)
        by (apply covered_perm; by rewrite Hp).
      rewrite Hcov, <- Hh. tauto.
    + rewrite <- (foldl_fmap push_range first islands (λ s, (s, s))).
      etrans; [apply foldl_push_length|]. rewrite length_fmap, Hp, length_fmap. lia.
Qed.

Definition sack_delay (r : RecvHalf) (now ack_delay : Z) : Z :=
  if negb (ack_delay =? 0) then ack_delay
  else match last_data_recv_at r with
       | Some t => let micros := since now t / 1000 in if micros <=? u_max 32 then micros else u_max 32
       | None => 0
       end.

Lemma sack_delay_range r now d : in_u 32 d -> in_u 32 (sack_delay r now d).
Proof.
  intros Hd. unfold sack_delay. case_test; [done|].
  destruct (last_data_recv_at r) as [t|]; [|by apply in_u_0].
  assert (0 <= since now t / 1000) by (apply Z.div_pos; unfold since, sat_sub; lia).
  case_test; unfold in_u, u_max in *; lia.
Qed.

Lemma received_sack_of (r : RecvHalf) (now ack_delay : Z) :
  wf_recv r -> in_u 32 ack_delay ->
  match received_sack r now ack_delay with
  | None => ∀ q, ~ held r q
  | Some s =>
    wf_sack s ∧ (∀ q, acks s q = true -> held r q) ∧ (∀ q, 0 <= q < recv_sequence r -> acks s q = true) ∧
    held r (largest_acked s) ∧ (∀ q, held r q -> q <= largest_acked s) ∧
    (len (recv_buffer r) < 32 -> ∀ q, held r q -> acks s q = true)
  end.
Proof.
  intros Hwf Hd. unfold received_sack. fold (sack_delay r now ack_delay).
  destruct (sack_ranges_spec r Hwf) as (HF & Hcov & Hlen).
  set (desc := foldl _ _ _) in *.
  destruct ((recv_sequence r =? 0) && _) eqn:E0.
  { apply andb_true_iff in E0 as [E0%Z.eqb_eq E1]. destruct (recv_buffer r) eqn:Eb; [|done].
    intros q [?|Hin]; [lia|]. rewrite Eb in Hin. by apply elem_of_nil in Hin. }
  assert (Hne : reverse desc <> []).
  { intros E. assert (Ed : desc = []) by (by rewrite <- (reverse_involutive desc), E).
    assert (Hno : ∀ q, ~ held r q). { intros q Hq%Hcov. rewrite Ed in Hq. by apply covered_nil in Hq. }
    destruct (recv_buffer r) as [|e buf] eqn:Eb.
    - rewrite andb_true_r in E0. apply Z.eqb_neq in E0. apply (Hno 0). left. destruct Hwf. lia.
    - apply (Hno e.1). right. rewrite Eb. apply elem_of_cons. by left. }
  destruct (from_inclusive_ranges_sack_of (reverse desc) (sack_delay r now ack_delay)) as (s & -> & Hso & _);
    [done|by rewrite reverse_Permutation|by apply sack_delay_range|].
  assert (Hc : ∀ q, covered (reverse desc) q <-> held r q).
  { intros q. rewrite <- Hcov. apply covered_perm, reverse_Permutation. }
  destruct Hso as [S1 S2 [S3 S3'] S4 S5]. split_and!; [done| | | | |].
  - intros q Hq. by apply Hc, S2.
  - intros q Hq. apply (S4 0 q); [apply Hc; left; lia| |lia|].
    + intros x Hx%Hc. destruct Hwf as [_ Hi _ _ _ _ _ _]. destruct Hx as [?|Hin]; [lia|].
      apply list_elem_of_fmap in Hin as (e & -> & He). rewrite Forall_forall in Hi. specialize (Hi e He). simpl in Hi. lia.
    + intros x Hx. apply Hc. left. lia.
  - by apply Hc.
  - intros q Hq. by apply S3', Hc.
  - intros Hlt q Hq. apply S5; [|by apply Hc]. rewrite length_reverse.
    unfold MAX_SACK_RANGES, len in *. lia.
Qed.

(** ** Properties *)

(** Reliable data reaches the application in order, once, without gaps and
    unchanged: through any sequence of arrivals (in any order, with repetitions),
    application reads, window growth and end-of-stream events, what has been
    delivered is exactly the sender's data at offsets 0, 1, ... up to the cursor;
    and end of stream is signalled at most once. *)
Theorem reassembly_in_order (F : Z -> list (list Z)) (evs : list recv_event) :
  Forall (genuine F) evs ->
  let '(outs, eofs, r) := recv_run recv_new evs in
  wf_recv r ∧ outs = run_of F 0 (recv_sequence r) ∧ (eofs <= 1)%nat.
Proof.
  intros HF. pose proof (recv_run_ok F evs recv_new HF recv_new_wf) as H.
  destruct (recv_run recv_new evs) as [[outs eofs] r].
  destruct H as (H1 & _ & _ & H2 & H3); [constructor|]. split_and!; [done|done|].
  cbn [recv_new remote_finished] in H3. destruct (remote_finished r); lia.
Qed.

Lemma reassembly_in_order_witness :
  let '(outs, eofs, r) := recv_run recv_new
    [RvArrive 1 2 [[2]]; RvArrive 2 1 [[1]]; RvNoteFin 2; RvTakeFin; RvArrive 3 0 [[0]]; RvArrive 4 1 [[1]];
     RvTakeFin; RvTakeFin] in
  wf_recv r ∧ outs = run_of (λ s, [[s]]) 0 (recv_sequence r) ∧ (eofs <= 1)%nat.
Proof.
  apply (reassembly_in_order (λ s, [[s]])).
  repeat constructor; vm_compute; congruence.
Defined.

(** Whatever the order in which they arrive and however often they are
    repeated, the segments 0 to n-1 are all delivered, in order, as long as there
    are at most [MAX_RECV_REORDER] of them and their bytes fit the initial reorder
    budget: the reorder buffer loses nothing. *)
Theorem reordering_loses_nothing (F : Z -> list (list Z)) (n : Z) (seqs : list Z) :
  0 <= n <= MAX_RECV_REORDER ->
  sum_Z ((λ s, payload_bytes (F s)) <$> seqZ 0 n) <= 2 * INITIAL_STREAM_WINDOW ->
  Forall (λ s, 0 <= s < n) seqs -> (∀ s, 0 <= s < n -> s ∈ seqs) ->
  (recv_run recv_new (arrivals F seqs)).1.1 = run_of F 0 n.
Proof.
  intros Hn Hsum HF Hall.
  destruct (arrivals_held F n seqs recv_new) as [Hlt Hheld]; [done|lia| |apply recv_new_wf|constructor| |].
  { unfold recv_reorder_byte_limit. cbn [recv_new advertised_recv_window]. lia. }
  { intros x [Hx|Hx]; cbn in Hx; [lia|by apply elem_of_nil in Hx]. }
  assert (HG : Forall (genuine F) (arrivals F seqs)).
  { apply Forall_fmap. eapply Forall_impl; [exact HF|]. intros s Hs. cbn.
    split; [unfold MAX_RECV_REORDER, u_max in *; lia|done]. }
  pose proof (recv_run_ok F _ recv_new HG recv_new_wf) as H.
  destruct (recv_run recv_new (arrivals F seqs)) as [[outs eofs] r]. cbn [fst snd] in *.
  destruct H as (Hwf & _ & Hge & -> & _); [constructor|]. cbn [recv_new recv_sequence] in *.
  f_equal. destruct (decide (recv_sequence r < n)).
  - exfalso. destruct (Hheld (recv_sequence r)) as [?|Hin]; [right; apply Hall; lia|lia|].
    destruct Hwf as [_ Hi _ _ _ _ _ _]. rewrite Forall_forall in Hi.
    apply list_elem_of_fmap in Hin as (e & Ee & He). specialize (Hi e He). simpl in Hi. lia.
  - destruct (decide (recv_sequence r = n)); [done|].
    assert (recv_sequence r - 1 < n); [|lia]. apply Hlt. left. lia.
Qed.

Lemma reordering_loses_nothing_witness :
  (recv_run recv_new (arrivals (λ s, [[s; s]]) [2; 0; 2; 1; 0])).1.1 = run_of (λ s, [[s; s]]) 0 3.
Proof.
  apply reordering_loses_nothing; [vm_compute; intuition congruence|vm_compute; congruence| |].
  - repeat constructor; vm_compute; congruence.
  - intros s Hs. assert (s = 0 ∨ s = 1 ∨ s = 2) as [->|[->| ->]] by lia; vm_compute; repeat (left || right).
Defined.

(** [received_sack] acknowledges exactly what the receiver keeps: nothing that
    it does not hold is ever acknowledged (a segment refused for capacity will be
    sent again), the whole delivered run is acknowledged even when middle islands
    are dropped to fit the frame, the largest held offset is [largest_acked], and
    with at most 31 islands everything held is acknowledged. *)
Theorem received_sack_exact (r : RecvHalf) (now ack_delay : Z) :
  wf_recv r -> in_u 32 ack_delay ->
  match received_sack r now ack_delay with
  | None => ∀ q, ~ held r q
  | Some s =>
    wf_sack s ∧ (∀ q, acks s q = true -> held r q) ∧ (∀ q, 0 <= q < recv_sequence r -> acks s q = true) ∧
    held r (largest_acked s) ∧ (∀ q, held r q -> q <= largest_acked s) ∧
    (len (recv_buffer r) < 32 -> ∀ q, held r q -> acks s q = true)
  end.
Proof. apply received_sack_of. Qed.

Lemma received_sack_exact_witness :
  let r := (recv_run recv_new (arrivals (λ s, [[s]]) [0; 1; 5; 9])).2 in
  received_sack r 0 3 = Some (mk_sack 9 3 [(9, 9); (5, 5); (0, 1)]) ∧
  match received_sack r 0 3 with
  | None => ∀ q, ~ held r q
  | Some s =>
    wf_sack s ∧ (∀ q, acks s q = true -> held r q) ∧ (∀ q, 0 <= q < recv_sequence r -> acks s q = true) ∧
    held r (largest_acked s) ∧ (∀ q, held r q -> q <= largest_acked s) ∧
    (len (recv_buffer r) < 32 -> ∀ q, held r q -> acks s q = true)
  end.
Proof.
  split; [vm_compute; reflexivity|]. apply received_sack_exact; [|vm_compute; intuition congruence].
  pose proof (recv_run_ok (λ s, [[s]]) (arrivals (λ s, [[s]]) [0; 1; 5; 9]) recv_new) as H.
  destruct (recv_run recv_new _) as [[outs eofs] r]. apply H; [|apply recv_new_wf|constructor].
  repeat constructor; vm_compute; congruence.
Defined.

(** ** Window updates keep up with the application *)

(** Application reads of [n] bytes at the given instants; [announced] is the
    largest limit stated to the peer so far. *)
Fixpoint consume_run (r : RecvHalf) (budget announced : Z) (reads : list (Z * option Z * Z))
  : Z * RecvHalf :=
  match reads with
  | [] => (announced, r)
  | (now, mrtt, n) :: reads' =>
    let '(o, r', budget') := record_app_consumed r budget now mrtt n true in
    consume_run r' budget' (match o with Some l => Z.max announced l | None => announced end) reads'
  end.

(** The unannounced part of the limit is what was read since the last update. *)
Record announced_ok (announced : Z) (r : RecvHalf) : Prop := {
  an_wf : wf_recv r;
  an_consumed : 0 <= bytes_consumed r;
  an_lag : bytes_consumed r + advertised_recv_window r - bytes_since_last_update r <= announced;
  an_sound : announced <= bytes_consumed r + advertised_recv_window r;
}.

Lemma record_app_consumed_announced r budget now mrtt n announced :
  announced_ok announced r -> 0 <= n -> bytes_consumed r + n < 2 ^ 63 ->
  let '(o, r', _) := record_app_consumed r budget now mrtt n true in
  announced_ok (match o with Some l => Z.max announced l | None => announced end) r' ∧
  bytes_consumed r' = bytes_consumed r + n.
Proof.
  intros [Hwf Hc Hlag Hsound] Hn Hmax.
  destruct (record_app_consumed r budget now mrtt n true) as [[o r'] b'] eqn:E.
  pose proof (record_app_consumed_wf _ _ _ _ _ _ _ _ _ Hwf Hn E) as Hwf'. revert E.
  unfold record_app_consumed. cbn [negb]. rewrite wrap_small by (unfold in_u; lia).
  destruct (tune_recv_window _ budget now mrtt n) as [[grew r2] b1] eqn:Et.
  apply tune_spec in Et as (Hr2 & Hw & Hg & _); [|apply Hwf]. cbn in Hw, Hg.
  assert (Hacc : bytes_since_last_update r2 = bytes_since_last_update r) by (by rewrite Hr2).
  assert (Hcon : bytes_consumed r2 = bytes_consumed r + n) by (by rewrite Hr2).
  rewrite Hacc. pose proof (wr_acc _ Hwf). pose proof (wr_window _ Hwf).
  assert (HB : MAX_RECV_WINDOW < 2 ^ 62) by done.
  set (pending := sat_add 32 _ n).
  assert (Hp : pending = bytes_since_last_update r + n ∨ INITIAL_STREAM_WINDOW / 2 <= pending).
  { unfold pending, sat_add, INITIAL_STREAM_WINDOW, u_max. change (64 * 1024 / 2) with 32768. lia. }
  destruct (Z.leb_spec (INITIAL_STREAM_WINDOW / 2) pending); intros [= <- <- <-]; cbn [orb];
    rewrite Hcon in Hwf' |- *; unfold recv_limit, sat_add; simpl_recv.
  - split; [|done]. split; simpl_recv; rewrite ?Hcon; [done|lia|unfold u_max; lia|unfold u_max; lia].
  - destruct grew.
    + split; [|done]. split; simpl_recv; rewrite ?Hcon; [done|lia|unfold u_max; lia|unfold u_max; lia].
    + assert (advertised_recv_window r2 = advertised_recv_window r).
      { destruct (decide (advertised_recv_window r < advertised_recv_window r2)) as [Hl|]; [|lia].
        by apply Hg in Hl. }
      split; [|done]. split; simpl_recv; rewrite ?Hcon; [done|lia..].
Qed.

(** The sender is never starved by unsent window updates: after any reads by
    the application (fewer than [2^62] bytes in all), the largest limit announced
    is within half an initial window of the true one and never above it, so a
    sender whose bytes have all been read has more than 32 KiB left to send. *)
Theorem window_updates_keep_up (budget : Z) (reads : list (Z * option Z * Z)) :
  Forall (λ x, 0 <= x.2) reads -> sum_Z (snd <$> reads) < 2 ^ 62 ->
  let '(announced, r) := consume_run recv_new budget INITIAL_STREAM_WINDOW reads in
  bytes_consumed r = sum_Z (snd <$> reads) ∧
  announced <= recv_limit r < announced + INITIAL_STREAM_WINDOW / 2 ∧
  bytes_consumed r + INITIAL_STREAM_WINDOW / 2 < announced.
Proof.
  intros HF Hsum.
  assert (Hgen : ∀ r budget announced, announced_ok announced r ->
    bytes_consumed r + sum_Z (snd <$> reads) < 2 ^ 62 ->
    let '(announced', r') := consume_run r budget announced reads in
    announced_ok announced' r' ∧ bytes_consumed r' = bytes_consumed r + sum_Z (snd <$> reads)).
  { clear Hsum budget. induction HF as [|[[now mrtt] n] reads Hn HF IH]; intros r budget announced Ha Hb; cbn [consume_run].
    { split; [done|]. cbn. lia. }
    rewrite fmap_cons, sum_Z_cons in *. cbn [snd] in *.
    assert (0 <= sum_Z (snd <$> reads)).
    { apply sum_Z_nonneg, Forall_fmap. done. }
    pose proof (record_app_consumed_announced r budget now mrtt n announced Ha Hn ltac:(lia)) as Hs.
    destruct (record_app_consumed r budget now mrtt n true) as [[o r'] b'].
    destruct Hs as [Ha' Hc']. specialize (IH r' b' _ Ha' ltac:(lia)).
    destruct (consume_run r' b' _ reads) as [a' r'']. destruct IH as [? ->]. split; [done|lia]. }
  specialize (Hgen recv_new budget INITIAL_STREAM_WINDOW).
  destruct (consume_run _ _ _ _) as [announced r].
  destruct Hgen as [[Hwf H0 Hlag Hs] Hc]; [|cbn; lia|].
  { split; [apply recv_new_wf|done..]. }
  cbn in Hc. pose proof (wr_acc _ Hwf). pose proof (wr_window _ Hwf).
  unfold recv_limit, sat_add, u_max, MAX_RECV_WINDOW, MAX_SEND_WINDOW, INITIAL_STREAM_WINDOW in *.
  change (64 * 1024 / 2) with 32768 in *. lia.
Qed.

Lemma window_updates_keep_up_witness :
  let '(announced, r) := consume_run recv_new 1000000 INITIAL_STREAM_WINDOW
     [(0, None, 20000); (5, None, 20000); (secs 1, Some (millis 5), 70000)] in
  bytes_consumed r = 110000 ∧ announced <= recv_limit r < announced + 32768 ∧
  bytes_consumed r + 32768 < announced.
Proof.
  apply (window_updates_keep_up 1000000 [(0, None, 20000); (5, None, 20000); (secs 1, Some (millis 5), 70000)]).
  - repeat constructor; vm_compute; congruence.
  - vm_compute. reflexivity.
Defined.
