(* ===== verification/Growth.v ===== *)
(** * The session's receive-window growth budget under concurrency

    [SharedRecvTuning] ([core/src/transport/stream.rs]) is one atomic counter
    drawn on by every stream of a session.  A stream that wants to grow reads its
    window, takes the growth from the counter, and then tries to install the new
    window with a compare-exchange; between the two atomic operations any other
    stream, or another task on the same stream, may run.  The step relation below
    has one rule per atomic operation, so its runs are all the interleavings. *)

From Stdlib Require Import ZArith Lia.
From stdpp Require Import base numbers option list gmap.
From S2P Require Import Prelude StreamSend StreamRecv.

Local Open Scope Z_scope.

(** A grower between its two atomic operations: its stream, the window it read,
    and the growth it took. *)
Record grower := mk_grower { g_stream : nat; g_window : Z; g_growth : Z }.

Record growth_state := mk_growth {
  budget : Z;
  windows : gmap nat Z;
  growers : list grower;
}.

Definition growth_init : growth_state := mk_growth SESSION_RECV_WINDOW_GROWTH_BUDGET ∅ [].

(** The window a grower asks for. *)
Definition next_window (w : Z) : Z := Z.min (sat_mul 32 w 2) MAX_RECV_WINDOW.

Inductive growth_step : growth_state -> growth_state -> Prop :=
| gs_open i b ws gs :
    ws !! i = None ->
    growth_step (mk_growth b ws gs) (mk_growth b (<[i := INITIAL_STREAM_WINDOW]> ws) gs)
| gs_take i w b b' ws gs :
    is_Some (ws !! i) -> INITIAL_STREAM_WINDOW <= w < MAX_RECV_WINDOW ->
    try_take_growth b (next_window w - w) = (true, b') ->
    growth_step (mk_growth b ws gs) (mk_growth b' ws (mk_grower i w (next_window w - w) :: gs))
| gs_refused i w b b' ws gs :
    is_Some (ws !! i) -> try_take_growth b (next_window w - w) = (false, b') ->
    growth_step (mk_growth b ws gs) (mk_growth b' ws gs)
| gs_install g b ws gs1 gs2 :
    ws !! g_stream g = Some (g_window g) ->
    growth_step (mk_growth b ws (gs1 ++ g :: gs2))
      (mk_growth b (<[g_stream g := next_window (g_window g)]> ws) (gs1 ++ gs2))
| gs_lost_race g b ws gs1 gs2 :
    ws !! g_stream g <> Some (g_window g) ->
    growth_step (mk_growth b ws (gs1 ++ g :: gs2))
      (mk_growth (return_growth b (g_growth g)) ws (gs1 ++ gs2))
| gs_drop i w b ws gs :
    ws !! i = Some w -> Forall (λ g, g_stream g <> i) gs ->
    growth_step (mk_growth b ws gs)
      (mk_growth (return_growth b (sat_sub w INITIAL_STREAM_WINDOW)) (delete i ws) gs).

Inductive growth_reachable : growth_state -> Prop :=
| gr_init : growth_reachable growth_init
| gr_step s s' : growth_reachable s -> growth_step s s' -> growth_reachable s'.

(** Growth committed to the live streams, and in the hands of growers. *)
Definition committed (ws : gmap nat Z) : Z :=
  sum_Z ((λ p, p.2 - INITIAL_STREAM_WINDOW) <$> map_to_list ws).
Definition in_hand (gs : list grower) : Z := sum_Z (g_growth <$> gs).

Record growth_ok (s : growth_state) : Prop := {
  go_budget : 0 <= budget s;
  go_windows : map_Forall (λ _ w, INITIAL_STREAM_WINDOW <= w <= MAX_RECV_WINDOW) (windows s);
  go_growers : Forall (λ g, INITIAL_STREAM_WINDOW <= g_window g < MAX_RECV_WINDOW ∧
                            g_growth g = next_window (g_window g) - g_window g) (growers s);
  go_total : budget s + committed (windows s) + in_hand (growers s) = SESSION_RECV_WINDOW_GROWTH_BUDGET;
}.

Lemma committed_insert_new i w ws :
  ws !! i = None -> committed (<[i := w]> ws) = (w - INITIAL_STREAM_WINDOW) + committed ws.
Proof. intros H. unfold committed. by rewrite map_to_list_insert. Qed.

Lemma committed_delete i w ws :
  ws !! i = Some w -> committed ws = (w - INITIAL_STREAM_WINDOW) + committed (delete i ws).
Proof.
  intros H. unfold committed. rewrite <- (map_to_list_delete ws i w) by done. by rewrite fmap_cons.
Qed.

Lemma committed_update i w w' ws :
  ws !! i = Some w -> committed (<[i := w']> ws) = committed ws - w + w'.
Proof.
  intros H. rewrite (committed_delete i w ws) by done. rewrite <- insert_delete_eq.
  rewrite committed_insert_new by apply lookup_delete_eq. lia.
Qed.

Lemma committed_nonneg ws :
  map_Forall (λ _ w, INITIAL_STREAM_WINDOW <= w <= MAX_RECV_WINDOW) ws -> 0 <= committed ws.
Proof.
  intros H. apply sum_Z_nonneg, Forall_fmap, Forall_forall. intros [i w] Hin%elem_of_map_to_list.
  specialize (H i w Hin). simpl in *. lia.
Qed.

Lemma in_hand_split gs1 g gs2 : in_hand (gs1 ++ g :: gs2) = g_growth g + in_hand (gs1 ++ gs2).
Proof. unfold in_hand. rewrite !fmap_app, fmap_cons, !sum_Z_app, sum_Z_cons. lia. Qed.

Lemma next_window_grows w :
  INITIAL_STREAM_WINDOW <= w < MAX_RECV_WINDOW -> w < next_window w <= MAX_RECV_WINDOW.
Proof. unfold next_window, sat_mul, u_max, MAX_RECV_WINDOW, MAX_SEND_WINDOW, INITIAL_STREAM_WINDOW. lia. Qed.

Lemma in_hand_nonneg gs :
  Forall (λ g, INITIAL_STREAM_WINDOW <= g_window g < MAX_RECV_WINDOW ∧
               g_growth g = next_window (g_window g) - g_window g) gs -> 0 <= in_hand gs.
Proof.
  intros H. apply sum_Z_nonneg, Forall_fmap. eapply Forall_impl; [exact H|]. intros g [Hw E]. cbn.
  pose proof (next_window_grows _ Hw). lia.
Qed.

(** Handing back growth that was taken is exact: the cap on the counter never bites. *)
Lemma return_growth_exact b n :
  0 <= b -> 0 <= n -> b + n <= SESSION_RECV_WINDOW_GROWTH_BUDGET -> return_growth b n = b + n.
Proof.
  intros. unfold return_growth, sat_add. destruct (Z.eqb_spec n 0); [lia|].
  rewrite Z.min_l; unfold u_max, SESSION_RECV_WINDOW_GROWTH_BUDGET in *; lia.
Qed.

Lemma growth_init_ok : growth_ok growth_init.
Proof. split; cbn; try done. Qed.

Lemma growth_step_ok s s' : growth_ok s -> growth_step s s' -> growth_ok s'.
Proof.
  intros [Hb Hw Hg Ht] Hstep. destruct Hstep as
    [i b ws gs Hi|i w b b' ws gs Hi Hr Htk|i w b b' ws gs Hi Htk|g b ws gs1 gs2 Hl|g b ws gs1 gs2 Hl|i w b ws gs Hl Hn];
    cbn [budget windows growers] in *.
  - split; cbn [budget windows growers]; try done.
    + by apply map_Forall_insert_2.
    + rewrite committed_insert_new by done. lia.
  - unfold try_take_growth in Htk. destruct (Z.ltb_spec b (next_window w - w)); [done|].
    injection Htk as <-. split; cbn [budget windows growers]; try done; [lia|by constructor|].
    unfold in_hand. rewrite fmap_cons, sum_Z_cons. fold (in_hand gs). cbn [g_growth]. lia.
  - unfold try_take_growth in Htk. destruct (Z.ltb_spec b (next_window w - w)); [|done].
    injection Htk as <-. by split.
  - rewrite Forall_app, Forall_cons in Hg. destruct Hg as (Hg1 & [Hgw Hgg] & Hg2).
    rewrite in_hand_split in Ht. pose proof (next_window_grows _ Hgw).
    split; cbn [budget windows growers]; try done.
    + apply map_Forall_insert_2; [lia|done].
    + by apply Forall_app.
    + rewrite (committed_update _ (g_window g)) by done. lia.
  - rewrite Forall_app, Forall_cons in Hg. destruct Hg as (Hg1 & [Hgw Hgg] & Hg2).
    assert (Hg' : Forall (λ g, INITIAL_STREAM_WINDOW <= g_window g < MAX_RECV_WINDOW ∧
      g_growth g = next_window (g_window g) - g_window g) (gs1 ++ gs2)) by (by apply Forall_app).
    rewrite in_hand_split in Ht. pose proof (next_window_grows _ Hgw).
    pose proof (committed_nonneg _ Hw). pose proof (in_hand_nonneg _ Hg').
    rewrite return_growth_exact by lia. split; cbn [budget windows growers]; try done; lia.
  - pose proof (Hw i w Hl) as Hwi. cbn in Hwi.
    assert (Hw' : map_Forall (λ _ w, INITIAL_STREAM_WINDOW <= w <= MAX_RECV_WINDOW) (delete i ws))
      by (by apply map_Forall_delete).
    rewrite (committed_delete i w) in Ht by done.
    pose proof (committed_nonneg _ Hw'). pose proof (in_hand_nonneg _ Hg).
    unfold sat_sub. rewrite Z.max_r, return_growth_exact by lia.
    split; cbn [budget windows growers]; try done; lia.
Qed.

Lemma growth_reachable_ok s : growth_reachable s -> growth_ok s.
Proof.
  induction 1 as [|s s' _ IH Hstep]; [apply growth_init_ok|]. by eapply growth_step_ok.
Qed.

(** Under every interleaving of streams opening, growing, losing the race to
    another grower and being dropped, the session's growth budget is conserved
    exactly: what is left, what live streams hold above their initial window and
    what growers have in hand always add up to the initial budget.  So the growth
    of all live receive windows together never exceeds the session budget, and
    every window stays between its initial size and the cap. *)
Theorem growth_budget_conserved (s : growth_state) :
  growth_reachable s ->
  budget s + committed (windows s) + in_hand (growers s) = SESSION_RECV_WINDOW_GROWTH_BUDGET ∧
  0 <= budget s ∧ 0 <= committed (windows s) <= SESSION_RECV_WINDOW_GROWTH_BUDGET ∧
  map_Forall (λ _ w, INITIAL_STREAM_WINDOW <= w <= MAX_RECV_WINDOW) (windows s).
Proof.
  intros [Hb Hw Hg Ht]%growth_reachable_ok.
  pose proof (committed_nonneg _ Hw). pose proof (in_hand_nonneg _ Hg). split_and!; (done || lia).
Qed.

Lemma growth_budget_conserved_witness :
  let s := mk_growth (8 * 1024 * 1024 - 65536) (<[0%nat := next_window INITIAL_STREAM_WINDOW]> {[0%nat := INITIAL_STREAM_WINDOW]}) [] in
  budget s + committed (windows s) + in_hand (growers s) = SESSION_RECV_WINDOW_GROWTH_BUDGET ∧
  0 <= budget s ∧ 0 <= committed (windows s) <= SESSION_RECV_WINDOW_GROWTH_BUDGET ∧
  map_Forall (λ _ w, INITIAL_STREAM_WINDOW <= w <= MAX_RECV_WINDOW) (windows s).
Proof.
  apply growth_budget_conserved.
  eapply gr_step; [eapply gr_step; [eapply gr_step; [apply gr_init|]|]|].
  - by apply (gs_open 0).
  - by apply (gs_take 0 INITIAL_STREAM_WINDOW _ (8 * 1024 * 1024 - 65536)).
  - by apply (gs_install (mk_grower 0 INITIAL_STREAM_WINDOW (next_window INITIAL_STREAM_WINDOW - INITIAL_STREAM_WINDOW))
      _ _ [] []).
Defined.
