(* ===== verification/Arq.v ===== *)
(** * End-to-end reliability of one stream

    The sending half of one endpoint and the receiving half of the other, joined
    by the pump's code for reliable frames ([core/src/api/session.rs]) and a
    network that may lose, repeat and reorder whatever it was given.  The network
    is the list of everything ever put on the wire: a step may deliver any element
    of it any number of times, or never.  The AEAD layer below (Session.v) is what
    makes this network model right: a frame that was not sent does not arrive. *)

From Stdlib Require Import ZArith Lia.
From stdpp Require Import base numbers option sets list.
From S2P Require Import Prelude Sack Rto StreamSend StreamRecv.

Local Open Scope Z_scope.

(** ** The pump's reliable-frame code *)

(** The AEAD plaintext of a reliable frame: the offset, then the data. *)
Definition reliable_plaintext (offset : Z) (data : list Z) : list Z := be_encode 4 offset ++ data.

Inductive DeliverItem := Data (d : list Z) | Close.

(** [deliver_in_order_run]: empty chunks are not handed to the application. *)
Definition deliver_in_order_run (run : list (list Z)) : list DeliverItem :=
  omap (λ d, match d with [] => None | _ => Some (Data d) end) run.

(** The RELIABLE branch of the receive path for a stream that exists; [can_ack]
    is whether [send_stream_sack] could stamp its frame.  Gives what is queued for
    the application, the acknowledgement sent, and the stream's new state. *)
Definition handle_reliable (r : RecvHalf) (now : Z) (can_ack fin : bool) (plaintext : list Z)
  : list DeliverItem * option Sack * RecvHalf :=
  if (length plaintext <? 4)%nat then ([], None, r)
  else
    let offset := be_decode (take 4 plaintext) in
    let data := drop 4 plaintext in
    let is_persist_probe := match data with [] => negb fin | _ => false end in
    let '(delivered, r1) := accept_in_order r now offset [data] in
    match received_sack r1 now 0 with
    | None => ([], None, r1)
    | Some sack =>
      if negb can_ack then ([], None, r1)
      else
        let items := deliver_in_order_run delivered in
        let r2 := if is_persist_probe then stage_window_update_limit r1 (recv_limit r1) else r1 in
        let r3 := if fin then note_remote_fin r2 offset else r2 in
        let '(eof, r4) := take_in_order_fin r3 in
        (items ++ (if eof then [Close] else []), Some sack, r4)
    end.

(** ** The system *)

Record arq := mk_arq {
  snd_half : SendHalf;
  rcv_half : RecvHalf;
  wire : list (Z * list Z * bool);
  acks_sent : list Sack;
  submitted : list (list Z * bool);
  app : list DeliverItem;
}.

Definition arq_init : arq := mk_arq send_new recv_new [] [] [] [].

Definition seg_on_wire (seg : OutboundSegment) : list (Z * list Z * bool) :=
  if os_reliable seg then [(os_offset seg, os_data seg, os_fin seg)] else [].

Inductive arq_step : arq -> arq -> Prop :=
| arq_send s r w a sub ap data off s' :
    len data < 2 ^ 32 -> send_reliable s data = Some (Ok (off, s')) ->
    arq_step (mk_arq s r w a sub ap) (mk_arq s' r w a (sub ++ [(data, false)]) ap)
| arq_fin s r w a sub ap s' :
    queue_fin s = Some (Ok s') ->
    arq_step (mk_arq s r w a sub ap) (mk_arq s' r w a (sub ++ [([], true)]) ap)
| arq_unreliable s r w a sub ap data :
    arq_step (mk_arq s r w a sub ap) (mk_arq (send_unreliable s data) r w a sub ap)
| arq_transmit s r w a sub ap now cwnd dn dt al seg s' :
    poll_send s now cwnd dn dt al = (Ok seg, s') ->
    arq_step (mk_arq s r w a sub ap) (mk_arq s' r (w ++ seg_on_wire seg) a sub ap)
| arq_refused s r w a sub ap now cwnd dn dt al seg s' :
    poll_send s now cwnd dn dt al = (Ok seg, s') ->
    arq_step (mk_arq s r w a sub ap)
      (mk_arq (if os_reliable seg then mark_unsent s' (os_offset seg) else s') r w a sub ap)
| arq_blocked s r w a sub ap now cwnd dn dt al why s' :
    poll_send s now cwnd dn dt al = (Err why, s') ->
    arq_step (mk_arq s r w a sub ap) (mk_arq s' r w a sub ap)
| arq_deliver s r w a sub ap now off data fin items sack r' :
    (off, data, fin) ∈ w ->
    handle_reliable r now true fin (reliable_plaintext off data) = (items, sack, r') ->
    arq_step (mk_arq s r w a sub ap)
      (mk_arq s r' w (a ++ option_list sack) sub (ap ++ items))
| arq_ack s r w a sub ap now sack res s' :
    sack ∈ a -> on_sack s now sack = (res, s') ->
    arq_step (mk_arq s r w a sub ap) (mk_arq s' r w a sub ap)
| arq_consume s r w a sub ap budget now mrtt n rel o r' budget' :
    0 <= n -> record_app_consumed r budget now mrtt n rel = (o, r', budget') ->
    arq_step (mk_arq s r w a sub ap) (mk_arq s r' w a sub ap)
| arq_limit s r w a sub ap limit :
    arq_step (mk_arq s r w a sub ap) (mk_arq (apply_peer_window_limit s limit) r w a sub ap)
| arq_reset_rto s r w a sub ap :
    arq_step (mk_arq s r w a sub ap) (mk_arq (reset_rto s) r w a sub ap).

Inductive arq_reachable : arq -> Prop :=
| arq_start : arq_reachable arq_init
| arq_more x y : arq_reachable x -> arq_step x y -> arq_reachable y.

(** ** Invariant *)

(** The payload the sender submitted at an offset. *)
Definition sent_at_offset (sub : list (list Z * bool)) (o : Z) : list (list Z) :=
  match sub !! Z.to_nat o with Some (d, _) => [d] | None => [] end.

Definition data_of (ap : list DeliverItem) : list (list Z) :=
  omap (λ i, match i with Data d => Some d | Close => None end) ap.

(** The non-empty chunks among the first [k] submitted. *)
Definition nonempty_prefix (sub : list (list Z * bool)) (k : Z) : list (list Z) :=
  filter (λ d, d <> []) (take (Z.to_nat k) sub).*1.

Record arq_inv (x : arq) : Prop := {
  iv_send : wf_send (snd_half x);
  iv_recv : wf_recv (rcv_half x);
  iv_count : reliable_offset (snd_half x) = len (submitted x);
  iv_buffer : ∀ o d f, (o, d, f) ∈ (seg_of <$> send_buffer (snd_half x)) ->
                submitted x !! Z.to_nat o = Some (d, f);
  iv_wire : ∀ o d f, (o, d, f) ∈ wire x -> 0 <= o < len (submitted x) ∧
              (submitted x !! Z.to_nat o = Some (d, f) ∨ (d = [] ∧ f = false ∧ held (rcv_half x) o));
  iv_held_range : ∀ o, held (rcv_half x) o -> o < len (submitted x);
  iv_acks : ∀ s q, s ∈ acks_sent x -> acks s q = true -> held (rcv_half x) q;
  iv_last_acked : ∀ o, last_acked_offset (snd_half x) = Some o -> held (rcv_half x) o;
  iv_durable : ∀ o, 0 <= o < len (submitted x) ->
                 o ∈ (pd_offset <$> send_buffer (snd_half x)) ∨ held (rcv_half x) o;
  iv_carries : carries (sent_at_offset (submitted x)) (recv_buffer (rcv_half x));
  iv_app : data_of (app x) = nonempty_prefix (submitted x) (recv_sequence (rcv_half x));
  iv_fin : remote_fin_offset (rcv_half x) = u_max 32 ∨
           0 <= remote_fin_offset (rcv_half x) ∧
           ∃ d, submitted x !! Z.to_nat (remote_fin_offset (rcv_half x)) = Some (d, true);
  iv_close : ∀ pre post, app x = pre ++ Close :: post ->
     ∃ f k d, 0 <= f < k ∧ k <= recv_sequence (rcv_half x) ∧ submitted x !! Z.to_nat f = Some (d, true) ∧
              data_of pre = nonempty_prefix (submitted x) k;
}.

(** ** The sending half, seen through what its segments carry *)

Definition segs (s : SendHalf) : list (Z * list Z * bool) := seg_of <$> send_buffer s.

(** Steps that keep the segments, the offset counter and the acknowledged offset. *)
Definition send_frame (s s' : SendHalf) : Prop :=
  segs s' = segs s ∧ reliable_offset s' = reliable_offset s ∧
  highest_acked_plus_one s' = highest_acked_plus_one s.

Lemma offsets_of_segs s : pd_offset <$> send_buffer s = (λ x, x.1.1) <$> segs s.
Proof. unfold segs. rewrite <- list_fmap_compose. done. Qed.

Lemma segs_replace s l1 x x' l2 :
  send_buffer s = l1 ++ x :: l2 -> seg_of x' = seg_of x -> seg_of <$> (l1 ++ x' :: l2) = segs s.
Proof. intros E Ex. unfold segs. by rewrite E, !fmap_app, !fmap_cons, Ex. Qed.

Lemma poll_send_frame s now cwnd dn dt al r s' :
  wf_send s -> poll_send s now cwnd dn dt al = (r, s') -> send_frame s s'.
Proof.
  intros Hwf E. pose proof (poll_send_answer s now cwnd dn dt al Hwf) as Ha. rewrite E in Ha. cbn in Ha.
  destruct Ha; try done; split; try done; unfold segs; simpl_send; by eapply segs_replace.
Qed.

(** What [poll_send] puts on the wire is a buffered segment, or the empty probe at
    the last acknowledged offset. *)
Lemma poll_send_seg s now cwnd dn dt al seg s' :
  wf_send s -> poll_send s now cwnd dn dt al = (Ok seg, s') -> os_reliable seg = true ->
  (os_offset seg, os_data seg, os_fin seg) ∈ segs s ∨
  (os_data seg = [] ∧ os_fin seg = false ∧ last_acked_offset s = Some (os_offset seg)).
Proof.
  intros Hwf E Hrel. pose proof (poll_send_answer s now cwnd dn dt al Hwf) as Ha. rewrite E in Ha.
  cbn [fst snd] in Ha.
  assert (Hin : ∀ l1 x l2, send_buffer s = l1 ++ x :: l2 -> seg_of x ∈ segs s).
  { intros l1 x l2 Eb. unfold segs. rewrite Eb. apply list_elem_of_fmap_2. set_solver. }
  inversion Ha; subst; cbn in Hrel |- *; try done; try (left; by eapply Hin). by right.
Qed.

Lemma mark_unsent_frame s off : send_frame s (mark_unsent s off).
Proof.
  unfold mark_unsent. destruct (update_first _ _) as [[b d]|] eqn:E; [|done].
  apply update_first_Some in E as (l1 & x & x' & l2 & El & -> & Hf & _).
  split; [|done]. unfold segs at 1. simpl_send. eapply segs_replace; [done|].
  unfold unsend in Hf. case_match; [|done]. by injection Hf as <- _.
Qed.

Lemma send_frame_trans s1 s2 s3 : send_frame s1 s2 -> send_frame s2 s3 -> send_frame s1 s3.
Proof. unfold send_frame. intros (? & ? & ?) (? & ? & ?). split_and!; congruence. Qed.

Lemma retire_covered_last sack now s buf kept ret s' :
  retire_covered sack now s buf = (kept, ret, s') ->
  highest_acked_plus_one s' = highest_acked_plus_one s ∨
  ∃ p, p ∈ buf ∧ acks sack (pd_offset p) = true ∧ highest_acked_plus_one s' = sat_add 32 (pd_offset p) 1.
Proof.
  revert kept ret s s'. induction buf as [|p buf IH]; intros kept ret s s'; simpl; [intros [= _ _ <-]; auto|].
  destruct (acks sack (pd_offset p)) eqn:Ea.
  - set (s2 := match pd_sent_at p with Some _ => _ | None => _ end).
    assert (Hh : highest_acked_plus_one s2 = Z.max (highest_acked_plus_one s) (sat_add 32 (pd_offset p) 1)).
    { unfold s2. repeat case_match; done. }
    destruct (retire_covered sack now s2 buf) as [[k r] s3] eqn:E. intros [= _ _ <-].
    apply IH in E as [E|(q & Hq & ? & ?)]; [|right; exists q; split_and!; [by right|done..]].
    rewrite E, Hh. destruct (Z.max_spec (highest_acked_plus_one s) (sat_add 32 (pd_offset p) 1)) as [[_ ->]|[_ ->]]; [|auto].
    right. exists p. split_and!; [by left|done..].
  - destruct (retire_covered sack now s buf) as [[k r] s3] eqn:E. intros [= _ _ <-].
    apply IH in E as [E|(q & Hq & ? & ?)]; [auto|]. right. exists q. split_and!; [by right|done..].
Qed.

(** A selective acknowledgement removes covered segments only, and the last
    acknowledged offset is an old one or covered. *)
Lemma on_sack_segs s now sack r s' :
  wf_send s -> on_sack s now sack = (r, s') ->
  segs s' = filter (λ x, acks sack x.1.1 = false) (segs s) ∧ reliable_offset s' = reliable_offset s ∧
  ∀ o, last_acked_offset s' = Some o -> last_acked_offset s = Some o ∨ acks sack o = true.
Proof.
  intros Hwf. unfold on_sack. destruct (retire_covered _ _ _ _) as [[kept ret] s1] eqn:E.
  pose proof (retire_covered_last _ _ _ _ _ _ _ E) as Hlast.
  apply retire_covered_spec in E as (-> & _ & Hf & _). rewrite detect_loss_spec. intros [= _ <-].
  assert (Er : reliable_offset s1 = reliable_offset s) by (by rewrite Hf).
  split_and!; [|done|].
  - unfold segs. simpl_send. rewrite filter_of_fmap, <- list_fmap_compose. apply list_fmap_ext.
    intros i p _. unfold compose, after_loss_test. by case_match.
  - intros o. unfold last_acked_offset. simpl_send. destruct Hlast as [->|(p & Hp & Hack & ->)]; [auto|].
    pose proof (bo_range _ _ (ws_buffer _ Hwf)) as HF. rewrite Forall_forall in HF. specialize (HF p Hp).
    pose proof (ws_offset _ Hwf). cbn beta in HF. unfold sat_add. rewrite Z.min_l by lia.
    destruct (Z.eqb_spec (pd_offset p + 1) 0); [lia|]. intros [= <-]. right. by rewrite Z.add_simpl_r.
Qed.

(** ** Submitted data and delivered data *)

Lemma data_of_app a b : data_of (a ++ b) = data_of a ++ data_of b.
Proof. unfold data_of. by rewrite omap_app. Qed.

Lemma data_of_run run : data_of (deliver_in_order_run run) = filter (λ d, d <> []) run.
Proof.
  induction run as [|d run IH]; [done|]. rewrite filter_cons.
  destruct d as [|z d]; [by rewrite decide_False by tauto|]. rewrite decide_True by done.
  change (data_of (deliver_in_order_run ((z :: d) :: run))) with ((z :: d) :: data_of (deliver_in_order_run run)).
  by rewrite IH.
Qed.

Lemma run_no_close run : Close ∉ deliver_in_order_run run.
Proof.
  unfold deliver_in_order_run. intros (d & _ & E)%list_elem_of_omap. by destruct d.
Qed.

Lemma run_of_ext F G a b : (∀ o, a <= o < b -> F o = G o) -> run_of F a b = run_of G a b.
Proof.
  intros H. unfold run_of. f_equal. apply list_fmap_ext. intros i o Ho.
  apply list_elem_of_lookup_2, elem_of_seqZ in Ho. apply H. lia.
Qed.

Lemma run_of_submitted_nat sub n :
  (n <= length sub)%nat -> run_of (sent_at_offset sub) 0 (Z.of_nat n) = (take n sub).*1.
Proof.
  induction n as [|n IH]; intros Hn; [done|].
  rewrite Nat2Z.inj_succ, <- Z.add_1_r, run_of_snoc, IH by lia. unfold sent_at_offset.
  destruct (lookup_lt_is_Some_2 sub n) as [[d f] Hd]; [lia|].
  by rewrite Nat2Z.id, Hd, (take_S_r _ _ _ Hd), fmap_app.
Qed.

Lemma run_of_submitted sub k :
  0 <= k <= len sub -> run_of (sent_at_offset sub) 0 k = (take (Z.to_nat k) sub).*1.
Proof.
  intros Hk. rewrite <- run_of_submitted_nat by (unfold len in Hk; lia). by rewrite Z2Nat.id by lia.
Qed.

Lemma nonempty_prefix_step sub k k' :
  0 <= k <= k' -> k' <= len sub ->
  nonempty_prefix sub k' = nonempty_prefix sub k ++ filter (λ d, d <> []) (run_of (sent_at_offset sub) k k').
Proof.
  intros Hk Hk'. unfold nonempty_prefix. rewrite <- !run_of_submitted by lia.
  rewrite <- (run_of_app _ 0 k k') by lia. by rewrite filter_app.
Qed.

Lemma nonempty_prefix_mono sub more k :
  k <= len sub -> nonempty_prefix (sub ++ more) k = nonempty_prefix sub k.
Proof. intros Hk. unfold nonempty_prefix. rewrite take_app_le; [done|]. unfold len in Hk. lia. Qed.

Lemma submitted_mono {A} (sub more : list A) o x :
  sub !! o = Some x -> (sub ++ more) !! o = Some x.
Proof. intros H. by apply lookup_app_l_Some. Qed.

Lemma sent_at_offset_mono sub more o :
  0 <= o < len sub -> sent_at_offset (sub ++ more) o = sent_at_offset sub o.
Proof. intros Ho. unfold sent_at_offset, len in *. by rewrite lookup_app_l by lia. Qed.

Lemma sent_at_offset_Some sub o d f : sub !! Z.to_nat o = Some (d, f) -> sent_at_offset sub o = [d].
Proof. intros E. unfold sent_at_offset. by rewrite E. Qed.

(** ** Arrivals *)

Lemma accept_held_noop r now o ps :
  wf_recv r -> held r o -> accept_in_order r now o ps = ([], set_recv_at r (Some now)).
Proof.
  intros [_ Hi _ _ _ _ _ _] Hh. unfold accept_in_order. simpl_recv.
  destruct (Z.ltb_spec o (recv_sequence r)); [done|]. destruct Hh as [?|Hin]; [lia|].
  apply list_elem_of_fmap in Hin as (e & -> & He).
  rewrite Forall_forall in Hi. pose proof (Hi e He) as Hlt. cbn in Hlt.
  destruct (Z.eqb_spec e.1 (recv_sequence r)); [lia|]. cbn [negb].
  destruct (existsb _ _) eqn:Ee; [done|]. exfalso.
  assert (existsb (λ e', e'.1 =? e.1) (recv_buffer r) = true); [|congruence].
  apply existsb_exists. exists e. split; [by apply list_elem_of_In|apply Z.eqb_refl].
Qed.

Lemma reliable_plaintext_parse o d :
  in_u 32 o -> (length (reliable_plaintext o d) <? 4)%nat = false ∧
  be_decode (take 4 (reliable_plaintext o d)) = o ∧ drop 4 (reliable_plaintext o d) = d.
Proof.
  intros Ho. unfold reliable_plaintext. split_and!; [done| |done].
  rewrite take_app_exact by done. by apply be_decode_encode.
Qed.

(** One delivered frame: what the application gets and the new receiving state. *)
Record handled (F : Z -> list (list Z)) (r : RecvHalf) (o : Z) (fin : bool) (items : list DeliverItem)
    (sack : option Sack) (r' : RecvHalf) : Prop := {
  hd_wf : wf_recv r';
  hd_seq : recv_sequence r <= recv_sequence r';
  hd_carries : carries F (recv_buffer r');
  hd_keeps : ∀ q, held r q -> held r' q;
  hd_only : ∀ q, held r' q -> held r q ∨ q = o;
  hd_sack : ∀ s q, sack = Some s -> acks s q = true -> held r' q;
  hd_items : ∃ eof, items = deliver_in_order_run (run_of F (recv_sequence r) (recv_sequence r'))
                     ++ (if eof : bool then [Close] else []) ∧
             (eof = true -> remote_fin_offset r' <> u_max 32 ∧ remote_fin_offset r' < recv_sequence r');
  hd_fin : remote_fin_offset r' = remote_fin_offset r ∨ (fin = true ∧ remote_fin_offset r' = o);
}.

(** The window re-statement and end-of-stream steps after an arrival. *)
Lemma fin_handling_spec (probe fin : bool) r1 o :
  wf_recv r1 ->
  ∃ eof r4,
    take_in_order_fin
      (if fin then note_remote_fin (if probe then stage_window_update_limit r1 (recv_limit r1) else r1) o
       else if probe then stage_window_update_limit r1 (recv_limit r1) else r1) = (eof, r4) ∧
    wf_recv r4 ∧ recv_sequence r4 = recv_sequence r1 ∧ recv_buffer r4 = recv_buffer r1 ∧
    (remote_fin_offset r4 = remote_fin_offset r1 ∨ (fin = true ∧ remote_fin_offset r4 = o)) ∧
    (eof = true -> remote_fin_offset r4 <> u_max 32 ∧ remote_fin_offset r4 < recv_sequence r4).
Proof.
  intros H1. set (r2 := if probe then _ else r1).
  assert (Hr2 : wf_recv r2 ∧ recv_sequence r2 = recv_sequence r1 ∧ recv_buffer r2 = recv_buffer r1 ∧
                remote_fin_offset r2 = remote_fin_offset r1).
  { unfold r2. destruct probe; [|done]. split_and!; [by destruct H1|done..]. }
  destruct Hr2 as (W2 & S2 & B2 & F2). set (r3 := if fin then note_remote_fin r2 o else r2).
  assert (Hr3 : wf_recv r3 ∧ recv_sequence r3 = recv_sequence r1 ∧ recv_buffer r3 = recv_buffer r1 ∧
                (remote_fin_offset r3 = remote_fin_offset r1 ∨ (fin = true ∧ remote_fin_offset r3 = o))).
  { unfold r3, note_remote_fin. destruct fin; [|split_and!; (done || left; congruence)].
    case_test; split_and!; try done; [by apply wf_recv_fin|by right|left; congruence]. }
  destruct Hr3 as (W3 & S3 & B3 & F3). unfold take_in_order_fin.
  case_test; eexists _, _; split_and!; try done. by apply wf_recv_fin.
Qed.

Lemma handle_reliable_spec F r now fin o d items sack r' :
  wf_recv r -> carries F (recv_buffer r) -> 0 <= o < u_max 32 ->
  ([d] = F o ∨ held r o) ->
  handle_reliable r now true fin (reliable_plaintext o d) = (items, sack, r') ->
  handled F r o fin items sack r'.
Proof.
  intros Hwf Hc Ho Hd. unfold handle_reliable.
  destruct (reliable_plaintext_parse o d) as (-> & -> & ->); [unfold in_u, u_max in *; lia|].
  assert (Ha : ∃ delivered r1, accept_in_order r now o [d] = (delivered, r1) ∧
    arrival F r o [d] delivered r1 ∧
    delivered = run_of F (recv_sequence r) (recv_sequence r1) ∧ carries F (recv_buffer r1)).
  { pose proof (accept_in_order_spec F r now o [d] Hwf Ho) as Ha.
    destruct Hd as [Hd|Hh].
    - destruct (accept_in_order r now o [d]) as [delivered r1] eqn:E. exists delivered, r1.
      split; [done|]. split; [done|]. by apply (ar_out _ _ _ _ _ _ Ha).
    - rewrite (accept_held_noop r now o [d] Hwf Hh) in *. eexists _, _. split; [done|]. split; [done|].
      cbn. by rewrite run_of_empty. }
  destruct Ha as (delivered & r1 & -> & [H1 H2 _ H4 H5 (_ & H6 & _)] & Hout & Hc1).
  pose proof (received_sack_of r1 now 0 H1 ltac:(by apply in_u_0)) as Hsack.
  destruct (received_sack r1 now 0) as [sk|]; cbn [negb].
  - destruct (fin_handling_spec (match d with [] => negb fin | _ => false end) fin r1 o H1)
      as (eof & r4 & -> & W4 & S4 & B4 & F4 & Heof). intros [= <- <- <-].
    assert (Hh : ∀ q, held r4 q <-> held r1 q) by (intros q; unfold held; by rewrite S4, B4).
    split; try done; rewrite ?S4, ?B4; try done.
    + intros q Hq. by apply Hh, H4.
    + intros q Hq%Hh. by apply H5.
    + intros s q [= <-] Hq. apply Hh. by apply Hsack.
    + exists eof. rewrite Hout. split; [done|]. by rewrite <- S4.
    + by rewrite <- H6.
  - intros [= <- <- <-]. split; try done; [|auto].
    assert (E : recv_sequence r1 = recv_sequence r).
    { destruct (decide (recv_sequence r < recv_sequence r1)) as [Hlt|]; [|lia].
      exfalso. apply (Hsack (recv_sequence r)). left. destruct Hwf. lia. }
    exists false. by rewrite E, run_of_empty.
Qed.

(** ** Preservation *)

Ltac simpl_arq := cbn [snd_half rcv_half wire acks_sent submitted app] in *.

Lemma last_acked_frame s s' : send_frame s s' -> last_acked_offset s' = last_acked_offset s.
Proof. intros (_ & _ & E). unfold last_acked_offset. by rewrite E. Qed.

Lemma inv_send_frame s s' r w a sub ap :
  arq_inv (mk_arq s r w a sub ap) -> wf_send s' -> send_frame s s' -> arq_inv (mk_arq s' r w a sub ap).
Proof.
  intros [] Hwf Hf. pose proof (last_acked_frame _ _ Hf) as El. destruct Hf as (Es & Er & _).
  fold (segs s) in *. simpl_arq.
  split; simpl_arq; try done; fold (segs s'); rewrite ?offsets_of_segs, ?Es, ?Er, ?El; try done.
  by rewrite <- offsets_of_segs.
Qed.

Lemma push_segment_segs s data fin off s' :
  push_segment s data fin = Ok (off, s') ->
  segs s' = segs s ++ [(off, data, fin)] ∧ off = reliable_offset s ∧
  reliable_offset s' = reliable_offset s + 1 ∧ highest_acked_plus_one s' = highest_acked_plus_one s.
Proof.
  unfold push_segment, next_reliable_offset. destruct (checked_add 32 _ 1) as [n|] eqn:E; cbn [ok_or]; [|done].
  apply checked_add_Some in E as [-> _]. intros [= <- <-]. split_and!; try done.
  unfold segs. simpl_send. by rewrite fmap_app.
Qed.

Lemma seq_le_submitted r (sub : list (list Z * bool)) :
  wf_recv r -> (∀ o, held r o -> o < len sub) -> recv_sequence r <= len sub.
Proof.
  intros [? _ _ _ _ _ _ _] Hh. destruct (decide (recv_sequence r = 0)); [pose proof (len_nonneg sub); lia|].
  assert (recv_sequence r - 1 < len sub); [|lia]. apply Hh. left. lia.
Qed.

Lemma inv_submit s s' r w a sub ap data fin off :
  arq_inv (mk_arq s r w a sub ap) -> wf_send s' ->
  segs s' = segs s ++ [(off, data, fin)] -> off = reliable_offset s ->
  reliable_offset s' = reliable_offset s + 1 -> highest_acked_plus_one s' = highest_acked_plus_one s ->
  arq_inv (mk_arq s' r w a (sub ++ [(data, fin)]) ap).
Proof.
  intros [I1 I2 I3 I4 I5 I6 I7 I8 I9 I10 I11 I12 I13] Hwf Es -> Er Eh. simpl_arq.
  assert (Hl : len (sub ++ [(data, fin)]) = len sub + 1) by (by rewrite len_app).
  assert (Hseq : recv_sequence r <= len sub) by (by apply seq_le_submitted).
  split; simpl_arq; try done; fold (segs s'); rewrite ?offsets_of_segs, ?Es, ?Hl, ?Er.
  - lia.
  - intros o d f [Hin|Hin]%elem_of_app; [by apply submitted_mono, I4|].
    apply list_elem_of_singleton in Hin. injection Hin as -> -> ->. rewrite I3.
    rewrite lookup_app_r by (unfold len; lia). unfold len. by rewrite Nat2Z.id, Nat.sub_diag.
  - intros o d f Hin. destruct (I5 o d f Hin) as [? [?|?]]; (split; [lia|]); [left; by apply submitted_mono|by right].
  - intros o Ho%I6. lia.
  - unfold last_acked_offset. by rewrite Eh.
  - intros o Ho. destruct (decide (o = len sub)) as [->|].
    + left. rewrite fmap_app. apply elem_of_app. right. apply list_elem_of_singleton. by rewrite <- I3.
    + destruct (I9 o ltac:(lia)) as [Hin|?]; [left|by right]. rewrite offsets_of_segs in Hin.
      rewrite fmap_app. apply elem_of_app. by left.
  - unfold carries in *. rewrite Forall_forall in *. intros e He. rewrite (I10 e He).
    symmetry. apply sent_at_offset_mono. destruct I2 as [? Hi _ _ _ _ _ _]. rewrite Forall_forall in Hi.
    specialize (Hi e He). cbn in Hi. split; [lia|]. apply I6. right. by apply list_elem_of_fmap_2.
  - by rewrite nonempty_prefix_mono.
  - destruct I12 as [?|(? & d & ?)]; [by left|right]. split; [done|]. exists d. by apply submitted_mono.
  - intros pre post E. destruct (I13 pre post E) as (f & k & d & ? & ? & ? & ?).
    exists f, k, d. split_and!; [lia..|done|by apply submitted_mono|]. by rewrite nonempty_prefix_mono by lia.
Qed.

Lemma inv_ack s s' r w a sub ap now sack res :
  arq_inv (mk_arq s r w a sub ap) -> sack ∈ a -> on_sack s now sack = (res, s') ->
  arq_inv (mk_arq s' r w a sub ap).
Proof.
  intros [I1 I2 I3 I4 I5 I6 I7 I8 I9 I10 I11 I12 I13] Hin E. simpl_arq.
  pose proof (on_sack_wf _ _ _ _ _ I1 E) as Hwf. apply on_sack_segs in E as (Es & Er & Ela); [|done].
  split; simpl_arq; try done; fold (segs s'); rewrite ?offsets_of_segs, ?Es, ?Er; try done.
  - intros o d f [_ Hf]%list_elem_of_filter. by apply I4.
  - intros o [?|?]%Ela; [by apply I8|by eapply I7].
  - intros o Ho. destruct (I9 o Ho) as [Ho'|?]; [|by right].
    destruct (acks sack o) eqn:Ea; [right; by eapply I7|left].
    rewrite offsets_of_segs in Ho'. apply list_elem_of_fmap in Ho' as (x & -> & Hx).
    apply (list_elem_of_fmap_2 (λ x, x.1.1)). by apply list_elem_of_filter.
Qed.

Lemma split_items pre post ap run (eof : bool) :
  ap ++ deliver_in_order_run run ++ (if eof then [Close] else []) = pre ++ Close :: post ->
  (∃ post', ap = pre ++ Close :: post') ∨ (eof = true ∧ pre = ap ++ deliver_in_order_run run).
Proof.
  intros E. apply app_eq_inv in E as [(k & -> & E)|(k & -> & E)].
  - destruct k as [|i k]; [|injection E as <- _; left; eauto]. rewrite app_nil_l in E. right.
    rewrite app_nil_r. destruct (deliver_in_order_run run) as [|i l] eqn:Er.
    + destruct eof; [|done]. by rewrite app_nil_r.
    + exfalso. injection E as <- _. apply (run_no_close run). rewrite Er. by left.
  - right. apply app_eq_inv in E as [(k' & Er & E)|(k' & -> & E)].
    + destruct k' as [|i k'].
      * rewrite app_nil_r in Er. subst k. by destruct eof.
      * exfalso. injection E as <- _. apply (run_no_close run). rewrite Er.
        apply elem_of_app. right. by left.
    + destruct eof; [|by destruct k']. destruct k' as [|i k']; [by rewrite app_nil_r|].
      injection E as _ E. by destruct k'.
Qed.

Lemma inv_deliver s r r' w a sub ap now off data fin items sack :
  arq_inv (mk_arq s r w a sub ap) -> (off, data, fin) ∈ w ->
  handle_reliable r now true fin (reliable_plaintext off data) = (items, sack, r') ->
  arq_inv (mk_arq s r' w (a ++ option_list sack) sub (ap ++ items)).
Proof.
  intros [I1 I2 I3 I4 I5 I6 I7 I8 I9 I10 I11 I12 I13] Hin E. simpl_arq.
  destruct (I5 _ _ _ Hin) as [Hoff Hkind].
  apply (handle_reliable_spec (sent_at_offset sub)) in E; [|done|done| |].
  2: { pose proof (ws_offset _ I1). lia. }
  2: { destruct Hkind as [Hs|(_ & _ & Hh)]; [left|by right]. symmetry. by eapply sent_at_offset_Some. }
  destruct E as [H1 H2 H3 H4 H5 H6 (eof & -> & Heof) H8].
  assert (Hrange : ∀ o, held r' o -> o < len sub) by (intros o [?| ->]%H5; [by apply I6|lia]).
  pose proof (seq_le_submitted _ _ H1 Hrange) as Hle. pose proof (wr_seq _ I2) as Hseq.
  assert (Hfin' : remote_fin_offset r' = u_max 32 ∨ 0 <= remote_fin_offset r' ∧
    ∃ d, sub !! Z.to_nat (remote_fin_offset r') = Some (d, true)).
  { destruct H8 as [->|[-> ->]]; [done|]. right. split; [lia|]. destruct Hkind as [?|(_ & ? & _)]; [eauto|done]. }
  assert (Hdata : data_of (ap ++ deliver_in_order_run (run_of (sent_at_offset sub) (recv_sequence r) (recv_sequence r')))
     = nonempty_prefix sub (recv_sequence r')).
  { rewrite data_of_app, I11, data_of_run. by rewrite <- nonempty_prefix_step by lia. }
  split; simpl_arq; try done.
  - intros o d f Hw. destruct (I5 o d f Hw) as [? [?|(? & ? & ?)]]; (split; [done|]); [by left|right].
    split_and!; auto.
  - intros s0 q [Hs|Hs]%elem_of_app Hq; [by eapply H4, I7|]. destruct sack as [s1|]; cbn in Hs; [|by apply elem_of_nil in Hs].
    apply list_elem_of_singleton in Hs as ->. by eapply H6.
  - intros o Ho. by apply H4, I8.
  - intros o Ho. destruct (I9 o Ho) as [?|?]; [by left|right; by apply H4].
  - rewrite (assoc_L (++)), data_of_app, Hdata. destruct eof; by rewrite app_nil_r.
  - intros pre post E. apply split_items in E as [(post' & E)|[-> ->]].
    + destruct (I13 pre post' E) as (f & k & d & ? & ? & ? & ?). exists f, k, d. split_and!; (done || lia).
    + destruct (Heof eq_refl) as [Hne Hlt]. destruct Hfin' as [?|(H0 & d & Hd)]; [done|].
      exists (remote_fin_offset r'), (recv_sequence r'), d. split_and!; (done || lia).
Qed.

Lemma inv_consume s r r' w a sub ap budget now mrtt n rel o budget' :
  arq_inv (mk_arq s r w a sub ap) -> 0 <= n ->
  record_app_consumed r budget now mrtt n rel = (o, r', budget') ->
  arq_inv (mk_arq s r' w a sub ap).
Proof.
  intros [I1 I2 I3 I4 I5 I6 I7 I8 I9 I10 I11 I12 I13] Hn E. simpl_arq.
  pose proof (record_app_consumed_wf _ _ _ _ _ _ _ _ _ I2 Hn E) as Hwf.
  apply record_app_consumed_frame in E as (Eb & Es & _ & Ef); [|done].
  assert (Hh : ∀ q, held r' q <-> held r q) by (intros q; unfold held; by rewrite Eb, Es).
  split; simpl_arq; rewrite ?Eb, ?Es, ?Ef; try done; intros.
  - destruct (I5 o0 d f H) as [? [?|(? & ? & ?)]]; (split; [done|]); [by left|right]. split_and!; try done. by apply Hh.
  - apply I6. by apply Hh.
  - apply Hh. by eapply I7.
  - apply Hh. by apply I8.
  - rewrite Hh. by apply I9.
Qed.

Lemma arq_init_inv : arq_inv arq_init.
Proof.
  split; simpl; try done.
  - apply send_new_wf.
  - apply recv_new_wf.
  - intros o d f Hin. by apply elem_of_nil in Hin.
  - intros o d f Hin. by apply elem_of_nil in Hin.
  - intros o [Ho|Hin]; cbn in *; [lia|by apply elem_of_nil in Hin].
  - intros s q Hin. by apply elem_of_nil in Hin.
  - intros o Ho. unfold len in Ho. simpl in Ho. lia.
  - constructor.
  - by left.
  - intros [|i pre] post; done.
Qed.

Lemma arq_step_inv x y : arq_inv x -> arq_step x y -> arq_inv y.
Proof.
  intros Hx Hstep. pose proof (iv_send _ Hx) as Hwf. destruct Hstep; simpl_arq.
  - unfold send_reliable in H0. destruct (Z.leb_spec (permits s) 0); [done|]. injection H0 as H0.
    pose proof (push_segment_segs _ _ _ _ _ H0) as (? & ? & ? & ?).
    apply push_segment_wf in H0 as [Hw _]; [|done..]. by eapply inv_submit.
  - unfold queue_fin in H. destruct (Z.leb_spec (permits s) 0); [done|]. injection H as H.
    destruct (push_segment s [] true) as [[off s1]|] eqn:E; [|done]. injection H as <-.
    pose proof (push_segment_segs _ _ _ _ _ E) as (? & ? & ? & ?).
    apply push_segment_wf in E as [Hw _]; [|done..]. eapply inv_submit; try done. by apply wf_send_finished.
  - eapply inv_send_frame; [done|by destruct Hwf|done].
  - pose proof (poll_send_wf _ _ _ _ _ _ _ _ Hwf H) as Hw.
    pose proof (poll_send_frame _ _ _ _ _ _ _ _ Hwf H) as Hf.
    assert (Hy : arq_inv (mk_arq s' r w a sub ap)) by (by eapply inv_send_frame).
    unfold seg_on_wire. destruct (os_reliable seg) eqn:Er; [|by rewrite app_nil_r].
    apply poll_send_seg in H; [|done..]. destruct Hy as [J1 J2 J3 J4 J5 J6 J7 J8 J9 J10 J11 J12 J13]. simpl_arq.
    split; simpl_arq; try done. intros o d f [?|Hin]%elem_of_app; [by apply J5|].
    apply list_elem_of_singleton in Hin. injection Hin as -> -> ->. destruct Hx as [_ _ K3 K4 _ K6 _ K8 _ _ _ _ _]. simpl_arq.
    destruct H as [Hs|(Hd & Hfi & Hl)].
    + split; [|left; by apply K4]. unfold segs in Hs. apply list_elem_of_fmap in Hs as (p & [= Ho _ _] & Hp).
      pose proof (bo_range _ _ (ws_buffer _ Hwf)) as HF. rewrite Forall_forall in HF. specialize (HF p Hp). cbn in HF. lia.
    + pose proof (K8 _ Hl) as Hh. split; [|by right]. split; [|by apply K6].
      destruct Hh as [?|Hin]; [lia|]. destruct J2 as [? Hi _ _ _ _ _ _]. rewrite Forall_forall in Hi.
      apply list_elem_of_fmap in Hin as (e & -> & He). specialize (Hi e He). cbn in Hi. lia.
  - pose proof (poll_send_wf _ _ _ _ _ _ _ _ Hwf H) as Hw.
    pose proof (poll_send_frame _ _ _ _ _ _ _ _ Hwf H) as Hf.
    destruct (os_reliable seg); [|by eapply inv_send_frame].
    eapply inv_send_frame; [done|by apply mark_unsent_wf|]. eapply send_frame_trans; [done|apply mark_unsent_frame].
  - eapply inv_send_frame; [done|by eapply poll_send_wf|by eapply poll_send_frame].
  - by eapply inv_deliver.
  - by eapply inv_ack.
  - by eapply inv_consume.
  - eapply inv_send_frame; [done|by apply apply_limit_wf|done].
  - eapply inv_send_frame; [done|by apply wf_send_rto|done].
Qed.

Lemma arq_reachable_inv x : arq_reachable x -> arq_inv x.
Proof. induction 1 as [|x y _ IH Hstep]; [apply arq_init_inv|by eapply arq_step_inv]. Qed.

(** A receiver that holds every offset below [n] has delivered them all. *)
Lemma all_held_delivered r n :
  wf_recv r -> (∀ o, 0 <= o < n -> held r o) -> n <= recv_sequence r.
Proof.
  intros [? Hi _ _ _ _ _ _] Hall. destruct (decide (n <= recv_sequence r)); [done|]. exfalso.
  destruct (Hall (recv_sequence r)) as [?|Hin]; [lia|lia|].
  apply list_elem_of_fmap in Hin as (e & Ee & He). rewrite Forall_forall in Hi.
  specialize (Hi e He). cbn in Hi. lia.
Qed.

(** ** An executable scheduler, for concrete runs *)

Inductive arq_action :=
| ASend (data : list Z)
| AFin
| ATransmit (now cwnd : Z)
| ADeliver (i : nat) (now : Z)
| AAck (i : nat) (now : Z).

Definition arq_exec (x : arq) (act : arq_action) : arq :=
  let '(mk_arq s r w a sub ap) := x in
  match act with
  | ASend data =>
    if decide (len data < 2 ^ 32) then
      match send_reliable s data with
      | Some (Ok (_, s')) => mk_arq s' r w a (sub ++ [(data, false)]) ap
      | _ => x
      end
    else x
  | AFin => match queue_fin s with Some (Ok s') => mk_arq s' r w a (sub ++ [([], true)]) ap | _ => x end
  | ATransmit now cwnd =>
    match poll_send s now cwnd 0 0 false with
    | (Ok seg, s') => mk_arq s' r (w ++ seg_on_wire seg) a sub ap
    | (Err _, s') => mk_arq s' r w a sub ap
    end
  | ADeliver i now =>
    match w !! i with
    | Some (off, data, fin) =>
      let '(items, sack, r') := handle_reliable r now true fin (reliable_plaintext off data) in
      mk_arq s r' w (a ++ option_list sack) sub (ap ++ items)
    | None => x
    end
  | AAck i now =>
    match a !! i with
    | Some sack => mk_arq (on_sack s now sack).2 r w a sub ap
    | None => x
    end
  end.

Lemma arq_exec_reachable x act : arq_reachable x -> arq_reachable (arq_exec x act).
Proof.
  intros Hx. destruct x as [s r w a sub ap]. destruct act; cbn [arq_exec].
  - case_decide; [|done]. destruct (send_reliable s data) as [[[off s']|]|] eqn:E; [|done..].
    eapply arq_more; [done|]. by eapply arq_send.
  - destruct (queue_fin s) as [[s'|]|] eqn:E; [|done..]. eapply arq_more; [done|]. by apply arq_fin.
  - destruct (poll_send s now cwnd 0 0 false) as [[seg|why] s'] eqn:E; (eapply arq_more; [done|]).
    + by eapply arq_transmit.
    + by eapply arq_blocked.
  - destruct (w !! i) as [[[off data] fin]|] eqn:E; [|done].
    destruct (handle_reliable r now true fin _) as [[items sack] r'] eqn:Eh.
    eapply arq_more; [done|]. eapply arq_deliver; [|done]. by eapply list_elem_of_lookup_2.
  - destruct (a !! i) as [sack|] eqn:E; [|done]. destruct (on_sack s now sack) as [res s'] eqn:Eo.
    eapply arq_more; [done|]. eapply arq_ack; [|done]. by eapply list_elem_of_lookup_2.
Qed.

Lemma arq_run_reachable acts x : arq_reachable x -> arq_reachable (foldl arq_exec x acts).
Proof. revert x. induction acts as [|act acts IH]; intros x Hx; [done|]. apply IH. by apply arq_exec_reachable. Qed.

(** A run that loses the first copy of the first segment and delivers out of order. *)
Definition sample_run : list arq_action :=
  [ASend [1]; ASend [2; 2]; AFin; ATransmit 0 100; ATransmit 0 100; ATransmit 0 100;
   ADeliver 1 5; ADeliver 2 6; AAck 0 7; AAck 1 8; ATransmit (secs 2) 0; ADeliver 3 9; ADeliver 1 9; AAck 2 10].

(** ** Properties *)

(** C3: Over a network that loses, repeats and reorders frames at will, the
    application receives exactly a prefix of what the sender submitted: the chunks
    at the first offsets, in order, each once, unmodified (empty chunks, which
    carry nothing, are skipped). *)
Theorem arq_delivers_prefix (x : arq) :
  arq_reachable x ->
  data_of (app x) = nonempty_prefix (submitted x) (recv_sequence (rcv_half x)) ∧
  0 <= recv_sequence (rcv_half x) <= len (submitted x).
Proof.
  intros [? ? ? ? ? ? ? ? ? ? ? ? ?]%arq_reachable_inv. split; [done|].
  split; [by apply wr_seq|by apply seq_le_submitted].
Qed.

Lemma arq_delivers_prefix_witness :
  let x := foldl arq_exec arq_init sample_run in
  app x = [Data [1]; Data [2; 2]; Close] ∧
  data_of (app x) = nonempty_prefix (submitted x) (recv_sequence (rcv_half x)) ∧
  0 <= recv_sequence (rcv_half x) <= len (submitted x).
Proof.
  split; [vm_compute; reflexivity|]. apply arq_delivers_prefix. apply arq_run_reachable, arq_start.
Defined.

(** C4: Nothing submitted is ever lost between the two ends: each offset is still
    in the sender's buffer or held by the receiver; so once the send buffer is
    empty (which is what an acknowledged FIN means) the application has received
    everything that was submitted. *)
Theorem arq_nothing_lost (x : arq) :
  arq_reachable x ->
  (∀ o, 0 <= o < len (submitted x) ->
     o ∈ (pd_offset <$> send_buffer (snd_half x)) ∨ held (rcv_half x) o) ∧
  (send_buffer (snd_half x) = [] ->
     data_of (app x) = filter (λ d, d <> []) (submitted x).*1).
Proof.
  intros [I1 I2 I3 I4 I5 I6 I7 I8 I9 I10 I11 I12 I13]%arq_reachable_inv. split; [done|]. intros Eb.
  assert (Hge : len (submitted x) <= recv_sequence (rcv_half x)).
  { apply all_held_delivered; [done|]. intros o Ho. destruct (I9 o Ho) as [Hin|?]; [|done].
    rewrite Eb in Hin. by apply elem_of_nil in Hin. }
  rewrite I11. unfold nonempty_prefix. rewrite take_ge; [done|]. unfold len in Hge. lia.
Qed.

Lemma arq_nothing_lost_witness :
  let x := foldl arq_exec arq_init sample_run in
  is_fin_acked (snd_half x) = true ∧
  (∀ o, 0 <= o < len (submitted x) ->
     o ∈ (pd_offset <$> send_buffer (snd_half x)) ∨ held (rcv_half x) o) ∧
  (send_buffer (snd_half x) = [] ->
     data_of (app x) = filter (λ d, d <> []) (submitted x).*1).
Proof.
  split; [vm_compute; reflexivity|]. apply arq_nothing_lost. apply arq_run_reachable, arq_start.
Defined.

(** End of stream never overtakes data: when the application is told the
    stream is closed, a FIN was submitted at some offset and everything submitted
    before it has already been handed over. *)
Theorem arq_close_after_data (x : arq) (pre post : list DeliverItem) :
  arq_reachable x -> app x = pre ++ Close :: post ->
  ∃ f k d, 0 <= f < k ∧ submitted x !! Z.to_nat f = Some (d, true) ∧
           data_of pre = nonempty_prefix (submitted x) k.
Proof.
  intros [? ? ? ? ? ? ? ? ? ? ? ? I13]%arq_reachable_inv E.
  destruct (I13 pre post E) as (f & k & d & ? & _ & ? & ?). by exists f, k, d.
Qed.

Lemma arq_close_after_data_witness :
  ∃ f k d, 0 <= f < k ∧
    submitted (foldl arq_exec arq_init sample_run) !! Z.to_nat f = Some (d, true) ∧
    data_of [Data [1]; Data [2; 2]] = nonempty_prefix (submitted (foldl arq_exec arq_init sample_run)) k.
Proof.
  apply (arq_close_after_data _ _ []).
  - apply arq_run_reachable, arq_start.
  - vm_compute. reflexivity.
Defined.

(** When the acknowledgement of an in-order segment cannot be stamped (the send
    epoch is saturated) the receive path returns before handing the released run
    over: the cursor has moved past the segment, nothing was delivered, and every
    later copy of it is discarded as a duplicate. *)
Theorem unstampable_ack_drops_run (r : RecvHalf) (now now' : Z) (fin : bool) (d : list Z) :
  wf_recv r -> recv_sequence r < u_max 32 ->
  ∃ r', handle_reliable r now false fin (reliable_plaintext (recv_sequence r) d) = ([], None, r') ∧
        recv_sequence r < recv_sequence r' ∧
        (accept_in_order r' now' (recv_sequence r) [d]).1 = [].
Proof.
  intros Hwf Hlt. pose proof (wr_seq _ Hwf) as Hs. unfold handle_reliable.
  destruct (reliable_plaintext_parse (recv_sequence r) d) as (-> & -> & ->); [unfold in_u, u_max in *; lia|].
  pose proof (accept_in_order_spec (λ _, []) r now (recv_sequence r) [d] Hwf ltac:(lia)) as Ha.
  pose proof (accept_held r now (recv_sequence r) [d] Hwf ltac:(lia) ltac:(lia)) as Hh.
  destruct (accept_in_order r now (recv_sequence r) [d]) as [del r1]. destruct Ha as [A1 A2 _ _ _ _]. cbn in *.
  exists r1. split; [by destruct (received_sack r1 now 0)|].
  assert (Hgt : recv_sequence r < recv_sequence r1).
  { destruct Hh as [?|Hin]; [lia|]. apply list_elem_of_fmap in Hin as (e & Ee & He).
    destruct A1 as [_ Hi _ _ _ _ _ _]. rewrite Forall_forall in Hi. specialize (Hi e He). cbn in Hi. lia. }
  split; [done|]. by rewrite accept_held_noop by (done || left; lia).
Qed.

Lemma unstampable_ack_drops_run_witness :
  ∃ r', handle_reliable recv_new 1 false false (reliable_plaintext 0 [65]) = ([], None, r') ∧
        0 < recv_sequence r' ∧ (accept_in_order r' 2 0 [[65]]).1 = [].
Proof. apply (unstampable_ack_drops_run recv_new 1 2 false [65]); [apply recv_new_wf|done]. Defined.
