(* ===== verification/F64.v ===== *)
(** * Binary64 arithmetic as the estimator uses it

    Rust's [f64] is IEEE binary64 with rounding to nearest even, which the Standard
    Library's [SpecFloat] computes; the casts are the language's: [as f64] rounds, [as
    u64] truncates towards zero, saturates and sends NaN to zero.  Durations are
    nanoseconds. *)

From Stdlib Require Import ZArith Lia SpecFloat.
From stdpp Require Import base numbers.
From S2P Require Import Prelude.

Local Open Scope Z_scope.

Definition f64 : Type := spec_float.

(** [x as f64] for an unsigned integer. *)
Definition of_uint (x : Z) : f64 := binary_normalize 53 1024 x 0 false.
Definition f64_mul : f64 -> f64 -> f64 := SFmul 53 1024.
Definition f64_div : f64 -> f64 -> f64 := SFdiv 53 1024.
Definition f64_add : f64 -> f64 -> f64 := SFadd 53 1024.

(** [f as u64]. *)
Definition to_u64 (f : f64) : Z :=
  match f with
  | S754_zero _ | S754_nan => 0
  | S754_infinity s => if s then 0 else u_max 64
  | S754_finite s m e => if s then 0 else Z.min (Z.shiftl (Zpos m) e) (u_max 64)
  end.

(** The decimal literal [n / d], correctly rounded. *)
Definition literal (n d : Z) : f64 := f64_div (of_uint n) (of_uint d).

(** [Duration::as_secs_f64]. *)
Definition as_secs_f64 (d : Z) : f64 :=
  f64_add (of_uint (d / 1000000000)) (f64_div (of_uint (d mod 1000000000)) (of_uint 1000000000)).

Lemma to_u64_range f : in_u 64 (to_u64 f).
Proof.
  assert (H0 : in_u 64 0) by (by split). assert (Hm : in_u 64 (u_max 64)) by (by split).
  destruct f as [s|s| |s m e]; cbn [to_u64]; try done; destruct s; try done.
  assert (0 <= Z.shiftl (Zpos m) e) by (by apply Z.shiftl_nonneg). unfold in_u, u_max in *. lia.
Qed.
