(* ===== verification/WinFilter.v ===== *)
(** * The windowed filters ([WindowFilter] of [core/src/transport/bandwidth_estimator.rs])

    A deque of time-stamped samples whose front is the maximum (or minimum) over a
    horizon, kept short by a minimum separation between entries instead of truncation.
    The reading is shown to be a sample of the horizon and to dominate everything in a
    horizon one separation shorter, and the deque never to exceed its ceiling. *)

From Stdlib Require Import ZArith Lia.
From stdpp Require Import base numbers option list sorting.
From S2P Require Import Prelude Rto StreamSend.

Local Open Scope Z_scope.

(** ** The windowed filters *)

Definition WINDOW_FILTER_MAX_ENTRIES : Z := 1024.

(** Front of the deque first. *)
Record WindowFilter := mk_filter {
  window : list (Z * Z);
  window_size : Z;
  min_separation : Z;
}.

Definition filter_new (size : Z) : WindowFilter := mk_filter [] size (size / (WINDOW_FILTER_MAX_ENTRIES - 1)).

Definition set_entries (f : WindowFilter) (w : list (Z * Z)) : WindowFilter :=
  mk_filter w (window_size f) (min_separation f).

Fixpoint drop_while {A} (p : A -> bool) (l : list A) : list A :=
  match l with
  | [] => []
  | x :: l' => if p x then drop_while p l' else l
  end.

(** The loops that pop the front and the back. *)
Definition expire (f : WindowFilter) (now : Z) : WindowFilter :=
  set_entries f (drop_while (λ e, window_size f <? since now e.1) (window f)).
Definition pop_back_while (p : Z -> bool) (f : WindowFilter) : WindowFilter :=
  set_entries f (reverse (drop_while (λ e, p e.2) (reverse (window f)))).

Definition head_value (f : WindowFilter) : option Z := snd <$> head (window f).

Definition too_soon (f : WindowFilter) (now : Z) : bool :=
  match last (window f) with
  | Some (newest, _) => since now newest <? min_separation f
  | None => false
  end.

Definition push_entry (f : WindowFilter) (now value : Z) : WindowFilter := set_entries f (window f ++ [(now, value)]).

Definition push_separated_max (f : WindowFilter) (now value : Z) : WindowFilter :=
  if match head_value f with Some reading => value <? reading | None => false end && too_soon f now
  then f else push_entry f now value.
Definition push_separated_min (f : WindowFilter) (now value : Z) : WindowFilter :=
  if match head_value f with Some reading => reading <? value | None => false end && too_soon f now
  then f else push_entry f now value.

Definition update_max (f : WindowFilter) (now value : Z) : Z * WindowFilter :=
  let f1 := pop_back_while (λ v, v <=? value) (expire f now) in
  let f2 := push_separated_max f1 now value in
  (default value (head_value f2), f2).
Definition update_min (f : WindowFilter) (now value : Z) : Z * WindowFilter :=
  let f1 := pop_back_while (λ v, value <=? v) (expire f now) in
  let f2 := push_separated_min f1 now value in
  (default value (head_value f2), f2).

(** ** The filters keep their promise *)

Lemma drop_while_spec {A} (p : A -> bool) l :
  ∃ l1, l = l1 ++ drop_while p l ∧ Forall (λ x, p x = true) l1 ∧
        match drop_while p l with x :: _ => p x = false | [] => True end.
Proof.
  induction l as [|x l (l1 & E & HF & Hh)]; cbn [drop_while]; [by exists []|].
  destruct (p x) eqn:Ex; [|by exists []]. exists (x :: l1). cbn. by rewrite <- E; split_and!; [|constructor|].
Qed.

Lemma pop_back_spec p f :
  ∃ l2, window f = window (pop_back_while p f) ++ l2 ∧ Forall (λ e, p e.2 = true) l2 ∧
        match last (window (pop_back_while p f)) with Some e => p e.2 = false | None => True end.
Proof.
  destruct (drop_while_spec (λ e : Z * Z, p e.2) (reverse (window f))) as (l1 & E & HF & Hh).
  exists (reverse l1). cbn [pop_back_while set_entries window]. split_and!.
  - apply (f_equal reverse) in E. by rewrite reverse_involutive, reverse_app in E.
  - by apply Forall_reverse.
  - rewrite last_reverse. destruct (drop_while _ _); done.
Qed.

(** A later entry is at least one separation younger, and smaller. *)
Definition ordered (sep : Z) (a b : Z * Z) : Prop := a.1 + sep <= b.1 ∧ b.2 < a.2.

(** The state of a maximum filter that was offered the samples [ss] up to [now]: it
    holds some of those within the horizon, in order, and every sample is below a held
    one that is less than a separation older, unless it is about to leave the
    horizon. *)
Record max_ok (ss : list (Z * Z)) (now : Z) (f : WindowFilter) : Prop := {
  mo_held : Forall (λ e, e ∈ ss ∧ now - e.1 <= window_size f) (window f);
  mo_sorted : StronglySorted (ordered (min_separation f)) (window f);
  mo_dominated : Forall (λ s, window_size f - min_separation f < now - s.1 ∨
                   ∃ e, e ∈ window f ∧ s.2 <= e.2 ∧ s.1 < e.1 + min_separation f) ss;
  mo_past : Forall (λ s, s.1 <= now) ss;
}.

Lemma expire_ok ss now now2 f :
  0 < min_separation f <= window_size f -> now <= now2 -> max_ok ss now f -> max_ok ss now2 (expire f now2).
Proof.
  intros Hsep Hn [Hh Hs Hd Hp]. unfold expire, since, sat_sub.
  destruct (drop_while_spec (λ e : Z * Z, window_size f <? Z.max 0 (now2 - e.1)) (window f)) as (l1 & E & HF & Hhd).
  set (l := drop_while _ _) in *. rewrite E in Hh, Hs, Hd.
  rewrite Forall_forall in HF. apply Forall_app in Hh as [H1 H2].
  assert (Hsl : StronglySorted (ordered (min_separation f)) l) by (apply StronglySorted_app in Hs; apply Hs).
  split; cbn [set_entries window window_size min_separation].
  - apply Forall_forall. intros e He. rewrite Forall_forall in H2. destruct (H2 e He) as [Hin _]. split; [done|].
    rewrite Forall_forall in Hp. specialize (Hp e Hin). destruct l as [|x l']; [by apply elem_of_nil in He|].
    apply Z.ltb_ge in Hhd. apply elem_of_cons in He as [->|He]; [lia|].
    apply StronglySorted_inv in Hsl as [_ Hx]. rewrite Forall_forall in Hx. destruct (Hx e He). lia.
  - done.
  - eapply Forall_impl; [exact Hd|]. intros s [Hs'|(e & He & Hv & Ht)]; [left; lia|].
    apply elem_of_app in He as [He|He]; [|right; by exists e]. left.
    specialize (HF e He). apply Z.ltb_lt in HF.
    lia.
  - eapply Forall_impl; [exact Hp|]. cbn. lia.
Qed.

Lemma ordered_last sep l b e : StronglySorted (ordered sep) l -> last l = Some b -> e ∈ l -> e = b ∨ ordered sep e b.
Proof.
  intros Hs [l' ->]%last_Some [He| ->%list_elem_of_singleton]%elem_of_app; [right|by left].
  apply StronglySorted_app in Hs as (Hc & _ & _). apply Hc; [done|by apply list_elem_of_singleton].
Qed.

(** After the pops: what remains is above [v], and whatever lost its dominator is not. *)
Record popped (ss : list (Z * Z)) (now v : Z) (f : WindowFilter) : Prop := {
  pp_held : Forall (λ e, e ∈ ss ∧ now - e.1 <= window_size f) (window f);
  pp_sorted : StronglySorted (ordered (min_separation f)) (window f);
  pp_above : Forall (λ e, v < e.2) (window f);
  pp_dominated : Forall (λ s, window_size f - min_separation f < now - s.1 ∨ s.2 <= v ∨
                   ∃ e, e ∈ window f ∧ s.2 <= e.2 ∧ s.1 < e.1 + min_separation f) ss;
  pp_past : Forall (λ s, s.1 <= now) ss;
}.

Lemma pop_back_ok ss now v f : max_ok ss now f -> popped ss now v (pop_back_while (λ x, x <=? v) f).
Proof.
  intros [Hh Hs Hd Hp]. destruct (pop_back_spec (λ x, x <=? v) f) as (l2 & E & HF & Hl).
  rewrite E in Hh, Hs, Hd. set (f1 := pop_back_while _ f) in *. apply Forall_app in Hh as [Hh _].
  apply StronglySorted_app in Hs as (_ & Hs & _). rewrite Forall_forall in HF.
  split; try done.
  - apply Forall_forall. intros e He. destruct (last (window f1)) as [b|] eqn:El.
    + apply Z.leb_gt in Hl. destruct (ordered_last _ _ _ _ Hs El He) as [->|[_ ?]]; lia.
    + apply last_None in El. rewrite El in He. by apply elem_of_nil in He.
  - eapply Forall_impl; [exact Hd|]. intros s [?|(e & He & Hv & Ht)]; [by left|right].
    apply elem_of_app in He as [He|He]; [right; by exists e|left]. specialize (HF e He). lia.
Qed.

(** A declined sample is below a held one of almost its age. *)
Lemma declined_ok ss now v f b :
  popped ss now v f -> last (window f) = Some b -> now - b.1 < min_separation f -> max_ok (ss ++ [(now, v)]) now f.
Proof.
  intros [Hh Hs Ha Hd Hp] Hb Ht.
  assert (Hin : b ∈ window f) by (by apply last_Some_elem_of). rewrite Forall_forall in Ha. specialize (Ha b Hin).
  split; [|done| |apply Forall_app; split; [done|by constructor]].
  - eapply Forall_impl; [exact Hh|]. intros e [? ?]. split; [apply elem_of_app; by left|done].
  - apply Forall_app. split; [|constructor; [|done]; right; exists b; cbn; split_and!; [done|lia|lia]].
    apply Forall_forall. intros s Hin'. rewrite Forall_forall in Hd, Hp. specialize (Hp s Hin').
    destruct (Hd s Hin') as [?|[?|?]]; [by left| |by right]. right. exists b. split_and!; [done|lia|lia].
Qed.

Lemma pushed_ok ss now v f :
  0 < min_separation f -> 0 <= window_size f -> popped ss now v f ->
  Forall (λ e, e.1 + min_separation f <= now) (window f) -> max_ok (ss ++ [(now, v)]) now (push_entry f now v).
Proof.
  intros Hsep Hw [Hh Hs Ha Hd Hp] Hgap.
  assert (Hlast : ∀ l : list (Z * Z), (now, v) ∈ l ++ [(now, v)]) by (intros; apply elem_of_app; right; by left).
  split; cbn [push_entry set_entries window window_size min_separation].
  - apply Forall_app. split; [|constructor; [split; [done|cbn; lia]|done]].
    eapply Forall_impl; [exact Hh|]. intros e [? ?]. split; [apply elem_of_app; by left|done].
  - apply StronglySorted_app. split_and!; [|done|by repeat constructor].
    intros e x He ->%list_elem_of_singleton. rewrite Forall_forall in Hgap, Ha. split; cbn; auto.
  - apply Forall_app. split; [|constructor; [|done]; right; exists (now, v); cbn; split; [done|lia]].
    apply Forall_forall. intros s Hin. rewrite Forall_forall in Hd, Hp. specialize (Hp s Hin).
    destruct (Hd s Hin) as [?|[?|(e & ? & ?)]]; [by left| |]; right.
    + exists (now, v). cbn. split; [done|lia].
    + exists e. split; [apply elem_of_app; by left|done].
  - apply Forall_app. split; [done|by constructor].
Qed.

Lemma update_max_ok ss now now2 v f :
  0 < min_separation f <= window_size f -> now <= now2 -> max_ok ss now f ->
  max_ok (ss ++ [(now2, v)]) now2 (update_max f now2 v).2 ∧
  head_value (update_max f now2 v).2 = Some (update_max f now2 v).1.
Proof.
  intros Hsep Hn Hok. pose proof (pop_back_ok _ _ v _ (expire_ok ss now now2 f Hsep Hn Hok)) as Hpop.
  unfold update_max. cbn [fst snd]. set (f1 := pop_back_while _ _) in *.
  assert (Esep : min_separation f1 = min_separation f) by done. assert (Ewin : window_size f1 = window_size f) by done.
  clearbody f1. unfold push_separated_max, too_soon. destruct (last (window f1)) as [b|] eqn:El.
  - destruct (window f1) as [|x w] eqn:Ew; [done|].
    assert (Hhd : head_value f1 = Some x.2) by (unfold head_value; by rewrite Ew).
    assert (Hvx : v < x.2).
    { pose proof (pp_above _ _ _ _ Hpop) as Ha. rewrite Ew in Ha. by apply Forall_inv in Ha. }
    rewrite Hhd. destruct (Z.ltb_spec v x.2); [|lia]. cbn [andb]. destruct b as [bt bv].
    unfold since, sat_sub. destruct (Z.ltb_spec (Z.max 0 (now2 - bt)) (min_separation f1)) as [Hs|Hs].
    + rewrite Hhd. split; [|done]. eapply declined_ok; [done|by rewrite Ew|cbn; lia].
    + split; [|unfold head_value; cbn; by rewrite Ew]. apply pushed_ok; [lia|lia|done|].
      apply Forall_forall. intros e He. rewrite Ew in He.
      pose proof (pp_sorted _ _ _ _ Hpop) as Hso. rewrite Ew in Hso.
      destruct (ordered_last _ _ _ _ Hso El He) as [->|[? _]]; cbn in *; lia.
  - apply last_None in El. unfold head_value. rewrite El. cbn [head fmap option_fmap option_map andb].
    split; [|cbn; by rewrite El]. apply pushed_ok; [lia|lia|done|]. by rewrite El.
Qed.

Lemma ordered_span sep l x : 0 <= sep -> StronglySorted (ordered sep) (x :: l) ->
  x.1 + sep * Z.of_nat (length l) <= (default x (last l)).1.
Proof.
  intros Hsep. revert x. induction l as [|y l IH]; intros x Hs; [cbn; lia|].
  apply StronglySorted_inv in Hs as [Hs Hx]. specialize (IH y Hs). apply Forall_inv in Hx as [Hx _].
  rewrite last_cons. change (length (y :: l)) with (S (length l)). rewrite Nat2Z.inj_succ.
  destruct (last l); cbn in *; lia.
Qed.

Lemma max_ok_length ss now f :
  0 < min_separation f -> max_ok ss now f -> min_separation f * (len (window f) - 1) <= Z.max 0 (window_size f).
Proof.
  intros Hsep [Hh Hs _ Hp]. unfold len. destruct (window f) as [|x l] eqn:E; [cbn [length]; lia|].
  pose proof (ordered_span (min_separation f) l x ltac:(lia) Hs) as Hspan. apply Forall_cons in Hh as [[Hx0 Hx] Hh].
  assert (Hlast : (default x (last l)).1 <= now).
  { rewrite Forall_forall in Hp. destruct (last l) as [b|] eqn:El; cbn; apply Hp.
    - apply last_Some_elem_of in El. rewrite Forall_forall in Hh. by apply Hh.
    - done. }
  cbn [length]. lia.
Qed.

(** ** What a filter has been offered *)

Definition feed_max (f : WindowFilter) (ss : list (Z * Z)) : WindowFilter := foldl (λ f s, (update_max f s.1 s.2).2) f ss.
Definition feed_min (f : WindowFilter) (ss : list (Z * Z)) : WindowFilter := foldl (λ f s, (update_min f s.1 s.2).2) f ss.

(** Samples in the order of their times, up to [t]. *)
Definition in_time (ss : list (Z * Z)) (t : Z) : Prop := StronglySorted (λ a b, a.1 <= b.1) (ss ++ [(t, 0)]).

Lemma in_time_snoc ss t v t2 : in_time (ss ++ [(t, v)]) t2 -> in_time ss t ∧ t <= t2.
Proof.
  unfold in_time. rewrite <- app_assoc. intros (Hc & Hs & Hr)%StronglySorted_app. split.
  - apply StronglySorted_app. split_and!; [|done|by repeat constructor].
    intros a b Ha ->%list_elem_of_singleton. apply (Hc a (t, v)); [done|by left].
  - apply StronglySorted_inv in Hr as [_ Hr]. by apply Forall_inv in Hr.
Qed.

Lemma update_max_shape f t v :
  window_size (update_max f t v).2 = window_size f ∧ min_separation (update_max f t v).2 = min_separation f.
Proof. unfold update_max, push_separated_max. cbn [snd]. by destruct (_ && _). Qed.

Lemma feed_max_ok f ss t :
  0 < min_separation f <= window_size f -> window f = [] -> in_time ss t ->
  window_size (feed_max f ss) = window_size f ∧ min_separation (feed_max f ss) = min_separation f ∧
  ∃ now, now <= t ∧ max_ok ss now (feed_max f ss).
Proof.
  intros Hsep He. revert t. induction ss as [|[t2 v] ss IH] using rev_ind; intros t Ht.
  - split_and!; [done..|]. exists t. split; [lia|]. split; cbn; rewrite ?He; constructor.
  - apply in_time_snoc in Ht as [Hss Hle]. destruct (IH t2 Hss) as (E1 & E2 & now & Hn & Hok).
    unfold feed_max. rewrite foldl_app. cbn [foldl fst snd]. fold (feed_max f ss).
    destruct (update_max_shape (feed_max f ss) t2 v) as [-> ->]. split_and!; [done..|].
    exists t2. split; [done|]. apply (update_max_ok ss now); rewrite ?E1, ?E2; done.
Qed.

(** The minimum filter is the maximum filter on negated values. *)
Definition negate (f : WindowFilter) : WindowFilter := set_entries f ((λ e, (e.1, - e.2)) <$> window f).

Lemma drop_while_fmap {A B} (g : A -> B) (p : A -> bool) (q : B -> bool) l :
  (∀ x, q (g x) = p x) -> drop_while q (g <$> l) = g <$> drop_while p l.
Proof. intros Hpq. induction l as [|x l IH]; cbn; [done|]. rewrite Hpq. by destruct (p x). Qed.

Lemma update_min_negate f t v :
  negate (update_min f t v).2 = (update_max (negate f) t (- v)).2 ∧
  (update_min f t v).1 = - (update_max (negate f) t (- v)).1.
Proof.
  unfold update_min, update_max. cbn [fst snd].
  set (f1 := pop_back_while (λ x, v <=? x) (expire f t)).
  assert (E1 : pop_back_while (λ x, x <=? - v) (expire (negate f) t) = negate f1).
  { unfold f1, pop_back_while, expire, negate, set_entries. cbn [window window_size min_separation]. f_equal.
    rewrite (drop_while_fmap _ (λ e, window_size f <? since t e.1)) by done.
    rewrite <- fmap_reverse. rewrite (drop_while_fmap _ (λ e, v <=? e.2)).
    - by rewrite fmap_reverse.
    - intros x. cbn. apply eq_true_iff_eq. rewrite !Z.leb_le. lia. }
  rewrite E1. clearbody f1. unfold push_separated_min, push_separated_max, too_soon, head_value.
  cbn [negate set_entries window min_separation]. rewrite fmap_last.
  assert (Eb : match snd <$> head ((λ e : Z * Z, (e.1, - e.2)) <$> window f1) with Some reading => - v <? reading | None => false end
             = match snd <$> head (window f1) with Some reading => reading <? v | None => false end).
  { destruct (window f1) as [|x w]; [done|]. cbn. apply eq_true_iff_eq. rewrite !Z.ltb_lt. lia. }
  rewrite Eb. assert (Es : match (λ e : Z * Z, (e.1, - e.2)) <$> last (window f1) with
                           | Some (newest, _) => since t newest <? min_separation f1 | None => false end
                         = match last (window f1) with Some (newest, _) => since t newest <? min_separation f1 | None => false end).
  { by destruct (last (window f1)) as [[]|]. }
  rewrite Es. destruct (_ && _); cbn [push_entry set_entries window fst snd].
  - split; [done|]. unfold negate, set_entries. cbn [window]. destruct (window f1); cbn; lia.
  - split; [unfold negate, push_entry, set_entries; cbn; f_equal; by rewrite fmap_app|].
    unfold negate, set_entries. cbn [window]. destruct (window f1); cbn; lia.
Qed.

Lemma feed_min_negate f ss : negate (feed_min f ss) = feed_max (negate f) ((λ s, (s.1, - s.2)) <$> ss).
Proof.
  revert f. induction ss as [|[t v] ss IH]; intros f; [done|].
  change (feed_min f ((t, v) :: ss)) with (feed_min (update_min f t v).2 ss).
  rewrite (IH (update_min f t v).2). by rewrite (proj1 (update_min_negate f t v)).
Qed.

(** The reading right after the sample [(t, v)]. *)
Definition reading_max (f : WindowFilter) (ss : list (Z * Z)) (t v : Z) : Z := (update_max (feed_max f ss) t v).1.
Definition reading_min (f : WindowFilter) (ss : list (Z * Z)) (t v : Z) : Z := (update_min (feed_min f ss) t v).1.

Lemma reading_max_spec f ss t v :
  0 < min_separation f <= window_size f -> window f = [] -> in_time ss t ->
  let all := ss ++ [(t, v)] in
  (∃ t0, (t0, reading_max f ss t v) ∈ all ∧ t - t0 <= window_size f) ∧
  (∀ s, s ∈ all -> t - s.1 <= window_size f - min_separation f -> s.2 <= reading_max f ss t v) ∧
  min_separation f * (len (window (feed_max f all)) - 1) <= window_size f.
Proof.
  intros Hsep He Ht. cbv zeta. destruct (feed_max_ok f ss t Hsep He Ht) as (E1 & E2 & now & Hn & Hok).
  destruct (update_max_ok ss now t v (feed_max f ss)) as [Hok' Hhd]; [rewrite E1, E2; done|done|done|].
  destruct (update_max_shape (feed_max f ss) t v) as [S1 S2]. rewrite E1 in S1. rewrite E2 in S2.
  assert (Ef : feed_max f (ss ++ [(t, v)]) = (update_max (feed_max f ss) t v).2) by (unfold feed_max; by rewrite foldl_app).
  rewrite Ef. set (f' := (update_max (feed_max f ss) t v).2) in *.
  unfold head_value in Hhd. destruct (window f') as [|[ht hv] w] eqn:Ew; [done|]. 
  assert (Ehv : hv = reading_max f ss t v) by (by injection Hhd). clear Hhd.
  assert (Hin : (ht, hv) ∈ window f') by (rewrite Ew; by left). split_and!.
  - exists ht. rewrite <- Ehv. pose proof (mo_held _ _ _ Hok') as Hh. rewrite Forall_forall in Hh.
    specialize (Hh _ Hin). by rewrite S1 in Hh.
  - intros s Hs Hage. pose proof (mo_dominated _ _ _ Hok') as Hd. rewrite Forall_forall in Hd.
    rewrite S1, S2 in Hd. destruct (Hd s Hs) as [?|(e & He' & Hv & _)]; [lia|].
    pose proof (mo_sorted _ _ _ Hok') as Hso. rewrite Ew in Hso, He'. apply StronglySorted_inv in Hso as [_ Hso].
    apply elem_of_cons in He' as [->|He']; [by rewrite <- Ehv|]. rewrite Forall_forall in Hso. destruct (Hso e He'). cbn in *. lia.
  - pose proof (max_ok_length _ _ _ ltac:(rewrite S2; lia) Hok') as Hl. rewrite S1, S2, Ew in Hl. lia.
Qed.

Lemma in_time_negate ss t : in_time ss t -> in_time ((λ s, (s.1, - s.2)) <$> ss) t.
Proof.
  unfold in_time. intros (Hc & Hs & Hr)%StronglySorted_app. apply StronglySorted_app. split_and!; [| |done].
  - intros a b (a' & -> & Ha)%list_elem_of_fmap Hb. by apply (Hc a').
  - clear Hc Hr. induction Hs as [|s ss Hs IH Hf]; cbn; constructor; [done|]. apply Forall_fmap. done.
Qed.

Lemma reading_min_spec f ss t v :
  0 < min_separation f <= window_size f -> window f = [] -> in_time ss t ->
  let all := ss ++ [(t, v)] in
  (∃ t0, (t0, reading_min f ss t v) ∈ all ∧ t - t0 <= window_size f) ∧
  (∀ s, s ∈ all -> t - s.1 <= window_size f - min_separation f -> reading_min f ss t v <= s.2) ∧
  min_separation f * (len (window (feed_min f all)) - 1) <= window_size f.
Proof.
  intros Hsep He Ht. cbv zeta.
  assert (Hf : negate f = f) by (destruct f; unfold negate, set_entries; cbn in *; by subst).
  destruct (reading_max_spec f _ t (- v) Hsep He (in_time_negate ss t Ht)) as ((t0 & Hin & Hage) & Hdom & Hlen).
  assert (Er : reading_min f ss t v = - reading_max f ((λ s, (s.1, - s.2)) <$> ss) t (- v)).
  { unfold reading_min, reading_max. rewrite (proj2 (update_min_negate _ t v)), feed_min_negate, Hf. done. }
  set (neg := λ s : Z * Z, (s.1, - s.2)) in *.
  assert (Eall : (neg <$> ss) ++ [(t, - v)] = neg <$> (ss ++ [(t, v)])) by (by rewrite fmap_app).
  rewrite Eall in *. rewrite Er. split_and!.
  - exists t0. apply list_elem_of_fmap in Hin as ([t1 v1] & E & Hin). injection E as -> ->.
    by rewrite Z.opp_involutive.
  - intros s Hs Hage'. specialize (Hdom (neg s) ltac:(by apply list_elem_of_fmap_2) Hage').
    change (- s.2 <= reading_max f (neg <$> ss) t (- v)) in Hdom. lia.
  - rewrite <- Hf in Hlen at 2. rewrite <- feed_min_negate in Hlen. cbn in Hlen. unfold len in *. by rewrite length_fmap in Hlen.
Qed.

(** ** Property *)

(** The two filters of the estimator, of a ten-second horizon: right after a sample, the
    reading of the maximum filter is a sample of the last ten seconds and no smaller than
    any sample of a horizon one separation (9.8 ms) shorter; the minimum filter likewise
    with no larger; and neither ever holds more than 1024 entries, whatever the peer's
    timing makes the samples be. *)
Theorem window_filters_exact (ss : list (Z * Z)) (t v : Z) :
  in_time ss t ->
  let f := filter_new (secs 10) in
  let all := ss ++ [(t, v)] in
  let recent s := t - s.1 <= secs 10 - min_separation f in
  (∃ t0, (t0, reading_max f ss t v) ∈ all ∧ t - t0 <= secs 10) ∧
  (∀ s, s ∈ all -> recent s -> s.2 <= reading_max f ss t v) ∧
  (∃ t0, (t0, reading_min f ss t v) ∈ all ∧ t - t0 <= secs 10) ∧
  (∀ s, s ∈ all -> recent s -> reading_min f ss t v <= s.2) ∧
  len (window (feed_max f all)) <= WINDOW_FILTER_MAX_ENTRIES ∧ len (window (feed_min f all)) <= WINDOW_FILTER_MAX_ENTRIES.
Proof.
  intros Ht. cbv zeta. assert (Hsh : 0 < min_separation (filter_new (secs 10)) <= window_size (filter_new (secs 10))) by done.
  destruct (reading_max_spec (filter_new (secs 10)) ss t v Hsh eq_refl Ht) as (A & B & C).
  destruct (reading_min_spec (filter_new (secs 10)) ss t v Hsh eq_refl Ht) as (D & E & F).
  change (min_separation (filter_new (secs 10))) with 9775171 in *. change (window_size (filter_new (secs 10))) with 10000000000 in *.
  change (secs 10) with 10000000000 in *.
  split_and!; try done; unfold WINDOW_FILTER_MAX_ENTRIES; lia.
Qed.

(** A falling run: the old peak has left, the reading passes to its successor. *)
Lemma window_filters_exact_witness :
  let ss := [(0, 900); (secs 4, 700); (secs 4 + 1, 650); (secs 8, 500)] in
  reading_max (filter_new (secs 10)) ss (secs 11) 100 = 700 ∧
  ∃ t0, (t0, 700) ∈ ss ++ [(secs 11, 100)] ∧ secs 11 - t0 <= secs 10.
Proof.
  split; [vm_compute; reflexivity|].
  apply (window_filters_exact [(0, 900); (secs 4, 700); (secs 4 + 1, 650); (secs 8, 500)] (secs 11) 100).
  unfold in_time. cbn [app]. repeat (constructor; [|repeat (constructor; [vm_compute; congruence|]); constructor]). constructor.
Defined.
