(* ===== verification/Bbr.v ===== *)
(** * Bandwidth estimation and the congestion window
      ([core/src/transport/bandwidth_estimator.rs])

    A BBR-style estimator: windowed maximum and minimum filters over delivery rates and
    round trips, a four-state machine, a bound on the bytes in flight set by loss, and
    the flight arithmetic the send and acknowledgement paths share.  Instants and
    durations are nanoseconds; the floating-point steps are exact binary64 ([F64]). *)

From Stdlib Require Import ZArith Lia SpecFloat.
From stdpp Require Import base numbers option list sorting.
From S2P Require Import Prelude Rto StreamSend F64 WinFilter.

Local Open Scope Z_scope.

(** ** Constants *)

Definition PROBE_BW_GAINS : list f64 := [literal 5 4; literal 3 4; of_uint 1; of_uint 1].
Definition STARTUP_PACING_GAIN : f64 := of_uint 2.
Definition STARTUP_GROWTH_THRESHOLD : f64 := literal 1 4.
Definition STARTUP_ROUNDS_LIMIT : Z := 3.
Definition INITIAL_MIN_RTT : Z := millis 100.
Definition PROBE_RTT_INTERVAL : Z := secs 10.
Definition BW_FILTER_WINDOW : Z := secs 10.
Definition RTT_FILTER_WINDOW : Z := secs 10.
Definition PROBE_RTT_DURATION : Z := millis 200.
Definition PROBE_RTT_MAX_DRAIN_ROUND_TRIPS : Z := 2.
Definition PROBE_RTT_CWND_PACKETS : Z := 4.
Definition MIN_PACKET_SIZE : Z := 1400.
Definition LOSS_THRESH : f64 := literal 2 100.
Definition INFLIGHT_HI_BETA : f64 := literal 7 10.
Definition INFLIGHT_HI_FLOOR_GAIN : f64 := literal 5 4.
Definition INFLIGHT_HI_RELAX_GAIN : f64 := literal 5 4.
Definition CWND_GAIN : f64 := of_uint 2.

Definition ack_delay_adjusted_rtt (latest_rtt : Z) (rtt_floor : option Z) (ack_delay_us : Z) : Z :=
  let ack_delay := ack_delay_us * 1000 in
  match rtt_floor with
  | None => latest_rtt
  | Some floor =>
    if Z.min (floor + ack_delay) DURATION_MAX <=? latest_rtt then sat_sub latest_rtt ack_delay else latest_rtt
  end.

(** ** The estimator *)

Inductive BbrState := Startup | ProbeBW | Drain | ProbeRTT.

#[export] Instance BbrState_eq_dec : EqDecision BbrState.
Proof. solve_decision. Defined.

(** What one acknowledged segment tells the estimator. *)
Record DeliverySample := mk_sample {
  ds_delivered_bytes : Z;
  ds_delivered_at : Z;
  ds_sent_at : Z;
  ds_acked_at : Z;
  ds_packet_bytes : Z;
  ds_app_limited : bool;
  ds_ack_delay_us : Z;
  ds_rtt_sampled : bool;
}.

(** The fields of [BandwidthEstimator], grouped. *)
Record Filters := mk_filters {
  btl_bw : Z;
  min_rtt : Z;
  bw_filter : WindowFilter;
  rtt_filter : WindowFilter;
  rtt_filter_seeded : bool;
}.
Record Rounds := mk_rounds { round_count : Z; next_round_delivered : Z; round_start : bool }.
Record Ramp := mk_ramp { filled_pipe : bool; full_bw : Z; rounds_without_growth : Z }.
Record Probe := mk_probe {
  last_probe_rtt_time : Z;
  probe_rtt_entered : option Z;
  probe_rtt_reference_rtt : Z;
  probe_rtt_drained_at : option Z;
  prior_state : BbrState;
}.
Record AppLimit := mk_app { app_limited : bool; app_limited_at_delivered : Z }.
Record Loss := mk_loss { round_bytes_lost : Z; round_delivered_mark : Z; bytes_lost : Z; loss_declarations : Z }.
(** Diagnostics, which nothing in the estimator reads back. *)
Record Repairs := mk_repairs {
  bytes_retransmitted : Z;
  repairs_attributed : Z;
  declared_by_packet_threshold : Z;
  declared_by_time_threshold : Z;
  declared_by_rto : Z;
}.
Record AckStats := mk_stats {
  acked_bytes_app_limited : Z;
  acked_bytes_total : Z;
  bbr_smoothed_rtt : option Z;
  rtt_variation : Z;
  last_delivery_rate : Z;
}.
Record Passes := mk_passes {
  dry_passes_against_a_full_buffer : Z;
  peer_window_remaining : Z;
  dry_passes_with_no_peer_window : Z;
  dry_passes_with_pump_work : Z;
  drain_outcomes : list Z;
}.

Record BandwidthEstimator := mk_est {
  bbr_state : BbrState;
  pacing_gain : f64;
  cwnd_gain : f64;
  filters : Filters;
  delivered_bytes : Z;
  last_delivery : Z;
  rounds : Rounds;
  ramp : Ramp;
  inflight_bytes : Z;
  inflight_hi : option Z;
  probe : Probe;
  app : AppLimit;
  loss : Loss;
  repairs : Repairs;
  ack_stats : AckStats;
  passes : Passes;
}.

Definition est_new (now : Z) : BandwidthEstimator :=
  mk_est Startup STARTUP_PACING_GAIN CWND_GAIN
    (mk_filters 0 INITIAL_MIN_RTT (filter_new BW_FILTER_WINDOW) (filter_new RTT_FILTER_WINDOW) false)
    0 now (mk_rounds 0 0 false) (mk_ramp false 0 0) 0 None
    (mk_probe now None INITIAL_MIN_RTT None ProbeBW) (mk_app false 0) (mk_loss 0 0 0 0)
    (mk_repairs 0 0 0 0 0) (mk_stats 0 0 None 0 0) (mk_passes 0 0 0 0 [0; 0; 0; 0; 0; 0]).

(** Field updates. *)
Definition set_filters (e : BandwidthEstimator) (v : Filters) : BandwidthEstimator :=
  mk_est (bbr_state e) (pacing_gain e) (cwnd_gain e) v (delivered_bytes e) (last_delivery e)
    (rounds e) (ramp e) (inflight_bytes e) (inflight_hi e) (probe e) (app e) (loss e) (repairs e) (ack_stats e) (passes e).
Definition set_rounds (e : BandwidthEstimator) (v : Rounds) : BandwidthEstimator :=
  mk_est (bbr_state e) (pacing_gain e) (cwnd_gain e) (filters e) (delivered_bytes e) (last_delivery e)
    v (ramp e) (inflight_bytes e) (inflight_hi e) (probe e) (app e) (loss e) (repairs e) (ack_stats e) (passes e).
Definition set_ramp (e : BandwidthEstimator) (v : Ramp) : BandwidthEstimator :=
  mk_est (bbr_state e) (pacing_gain e) (cwnd_gain e) (filters e) (delivered_bytes e) (last_delivery e)
    (rounds e) v (inflight_bytes e) (inflight_hi e) (probe e) (app e) (loss e) (repairs e) (ack_stats e) (passes e).
Definition set_inflight_bytes (e : BandwidthEstimator) (v : Z) : BandwidthEstimator :=
  mk_est (bbr_state e) (pacing_gain e) (cwnd_gain e) (filters e) (delivered_bytes e) (last_delivery e)
    (rounds e) (ramp e) v (inflight_hi e) (probe e) (app e) (loss e) (repairs e) (ack_stats e) (passes e).
Definition set_inflight_hi (e : BandwidthEstimator) (v : option Z) : BandwidthEstimator :=
  mk_est (bbr_state e) (pacing_gain e) (cwnd_gain e) (filters e) (delivered_bytes e) (last_delivery e)
    (rounds e) (ramp e) (inflight_bytes e) v (probe e) (app e) (loss e) (repairs e) (ack_stats e) (passes e).
Definition set_probe (e : BandwidthEstimator) (v : Probe) : BandwidthEstimator :=
  mk_est (bbr_state e) (pacing_gain e) (cwnd_gain e) (filters e) (delivered_bytes e) (last_delivery e)
    (rounds e) (ramp e) (inflight_bytes e) (inflight_hi e) v (app e) (loss e) (repairs e) (ack_stats e) (passes e).
Definition set_app (e : BandwidthEstimator) (v : AppLimit) : BandwidthEstimator :=
  mk_est (bbr_state e) (pacing_gain e) (cwnd_gain e) (filters e) (delivered_bytes e) (last_delivery e)
    (rounds e) (ramp e) (inflight_bytes e) (inflight_hi e) (probe e) v (loss e) (repairs e) (ack_stats e) (passes e).
Definition set_loss (e : BandwidthEstimator) (v : Loss) : BandwidthEstimator :=
  mk_est (bbr_state e) (pacing_gain e) (cwnd_gain e) (filters e) (delivered_bytes e) (last_delivery e)
    (rounds e) (ramp e) (inflight_bytes e) (inflight_hi e) (probe e) (app e) v (repairs e) (ack_stats e) (passes e).
Definition set_repairs (e : BandwidthEstimator) (v : Repairs) : BandwidthEstimator :=
  mk_est (bbr_state e) (pacing_gain e) (cwnd_gain e) (filters e) (delivered_bytes e) (last_delivery e)
    (rounds e) (ramp e) (inflight_bytes e) (inflight_hi e) (probe e) (app e) (loss e) v (ack_stats e) (passes e).
Definition set_ack_stats (e : BandwidthEstimator) (v : AckStats) : BandwidthEstimator :=
  mk_est (bbr_state e) (pacing_gain e) (cwnd_gain e) (filters e) (delivered_bytes e) (last_delivery e)
    (rounds e) (ramp e) (inflight_bytes e) (inflight_hi e) (probe e) (app e) (loss e) (repairs e) v (passes e).
Definition set_passes (e : BandwidthEstimator) (v : Passes) : BandwidthEstimator :=
  mk_est (bbr_state e) (pacing_gain e) (cwnd_gain e) (filters e) (delivered_bytes e) (last_delivery e)
    (rounds e) (ramp e) (inflight_bytes e) (inflight_hi e) (probe e) (app e) (loss e) (repairs e) (ack_stats e) v.
Definition set_mode (e : BandwidthEstimator) (s : BbrState) (pg cg : f64) : BandwidthEstimator :=
  mk_est s pg cg (filters e) (delivered_bytes e) (last_delivery e)
    (rounds e) (ramp e) (inflight_bytes e) (inflight_hi e) (probe e) (app e) (loss e) (repairs e) (ack_stats e) (passes e).
Definition set_delivered (e : BandwidthEstimator) (n t : Z) : BandwidthEstimator :=
  mk_est (bbr_state e) (pacing_gain e) (cwnd_gain e) (filters e) n t
    (rounds e) (ramp e) (inflight_bytes e) (inflight_hi e) (probe e) (app e) (loss e) (repairs e) (ack_stats e) (passes e).

(** ** The windows *)

Definition est_btl_bw (e : BandwidthEstimator) : Z := btl_bw (filters e).
Definition est_min_rtt (e : BandwidthEstimator) : Z := min_rtt (filters e).
Definition rtt_floor (e : BandwidthEstimator) : option Z :=
  if rtt_filter_seeded (filters e) then Some (min_rtt (filters e)) else None.

Definition bdp (e : BandwidthEstimator) : Z :=
  to_u64 (f64_mul (of_uint (est_btl_bw e)) (as_secs_f64 (est_min_rtt e))).

Definition cwnd (e : BandwidthEstimator) : Z :=
  if bool_decide (bbr_state e = ProbeRTT) then PROBE_RTT_CWND_PACKETS * MIN_PACKET_SIZE
  else
    let target := to_u64 (f64_mul (of_uint (bdp e)) (cwnd_gain e)) in
    let bounded := match inflight_hi e with Some hi => Z.min target hi | None => target end in
    Z.max bounded (PROBE_RTT_CWND_PACKETS * MIN_PACKET_SIZE).

Definition pacing_rate_floor (e : BandwidthEstimator) : Z :=
  let rtt := as_secs_f64 (est_min_rtt e) in
  if SFleb rtt (of_uint 0) then u_max 64
  else to_u64 (f64_div (of_uint (PROBE_RTT_CWND_PACKETS * MIN_PACKET_SIZE)) rtt).

Definition pacing_rate (e : BandwidthEstimator) : Z :=
  Z.max (to_u64 (f64_mul (of_uint (est_btl_bw e)) (pacing_gain e))) (pacing_rate_floor e).

(** ** Flight, loss and application-limited bookkeeping *)

Definition on_send (e : BandwidthEstimator) (bytes : Z) : BandwidthEstimator :=
  set_inflight_bytes e (sat_add 64 (inflight_bytes e) bytes).

Definition on_retransmit (e : BandwidthEstimator) (bytes : Z) : BandwidthEstimator :=
  let e1 := set_inflight_bytes e (sat_sub (inflight_bytes e) bytes) in
  let r := repairs e1 in
  set_repairs e1 (mk_repairs (sat_add 64 (bytes_retransmitted r) bytes) (repairs_attributed r)
    (declared_by_packet_threshold r) (declared_by_time_threshold r) (declared_by_rto r)).

Definition on_loss (e : BandwidthEstimator) (bytes : Z) : BandwidthEstimator :=
  let l := loss e in
  set_loss e (mk_loss (sat_add 64 (round_bytes_lost l) bytes) (round_delivered_mark l)
    (sat_add 64 (bytes_lost l) bytes) (sat_add 64 (loss_declarations l) 1)).

Definition note_repair_ordered_by (e : BandwidthEstimator) (cause : LossCause) : BandwidthEstimator :=
  let r := repairs e in
  let '(p, t, o) := match cause with
                    | PacketThreshold => (1, 0, 0)
                    | TimeThreshold => (0, 1, 0)
                    | BothThresholds => (1, 1, 0)
                    | RtoExpired => (0, 0, 1)
                    end in
  set_repairs e (mk_repairs (bytes_retransmitted r) (sat_add 64 (repairs_attributed r) 1)
    (sat_add 64 (declared_by_packet_threshold r) p) (sat_add 64 (declared_by_time_threshold r) t)
    (sat_add 64 (declared_by_rto r) o)).

Definition note_app_limited_drain (e : BandwidthEstimator) : BandwidthEstimator :=
  if cwnd e <=? inflight_bytes e then e
  else set_app e (mk_app true (sat_add 64 (delivered_bytes e) (inflight_bytes e))).

Definition is_app_limited (e : BandwidthEstimator) : bool := app_limited (app e).

Definition note_dry_pass (e : BandwidthEstimator) (against_a_full_buffer peer_window_exhausted : bool) : BandwidthEstimator :=
  let p := passes e in
  set_passes e (mk_passes
    (if against_a_full_buffer then sat_add 64 (dry_passes_against_a_full_buffer p) 1 else dry_passes_against_a_full_buffer p)
    (peer_window_remaining p)
    (if peer_window_exhausted then sat_add 64 (dry_passes_with_no_peer_window p) 1 else dry_passes_with_no_peer_window p)
    (dry_passes_with_pump_work p) (drain_outcomes p)).
Definition note_peer_window_remaining (e : BandwidthEstimator) (bytes : Z) : BandwidthEstimator :=
  let p := passes e in
  set_passes e (mk_passes (dry_passes_against_a_full_buffer p) bytes (dry_passes_with_no_peer_window p)
    (dry_passes_with_pump_work p) (drain_outcomes p)).
Definition note_dry_pass_with_pump_work (e : BandwidthEstimator) : BandwidthEstimator :=
  let p := passes e in
  set_passes e (mk_passes (dry_passes_against_a_full_buffer p) (peer_window_remaining p)
    (dry_passes_with_no_peer_window p) (sat_add 64 (dry_passes_with_pump_work p) 1) (drain_outcomes p)).

Inductive DrainOutcome := OutDrained | OutCongestionLimited | OutFlowControlled | OutTransportRefused | OutSegmentBudget | OutPaced.

Definition outcome_index (o : DrainOutcome) : nat :=
  match o with
  | OutDrained => 0 | OutCongestionLimited => 1 | OutFlowControlled => 2
  | OutTransportRefused => 3 | OutSegmentBudget => 4 | OutPaced => 5
  end%nat.
Definition note_drain_outcome (e : BandwidthEstimator) (o : DrainOutcome) : BandwidthEstimator :=
  let p := passes e in
  set_passes e (mk_passes (dry_passes_against_a_full_buffer p) (peer_window_remaining p)
    (dry_passes_with_no_peer_window p) (dry_passes_with_pump_work p)
    (alter (λ n, sat_add 64 n 1) (outcome_index o) (drain_outcomes p))).

(** ** The state machine *)

Definition transition_to (e : BandwidthEstimator) (new_state : BbrState) : BandwidthEstimator :=
  match new_state with
  | Startup => set_mode e Startup STARTUP_PACING_GAIN CWND_GAIN
  | Drain => set_mode e Drain (literal 3 4) CWND_GAIN
  | ProbeBW => set_mode e ProbeBW (of_uint 1) CWND_GAIN
  | ProbeRTT => set_mode e ProbeRTT (of_uint 1) (of_uint 1)
  end.

Definition update_round (e : BandwidthEstimator) (packet_delivered : Z) : BandwidthEstimator :=
  let r := rounds e in
  if next_round_delivered r <=? packet_delivered
  then set_rounds e (mk_rounds (wrap 32 (round_count r + 1)) (delivered_bytes e) true)
  else set_rounds e (mk_rounds (round_count r) (next_round_delivered r) false).

Definition adapt_inflight_bound (e0 : BandwidthEstimator) (sample_app_limited : bool) : BandwidthEstimator :=
  let round_delivered := sat_sub (delivered_bytes e0) (round_delivered_mark (loss e0)) in
  let round_lost := round_bytes_lost (loss e0) in
  let e := set_loss e0 (mk_loss 0 (delivered_bytes e0) (bytes_lost (loss e0)) (loss_declarations (loss e0))) in
  let round_total := sat_add 64 round_delivered round_lost in
  if round_total =? 0 then e
  else if sample_app_limited || bool_decide (bbr_state e = ProbeRTT) || bool_decide (bbr_state e = Startup) then e
  else
    let target := to_u64 (f64_mul (of_uint (bdp e)) (cwnd_gain e)) in
    let floor := to_u64 (f64_mul (of_uint (bdp e)) INFLIGHT_HI_FLOOR_GAIN) in
    if SFltb (f64_mul (of_uint round_total) LOSS_THRESH) (of_uint round_lost) then
      let reduced := to_u64 (f64_mul (of_uint target) INFLIGHT_HI_BETA) in
      set_inflight_hi e (Some (Z.max reduced floor))
    else match inflight_hi e with
    | Some hi =>
      let relaxed := to_u64 (f64_mul (of_uint hi) INFLIGHT_HI_RELAX_GAIN) in
      set_inflight_hi e (if target <=? relaxed then None else Some (Z.max relaxed floor))
    | None => e
    end.

Definition check_startup_full_bandwidth (e : BandwidthEstimator) (sample_app_limited : bool) : BandwidthEstimator :=
  if filled_pipe (ramp e) || negb (round_start (rounds e)) || sample_app_limited then e
  else if SFleb (f64_mul (of_uint (full_bw (ramp e))) (f64_add (of_uint 1) STARTUP_GROWTH_THRESHOLD)) (of_uint (est_btl_bw e))
  then set_ramp e (mk_ramp (filled_pipe (ramp e)) (est_btl_bw e) 0)
  else
    let n := sat_add 32 (rounds_without_growth (ramp e)) 1 in
    if STARTUP_ROUNDS_LIMIT <=? n
    then transition_to (set_ramp e (mk_ramp true (full_bw (ramp e)) n)) Drain
    else set_ramp e (mk_ramp (filled_pipe (ramp e)) (full_bw (ramp e)) n).

Definition pipe_is_drained (e : BandwidthEstimator) : bool :=
  inflight_bytes e <=? PROBE_RTT_CWND_PACKETS * MIN_PACKET_SIZE.

Definition probe_rtt_hold (p : Probe) : Z := Z.max PROBE_RTT_DURATION (probe_rtt_reference_rtt p).
Definition probe_rtt_ceiling (p : Probe) : Z :=
  Z.min (Z.min (probe_rtt_reference_rtt p * PROBE_RTT_MAX_DRAIN_ROUND_TRIPS) DURATION_MAX + probe_rtt_hold p) DURATION_MAX.

Definition set_drained_at (p : Probe) (d : option Z) : Probe :=
  mk_probe (last_probe_rtt_time p) (probe_rtt_entered p) (probe_rtt_reference_rtt p) d (prior_state p).

Definition enter_probe_rtt (e : BandwidthEstimator) (now : Z) : BandwidthEstimator :=
  let e1 := transition_to e ProbeRTT in
  set_probe e1 (mk_probe (last_probe_rtt_time (probe e)) (Some now) (est_min_rtt e)
    (if pipe_is_drained e then Some now else None) (bbr_state e)).

Definition probe_rtt_step (e : BandwidthEstimator) (now : Z) : BandwidthEstimator :=
  let p := probe e in
  match probe_rtt_entered p with
  | None => transition_to (set_probe e (set_drained_at p None)) ProbeBW
  | Some entered =>
    let drained_at := if negb (pipe_is_drained e) then None
                      else match probe_rtt_drained_at p with None => Some now | Some d => Some d end in
    let measured := match drained_at with Some d => probe_rtt_hold p <=? since now d | None => false end in
    let expired := probe_rtt_ceiling p <=? since now entered in
    if measured || expired
    then transition_to (set_probe e (mk_probe now None (probe_rtt_reference_rtt p) None (prior_state p))) (prior_state p)
    else set_probe e (set_drained_at p drained_at)
  end.

Definition update_state (e : BandwidthEstimator) (now : Z) (sample_app_limited : bool) : BandwidthEstimator :=
  if bool_decide (bbr_state e ≠ ProbeRTT) && bool_decide (bbr_state e ≠ Startup) &&
     (PROBE_RTT_INTERVAL <=? since now (last_probe_rtt_time (probe e)))
  then enter_probe_rtt e now
  else match bbr_state e with
  | Startup => check_startup_full_bandwidth e sample_app_limited
  | Drain => if (inflight_bytes e <=? bdp e) || (bdp e =? 0) then transition_to e ProbeBW else e
  | ProbeBW =>
    let cycle_idx := Z.to_nat (round_count (rounds e) mod 4) in
    set_mode e ProbeBW (default (of_uint 1) (PROBE_BW_GAINS !! cycle_idx)) CWND_GAIN
  | ProbeRTT => probe_rtt_step e now
  end.

(** ** Acknowledgements *)

Definition smooth_rtt (st : AckStats) (adjusted : Z) : AckStats :=
  let '(srtt, var) := match bbr_smoothed_rtt st with
                      | None => (adjusted, adjusted / 2)
                      | Some prev => ((prev * 7 + adjusted) / 8, (rtt_variation st * 3 + Z.abs (adjusted - prev)) / 4)
                      end in
  mk_stats (acked_bytes_app_limited st) (acked_bytes_total st) (Some srtt) var (last_delivery_rate st).

(** The round-trip half of a sample. *)
Definition take_rtt (e : BandwidthEstimator) (now adjusted : Z) (sampled : bool) : BandwidthEstimator :=
  let rtt_us := Z.min (adjusted / 1000) (u_max 64) in
  if sampled && (0 <? rtt_us) then
    let '(m, flt) := update_min (rtt_filter (filters e)) now rtt_us in
    let e1 := set_filters e (mk_filters (btl_bw (filters e)) (m * 1000) (bw_filter (filters e)) flt true) in
    set_ack_stats e1 (smooth_rtt (ack_stats e1) adjusted)
  else e.

Definition delivery_rate (delivered_during interval : Z) : Z :=
  if negb (interval =? 0) && (0 <? delivered_during)
  then to_u64 (f64_div (of_uint delivered_during) (as_secs_f64 interval)) else 0.

(** The rate half. *)
Definition take_rate (e : BandwidthEstimator) (now rate : Z) (sample_app_limited : bool) : BandwidthEstimator :=
  let e1 := if 0 <? rate
            then set_ack_stats e (mk_stats (acked_bytes_app_limited (ack_stats e)) (acked_bytes_total (ack_stats e))
                   (bbr_smoothed_rtt (ack_stats e)) (rtt_variation (ack_stats e)) rate)
            else e in
  if (0 <? rate) && (negb sample_app_limited || (est_btl_bw e <=? rate)) then
    let '(m, flt) := update_max (bw_filter (filters e1)) now rate in
    set_filters e1 (mk_filters m (min_rtt (filters e1)) flt (rtt_filter (filters e1)) (rtt_filter_seeded (filters e1)))
  else e1.

Definition tally_acked (e : BandwidthEstimator) (bytes : Z) (sample_app_limited : bool) : BandwidthEstimator :=
  let st := ack_stats e in
  set_ack_stats e (mk_stats (if sample_app_limited then sat_add 64 (acked_bytes_app_limited st) bytes else acked_bytes_app_limited st)
    (sat_add 64 (acked_bytes_total st) bytes) (bbr_smoothed_rtt st) (rtt_variation st) (last_delivery_rate st)).

Definition leave_app_limited (e : BandwidthEstimator) : BandwidthEstimator :=
  if is_app_limited e && (app_limited_at_delivered (app e) <? delivered_bytes e)
  then set_app e (mk_app false (app_limited_at_delivered (app e))) else e.

(** The estimator just before the state machine runs on an acknowledgement. *)
Definition measured (e : BandwidthEstimator) (s : DeliverySample) : BandwidthEstimator :=
  let now := ds_acked_at s in
  let e1 := set_delivered (set_inflight_bytes e (sat_sub (inflight_bytes e) (ds_packet_bytes s)))
              (delivered_bytes e + ds_packet_bytes s) now in
  let e2 := update_round e1 (ds_delivered_bytes s) in
  let send_elapsed := since now (ds_sent_at s) in
  let adjusted_rtt := ack_delay_adjusted_rtt send_elapsed (rtt_floor e2) (ds_ack_delay_us s) in
  let e3 := take_rtt e2 now adjusted_rtt (ds_rtt_sampled s) in
  let delivered_during := sat_sub (delivered_bytes e3) (ds_delivered_bytes s) in
  let interval := Z.max send_elapsed (since now (ds_delivered_at s)) in
  let e4 := take_rate e3 now (delivery_rate delivered_during interval) (ds_app_limited s) in
  let e5 := leave_app_limited (tally_acked e4 (ds_packet_bytes s) (ds_app_limited s)) in
  if round_start (rounds e5) then adapt_inflight_bound e5 (ds_app_limited s) else e5.

Definition on_ack (e : BandwidthEstimator) (s : DeliverySample) : Z * Z * BandwidthEstimator :=
  let adjusted_rtt := ack_delay_adjusted_rtt (since (ds_acked_at s) (ds_sent_at s)) (rtt_floor e) (ds_ack_delay_us s) in
  let e' := update_state (measured e s) (ds_acked_at s) (ds_app_limited s) in
  (pacing_rate e', adjusted_rtt, e').

(** ** What the parts of [on_ack] touch *)

Ltac bbr_frame := repeat first [done | case_match | progress cbn].

Lemma adapt_frame e b :
  let e' := adapt_inflight_bound e b in
  bbr_state e' = bbr_state e ∧ pacing_gain e' = pacing_gain e ∧ cwnd_gain e' = cwnd_gain e ∧ filters e' = filters e ∧
  inflight_bytes e' = inflight_bytes e ∧ probe e' = probe e ∧ ramp e' = ramp e ∧ rounds e' = rounds e.
Proof. unfold adapt_inflight_bound. cbv zeta. split_and!; bbr_frame. Qed.

Lemma take_rtt_frame e now a b :
  let e' := take_rtt e now a b in
  bbr_state e' = bbr_state e ∧ pacing_gain e' = pacing_gain e ∧ cwnd_gain e' = cwnd_gain e ∧ inflight_bytes e' = inflight_bytes e ∧
  probe e' = probe e ∧ ramp e' = ramp e.
Proof. unfold take_rtt. cbv zeta. split_and!; bbr_frame. Qed.

Lemma take_rate_frame e now r b :
  let e' := take_rate e now r b in
  bbr_state e' = bbr_state e ∧ pacing_gain e' = pacing_gain e ∧ cwnd_gain e' = cwnd_gain e ∧ inflight_bytes e' = inflight_bytes e ∧
  probe e' = probe e ∧ ramp e' = ramp e ∧ min_rtt (filters e') = min_rtt (filters e) ∧
  rtt_filter (filters e') = rtt_filter (filters e) ∧ rtt_filter_seeded (filters e') = rtt_filter_seeded (filters e).
Proof. unfold take_rate. cbv zeta. split_and!; bbr_frame. Qed.

Lemma update_state_frame e now b :
  inflight_bytes (update_state e now b) = inflight_bytes e ∧ filters (update_state e now b) = filters e.
Proof.
  unfold update_state, enter_probe_rtt, probe_rtt_step, check_startup_full_bandwidth, transition_to. split; bbr_frame.
Qed.

Lemma leave_tally_frame e n b :
  let e' := leave_app_limited (tally_acked e n b) in
  bbr_state e' = bbr_state e ∧ pacing_gain e' = pacing_gain e ∧ cwnd_gain e' = cwnd_gain e ∧ inflight_bytes e' = inflight_bytes e ∧
  probe e' = probe e ∧ ramp e' = ramp e ∧ filters e' = filters e.
Proof. unfold leave_app_limited, tally_acked. cbv zeta. split_and!; bbr_frame. Qed.

Lemma measured_frame e s :
  let e' := measured e s in
  bbr_state e' = bbr_state e ∧ pacing_gain e' = pacing_gain e ∧ cwnd_gain e' = cwnd_gain e ∧ probe e' = probe e ∧ ramp e' = ramp e ∧
  inflight_bytes e' = sat_sub (inflight_bytes e) (ds_packet_bytes s).
Proof.
  cbv zeta. unfold measured. set (e2 := update_round _ _).
  assert (H2 : bbr_state e2 = bbr_state e ∧ pacing_gain e2 = pacing_gain e ∧ cwnd_gain e2 = cwnd_gain e ∧ probe e2 = probe e ∧
    ramp e2 = ramp e ∧ inflight_bytes e2 = sat_sub (inflight_bytes e) (ds_packet_bytes s)).
  { unfold e2, update_round. split_and!; bbr_frame. }
  set (e3 := take_rtt e2 _ _ _). destruct (take_rtt_frame e2 (ds_acked_at s)
    (ack_delay_adjusted_rtt (since (ds_acked_at s) (ds_sent_at s)) (rtt_floor e2) (ds_ack_delay_us s)) (ds_rtt_sampled s))
    as (A1 & A2 & A3 & A4 & A5 & A6). fold e3 in A1, A2, A3, A4, A5, A6.
  set (e4 := take_rate e3 _ _ _). pose proof (take_rate_frame e3 (ds_acked_at s)
    (delivery_rate (sat_sub (delivered_bytes e3) (ds_delivered_bytes s))
      (Z.max (since (ds_acked_at s) (ds_sent_at s)) (since (ds_acked_at s) (ds_delivered_at s)))) (ds_app_limited s))
    as (B1 & B2 & B3 & B4 & B5 & B6 & _). fold e4 in B1, B2, B3, B4, B5, B6.
  pose proof (leave_tally_frame e4 (ds_packet_bytes s) (ds_app_limited s)) as (C1 & C2 & C3 & C4 & C5 & C6 & _).
  set (e5 := leave_app_limited _) in *. pose proof (adapt_frame e5 (ds_app_limited s)) as (D1 & D2 & D3 & _ & D4 & D5 & D6 & _).
  destruct H2 as (F1 & F2 & F3 & F4 & F5 & F6).
  destruct (round_start (rounds e5)); split_and!; congruence.
Qed.

(** ** Runs *)

Inductive bbr_op :=
| BSend (bytes : Z)
| BAck (s : DeliverySample)
| BRetransmit (bytes : Z)
| BLoss (bytes : Z)
| BDry.

Definition bbr_step (e : BandwidthEstimator) (o : bbr_op) : BandwidthEstimator :=
  match o with
  | BSend n => on_send e n
  | BAck s => (on_ack e s).2
  | BRetransmit n => on_retransmit e n
  | BLoss n => on_loss e n
  | BDry => note_app_limited_drain e
  end.

(** The round trips the endpoint's own clock timed, Karn's rule applied. *)
Definition timed (os : list bbr_op) : list Z :=
  omap (λ o, match o with
             | BAck s => if ds_rtt_sampled s then Some (since (ds_acked_at s) (ds_sent_at s)) else None
             | _ => None
             end) os.

(** Everything in the round-trip filter, and the minimum once there is one, is at or
    above some round trip of [ts], to the microsecond the filter keeps. *)
Record rtt_ok (ts : list Z) (e : BandwidthEstimator) : Prop := {
  ro_entries : Forall (λ x, ∃ r, r ∈ ts ∧ r / 1000 <= x.2) (window (rtt_filter (filters e)));
  ro_floor : rtt_filter_seeded (filters e) = true -> ∃ r, r ∈ ts ∧ r / 1000 * 1000 <= min_rtt (filters e);
}.

Lemma update_min_entries f t v :
  Forall (λ x, x ∈ window f ∨ x = (t, v)) (window (update_min f t v).2) ∧
  ((update_min f t v).1 = v ∨ ∃ t0, (t0, (update_min f t v).1) ∈ window (update_min f t v).2).
Proof.
  unfold update_min. cbn [fst snd]. destruct (pop_back_spec (λ x, v <=? x) (expire f t)) as (l2 & E & _).
  set (f1 := pop_back_while _ _) in *. set (f2 := push_separated_min f1 t v).
  assert (H1 : Forall (λ x, x ∈ window f) (window f1)).
  { apply Forall_forall. intros x Hx. assert (Hx' : x ∈ window (expire f t)) by (rewrite E; apply elem_of_app; by left).
    destruct (drop_while_spec (λ e : Z * Z, window_size f <? since t e.1) (window f)) as (l1 & E' & _).
    rewrite E'. apply elem_of_app. by right. }
  assert (H2 : Forall (λ x, x ∈ window f ∨ x = (t, v)) (window f2)).
  { assert (H1' : Forall (λ x, x ∈ window f ∨ x = (t, v)) (window f1)) by (eapply Forall_impl; [exact H1|]; by left).
    unfold f2, push_separated_min. destruct (_ && _); [done|]. cbn [push_entry set_entries window].
    apply Forall_app. split; [done|]. constructor; [by right|done]. }
  split; [done|]. unfold head_value. destruct (window f2) as [|[t0 v0] w]; [by left|right]. exists t0. by left.
Qed.

Lemma rtt_ok_mono ts ts' e : (∀ r, r ∈ ts -> r ∈ ts') -> rtt_ok ts e -> rtt_ok ts' e.
Proof.
  intros Hs [H1 H2]. split.
  - eapply Forall_impl; [exact H1|]. intros x (r & ? & ?). exists r. auto.
  - intros Hseed. destruct (H2 Hseed) as (r & ? & ?). exists r. auto.
Qed.

Lemma rtt_ok_same ts e e' :
  rtt_filter (filters e') = rtt_filter (filters e) -> min_rtt (filters e') = min_rtt (filters e) ->
  rtt_filter_seeded (filters e') = rtt_filter_seeded (filters e) -> rtt_ok ts e -> rtt_ok ts e'.
Proof. intros E1 E2 E3 [H1 H2]. split; rewrite ?E1, ?E2, ?E3; done. Qed.

(** The guard of [ack_delay_adjusted_rtt] at work: the sample that enters is never below
    both the round trip just timed and the current floor. *)
Lemma take_rtt_ok ts e now latest delay (sampled : bool) :
  0 <= latest <= u_max 64 -> 0 <= delay -> rtt_ok ts e ->
  rtt_ok (ts ++ (if sampled then [latest] else [])) (take_rtt e now (ack_delay_adjusted_rtt latest (rtt_floor e) delay) sampled).
Proof.
  intros Hl Hd Hok. set (ts' := ts ++ (if sampled then [latest] else [])).
  assert (Hok' : rtt_ok ts' e) by (eapply rtt_ok_mono; [|exact Hok]; intros; apply elem_of_app; by left).
  unfold take_rtt. set (a := ack_delay_adjusted_rtt _ _ _).
  destruct sampled; [|done]. cbn [andb]. destruct (Z.ltb_spec 0 (Z.min (a / 1000) (u_max 64))) as [Hpos|]; [|done].
  set (us := Z.min (a / 1000) (u_max 64)) in *.
  assert (Hus : ∃ r, r ∈ ts' ∧ r / 1000 <= us).
  { assert (Hraw : ∃ r, r ∈ ts' ∧ r / 1000 <= latest / 1000) by (exists latest; split; [apply elem_of_app; right; by left|done]).
    assert (Hbound : latest / 1000 <= u_max 64) by (etrans; [apply (Z.div_le_upper_bound _ _ latest)|]; lia).
    assert (Hcase : a = latest ∨ ∃ m, rtt_floor e = Some m ∧ m <= a <= latest).
    { unfold a, ack_delay_adjusted_rtt. destruct (rtt_floor e) as [m|]; [|by left].
      destruct (Z.leb_spec (Z.min (m + delay * 1000) DURATION_MAX) latest) as [Hle|]; [|by left].
      right. exists m. unfold sat_sub, DURATION_MAX, u_max in *. split; [done|]. lia. }
    destruct Hcase as [Ea|(m & Em & Hm)].
    - destruct Hraw as (r & Hr & Hle). exists r. split; [done|]. unfold us. rewrite Ea. lia.
    - unfold rtt_floor in Em. destruct (rtt_filter_seeded (filters e)) eqn:Es; [|done]. injection Em as <-.
      destruct (ro_floor _ _ Hok' Es) as (r & Hr & Hle). exists r. split; [done|]. unfold us.
      assert (r / 1000 <= a / 1000) by (apply Z.div_le_lower_bound; lia).
      assert (a / 1000 <= latest / 1000) by (apply Z.div_le_mono; lia). lia. }
  destruct (update_min_entries (rtt_filter (filters e)) now us) as [Hent Hread].
  destruct (update_min (rtt_filter (filters e)) now us) as [m flt]. cbn [fst snd] in *.
  assert (Hflt : Forall (λ x, ∃ r, r ∈ ts' ∧ r / 1000 <= x.2) (window flt)).
  { eapply Forall_impl; [exact Hent|]. intros x [Hx| ->]; [|done].
    pose proof (ro_entries _ _ Hok') as He. rewrite Forall_forall in He. by apply He. }
  split; cbn; [done|]. intros _. destruct Hread as [->|(t0 & Hin)].
  - destruct Hus as (r & ? & ?). exists r. split; [done|lia].
  - rewrite Forall_forall in Hflt. destruct (Hflt _ Hin) as (r & ? & Hr). exists r. cbn in Hr. split; [done|lia].
Qed.

(** Well-formed inputs: clock readings that fit, a claimed delay that is not negative. *)
Definition bbr_op_ok (o : bbr_op) : Prop :=
  match o with
  | BAck s => since (ds_acked_at s) (ds_sent_at s) <= u_max 64 ∧ 0 <= ds_ack_delay_us s ∧ 0 <= ds_packet_bytes s
  | BSend n | BRetransmit n | BLoss n => 0 <= n
  | BDry => True
  end.

Lemma measured_rtt e s ts :
  bbr_op_ok (BAck s) -> rtt_ok ts e -> rtt_ok (ts ++ timed [BAck s]) (measured e s).
Proof.
  intros (Hl & Hd & _) Hok. unfold measured. set (e2 := update_round _ _).
  assert (E2 : filters e2 = filters e) by (unfold e2, update_round; bbr_frame).
  assert (Hok2 : rtt_ok ts e2) by (apply (rtt_ok_same ts e); rewrite ?E2; done).
  assert (Hl0 : 0 <= since (ds_acked_at s) (ds_sent_at s) <= u_max 64) by (unfold since, sat_sub in *; lia).
  pose proof (take_rtt_ok ts e2 (ds_acked_at s) _ (ds_ack_delay_us s) (ds_rtt_sampled s) Hl0 Hd Hok2) as Hok3.
  assert (Et : timed [BAck s] = if ds_rtt_sampled s then [since (ds_acked_at s) (ds_sent_at s)] else [])
    by (cbn; by destruct (ds_rtt_sampled s)). rewrite Et.
  set (e3 := take_rtt e2 _ _ _) in *. set (e4 := take_rate e3 _ _ _).
  pose proof (take_rate_frame e3 (ds_acked_at s)
    (delivery_rate (sat_sub (delivered_bytes e3) (ds_delivered_bytes s))
      (Z.max (since (ds_acked_at s) (ds_sent_at s)) (since (ds_acked_at s) (ds_delivered_at s)))) (ds_app_limited s))
    as (_ & _ & _ & _ & _ & _ & B1 & B2 & B3). fold e4 in B1, B2, B3.
  pose proof (leave_tally_frame e4 (ds_packet_bytes s) (ds_app_limited s)) as (_ & _ & _ & _ & _ & _ & C).
  set (e5 := leave_app_limited _) in *. pose proof (adapt_frame e5 (ds_app_limited s)) as (_ & _ & _ & D & _).
  assert (Hok5 : rtt_ok (ts ++ (if ds_rtt_sampled s then [since (ds_acked_at s) (ds_sent_at s)] else [])) e5)
    by (apply (rtt_ok_same _ e3); rewrite ?C, ?B1, ?B2, ?B3; done).
  destruct (round_start (rounds e5)); [|done]. by apply (rtt_ok_same _ e5); rewrite ?D.
Qed.

Lemma bbr_run_rtt os e ts :
  Forall bbr_op_ok os -> rtt_ok ts e -> rtt_ok (ts ++ timed os) (foldl bbr_step e os).
Proof.
  revert e ts. induction os as [|o os IH]; intros e ts HF Hok; [by rewrite app_nil_r|].
  apply Forall_cons in HF as [Ho HF].
  assert (Et : timed (o :: os) = timed [o] ++ timed os) by apply (omap_app _ [o] os).
  rewrite Et, app_assoc. apply IH; [done|].
  destruct o as [n|s|n|n|]; cbn [bbr_step]; try (rewrite app_nil_r; by apply (rtt_ok_same _ e)).
  - pose proof (measured_rtt e s ts Ho Hok) as Hm. unfold on_ack. cbn [snd].
    destruct (update_state_frame (measured e s) (ds_acked_at s) (ds_app_limited s)) as [_ E].
    by apply (rtt_ok_same _ (measured e s)); rewrite ?E.
  - rewrite app_nil_r. apply (rtt_ok_same _ e); try done; unfold note_app_limited_drain; by destruct (_ <=? _).
Qed.

(** ** Properties *)

(** Whatever acknowledgement delays the peer claims, the minimum round trip the window
    is sized by is never below the smallest round trip this endpoint's own clock timed
    (to the microsecond). *)
Theorem min_rtt_is_locally_timed (now m : Z) (os : list bbr_op) :
  Forall bbr_op_ok os -> rtt_floor (foldl bbr_step (est_new now) os) = Some m ->
  ∃ r, r ∈ timed os ∧ r / 1000 * 1000 <= m.
Proof.
  intros HF. pose proof (bbr_run_rtt os (est_new now) [] HF ltac:(by split)) as [_ Hm].
  unfold rtt_floor. destruct (rtt_filter_seeded _); [|done]. intros [= <-]. by apply Hm.
Qed.

(** A peer that claims to have held its acknowledgements for nearly the whole round
    trip. *)
Definition claimed_acks : list bbr_op :=
  (λ p : Z * Z, BAck (mk_sample 0 0 (millis p.1) (millis (p.1 + 200)) 1000 false p.2 true))
    <$> [(0, 0); (10, 199900); (20, 150000); (30, 1000)].

Lemma min_rtt_is_locally_timed_witness :
  rtt_floor (foldl bbr_step (est_new 0) claimed_acks) = Some (millis 200) ∧
  ∃ r, r ∈ timed claimed_acks ∧ r / 1000 * 1000 <= millis 200.
Proof.
  split; [vm_compute; reflexivity|]. apply (min_rtt_is_locally_timed 0 (millis 200) claimed_acks); [|vm_compute; reflexivity].
  repeat (apply Forall_cons; split; [vm_compute; split_and!; congruence|]). apply Forall_nil_2.
Defined.

(** ** The state machine *)

Record mode_ok (e : BandwidthEstimator) : Prop := {
  md_startup : bbr_state e = Startup <-> filled_pipe (ramp e) = false;
  md_entered : bbr_state e = ProbeRTT <-> is_Some (probe_rtt_entered (probe e));
  md_prior : prior_state (probe e) = Drain ∨ prior_state (probe e) = ProbeBW;
  md_gain : bbr_state e ≠ ProbeRTT -> cwnd_gain e = CWND_GAIN;
}.

Inductive bbr_edge : BbrState -> BbrState -> Prop :=
| edge_stay s : bbr_edge s s
| edge_filled : bbr_edge Startup Drain
| edge_drained : bbr_edge Drain ProbeBW
| edge_probe s : s = Drain ∨ s = ProbeBW -> bbr_edge s ProbeRTT
| edge_resume s : s = Drain ∨ s = ProbeBW -> bbr_edge ProbeRTT s.

Lemma mode_ok_frame e e' :
  bbr_state e' = bbr_state e -> cwnd_gain e' = cwnd_gain e -> probe e' = probe e -> ramp e' = ramp e -> mode_ok e -> mode_ok e'.
Proof. intros E1 E2 E3 E4 [H1 H2 H3 H4]. split; rewrite ?E1, ?E2, ?E3, ?E4; done. Qed.

Lemma check_startup_mode e b :
  bbr_state e = Startup -> mode_ok e ->
  mode_ok (check_startup_full_bandwidth e b) ∧ bbr_edge Startup (bbr_state (check_startup_full_bandwidth e b)).
Proof.
  intros Es [H1 H2 H3 H4]. unfold check_startup_full_bandwidth.
  destruct (_ || _ || _); [by rewrite Es; split; [|constructor]|].
  destruct (SFleb _ _); [split; [split; cbn; rewrite ?Es in *; naive_solver|cbn; rewrite Es; constructor]|].
  destruct (_ <=? _); [|split; [split; cbn; rewrite ?Es in *; naive_solver|cbn; rewrite Es; constructor]].
  split; [|constructor]. split; cbn; [done| |done|done]. rewrite Es in H2. split; [done|]. intros Hp. by apply H2 in Hp.
Qed.

Lemma probe_rtt_step_mode e now :
  bbr_state e = ProbeRTT -> mode_ok e ->
  mode_ok (probe_rtt_step e now) ∧ bbr_edge ProbeRTT (bbr_state (probe_rtt_step e now)).
Proof.
  intros Es [H1 H2 H3 H4]. rewrite Es in *. assert (Hf : filled_pipe (ramp e) = true).
  { destruct (filled_pipe (ramp e)); [done|]. by destruct H1 as [_ H1]; specialize (H1 eq_refl). }
  unfold probe_rtt_step. destruct (proj1 H2 eq_refl) as [entered He]. rewrite He.
  destruct (_ || _).
  - split; [|destruct H3 as [-> | ->]; constructor; auto].
    destruct H3 as [E3|E3]; rewrite E3; split; cbn; rewrite ?Hf, ?E3; auto; split; try done; by intros [? ?].
  - split; [|cbn; rewrite Es; constructor]. split; cbn; rewrite ?Es, ?He, ?Hf; auto; done.
Qed.

Lemma update_state_mode e now b :
  mode_ok e -> mode_ok (update_state e now b) ∧ bbr_edge (bbr_state e) (bbr_state (update_state e now b)).
Proof.
  intros Hok. pose proof Hok as [H1 H2 H3 H4]. unfold update_state.
  assert (Hf : bbr_state e ≠ Startup -> filled_pipe (ramp e) = true) by (destruct (filled_pipe (ramp e)); naive_solver).
  destruct (bool_decide_reflect (bbr_state e ≠ ProbeRTT)) as [Hr|Hr]; cbn [andb].
  2:{ destruct (bbr_state e) eqn:Es; try (exfalso; apply Hr; done). by apply probe_rtt_step_mode. }
  destruct (bool_decide_reflect (bbr_state e ≠ Startup)) as [Hs|Hs]; cbn [andb].
  2:{ destruct (bbr_state e) eqn:Es; try (exfalso; apply Hs; done). by apply check_startup_mode. }
  specialize (Hf Hs).
  assert (Hprior : bbr_state e = Drain ∨ bbr_state e = ProbeBW) by (destruct (bbr_state e); auto; done).
  destruct (_ <=? since now _).
  { unfold enter_probe_rtt. split; [|by constructor]. split; cbn; rewrite ?Hf; try done. }
  destruct Hprior as [Es|Es]; rewrite Es in *.
  - destruct (_ || _); [|split; [done|rewrite Es; constructor]].
    split; [|cbn; constructor]. split; cbn; rewrite ?Hf; try done. split; [done|]. intros Hp. by apply H2 in Hp.
  - split; [|constructor]. split; cbn; rewrite ?Hf; try done.
Qed.

Lemma bbr_step_mode e o : mode_ok e -> mode_ok (bbr_step e o) ∧ bbr_edge (bbr_state e) (bbr_state (bbr_step e o)).
Proof.
  intros Hok. destruct o as [n|s|n|n|]; cbn [bbr_step];
    try (split; [by apply (mode_ok_frame e)|apply edge_stay]).
  - unfold on_ack. cbn [snd]. destruct (measured_frame e s) as (E1 & E2 & E3 & E4 & E5 & _).
    rewrite <- E1. apply update_state_mode. by apply (mode_ok_frame e).
  - unfold note_app_limited_drain. destruct (_ <=? _); (split; [by apply (mode_ok_frame e)|apply edge_stay]).
Qed.

Lemma bbr_run_mode os e : mode_ok e -> mode_ok (foldl bbr_step e os).
Proof. revert e. induction os as [|o os IH]; intros e Hok; [done|]. apply IH, bbr_step_mode, Hok. Qed.

Lemma est_new_mode now : mode_ok (est_new now).
Proof. split; cbn; try done; auto. Qed.

Lemma cwnd_bounds e :
  PROBE_RTT_CWND_PACKETS * MIN_PACKET_SIZE <= cwnd e <= u_max 64 ∧
  (bbr_state e = ProbeRTT -> cwnd e = PROBE_RTT_CWND_PACKETS * MIN_PACKET_SIZE).
Proof.
  unfold cwnd. destruct (bool_decide_reflect (bbr_state e = ProbeRTT)) as [|Hs]; [by split|].
  split; [|done]. pose proof (to_u64_range (f64_mul (of_uint (bdp e)) (cwnd_gain e))) as Ht.
  unfold in_u, PROBE_RTT_CWND_PACKETS, MIN_PACKET_SIZE, u_max in *. destruct (inflight_hi e); lia.
Qed.

(** Whatever is sent, acknowledged, lost or repaired: the ramp ends once and for all
    with the pipe filled, ProbeRTT is entered only from the two states it returns to,
    the four states follow the edges of [bbr_edge], and the window never falls below
    four packets, to which ProbeRTT holds it. *)
Theorem bbr_modes_sound (now : Z) (os : list bbr_op) (o : bbr_op) :
  let e := foldl bbr_step (est_new now) os in
  let e' := bbr_step e o in
  bbr_edge (bbr_state e) (bbr_state e') ∧
  (bbr_state e' = Startup <-> filled_pipe (ramp e') = false) ∧
  (bbr_state e' = ProbeRTT <-> is_Some (probe_rtt_entered (probe e'))) ∧
  (bbr_state e' ≠ ProbeRTT -> cwnd_gain e' = CWND_GAIN) ∧
  PROBE_RTT_CWND_PACKETS * MIN_PACKET_SIZE <= cwnd e' <= u_max 64 ∧
  (bbr_state e' = ProbeRTT -> cwnd e' = PROBE_RTT_CWND_PACKETS * MIN_PACKET_SIZE).
Proof.
  cbv zeta. destruct (bbr_step_mode _ o (bbr_run_mode os _ (est_new_mode now))) as [[H1 H2 _ H4] He].
  split_and!; [done|done|done|done|apply cwnd_bounds..].
Qed.

(** One operation during ProbeRTT: the episode goes on unchanged, or it is over; and
    an acknowledgement at or past the ceiling ends it. *)
Lemma probe_rtt_episode e o t0 c :
  mode_ok e -> bbr_state e = ProbeRTT -> probe_rtt_entered (probe e) = Some t0 -> probe_rtt_ceiling (probe e) = c ->
  let e' := bbr_step e o in
  (bbr_state e' ≠ ProbeRTT) ∨
  (bbr_state e' = ProbeRTT ∧ probe_rtt_entered (probe e') = Some t0 ∧ probe_rtt_ceiling (probe e') = c ∧
   match o with BAck s => since (ds_acked_at s) t0 < c | _ => True end).
Proof.
  intros Hok Es Et Ec. destruct o as [n|s|n|n|]; cbn [bbr_step];
    try (right; cbn; rewrite ?Es, ?Et, ?Ec; by split_and!).
  2:{ right. unfold note_app_limited_drain. destruct (_ <=? _); cbn; rewrite ?Es, ?Et, ?Ec; by split_and!. }
  unfold on_ack. cbn [snd]. destruct (measured_frame e s) as (E1 & _ & _ & E4 & _).
  set (m := measured e s) in *. unfold update_state. rewrite E1, Es. cbn [andb].
  rewrite bool_decide_eq_false_2 by (intros H'; by apply H'). cbn [andb].
  unfold probe_rtt_step. rewrite E4, Et, Ec. destruct (md_prior _ Hok) as [Hp|Hp]; rewrite Hp.
  all: destruct (c <=? since (ds_acked_at s) t0) eqn:Ex; rewrite ?orb_true_r, ?orb_false_r; [by left|].
  all: apply Z.leb_gt in Ex; match goal with |- context[if ?b then transition_to _ _ else _] => destruct b end; [by left|].
  all: right; cbn; rewrite E1, Es; split_and!; try done; by rewrite <- Ec.
Qed.

(** ProbeRTT always ends: once acknowledgements keep arriving past its ceiling, which is
    at most three of the round trips it was entered with and 200 ms, the estimator
    leaves the state. *)
Theorem probe_rtt_ends (now t0 : Z) (os later : list bbr_op) (s : DeliverySample) :
  let e := foldl bbr_step (est_new now) os in
  probe_rtt_entered (probe e) = Some t0 -> 0 <= probe_rtt_reference_rtt (probe e) ->
  BAck s ∈ later -> 3 * probe_rtt_reference_rtt (probe e) + PROBE_RTT_DURATION <= since (ds_acked_at s) t0 ->
  ∃ n, bbr_state (foldl bbr_step e (take n later)) ≠ ProbeRTT.
Proof.
  cbv zeta. set (e := foldl _ _ _). intros Et Href Hin Htime.
  assert (Hok : mode_ok e) by apply bbr_run_mode, est_new_mode.
  assert (Es : bbr_state e = ProbeRTT) by (apply (md_entered _ Hok); by rewrite Et).
  assert (Hc : probe_rtt_ceiling (probe e) <= since (ds_acked_at s) t0).
  { unfold probe_rtt_ceiling, probe_rtt_hold, PROBE_RTT_MAX_DRAIN_ROUND_TRIPS, PROBE_RTT_DURATION, millis in *. lia. }
  remember (probe_rtt_ceiling (probe e)) as c eqn:Ec. symmetry in Ec. clear Href Htime. clearbody e.
  revert e Et Hok Es Ec. induction later as [|o later IH]; intros e Et Hok Es Ec; [by apply elem_of_nil in Hin|].
  destruct (probe_rtt_episode e o t0 c Hok Es Et Ec) as [Hl|(Hs & Ht & Hc' & Ho)]; [by exists 1%nat|].
  apply elem_of_cons in Hin as [<-|Hin]; [lia|].
  destruct (IH Hin (bbr_step e o)) as [n Hn]; try done; [by apply bbr_step_mode|]. by exists (S n).
Qed.

(** A steady path: one segment and one acknowledgement every 100 ms. *)
Definition steady_ack (i : Z) : bbr_op :=
  BAck (mk_sample (1000 * i) (millis (100 * i)) (millis (100 * i)) (millis (100 * (i + 1))) 1000 false 0 true).

Lemma probe_rtt_ends_witness :
  let e := foldl bbr_step (est_new 0) (steady_ack <$> seqZ 0 100) in
  bbr_state e = ProbeRTT ∧ probe_rtt_entered (probe e) = Some (secs 10) ∧
  ∃ n, bbr_state (foldl bbr_step e (take n (steady_ack <$> seqZ 100 10))) ≠ ProbeRTT.
Proof.
  split; [vm_compute; reflexivity|]. split; [vm_compute; reflexivity|].
  apply (probe_rtt_ends 0 (secs 10) (steady_ack <$> seqZ 0 100) (steady_ack <$> seqZ 100 10)
    (mk_sample 109000 (millis 10900) (millis 10900) (millis 11000) 1000 false 0 true)).
  - vm_compute. reflexivity.
  - vm_compute. congruence.
  - apply list_elem_of_fmap. exists 109. split; [reflexivity|]. apply elem_of_seqZ. lia.
  - vm_compute. congruence.
Defined.

(** ** Flight accounting across the two tasks *)

(** The send task writes a segment and books it afterwards; the receive task settles
    acknowledgements whenever they come, so also between the two.  [fl_booked] are the
    sizes of the booked segments in flight, [fl_writing] the segment written and not yet
    booked, with whether it has been acknowledged already. *)
Record flight := mk_flight {
  fl_est : BandwidthEstimator;
  fl_booked : list Z;
  fl_writing : option (Z * bool);
}.

Inductive flight_step (M : Z) : flight -> flight -> Prop :=
| fs_write e bs n : 0 <= n <= M -> flight_step M (mk_flight e bs None) (mk_flight e bs (Some (n, false)))
| fs_rewrite e bs1 bs2 n :
    flight_step M (mk_flight e (bs1 ++ n :: bs2) None) (mk_flight (on_retransmit e n) (bs1 ++ bs2) (Some (n, false)))
| fs_refused e bs n : flight_step M (mk_flight e bs (Some (n, false))) (mk_flight e bs None)
| fs_book e bs n :
    inflight_bytes e + n <= u_max 64 ->
    flight_step M (mk_flight e bs (Some (n, false))) (mk_flight (on_send e n) (n :: bs) None)
| fs_book_acked e bs n :
    inflight_bytes e + n <= u_max 64 ->
    flight_step M (mk_flight e bs (Some (n, true))) (mk_flight (on_send e n) bs None)
| fs_ack e bs1 bs2 n w s :
    ds_packet_bytes s = n ->
    flight_step M (mk_flight e (bs1 ++ n :: bs2) w) (mk_flight (on_ack e s).2 (bs1 ++ bs2) w)
| fs_ack_early e bs n s :
    ds_packet_bytes s = n -> flight_step M (mk_flight e bs (Some (n, false))) (mk_flight (on_ack e s).2 bs (Some (n, true)))
| fs_loss e bs w n : flight_step M (mk_flight e bs w) (mk_flight (on_loss e n) bs w).

Inductive flight_reachable (M now : Z) : flight -> Prop :=
| fr_start : flight_reachable M now (mk_flight (est_new now) [] None)
| fr_more x y : flight_reachable M now x -> flight_step M x y -> flight_reachable M now y.

(** The counter is the booked bytes and at most one segment more; while an acknowledged
    segment waits to be booked, that much less. *)
Record flight_ok (M : Z) (x : flight) : Prop := {
  fk_sizes : Forall (λ n, 0 <= n <= M) (fl_booked x);
  fk_writing : match fl_writing x with Some (n, _) => 0 <= n <= M | None => True end;
  fk_count : ∃ p, 0 <= p <= M ∧
    inflight_bytes (fl_est x) = match fl_writing x with
                                | Some (n, true) => Z.max 0 (sum_Z (fl_booked x) + p - n)
                                | _ => sum_Z (fl_booked x) + p
                                end;
}.

Lemma on_ack_inflight e s : inflight_bytes (on_ack e s).2 = sat_sub (inflight_bytes e) (ds_packet_bytes s).
Proof.
  unfold on_ack. cbn [snd]. destruct (update_state_frame (measured e s) (ds_acked_at s) (ds_app_limited s)) as [-> _].
  apply measured_frame.
Qed.

Lemma sum_Z_mid bs1 n bs2 : sum_Z (bs1 ++ n :: bs2) = n + sum_Z (bs1 ++ bs2).
Proof. rewrite !sum_Z_app, sum_Z_cons. lia. Qed.

Lemma flight_step_ok M x y : flight_ok M x -> flight_step M x y -> flight_ok M y.
Proof.
  intros [Hs Hw (p & Hp & Hc)] Hstep.
  assert (Hn : ∀ bs, Forall (λ n, 0 <= n <= M) bs -> 0 <= sum_Z bs).
  { intros bs HF. apply sum_Z_nonneg. eapply Forall_impl; [exact HF|]. cbn. lia. }
  assert (Hmid : ∀ bs1 n bs2, Forall (λ n, 0 <= n <= M) (bs1 ++ n :: bs2) -> 0 <= n <= M ∧ Forall (λ n, 0 <= n <= M) (bs1 ++ bs2)).
  { intros bs1 n bs2 [H1 [H2 H3]%Forall_cons]%Forall_app. split; [done|]. by apply Forall_app. }
  destruct Hstep as [e bs n Hb|e bs1 bs2 n|e bs n|e bs n Hfit|e bs n Hfit|e bs1 bs2 n w s Hsz|e bs n s Hsz|e bs w n];
    cbn [fl_est fl_booked fl_writing] in *.
  - split; [done|done|]. by exists p.
  - apply Hmid in Hs as [Hb Hs]. rewrite sum_Z_mid in Hc. split; [done|done|]. exists p. split; [done|].
    cbn [fl_est fl_booked fl_writing]. change (inflight_bytes (on_retransmit e n)) with (sat_sub (inflight_bytes e) n).
    rewrite Hc. specialize (Hn _ Hs). unfold sat_sub. lia.
  - split; [done|done|]. by exists p.
  - split; [by constructor|done|]. exists p. split; [done|]. cbn [fl_est fl_booked fl_writing].
    change (inflight_bytes (on_send e n)) with (sat_add 64 (inflight_bytes e) n). unfold sat_add. rewrite sum_Z_cons. lia.
  - split; [done|done|]. specialize (Hn _ Hs). exists (Z.max p (n - sum_Z bs)). split; [lia|]. cbn [fl_est fl_booked fl_writing].
    change (inflight_bytes (on_send e n)) with (sat_add 64 (inflight_bytes e) n). unfold sat_add. lia.
  - apply Hmid in Hs as [Hb Hs]. rewrite sum_Z_mid in Hc. specialize (Hn _ Hs). split; [done|done|]. exists p. split; [done|].
    cbn [fl_est fl_booked fl_writing]. rewrite on_ack_inflight, Hsz, Hc. unfold sat_sub. destruct w as [[m []]|]; lia.
  - specialize (Hn _ Hs). split; [done|done|]. exists p. split; [done|].
    cbn [fl_est fl_booked fl_writing]. rewrite on_ack_inflight, Hsz, Hc. unfold sat_sub. lia.
  - split; [done|done|]. by exists p.
Qed.

(** However the receive task's settlements interleave with the send task's write and
    booking, the bytes counted in flight are those of the segments in flight and at most
    one segment more, so no sequence of races exhausts the window. *)
Theorem flight_within_one_segment (M now : Z) (x : flight) :
  0 <= M -> flight_reachable M now x -> fl_writing x = None ->
  sum_Z (fl_booked x) <= inflight_bytes (fl_est x) <= sum_Z (fl_booked x) + M.
Proof.
  intros HM Hr Hw. assert (Hok : flight_ok M x).
  { clear Hw. induction Hr as [|x y _ IH Hstep]; [split; [constructor|done|by exists 0]|by eapply flight_step_ok]. }
  destruct Hok as [_ _ (p & Hp & Hc)]. rewrite Hw in Hc. lia.
Qed.

Lemma flight_within_one_segment_witness :
  let s n := mk_sample 0 0 0 5 n false 0 true in
  let e1 := (on_ack (est_new 0) (s 1000)).2 in
  flight_reachable 1200 0 (mk_flight (on_send (on_send e1 1000) 600) [600] None) ∧
  600 <= inflight_bytes (on_send (on_send e1 1000) 600) <= 600 + 1200.
Proof.
  cbv zeta. set (e1 := (on_ack (est_new 0) (mk_sample 0 0 0 5 1000 false 0 true)).2).
  assert (Hr : flight_reachable 1200 0 (mk_flight (on_send (on_send e1 1000) 600) [600] None)).
  { eapply fr_more; [|apply fs_book; vm_compute; congruence].
    eapply fr_more; [|apply fs_write; lia].
    eapply fr_more; [|apply fs_book_acked; vm_compute; congruence].
    eapply fr_more; [|apply (fs_ack_early _ (est_new 0) [] 1000 (mk_sample 0 0 0 5 1000 false 0 true)); reflexivity].
    eapply fr_more; [apply fr_start|apply fs_write; lia]. }
  split; [exact Hr|].
  apply (flight_within_one_segment 1200 0 (mk_flight (on_send (on_send e1 1000) 600) [600] None)); [lia|exact Hr|reflexivity].
Defined.
