(* ===== verification/Stream.v ===== *)
(** * The stream as a whole ([Stream] of [core/src/transport/stream.rs])

    The two halves put together with the lifecycle fields: construction, priority,
    the application's release, the close predicates the pump retires streams by,
    and the [StreamState] field. *)

From Stdlib Require Import ZArith Lia.
From stdpp Require Import base numbers option list.
From S2P Require Import Prelude Errors Rto StreamSend StreamRecv.

Local Open Scope Z_scope.

Inductive StreamState := Open | HalfClosedLocal | HalfClosedRemote | Closed.

#[export] Instance StreamState_eq_dec : EqDecision StreamState.
Proof. solve_decision. Defined.

Record Stream := mk_stream {
  stream_id : Z;
  state : StreamState;
  sending : SendHalf;
  receiving : RecvHalf;
  app_released : bool;
  priority : Z;
}.

(** [with_recv_tuning]; the shared budget is the session's, passed where it is used. *)
Definition stream_new (id : Z) : Stream := mk_stream id Open send_new recv_new false 0.

Definition set_priority (s : Stream) (p : Z) : Stream :=
  mk_stream (stream_id s) (state s) (sending s) (receiving s) (app_released s) p.
Definition release_app_handle (s : Stream) : Stream :=
  mk_stream (stream_id s) (state s) (sending s) (receiving s) true (priority s).
Definition with_halves (s : Stream) (snd : SendHalf) (rcv : RecvHalf) : Stream :=
  mk_stream (stream_id s) (state s) snd rcv (app_released s) (priority s).

Definition is_local_finished (s : Stream) : bool := local_finished (sending s).
Definition is_fully_closed (s : Stream) : bool :=
  remote_finished (receiving s) && is_fin_acked (sending s).
Definition is_retirable (s : Stream) : bool :=
  (remote_finished (receiving s) || app_released s) && is_fin_acked (sending s).
Definition is_closed (s : Stream) : bool := local_finished (sending s) && remote_finished (receiving s).

Definition update_state (s : Stream) : Stream :=
  let new_state := match local_finished (sending s), remote_finished (receiving s) with
                   | true, true => Closed
                   | true, false => HalfClosedLocal
                   | false, true => HalfClosedRemote
                   | false, false => Open
                   end in
  mk_stream (stream_id s) new_state (sending s) (receiving s) (app_released s) (priority s).

Definition finish (s : Stream) : Stream :=
  update_state (with_halves s (set_local_finished (sending s) true) (receiving s)).

Definition remote_finish (s : Stream) : Stream :=
  update_state (with_halves s (sending s) (on_remote_finish (receiving s))).

(** The receive-side operations that read the sender's estimator. *)
Definition stream_app_consumed (s : Stream) (budget now n : Z) (reliable : bool)
  : option Z * Stream * Z :=
  let '(o, r, b) := record_app_consumed (receiving s) budget now (min_rtt (rto_est (sending s))) n reliable in
  (o, with_halves s (sending s) r, b).

(** The close path the pump takes: a reliable FIN of this side's, and the peer's
    released in order. *)
Definition pump_queue_fin (s : Stream) : option (result Stream CoreError) :=
  match queue_fin (sending s) with
  | Some (Ok snd) => Some (Ok (with_halves s snd (receiving s)))
  | Some (Err e) => Some (Err e)
  | None => None
  end.

Definition pump_take_fin (s : Stream) : bool * Stream :=
  let '(b, r) := take_in_order_fin (receiving s) in (b, with_halves s (sending s) r).

(** ** Properties *)

(** A stream is dropped only when its own FIN was queued and every segment it
    buffered has been acknowledged, and then only if the peer's half ended or the
    application let go of it; a fully closed stream is always droppable, and
    [finish] followed by the peer's finish leaves the state [Closed]. *)
Theorem retirable_iff (s : Stream) :
  (is_retirable s = true <->
     local_finished (sending s) = true ∧ send_buffer (sending s) = [] ∧
     (remote_finished (receiving s) = true ∨ app_released s = true)) ∧
  (is_fully_closed s = true -> is_retirable s = true ∧ is_closed s = true) ∧
  state (remote_finish (finish s)) = Closed ∧ state (finish (remote_finish s)) = Closed.
Proof.
  unfold is_retirable, is_fully_closed, is_closed, is_fin_acked.
  split; [|split; [|done]].
  - rewrite !andb_true_iff, orb_true_iff. destruct (send_buffer (sending s)); naive_solver.
  - destruct (remote_finished (receiving s)), (local_finished (sending s)); cbn; naive_solver.
Qed.

(** The close path the pump uses does not maintain [StreamState]: queueing the
    FIN and taking the peer's leave both flags set, so [is_closed] holds, while
    [state] still answers what it answered before. *)
Theorem stream_state_not_updated_by_pump (s s' : Stream) :
  pump_queue_fin s = Some (Ok s') -> (pump_take_fin s').1 = true ->
  is_closed (pump_take_fin s').2 = true ∧ state (pump_take_fin s').2 = state s.
Proof.
  unfold pump_queue_fin, pump_take_fin, queue_fin. case_test; [done|].
  destruct (push_segment _ _ _) as [[o snd]|]; [|done]. intros [= <-]. cbn [receiving with_halves].
  unfold take_in_order_fin. case_test; [|done]. cbn. done.
Qed.

Lemma stream_state_not_updated_by_pump_witness :
  let s := with_halves (stream_new 5) send_new (set_reorder (note_remote_fin recv_new 0) 1 [] 0) in
  let s' := match pump_queue_fin s with Some (Ok s') => s' | _ => s end in
  is_closed (pump_take_fin s').2 = true ∧ state (pump_take_fin s').2 = Open.
Proof.
  cbv zeta. apply (stream_state_not_updated_by_pump
    (with_halves (stream_new 5) send_new (set_reorder (note_remote_fin recv_new 0) 1 [] 0))); vm_compute; reflexivity.
Defined.
