(* ===== verification/Path.v ===== *)
(** * Path validation ([core/src/transport/path.rs], [path_validation_codec.rs])

    The registry of migration paths with its per-path state machine, and the
    frame that carries challenges and responses.  A path's state is the byte the
    source stores; the random challenge is an argument of [issue_challenge]. *)

From Stdlib Require Import ZArith Lia.
From stdpp Require Import base numbers option list gmap.
From S2P Require Import Prelude Wire.

Local Open Scope Z_scope.

Definition PATH_CHALLENGE_LEN : nat := 32.

Inductive PathStateKind := Unvalidated | Validating | Validated | Failed.

#[export] Instance PathStateKind_eq_dec : EqDecision PathStateKind.
Proof. solve_decision. Defined.

(** [kind as u8] and the reading back in [PathState::state]. *)
Definition kind_to_u8 (k : PathStateKind) : Z :=
  match k with Unvalidated => 0 | Validating => 1 | Validated => 2 | Failed => 3 end.
Definition kind_of_u8 (b : Z) : PathStateKind :=
  if b =? 0 then Unvalidated else if b =? 1 then Validating else if b =? 2 then Validated else Failed.

Record PathState := mk_path {
  ps_path_id : Z;
  ps_state : Z;
  ps_rtt_ms : Z;
  ps_loss_pct : Z;
  ps_last_packet_seen : option Z;
  ps_pending_challenge : option (list Z);
}.

Definition path_new (path_id : Z) : PathState := mk_path path_id (kind_to_u8 Unvalidated) 0 0 None None.
Definition path_kind (p : PathState) : PathStateKind := kind_of_u8 (ps_state p).
Definition set_kind (p : PathState) (k : PathStateKind) : PathState :=
  mk_path (ps_path_id p) (kind_to_u8 k) (ps_rtt_ms p) (ps_loss_pct p) (ps_last_packet_seen p)
    (ps_pending_challenge p).
Definition set_challenge (p : PathState) (c : option (list Z)) : PathState :=
  mk_path (ps_path_id p) (ps_state p) (ps_rtt_ms p) (ps_loss_pct p) (ps_last_packet_seen p) c.
Definition path_mark_seen (p : PathState) (now : Z) : PathState :=
  mk_path (ps_path_id p) (ps_state p) (ps_rtt_ms p) (ps_loss_pct p) (Some now) (ps_pending_challenge p).

Abbreviation PathRegistry := (gmap Z PathState).

Inductive RegistrationResult := Created | AlreadyKnown.

Definition register (reg : PathRegistry) (path_id : Z) : RegistrationResult * PathRegistry :=
  match reg !! path_id with
  | Some _ => (AlreadyKnown, reg)
  | None => (Created, <[path_id := path_new path_id]> reg)
  end.

Definition register_validated (reg : PathRegistry) (path_id : Z) : RegistrationResult * PathRegistry :=
  match reg !! path_id with
  | Some _ => (AlreadyKnown, reg)
  | None => (Created, <[path_id := set_kind (path_new path_id) Validated]> reg)
  end.

Definition retire (reg : PathRegistry) (path_id : Z) : PathRegistry := delete path_id reg.

Definition mark_seen (reg : PathRegistry) (path_id now : Z) : PathRegistry :=
  match reg !! path_id with
  | Some p => <[path_id := path_mark_seen p now]> reg
  | None => reg
  end.

(** [fresh] is the challenge the generator would draw. *)
Definition issue_challenge (reg : PathRegistry) (path_id : Z) (fresh : list Z)
  : option (list Z) * PathRegistry :=
  match reg !! path_id with
  | None => (None, reg)
  | Some p =>
    match path_kind p with
    | Validated | Failed => (None, reg)
    | Unvalidated | Validating =>
      match ps_pending_challenge p with
      | Some existing => (Some existing, reg)
      | None => (Some fresh, <[path_id := set_kind (set_challenge p (Some fresh)) Validating]> reg)
      end
    end
  end.

Definition verify_response (reg : PathRegistry) (path_id : Z) (response : list Z) : bool * PathRegistry :=
  match reg !! path_id with
  | None => (false, reg)
  | Some p =>
    if negb (length response =? PATH_CHALLENGE_LEN)%nat then (false, reg)
    else if negb (bool_decide (path_kind p = Validating)) then (false, reg)
    else match ps_pending_challenge p with
    | None => (false, <[path_id := set_kind p Failed]> reg)
    | Some expected =>
      let p' := set_challenge p None in
      if bool_decide (expected = response)
      then (true, <[path_id := set_kind p' Validated]> reg)
      else (false, <[path_id := set_kind p' Failed]> reg)
    end
  end.

Definition state (reg : PathRegistry) (path_id : Z) : option PathStateKind := path_kind <$> reg !! path_id.

Definition validated_paths (reg : PathRegistry) : list Z :=
  (filter (λ e, path_kind e.2 = Validated) (map_to_list reg)).*1.

(** ** The frame *)

Definition build_path_validation_packet (sid : list Z) (path pn : Z) (challenge : list Z) : PhantomPacket :=
  packet_new (with_path_id (header_new sid 0 pn PATH_VALIDATION) path) challenge.

Record ParsedPathValidation := mk_parsed { pv_path_id : Z; pv_payload : list Z }.

Inductive PathValidationParseError := WrongPayloadLength (got : Z).

Definition parse_path_validation (p : PhantomPacket)
  : result (option ParsedPathValidation) PathValidationParseError :=
  if negb (flags_contains (flags (header p)) PATH_VALIDATION) then Ok None
  else if negb (length (payload p) =? PATH_CHALLENGE_LEN)%nat then Err (WrongPayloadLength (len (payload p)))
  else Ok (Some (mk_parsed (path_id (header p)) (payload p))).

(** ** Runs *)

Inductive path_op :=
| OpRegister (p : Z)
| OpRegisterValidated (p : Z)
| OpRetire (p : Z)
| OpSeen (p now : Z)
| OpIssue (p : Z) (fresh : list Z)
| OpVerify (p : Z) (response : list Z).

Definition path_step (reg : PathRegistry) (op : path_op) : PathRegistry :=
  match op with
  | OpRegister p => (register reg p).2
  | OpRegisterValidated p => (register_validated reg p).2
  | OpRetire p => retire reg p
  | OpSeen p now => mark_seen reg p now
  | OpIssue p fresh => (issue_challenge reg p fresh).2
  | OpVerify p response => (verify_response reg p response).2
  end.

Definition op_path (op : path_op) : Z :=
  match op with
  | OpRegister p | OpRegisterValidated p | OpRetire p | OpSeen p _ | OpIssue p _ | OpVerify p _ => p
  end.

(** A challenge is pending exactly while the path is validating. *)
Definition path_ok (p : PathState) : Prop :=
  path_kind p = Validating <-> is_Some (ps_pending_challenge p).
Definition reg_ok (reg : PathRegistry) : Prop := map_Forall (λ _ p, path_ok p) reg.

Lemma kind_roundtrip k : kind_of_u8 (kind_to_u8 k) = k.
Proof. by destruct k. Qed.

Lemma path_kind_set p k : path_kind (set_kind p k) = k.
Proof. apply kind_roundtrip. Qed.

Lemma path_step_ok reg op : reg_ok reg -> reg_ok (path_step reg op).
Proof.
  intros Hok. unfold reg_ok in *.
  assert (Hfail : ∀ p c, path_ok (set_kind (set_challenge p None) Validated) ∧
                  path_ok (set_kind (set_challenge p None) Failed) ∧
                  path_ok (set_kind (set_challenge p (Some c)) Validating)).
  { intros p c. unfold path_ok. rewrite !path_kind_set. cbn. rewrite !is_Some_alt. split_and!; naive_solver. }
  assert (Hnew : ∀ i k, k <> Validating -> path_ok (set_kind (path_new i) k)).
  { intros i k Hk. unfold path_ok. rewrite path_kind_set, is_Some_alt. naive_solver. }
  destruct op as [p|p|p|p now|p fresh|p resp]; cbn [path_step].
  - unfold register. case_match; [done|]. apply map_Forall_insert_2; [|done]. by apply (Hnew p Unvalidated).
  - unfold register_validated. case_match; [done|]. apply map_Forall_insert_2; [|done]. by apply Hnew.
  - by apply map_Forall_delete.
  - unfold mark_seen. destruct (reg !! p) as [st|] eqn:Ep; [|done].
    apply map_Forall_insert_2; [|done]. exact (Hok p st Ep).
  - unfold issue_challenge. repeat case_match; try done; (apply map_Forall_insert_2; [|done]); apply Hfail; exact [].
  - unfold verify_response. destruct (reg !! p) as [st|] eqn:Ep; [|done].
    case_match; [done|]. case_bool_decide as Hk; [|done]. cbn [negb].
    destruct (proj1 (Hok p st Ep) Hk) as [c Hc]. rewrite Hc.
    case_bool_decide; (apply map_Forall_insert_2; [|done]); by apply (Hfail st c).
Qed.

Lemma path_run_ok ops reg : reg_ok reg -> reg_ok (foldl path_step reg ops).
Proof. revert reg. induction ops as [|op ops IH]; intros reg Hr; [done|]. apply IH. by apply path_step_ok. Qed.

Lemma path_step_other reg op q : q <> op_path op -> path_step reg op !! q = reg !! q.
Proof.
  intros Hq. destruct op; cbn in *; unfold register, register_validated, retire, mark_seen, issue_challenge, verify_response;
    repeat case_match; cbn [snd]; try done; rewrite ?lookup_insert_ne, ?lookup_delete_ne by done; done.
Qed.

(** ** Properties *)



(** The challenge exchange: issuing again returns the challenge already in
    flight, so a late answer to the first copy still validates the path; the right
    answer validates it once and a replay of that answer changes nothing; a wrong
    answer of the right length fails the path for good, while one of the wrong
    length leaves the exchange open. *)
Theorem challenge_exchange (reg : PathRegistry) (p : Z) (st : PathState) (c c' wrong short : list Z) :
  reg !! p = Some st -> path_kind st = Unvalidated -> ps_pending_challenge st = None ->
  length c = PATH_CHALLENGE_LEN -> length wrong = PATH_CHALLENGE_LEN -> wrong <> c ->
  length short <> PATH_CHALLENGE_LEN ->
  let reg1 := (issue_challenge reg p c).2 in
  (issue_challenge reg p c).1 = Some c ∧ issue_challenge reg1 p c' = (Some c, reg1) ∧
  verify_response reg1 p short = (false, reg1) ∧
  (let '(ok, reg2) := verify_response reg1 p c in
   ok = true ∧ state reg2 p = Some Validated ∧ verify_response reg2 p c = (false, reg2) ∧
   issue_challenge reg2 p c' = (None, reg2)) ∧
  (let '(ok, reg2) := verify_response reg1 p wrong in
   ok = false ∧ state reg2 p = Some Failed ∧ verify_response reg2 p c = (false, reg2) ∧
   issue_challenge reg2 p c' = (None, reg2)).
Proof.
  intros Ep Hk Hc Hlc Hlw Hw Hs. unfold issue_challenge, state. rewrite Ep, Hk, Hc. cbn [fst snd].
  split; [done|]. rewrite lookup_insert_eq, path_kind_set. cbn [ps_pending_challenge set_challenge set_kind].
  split; [done|]. unfold verify_response. rewrite !lookup_insert_eq, !path_kind_set.
  cbn [ps_pending_challenge set_challenge set_kind]. rewrite Hlc, Hlw, Nat.eqb_refl.
  destruct (Nat.eqb_spec (length short) PATH_CHALLENGE_LEN); [done|]. cbn [negb].
  rewrite !(bool_decide_true (Validating = Validating)), (bool_decide_true (c = c)) by done.
  rewrite (bool_decide_false (c = wrong)) by congruence. cbn [negb].
  rewrite !lookup_insert_eq. split_and!; try done.
Qed.

Lemma challenge_exchange_witness :
  (let '(ok, reg2) := verify_response (issue_challenge {[7 := path_new 7]} 7 (replicate 32 1)).2 7 (replicate 32 1) in
   ok = true ∧ state reg2 7 = Some Validated ∧ verify_response reg2 7 (replicate 32 1) = (false, reg2) ∧
   issue_challenge reg2 7 [] = (None, reg2)).
Proof.
  apply (challenge_exchange {[7 := path_new 7]} 7 (path_new 7) (replicate 32 1) [] (replicate 32 2) []);
    vm_compute; congruence.
Defined.

(** A PATH_VALIDATION frame carries the path and the 32 challenge bytes
    unchanged; a frame without the flag is passed on, and a flagged frame of any
    other length is an error. *)
Theorem path_validation_frame (sid : list Z) (path pn : Z) (challenge : list Z) (p : PhantomPacket) :
  (length challenge = PATH_CHALLENGE_LEN ->
     parse_path_validation (build_path_validation_packet sid path pn challenge)
     = Ok (Some (mk_parsed path challenge))) ∧
  (flags_contains (flags (header p)) PATH_VALIDATION = false -> parse_path_validation p = Ok None) ∧
  (flags_contains (flags (header p)) PATH_VALIDATION = true -> length (payload p) <> PATH_CHALLENGE_LEN ->
     parse_path_validation p = Err (WrongPayloadLength (len (payload p)))).
Proof.
  unfold parse_path_validation. split_and!.
  - intros Hl. cbn. by rewrite Hl.
  - by intros ->.
  - intros -> Hl. by destruct (Nat.eqb_spec (length (payload p)) PATH_CHALLENGE_LEN).
Qed.

Lemma path_validation_frame_witness :
  parse_path_validation (build_path_validation_packet (replicate 32 0) 4 77 (seqZ 0 32))
  = Ok (Some (mk_parsed 4 (seqZ 0 32))).
Proof. by apply (path_validation_frame (replicate 32 0) 4 77 (seqZ 0 32) (packet_new (header_new [] 0 0 0) [])). Defined.
