(* ===== verification/Crypto.v ===== *)
(** * Keys and ciphers ([core/src/crypto/adaptive_crypto.rs], [kdf.rs],
      [header_protection.rs])

    The ciphers and hashes are other people's code: they are the fields of the
    class [Primitives], and what the library documentation promises of them is
    the class [PrimitiveLaws].  Everything the repository itself does around them
    - the suite choice, the key layout of the two directions, the invocation
    ceiling, the header mask - is defined here. *)

From Stdlib Require Import ZArith Lia String.
From stdpp Require Import base numbers option list.
From S2P Require Import Prelude Errors.

Local Open Scope Z_scope.
Local Open Scope phantom_scope.

Inductive CipherSuite := Aes256Gcm | ChaCha20Poly1305.

#[export] Instance CipherSuite_eq_dec : EqDecision CipherSuite.
Proof. solve_decision. Defined.

Definition to_byte (s : CipherSuite) : Z :=
  match s with Aes256Gcm => 1 | ChaCha20Poly1305 => 2 end.
Definition from_byte (b : Z) : option CipherSuite :=
  if b =? 1 then Some Aes256Gcm else if b =? 2 then Some ChaCha20Poly1305 else None.

(** ** The third-party primitives *)

Class Primitives := {
  fips : bool;  (* the build feature *)
  blake3_derive_key : string -> list Z -> list Z;
  hkdf_sha256 : option (list Z) -> list Z -> string -> nat -> list Z;  (* salt, ikm, info, length *)
  hkdf_expand : list Z -> string -> nat -> list Z;                     (* prk, info, length *)
  aead_seal : CipherSuite -> list Z -> list Z -> list Z -> list Z -> option (list Z);
  aead_open : CipherSuite -> list Z -> list Z -> list Z -> list Z -> option (list Z);
  aes256_block : list Z -> list Z -> option (list Z);                  (* None: key setup failed *)
  chacha20_keystream : list Z -> list Z -> Z -> nat -> option (list Z);  (* key, nonce, position, length *)
}.

Definition AEAD_OVERHEAD : Z := 16.
Definition HP_SAMPLE_LEN : nat := 16.

(** Documented behaviour: fixed output sizes, and an AEAD that opens what it
    sealed (any plaintext a packet can hold is far below the ciphers' limit). *)
Class PrimitiveLaws `{Primitives} : Prop := {
  blake3_length l k : length (blake3_derive_key l k) = 32%nat;
  hkdf_sha256_length s k l n : length (hkdf_sha256 s k l n) = n;
  hkdf_expand_length k l n : length (hkdf_expand k l n) = n;
  aes256_block_ok k b : length k = 32%nat -> length b = 16%nat ->
    ∃ m, aes256_block k b = Some m ∧ length m = 16%nat;
  chacha20_ok k n p c : length k = 32%nat -> length n = 12%nat ->
    ∃ m, chacha20_keystream k n p c = Some m ∧ length m = c;
  seal_total suite key nonce aad pt :
    len pt <= 2 ^ 32 -> ∃ ct, aead_seal suite key nonce aad pt = Some ct;
  seal_length suite key nonce aad pt ct :
    aead_seal suite key nonce aad pt = Some ct -> len ct = len pt + AEAD_OVERHEAD;
  open_seal suite key nonce aad pt ct :
    aead_seal suite key nonce aad pt = Some ct -> aead_open suite key nonce aad ct = Some pt;
}.

Section Crypto.
Context `{Primitives}.

(** ** Key derivation *)

Definition derive_key_32 (label : string) (ikm : list Z) : list Z :=
  if fips then hkdf_sha256 None ikm label 32 else blake3_derive_key label ikm.

Definition derive_early_data_keying (resumption_secret client_nonce : list Z) : list Z * list Z :=
  (hkdf_sha256 (Some client_nonce) resumption_secret "phantom-early-data-key-v3" 32,
   hkdf_sha256 (Some client_nonce) resumption_secret "phantom-early-data-nonce-v3" 12).

(** ** Suite choice *)

Record HwCaps := mk_caps { has_hw_aes : bool }.

Definition recommended_cipher (c : HwCaps) : CipherSuite :=
  if fips then Aes256Gcm else if has_hw_aes c then Aes256Gcm else ChaCha20Poly1305.

Definition negotiate_cipher (client_preferred : list CipherSuite) (server_caps : HwCaps)
  : result CipherSuite CoreError :=
  if fips then
    if bool_decide (Aes256Gcm ∈ client_preferred) then Ok Aes256Gcm else Err CipherSuiteUnavailable
  else
    let server_pref := recommended_cipher server_caps in
    if bool_decide (server_pref ∈ client_preferred) then Ok server_pref
    else Ok (default ChaCha20Poly1305 (head client_preferred)).

Definition guard_suite_under_fips (s : CipherSuite) : result () CoreError :=
  if fips then
    if bool_decide (s = ChaCha20Poly1305) then Err CipherSuiteUnavailable else Ok ()
  else Ok ().

(** ** The AEAD session *)

Definition AEAD_MAX_INVOCATIONS : Z := 2 ^ 48.

Record CryptoSession := mk_crypto {
  suite : CipherSuite;
  send_key : list Z;
  recv_key : list Z;
  send_counter : Z;
  recv_counter : Z;
  nonce_prefix : list Z;
}.

Definition set_send_counter (c : CryptoSession) (n : Z) : CryptoSession :=
  mk_crypto (suite c) (send_key c) (recv_key c) n (recv_counter c) (nonce_prefix c).
Definition set_recv_counter (c : CryptoSession) (n : Z) : CryptoSession :=
  mk_crypto (suite c) (send_key c) (recv_key c) (send_counter c) n (nonce_prefix c).

(** [UnboundKey::new] refuses a key of the wrong size. *)
Definition unbound_key (bytes : list Z) : result (list Z) CoreError :=
  if (length bytes =? 32)%nat then Ok bytes else Err (CryptoError KeySetupFailed).

Definition send_label (s : CipherSuite) : string :=
  match s with Aes256Gcm => "phantom-aes-send-v1" | ChaCha20Poly1305 => "phantom-cc20-send-v1" end.
Definition recv_label (s : CipherSuite) : string :=
  match s with Aes256Gcm => "phantom-aes-recv-v1" | ChaCha20Poly1305 => "phantom-cc20-recv-v1" end.

Definition build (shared_secret : list Z) (s : CipherSuite) (swap : bool) : result CryptoSession CoreError :=
  let key_a := derive_key_32 (send_label s) shared_secret in
  let key_b := derive_key_32 (recv_label s) shared_secret in
  let '(send_bytes, recv_bytes) := if swap then (key_b, key_a) else (key_a, key_b) in
  sk <-? unbound_key send_bytes;
  rk <-? unbound_key recv_bytes;
  let prefix := take 4 (derive_key_32 "phantom-nonce-pfx-v1" shared_secret) in
  Ok (mk_crypto s sk rk 0 0 prefix).

Definition from_shared_secret (caps : HwCaps) (shared_secret : list Z) : result CryptoSession CoreError :=
  build shared_secret (recommended_cipher caps) false.
Definition from_shared_secret_peer (caps : HwCaps) (shared_secret : list Z) : result CryptoSession CoreError :=
  build shared_secret (recommended_cipher caps) true.
Definition with_suite (shared_secret : list Z) (s : CipherSuite) : result CryptoSession CoreError :=
  _u <-? guard_suite_under_fips s; build shared_secret s false.
Definition with_suite_peer (shared_secret : list Z) (s : CipherSuite) : result CryptoSession CoreError :=
  _u <-? guard_suite_under_fips s; build shared_secret s true.

Definition make_nonce (c : CryptoSession) (counter : Z) : list Z :=
  nonce_prefix c ++ be_encode 8 counter.

Definition encrypt_with_nonce (c : CryptoSession) (nonce aad plaintext : list Z)
  : result (list Z) AeadError * CryptoSession :=
  let counter := send_counter c in
  let c1 := set_send_counter c (wrap 64 (counter + 1)) in
  if AEAD_MAX_INVOCATIONS <=? counter then (Err NonceExhausted, c1)
  else (ok_or (aead_seal (suite c) (send_key c) nonce aad plaintext) EncryptionFailed, c1).

Definition decrypt_with_nonce (c : CryptoSession) (nonce aad ciphertext : list Z)
  : result (list Z) AeadError * CryptoSession :=
  if AEAD_MAX_INVOCATIONS <=? recv_counter c then (Err NonceExhausted, c)
  else
    match aead_open (suite c) (recv_key c) nonce aad ciphertext with
    | None => (Err DecryptionFailed, c)
    | Some pt => (Ok pt, set_recv_counter c (wrap 64 (recv_counter c + 1)))
    end.

(** The counter-nonce interface the explicit-nonce one replaced. *)
Definition encrypt (c : CryptoSession) (aad plaintext : list Z) : result (list Z) AeadError * CryptoSession :=
  let counter := send_counter c in
  let c1 := set_send_counter c (wrap 64 (counter + 1)) in
  if AEAD_MAX_INVOCATIONS <=? counter then (Err NonceExhausted, c1)
  else (ok_or (aead_seal (suite c) (send_key c) (make_nonce c counter) aad plaintext) EncryptionFailed, c1).

Definition decrypt (c : CryptoSession) (aad ciphertext : list Z) : result (list Z) AeadError * CryptoSession :=
  let counter := recv_counter c in
  let c1 := set_recv_counter c (wrap 64 (counter + 1)) in
  if AEAD_MAX_INVOCATIONS <=? counter then (Err NonceExhausted, c1)
  else (ok_or (aead_open (suite c) (recv_key c) (make_nonce c counter) aad ciphertext) DecryptionFailed, c1).

(** ** Header protection *)

Record HeaderProtector := mk_hp {
  hp_suite : CipherSuite;
  hp_send : list Z;
  hp_recv : list Z;
}.

Definition hp_derive (s : CipherSuite) (initial_secret : list Z) (swap : bool) : HeaderProtector :=
  let hp_a := derive_key_32 "phantom-hp-send-v1" initial_secret in
  let hp_b := derive_key_32 "phantom-hp-recv-v1" initial_secret in
  let '(snd, rcv) := if swap then (hp_b, hp_a) else (hp_a, hp_b) in
  mk_hp s snd rcv.

Definition aes256_ecb_block (key sample : list Z) : result (list Z) CoreError :=
  ok_or (aes256_block key sample) (CryptoError KeySetupFailed).

Definition chacha20_mask (key sample : list Z) : result (list Z) CoreError :=
  let counter := le_decode (take 4 sample) in
  ok_or (chacha20_keystream key (slice 4 16 sample) (counter * 64) 16) (CryptoError KeySetupFailed).

Definition compute_mask (s : CipherSuite) (key sample : list Z) : result (list Z) CoreError :=
  match s with
  | Aes256Gcm => aes256_ecb_block key sample
  | ChaCha20Poly1305 => chacha20_mask key sample
  end.

Definition mask_send (p : HeaderProtector) (sample : list Z) : result (list Z) CoreError :=
  compute_mask (hp_suite p) (hp_send p) sample.
Definition mask_recv (p : HeaderProtector) (sample : list Z) : result (list Z) CoreError :=
  compute_mask (hp_suite p) (hp_recv p) sample.

End Crypto.

(** ** Lemmas *)

Section Laws.
Context `{PrimitiveLaws}.

Lemma derive_key_32_length label ikm : length (derive_key_32 label ikm) = 32%nat.
Proof. unfold derive_key_32. destruct fips; [apply hkdf_sha256_length | apply blake3_length]. Qed.

(** Key setup always succeeds, and gives the two sides mirrored keys. *)
Lemma build_ok secret s swap :
  build secret s swap =
    Ok (mk_crypto s
          (derive_key_32 (if swap then recv_label s else send_label s) secret)
          (derive_key_32 (if swap then send_label s else recv_label s) secret)
          0 0 (take 4 (derive_key_32 "phantom-nonce-pfx-v1" secret))).
Proof.
  unfold build, unbound_key. destruct swap; by rewrite !derive_key_32_length.
Qed.

Lemma compute_mask_ok s key sample :
  length key = 32%nat -> length sample = 16%nat ->
  ∃ m, compute_mask s key sample = Ok m ∧ length m = 16%nat.
Proof.
  intros Hk Hs. destruct s; unfold compute_mask, aes256_ecb_block, chacha20_mask.
  - destruct (aes256_block_ok key sample Hk Hs) as (m & -> & Hm). by exists m.
  - destruct (chacha20_ok key (slice 4 16 sample) (le_decode (take 4 sample) * 64) 16 Hk) as (m & -> & Hm).
    + unfold slice. rewrite length_take, length_drop, Hs. done.
    + by exists m.
Qed.

Lemma suite_byte_roundtrip s : from_byte (to_byte s) = Some s.
Proof. by destruct s. Qed.

End Laws.

(** ** A concrete platform

    Not a cipher: key derivation keeps the last byte of its input, the tag is the
    key's last byte, repeated.  It satisfies the laws, and the witnesses of the
    theorems below are evaluated on it. *)

Definition toy_primitives : Primitives := {|
  fips := false;
  blake3_derive_key := λ _ ikm, replicate 32 (default 0 (last ikm));
  hkdf_sha256 := λ _ ikm _ n, replicate n (default 0 (last ikm));
  hkdf_expand := λ prk _ n, replicate n (default 0 (last prk) + 1);
  aead_seal := λ _ key nonce aad pt, Some (pt ++ replicate 16 (default 0 (last key)))%list;
  aead_open := λ _ key nonce aad ct,
    if bool_decide (drop (length ct - 16) ct = replicate 16 (default 0 (last key)))
    then Some (take (length ct - 16) ct) else None;
  aes256_block := λ _ b, Some (replicate 16 (default 0 (last b)));
  chacha20_keystream := λ _ _ _ n, Some (replicate n 7);
|}.

#[export] Instance toy_laws : @PrimitiveLaws toy_primitives.
Proof.
  constructor; cbn; intros; rewrite ?length_replicate; eauto using length_replicate.
  - simplify_eq. unfold len, AEAD_OVERHEAD. rewrite length_app. cbn [length]. lia.
  - simplify_eq. rewrite length_app. cbn [length].
    replace (length pt + 16 - 16)%nat with (length pt) by lia.
    by rewrite drop_app_exact, take_app_exact, bool_decide_true.
Qed.
