(* ===== verification/Shaping.v ===== *)
(** * Size padding ([core/src/transport/shaping.rs])

    The PADME length rounding, the padding trailer inside the AEAD plaintext, and
    the timing jitter. *)

From Stdlib Require Import ZArith Lia.
From stdpp Require Import base numbers option list.
From S2P Require Import Prelude Wire Crypto.

Local Open Scope Z_scope.
Local Open Scope phantom_scope.

Definition MAX_SHAPED_WIRE : Z := 1184.
Definition PAD_LEN_FIELD : Z := 2.

Inductive PaddingPolicy := PadNone | Padme.

Definition padme (l : Z) : Z :=
  if l <=? 2 then l
  else
    let e := Z.log2 l in
    let s := if e =? 0 then 1 else Z.log2 e + 1 in
    let mask_bits := sat_sub e s in
    let mask := Z.shiftl 1 mask_bits - 1 in
    Z.land (l + mask) (Z.lnot mask).

Definition padding_trailer_len (plaintext_len : Z) (policy : PaddingPolicy) : Z :=
  match policy with
  | PadNone => 0
  | Padme =>
    let wire := Z.of_nat HEADER_SIZE + plaintext_len + AEAD_OVERHEAD in
    let target := Z.min (padme (wire + PAD_LEN_FIELD)) MAX_SHAPED_WIRE in
    if wire + PAD_LEN_FIELD <=? target then target - wire else 0
  end.

Definition append_padding (plaintext : list Z) (trailer : Z) : list Z :=
  if trailer <? PAD_LEN_FIELD then plaintext
  else
    let pad_n := wrap 16 (trailer - PAD_LEN_FIELD) in
    plaintext ++ replicate (Z.to_nat pad_n) 0 ++ be_encode 2 pad_n.

Definition strip_padding (plaintext : list Z) : result (list Z) WireError :=
  if len plaintext <? PAD_LEN_FIELD then Err Truncated
  else
    let split := len plaintext - PAD_LEN_FIELD in
    let pad_n := be_decode (drop (Z.to_nat split) plaintext) in
    inner_len <-? ok_or (checked_sub split pad_n) Truncated;
    Ok (take (Z.to_nat inner_len) plaintext).

(** The delay in milliseconds for a random draw [r]. *)
Definition random_jitter (max_ms r : Z) : Z :=
  if max_ms =? 0 then 0 else r mod (max_ms + 1).

(** ** Rounding to a multiple of a power of two *)

Definition round_up (k l : Z) : Z := (l + 2 ^ k - 1) / 2 ^ k * 2 ^ k.

Lemma land_lnot_ones k x : 0 <= k -> Z.land x (Z.lnot (2 ^ k - 1)) = x / 2 ^ k * 2 ^ k.
Proof.
  intros Hk. replace (2 ^ k - 1) with (Z.ones k) by (rewrite Z.ones_equiv; lia).
  rewrite <- Z.ldiff_land, Z.ldiff_ones_r by done.
  rewrite Z.shiftl_mul_pow2, Z.shiftr_div_pow2 by done. done.
Qed.

(** The exponent of the rounding, for lengths above two. *)
Definition padme_bits (l : Z) : Z := Z.log2 l - (Z.log2 (Z.log2 l) + 1).

Lemma log2_double_exp e : 1 <= e -> Z.log2 e + 1 <= e.
Proof. intros He. pose proof (Z.log2_lt_lin e). lia. Qed.

Lemma padme_bits_nonneg l : 2 < l -> 0 <= padme_bits l.
Proof.
  intros Hl. unfold padme_bits. assert (1 <= Z.log2 l) by (apply (Z.log2_le_mono 2 l); lia).
  pose proof (log2_double_exp (Z.log2 l)). lia.
Qed.

Lemma padme_round l : 2 < l -> padme l = round_up (padme_bits l) l.
Proof.
  intros Hl. unfold padme. destruct (Z.leb_spec l 2); [lia|].
  assert (He : 1 <= Z.log2 l) by (apply (Z.log2_le_mono 2 l); lia).
  destruct (Z.eqb_spec (Z.log2 l) 0); [lia|]. cbv zeta.
  pose proof (padme_bits_nonneg l Hl). unfold sat_sub. fold (padme_bits l).
  rewrite Z.max_r by done. rewrite Z.shiftl_1_l, land_lnot_ones by done.
  unfold round_up. do 2 f_equal. lia.
Qed.

Lemma round_up_bounds k l : 0 <= k -> l <= round_up k l < l + 2 ^ k.
Proof.
  intros Hk. unfold round_up. assert (0 < 2 ^ k) by (apply Z.pow_pos_nonneg; lia).
  pose proof (Z.div_mod (l + 2 ^ k - 1) (2 ^ k)). pose proof (Z.mod_pos_bound (l + 2 ^ k - 1) (2 ^ k)). lia.
Qed.

Lemma round_up_mono k l l' : 0 <= k -> l <= l' -> round_up k l <= round_up k l'.
Proof.
  intros Hk Hl. unfold round_up. assert (0 < 2 ^ k) by (apply Z.pow_pos_nonneg; lia).
  apply Z.mul_le_mono_nonneg_r; [lia|]. apply Z.div_le_mono; lia.
Qed.

Lemma round_up_divide k l : 0 <= k -> (2 ^ k | l) -> round_up k l = l.
Proof.
  intros Hk [c ->]. unfold round_up. assert (0 < 2 ^ k) by (apply Z.pow_pos_nonneg; lia).
  rewrite <- Z.add_sub_assoc, Z.add_comm, Z.div_add, Z.div_small; lia.
Qed.

Lemma pow2_divide k e : 0 <= k <= e -> (2 ^ k | 2 ^ e).
Proof. intros Hk. exists (2 ^ (e - k)). rewrite <- Z.pow_add_r by lia. f_equal. lia. Qed.

(** A length never passes the next power of two. *)
Lemma round_up_pow k e l : 0 <= k <= e -> l <= 2 ^ e -> round_up k l <= 2 ^ e.
Proof.
  intros Hk Hl. rewrite <- (round_up_divide k (2 ^ e)) by (lia || (apply pow2_divide; lia)).
  apply round_up_mono; lia.
Qed.

Lemma padme_bits_pow e : 2 <= e -> padme_bits (2 ^ e) <= e.
Proof. intros He. unfold padme_bits. rewrite Z.log2_pow2 by lia. pose proof (Z.log2_nonneg e). lia. Qed.

(** Below the next power of two the exponent does not change. *)
Lemma padme_cases l :
  2 < l ->
  (padme l < 2 ^ (Z.log2 l + 1) ∧ Z.log2 (padme l) = Z.log2 l) ∨ padme l = 2 ^ (Z.log2 l + 1).
Proof.
  intros Hl. rewrite padme_round by done.
  assert (He : 1 <= Z.log2 l) by (apply (Z.log2_le_mono 2 l); lia).
  destruct (Z.log2_spec l) as [Hlo Hhi]; [lia|]. rewrite <- Z.add_1_r in Hhi.
  pose proof (padme_bits_nonneg l Hl) as Hk.
  assert (Hk' : padme_bits l <= Z.log2 l + 1) by (unfold padme_bits; pose proof (Z.log2_nonneg (Z.log2 l)); lia).
  pose proof (round_up_bounds _ l Hk) as Hb.
  pose proof (round_up_pow (padme_bits l) (Z.log2 l + 1) l). 
  destruct (decide (round_up (padme_bits l) l = 2 ^ (Z.log2 l + 1))) as [|Hne]; [by right|left].
  split; [lia|]. apply Z.log2_unique; lia.
Qed.

Lemma padme_idempotent_big l : 2 < l -> padme (padme l) = padme l.
Proof.
  intros Hl. assert (He : 1 <= Z.log2 l) by (apply (Z.log2_le_mono 2 l); lia).
  pose proof (padme_bits_nonneg l Hl) as Hk. pose proof (round_up_bounds _ l Hk) as Hb.
  assert (Hp : 2 < padme l) by (rewrite padme_round; lia).
  rewrite (padme_round (padme l)) by done. destruct (padme_cases l Hl) as [[_ Hlog]|Hpow].
  - apply round_up_divide; [by apply padme_bits_nonneg|]. unfold padme_bits. rewrite Hlog.
    rewrite padme_round by done. fold (padme_bits l). unfold round_up. apply Z.divide_factor_r.
  - apply round_up_divide; [by apply padme_bits_nonneg|]. rewrite Hpow.
    apply pow2_divide. rewrite <- Hpow at 1. split; [by apply padme_bits_nonneg|].
    apply padme_bits_pow. lia.
Qed.

Lemma padme_mono_big l l' : 2 < l -> l <= l' -> padme l <= padme l'.
Proof.
  intros Hl Hle. pose proof (Z.log2_le_mono l l' Hle).
  destruct (decide (Z.log2 l = Z.log2 l')) as [E|Hne].
  - rewrite !padme_round by lia. unfold padme_bits. rewrite <- E.
    apply round_up_mono; [by apply (padme_bits_nonneg l)|done].
  - transitivity (2 ^ (Z.log2 l + 1)).
    + destruct (padme_cases l Hl) as [[? _] | ->]; lia.
    + transitivity l'.
      * destruct (Z.log2_spec l') as [Hlo _]; [lia|]. etrans; [|exact Hlo].
        apply Z.pow_le_mono_r; lia.
      * rewrite padme_round by lia. apply round_up_bounds. apply padme_bits_nonneg. lia.
Qed.

(** The overhead is below one part in [2 ^ (⌊log2 ⌊log2 l⌋⌋ + 1)]. *)
Lemma padme_overhead l :
  2 < l -> (padme l - l) * 2 ^ (Z.log2 (Z.log2 l) + 1) <= 2 ^ Z.log2 l - 2 ^ (Z.log2 (Z.log2 l) + 1).
Proof.
  intros Hl. rewrite padme_round by done. pose proof (padme_bits_nonneg l Hl) as Hk.
  pose proof (round_up_bounds _ l Hk) as Hb. set (s := Z.log2 (Z.log2 l) + 1) in *.
  assert (Hs : 0 <= s) by (unfold s; pose proof (Z.log2_nonneg (Z.log2 l)); lia).
  replace (2 ^ Z.log2 l) with (2 ^ padme_bits l * 2 ^ s).
  2:{ rewrite <- Z.pow_add_r by lia. f_equal. unfold padme_bits. lia. }
  assert (0 < 2 ^ s) by (apply Z.pow_pos_nonneg; lia). nia.
Qed.

(** At most twelve parts in a hundred. *)
Lemma padme_percent l : 2 < l -> 100 * (padme l - l) <= 12 * l.
Proof.
  intros Hl. pose proof (padme_overhead l Hl) as Ho. destruct (Z.log2_spec l) as [Hlo _]; [lia|].
  pose proof (padme_bits_nonneg l Hl) as Hk. pose proof (round_up_bounds _ l Hk) as Hb.
  assert (He : 1 <= Z.log2 l) by (apply (Z.log2_le_mono 2 l); lia).
  destruct (Z.lt_ge_cases (Z.log2 l) 8) as [Hs|Hs].
  - assert (Hcase : Z.log2 l = 1 ∨ Z.log2 l = 2 ∨ Z.log2 l = 3 ∨ Z.log2 l = 4 ∨ Z.log2 l = 5 ∨ Z.log2 l = 6 ∨ Z.log2 l = 7) by lia.
    destruct Hcase as [E|[E|[E|[E|[E|[E|E]]]]]]; rewrite E in *; cbn in Ho, Hlo;
      destruct (decide (l = 2 ^ Z.log2 l)) as [E'|]; rewrite ?E in *; cbn in *; 
      try (rewrite E'; vm_compute; congruence); lia.
  - assert (4 <= Z.log2 (Z.log2 l) + 1) by (pose proof (Z.log2_le_mono 8 (Z.log2 l)); change (Z.log2 8) with 3 in *; lia).
    assert (2 ^ 4 <= 2 ^ (Z.log2 (Z.log2 l) + 1)) by (apply Z.pow_le_mono_r; lia).
    rewrite padme_round in * by done. nia.
Qed.

(** ** The trailer *)

Lemma append_padding_length pt t :
  PAD_LEN_FIELD <= t < 2 ^ 16 -> len (append_padding pt t) = len pt + t.
Proof.
  unfold append_padding, PAD_LEN_FIELD. intros Ht. destruct (Z.ltb_spec t 2); [lia|].
  rewrite wrap_small by (unfold in_u; lia). unfold len.
  rewrite !length_app, length_replicate, be_encode_length. lia.
Qed.

Lemma strip_append pt t : PAD_LEN_FIELD <= t < 2 ^ 16 -> strip_padding (append_padding pt t) = Ok pt.
Proof.
  intros Ht. pose proof (append_padding_length pt t Ht) as Hl. unfold strip_padding. rewrite Hl.
  unfold PAD_LEN_FIELD in *. assert (0 <= len pt) by (unfold len; lia).
  destruct (Z.ltb_spec (len pt + t) 2); [lia|].
  assert (Happ : append_padding pt t = (pt ++ replicate (Z.to_nat (t - 2)) 0) ++ be_encode 2 (t - 2)).
  { unfold append_padding, PAD_LEN_FIELD. destruct (Z.ltb_spec t 2); [lia|].
    rewrite wrap_small by (unfold in_u; lia). by rewrite (assoc (++)). }
  rewrite Happ, drop_app_exact by (rewrite length_app, length_replicate; unfold len; lia).
  rewrite be_decode_encode by (split; [lia | change (256 ^ Z.of_nat 2) with (2 ^ 16); lia]).
  unfold checked_sub. destruct (Z.leb_spec (t - 2) (len pt + t - 2)); [|lia]. cbn [ok_or].
  rewrite <- (assoc (++)), take_app_exact by (unfold len; lia). done.
Qed.

Lemma trailer_cases n policy :
  0 <= n ->
  let wire := Z.of_nat HEADER_SIZE + n + AEAD_OVERHEAD in
  let t := padding_trailer_len n policy in
  (t = 0 ∧ (policy = PadNone ∨ MAX_SHAPED_WIRE < wire + PAD_LEN_FIELD)) ∨
  (PAD_LEN_FIELD <= t < 2 ^ 16 ∧ wire + t = Z.min (padme (wire + PAD_LEN_FIELD)) MAX_SHAPED_WIRE).
Proof.
  intros Hn wire t. unfold t, padding_trailer_len. destruct policy; [by left; auto|]. fold wire.
  destruct (Z.leb_spec (wire + PAD_LEN_FIELD) (Z.min (padme (wire + PAD_LEN_FIELD)) MAX_SHAPED_WIRE)) as [H|H].
  - right. unfold MAX_SHAPED_WIRE, PAD_LEN_FIELD in *.
    assert (0 <= wire) by (unfold wire, HEADER_SIZE, AEAD_OVERHEAD; lia). lia.
  - left. split; [done|]. right.
    assert (wire + PAD_LEN_FIELD <= padme (wire + PAD_LEN_FIELD)); [|lia].
    assert (2 < wire + PAD_LEN_FIELD) by (unfold wire, HEADER_SIZE, AEAD_OVERHEAD, PAD_LEN_FIELD; lia).
    rewrite padme_round by done. apply round_up_bounds. by apply padme_bits_nonneg.
Qed.

(** ** Properties *)

(** A plaintext padded by the policy strips back to itself, and its packet's
    size on the wire is a PADME bucket or the cap of 1184 bytes, so within a bucket
    the datagram size says nothing of the payload size; the policy declines to pad
    only when it is off or the packet has no room for the length field under the
    cap. *)
Theorem padding_roundtrip (pt : list Z) (policy : PaddingPolicy) :
  let t := padding_trailer_len (len pt) policy in
  let padded := append_padding pt t in
  let wire := Z.of_nat HEADER_SIZE + len padded + AEAD_OVERHEAD in
  (t = 0 ∧ padded = pt ∧
     (policy = PadNone ∨ MAX_SHAPED_WIRE < Z.of_nat HEADER_SIZE + len pt + AEAD_OVERHEAD + PAD_LEN_FIELD)) ∨
  (0 < t ∧ strip_padding padded = Ok pt ∧ wire <= MAX_SHAPED_WIRE ∧
     (wire = MAX_SHAPED_WIRE ∨ padme wire = wire)).
Proof.
  intros t padded wire. assert (Hn : 0 <= len pt) by (unfold len; lia).
  destruct (trailer_cases (len pt) policy Hn) as [[Ht Hwhy]|[Ht Hw]]; fold t in Ht.
  - left. split_and!; [done| |done]. unfold padded. by rewrite Ht.
  - right. fold t in Hw. unfold wire, padded. rewrite append_padding_length by done.
    split_and!; [unfold PAD_LEN_FIELD in Ht; lia|by apply strip_append|lia|].
    rewrite (Z.add_assoc _ (len pt) t), <- (Z.add_assoc _ t), (Z.add_comm t), Z.add_assoc, Hw.
    destruct (Z.min_spec (padme (Z.of_nat HEADER_SIZE + len pt + AEAD_OVERHEAD + PAD_LEN_FIELD)) MAX_SHAPED_WIRE)
      as [[_ ->]|[_ ->]]; [right|by left].
    apply padme_idempotent_big. unfold HEADER_SIZE, AEAD_OVERHEAD, PAD_LEN_FIELD. lia.
Qed.

(** PADME rounding never shortens a length, costs at most twelve per cent, is
    monotone and idempotent: two lengths that share a bucket are indistinguishable
    and padding a padded length adds nothing. *)
Theorem padme_spec :
  (∀ l, 0 <= l -> l <= padme l ∧ 100 * (padme l - l) <= 12 * l ∧ padme (padme l) = padme l) ∧
  (∀ l l', 0 <= l <= l' -> padme l <= padme l').
Proof.
  assert (Hsmall : ∀ l, l <= 2 -> padme l = l) by (intros l Hl; unfold padme; destruct (Z.leb_spec l 2); [done|lia]).
  assert (Hge : ∀ l, 2 < l -> l <= padme l)
    by (intros l Hl; rewrite padme_round by done; apply round_up_bounds; by apply padme_bits_nonneg).
  split.
  - intros l Hl. destruct (Z.le_gt_cases l 2) as [H|H]; [by rewrite !Hsmall by done; lia|].
    split_and!; [by apply Hge|by apply padme_percent|by apply padme_idempotent_big].
  - intros l l' Hl. destruct (Z.le_gt_cases l 2) as [H|H]; [|apply padme_mono_big; lia].
    rewrite (Hsmall l) by done. destruct (Z.le_gt_cases l' 2); [rewrite Hsmall; lia|].
    pose proof (Hge l'). lia.
Qed.

Lemma padme_spec_witness : 1000 <= padme 1000 ∧ padme 1000 = 1024 ∧ padme 1000 <= padme 1184.
Proof.
  split_and!; [apply padme_spec; lia|reflexivity|apply padme_spec; lia].
Defined.
