(* ===== verification/Cid.v ===== *)
(** * Rotating connection ids ([core/src/crypto/cid_chain.rs] and the connection-id
      and path-id part of [core/src/transport/session.rs])

    Each peer stamps its datagrams with the connection id of its current migration
    index; the other side routes on a window of indices around the highest it has
    seen.  The index itself is not on the wire: the receiver follows it through the
    authenticated 8-bit [path_id], which the sender bumps at the same time. *)

From Stdlib Require Import ZArith Lia String.
From stdpp Require Import base numbers option list sets.
From S2P Require Import Prelude Errors Crypto.

Local Open Scope Z_scope.

Definition CID_LEN : nat := 8.
Definition CID_WINDOW_TRAILING : Z := 2.
Definition CID_WINDOW_LEADING : Z := 16.
Definition REBIND_VALIDATION_PATH_ID : Z := 255.

Section Cid.
Context `{Primitives}.

(** ** The chain *)

Record CidChain := mk_chain {
  outbound_secret : list Z;
  inbound_secret : list Z;
}.

Definition cid_derive (initial_secret : list Z) (is_server : bool) : CidChain :=
  let c2s := derive_key_32 "phantom-cid-c2s-v1" initial_secret in
  let s2c := derive_key_32 "phantom-cid-s2c-v1" initial_secret in
  let '(out, inb) := if is_server then (s2c, c2s) else (c2s, s2c) in
  mk_chain out inb.

Definition cid_from_secret (secret : list Z) (i : Z) : list Z :=
  let ikm := (secret ++ be_encode 8 i)%list in
  take CID_LEN (derive_key_32 "phantom-cid-v1" ikm).

Definition outbound_cid (c : CidChain) (i : Z) : list Z := cid_from_secret (outbound_secret c) i.
Definition inbound_cid (c : CidChain) (i : Z) : list Z := cid_from_secret (inbound_secret c) i.

(** [lo..=hi]. *)
Definition range_incl (lo hi : Z) : list Z := seqZ lo (hi - lo + 1).

Definition inbound_window (c : CidChain) (highest_seen trailing leading : Z) : list (Z * list Z) :=
  let lo := sat_sub highest_seen trailing in
  let hi := sat_add 64 highest_seen leading in
  (λ i, (i, inbound_cid c i)) <$> range_incl lo hi.

(** ** The session's connection-id state *)

Record CidSlide := mk_slide {
  slide_add : list (list Z);
  slide_remove : list (list Z);
  slide_anchor : list Z;
}.

Record CidState := mk_cid {
  cid_chain : CidChain;
  outbound_cid_index : Z;
  inbound_cid_highest_seen : Z;
  last_seen_path_id : Z;
  send_path_id : Z;
}.

Definition cid_new (initial_secret : list Z) (is_server : bool) : CidState :=
  mk_cid (cid_derive initial_secret is_server) 0 0 0 0.

Definition current_outbound_cid (s : CidState) : list Z :=
  outbound_cid (cid_chain s) (outbound_cid_index s).

Definition advance_outbound_cid (s : CidState) : list Z * CidState :=
  let i := outbound_cid_index s + 1 in
  (outbound_cid (cid_chain s) i,
   mk_cid (cid_chain s) (wrap 64 i) (inbound_cid_highest_seen s) (last_seen_path_id s) (send_path_id s)).

Definition next_migration_path_id (s : CidState) : Z * CidState :=
  let bumped := wrap 8 (send_path_id s + 1) in
  let next := if (bumped =? 0) || (bumped =? REBIND_VALIDATION_PATH_ID) then 1 else bumped in
  (next, mk_cid (cid_chain s) (outbound_cid_index s) (inbound_cid_highest_seen s) (last_seen_path_id s) next).

Definition note_migration_path (s : CidState) (path_id : Z) : option CidSlide * CidState :=
  let last := last_seen_path_id s in
  let fwd := wrap 8 (path_id - last) in
  if (fwd =? 0) || (128 <? fwd) then (None, s)
  else
    let d := fwd in
    let old_high := inbound_cid_highest_seen s in
    let new_high := old_high + d in
    let anchor := inbound_cid (cid_chain s) new_high in
    let add := inbound_cid (cid_chain s) <$>
                 range_incl (old_high + CID_WINDOW_LEADING + 1) (new_high + CID_WINDOW_LEADING) in
    let old_lo := sat_sub old_high CID_WINDOW_TRAILING in
    let new_lo := sat_sub new_high CID_WINDOW_TRAILING in
    let remove := inbound_cid (cid_chain s) <$> range_incl old_lo (new_lo - 1) in
    (Some (mk_slide add remove anchor),
     mk_cid (cid_chain s) (outbound_cid_index s) (wrap 64 new_high) path_id (send_path_id s)).

Definition inbound_window_cids (s : CidState) : list (list Z) :=
  (inbound_window (cid_chain s) (inbound_cid_highest_seen s) CID_WINDOW_TRAILING CID_WINDOW_LEADING).*2.

(** A migration of this endpoint (the pump's [Migrate] arm): bump the path id,
    rotate the connection id. *)
Definition migrate (s : CidState) : CidState :=
  (advance_outbound_cid (next_migration_path_id s).2).2.

(** The reaction to a migration of the peer: a server rotates silently, a client
    also bumps its path id. *)
Definition apply_eps02_peer_migration_rotation (is_server : bool) (s : CidState) : CidState :=
  if is_server then (advance_outbound_cid s).2 else (advance_outbound_cid (next_migration_path_id s).2).2.

(** What an authenticated packet's path id does to the endpoint that receives it. *)
Definition on_authenticated_path (is_server : bool) (s : CidState) (path_id : Z) : CidState :=
  match note_migration_path s path_id with
  | (Some _, s1) => apply_eps02_peer_migration_rotation is_server s1
  | (None, s1) => s1
  end.

(** The path id on a data frame, on the acknowledgement of a segment that arrived
    on [path_id], and on a window update. *)
Definition data_path_stamp (s : CidState) : Z := send_path_id s.
Definition sack_path_stamp (path_id : Z) : Z := path_id.
Definition window_update_path_stamp : Z := 0.

(** One reliable data frame of the client and the server's acknowledgement of it. *)
Definition data_ack_round (c s : CidState) : CidState * CidState :=
  let p := data_path_stamp c in
  let s' := on_authenticated_path true s p in
  let c' := on_authenticated_path false c (sack_path_stamp p) in
  (c', s').

(** ** Specification: the receiver follows the highest index it was routed *)

Definition window_lo (h : Z) : Z := sat_sub h CID_WINDOW_TRAILING.
Definition routable (h k : Z) : bool := (window_lo h <=? k) && (k <=? h + CID_WINDOW_LEADING).

Fixpoint tracked (h : Z) (ks : list Z) : Z :=
  match ks with
  | [] => h
  | k :: ks' => tracked (if routable h k then Z.max h k else h) ks'
  end.

(** The path id a peer that migrated [k] times puts on its packets. *)
Definition path_after (s : CidState) (k : nat) : Z := send_path_id (Nat.iter k migrate s).

(** The receiver handed the datagrams of a peer, by the peer's migration index:
    those outside the routed window never reach it. *)
Fixpoint receive_indices (peer s : CidState) (ks : list Z) : CidState :=
  match ks with
  | [] => s
  | k :: ks' =>
    let s' := if routable (inbound_cid_highest_seen s) k
              then (note_migration_path s (path_after peer (Z.to_nat k))).2 else s in
    receive_indices peer s' ks'
  end.

(** ** Lemmas *)

Lemma range_incl_app lo mid hi :
  lo <= mid + 1 <= hi + 1 -> range_incl lo hi = (range_incl lo mid ++ range_incl (mid + 1) hi)%list.
Proof.
  intros Hm. unfold range_incl. replace (hi - lo + 1) with ((mid - lo + 1) + (hi - (mid + 1) + 1)) by lia.
  rewrite seqZ_app by lia. do 2 f_equal; lia.
Qed.

Lemma inbound_window_cids_range s :
  in_u 64 (inbound_cid_highest_seen s + CID_WINDOW_LEADING) ->
  inbound_window_cids s = inbound_cid (cid_chain s) <$>
    range_incl (window_lo (inbound_cid_highest_seen s)) (inbound_cid_highest_seen s + CID_WINDOW_LEADING).
Proof.
  intros Hu. unfold inbound_window_cids, inbound_window. rewrite <- list_fmap_compose.
  unfold sat_add. rewrite Z.min_l by (unfold in_u, u_max in *; lia). done.
Qed.

Lemma path_after_chain s k :
  cid_chain (Nat.iter k migrate s) = cid_chain s ∧
  inbound_cid_highest_seen (Nat.iter k migrate s) = inbound_cid_highest_seen s.
Proof. induction k as [|k [IH1 IH2]]; [done|]. rewrite Nat.iter_succ. by split. Qed.

Lemma send_path_id_migrate s : send_path_id (migrate s) = (next_migration_path_id s).1.
Proof. done. Qed.

(** For the first 254 migrations the path id counts them. *)
Lemma path_after_small s k :
  send_path_id s = 0 -> (k <= 254)%nat -> path_after s k = Z.of_nat k.
Proof.
  intros H0. unfold path_after. induction k as [|k IH]; intros Hk; [done|].
  rewrite Nat.iter_succ, send_path_id_migrate. unfold next_migration_path_id.
  cbn [fst]. rewrite IH by lia.
  rewrite wrap_small by (unfold in_u; lia). unfold REBIND_VALIDATION_PATH_ID.
  destruct (Z.eqb_spec (Z.of_nat k + 1) 0); [lia|]. destruct (Z.eqb_spec (Z.of_nat k + 1) 255); [lia|].
  cbn [orb]. lia.
Qed.

Lemma note_migration_path_shape s p o s' :
  note_migration_path s p = (o, s') ->
  cid_chain s' = cid_chain s ∧ outbound_cid_index s' = outbound_cid_index s ∧ send_path_id s' = send_path_id s.
Proof. unfold note_migration_path. case_match; intros [= <- <-]; done. Qed.

(** Below the wrap a routed index moves the receiver to the maximum. *)
Lemma note_small s k :
  last_seen_path_id s = inbound_cid_highest_seen s ->
  0 <= inbound_cid_highest_seen s <= 254 -> 0 <= k <= 254 ->
  routable (inbound_cid_highest_seen s) k = true ->
  let s' := (note_migration_path s k).2 in
  inbound_cid_highest_seen s' = Z.max (inbound_cid_highest_seen s) k ∧
  last_seen_path_id s' = Z.max (inbound_cid_highest_seen s) k.
Proof.
  intros Hl Hh Hk Hr. unfold routable, window_lo, sat_sub, CID_WINDOW_TRAILING, CID_WINDOW_LEADING in Hr.
  bool_to_prop. unfold note_migration_path. rewrite Hl. unfold wrap. change (2 ^ 8) with 256.
  destruct (Z.le_gt_cases (inbound_cid_highest_seen s) k).
  - rewrite Z.mod_small by lia. destruct (Z.eqb_spec (k - inbound_cid_highest_seen s) 0); [simpl; lia|].
    destruct (Z.ltb_spec 128 (k - inbound_cid_highest_seen s)); [lia|]. cbn.
    rewrite Z.mod_small by lia. lia.
  - rewrite <- (Z.mod_unique (k - inbound_cid_highest_seen s) 256 (-1) (256 + k - inbound_cid_highest_seen s)) by lia.
    destruct (Z.eqb_spec (256 + k - inbound_cid_highest_seen s) 0); [lia|].
    destruct (Z.ltb_spec 128 (256 + k - inbound_cid_highest_seen s)); [|lia]. cbn. lia.
Qed.

Lemma receive_indices_tracks peer s ks :
  send_path_id peer = 0 -> last_seen_path_id s = inbound_cid_highest_seen s ->
  0 <= inbound_cid_highest_seen s <= 254 -> Forall (λ k, 0 <= k <= 254) ks ->
  inbound_cid_highest_seen (receive_indices peer s ks) = tracked (inbound_cid_highest_seen s) ks ∧
  cid_chain (receive_indices peer s ks) = cid_chain s.
Proof.
  intros Hp. revert s. induction ks as [|k ks IH]; intros s Hl Hh Hks; [done|].
  apply Forall_cons in Hks as [Hk Hks]. cbn beta in Hk. cbn [receive_indices tracked].
  destruct (routable (inbound_cid_highest_seen s) k) eqn:Hr; [|by apply IH].
  rewrite path_after_small by (done || lia). rewrite Z2Nat.id by lia.
  destruct (note_small s k Hl Hh Hk Hr) as [E1 E2].
  destruct (note_migration_path s k) as [o s'] eqn:Hn. cbn [snd] in *.
  destruct (note_migration_path_shape _ _ _ _ Hn) as (Hc & _ & _).
  destruct (IH s') as [IH1 IH2]; [congruence|lia|done|]. rewrite E1 in IH1. by rewrite IH1, IH2, Hc.
Qed.

End Cid.

(** ** Properties *)

(** A slide moves the routed window exactly: the identifiers routed before it
    followed by those it adds are the ones it removes followed by those routed after
    it, its anchor is the identifier of the new centre, and the centre moved forward
    by the distance of the path ids; a path id that is not newer changes nothing. *)
Theorem cid_slide_recenters `{Primitives} (s : CidState) (p : Z) :
  0 <= inbound_cid_highest_seen s -> in_u 64 (inbound_cid_highest_seen s + 256) ->
  match note_migration_path s p with
  | (Some slide, s') =>
    (inbound_window_cids s ++ slide_add slide = slide_remove slide ++ inbound_window_cids s')%list ∧
    slide_anchor slide = inbound_cid (cid_chain s) (inbound_cid_highest_seen s') ∧
    inbound_cid_highest_seen s' - inbound_cid_highest_seen s = (p - last_seen_path_id s) mod 256 ∧
    0 < inbound_cid_highest_seen s' - inbound_cid_highest_seen s <= 128 ∧ last_seen_path_id s' = p
  | (None, s') => s' = s ∧ ((p - last_seen_path_id s) mod 256 = 0 ∨ 128 < (p - last_seen_path_id s) mod 256)
  end.
Proof.
  intros Hh Hu. unfold note_migration_path, wrap. change (2 ^ 8) with 256.
  pose proof (Z.mod_pos_bound (p - last_seen_path_id s) 256 ltac:(lia)) as Hb.
  set (d := (p - last_seen_path_id s) mod 256) in *.
  destruct (Z.eqb_spec d 0); [cbn; auto|]. destruct (Z.ltb_spec 128 d); [cbn; auto|]. cbn [orb].
  unfold in_u in Hu. rewrite (Z.mod_small (inbound_cid_highest_seen s + d)) by lia.
  cbn [slide_add slide_remove slide_anchor inbound_cid_highest_seen last_seen_path_id].
  split_and!; [|done|lia..].
  rewrite !inbound_window_cids_range by (cbn [inbound_cid_highest_seen]; unfold in_u, CID_WINDOW_LEADING; lia).
  cbn [inbound_cid_highest_seen cid_chain]. rewrite <- !fmap_app. f_equal.
  unfold window_lo, sat_sub, CID_WINDOW_LEADING, CID_WINDOW_TRAILING.
  rewrite <- range_incl_app by lia.
  rewrite (range_incl_app _ (Z.max 0 (inbound_cid_highest_seen s + d - 2) - 1)) by lia.
  by rewrite Z.sub_add.
Qed.

Definition sample_cid : CidState := @cid_new toy_primitives (replicate 32 5) true.

Lemma cid_slide_recenters_witness :
  (note_migration_path (H := toy_primitives) sample_cid 3).1 <> None ∧
  last_seen_path_id (note_migration_path (H := toy_primitives) sample_cid 3).2 = 3.
Proof.
  pose proof (cid_slide_recenters (H := toy_primitives) sample_cid 3
    ltac:(vm_compute; congruence) ltac:(vm_compute; intuition congruence)) as Hw.
  revert Hw. vm_compute. intuition congruence.
Defined.

(** Over the first 254 migrations of the peer, whatever datagrams arrive, in any
    order, repeated or lost, the receiving side's window is centred on the highest
    migration index it was routed; so the peer's next identifier stays routable as
    long as no more than sixteen migrations in a row are lost entirely. *)
Theorem cid_window_tracks_peer `{Primitives} (secret : list Z) (ks : list Z) (n : Z) :
  Forall (λ k, 0 <= k <= 254) ks ->
  let client := cid_new secret false in
  let server := receive_indices client (cid_new secret true) ks in
  inbound_cid_highest_seen server = tracked 0 ks ∧
  (window_lo (tracked 0 ks) <= n <= tracked 0 ks + CID_WINDOW_LEADING ->
   outbound_cid (cid_chain client) n ∈ inbound_window_cids server).
Proof.
  intros Hks client server.
  destruct (receive_indices_tracks client (cid_new secret true) ks) as [Hh Hc]; [done|done|cbn; lia|done|].
  fold server in Hh, Hc. change (inbound_cid_highest_seen (cid_new secret true)) with 0 in Hh.
  split; [done|]. intros Hn.
  assert (Hb : 0 <= tracked 0 ks <= 254).
  { clear -Hks. assert (Hg : ∀ h, 0 <= h <= 254 -> 0 <= tracked h ks <= 254); [|apply Hg; lia].
    induction Hks as [|k ks Hk _ IH]; intros h Hb; [done|]. apply IH. case_match; lia. }
  rewrite inbound_window_cids_range, Hh, Hc by (unfold in_u, CID_WINDOW_LEADING; lia).
  apply list_elem_of_fmap. exists n. split; [done|].
  apply elem_of_seqZ. lia.
Qed.

Lemma cid_window_tracks_peer_witness :
  outbound_cid (H := toy_primitives) (cid_chain (@cid_new toy_primitives (replicate 32 5) false)) 20
  ∈ inbound_window_cids (H := toy_primitives)
      (receive_indices (H := toy_primitives) (@cid_new toy_primitives (replicate 32 5) false)
         (@cid_new toy_primitives (replicate 32 5) true) [4; 2; 9; 9; 40]).
Proof.
  apply (cid_window_tracks_peer (H := toy_primitives) (replicate 32 5) [4; 2; 9; 9; 40] 20).
  - repeat constructor; lia.
  - vm_compute. intuition congruence.
Defined.

(** One migration of the peer, seen by this endpoint. *)
Definition migrate_and_deliver `{Primitives} (x : CidState * CidState) : CidState * CidState :=
  let c := migrate x.1 in (c, (note_migration_path x.2 (data_path_stamp c)).2).

(** At the 254 -> 1 wrap of the path id the receiver moves three places for one
    migration.  With every migration delivered, it runs two ahead of the peer after
    the first wrap and four ahead after the second: the 509th identifier, the one
    the peer is using, is no longer among those routed to the session. *)
Theorem cid_wrap_strands_peer `{Primitives} (secret : list Z) :
  let start := (cid_new secret false, cid_new secret true) in
  let '(c1, s1) := Nat.iter 255 migrate_and_deliver start in
  let '(c2, s2) := Nat.iter 509 migrate_and_deliver start in
  outbound_cid_index c1 = 255 ∧ inbound_cid_highest_seen s1 = 257 ∧
  outbound_cid_index c2 = 509 ∧ routable (inbound_cid_highest_seen s2) (outbound_cid_index c2) = false.
Proof. vm_compute. done. Qed.

(** A client one path ahead of the server's acknowledgements, and a server that
    has seen every path but the last. *)
Definition echo_state `{Primitives} (k : Z) (x : CidState * CidState) : Prop :=
  send_path_id x.1 = k + 1 ∧ outbound_cid_index x.1 = k + 1 ∧ last_seen_path_id x.1 = k ∧
  last_seen_path_id x.2 = k ∧ inbound_cid_highest_seen x.2 = k.

Lemma note_next `{Primitives} s k :
  0 <= k <= 253 -> last_seen_path_id s = k ->
  ∃ o, note_migration_path s (k + 1) = (Some o,
    mk_cid (cid_chain s) (outbound_cid_index s) (wrap 64 (inbound_cid_highest_seen s + 1)) (k + 1) (send_path_id s)).
Proof.
  intros Hk Hl. unfold note_migration_path. rewrite Hl.
  replace (wrap 8 (k + 1 - k)) with 1 by (unfold wrap; replace (k + 1 - k) with 1 by lia; done).
  cbn. eauto.
Qed.

Lemma echo_step `{Primitives} k x :
  0 <= k <= 252 -> echo_state k x -> echo_state (k + 1) (data_ack_round x.1 x.2).
Proof.
  intros Hk (E1 & E2 & E3 & E4 & E5). destruct x as [c s]. cbn [fst snd] in *.
  unfold data_ack_round, data_path_stamp, sack_path_stamp, on_authenticated_path. rewrite E1.
  destruct (note_next s k ltac:(lia) E4) as [o1 ->]. destruct (note_next c k ltac:(lia) E3) as [o2 ->].
  unfold echo_state, apply_eps02_peer_migration_rotation, advance_outbound_cid, next_migration_path_id.
  cbn [fst snd send_path_id outbound_cid_index last_seen_path_id inbound_cid_highest_seen].
  rewrite E1, E2, E5. rewrite !wrap_small by (unfold in_u; lia). unfold REBIND_VALIDATION_PATH_ID.
  destruct (Z.eqb_spec (k + 1 + 1) 0); [lia|]. destruct (Z.eqb_spec (k + 1 + 1) 255); [lia|]. cbn. lia.
Qed.

(** An acknowledgement carries the path id of the segment it acknowledges, which
    the client takes for a migration of the server: after a single migration, every
    later round trip of data and acknowledgement rotates the client's path id and
    connection id again, once per round trip. *)
Theorem sack_echo_keeps_rotating `{Primitives} (secret : list Z) (n : nat) :
  (n <= 253)%nat ->
  let '(c, s) := Nat.iter n (λ x, data_ack_round x.1 x.2) (migrate (cid_new secret false), cid_new secret true) in
  outbound_cid_index c = Z.of_nat n + 1 ∧ send_path_id c = Z.of_nat n + 1 ∧
  inbound_cid_highest_seen s = Z.of_nat n.
Proof.
  intros Hn.
  assert (Hs : echo_state (Z.of_nat n)
    (Nat.iter n (λ x, data_ack_round x.1 x.2) (migrate (cid_new secret false), cid_new secret true))).
  { induction n as [|n IH]; [done|]. rewrite Nat.iter_succ, Nat2Z.inj_succ, <- Z.add_1_r.
    apply echo_step; [lia|]. apply IH. lia. }
  destruct (Nat.iter _ _ _) as [c s]. destruct Hs as (E1 & E2 & _ & _ & E5). done.
Qed.

Lemma sack_echo_keeps_rotating_witness :
  let '(c, s) := Nat.iter 100 (λ x, data_ack_round (H := toy_primitives) x.1 x.2)
                   (migrate (H := toy_primitives) (@cid_new toy_primitives (replicate 32 5) false), sample_cid) in
  outbound_cid_index c = 101 ∧ send_path_id c = 101 ∧ inbound_cid_highest_seen s = 100.
Proof. apply (sack_echo_keeps_rotating (H := toy_primitives) (replicate 32 5) 100). lia. Defined.

(** A window update always carries path id 0.  Once the peer has been followed to
    path 128 or beyond, that frame counts as a forward jump: the receiver's window
    moves by [256 - last] places although nobody migrated. *)
Theorem window_update_slides_window `{Primitives} (s : CidState) :
  128 <= last_seen_path_id s <= 254 -> 0 <= inbound_cid_highest_seen s <= 2 ^ 32 ->
  inbound_cid_highest_seen (note_migration_path s window_update_path_stamp).2
  = inbound_cid_highest_seen s + (256 - last_seen_path_id s).
Proof.
  intros Hl Hh. unfold note_migration_path, window_update_path_stamp.
  replace (wrap 8 (0 - last_seen_path_id s)) with (256 - last_seen_path_id s).
  2:{ unfold wrap. change (2 ^ 8) with 256. apply (Z.mod_unique _ _ (-1)); lia. }
  destruct (Z.eqb_spec (256 - last_seen_path_id s) 0); [lia|].
  destruct (Z.ltb_spec 128 (256 - last_seen_path_id s)); [lia|]. cbn [orb snd inbound_cid_highest_seen].
  apply wrap_small. unfold in_u. lia.
Qed.

Lemma window_update_slides_window_witness :
  inbound_cid_highest_seen
    (note_migration_path (H := toy_primitives) (mk_cid (cid_chain sample_cid) 0 200 200 0) window_update_path_stamp).2
  = 256.
Proof.
  apply (window_update_slides_window (H := toy_primitives) (mk_cid (cid_chain sample_cid) 0 200 200 0));
    vm_compute; intuition congruence.
Defined.
