(* ===== verification/Session.v ===== *)
(** * The session: keys, epochs, packet protection
      ([core/src/transport/session.rs] and the frame senders of
      [core/src/api/session.rs])

    A session seals every outbound packet under the key of its current epoch with
    the next packet number as nonce, masks the header, and on the other side
    unmasks, opens, follows an authenticated forward rekey and refuses replays.
    The two tasks of the data pump share the session; each operation below is what
    one task does between two accesses of the other (the rekey lock makes the
    epoch transitions atomic). *)

From Stdlib Require Import ZArith Lia String.
From stdpp Require Import base numbers option gmap list.
From S2P Require Import Prelude Errors Replay Wire Path Crypto Shaping Cid.

Local Open Scope Z_scope.
Local Open Scope phantom_scope.

Definition REKEY_SOFT_LIMIT : Z := 2 ^ 32.
Definition MAX_REKEY_CATCHUP : Z := 16.
Definition RAW_APP_STREAM_ID : Z := 1.

Inductive SessionState := Handshaking | Connected | Migrating | Closing | Closed.

#[export] Instance SessionState_eq_dec : EqDecision SessionState.
Proof. solve_decision. Defined.

Section Session.
Context `{Primitives}.

Record CryptoState := mk_cs {
  cs_session : CryptoSession;
  session_key : list Z;
}.

Record Session := mk_session {
  sess_id : list Z;
  sess_state : SessionState;
  caps : HwCaps;
  crypto : CryptoState;
  header_protection : HeaderProtector;
  cid : CidState;
  traffic_secret : list Z;
  sess_epoch : Z;
  rekey_after : Z;
  rekey_unconfirmed : bool;
  padding_policy : PaddingPolicy;
  is_server : bool;
  resumption_secret : option (list Z);
  last_activity : Z;
  send_packet_number : Z;
  recv_replay : ReplayWindow;
  replay_rejected_total : Z;
  path_registry : PathRegistry;
  peer_closed : bool;
  keepalive_outstanding : bool;
}.

Definition set_sess_state (s : Session) (v : SessionState) : Session :=
  mk_session (sess_id s) v (caps s) (crypto s) (header_protection s) (cid s) (traffic_secret s)
    (sess_epoch s) (rekey_after s) (rekey_unconfirmed s) (padding_policy s) (is_server s)
    (resumption_secret s) (last_activity s) (send_packet_number s) (recv_replay s)
    (replay_rejected_total s) (path_registry s) (peer_closed s) (keepalive_outstanding s).
Definition set_crypto (s : Session) (v : CryptoState) : Session :=
  mk_session (sess_id s) (sess_state s) (caps s) v (header_protection s) (cid s) (traffic_secret s)
    (sess_epoch s) (rekey_after s) (rekey_unconfirmed s) (padding_policy s) (is_server s)
    (resumption_secret s) (last_activity s) (send_packet_number s) (recv_replay s)
    (replay_rejected_total s) (path_registry s) (peer_closed s) (keepalive_outstanding s).
Definition set_cid (s : Session) (v : CidState) : Session :=
  mk_session (sess_id s) (sess_state s) (caps s) (crypto s) (header_protection s) v (traffic_secret s)
    (sess_epoch s) (rekey_after s) (rekey_unconfirmed s) (padding_policy s) (is_server s)
    (resumption_secret s) (last_activity s) (send_packet_number s) (recv_replay s)
    (replay_rejected_total s) (path_registry s) (peer_closed s) (keepalive_outstanding s).
Definition set_traffic_secret (s : Session) (v : list Z) : Session :=
  mk_session (sess_id s) (sess_state s) (caps s) (crypto s) (header_protection s) (cid s) v
    (sess_epoch s) (rekey_after s) (rekey_unconfirmed s) (padding_policy s) (is_server s)
    (resumption_secret s) (last_activity s) (send_packet_number s) (recv_replay s)
    (replay_rejected_total s) (path_registry s) (peer_closed s) (keepalive_outstanding s).
Definition set_sess_epoch (s : Session) (v : Z) : Session :=
  mk_session (sess_id s) (sess_state s) (caps s) (crypto s) (header_protection s) (cid s)
    (traffic_secret s) v (rekey_after s) (rekey_unconfirmed s) (padding_policy s) (is_server s)
    (resumption_secret s) (last_activity s) (send_packet_number s) (recv_replay s)
    (replay_rejected_total s) (path_registry s) (peer_closed s) (keepalive_outstanding s).
Definition set_rekey_after (s : Session) (v : Z) : Session :=
  mk_session (sess_id s) (sess_state s) (caps s) (crypto s) (header_protection s) (cid s)
    (traffic_secret s) (sess_epoch s) v (rekey_unconfirmed s) (padding_policy s) (is_server s)
    (resumption_secret s) (last_activity s) (send_packet_number s) (recv_replay s)
    (replay_rejected_total s) (path_registry s) (peer_closed s) (keepalive_outstanding s).
Definition set_rekey_unconfirmed (s : Session) (v : bool) : Session :=
  mk_session (sess_id s) (sess_state s) (caps s) (crypto s) (header_protection s) (cid s)
    (traffic_secret s) (sess_epoch s) (rekey_after s) v (padding_policy s) (is_server s)
    (resumption_secret s) (last_activity s) (send_packet_number s) (recv_replay s)
    (replay_rejected_total s) (path_registry s) (peer_closed s) (keepalive_outstanding s).
Definition set_padding_policy (s : Session) (v : PaddingPolicy) : Session :=
  mk_session (sess_id s) (sess_state s) (caps s) (crypto s) (header_protection s) (cid s)
    (traffic_secret s) (sess_epoch s) (rekey_after s) (rekey_unconfirmed s) v (is_server s)
    (resumption_secret s) (last_activity s) (send_packet_number s) (recv_replay s)
    (replay_rejected_total s) (path_registry s) (peer_closed s) (keepalive_outstanding s).
Definition set_resumption_secret (s : Session) (v : option (list Z)) : Session :=
  mk_session (sess_id s) (sess_state s) (caps s) (crypto s) (header_protection s) (cid s)
    (traffic_secret s) (sess_epoch s) (rekey_after s) (rekey_unconfirmed s) (padding_policy s)
    (is_server s) v (last_activity s) (send_packet_number s) (recv_replay s) (replay_rejected_total s)
    (path_registry s) (peer_closed s) (keepalive_outstanding s).
Definition set_last_activity (s : Session) (v : Z) : Session :=
  mk_session (sess_id s) (sess_state s) (caps s) (crypto s) (header_protection s) (cid s)
    (traffic_secret s) (sess_epoch s) (rekey_after s) (rekey_unconfirmed s) (padding_policy s)
    (is_server s) (resumption_secret s) v (send_packet_number s) (recv_replay s)
    (replay_rejected_total s) (path_registry s) (peer_closed s) (keepalive_outstanding s).
Definition set_send_packet_number (s : Session) (v : Z) : Session :=
  mk_session (sess_id s) (sess_state s) (caps s) (crypto s) (header_protection s) (cid s)
    (traffic_secret s) (sess_epoch s) (rekey_after s) (rekey_unconfirmed s) (padding_policy s)
    (is_server s) (resumption_secret s) (last_activity s) v (recv_replay s) (replay_rejected_total s)
    (path_registry s) (peer_closed s) (keepalive_outstanding s).
Definition set_recv_replay (s : Session) (v : ReplayWindow) : Session :=
  mk_session (sess_id s) (sess_state s) (caps s) (crypto s) (header_protection s) (cid s)
    (traffic_secret s) (sess_epoch s) (rekey_after s) (rekey_unconfirmed s) (padding_policy s)
    (is_server s) (resumption_secret s) (last_activity s) (send_packet_number s) v
    (replay_rejected_total s) (path_registry s) (peer_closed s) (keepalive_outstanding s).
Definition set_replay_rejected_total (s : Session) (v : Z) : Session :=
  mk_session (sess_id s) (sess_state s) (caps s) (crypto s) (header_protection s) (cid s)
    (traffic_secret s) (sess_epoch s) (rekey_after s) (rekey_unconfirmed s) (padding_policy s)
    (is_server s) (resumption_secret s) (last_activity s) (send_packet_number s) (recv_replay s) v
    (path_registry s) (peer_closed s) (keepalive_outstanding s).
Definition set_path_registry (s : Session) (v : PathRegistry) : Session :=
  mk_session (sess_id s) (sess_state s) (caps s) (crypto s) (header_protection s) (cid s)
    (traffic_secret s) (sess_epoch s) (rekey_after s) (rekey_unconfirmed s) (padding_policy s)
    (is_server s) (resumption_secret s) (last_activity s) (send_packet_number s) (recv_replay s)
    (replay_rejected_total s) v (peer_closed s) (keepalive_outstanding s).
Definition set_peer_closed (s : Session) (v : bool) : Session :=
  mk_session (sess_id s) (sess_state s) (caps s) (crypto s) (header_protection s) (cid s)
    (traffic_secret s) (sess_epoch s) (rekey_after s) (rekey_unconfirmed s) (padding_policy s)
    (is_server s) (resumption_secret s) (last_activity s) (send_packet_number s) (recv_replay s)
    (replay_rejected_total s) (path_registry s) v (keepalive_outstanding s).
Definition set_keepalive_outstanding (s : Session) (v : bool) : Session :=
  mk_session (sess_id s) (sess_state s) (caps s) (crypto s) (header_protection s) (cid s)
    (traffic_secret s) (sess_epoch s) (rekey_after s) (rekey_unconfirmed s) (padding_policy s)
    (is_server s) (resumption_secret s) (last_activity s) (send_packet_number s) (recv_replay s)
    (replay_rejected_total s) (path_registry s) (peer_closed s) v.

(** ** Construction *)

(** [Hkdf::from_prk] refuses a key shorter than the hash output. *)
Definition hkdf_from_prk (prk : list Z) : option (list Z) :=
  if (length prk <? 32)%nat then None else Some prk.

Definition crypto_state_new (hw : HwCaps) (shared_secret : list Z) (peer_side : bool)
  : result CryptoState CoreError :=
  sess <-? (if peer_side then from_shared_secret_peer hw shared_secret else from_shared_secret hw shared_secret);
  prk <-? ok_or (hkdf_from_prk shared_secret) (CryptoError KeySetupFailed);
  Ok (mk_cs sess (hkdf_expand prk "phantom-transport-key" 32)).

Definition session_new (hw : HwCaps) (now : Z) (id shared_secret : list Z) (peer_side : bool)
  : result Session CoreError :=
  cs <-? crypto_state_new hw shared_secret peer_side;
  let hp := hp_derive (suite (cs_session cs)) shared_secret peer_side in
  let paths := (register_validated ∅ 0).2 in
  Ok (mk_session id Handshaking hw cs hp (cid_new shared_secret peer_side) shared_secret 0 REKEY_SOFT_LIMIT
        false PadNone peer_side None now 0 Replay.new 0 paths false false).

(** ** Rekeying *)

Fixpoint forward_secret (steps : nat) (secret : list Z) : result (list Z) CoreError :=
  match steps with
  | O => Ok secret
  | S n =>
    prk <-? ok_or (hkdf_from_prk secret) KeyDerivationError;
    forward_secret n (hkdf_expand prk "phantom-rekey-v1" 32)
  end.

Definition derive_forward_crypto (s : Session) (steps : Z) : result (list Z * CryptoState) CoreError :=
  secret <-? forward_secret (Z.to_nat steps) (traffic_secret s);
  new_crypto <-? crypto_state_new (caps s) secret (is_server s);
  Ok (secret, new_crypto).

Definition commit_forward_crypto (s : Session) (steps : Z) (final_secret : list Z) (new_crypto : CryptoState)
  : Session :=
  let s1 := set_crypto s new_crypto in
  let s2 := set_traffic_secret s1 final_secret in
  set_sess_epoch s2 (sat_add 8 (sess_epoch s2) steps).

Definition rekey (s : Session) : result Z CoreError * Session :=
  let current_epoch := sess_epoch s in
  if current_epoch =? u_max 8 then (Err (CryptoError EpochSaturated), s)
  else
    match derive_forward_crypto s 1 with
    | Err e => (Err e, s)
    | Ok (next_secret, new_crypto) =>
      let s1 := commit_forward_crypto s 1 next_secret new_crypto in
      (Ok (current_epoch + 1), set_rekey_unconfirmed s1 true)
    end.

(** The loop of [ratchet_to_epoch]; every pass advances the epoch, so 256 passes
    are more than it can make. *)
Fixpoint ratchet_loop (fuel : nat) (s : Session) (target : Z) : result () CoreError * Session :=
  match fuel with
  | O => (Ok (), s)
  | S fuel' =>
    if sess_epoch s <? target then
      match rekey s with
      | (Err e, s1) => (Err e, s1)
      | (Ok _, s1) => ratchet_loop fuel' s1 target
      end
    else (Ok (), s)
  end.
Definition ratchet_to_epoch (s : Session) (target : Z) : result () CoreError * Session :=
  ratchet_loop 256 s target.

Definition send_invocations (s : Session) : Z := send_counter (cs_session (crypto s)).
Definition set_rekey_threshold (s : Session) (n : Z) : Session := set_rekey_after s (Z.max n 1).
Definition send_needs_rekey (s : Session) : bool :=
  (sess_epoch s <? u_max 8) && (rekey_after s <=? send_invocations s).
Definition confirm_rekey_caught_up (s : Session) : Session := set_rekey_unconfirmed s false.

(** ** Packet protection *)

Definition next_send_pn (s : Session) : Z * Session :=
  (send_packet_number s, set_send_packet_number s (wrap 64 (send_packet_number s + 1))).

Definition build_packet_nonce (prefix : list Z) (h : PacketHeader) : list Z :=
  (prefix ++ be_encode 8 (packet_number h))%list.

Definition packet_aad (h : PacketHeader) (ext : list Z) : list Z := (to_aad_image h ++ ext)%list.

Definition set_cs_session (c : CryptoState) (x : CryptoSession) : CryptoState := mk_cs x (session_key c).

Definition aead_to_core {A} (r : result A AeadError) : result A CoreError :=
  match r with Ok a => Ok a | Err e => Err (CryptoError (AeadFailure e)) end.

Definition encrypt_packet (s : Session) (h : PacketHeader) (plaintext ext : list Z)
  : result (list Z) CoreError * Session :=
  let c := crypto s in
  let nonce := build_packet_nonce (nonce_prefix (cs_session c)) h in
  let '(r, x) := encrypt_with_nonce (cs_session c) nonce (packet_aad h ext) plaintext in
  (aead_to_core r, set_crypto s (set_cs_session c x)).

(** The replay check after a successful open. *)
Definition check_replay (s : Session) (pn : Z) : bool * Session :=
  let '(accepted, w) := Replay.accept 64 (recv_replay s) pn in
  let s1 := set_recv_replay s w in
  if accepted then (true, s1)
  else (false, set_replay_rejected_total s1 (wrap 64 (replay_rejected_total s1 + 1))).

Definition decrypt_packet (s : Session) (h : PacketHeader) (ciphertext ext : list Z)
  : result (list Z) CoreError * Session :=
  let c := crypto s in
  let nonce := build_packet_nonce (nonce_prefix (cs_session c)) h in
  let '(r, x) := decrypt_with_nonce (cs_session c) nonce (packet_aad h ext) ciphertext in
  let s1 := set_crypto s (set_cs_session c x) in
  match r with
  | Err e => (Err (CryptoError (AeadFailure e)), s1)
  | Ok plaintext =>
    let '(accepted, s2) := check_replay s1 (packet_number h) in
    if accepted then (Ok plaintext, s2) else (Err ReplayDetected, s2)
  end.

(** An open at the current epoch also confirms a pending rekey. *)
Definition decrypt_current (s : Session) (h : PacketHeader) (ciphertext ext : list Z)
  : result (list Z) CoreError * Session :=
  match decrypt_packet s h ciphertext ext with
  | (Ok pt, s1) => (Ok pt, confirm_rekey_caught_up s1)
  | (Err e, s1) => (Err e, s1)
  end.

(** The part of [decrypt_packet_accepting_rekey] that runs under the rekey lock. *)
Definition decrypt_forward (s : Session) (h : PacketHeader) (ciphertext ext : list Z)
  : result (list Z) CoreError * Session :=
  let cur := sess_epoch s in
  if epoch h =? cur then decrypt_current s h ciphertext ext
  else if epoch h <? cur then (Err (CryptoError EpochBehind), s)
  else
    let steps := epoch h - cur in
    if MAX_REKEY_CATCHUP <? steps then (Err (CryptoError EpochTooFarAhead), s)
    else
      match derive_forward_crypto s steps with
      | Err e => (Err e, s)
      | Ok (final_secret, final_crypto) =>
        let nonce := build_packet_nonce (nonce_prefix (cs_session final_crypto)) h in
        match decrypt_with_nonce (cs_session final_crypto) nonce (packet_aad h ext) ciphertext with
        | (Err e, _) => (Err (CryptoError (AeadFailure e)), s)
        | (Ok plaintext, x) =>
          let s1 := commit_forward_crypto s steps final_secret (set_cs_session final_crypto x) in
          let '(accepted, s2) := check_replay s1 (packet_number h) in
          if accepted then (Ok plaintext, confirm_rekey_caught_up s2) else (Err ReplayDetected, s2)
        end
      end.

Definition decrypt_packet_accepting_rekey (s : Session) (h : PacketHeader) (ciphertext ext : list Z)
  : result (list Z) CoreError * Session :=
  let cur := sess_epoch s in
  if epoch h =? cur then decrypt_current s h ciphertext ext
  else if epoch h <? cur then (Err (CryptoError EpochBehind), s)
  else if negb (flags_contains (flags h) REKEY) then (Err (CryptoError ForwardEpochUnflagged), s)
  else decrypt_forward s h ciphertext ext.

Definition hp_sample (p : list Z) : result (list Z) CoreError :=
  if (length p <? HP_SAMPLE_LEN)%nat then Err (CryptoError HpPayloadTooShort) else Ok (take HP_SAMPLE_LEN p).

Definition protect_packet (s : Session) (p : PhantomPacket) : result (list Z) CoreError :=
  sample <-? hp_sample (payload p);
  mask <-? mask_send (header_protection s) sample;
  Ok (to_wire_masked p mask).

Definition parse_protected (s : Session) (bytes : list Z) : result PhantomPacket CoreError :=
  match raw_from_wire bytes with
  | Err _ => Err (CryptoError HpMalformedPacket)
  | Ok raw =>
    sample <-? hp_sample (raw_payload raw);
    mask <-? mask_recv (header_protection s) sample;
    match unmask_header raw mask with
    | Err _ => Err (CryptoError HpUnmaskFailed)
    | Ok h => Ok (into_packet raw (with_session_id h (sess_id s)))
    end
  end.

(** ** Bookkeeping operations *)

Definition update_activity (s : Session) (now : Z) : Session :=
  set_keepalive_outstanding (set_last_activity s now) false.
Definition mark_keepalive_outstanding (s : Session) : Session := set_keepalive_outstanding s true.
Definition note_peer_closed (s : Session) : Session := set_peer_closed s true.
Definition set_resumption (s : Session) (secret : list Z) : Session := set_resumption_secret s (Some secret).
Definition resumption_hint (s : Session) : option (list Z * list Z) :=
  secret ← resumption_secret s; Some (sess_id s, secret).
Definition begin_path_validation (s : Session) (path_id : Z) (fresh : list Z) : option (list Z) * Session :=
  let reg1 := (register (path_registry s) path_id).2 in
  let '(c, reg2) := issue_challenge reg1 path_id fresh in
  (c, set_path_registry s reg2).
Definition register_unvalidated_path (s : Session) (path_id : Z) : Session :=
  match state (path_registry s) path_id with
  | None => set_path_registry s (register (path_registry s) path_id).2
  | Some _ => s
  end.
Definition complete_path_validation (s : Session) (path_id : Z) (response : list Z) : bool * Session :=
  let '(ok, reg) := verify_response (path_registry s) path_id response in
  (ok, set_path_registry s reg).

(** ** Sending *)

(** [None]: a rekey was due and failed; the caller must not send. *)
Definition rekey_before_stamp (s : Session) : option Z * Session :=
  let flag s := if rekey_unconfirmed s then REKEY else 0 in
  if send_needs_rekey s then
    match rekey s with
    | (Err _, s1) => (None, s1)
    | (Ok _, s1) => (Some (flag s1), s1)
    end
  else (Some (flag s), s).

(** What every frame sender does once it has its flags and plaintext: draw a packet
    number, stamp the header, seal, protect.  [None] when sealing fails. *)
Definition seal_frame (s : Session) (flag_bits stream path : Z) (plaintext : list Z) : option (list Z) * Session :=
  let '(pn, s1) := next_send_pn s in
  let h := with_path_id (with_epoch (header_new (sess_id s1) stream pn flag_bits) (sess_epoch s1)) path in
  match encrypt_packet s1 h plaintext [] with
  | (Err _, s2) => (None, s2)
  | (Ok ct, s2) =>
    match protect_packet s2 (packet_new h ct) with
    | Err _ => (None, s2)
    | Ok buf => (Some buf, s2)
    end
  end.

(** Size padding of a plaintext and the flag that goes with it. *)
Definition pad_frame (policy : PaddingPolicy) (plaintext : list Z) (flag_bits : Z) : list Z * Z :=
  let trailer := padding_trailer_len (len plaintext) policy in
  if 0 <? trailer then (append_padding plaintext trailer, Z.lor flag_bits PADDED) else (plaintext, flag_bits).

(** The bytes handed to the transport; what it does with them is outside. *)
Definition send_app_data (s : Session) (stream : Z) (data : list Z) (base_flags : Z) (reliable_offset : option Z)
  : option (list Z) * Session :=
  match rekey_before_stamp s with
  | (None, s1) => (None, s1)
  | (Some extra, s1) =>
    let flag_bits := Z.lor (Z.lor base_flags ENCRYPTED) extra in
    let plaintext := match reliable_offset with Some off => (be_encode 4 off ++ data)%list | None => data end in
    let '(padded, bits) := pad_frame (padding_policy s1) plaintext flag_bits in
    seal_frame s1 bits stream (send_path_id (cid s1)) padded
  end.

Definition send_window_update (s : Session) (stream limit : Z) : option (list Z) * Session :=
  match rekey_before_stamp s with
  | (None, s1) => (None, s1)
  | (Some extra, s1) =>
    seal_frame s1 (Z.lor (Z.lor ENCRYPTED WINDOW_UPDATE) extra) stream 0 (be_encode 8 limit)
  end.

Definition send_keepalive (s : Session) (is_pong : bool) : option (list Z) * Session :=
  match rekey_before_stamp s with
  | (None, s1) => (None, s1)
  | (Some extra, s1) =>
    let bits := Z.lor ENCRYPTED KEEPALIVE in
    let bits := if is_pong then Z.lor bits ACK else bits in
    seal_frame s1 (Z.lor bits extra) RAW_APP_STREAM_ID (send_path_id (cid s1)) []
  end.

Definition send_cover (s : Session) : option (list Z) * Session :=
  match rekey_before_stamp s with
  | (None, s1) => (None, s1)
  | (Some extra, s1) =>
    let '(padded, bits) := pad_frame Padme [] (Z.lor (Z.lor ENCRYPTED COVER) extra) in
    seal_frame s1 bits RAW_APP_STREAM_ID (send_path_id (cid s1)) padded
  end.

Definition send_control_close (s : Session) : option (list Z) * Session :=
  match rekey_before_stamp s with
  | (None, s1) => (None, s1)
  | (Some extra, s1) =>
    let '(padded, bits) := pad_frame Padme [CONTROL_CLOSE] (Z.lor (Z.lor ENCRYPTED CONTROL) extra) in
    seal_frame s1 bits RAW_APP_STREAM_ID (send_path_id (cid s1)) padded
  end.

Definition send_stream_sack (s : Session) (stream path : Z) (sack_wire : list Z) : option (list Z) * Session :=
  match rekey_before_stamp s with
  | (None, s1) => (None, s1)
  | (Some extra, s1) => seal_frame s1 (Z.lor (Z.lor ENCRYPTED ACK) extra) stream path sack_wire
  end.

(** ** Receiving *)

(** The receive path up to the routing of the plaintext: unprotect, check the
    session, open, strip the padding.  [None]: the packet is dropped. *)
Definition open_frame (s : Session) (now : Z) (p : PhantomPacket) : option (list Z) * Session :=
  if negb (bool_decide (session_id (header p) = sess_id s)) then (None, s)
  else
    let s1 := set_path_registry s (mark_seen (path_registry s) (path_id (header p)) now) in
    if negb (flags_contains (flags (header p)) ENCRYPTED) then (None, s1)
    else
      match decrypt_packet_accepting_rekey s1 (header p) (payload p) (extensions p) with
      | (Err _, s2) => (None, s2)
      | (Ok pt, s2) =>
        if flags_contains (flags (header p)) PADDED then
          match strip_padding pt with
          | Err _ => (None, s2)
          | Ok inner => (Some inner, s2)
          end
        else (Some pt, s2)
      end.

End Session.

Ltac simpl_session :=
  cbn [sess_id sess_state caps crypto header_protection cid traffic_secret sess_epoch rekey_after
    rekey_unconfirmed padding_policy is_server resumption_secret last_activity send_packet_number
    recv_replay replay_rejected_total path_registry peer_closed keepalive_outstanding set_sess_state
    set_crypto set_cid set_traffic_secret set_sess_epoch set_rekey_after set_rekey_unconfirmed
    set_padding_policy set_resumption_secret set_last_activity set_send_packet_number
    set_recv_replay set_replay_rejected_total set_path_registry set_peer_closed
    set_keepalive_outstanding] in *.

(** ** Invariant *)

Section Laws.
Context `{PrimitiveLaws}.

(** The traffic secret [n] rekeys after [init]. *)
Definition chain_secret (init : list Z) (n : nat) : list Z :=
  Nat.iter n (λ k, hkdf_expand k "phantom-rekey-v1" 32) init.

(** The AEAD state under a secret, and the same with its counters advanced. *)
Definition fresh_crypto (hw : HwCaps) (secret : list Z) (peer_side : bool) : CryptoState :=
  let sx := recommended_cipher hw in
  mk_cs (mk_crypto sx
           (derive_key_32 (if peer_side then recv_label sx else send_label sx) secret)
           (derive_key_32 (if peer_side then send_label sx else recv_label sx) secret)
           0 0 (take 4 (derive_key_32 "phantom-nonce-pfx-v1" secret)))
        (hkdf_expand secret "phantom-transport-key" 32).
Definition with_counters (c : CryptoState) (sc rc : Z) : CryptoState :=
  set_cs_session c (set_recv_counter (set_send_counter (cs_session c) sc) rc).

(** The key depth is the epoch, and every key is the one that depth dictates. *)
Record wf_session (init : list Z) (s : Session) : Prop := {
  wf_init : length init = 32%nat;
  wf_id : length (sess_id s) = 32%nat;
  wf_sess_epoch : 0 <= sess_epoch s <= 255;
  wf_secret : traffic_secret s = chain_secret init (Z.to_nat (sess_epoch s));
  wf_crypto : ∃ sc rc, in_u 64 sc ∧ in_u 64 rc ∧
    crypto s = with_counters (fresh_crypto (caps s) (traffic_secret s) (is_server s)) sc rc;
  wf_hp : header_protection s = hp_derive (recommended_cipher (caps s)) init (is_server s);
  wf_pn : in_u 64 (send_packet_number s);
}.

Lemma chain_secret_length init n : length init = 32%nat -> length (chain_secret init n) = 32%nat.
Proof. intros Hl. destruct n; [done|]. apply hkdf_expand_length. Qed.

Lemma hkdf_from_prk_ok k : length k = 32%nat -> hkdf_from_prk k = Some k.
Proof. intros Hk. unfold hkdf_from_prk. by rewrite Hk. Qed.

Lemma forward_secret_ok n k : length k = 32%nat -> forward_secret n k = Ok (chain_secret k n).
Proof.
  revert k. induction n as [|n IH]; intros k Hk; [done|].
  cbn [forward_secret]. rewrite hkdf_from_prk_ok by done. cbn [ok_or].
  rewrite IH by apply hkdf_expand_length. unfold chain_secret. by rewrite Nat.iter_succ_r.
Qed.

Lemma crypto_state_new_ok hw secret peer_side :
  length secret = 32%nat -> crypto_state_new hw secret peer_side = Ok (fresh_crypto hw secret peer_side).
Proof.
  intros Hl. unfold crypto_state_new, from_shared_secret, from_shared_secret_peer.
  rewrite hkdf_from_prk_ok by done. destruct peer_side; by rewrite build_ok.
Qed.

Lemma chain_secret_add init a b : chain_secret (chain_secret init a) b = chain_secret init (a + b).
Proof.
  unfold chain_secret. induction b as [|b IH]; [by rewrite Nat.add_0_r|].
  by rewrite Nat.add_succ_r, !Nat.iter_succ, IH.
Qed.

(** Deriving [steps] epochs ahead always succeeds. *)
Lemma derive_forward_ok init s steps :
  wf_session init s -> 0 <= steps ->
  let secret := chain_secret init (Z.to_nat (sess_epoch s + steps)) in
  derive_forward_crypto s steps = Ok (secret, fresh_crypto (caps s) secret (is_server s)).
Proof.
  intros Hwf Hs secret. unfold derive_forward_crypto. rewrite (wf_secret _ _ Hwf).
  pose proof (wf_sess_epoch _ _ Hwf).
  rewrite forward_secret_ok by (apply chain_secret_length, Hwf).
  rewrite chain_secret_add, <- Z2Nat.inj_add by lia. fold secret.
  rewrite crypto_state_new_ok; [done|]. apply chain_secret_length, Hwf.
Qed.

Lemma fresh_with_counters hw secret peer_side :
  fresh_crypto hw secret peer_side = with_counters (fresh_crypto hw secret peer_side) 0 0.
Proof. done. Qed.

Lemma commit_wf init s steps sc rc :
  wf_session init s -> 0 <= steps -> sess_epoch s + steps <= 255 -> in_u 64 sc -> in_u 64 rc ->
  let secret := chain_secret init (Z.to_nat (sess_epoch s + steps)) in
  let s' := commit_forward_crypto s steps secret (with_counters (fresh_crypto (caps s) secret (is_server s)) sc rc) in
  wf_session init s' ∧ sess_epoch s' = sess_epoch s + steps.
Proof.
  intros Hwf Hs Hmax Hsc Hrc secret s'. pose proof (wf_sess_epoch _ _ Hwf).
  assert (He : sess_epoch s' = sess_epoch s + steps).
  { unfold s', commit_forward_crypto. simpl_session. unfold sat_add. change (u_max 8) with 255. lia. }
  split; [|done]. split; rewrite ?He; try apply Hwf; [lia|done|]. by exists sc, rc.
Qed.

(** [rekey] below saturation: one step down the chain, flagged unconfirmed. *)
Lemma rekey_ok init s :
  wf_session init s -> sess_epoch s < 255 ->
  ∃ s', rekey s = (Ok (sess_epoch s + 1), s') ∧ wf_session init s' ∧
        sess_epoch s' = sess_epoch s + 1 ∧ rekey_unconfirmed s' = true ∧
        send_packet_number s' = send_packet_number s ∧ recv_replay s' = recv_replay s ∧
        caps s' = caps s ∧ is_server s' = is_server s ∧ sess_id s' = sess_id s ∧ cid s' = cid s.
Proof.
  intros Hwf Hlt. unfold rekey. destruct (Z.eqb_spec (sess_epoch s) (u_max 8)) as [E|]; [change (u_max 8) with 255 in E; lia|].
  rewrite (derive_forward_ok init) by (done || lia). eexists. split; [done|].
  destruct (commit_wf init s 1 0 0) as [Hwf' He]; [done|lia|lia|by split..|].
  rewrite <- fresh_with_counters in Hwf', He. split_and!; try done.
  destruct Hwf'. by split.
Qed.

Lemma rekey_saturated s : sess_epoch s = 255 -> rekey s = (Err (CryptoError EpochSaturated), s).
Proof. intros E. unfold rekey. by rewrite E. Qed.

(** Catching up reaches the target from any epoch, so the loop's fuel never runs out. *)
Lemma ratchet_loop_reaches fuel init target : ∀ s,
  wf_session init s -> target <= 255 -> target - sess_epoch s < Z.of_nat fuel ->
  ∃ s', ratchet_loop fuel s target = (Ok (), s') ∧ wf_session init s' ∧
        sess_epoch s' = Z.max (sess_epoch s) target.
Proof.
  induction fuel as [|fuel IH]; intros s Hw Ht Hf; cbn [ratchet_loop].
  { exists s. split_and!; [done|done|lia]. }
  destruct (Z.ltb_spec (sess_epoch s) target) as [Hlt|]; [|exists s; split_and!; [done|done|lia]].
  destruct (rekey_ok init s Hw ltac:(lia)) as (s1 & -> & Hw1 & E1 & _).
  destruct (IH s1 Hw1 Ht ltac:(lia)) as (s' & -> & Hw' & E'). exists s'. split_and!; [done|done|lia].
Qed.

Lemma ratchet_to_epoch_reaches init s target :
  wf_session init s -> target <= 255 ->
  ∃ s', ratchet_to_epoch s target = (Ok (), s') ∧ wf_session init s' ∧
        sess_epoch s' = Z.max (sess_epoch s) target.
Proof. intros Hw Ht. apply ratchet_loop_reaches; [done..|]. destruct Hw. unfold in_u in *. lia. Qed.

(** ** Opening packets *)

(** The AEAD state of this endpoint at an epoch. *)
Definition epoch_crypto (init : list Z) (s : Session) (e : Z) : CryptoSession :=
  cs_session (fresh_crypto (caps s) (chain_secret init (Z.to_nat e)) (is_server s)).

(** The packet authenticates under the key of the epoch it names. *)
Definition authentic (init : list Z) (s : Session) (h : PacketHeader) (ct ext pt : list Z) : Prop :=
  let c := epoch_crypto init s (epoch h) in
  aead_open (suite c) (recv_key c) (build_packet_nonce (nonce_prefix c) h) (packet_aad h ext) ct = Some pt.

(** The epochs the receive path is willing to try. *)
Definition epoch_admitted (s : Session) (h : PacketHeader) : Prop :=
  epoch h = sess_epoch s ∨
  (sess_epoch s < epoch h <= sess_epoch s + MAX_REKEY_CATCHUP ∧ flags_contains (flags h) REKEY = true).

(** What a successful open does to the session. *)
Definition opened (init : list Z) (s s' : Session) (h : PacketHeader) : Prop :=
  wf_session init s' ∧ sess_epoch s' = epoch h ∧ recv_replay s' = (Replay.accept 64 (recv_replay s) (packet_number h)).2 ∧
  send_packet_number s' = send_packet_number s ∧ caps s' = caps s ∧ is_server s' = is_server s ∧ sess_id s' = sess_id s.

Lemma crypto_unchanged s : set_crypto s (set_cs_session (crypto s) (cs_session (crypto s))) = s.
Proof. by destruct s as [? ? ? []]. Qed.

Lemma wf_crypto_at init s :
  wf_session init s -> ∃ sc rc, in_u 64 sc ∧ in_u 64 rc ∧
    cs_session (crypto s) = set_recv_counter (set_send_counter (epoch_crypto init s (sess_epoch s)) sc) rc ∧
    crypto s = with_counters (fresh_crypto (caps s) (chain_secret init (Z.to_nat (sess_epoch s))) (is_server s)) sc rc.
Proof.
  intros Hwf. destruct (wf_crypto _ _ Hwf) as (sc & rc & Hsc & Hrc & E).
  rewrite (wf_secret _ _ Hwf) in E. exists sc, rc. split_and!; try done. by rewrite E.
Qed.

(** Replacing the current AEAD counters keeps the invariant. *)
Lemma set_counters_wf init s sc rc :
  wf_session init s -> in_u 64 sc -> in_u 64 rc ->
  wf_session init (set_crypto s (with_counters (fresh_crypto (caps s)
     (chain_secret init (Z.to_nat (sess_epoch s))) (is_server s)) sc rc)).
Proof.
  intros Hwf Hsc Hrc. split; try apply Hwf. exists sc, rc. split_and!; try done.
  simpl_session. by rewrite (wf_secret _ _ Hwf).
Qed.

(** The replay verdict, on a session that just opened the packet. *)
Lemma check_replay_spec init s s1 h :
  wf_session init s1 -> sess_epoch s1 = epoch h -> recv_replay s1 = recv_replay s ->
  send_packet_number s1 = send_packet_number s -> caps s1 = caps s -> is_server s1 = is_server s -> sess_id s1 = sess_id s ->
  ∃ s2, check_replay s1 (packet_number h) = ((Replay.accept 64 (recv_replay s) (packet_number h)).1, s2) ∧
        opened init s s2 h ∧ opened init s (confirm_rekey_caught_up s2) h.
Proof.
  intros Hwf He Hr Hp Hc Hi Hd. unfold check_replay. rewrite Hr.
  destruct (accept 64 (recv_replay s) (packet_number h)) as [v w] eqn:Ea.
  destruct v; eexists; (split; [done|]); unfold opened; rewrite Ea; simpl_session;
    (split; split_and!; try done; destruct Hwf; by split).
Qed.

Lemma decrypt_with_nonce_cases c nonce aad ct :
  decrypt_with_nonce c nonce aad ct =
    if AEAD_MAX_INVOCATIONS <=? recv_counter c then (Err NonceExhausted, c)
    else match aead_open (suite c) (recv_key c) nonce aad ct with
         | None => (Err DecryptionFailed, c)
         | Some pt => (Ok pt, set_recv_counter c (wrap 64 (recv_counter c + 1)))
         end.
Proof. done. Qed.

(** The outcome of an open attempt: delivered, refused as a replay, or inert. *)
Definition open_outcome (init : list Z) (s : Session) (h : PacketHeader) (ct ext : list Z)
    (r : result (list Z) CoreError * Session) : Prop :=
  match r with
  | (Ok pt, s') =>
    epoch_admitted s h ∧ authentic init s h ct ext pt ∧ (Replay.accept 64 (recv_replay s) (packet_number h)).1 = true ∧
    opened init s s' h ∧ rekey_unconfirmed s' = false
  | (Err ReplayDetected, s') =>
    epoch_admitted s h ∧ (∃ pt, authentic init s h ct ext pt) ∧
    (Replay.accept 64 (recv_replay s) (packet_number h)).1 = false ∧ opened init s s' h
  | (Err e, s') =>
    s' = s ∧ ((e = CryptoError (AeadFailure NonceExhausted) ∧ AEAD_MAX_INVOCATIONS <= recv_counter (cs_session (crypto s)))
              ∨ ¬ (epoch_admitted s h ∧ ∃ pt, authentic init s h ct ext pt))
  end.

Lemma decrypt_current_outcome init s h ct ext :
  wf_session init s -> epoch h = sess_epoch s ->
  open_outcome init s h ct ext (decrypt_current s h ct ext).
Proof.
  intros Hwf He. destruct (wf_crypto_at _ _ Hwf) as (sc & rc & Hsc & Hrc & Ec & Ecs).
  unfold decrypt_current, decrypt_packet. rewrite decrypt_with_nonce_cases.
  destruct (Z.leb_spec AEAD_MAX_INVOCATIONS (recv_counter (cs_session (crypto s)))).
  { cbn. rewrite crypto_unchanged. auto. }
  assert (Hopen : ∀ r, aead_open (suite (cs_session (crypto s))) (recv_key (cs_session (crypto s)))
      (build_packet_nonce (nonce_prefix (cs_session (crypto s))) h) (packet_aad h ext) ct = r ->
      match r with Some pt => authentic init s h ct ext pt | None => ∀ pt, ¬ authentic init s h ct ext pt end).
  { intros r. rewrite Ec. unfold authentic. rewrite He. cbn. destruct r; [done|]. intros E pt. by rewrite E. }
  destruct (aead_open _ _ _ _ _) as [pt|] eqn:Eo; specialize (Hopen _ eq_refl).
  2:{ cbn. rewrite crypto_unchanged. split; [done|]. right. intros [_ [pt Hpt]]. by apply (Hopen pt). }
  set (s1 := set_crypto s _).
  assert (Hwf1 : wf_session init s1).
  { unfold s1. rewrite Ecs at 1. rewrite Ec. cbn [recv_counter set_recv_counter].
    apply (set_counters_wf init s sc (wrap 64 (rc + 1)) Hwf Hsc). by apply wrap_in_u. }
  destruct (check_replay_spec init s s1 h) as (s2 & -> & Ho & Hoc); [done..|].
  cbn in Hopen. destruct (accept 64 (recv_replay s) (packet_number h)).1 eqn:Ea; cbn; unfold epoch_admitted; eauto 10.
Qed.

Lemma decrypt_forward_outcome init s h ct ext :
  wf_session init s -> is_byte (epoch h) -> flags_contains (flags h) REKEY = true ->
  open_outcome init s h ct ext (decrypt_forward s h ct ext).
Proof.
  intros Hwf Hb Hf. unfold decrypt_forward.
  destruct (Z.eqb_spec (epoch h) (sess_epoch s)); [by apply decrypt_current_outcome|].
  destruct (Z.ltb_spec (epoch h) (sess_epoch s)).
  { cbn. split; [done|]. right. unfold epoch_admitted. intros [? _]. lia. }
  destruct (Z.ltb_spec MAX_REKEY_CATCHUP (epoch h - sess_epoch s)).
  { cbn. split; [done|]. right. unfold epoch_admitted. intros [? _]. lia. }
  rewrite (derive_forward_ok init) by (done || lia).
  replace (sess_epoch s + (epoch h - sess_epoch s)) with (epoch h) by lia.
  assert (Hadm : epoch_admitted s h) by (right; split; [lia|done]).
  rewrite decrypt_with_nonce_cases. fold (epoch_crypto init s (epoch h)).
  change (AEAD_MAX_INVOCATIONS <=? recv_counter (epoch_crypto init s (epoch h))) with false. cbv iota.
  destruct (aead_open _ _ _ _ _) as [pt|] eqn:Eo.
  2:{ cbn. split; [done|]. right. intros [_ [pt Hpt]]. unfold authentic in Hpt. congruence. }
  destruct (commit_wf init s (epoch h - sess_epoch s) 0 1) as [Hwf1 He1]; [done|unfold is_byte in Hb; lia..|by split|by split|].
  replace (sess_epoch s + (epoch h - sess_epoch s)) with (epoch h) in Hwf1, He1 by lia.
  set (s1 := commit_forward_crypto s _ _ _) in Hwf1, He1.
  change (commit_forward_crypto s _ _ _) with s1.
  destruct (check_replay_spec init s s1 h) as (s2 & -> & Ho & Hoc); [done..|].
  destruct (accept 64 (recv_replay s) (packet_number h)).1 eqn:Ea; cbn; eauto 10.
Qed.

Lemma decrypt_outcome init s h ct ext :
  wf_session init s -> is_byte (epoch h) ->
  open_outcome init s h ct ext (decrypt_packet_accepting_rekey s h ct ext).
Proof.
  intros Hwf Hb. unfold decrypt_packet_accepting_rekey.
  destruct (Z.eqb_spec (epoch h) (sess_epoch s)); [by apply decrypt_current_outcome|].
  destruct (Z.ltb_spec (epoch h) (sess_epoch s)).
  { cbn. split; [done|]. right. unfold epoch_admitted, MAX_REKEY_CATCHUP. intros [? _]. lia. }
  destruct (flags_contains (flags h) REKEY) eqn:Hf; [by apply decrypt_forward_outcome|].
  cbn. split; [done|]. right. intros [[?|[_ ?]] _]; congruence.
Qed.

(** ** Sealing packets *)

(** The two ends of one session. *)
Record peers (init : list Z) (a b : Session) : Prop := {
  peer_wf_a : wf_session init a;
  peer_wf_b : wf_session init b;
  peer_roles : is_server b = negb (is_server a);
  peer_suite : recommended_cipher (caps b) = recommended_cipher (caps a);
  peer_id : sess_id b = sess_id a;
}.

(** One end's sending keys are the other's receiving keys, epoch by epoch. *)
Lemma mirror_keys init a b e :
  peers init a b ->
  suite (epoch_crypto init b e) = suite (epoch_crypto init a e) ∧
  recv_key (epoch_crypto init b e) = send_key (epoch_crypto init a e) ∧
  nonce_prefix (epoch_crypto init b e) = nonce_prefix (epoch_crypto init a e) ∧
  hp_suite (header_protection b) = hp_suite (header_protection a) ∧
  hp_recv (header_protection b) = hp_send (header_protection a) ∧
  length (hp_send (header_protection a)) = 32%nat.
Proof.
  intros [Ha Hb Hr Hs _]. rewrite (wf_hp _ _ Ha), (wf_hp _ _ Hb).
  unfold epoch_crypto, fresh_crypto, hp_derive. cbn. rewrite Hs, Hr.
  destruct (is_server a); cbn; split_and!; try done; apply derive_key_32_length.
Qed.

Definition frame_header (s : Session) (bits stream path : Z) : PacketHeader :=
  with_path_id (with_epoch (header_new (sess_id s) stream (send_packet_number s) bits) (sess_epoch s)) path.

(** What sealing a frame changes: the packet number and the send counter. *)
Definition sealed (init : list Z) (s s' : Session) : Prop :=
  wf_session init s' ∧ sess_epoch s' = sess_epoch s ∧ recv_replay s' = recv_replay s ∧
  send_packet_number s' = wrap 64 (send_packet_number s + 1) ∧ caps s' = caps s ∧ is_server s' = is_server s ∧
  sess_id s' = sess_id s ∧ rekey_unconfirmed s' = rekey_unconfirmed s.

Lemma encrypt_packet_spec init s h pt :
  wf_session init s ->
  ∃ s', (encrypt_packet s h pt []).2 = s' ∧ wf_session init s' ∧ sess_epoch s' = sess_epoch s ∧
        recv_replay s' = recv_replay s ∧ send_packet_number s' = send_packet_number s ∧ caps s' = caps s ∧
        is_server s' = is_server s ∧ sess_id s' = sess_id s ∧ rekey_unconfirmed s' = rekey_unconfirmed s ∧
        header_protection s' = header_protection s ∧
        ∀ ct, (encrypt_packet s h pt []).1 = Ok ct ->
          let c := epoch_crypto init s (sess_epoch s) in
          aead_seal (suite c) (send_key c) (build_packet_nonce (nonce_prefix c) h) (packet_aad h []) pt = Some ct.
Proof.
  intros Hwf. destruct (wf_crypto_at _ _ Hwf) as (sc & rc & Hsc & Hrc & Ec & Ecs).
  assert (Hs : (encrypt_packet s h pt []).2 = set_crypto s (with_counters (fresh_crypto (caps s)
     (chain_secret init (Z.to_nat (sess_epoch s))) (is_server s)) (wrap 64 (sc + 1)) rc)).
  { unfold encrypt_packet, encrypt_with_nonce. rewrite Ecs. by destruct (AEAD_MAX_INVOCATIONS <=? _). }
  eexists. split; [exact Hs|]. split_and!; try done; [apply set_counters_wf; [done|by apply wrap_in_u|done]|].
  intros ct. unfold encrypt_packet, encrypt_with_nonce. rewrite Ec.
  destruct (AEAD_MAX_INVOCATIONS <=? _); [done|]. cbn. destruct (aead_seal _ _ _ _ _); [|done]. by intros [= ->].
Qed.

Lemma seal_frame_spec init s bits stream path pt wire s' :
  wf_session init s -> seal_frame s bits stream path pt = (Some wire, s') ->
  let h := frame_header s bits stream path in
  let c := epoch_crypto init s (sess_epoch s) in
  sealed init s s' ∧
  ∃ ct mask, aead_seal (suite c) (send_key c) (build_packet_nonce (nonce_prefix c) h) (packet_aad h []) pt = Some ct ∧
    compute_mask (hp_suite (header_protection s)) (hp_send (header_protection s)) (take 16 ct) = Ok mask ∧
    (16 <= length ct)%nat ∧ wire = to_wire_masked (packet_new h ct) mask.
Proof.
  intros Hwf. unfold seal_frame, next_send_pn.
  set (s1 := set_send_packet_number s (wrap 64 (send_packet_number s + 1))).
  assert (Hwf1 : wf_session init s1) by (destruct Hwf; split; try done; by apply wrap_in_u).
  change (with_path_id _ _) with (frame_header s bits stream path).
  destruct (encrypt_packet_spec init s1 (frame_header s bits stream path) pt Hwf1)
    as (s2 & Hs2 & Hwf2 & E1 & E2 & E3 & E4 & E5 & E6 & E7 & E8 & Hct).
  destruct (encrypt_packet s1 _ pt []) as [[ct|?] s2']; cbn in Hs2; subst s2'; [|done].
  specialize (Hct ct eq_refl).
  unfold protect_packet, hp_sample, mask_send. cbn [payload packet_new].
  destruct (Nat.ltb_spec (length ct) HP_SAMPLE_LEN) as [|Hl]; [done|]. rewrite E8.
  destruct (compute_mask _ _ _) as [mask|] eqn:Em; [|done]. intros [= <- <-]. split.
  - split_and!; try done; by rewrite ?E1, ?E2, ?E3, ?E4, ?E5, ?E6, ?E7.
  - exists ct, mask. split_and!; done.
Qed.

(** The receiving end recovers the header and the ciphertext. *)
Lemma parse_sealed init a b bits stream path ct mask :
  peers init a b -> in_u 16 bits -> in_u 16 stream -> is_byte path -> (16 <= length ct)%nat ->
  compute_mask (hp_suite (header_protection a)) (hp_send (header_protection a)) (take 16 ct) = Ok mask ->
  parse_protected b (to_wire_masked (packet_new (frame_header a bits stream path) ct) mask)
  = Ok (packet_new (frame_header a bits stream path) ct).
Proof.
  intros Hp Hb Hs Hi Hl Hm. destruct (mirror_keys init a b 0 Hp) as (_ & _ & _ & E1 & E2 & E3).
  assert (Hwfh : wf_header (frame_header a bits stream path)).
  { destruct (peer_wf_a _ _ _ Hp). split; cbn; try done. unfold is_byte. lia. }
  destruct (compute_mask_ok (hp_suite (header_protection a)) (hp_send (header_protection a)) (take 16 ct) E3)
    as (m & Hm' & Hml); [rewrite length_take; lia|].
  assert (m = mask) as -> by congruence.
  unfold parse_protected. rewrite raw_from_wire_masked. cbn [raw_payload].
  unfold hp_sample. destruct (Nat.ltb_spec (length (payload (packet_new (frame_header a bits stream path) ct))) HP_SAMPLE_LEN) as [Hx|];
    [cbn in Hx; unfold HP_SAMPLE_LEN in Hx; lia|].
  unfold mask_recv. cbn [payload packet_new]. rewrite E1, E2. unfold HP_SAMPLE_LEN. rewrite Hm.
  rewrite unmask_header_masked by (done || (unfold HP_PROTECTED_LEN, HEADER_SIZE, HP_PROTECTED_OFFSET; lia)).
  cbn. rewrite (peer_id _ _ _ Hp). by destruct a.
Qed.

(** A sealed frame whose epoch the receiver admits and whose number is new opens to
    its plaintext. *)
Lemma seal_opens init a b bits stream path pt wire a' :
  peers init a b -> in_u 16 bits -> in_u 16 stream -> is_byte path ->
  seal_frame a bits stream path pt = (Some wire, a') ->
  epoch_admitted b (frame_header a bits stream path) ->
  recv_counter (cs_session (crypto b)) < AEAD_MAX_INVOCATIONS ->
  (Replay.accept 64 (recv_replay b) (send_packet_number a)).1 = true ->
  ∃ ct b', parse_protected b wire = Ok (packet_new (frame_header a bits stream path) ct) ∧
    decrypt_packet_accepting_rekey b (frame_header a bits stream path) ct [] = (Ok pt, b') ∧
    opened init b b' (frame_header a bits stream path) ∧ rekey_unconfirmed b' = false.
Proof.
  intros Hp Hb Hs Hi Hseal Hadm Hrc Hacc.
  destruct (seal_frame_spec init _ _ _ _ _ _ _ (peer_wf_a _ _ _ Hp) Hseal) as (_ & ct & mask & Hct & Hm & Hl & ->).
  set (h := frame_header a bits stream path) in *.
  destruct (mirror_keys init a b (sess_epoch a) Hp) as (E1 & E2 & E3 & _).
  assert (Hauth : authentic init b h ct [] pt).
  { unfold authentic. change (epoch h) with (sess_epoch a). rewrite E1, E2, E3. by apply open_seal. }
  pose proof (decrypt_outcome init b h ct [] (peer_wf_b _ _ _ Hp)) as Ho.
  assert (He : is_byte (epoch h)) by (pose proof (wf_sess_epoch _ _ (peer_wf_a _ _ _ Hp)); split; cbn; lia).
  specialize (Ho He).
  exists ct. unfold h. rewrite (parse_sealed init) by done. fold h.
  destruct (decrypt_packet_accepting_rekey b h ct []) as [[pt'|e] b'].
  - destruct Ho as (_ & Hauth' & _ & Hop & Hu). exists b'. unfold authentic in *.
    assert (pt' = pt) as -> by congruence. done.
  - exfalso. change (packet_number h) with (send_packet_number a) in Ho.
    destruct e; try destruct Ho as [_ [[_ ?]|Hn]]; try lia; try (apply Hn; eauto).
    destruct Ho as (_ & _ & Ha & _). change (packet_number h) with (send_packet_number a) in Ha. congruence.
Qed.

Lemma rekey_before_stamp_spec init s extra s' :
  wf_session init s -> rekey_before_stamp s = (Some extra, s') ->
  wf_session init s' ∧ extra = (if rekey_unconfirmed s' then REKEY else 0) ∧
  ((sess_epoch s' = sess_epoch s ∧ rekey_unconfirmed s' = rekey_unconfirmed s) ∨
   (sess_epoch s' = sess_epoch s + 1 ∧ rekey_unconfirmed s' = true)) ∧
  send_packet_number s' = send_packet_number s ∧ recv_replay s' = recv_replay s ∧
  caps s' = caps s ∧ is_server s' = is_server s ∧ sess_id s' = sess_id s ∧ cid s' = cid s.
Proof.
  intros Hwf. unfold rekey_before_stamp, send_needs_rekey. change (u_max 8) with 255.
  destruct (Z.ltb_spec (sess_epoch s) 255); cbn [andb]; [destruct (_ <=? _)|].
  - destruct (rekey_ok init s Hwf) as (s1 & -> & Hwf1 & E1 & E2 & E3 & E4 & E5 & E6 & E7 & E8); [done|].
    intros [= <- <-]. split_and!; auto.
  - intros [= <- <-]. split_and!; auto.
  - intros [= <- <-]. split_and!; auto.
Qed.

Lemma lor_contains a b n : 0 <= n -> flags_contains (Z.lor a b) (2 ^ n) = flags_contains a (2 ^ n) || flags_contains b (2 ^ n).
Proof. intros Hn. rewrite !testbit_flag by done. apply Z.lor_spec. Qed.

(** Padding sets its flag exactly when it has something to strip. *)
Lemma pad_frame_spec policy pt bits padded bits' :
  in_u 16 bits -> flags_contains bits PADDED = false -> pad_frame policy pt bits = (padded, bits') ->
  in_u 16 bits' ∧
  (∀ n, 0 <= n -> n <> 13 -> flags_contains bits' (2 ^ n) = flags_contains bits (2 ^ n)) ∧
  (if flags_contains bits' PADDED then strip_padding padded = Ok pt else padded = pt).
Proof.
  intros Hb Hp. unfold pad_frame. destruct (trailer_cases (len pt) policy) as [[Ht _]|[Ht _]]; [unfold len; lia|..].
  - rewrite Ht. intros [= <- <-]. by rewrite Hp.
  - destruct (Z.ltb_spec 0 (padding_trailer_len (len pt) policy)); [|unfold PAD_LEN_FIELD in Ht; lia].
    intros [= <- <-]. split_and!.
    + by apply in_u_lor.
    + intros n Hn Hne. rewrite lor_contains by done. change PADDED with (2 ^ 13).
      rewrite (testbit_flag (2 ^ 13)) by done. by rewrite Z.pow2_bits_false, orb_false_r by lia.
    + change PADDED with (2 ^ 13). rewrite lor_contains by done.
      change (flags_contains (2 ^ 13) (2 ^ 13)) with true. rewrite orb_true_r. by apply strip_append.
Qed.

(** The flags of an application frame: those asked for, ENCRYPTED, and REKEY while a
    rekey is unconfirmed; padding adds only its own. *)
Lemma app_frame_flags policy pt base unconfirmed padded bits :
  in_u 16 base -> flags_contains base PADDED = false ->
  pad_frame policy pt (Z.lor (Z.lor base ENCRYPTED) (if unconfirmed : bool then REKEY else 0)) = (padded, bits) ->
  in_u 16 bits ∧ flags_contains bits ENCRYPTED = true ∧ (unconfirmed = true -> flags_contains bits REKEY = true) ∧
  (if flags_contains bits PADDED then strip_padding padded = Ok pt else padded = pt).
Proof.
  intros Hbase Hpad Hpf.
  assert (Hin : in_u 16 (Z.lor (Z.lor base ENCRYPTED) (if unconfirmed then REKEY else 0))).
  { apply in_u_lor; [by apply in_u_lor|]. by destruct unconfirmed. }
  assert (Hnp : flags_contains (Z.lor (Z.lor base ENCRYPTED) (if unconfirmed then REKEY else 0)) PADDED = false).
  { change PADDED with (2 ^ 13). rewrite !lor_contains by done. change (2 ^ 13) with PADDED. rewrite Hpad.
    by destruct unconfirmed. }
  destruct (pad_frame_spec _ _ _ _ _ Hin Hnp Hpf) as (Hbits & Hsame & Hstrip).
  split_and!; [done| | |done].
  - change ENCRYPTED with (2 ^ 5) at 1. rewrite Hsame, !lor_contains by done. cbn. by rewrite orb_true_r.
  - intros ->. change REKEY with (2 ^ 8) at 1. rewrite Hsame, !lor_contains by done. by rewrite orb_true_r.
Qed.

Lemma open_frame_ok s now h ct padded pt s' :
  session_id h = sess_id s -> flags_contains (flags h) ENCRYPTED = true ->
  decrypt_packet_accepting_rekey (set_path_registry s (mark_seen (path_registry s) (path_id h) now)) h ct []
    = (Ok padded, s') ->
  (if flags_contains (flags h) PADDED then strip_padding padded = Ok pt else padded = pt) ->
  open_frame s now (packet_new h ct) = (Some pt, s').
Proof.
  intros Hid He Hd Hstrip. unfold open_frame. cbn [header packet_new payload extensions].
  rewrite bool_decide_true, He by done. cbn [negb]. rewrite Hd. destruct (flags_contains (flags h) PADDED); by rewrite Hstrip.
Qed.

Lemma session_new_wf hw now id secret peer_side :
  length secret = 32%nat -> length id = 32%nat ->
  ∃ s, session_new hw now id secret peer_side = Ok s ∧ wf_session secret s ∧
       sess_epoch s = 0 ∧ caps s = hw ∧ is_server s = peer_side ∧ sess_id s = id.
Proof.
  intros Hs Hid. unfold session_new. rewrite crypto_state_new_ok by done. eexists. split; [done|].
  split_and!; try done. split; try done. by exists 0, 0.
Qed.

(** The two ends of a handshake start as peers when their platforms agree on the suite. *)
Lemma session_new_peers hw hw' now id secret a b :
  length secret = 32%nat -> length id = 32%nat -> recommended_cipher hw' = recommended_cipher hw ->
  session_new hw now id secret false = Ok a -> session_new hw' now id secret true = Ok b -> peers secret a b.
Proof.
  intros Hs Hid Hc Ha Hb.
  destruct (session_new_wf hw now id secret false Hs Hid) as (a0 & E & Hwa & _ & Ca & Ra & Ia).
  destruct (session_new_wf hw' now id secret true Hs Hid) as (b0 & E' & Hwb & _ & Cb & Rb & Ib).
  assert (a0 = a) as -> by congruence. assert (b0 = b) as -> by congruence.
  split; [done|done| | |]; rewrite ?Ra, ?Rb, ?Ca, ?Cb, ?Ia, ?Ib; done.
Qed.

End Laws.

(** ** Properties *)

(** C1: Application data is delivered exactly across a session: whatever the padding
    policy, and also when the send triggers a rekey or the receiver is up to fifteen
    epochs behind an unconfirmed one, the bytes [send_app_data] puts on the wire
    unmask and open at the peer to the same stream, packet number and plaintext (the
    reliable offset, then the data), and the peer has followed to the sender's
    epoch. *)
Theorem session_delivers `{PrimitiveLaws} (init : list Z) (a b a' : Session) (now stream base : Z)
    (data : list Z) (off : option Z) (wire : list Z) :
  peers init a b -> in_u 16 base -> flags_contains base PADDED = false -> in_u 16 stream ->
  is_byte (send_path_id (cid a)) ->
  sess_epoch b <= sess_epoch a < sess_epoch b + MAX_REKEY_CATCHUP ->
  (sess_epoch b < sess_epoch a -> rekey_unconfirmed a = true) ->
  recv_counter (cs_session (crypto b)) < AEAD_MAX_INVOCATIONS ->
  (Replay.accept 64 (recv_replay b) (send_packet_number a)).1 = true ->
  send_app_data a stream data base off = (Some wire, a') ->
  ∃ p b', parse_protected b wire = Ok p ∧
    stream_id (header p) = stream ∧ packet_number (header p) = send_packet_number a ∧
    open_frame b now p = (Some (match off with Some o => be_encode 4 o ++ data | None => data end)%list, b') ∧
    wf_session init b' ∧ sess_epoch b' = sess_epoch a' ∧ rekey_unconfirmed b' = false.
Proof.
  intros Hp Hbase Hpad Hstream Hpath Hlag Hunc Hrc Hacc. unfold send_app_data.
  destruct (rekey_before_stamp a) as [[extra|] a1] eqn:Hr; [|done].
  destruct (rekey_before_stamp_spec init a extra a1 (peer_wf_a _ _ _ Hp) Hr)
    as (Hwf1 & Hx & Hep & E1 & E2 & E3 & E4 & E5 & E6).
  set (pt := match off with Some o => _ | None => _ end). subst extra.
  destruct (pad_frame _ _ _) as [padded bits] eqn:Hpf. intros Hseal.
  destruct (app_frame_flags _ _ _ _ _ _ Hbase Hpad Hpf) as (Hbits & Henc & Hrk & Hstrip).
  set (h := frame_header a1 bits stream (send_path_id (cid a1))).
  set (b1 := set_path_registry b (mark_seen (path_registry b) (path_id h) now)).
  assert (Hp1 : peers init a1 b1) by (destruct Hp as [? Hb ? ? ?]; split; [done|destruct Hb; by split|cbn; congruence..]).
  assert (Hadm : epoch_admitted b1 h).
  { unfold epoch_admitted. change (epoch h) with (sess_epoch a1). change (sess_epoch b1) with (sess_epoch b).
    change (flags h) with bits. destruct (decide (sess_epoch a1 = sess_epoch b)); [by left|right].
    split; [lia|]. apply Hrk. destruct Hep as [[? ->]|[? ->]]; [apply Hunc; lia|done]. }
  destruct (seal_opens init a1 b1 bits stream (send_path_id (cid a1)) padded wire a')
    as (ct & b' & Hparse & Hdec & (Hwf' & He' & _) & Hu); [done..|by rewrite E6|done|done|done|by rewrite E1|].
  destruct (seal_frame_spec init _ _ _ _ _ _ _ Hwf1 Hseal) as [(_ & Hea & _) _].
  exists (packet_new h ct), b'. split_and!; [exact Hparse|done|done| |done|by rewrite Hea|done].
  apply (open_frame_ok _ _ _ _ padded); [|done..]. rewrite (peer_id _ _ _ Hp). exact E5.
Qed.

Definition toy_pair (hw_server : bool) (server : bool) : Session :=
  unwrap (@session_new toy_primitives (mk_caps (if server then hw_server else true)) 0 (replicate 32 1) (replicate 32 9) server)
    ltac:(by destruct hw_server, server).

Lemma toy_peers : @peers toy_primitives (replicate 32 9) (toy_pair true false) (toy_pair true true).
Proof.
  apply (session_new_peers (mk_caps true) (mk_caps true) 0 (replicate 32 1)); try done; apply unwrap_eq.
Qed.

Lemma session_delivers_witness :
  ∃ wire a' p b',
    @send_app_data toy_primitives (toy_pair true false) 3 [1; 2] RELIABLE (Some 7) = (Some wire, a') ∧
    @parse_protected toy_primitives (toy_pair true true) wire = Ok p ∧
    @open_frame toy_primitives (toy_pair true true) 5 p = (Some [0; 0; 0; 7; 1; 2], b').
Proof.
  destruct (@send_app_data toy_primitives (toy_pair true false) 3 [1; 2] RELIABLE (Some 7)) as [[wire|] a'] eqn:E;
    [|exfalso; vm_compute in E; congruence].
  destruct (session_delivers (H := toy_primitives) (replicate 32 9) (toy_pair true false) (toy_pair true true) a' 5 3 RELIABLE [1; 2] (Some 7) wire)
    as (p & b' & H1 & _ & _ & H2 & _).
  - apply toy_peers.
  - by split.
  - reflexivity.
  - by split.
  - by split.
  - vm_compute. intuition congruence.
  - done.
  - reflexivity.
  - vm_compute. reflexivity.
  - exact E.
  - exists wire, a', p, b'. split_and!; [reflexivity|exact H1|exact H2].
Defined.


Definition sample_frame : PacketHeader := @frame_header (toy_pair true false) ENCRYPTED 3 0.


(** Each side picks its cipher suite from its own hardware; nothing negotiates it.
    On a default build a client with AES instructions and a server without them hold
    sessions of different suites, for the AEAD and for the header mask. *)
Theorem suite_is_not_negotiated `{PrimitiveLaws} (hw hw' : HwCaps) (now : Z) (id secret : list Z) (a b : Session) :
  fips = false -> has_hw_aes hw <> has_hw_aes hw' -> length secret = 32%nat ->
  session_new hw now id secret false = Ok a -> session_new hw' now id secret true = Ok b ->
  suite (cs_session (crypto a)) <> suite (cs_session (crypto b)) ∧
  hp_suite (header_protection a) <> hp_suite (header_protection b).
Proof.
  intros Hf Hhw Hs. unfold session_new. rewrite !crypto_state_new_ok by done. intros [= <-] [= <-].
  unfold hp_derive. cbn. unfold recommended_cipher. rewrite Hf.
  destruct (has_hw_aes hw), (has_hw_aes hw'); cbn; split; congruence.
Qed.

Lemma suite_is_not_negotiated_witness :
  suite (cs_session (crypto (toy_pair false false))) <> suite (cs_session (crypto (toy_pair false true))).
Proof.
  apply (suite_is_not_negotiated (H := toy_primitives) (mk_caps true) (mk_caps false) 0 (replicate 32 1) (replicate 32 9));
    try done; apply unwrap_eq.
Defined.
