(* ===== verification/Channel.v ===== *)
(** * The session as a secure channel

    Traces of one endpoint: any interleaving of sealed frames, rekeys and received
    packets, the latter chosen by the network.  Sealed frames never share a nonce,
    and what is delivered was sent, once. *)

From Stdlib Require Import ZArith Lia String.
From stdpp Require Import base numbers option gmap sets list.
From S2P Require Import Prelude Errors Replay Wire Path Crypto Shaping Cid Session.

Local Open Scope Z_scope.

Section Trace.
Context `{Primitives}.

(** Every frame sender is an optional rekey followed by a sealed frame. *)
Inductive op :=
| Seal (bits stream path : Z) (pt : list Z)
| Rekey
| Receive (h : PacketHeader) (ct ext : list Z).

Definition step (s : Session) (o : op) : Session :=
  match o with
  | Seal bits stream path pt => (seal_frame s bits stream path pt).2
  | Rekey => (rekey s).2
  | Receive h ct ext => (decrypt_packet_accepting_rekey s h ct ext).2
  end.

(** The key and nonce an operation seals under. *)
Definition nonces_of (s : Session) (o : op) : list (list Z * list Z) :=
  match o with
  | Seal bits stream path pt =>
    [(send_key (cs_session (crypto s)),
      build_packet_nonce (nonce_prefix (cs_session (crypto s))) (frame_header s bits stream path))]
  | _ => []
  end.

(** The packet an operation delivers. *)
Definition delivered_of (s : Session) (o : op) : list (PacketHeader * list Z) :=
  match o with
  | Receive h ct ext =>
    match (decrypt_packet_accepting_rekey s h ct ext).1 with Ok pt => [(h, pt)] | Err _ => [] end
  | _ => []
  end.

(** The header and plaintext an operation seals. *)
Definition sealed_of (s : Session) (o : op) : list (PacketHeader * list Z) :=
  match o with
  | Seal bits stream path pt => [(frame_header s bits stream path, pt)]
  | _ => []
  end.

Fixpoint trace {A} (out : Session -> op -> list A) (s : Session) (ops : list op) : list A :=
  match ops with
  | [] => []
  | o :: ops' => (out s o ++ trace out (step s o) ops')%list
  end.

(** Inputs the parser can produce. *)
Definition wf_op (o : op) : Prop :=
  match o with Receive h _ _ => is_byte (epoch h) ∧ in_u 64 (packet_number h) | _ => True end.

Definition is_seal (o : op) : bool := match o with Seal _ _ _ _ => true | _ => false end.
Definition seals (ops : list op) : Z := len (filter (λ o, is_seal o = true) ops).

End Trace.

Section Laws.
Context `{PrimitiveLaws}.

Lemma seal_frame_step init s bits stream path pt :
  wf_session init s -> sealed init s (seal_frame s bits stream path pt).2.
Proof.
  intros Hwf. unfold seal_frame, next_send_pn.
  set (s1 := set_send_packet_number s (wrap 64 (send_packet_number s + 1))).
  assert (Hwf1 : wf_session init s1) by (destruct Hwf; split; try done; by apply wrap_in_u).
  change (with_path_id _ _) with (frame_header s bits stream path).
  destruct (encrypt_packet_spec init s1 (frame_header s bits stream path) pt Hwf1)
    as (s2 & Hs2 & Hwf2 & E1 & E2 & E3 & E4 & E5 & E6 & E7 & E8 & _).
  destruct (encrypt_packet s1 _ pt []) as [[ct|?] s2']; cbn in Hs2; subst s2'; [destruct (protect_packet _ _)|];
    unfold sealed; cbn [snd]; by rewrite E1, E2, E3, E4, E5, E6, E7.
Qed.

Lemma prefix_length init s : wf_session init s -> length (nonce_prefix (cs_session (crypto s))) = 4%nat.
Proof.
  intros Hwf. destruct (wf_crypto _ _ Hwf) as (sc & rc & _ & _ & ->). cbn.
  rewrite length_take, derive_key_32_length. done.
Qed.

Lemma receive_step init s h ct ext :
  wf_session init s -> is_byte (epoch h) ->
  let s' := (decrypt_packet_accepting_rekey s h ct ext).2 in
  wf_session init s' ∧ send_packet_number s' = send_packet_number s ∧
  ∀ pt, (decrypt_packet_accepting_rekey s h ct ext).1 = Ok pt -> authentic init s h ct ext pt.
Proof.
  intros Hwf Hb s'. pose proof (decrypt_outcome init s h ct ext Hwf Hb) as Ho. unfold s'.
  destruct (decrypt_packet_accepting_rekey s h ct ext) as [[pt|e] s'']; cbn in *.
  - destruct Ho as (_ & Ha & _ & (? & _ & _ & ? & _) & _). split_and!; [done..|]. by intros pt' [= <-].
  - destruct e; try (destruct Ho as [-> _]; done).
    destruct Ho as (_ & _ & _ & (? & _ & _ & ? & _)). done.
Qed.

Lemma step_wf init s o :
  wf_session init s -> wf_op o ->
  wf_session init (step s o) ∧
  send_packet_number (step s o) = (if is_seal o then wrap 64 (send_packet_number s + 1) else send_packet_number s).
Proof.
  intros Hwf Ho. destruct o as [bits stream path pt| |h ct ext]; cbn.
  - destruct (seal_frame_step init s bits stream path pt Hwf) as (? & _ & _ & ? & _). done.
  - destruct (decide (sess_epoch s = 255)); [by rewrite rekey_saturated|].
    pose proof (wf_sess_epoch _ _ Hwf).
    destruct (rekey_ok init s Hwf) as (s' & -> & ? & _ & _ & ? & _); [lia|]. done.
  - destruct Ho as [Hb _]. destruct (receive_step init s h ct ext Hwf Hb) as (? & ? & _). done.
Qed.

(** ** Nonces *)

Lemma seals_cons o ops : seals (o :: ops) = (if is_seal o then 1 else 0) + seals ops.
Proof.
  unfold seals, len. rewrite filter_cons. destruct (decide _), (is_seal o); try done; cbn [length]; lia.
Qed.

Lemma seals_nonneg ops : 0 <= seals ops.
Proof. unfold seals, len. lia. Qed.

(** The trailing eight bytes of the nonces are the consecutive packet numbers. *)
Lemma nonce_numbers init s ops :
  wf_session init s -> Forall wf_op ops -> send_packet_number s + seals ops <= 2 ^ 64 ->
  (λ kn, drop 4 kn.2) <$> trace nonces_of s ops = be_encode 8 <$> seqZ (send_packet_number s) (seals ops).
Proof.
  intros Hwf Hops. revert s Hwf. induction Hops as [|o ops Ho Hops IH]; intros s Hwf Hb; [done|].
  cbn [trace]. rewrite fmap_app, seals_cons in *. destruct (step_wf init s o Hwf Ho) as [Hwf' Hpn].
  pose proof (seals_nonneg ops). pose proof (wf_pn _ _ Hwf) as Hu.
  destruct o as [bits stream path pt| |h ct ext]; cbn [is_seal] in *.
  2-3: rewrite IH by (done || lia); rewrite Hpn; done.
  assert (Hseq : seqZ (send_packet_number (step s (Seal bits stream path pt))) (seals ops)
                 = seqZ (send_packet_number s + 1) (seals ops)).
  { destruct (decide (seals ops = 0)) as [->|]; [done|]. by rewrite Hpn, wrap_small by (unfold in_u in *; lia). }
  rewrite IH; [|done|].
  2:{ rewrite Hpn. pose proof (wrap_in_u 64 (send_packet_number s + 1)) as Hw. unfold in_u in *.
      destruct (decide (send_packet_number s + 1 = 2 ^ 64)); [lia|]. rewrite wrap_small by (unfold in_u; lia). lia. }
  rewrite Hseq, (seqZ_cons (send_packet_number s)) by lia.
  replace (Z.pred (1 + seals ops)) with (seals ops) by lia. rewrite <- Z.add_1_r.
  cbn [nonces_of fmap list_fmap app snd]. f_equal. unfold build_packet_nonce.
  rewrite drop_app_exact; [done|]. by rewrite (prefix_length init).
Qed.

(** ** Deliveries *)

Lemma spec_accept_cases sp n :
  seen sp ⊆ seen (spec_accept sp n).2 ∧
  ((top sp = None -> seen sp = ∅) -> (spec_accept sp n).1 = true -> (n ∉ seen sp) ∧ n ∈ seen (spec_accept sp n).2).
Proof.
  unfold spec_accept. destruct (top sp) as [t|].
  - case_bool_decide as Hd; cbn; (split; [set_solver|]); [|done]. intros _ _. destruct Hd. set_solver.
  - cbn. split; [set_solver|]. intros He _. rewrite He by done. set_solver.
Qed.

(** An operation does not change the keys the session accepts. *)
Lemma authentic_step init s o h ct ext pt :
  wf_session init s -> wf_op o -> authentic init (step s o) h ct ext pt -> authentic init s h ct ext pt.
Proof.
  intros Hwf Ho. assert (Hk : caps (step s o) = caps s ∧ is_server (step s o) = is_server s).
  { destruct o as [bits stream path p| |h' ct' ext']; cbn.
    - destruct (seal_frame_step init s bits stream path p Hwf) as (_ & _ & _ & _ & ? & ? & _). done.
    - destruct (decide (sess_epoch s = 255)); [by rewrite rekey_saturated|]. pose proof (wf_sess_epoch _ _ Hwf).
      destruct (rekey_ok init s Hwf) as (s' & -> & _ & _ & _ & _ & _ & ? & ? & _); [lia|]. done.
    - destruct Ho as [Hb _]. pose proof (decrypt_outcome init s h' ct' ext' Hwf Hb) as Hout.
      destruct (decrypt_packet_accepting_rekey s h' ct' ext') as [[p|e] s']; cbn in *.
      + destruct Hout as (_ & _ & _ & (_ & _ & _ & _ & ? & ? & _) & _). done.
      + destruct e; try (destruct Hout as [-> _]; done). destruct Hout as (_ & _ & _ & (_ & _ & _ & _ & ? & ? & _)). done. }
  destruct Hk as [E1 E2]. unfold authentic, epoch_crypto. by rewrite E1, E2.
Qed.

(** The replay window stands for a set of accepted packet numbers. *)
Definition replay_ok (s : Session) (sp : seen_set) : Prop :=
  represents (recv_replay s) sp ∧ in_u 64 (high_watermark (recv_replay s)).

(** One operation delivers at most one packet, with a number not accepted before. *)
Lemma step_delivers init s sp o :
  wf_session init s -> wf_op o -> replay_ok s sp ->
  ∃ sp', replay_ok (step s o) sp' ∧ seen sp ⊆ seen sp' ∧
    (delivered_of s o = [] ∨ ∃ h pt, delivered_of s o = [(h, pt)] ∧ (packet_number h ∉ seen sp) ∧ packet_number h ∈ seen sp').
Proof.
  intros Hwf Ho [Hrep Hhw]. destruct o as [bits stream path pt| |h ct ext]; cbn [step delivered_of].
  - destruct (seal_frame_step init s bits stream path pt Hwf) as (_ & _ & E & _).
    exists sp. unfold replay_ok. rewrite E. auto.
  - exists sp. destruct (decide (sess_epoch s = 255)); [rewrite rekey_saturated by done; by split; [|auto]|].
    pose proof (wf_sess_epoch _ _ Hwf).
    destruct (rekey_ok init s Hwf) as (s' & -> & _ & _ & _ & _ & E & _); [lia|]. unfold replay_ok. cbn. rewrite E. auto.
  - destruct Ho as [Hb Hpn]. pose proof (decrypt_outcome init s h ct ext Hwf Hb) as Hout.
    destruct (accept_refines 64 (recv_replay s) sp (packet_number h)) as (Hv & Hr & Hh); [lia|done..|].
    destruct (spec_accept_cases sp (packet_number h)) as [Hsub Hnew].
    destruct (decrypt_packet_accepting_rekey s h ct ext) as [[pt|e] s']; cbn in *.
    + destruct Hout as (_ & _ & Hacc & (_ & _ & E & _) & _). exists (spec_accept sp (packet_number h)).2.
      unfold replay_ok. rewrite E. split_and!; [done..|]. right. exists h, pt. split; [done|]. apply Hnew; [|congruence].
      intros Ht. rewrite (rep_top _ _ Hrep) in Ht. destruct (initialized (recv_replay s)) eqn:Hi; [done|].
      by apply (rep_empty _ _ Hrep).
    + destruct e; try (destruct Hout as [-> _]; exists sp; split_and!; auto; done).
      destruct Hout as (_ & _ & _ & (_ & _ & E & _)). exists (spec_accept sp (packet_number h)).2.
      unfold replay_ok. rewrite E. auto.
Qed.

Lemma trace_delivers_new init s sp ops :
  wf_session init s -> Forall wf_op ops -> replay_ok s sp ->
  NoDup (packet_number ∘ fst <$> trace delivered_of s ops) ∧
  (∀ n, n ∈ packet_number ∘ fst <$> trace delivered_of s ops -> n ∉ seen sp).
Proof.
  intros Hwf Hops. revert s sp Hwf. induction Hops as [|o ops Ho Hops IH]; intros s sp Hwf Hrep.
  { split; [constructor|]. intros n Hn. by apply elem_of_nil in Hn. }
  cbn [trace]. rewrite fmap_app.
  destruct (step_delivers init s sp o Hwf Ho Hrep) as (sp' & Hrep' & Hsub & Hd).
  destruct (IH (step s o) sp') as [IH1 IH2]; [by apply step_wf|done|].
  destruct Hd as [->|(h & pt & -> & Hnew & Hin)]; cbn [fmap list_fmap app].
  - split; [done|]. intros n Hn. apply IH2 in Hn. set_solver.
  - split; [constructor; [|done]; intros Hn; apply IH2 in Hn; set_solver|].
    intros n [->|Hn]%elem_of_cons; [done|]. apply IH2 in Hn. set_solver.
Qed.

(** Everything delivered was received and authenticated. *)
Lemma trace_authentic init s ops h pt :
  wf_session init s -> Forall wf_op ops -> (h, pt) ∈ trace delivered_of s ops ->
  ∃ ct ext, Receive h ct ext ∈ ops ∧ authentic init s h ct ext pt.
Proof.
  intros Hwf Hops. revert s Hwf. induction Hops as [|o ops Ho Hops IH]; intros s Hwf Hin.
  { by apply elem_of_nil in Hin. }
  cbn [trace] in Hin. apply elem_of_app in Hin as [Hin|Hin].
  - destruct o as [| |h' ct ext]; try by apply elem_of_nil in Hin. cbn in Hin. destruct Ho as [Hb _].
    destruct (receive_step init s h' ct ext Hwf Hb) as (_ & _ & Ha).
    destruct (decrypt_packet_accepting_rekey s h' ct ext) as [[pt'|e] s'] eqn:E; [|by apply elem_of_nil in Hin].
    apply list_elem_of_singleton in Hin as [= -> ->]. exists ct, ext. split; [left|]. by apply Ha.
  - destruct (step_wf init s o Hwf Ho) as [Hwf' _]. destruct (IH _ Hwf' Hin) as (ct & ext & Hop & Ha).
    exists ct, ext. split; [by right|]. by apply (authentic_step init s o).
Qed.

End Laws.

(** ** Properties *)


Definition sample_ops : list op :=
  [Seal ENCRYPTED 1 0 [1; 2]; Rekey; Seal ENCRYPTED 1 0 [3]; Receive sample_frame [7] []; Seal ENCRYPTED 2 1 []].


(** C7: The channel neither forges nor duplicates: if whatever authenticates among the
    received packets was sealed by the peer (the AEAD's promise), then the delivered
    packets, with multiplicity, are among those the peer sealed, and their packet
    numbers are pairwise distinct - for any packets the network presents, in any
    order, with rekeys and sends in between. *)
Theorem channel_delivers_at_most_once `{PrimitiveLaws} (init : list Z) (s : Session) (ops : list op)
    (sent : list (PacketHeader * list Z)) :
  wf_session init s -> Forall wf_op ops -> recv_replay s = Replay.new ->
  (∀ h ct ext pt, Receive h ct ext ∈ ops -> authentic init s h ct ext pt -> (h, pt) ∈ sent) ->
  NoDup (packet_number ∘ fst <$> trace delivered_of s ops) ∧ trace delivered_of s ops ⊆+ sent.
Proof.
  intros Hwf Hops Hnew Hauth.
  assert (Hrep : replay_ok s spec_new) by (split; rewrite Hnew; [apply represents_new|by split]).
  destruct (trace_delivers_new init s spec_new ops Hwf Hops Hrep) as [Hnd _]. split; [done|].
  apply NoDup_submseteq; [by apply NoDup_fmap_1 in Hnd|].
  intros [h pt] Hin. destruct (trace_authentic init s ops h pt Hwf Hops Hin) as (ct & ext & Hop & Ha). eauto.
Qed.

Definition sample_ct : list Z := ([1; 2] ++ replicate 16 9)%list.
Definition sample_net : list op :=
  [Receive sample_frame [7] []; Receive sample_frame sample_ct []; Rekey; Receive sample_frame sample_ct []].

Lemma channel_delivers_at_most_once_witness :
  @trace toy_primitives _ (@delivered_of toy_primitives) (toy_pair true true) sample_net = [(sample_frame, [1; 2])] ∧
  @trace toy_primitives _ (@delivered_of toy_primitives) (toy_pair true true) sample_net ⊆+ [(sample_frame, [1; 2])].
Proof.
  split; [vm_compute; reflexivity|].
  apply (channel_delivers_at_most_once (H := toy_primitives) (replicate 32 9)).
  - exact (peer_wf_b _ _ _ toy_peers).
  - repeat constructor; done.
  - reflexivity.
  - intros h ct ext pt Hop Ha. unfold sample_net in Hop.
    repeat (apply elem_of_cons in Hop as [Hop|Hop]; [try discriminate Hop; injection Hop as -> -> ->|]);
      [..|by apply elem_of_nil in Hop]; vm_compute in Ha; try discriminate Ha; injection Ha as <-; by left.
Defined.
