(* ===== verification/RekeySync.v ===== *)
(** * Two peers rekeying over a lossy network

    A peer that rekeys flags its packets REKEY until it has opened one from the other
    side at its own epoch; the other side follows a forward epoch only on a flagged
    packet ([decrypt_packet_accepting_rekey], [rekey_before_stamp]).  With each call
    atomic this never refuses an honest packet for a missing flag.  The calls are not
    atomic with respect to the confirmation: the last theorem gives the interleaving
    of the two pump tasks that loses the flag. *)

From Stdlib Require Import ZArith Lia String.
From stdpp Require Import base numbers option gmap sets list.
From S2P Require Import Prelude Errors Replay Wire Path Crypto Shaping Cid Session Channel.

Local Open Scope Z_scope.

Section Sync.
Context `{PrimitiveLaws}.

(** Both sessions and everything either has put on the wire. *)
Record duo := mk_duo {
  this : Session;
  that : Session;
  outbound : list (list Z);  (* wire images sent by [this] *)
  inbound : list (list Z);   (* wire images sent by [that] *)
}.

Definition swap (x : duo) : duo := mk_duo (that x) (this x) (inbound x) (outbound x).

(** The same-epoch branch of [decrypt_packet_accepting_rekey] with a rekey of the send task
    between its two statements, which no lock excludes. *)
Definition decrypt_current_raced (s : Session) (h : PacketHeader) (ciphertext ext : list Z)
  : result (list Z) CoreError * Session :=
  match decrypt_packet s h ciphertext ext with
  | (Ok pt, s1) => (Ok pt, confirm_rekey_caught_up (rekey s1).2)
  | (Err e, s1) => (Err e, s1)
  end.

Inductive duo_step : duo -> duo -> Prop :=
| duo_send a b out inb bits stream path pt extra a1 wire a' :
    in_u 16 bits -> in_u 16 stream -> is_byte path ->
    rekey_before_stamp a = (Some extra, a1) ->
    seal_frame a1 (Z.lor bits extra) stream path pt = (Some wire, a') ->
    duo_step (mk_duo a b out inb) (mk_duo a' b (wire :: out) inb)
| duo_send_lost a b out inb bits stream path pt extra a1 a' :
    rekey_before_stamp a = (Some extra, a1) ->
    seal_frame a1 (Z.lor bits extra) stream path pt = (None, a') ->
    duo_step (mk_duo a b out inb) (mk_duo a' b out inb)
| duo_receive a b out inb wire p r a' :
    wire ∈ inb -> parse_protected a wire = Ok p ->
    decrypt_packet_accepting_rekey a (header p) (payload p) (extensions p) = (r, a') ->
    duo_step (mk_duo a b out inb) (mk_duo a' b out inb)
| duo_swap x y : duo_step x y -> duo_step (swap x) (swap y).

Inductive duo_reachable (start : duo) : duo -> Prop :=
| duo_start : duo_reachable start start
| duo_more x y : duo_reachable start x -> duo_step x y -> duo_reachable start y.

(** ** Invariant *)

(** A packet of [a] on its way to [b]: parseable and authentic there, from an epoch
    [a] has reached, and flagged unless [b] has reached it too. *)
Definition honest (init : list Z) (a b : Session) (wire : list Z) : Prop :=
  ∃ h ct pt, parse_protected b wire = Ok (packet_new h ct) ∧ authentic init b h ct [] pt ∧
    0 <= epoch h <= sess_epoch a ∧ (flags_contains (flags h) REKEY = true ∨ epoch h <= sess_epoch b).

Record half_inv (init : list Z) (a b : Session) (out : list (list Z)) : Prop := {
  hi_peers : peers init a b;
  hi_flag : rekey_unconfirmed a = false -> sess_epoch a <= sess_epoch b;
  hi_out : Forall (honest init a b) out;
}.

Definition duo_inv (init : list Z) (x : duo) : Prop :=
  half_inv init (this x) (that x) (outbound x) ∧ half_inv init (that x) (this x) (inbound x).

(** What [honest] says of [b] only depends on its keys; epochs only grow. *)
Lemma parse_protected_same b b' wire :
  header_protection b' = header_protection b -> sess_id b' = sess_id b -> parse_protected b' wire = parse_protected b wire.
Proof. intros E1 E2. unfold parse_protected. by rewrite E1, E2. Qed.

(** Same endpoint, later. *)
Record later (init : list Z) (s s' : Session) : Prop := {
  la_wf : wf_session init s';
  la_epoch : sess_epoch s <= sess_epoch s';
  la_caps : caps s' = caps s;
  la_role : is_server s' = is_server s;
  la_id : sess_id s' = sess_id s;
}.

Lemma later_hp init s s' : wf_session init s -> later init s s' -> header_protection s' = header_protection s.
Proof. intros Hwf [Hwf' _ Hc Hr _]. by rewrite (wf_hp _ _ Hwf), (wf_hp _ _ Hwf'), Hc, Hr. Qed.

Lemma honest_later init a a' b b' wire :
  wf_session init b -> later init a a' -> later init b b' -> honest init a b wire -> honest init a' b' wire.
Proof.
  intros Hwb Ha Hb (h & ct & pt & Hparse & Hauth & He & Hf). exists h, ct, pt.
  split_and!.
  - rewrite <- Hparse. apply parse_protected_same; [by apply (later_hp init)|apply Hb].
  - unfold authentic, epoch_crypto in *. by rewrite (la_caps _ _ _ Hb), (la_role _ _ _ Hb).
  - lia.
  - destruct Ha, Hb; lia.
  - destruct Hf as [?|?]; [by left|right]. destruct Hb. lia.
Qed.

Lemma peers_later init a a' b b' : later init a a' -> later init b b' -> peers init a b -> peers init a' b'.
Proof. intros [] [] []. split; congruence. Qed.

Lemma peers_sym init a b : peers init a b -> peers init b a.
Proof. intros [? ? Hr ? ?]. split; try done. by rewrite Hr, negb_involutive. Qed.

Lemma later_refl init s : wf_session init s -> later init s s.
Proof. by split. Qed.

(** A stamped frame joins the honest packets of the sender, now later. *)
Lemma send_honest init a b bits stream path pt extra a1 wire a' :
  peers init a b -> (rekey_unconfirmed a = false -> sess_epoch a <= sess_epoch b) ->
  in_u 16 bits -> in_u 16 stream -> is_byte path ->
  rekey_before_stamp a = (Some extra, a1) ->
  seal_frame a1 (Z.lor bits extra) stream path pt = (Some wire, a') ->
  honest init a' b wire.
Proof.
  intros Hp Hflag Hbits Hstream Hpath Hr Hseal.
  destruct (rekey_before_stamp_spec init a extra a1 (peer_wf_a _ _ _ Hp) Hr)
    as (Hwf1 & -> & Hep & _ & _ & E3 & E4 & E5 & _).
  assert (Hp1 : peers init a1 b) by (destruct Hp; split; congruence).
  destruct (seal_frame_spec init _ _ _ _ _ _ _ Hwf1 Hseal) as [(_ & Hea & _) (ct & mask & Hct & Hm & Hl & ->)].
  set (h := frame_header a1 (Z.lor bits (if rekey_unconfirmed a1 then REKEY else 0)) stream path) in *.
  exists h, ct, pt. split_and!.
  - apply (parse_sealed init); try done. apply in_u_lor; [done|]. by destruct (rekey_unconfirmed a1).
  - unfold authentic. change (epoch h) with (sess_epoch a1).
    destruct (mirror_keys init a1 b (sess_epoch a1) Hp1) as (-> & -> & -> & _). by apply open_seal.
  - apply Hwf1.
  - change (epoch h) with (sess_epoch a1). lia.
  - change (epoch h) with (sess_epoch a1).
    change (flags h) with (Z.lor bits (if rekey_unconfirmed a1 then REKEY else 0)).
    destruct (rekey_unconfirmed a1) eqn:Hu.
    + left. change REKEY with (2 ^ 8). rewrite lor_contains by done. by rewrite orb_true_r.
    + right. destruct Hep as [[He Hu']|[_ ?]]; [|done]. rewrite He. apply Hflag. congruence.
Qed.

Lemma stamp_later init a extra a1 :
  wf_session init a -> rekey_before_stamp a = (Some extra, a1) ->
  later init a a1 ∧ (rekey_unconfirmed a1 = false -> rekey_unconfirmed a = false ∧ sess_epoch a1 = sess_epoch a).
Proof.
  intros Hwf Hr. destruct (rekey_before_stamp_spec init a extra a1 Hwf Hr) as (Hwf1 & _ & Hep & _ & _ & E3 & E4 & E5 & _).
  split; [split; try done; lia|]. intros Hu. destruct Hep as [[? ?]|[_ ?]]; [split; congruence|congruence].
Qed.

Lemma seal_later init a bits stream path pt r a' :
  wf_session init a -> seal_frame a bits stream path pt = (r, a') ->
  later init a a' ∧ rekey_unconfirmed a' = rekey_unconfirmed a ∧ sess_epoch a' = sess_epoch a.
Proof.
  intros Hwf Hs. destruct (seal_frame_step init a bits stream path pt Hwf) as (? & ? & _ & _ & ? & ? & ? & ?).
  rewrite Hs in *. cbn [snd] in *. split; [split; try done; lia|done].
Qed.

(** The sender of a frame moves on; nothing else changes for either side. *)
Lemma half_inv_send init a b out inb bits stream path pt extra a1 r a' :
  half_inv init a b out -> half_inv init b a inb -> rekey_before_stamp a = (Some extra, a1) ->
  seal_frame a1 bits stream path pt = (r, a') -> half_inv init a' b out ∧ half_inv init b a' inb ∧ later init a a'.
Proof.
  intros [Hp Hf Ho] [Hp' Hf' Ho'] Hr Hs.
  destruct (stamp_later init a extra a1 (peer_wf_a _ _ _ Hp) Hr) as [L1 Hu1].
  destruct (seal_later init a1 _ _ _ _ _ _ (la_wf _ _ _ L1) Hs) as (L2 & Hu2 & He2).
  assert (L : later init a a') by (destruct L1, L2; split; try congruence; lia).
  pose proof (later_refl init b (peer_wf_b _ _ _ Hp)) as Lb.
  split_and!; [| |done]; split.
  - by apply (peers_later init a a' b b).
  - intros Hu. rewrite Hu2 in Hu. destruct (Hu1 Hu) as [? ?]. rewrite He2. specialize (Hf ltac:(done)). lia.
  - eapply Forall_impl; [exact Ho|]. intros w. apply honest_later; [exact (peer_wf_b _ _ _ Hp)|done..].
  - by apply (peers_later init b b a a').
  - intros Hu. specialize (Hf' Hu). destruct L. lia.
  - eapply Forall_impl; [exact Ho'|]. intros w. apply honest_later; [exact (peer_wf_a _ _ _ Hp)|done..].
Qed.

(** Receiving an honest packet. *)
Lemma half_inv_receive init a b out inb wire p r a' :
  half_inv init a b out -> half_inv init b a inb -> wire ∈ inb -> parse_protected a wire = Ok p ->
  decrypt_packet_accepting_rekey a (header p) (payload p) (extensions p) = (r, a') ->
  half_inv init a' b out ∧ half_inv init b a' inb.
Proof.
  intros [Hp Hf Ho] [Hp' Hf' Ho'] Hin Hparse Hd.
  destruct (proj1 (Forall_forall _ _) Ho' _ Hin) as (h & ct & pt & Hparse' & Hauth & He & Hfl).
  assert (p = packet_new h ct) as -> by congruence. cbn [header payload extensions packet_new] in Hd.
  assert (Hb : is_byte (epoch h)) by (pose proof (wf_sess_epoch _ _ (peer_wf_b _ _ _ Hp)); split; lia).
  pose proof (decrypt_outcome init a h ct [] (peer_wf_a _ _ _ Hp) Hb) as Hout. rewrite Hd in Hout.
  assert (Hsame : a' = a ∨ (later init a a' ∧ sess_epoch a' = epoch h)).
  { destruct r as [pt'|e].
    - right. destruct Hout as (Hadm & _ & _ & (Hwf & Hee & _ & _ & ? & ? & ?) & _).
      split; [|done]. split; try done. destruct Hadm; lia.
    - destruct e; try (left; apply Hout). right. destruct Hout as (Hadm & _ & _ & (Hwf & Hee & _ & _ & ? & ? & ?)).
      split; [|done]. split; try done. destruct Hadm; lia. }
  destruct Hsame as [->|[L He']]; [by split; split|].
  pose proof (later_refl init b (peer_wf_b _ _ _ Hp)) as Lb. split; split.
  - by apply (peers_later init a a' b b).
  - intros _. lia.
  - eapply Forall_impl; [exact Ho|]. intros w. apply honest_later; [exact (peer_wf_b _ _ _ Hp)|done..].
  - by apply (peers_later init b b a a').
  - intros Hu. specialize (Hf' Hu). destruct L. lia.
  - eapply Forall_impl; [exact Ho'|]. intros w. apply honest_later; [exact (peer_wf_a _ _ _ Hp)|done..].
Qed.

Lemma duo_inv_step init x y : duo_step x y -> duo_inv init x -> duo_inv init y.
Proof.
  induction 1 as [a b out inb bits stream path pt extra a1 wire a' Hb Hs Hpa Hr Hseal
                 |a b out inb bits stream path pt extra a1 a' Hr Hseal
                 |a b out inb wire p r a' Hin Hparse Hd|x y _ IH]; unfold duo_inv; cbn; intros [H1 H2].
  - destruct (half_inv_send init _ _ _ _ _ _ _ _ _ _ _ _ H1 H2 Hr Hseal) as (H1' & H2' & _).
    split; [|done]. destruct H1' as [? ? ?]. split; try done. constructor; [|done].
    apply (send_honest init a b bits stream path pt extra a1); try done; apply H1.
  - destruct (half_inv_send init _ _ _ _ _ _ _ _ _ _ _ _ H1 H2 Hr Hseal) as (H1' & H2' & _). done.
  - by apply (half_inv_receive init a b out inb wire p r).
  - apply and_comm. by apply IH.
Qed.

Lemma duo_inv_reachable init start x : duo_inv init start -> duo_reachable start x -> duo_inv init x.
Proof. intros Hs. induction 1; [done|]. by eapply duo_inv_step. Qed.

Lemma duo_inv_start init a b :
  peers init a b -> sess_epoch a = sess_epoch b -> duo_inv init (mk_duo a b [] []).
Proof. intros Hp He. split; (split; [done || by apply peers_sym|cbn; lia|constructor]). Qed.

Lemma not_unflagged init s h ct ext s' :
  wf_session init s -> is_byte (epoch h) ->
  decrypt_packet_accepting_rekey s h ct ext = (Err (CryptoError ForwardEpochUnflagged), s') ->
  sess_epoch s < epoch h ∧ flags_contains (flags h) REKEY = false.
Proof.
  intros Hwf Hb. unfold decrypt_packet_accepting_rekey.
  assert (Hcur : ∀ s'', decrypt_current s h ct ext <> (Err (CryptoError ForwardEpochUnflagged), s'')).
  { intros s''. unfold decrypt_current, decrypt_packet. rewrite decrypt_with_nonce_cases.
    destruct (_ <=? _); [by cbn|]. destruct (aead_open _ _ _ _ _); [|by cbn].
    destruct (check_replay _ _) as [[] ?]; by cbn. }
  destruct (Z.eqb_spec (epoch h) (sess_epoch s)); [intros Hx; by apply Hcur in Hx|].
  destruct (Z.ltb_spec (epoch h) (sess_epoch s)); [done|].
  destruct (flags_contains (flags h) REKEY); cbn [negb]; [|intros _; split; [lia|done]].
  unfold decrypt_forward. destruct (Z.eqb_spec (epoch h) (sess_epoch s)); [intros Hx; by apply Hcur in Hx|].
  destruct (Z.ltb_spec (epoch h) (sess_epoch s)); [done|]. destruct (_ <? _); [done|].
  rewrite (derive_forward_ok init) by (done || lia). rewrite decrypt_with_nonce_cases.
  destruct (_ <=? _); [done|]. destruct (aead_open _ _ _ _ _); [|done]. destruct (check_replay _ _) as [[] ?]; by cbn.
Qed.

(** An application frame that needs no rekey, as a sealed frame. *)
Lemma send_app_data_frame s stream data base off wire s' :
  in_u 16 base -> flags_contains base PADDED = false -> send_needs_rekey s = false ->
  send_app_data s stream data base off = (Some wire, s') ->
  ∃ bits padded, seal_frame s bits stream (send_path_id (cid s)) padded = (Some wire, s') ∧ in_u 16 bits ∧
    flags_contains bits REKEY = flags_contains base REKEY || rekey_unconfirmed s.
Proof.
  intros Hb Hp Hn. unfold send_app_data, rekey_before_stamp. rewrite Hn.
  destruct (pad_frame _ _ _) as [padded bits] eqn:Hpf. intros Hseal. exists bits, padded. split; [done|].
  assert (Hin : in_u 16 (Z.lor (Z.lor base ENCRYPTED) (if rekey_unconfirmed s then REKEY else 0))).
  { apply in_u_lor; [by apply in_u_lor|]. by destruct (rekey_unconfirmed s). }
  assert (Hnp : flags_contains (Z.lor (Z.lor base ENCRYPTED) (if rekey_unconfirmed s then REKEY else 0)) PADDED = false).
  { change PADDED with (2 ^ 13). rewrite !lor_contains by done. change (2 ^ 13) with PADDED. rewrite Hp.
    by destruct (rekey_unconfirmed s). }
  destruct (pad_frame_spec _ _ _ _ _ Hin Hnp Hpf) as (Hbits & Hsame & _). split; [done|].
  change REKEY with (2 ^ 8) at 1. rewrite Hsame, !lor_contains by done. change (2 ^ 8) with REKEY.
  destruct (rekey_unconfirmed s); cbn; by rewrite ?orb_false_r, ?orb_true_r.
Qed.

(** The peer parses that frame. *)
Lemma send_app_data_parses init a b stream data base off wire a' :
  peers init a b -> in_u 16 base -> flags_contains base PADDED = false -> send_needs_rekey a = false ->
  in_u 16 stream -> is_byte (send_path_id (cid a)) ->
  send_app_data a stream data base off = (Some wire, a') ->
  ∃ h ct, parse_protected b wire = Ok (packet_new h ct) ∧ epoch h = sess_epoch a ∧
    flags_contains (flags h) REKEY = flags_contains base REKEY || rekey_unconfirmed a.
Proof.
  intros Hp Hb Hpd Hn Hs Hpath Hsend.
  destruct (send_app_data_frame _ _ _ _ _ _ _ Hb Hpd Hn Hsend) as (bits & padded & Hseal & Hbits & Hflag).
  destruct (seal_frame_spec init _ _ _ _ _ _ _ (peer_wf_a _ _ _ Hp) Hseal) as [_ (ct & mask & _ & Hm & Hl & ->)].
  eexists _, ct. split; [by apply (parse_sealed init)|]. done.
Qed.

(** Opening without the confirmation that follows it. *)
Lemma decrypt_packet_later init a h ct pt a1 :
  wf_session init a -> epoch h = sess_epoch a -> decrypt_packet a h ct [] = (Ok pt, a1) ->
  later init a a1 ∧ sess_epoch a1 = sess_epoch a ∧ cid a1 = cid a ∧ rekey_after a1 = rekey_after a.
Proof.
  intros Hwf He Hd. pose proof (decrypt_current_outcome init a h ct [] Hwf He) as Ho.
  unfold decrypt_current in Ho. rewrite Hd in Ho. destruct Ho as (_ & _ & _ & (Hwf1 & He1 & _ & _ & Hc & Hr & Hi) & _).
  assert (Hwf' : wf_session init a1) by (destruct Hwf1; by split).
  assert (He' : sess_epoch a1 = sess_epoch a) by (cbn in He1; lia).
  split_and!; [split; try done; lia|done|..]; revert Hd; unfold decrypt_packet;
    destruct (decrypt_with_nonce _ _ _ _) as [[?|?] ?]; try done; unfold check_replay;
    destruct (accept _ _ _) as [[] ?]; intros [= _ <-]; done.
Qed.

End Sync.

(** ** Properties *)


Definition sample_sealed : option (list Z) * Session :=
  @seal_frame toy_primitives (toy_pair true false) (Z.lor ENCRYPTED 0) 3 0 [1; 2].
Definition sample_wire : list Z := default [] sample_sealed.1.



Definition race_frame : PacketHeader := frame_header (toy_pair true true) ENCRYPTED 3 0.
Definition race_opened : result (list Z) CoreError * Session :=
  decrypt_current_raced (H := toy_primitives) (toy_pair true false) race_frame sample_ct [].
Definition race_sent : option (list Z) * Session := @send_app_data toy_primitives race_opened.2 3 [5] RELIABLE (Some 0).

