(* ===== verification/Datagram.v ===== *)
(** * Datagrams ([core/src/transport/phantom_udp/envelope.rs], [datagram.rs],
      [core/src/transport/fragmentation.rs], [core/src/transport/mtu.rs])

    The outer envelope, the split of a frame into datagrams and the bounded
    reassembler.  The assembler's hash map is a finite map; where the code takes the
    first minimum of an iteration, the order is the map's own. *)

From Stdlib Require Import ZArith Lia.
From stdpp Require Import base numbers option gmap sets list.
From S2P Require Import Prelude Wire Crypto Shaping Sack.

Local Open Scope Z_scope.
Local Open Scope phantom_scope.

(** ** The budget *)

Definition PATH_MTU : Z := 1200.
Definition DATAGRAM_HDR_LEN : Z := 1 + 8.
Definition MAX_INNER_UNFRAGMENTED : Z := PATH_MTU - DATAGRAM_HDR_LEN.
Definition RELIABLE_OFFSET_LEN : Z := 4.
Definition PER_PACKET_OVERHEAD : Z := Z.of_nat HEADER_SIZE + RELIABLE_OFFSET_LEN + AEAD_OVERHEAD.
Definition MAX_APP_CHUNK : Z := MAX_INNER_UNFRAGMENTED - PER_PACKET_OVERHEAD.
Definition LEGACY_APP_CHUNK : Z := 1300.
Definition MAX_RECV_FRAME : Z := LEGACY_APP_CHUNK + PER_PACKET_OVERHEAD.
Definition MAX_RECV_PAYLOAD : Z := MAX_RECV_FRAME - Z.of_nat HEADER_SIZE - AEAD_OVERHEAD.
Definition CID_LEN : nat := 8.
Definition FRAG_SUBHDR_LEN : nat := 8.
Definition MAX_INNER_FRAG_CHUNK : Z := PATH_MTU - DATAGRAM_HDR_LEN - Z.of_nat FRAG_SUBHDR_LEN.

(** ** The envelope *)

Inductive PacketType := Initial | OneRtt | Retry.
Record OuterHeader := mk_outer { ty : PacketType; fragmented : bool; cid : list Z }.
Inductive EnvelopeError := EnvTruncated | ReservedType | ReservedBitsSet | FrameTooLarge.

Definition TYPE_SHIFT : Z := 6.
Definition FRAG_BIT : Z := 0x20.
Definition RESERVED_MASK : Z := 0x1f.

Definition type_bits (t : PacketType) : Z := match t with Initial => 0 | OneRtt => 1 | Retry => 2 end.

Definition encode_header (t : PacketType) (frag : bool) (c : list Z) : list Z :=
  let flags := wrap 8 (Z.shiftl (type_bits t) TYPE_SHIFT) in
  let flags := if frag then Z.lor flags FRAG_BIT else flags in
  (flags :: c)%list.

Definition decode_header (buf : list Z) : result (OuterHeader * list Z) EnvelopeError :=
  if len buf <? DATAGRAM_HDR_LEN then Err EnvTruncated
  else
    let flags := buf !!! 0%nat in
    if negb (Z.land flags RESERVED_MASK =? 0) then Err ReservedBitsSet
    else
      t <-? (let b := Z.shiftr flags TYPE_SHIFT in
             if b =? 0 then Ok Initial else if b =? 1 then Ok OneRtt else if b =? 2 then Ok Retry
             else Err ReservedType);
      let frag := negb (Z.land flags FRAG_BIT =? 0) in
      Ok (mk_outer t frag (slice 1 (1 + CID_LEN) buf), drop (Z.to_nat DATAGRAM_HDR_LEN) buf).

(** ** The reassembler *)

Definition MAX_UDP_PAYLOAD : Z := 1200.
Definition MAX_REASSEMBLED_LEN : Z := 256 * 1024.
Definition MAX_TOTAL_CHUNKS : Z := wrap 16 (MAX_REASSEMBLED_LEN / MAX_UDP_PAYLOAD + 1).
Definition MAX_CONCURRENT_ASSEMBLIES : nat := 256.
Definition NACK_AFTER : Z := 50 * 1000000.
Definition DEAD_AFTER : Z := 5000 * 1000000.

Record CryptoFrame := mk_frame {
  f_session_id : list Z;
  packet_id : Z;
  chunk_index : Z;
  total_chunks : Z;
  f_payload : list Z;
}.

Record AssemblyState := mk_asm {
  as_chunks : gmap Z (list Z);
  as_total : Z;
  last_update : Z;
}.

Abbreviation FragmentAssembler := (gmap (list Z * Z) AssemblyState).

(** The least-recently-updated entry, first in the map's order among equals. *)
Definition staler (e : list Z * Z * AssemblyState) (best : option (list Z * Z * Z)) : option (list Z * Z * Z) :=
  match best with
  | None => Some (e.1, last_update e.2)
  | Some (k, t) => if last_update e.2 <=? t then Some (e.1, last_update e.2) else Some (k, t)
  end.
Definition stalest (asm : FragmentAssembler) : option (list Z * Z) :=
  fst <$> foldr staler None (map_to_list asm).

Definition evict_stalest (asm : FragmentAssembler) : FragmentAssembler :=
  match stalest asm with Some k => delete k asm | None => asm end.

(** The completed packet: [None] when an index below the total is missing. *)
Definition assemble (st : AssemblyState) : option (list Z) :=
  (λ cs, concat cs) <$> mapM (λ i, as_chunks st !! i) (seqZ 0 (as_total st)).

Definition process_chunk (asm : FragmentAssembler) (now : Z) (frame : CryptoFrame)
  : option (list Z) * FragmentAssembler :=
  if (total_chunks frame =? 0) || (MAX_TOTAL_CHUNKS <? total_chunks frame)
     || (total_chunks frame <=? chunk_index frame) || (MAX_UDP_PAYLOAD <? len (f_payload frame))
  then (None, asm)
  else
    let key := (f_session_id frame, packet_id frame) in
    let asm1 := if bool_decide (asm !! key = None) && (MAX_CONCURRENT_ASSEMBLIES <=? size asm)%nat
                then evict_stalest asm else asm in
    let st := default (mk_asm ∅ (total_chunks frame) now) (asm1 !! key) in
    let chunks' := match as_chunks st !! chunk_index frame with
                   | Some _ => as_chunks st
                   | None => <[chunk_index frame := f_payload frame]> (as_chunks st)
                   end in
    let st' := mk_asm chunks' (as_total st) now in
    if Z.of_nat (size chunks') =? as_total st' then (assemble st', delete key asm1)
    else (None, <[key := st']> asm1).

Definition missing_chunks (st : AssemblyState) : list Z :=
  filter (λ i, as_chunks st !! i = None) (seqZ 0 (as_total st)).

Definition get_nacks_and_evict (asm : FragmentAssembler) (now : Z)
  : list (list Z * Z * list Z) * FragmentAssembler :=
  let elapsed st := sat_sub now (last_update st) in
  let nacks := omap (λ e,
    if DEAD_AFTER <? elapsed e.2 then None
    else if NACK_AFTER <? elapsed e.2 then
      match missing_chunks e.2 with [] => None | ms => Some (e.1.1, e.1.2, ms) end
    else None) (map_to_list asm) in
  (nacks, filter (λ e, (DEAD_AFTER <? elapsed e.2) = false) asm).

Definition fragment_payload (sid : list Z) (pid : Z) (pl : list Z) : list CryptoFrame :=
  let cs := chunks (Z.to_nat MAX_UDP_PAYLOAD) pl in
  let total := wrap 16 (len cs) in
  (λ ic, mk_frame sid pid (wrap 16 ic.1) total ic.2) <$> index_from 0 cs.

(** ** Frames to datagrams and back *)

Definition cid16 (c : list Z) : list Z := (c ++ replicate 8 0)%list.

Definition encode_datagrams (t : PacketType) (c : list Z) (pid : Z) (frame : list Z)
  : result (list (list Z)) EnvelopeError :=
  if len frame <=? MAX_INNER_UNFRAGMENTED then Ok [(encode_header t false c ++ frame)%list]
  else
    let cs := chunks (Z.to_nat MAX_INNER_FRAG_CHUNK) frame in
    if MAX_TOTAL_CHUNKS <? len cs then Err FrameTooLarge
    else
      let total := wrap 16 (len cs) in
      Ok ((λ ic, encode_header t true c ++ be_encode 4 pid ++ be_encode 2 (wrap 16 ic.1)
                   ++ be_encode 2 total ++ ic.2)%list <$> index_from 0 cs).

Definition wire_len (frame_len : Z) : Z :=
  if frame_len <=? MAX_INNER_UNFRAGMENTED then DATAGRAM_HDR_LEN + frame_len
  else
    let n := div_ceil frame_len MAX_INNER_FRAG_CHUNK in
    frame_len + n * (DATAGRAM_HDR_LEN + Z.of_nat FRAG_SUBHDR_LEN).

Definition push_datagram (asm : FragmentAssembler) (now : Z) (datagram : list Z)
  : result (OuterHeader * option (list Z)) EnvelopeError * FragmentAssembler :=
  match decode_header datagram with
  | Err e => (Err e, asm)
  | Ok (hdr, rest) =>
    if negb (fragmented hdr) then (Ok (hdr, Some rest), asm)
    else if (length rest <? FRAG_SUBHDR_LEN)%nat then (Err EnvTruncated, asm)
    else
      let frame := mk_frame (cid16 (cid hdr)) (be_decode (slice 0 4 rest)) (be_decode (slice 4 6 rest))
                     (be_decode (slice 6 8 rest)) (drop FRAG_SUBHDR_LEN rest) in
      let '(done, asm') := process_chunk asm now frame in
      (Ok (hdr, done), asm')
  end.

(** ** Envelope lemmas *)

Lemma MAX_TOTAL_CHUNKS_val : MAX_TOTAL_CHUNKS = 219.
Proof. done. Qed.

Lemma decode_encode_header t frag c rest :
  length c = CID_LEN ->
  decode_header (encode_header t frag c ++ rest) = Ok (mk_outer t frag c, rest).
Proof.
  unfold CID_LEN. intros Hc. do 9 (destruct c as [|? c]; [try discriminate Hc|]); try discriminate Hc.
  unfold decode_header, encode_header. cbn [app].
  assert (Hl : ∀ f, (len (f :: z :: z0 :: z1 :: z2 :: z3 :: z4 :: z5 :: z6 :: rest) <? DATAGRAM_HDR_LEN) = false).
  { intros f. apply Z.ltb_ge. unfold len, DATAGRAM_HDR_LEN. cbn [length]. lia. }
  rewrite Hl. destruct t, frag; reflexivity.
Qed.

(** A fragment's datagram is handed to the reassembler as the frame it was cut from. *)
Lemma push_fragment asm now t c pid i total payload :
  length c = CID_LEN -> in_u 32 pid -> in_u 16 i -> in_u 16 total ->
  push_datagram asm now (encode_header t true c ++ be_encode 4 pid ++ be_encode 2 i ++ be_encode 2 total ++ payload)
  = let '(done, asm') := process_chunk asm now (mk_frame (cid16 c) pid i total payload) in
    (Ok (mk_outer t true c, done), asm').
Proof.
  intros Hc Hp Hi Ht. unfold push_datagram. rewrite decode_encode_header by done. cbn [fragmented negb].
  assert (El : (length (be_encode 4 pid ++ be_encode 2 i ++ be_encode 2 total ++ payload) <? FRAG_SUBHDR_LEN)%nat = false).
  { apply Nat.ltb_ge. rewrite !length_app, !be_encode_length. unfold FRAG_SUBHDR_LEN. lia. }
  rewrite El. cbn [cid].
  change (slice 0 4 (be_encode 4 pid ++ be_encode 2 i ++ be_encode 2 total ++ payload)) with (be_encode 4 pid).
  change (slice 4 6 (be_encode 4 pid ++ be_encode 2 i ++ be_encode 2 total ++ payload)) with (be_encode 2 i).
  change (slice 6 8 (be_encode 4 pid ++ be_encode 2 i ++ be_encode 2 total ++ payload)) with (be_encode 2 total).
  change (drop FRAG_SUBHDR_LEN (be_encode 4 pid ++ be_encode 2 i ++ be_encode 2 total ++ payload)) with payload.
  by rewrite !be_decode_encode by done.
Qed.

(** ** Reassembly in any order *)

(** All chunks of a packet, by index. *)
Definition chunk_map (cs : list (list Z)) : gmap Z (list Z) := list_to_map (index_from 0 cs).

Lemma NoDup_index_from (cs : list (list Z)) : NoDup (index_from 0 cs).*1.
Proof. rewrite index_from_fst. apply NoDup_seqZ. Qed.

Lemma chunk_map_lookup cs i d : chunk_map cs !! i = Some d <-> (i, d) ∈ index_from 0 cs.
Proof. symmetry. apply elem_of_list_to_map, NoDup_index_from. Qed.

Lemma chunk_map_size cs : Z.of_nat (size (chunk_map cs)) = len cs.
Proof.
  unfold chunk_map. rewrite map_size_list_to_map by apply NoDup_index_from.
  rewrite <- (length_fmap snd), index_from_snd. done.
Qed.

Lemma chunk_insert_mono cs m i d :
  m ⊆ chunk_map cs -> (i, d) ∈ index_from 0 cs -> m ⊆ <[i := d]> m.
Proof.
  rewrite map_subseteq_spec. intros Hm Hin. apply chunk_map_lookup in Hin. apply map_subseteq_spec. intros j e He.
  destruct (decide (j = i)) as [->|]; [|by rewrite lookup_insert_ne].
  rewrite lookup_insert_eq. apply Hm in He. congruence.
Qed.

(** The whole set of chunks assembles to the packet. *)
Lemma assemble_all (cs : list (list Z)) now :
  assemble (mk_asm (chunk_map cs) (len cs) now) = Some (concat cs).
Proof.
  unfold assemble. cbn [as_total as_chunks].
  assert (Hm : mapM (λ i, chunk_map cs !! i) (seqZ 0 (len cs)) = Some cs); [|by rewrite Hm].
  apply mapM_Some. rewrite <- (index_from_fst 0 cs). rewrite <- (index_from_snd 0 cs) at 2.
  apply Forall2_fmap, Forall_Forall2_diag, Forall_forall. intros [i d] Hin. by apply chunk_map_lookup.
Qed.

(** The assembler [asm] is the table [asm0] plus the chunks [m] of the packet [key]. *)
Definition holding (asm0 : FragmentAssembler) (key : list Z * Z) (total : Z) (m : gmap Z (list Z)) (asm : FragmentAssembler) : Prop :=
  asm0 !! key = None ∧
  ((asm = asm0 ∧ m = ∅ ∧ (size asm0 < MAX_CONCURRENT_ASSEMBLIES)%nat) ∨
   ∃ t, asm = <[key := mk_asm m total t]> asm0).

(** A chunk of the packet is kept, or completes it. *)
Lemma process_chunk_holding asm0 asm now sid pid cs m i d :
  holding asm0 (sid, pid) (len cs) m asm -> len cs <= MAX_TOTAL_CHUNKS ->
  m ⊆ chunk_map cs -> chunk_map cs !! i = Some d -> len d <= MAX_UDP_PAYLOAD ->
  let m' := <[i := d]> m in
  m' ⊆ chunk_map cs ∧
  if decide (m' = chunk_map cs)
  then process_chunk asm now (mk_frame sid pid i (len cs) d) = (Some (concat cs), asm0)
  else ∃ asm', process_chunk asm now (mk_frame sid pid i (len cs) d) = (None, asm') ∧
               holding asm0 (sid, pid) (len cs) m' asm'.
Proof.
  intros (Hk & Hst) Ht Hsub Hi Hd m'.
  assert (Hsub' : m' ⊆ chunk_map cs) by (by apply insert_subseteq_l).
  split; [done|].
  assert (Hir : 0 <= i < len cs).
  { apply chunk_map_lookup, (list_elem_of_fmap_2 fst) in Hi. rewrite index_from_fst in Hi.
    apply elem_of_seqZ in Hi. cbn in Hi. lia. }
  assert (Hm : (match m !! i with Some _ => m | None => <[i := d]> m end) = m').
  { unfold m'. destruct (m !! i) as [d'|] eqn:E; [|done]. symmetry. apply insert_id.
    rewrite <- Hi. rewrite E. symmetry. by apply (lookup_weaken m). }
  unfold process_chunk. cbn [total_chunks chunk_index f_payload f_session_id packet_id].
  destruct (Z.eqb_spec (len cs) 0); [lia|]. destruct (Z.ltb_spec MAX_TOTAL_CHUNKS (len cs)); [lia|].
  destruct (Z.leb_spec (len cs) i); [lia|]. destruct (Z.ltb_spec MAX_UDP_PAYLOAD (len d)); [lia|]. cbn [orb].
  assert (Hasm : (if bool_decide (asm !! (sid, pid) = None) && (MAX_CONCURRENT_ASSEMBLIES <=? size asm)%nat
                  then evict_stalest asm else asm) = asm).
  { destruct Hst as [(-> & _ & Hs)|(t & ->)].
    - destruct (Nat.leb_spec MAX_CONCURRENT_ASSEMBLIES (size asm0)); [lia|]. by rewrite andb_false_r.
    - by rewrite lookup_insert_eq, bool_decide_false by done. }
  rewrite Hasm.
  assert (Hdef : as_chunks (default (mk_asm ∅ (len cs) now) (asm !! (sid, pid))) = m ∧
                 as_total (default (mk_asm ∅ (len cs) now) (asm !! (sid, pid))) = len cs).
  { destruct Hst as [(-> & -> & _)|(t & ->)]; [by rewrite Hk | by rewrite lookup_insert_eq]. }
  destruct Hdef as [-> ->]. rewrite Hm. cbn [as_total as_chunks].
  assert (Hdel : delete (sid, pid) asm = asm0 ∧ ∀ st, <[(sid, pid) := st]> asm = <[(sid, pid) := st]> asm0).
  { destruct Hst as [(-> & _)|(t & ->)]; [split; [by apply delete_id | done]|].
    split; [by apply delete_insert_id | intros; apply insert_insert_eq]. }
  destruct Hdel as [-> Hins]. rewrite <- chunk_map_size.
  destruct (decide (m' = chunk_map cs)) as [->|Hne].
  - rewrite Z.eqb_refl. by rewrite chunk_map_size, assemble_all.
  - destruct (Z.eqb_spec (Z.of_nat (size m')) (Z.of_nat (size (chunk_map cs)))) as [E|_].
    { exfalso. apply Hne, map_subseteq_size_eq; [done|lia]. }
    eexists. split; [done|]. rewrite Hins. split; [done|]. right. by eexists.
Qed.

(** ** Whole frames through the datagram layer *)

(** A sequence of datagrams, each with the time of its arrival. *)
Fixpoint push_all (asm : FragmentAssembler) (l : list (Z * list Z))
  : list (result (OuterHeader * option (list Z)) EnvelopeError) * FragmentAssembler :=
  match l with
  | [] => ([], asm)
  | (now, d) :: l' =>
    let '(r, asm1) := push_datagram asm now d in
    let '(rs, asm2) := push_all asm1 l' in ((r :: rs)%list, asm2)
  end.

(** The datagram of one chunk, as [encode_datagrams] builds it. *)
Definition fragment_datagram (t : PacketType) (c : list Z) (pid total : Z) (ic : Z * list Z) : list Z :=
  (encode_header t true c ++ be_encode 4 pid ++ be_encode 2 (wrap 16 ic.1) ++ be_encode 2 total ++ ic.2)%list.

Lemma encode_fragmented t c pid frame ds :
  MAX_INNER_UNFRAGMENTED < len frame -> encode_datagrams t c pid frame = Ok ds ->
  let cs := chunks (Z.to_nat MAX_INNER_FRAG_CHUNK) frame in
  len cs <= MAX_TOTAL_CHUNKS ∧ ds = fragment_datagram t c pid (len cs) <$> index_from 0 cs.
Proof.
  intros Hl. unfold encode_datagrams. destruct (Z.leb_spec (len frame) MAX_INNER_UNFRAGMENTED); [lia|].
  cbv zeta. generalize (chunks (Z.to_nat MAX_INNER_FRAG_CHUNK) frame). intros cs.
  destruct (Z.ltb_spec MAX_TOTAL_CHUNKS (len cs)) as [|Hc]; [discriminate|].
  intros [= <-]. split; [done|]. rewrite MAX_TOTAL_CHUNKS_val in Hc.
  rewrite (wrap_small 16 (len cs)); [done|]. unfold in_u, len in *. lia.
Qed.

Section Whole_frame.
  Context (t : PacketType) (c : list Z) (pid : Z) (cs : list (list Z)) (asm0 : FragmentAssembler).
  Context (Hc : length c = CID_LEN) (Hpid : in_u 32 pid) (Hn : len cs <= MAX_TOTAL_CHUNKS).
  Context (Hsz : Forall (λ d, len d <= MAX_UDP_PAYLOAD) cs).
  Context (Hk : asm0 !! (cid16 c, pid) = None).
Let dg := fragment_datagram t c pid (len cs).
Let hdr := mk_outer t true c.

Lemma index_range i d : (i, d) ∈ index_from 0 cs -> in_u 16 i ∧ 0 <= i < len cs ∧ len d <= MAX_UDP_PAYLOAD.
Proof.
  intros Hin. pose proof (list_elem_of_fmap_2 fst _ _ Hin) as Hi. pose proof (list_elem_of_fmap_2 snd _ _ Hin) as Hd.
  rewrite index_from_fst in Hi. rewrite index_from_snd in Hd. apply elem_of_seqZ in Hi.
  rewrite MAX_TOTAL_CHUNKS_val in Hn. cbn in *. rewrite Forall_forall in Hsz.
  split_and!; [unfold in_u; lia | lia | lia | by apply Hsz].
Qed.

(** The datagrams of distinct chunks differ. *)
Lemma dg_inj x y : x ∈ index_from 0 cs -> y ∈ index_from 0 cs -> dg x = dg y -> x = y.
Proof.
  destruct x as [i d], y as [j e]. intros Hx Hy. apply index_range in Hx as (Hi & _), Hy as (Hj & _).
  unfold dg, fragment_datagram. cbn [fst snd]. rewrite !wrap_small by done.
  intros E%app_inv_head%app_inv_head. apply app_inj_1 in E as [Ei E%app_inv_head].
  - apply (f_equal be_decode) in Ei. rewrite !be_decode_encode in Ei by done. by subst.
  - by rewrite !be_encode_length.
Qed.

Lemma push_dg asm now m x :
  holding asm0 (cid16 c, pid) (len cs) m asm -> m ⊆ chunk_map cs -> x ∈ index_from 0 cs ->
  let m' := <[x.1 := x.2]> m in
  m' ⊆ chunk_map cs ∧
  if decide (m' = chunk_map cs)
  then push_datagram asm now (dg x) = (Ok (hdr, Some (concat cs)), asm0)
  else ∃ asm', push_datagram asm now (dg x) = (Ok (hdr, None), asm') ∧
               holding asm0 (cid16 c, pid) (len cs) m' asm'.
Proof.
  destruct x as [i d]. intros Hh Hm Hx. pose proof (index_range _ _ Hx) as (Hi & Hr & Hd).
  unfold dg, fragment_datagram. cbn [fst snd]. rewrite wrap_small by done.
  rewrite push_fragment by (try done; rewrite MAX_TOTAL_CHUNKS_val in Hn; unfold in_u; lia).
  pose proof (process_chunk_holding asm0 asm now _ _ cs m i d Hh Hn Hm (proj2 (chunk_map_lookup _ _ _) Hx) Hd) as [Hs Hd'].
  split; [done|]. case_decide; [by rewrite Hd'|]. destruct Hd' as (asm' & -> & H'). by exists asm'.
Qed.

(** Datagrams of the packet that leave some chunk out produce nothing and are kept. *)
Lemma push_incomplete l : ∀ asm m,
  holding asm0 (cid16 c, pid) (len cs) m asm -> m ⊆ chunk_map cs ->
  (∀ x, x ∈ l -> x.2 ∈ index_from 0 cs) ->
  (∃ i, i ∈ (index_from 0 cs).*1 ∧ m !! i = None ∧ i ∉ (l.*2).*1) ->
  ∃ asm' m', push_all asm (prod_map id dg <$> l) = (replicate (length l) (Ok (hdr, None)), asm') ∧
    holding asm0 (cid16 c, pid) (len cs) m' asm' ∧ m ⊆ m' ∧ m' ⊆ chunk_map cs ∧
    (∀ x, x ∈ l -> m' !! x.2.1 = Some x.2.2).
Proof.
  induction l as [|[now x] l IH]; intros asm m Hh Hm Hl Hmiss.
  { exists asm, m. split_and!; [done..|]. intros y Hy. by apply elem_of_nil in Hy. }
  destruct Hmiss as (i & Hi & Hmi & Hil). cbn in Hil. apply not_elem_of_cons in Hil as [Hix Hil].
  assert (Hx : x ∈ index_from 0 cs) by (apply (Hl (now, x)); by left).
  destruct (push_dg asm now m x Hh Hm Hx) as [Hm1 Hstep].
  destruct (decide (<[x.1:=x.2]> m = chunk_map cs)) as [E|_].
  { exfalso. apply list_elem_of_fmap in Hi as ([i' d] & -> & Hin). apply chunk_map_lookup in Hin.
    rewrite <- E, lookup_insert_ne in Hin by done. cbn in *. congruence. }
  destruct Hstep as (asm1 & Ep & Hh1).
  destruct (IH asm1 _ Hh1 Hm1) as (asm' & m' & Ea & Hh' & Hmm & Hm' & Hall).
  - intros y Hy. apply Hl. by right.
  - exists i. by rewrite lookup_insert_ne.
  - exists asm', m'. rewrite fmap_cons. change (prod_map id dg (now, x)) with (now, dg x).
    cbn [push_all length replicate]. rewrite Ep, Ea. split_and!; try done.
    + etrans; [|exact Hmm]. apply (chunk_insert_mono cs); [done|]. by destruct x.
    + intros y [->|Hy]%elem_of_cons; [|by apply Hall].
      apply (lookup_weaken (<[x.1:=x.2]> m)); [apply lookup_insert_eq | done].
Qed.

(** The datagram that brings the last missing chunk yields the packet. *)
Lemma push_last asm now m x :
  holding asm0 (cid16 c, pid) (len cs) m asm -> m ⊆ chunk_map cs -> x ∈ index_from 0 cs ->
  (∀ y, y ∈ index_from 0 cs -> y = x ∨ m !! y.1 = Some y.2) ->
  push_datagram asm now (dg x) = (Ok (hdr, Some (concat cs)), asm0).
Proof.
  intros Hh Hm Hx Hall. destruct (push_dg asm now m x Hh Hm Hx) as [Hs Hstep].
  destruct (decide (<[x.1:=x.2]> m = chunk_map cs)) as [_|Hne]; [done|]. exfalso. apply Hne.
  apply (anti_symm (⊆)); [done|]. apply map_subseteq_spec. intros i d Hi%chunk_map_lookup.
  destruct (decide (i = x.1)) as [->|Hix].
  - rewrite lookup_insert_eq. apply chunk_map_lookup in Hi. destruct x as [j e]. apply chunk_map_lookup in Hx. cbn in *. congruence.
  - rewrite lookup_insert_ne by done. destruct (Hall _ Hi) as [E|]; [|done]. by subst x.
Qed.

(** Datagrams of the packet come from its chunks. *)
Lemma pair_up (l : list (Z * list Z)) :
  (∀ y, y ∈ l -> y.2 ∈ dg <$> index_from 0 cs) ->
  ∃ p, l = prod_map id dg <$> p ∧ ∀ y, y ∈ p -> y.2 ∈ index_from 0 cs.
Proof.
  induction l as [|[now d] l IH]; intros Hl.
  { exists []. split; [done|]. intros y Hy. by apply elem_of_nil in Hy. }
  destruct IH as (p & -> & Hp). { intros y Hy. apply Hl. by right. }
  assert (Hd : d ∈ dg <$> index_from 0 cs) by (apply (Hl (now, d)); by left).
  apply list_elem_of_fmap in Hd as (x & -> & Hx). exists ((now, x) :: p). split; [done|].
  intros y [->|Hy]%elem_of_cons; [done | by apply Hp].
Qed.

Lemma push_any_order l now x :
  (size asm0 < MAX_CONCURRENT_ASSEMBLIES)%nat ->
  (∀ y, y ∈ l -> y.2 ∈ dg <$> index_from 0 cs) -> x ∈ dg <$> index_from 0 cs -> x ∉ l.*2 ->
  (∀ d, d ∈ dg <$> index_from 0 cs -> d = x ∨ d ∈ l.*2) ->
  ∃ asm', push_all asm0 l = (replicate (length l) (Ok (hdr, None)), asm') ∧
    push_datagram asm' now x = (Ok (hdr, Some (concat cs)), asm0).
Proof.
  intros Hs Hl Hx Hnew Hall. apply pair_up in Hl as (p & -> & Hp).
  apply list_elem_of_fmap in Hx as ([i e] & -> & Hx).
  destruct (push_incomplete p asm0 ∅) as (asm' & m' & Ep & Hh & _ & Hm & Hin); [..|exists asm'; split].
  - split; [done|]. by left.
  - apply map_empty_subseteq.
  - done.
  - exists i. split_and!; [by apply (list_elem_of_fmap_2 fst _ (i, e))|done|].
    intros ([i' d] & -> & Hin)%list_elem_of_fmap. apply list_elem_of_fmap in Hin as ([n y] & E & Hin). cbn in E. subst y.
    apply Hnew. pose proof (Hp _ Hin) as Hd. cbn in Hd. apply chunk_map_lookup in Hd, Hx. cbn in Hx.
    assert (e = d) as -> by congruence.
    rewrite <- list_fmap_compose. by apply (list_elem_of_fmap_2 (snd ∘ prod_map id dg) _ (n, (i', d))).
  - by rewrite length_fmap.
  - apply (push_last _ _ m'); [done..|]. intros y Hy.
    destruct (Hall (dg y)) as [E|E]; [by apply list_elem_of_fmap_2|left; by apply dg_inj|right].
    rewrite <- list_fmap_compose in E. apply list_elem_of_fmap in E as ([n z] & E & Hz). cbn in E.
    apply dg_inj in E as ->; [by apply (Hin (n, z)) | done | by apply (Hp (n, z))].
Qed.
End Whole_frame.

Lemma push_all_app l1 : ∀ asm l2,
  push_all asm (l1 ++ l2) =
    (let '(r1, asm1) := push_all asm l1 in let '(r2, asm2) := push_all asm1 l2 in ((r1 ++ r2)%list, asm2)).
Proof.
  induction l1 as [|[now d] l1 IH]; intros asm l2; cbn [push_all app]; [by destruct (push_all asm l2)|].
  destruct (push_datagram asm now d) as [r asm1]. rewrite IH.
  destruct (push_all asm1 l1) as [r1 asm2]. by destruct (push_all asm2 l2).
Qed.

(** C39: A frame too large for one datagram survives the datagram layer however the
    network orders and repeats its fragments: until the last missing one arrives
    nothing is produced, that one produces exactly the frame, and the assembler is
    left as it was found. *)
Theorem fragments_any_order t c pid frame ds asm l now x :
  length c = CID_LEN -> in_u 32 pid -> MAX_INNER_UNFRAGMENTED < len frame ->
  encode_datagrams t c pid frame = Ok ds ->
  asm !! (cid16 c, pid) = None -> (size asm < MAX_CONCURRENT_ASSEMBLIES)%nat ->
  (∀ y, y ∈ l -> y.2 ∈ ds) -> x ∈ ds -> x ∉ l.*2 -> (∀ d, d ∈ ds -> d = x ∨ d ∈ l.*2) ->
  push_all asm (l ++ [(now, x)]) =
    ((replicate (length l) (Ok (mk_outer t true c, None)) ++ [Ok (mk_outer t true c, Some frame)])%list, asm).
Proof.
  intros Hc Hpid Hl He Hk Hs Hin Hx Hnew Hall. destruct (encode_fragmented _ _ _ _ _ Hl He) as [Hn ->].
  destruct (push_any_order t c pid (chunks (Z.to_nat MAX_INNER_FRAG_CHUNK) frame) asm Hc Hpid Hn) with l now x
    as (asm' & Ep & El); try done.
  - eapply Forall_impl; [apply chunks_fuel_bound|]. intros d Hd. unfold len, MAX_UDP_PAYLOAD.
    cbv beta in Hd. change MAX_INNER_FRAG_CHUNK with 1183 in Hd. lia.
  - rewrite push_all_app, Ep. cbn [push_all]. rewrite El. by rewrite chunks_concat by (change MAX_INNER_FRAG_CHUNK with 1183; lia).
Qed.

(** Of the datagrams [ds] of a frame, some have arrived and [x] is the last one missing. *)
Definition completes (ds : list (list Z)) (l : list (Z * list Z)) (x : list Z) : Prop :=
  (∀ y, y ∈ l -> (y.2 ∈ ds)) ∧ (x ∈ ds) ∧ (x ∉ l.*2) ∧ (∀ d, d ∈ ds -> d = x ∨ (d ∈ l.*2)).

(** The same for a frame of any size. *)
Lemma frame_arrives t c pid frame ds asm l now x :
  length c = CID_LEN -> in_u 32 pid -> encode_datagrams t c pid frame = Ok ds ->
  asm !! (cid16 c, pid) = None -> (size asm < MAX_CONCURRENT_ASSEMBLIES)%nat -> completes ds l x ->
  ∃ fr asm', push_all asm l = (replicate (length l) (Ok (mk_outer t fr c, None)), asm') ∧
    push_datagram asm' now x = (Ok (mk_outer t fr c, Some frame), asm).
Proof.
  intros Hc Hpid He Hk Hs (Hin & Hx & Hnew & Hall). destruct (Z.leb_spec (len frame) MAX_INNER_UNFRAGMENTED) as [Hl|Hl].
  - unfold encode_datagrams in He. rewrite (proj2 (Z.leb_le _ _) Hl) in He. injection He as <-. apply list_elem_of_singleton in Hx as ->.
    assert (l = []) as ->.
    { destruct l as [|y l]; [done|]. exfalso. apply Hnew. specialize (Hin y). rewrite elem_of_cons, list_elem_of_singleton in Hin.
      rewrite <- Hin by by left. cbn. apply elem_of_cons. by left. }
    exists false, asm. split; [done|]. unfold push_datagram.
    rewrite (decode_encode_header t false c frame Hc : decode_header (_ :: c ++ frame)%list = _). done.
  - destruct (encode_fragmented _ _ _ _ _ Hl He) as [Hn ->]. exists true.
    destruct (push_any_order t c pid (chunks (Z.to_nat MAX_INNER_FRAG_CHUNK) frame) asm Hc Hpid Hn) with l now x
      as (asm' & Ep & El); try done.
    + eapply Forall_impl; [apply chunks_fuel_bound|]. intros d Hd. unfold len, MAX_UDP_PAYLOAD.
      cbv beta in Hd. change MAX_INNER_FRAG_CHUNK with 1183 in Hd. lia.
    + exists asm'. split; [done|]. by rewrite El, chunks_concat by (change MAX_INNER_FRAG_CHUNK with 1183; lia).
Qed.

(** Three fragments, the first repeated, arriving last to first. *)
Definition sample_frame_big : list Z := replicate 3000 7.
Definition sample_datagrams : list (list Z) :=
  match encode_datagrams OneRtt (replicate 8 1) 5 sample_frame_big with Ok ds => ds | Err _ => [] end.

Lemma fragments_any_order_witness :
  ∃ d0 d1 d2, sample_datagrams = [d0; d1; d2] ∧
  push_all ∅ [(1, d2); (2, d0); (3, d2); (4, d1)] =
    (([Ok (mk_outer OneRtt true (replicate 8 1), None); Ok (mk_outer OneRtt true (replicate 8 1), None);
       Ok (mk_outer OneRtt true (replicate 8 1), None);
       Ok (mk_outer OneRtt true (replicate 8 1), Some sample_frame_big)])%list, ∅).
Proof.
  exists (sample_datagrams !!! 0%nat), (sample_datagrams !!! 1%nat), (sample_datagrams !!! 2%nat).
  split; [by vm_compute|].
  apply (fragments_any_order OneRtt (replicate 8 1) 5 sample_frame_big sample_datagrams ∅
    [(1, sample_datagrams !!! 2%nat); (2, sample_datagrams !!! 0%nat); (3, sample_datagrams !!! 2%nat)] 4 (sample_datagrams !!! 1%nat)).
  - done.
  - done.
  - by vm_compute.
  - by vm_compute.
  - done.
  - apply (bool_decide_unpack _). by vm_compute.
  - intros y Hy. revert y Hy. apply Forall_forall. apply (bool_decide_unpack _). by vm_compute.
  - apply (bool_decide_unpack _). by vm_compute.
  - apply (bool_decide_unpack _). by vm_compute.
  - apply Forall_forall. apply (bool_decide_unpack _). by vm_compute.
Defined.

(** ** The assembler's bounds *)

(** What an assembly may hold while it is incomplete. *)
Definition wf_assembly (st : AssemblyState) : Prop :=
  0 < as_total st <= MAX_TOTAL_CHUNKS ∧ Z.of_nat (size (as_chunks st)) < as_total st ∧
  map_Forall (λ i d, 0 <= i < MAX_TOTAL_CHUNKS ∧ len d <= MAX_UDP_PAYLOAD) (as_chunks st).

Definition wf_assembler (asm : FragmentAssembler) : Prop :=
  (size asm <= MAX_CONCURRENT_ASSEMBLIES)%nat ∧ map_Forall (λ _, wf_assembly) asm.

Lemma wf_assembler_subseteq asm asm' : asm' ⊆ asm -> wf_assembler asm -> wf_assembler asm'.
Proof.
  intros Hs [Hn Ha]. split; [apply map_subseteq_size in Hs; lia|]. intros k st Hk. by apply (Ha k), (lookup_weaken asm').
Qed.

Lemma staler_elem l b : foldr staler None l = Some b -> b.1 ∈ l.*1.
Proof.
  revert b. induction l as [|e l IH]; intros b; cbn [foldr]; [discriminate|].
  unfold staler at 1. destruct (foldr staler None l) as [[k' t']|].
  - destruct (last_update e.2 <=? t'); intros E; injection E as <-; cbn; [by left | right; by apply (IH (k', t'))].
  - intros E. injection E as <-. by left.
Qed.

Lemma stalest_lookup asm k : stalest asm = Some k -> is_Some (asm !! k).
Proof.
  intros (b & Hb & ->)%fmap_Some. apply staler_elem in Hb. apply list_elem_of_fmap in Hb as ([k st] & -> & Hin).
  apply elem_of_map_to_list in Hin. by eexists.
Qed.

(** Eviction makes room for one more assembly. *)
Lemma evict_stalest_spec asm :
  evict_stalest asm ⊆ asm ∧ (asm ≠ ∅ -> S (size (evict_stalest asm)) = size asm).
Proof.
  unfold evict_stalest. destruct (stalest asm) as [k|] eqn:E.
  - split; [apply delete_subseteq|]. intros _. apply stalest_lookup in E.
    rewrite map_size_delete_Some by done. destruct E as [st Hst]. assert (size asm ≠ 0%nat); [|lia].
    intros ->%map_size_empty_inv. by rewrite lookup_empty in Hst.
  - split; [done|]. intros Hne. exfalso. unfold stalest in E. rewrite fmap_None in E.
    destruct (map_to_list asm) as [|e l] eqn:El; [by apply map_to_list_empty_iff in El|]. cbn in E.
    unfold staler at 1 in E. destruct (foldr staler None l) as [[]|]; [case_match; discriminate | discriminate].
Qed.

Lemma process_chunk_wf asm now frame :
  0 <= chunk_index frame -> wf_assembler asm -> wf_assembler (process_chunk asm now frame).2.
Proof.
  intros Hi Hwf. unfold process_chunk.
  destruct (Z.eqb_spec (total_chunks frame) 0); [done|]. destruct (Z.ltb_spec MAX_TOTAL_CHUNKS (total_chunks frame)); [done|].
  destruct (Z.leb_spec (total_chunks frame) (chunk_index frame)); [done|].
  destruct (Z.ltb_spec MAX_UDP_PAYLOAD (len (f_payload frame))); [done|]. cbn [orb].
  set (key := (f_session_id frame, packet_id frame)).
  set (asm1 := if bool_decide _ && _ then evict_stalest asm else asm).
  assert (Hwf_room : wf_assembler asm1 ∧ (asm1 !! key = None -> (size asm1 < MAX_CONCURRENT_ASSEMBLIES)%nat)).
  { subst asm1. destruct Hwf as [Hn Ha]. destruct (bool_decide_reflect (asm !! key = None)) as [|Hk]; cbn [andb].
    - destruct (Nat.leb_spec MAX_CONCURRENT_ASSEMBLIES (size asm)) as [Hf|]; [|by split].
      destruct (evict_stalest_spec asm) as [Hs Hsz]. split; [by apply (wf_assembler_subseteq asm)|].
      intros _. assert (asm ≠ ∅); [|specialize (Hsz ltac:(done)); lia]. intros ->. rewrite map_size_empty in Hf. unfold MAX_CONCURRENT_ASSEMBLIES in Hf. lia.
    - by split. }
  clearbody asm1. destruct Hwf_room as [Hwf1 Hroom].
  set (st := default _ (asm1 !! key)).
  assert (Hst : wf_assembly st).
  { subst st. destruct (asm1 !! key) as [st|] eqn:E; cbn; [by apply (proj2 Hwf1 key)|].
    split_and!; cbn; rewrite ?map_size_empty; try lia. apply map_Forall_empty. }
  clearbody st. destruct Hst as (Ht & Hs & Hc).
  set (chunks' := match as_chunks st !! _ with Some _ => _ | None => _ end).
  assert (Hc' : (Z.of_nat (size chunks') <= as_total st) ∧
     map_Forall (λ i d, 0 <= i < MAX_TOTAL_CHUNKS ∧ len d <= MAX_UDP_PAYLOAD) chunks').
  { subst chunks'. destruct (as_chunks st !! chunk_index frame) eqn:E; [split; [lia|done]|].
    rewrite map_size_insert_None by done. split; [lia|]. apply map_Forall_insert_2; [lia|done]. }
  clearbody chunks'. cbn [as_total]. destruct Hwf1 as [Hn1 Ha1].
  destruct (Z.eqb_spec (Z.of_nat (size chunks')) (as_total st)); cbn [snd].
  - apply (wf_assembler_subseteq asm1); [apply delete_subseteq | done].
  - split.
    + rewrite map_size_insert. destruct (asm1 !! key) eqn:E; [done|]. specialize (Hroom eq_refl). lia.
    + apply map_Forall_insert_2; [|done]. split_and!; cbn; [lia..|apply Hc'].
Qed.

Lemma sweep_wf asm now : wf_assembler asm -> wf_assembler (get_nacks_and_evict asm now).2.
Proof. apply wf_assembler_subseteq, map_filter_subseteq. Qed.

(** Everything the wire and the clock can do to an assembler. *)
Inductive asm_reachable : FragmentAssembler -> Prop :=
| asm_new : asm_reachable ∅
| asm_push asm now d :
    asm_reachable asm -> is_bytes d -> asm_reachable (push_datagram asm now d).2
| asm_sweep asm now :
    asm_reachable asm -> asm_reachable (get_nacks_and_evict asm now).2.

Lemma decode_header_rest d hdr rest :
  decode_header d = Ok (hdr, rest) -> rest = drop (Z.to_nat DATAGRAM_HDR_LEN) d.
Proof.
  unfold decode_header. destruct (_ <? _); [discriminate|]. destruct (negb _); [discriminate|].
  do 3 (destruct (_ =? _); [by intros [= _ <-]|]). discriminate.
Qed.

Lemma push_datagram_wf asm now d :
  is_bytes d -> wf_assembler asm -> wf_assembler (push_datagram asm now d).2.
Proof.
  intros Hd Hwf. unfold push_datagram. destruct (decode_header d) as [[hdr rest]|e] eqn:E; [|done].
  destruct (negb (fragmented hdr)); [done|]. destruct (_ <? _)%nat; [done|].
  match goal with |- context [process_chunk asm now ?f] => pose proof (process_chunk_wf asm now f) as Hp end.
  destruct (process_chunk asm now _) as [r asm']. apply Hp; [|done]. cbn [chunk_index].
  apply be_decode_bound. apply decode_header_rest in E as ->. unfold slice, is_bytes. by apply Forall_take, Forall_drop, Forall_drop.
Qed.

Lemma asm_reachable_wf asm : asm_reachable asm -> wf_assembler asm.
Proof.
  induction 1; [|by apply push_datagram_wf|by apply sweep_wf].
  split; [rewrite map_size_empty; unfold MAX_CONCURRENT_ASSEMBLIES; lia | apply map_Forall_empty].
Qed.

(** Payload bytes an assembly pins. *)
Definition pinned (st : AssemblyState) : Z := map_fold (λ _ d n, len d + n) 0 (as_chunks st).

Lemma pinned_bound st n :
  map_Forall (λ _ d, len d <= n) (as_chunks st) -> 0 <= pinned st <= Z.of_nat (size (as_chunks st)) * n.
Proof.
  unfold pinned. apply (map_fold_weak_ind (λ r m, map_Forall (λ _ d, len d <= n) m -> 0 <= r <= Z.of_nat (size m) * n)).
  - intros _. rewrite map_size_empty. lia.
  - intros i d m r Hi IH Hm. apply map_Forall_insert in Hm as [Hd Hm]; [|done].
    rewrite map_size_insert_None by done. specialize (IH Hm). unfold len in *. lia.
Qed.

(** However an adversary sprays datagrams, the assembler tracks at most
    [MAX_CONCURRENT_ASSEMBLIES] incomplete packets and each pins at most
    [MAX_REASSEMBLED_LEN] bytes: the worst case the module documents. *)
Theorem assembler_bounded asm :
  asm_reachable asm ->
  (size asm <= MAX_CONCURRENT_ASSEMBLIES)%nat ∧
  ∀ key st, asm !! key = Some st ->
    0 < as_total st <= MAX_TOTAL_CHUNKS ∧ Z.of_nat (size (as_chunks st)) < as_total st ∧
    0 <= pinned st <= MAX_REASSEMBLED_LEN.
Proof.
  intros [Hs Hall]%asm_reachable_wf. split; [done|]. intros key st Hst.
  destruct (Hall _ _ Hst) as (Ht & Hn & Hc). split_and!; try lia.
  all: destruct (pinned_bound st MAX_UDP_PAYLOAD) as [Hlo Hhi];
    [eapply map_Forall_impl; [exact Hc|]; naive_solver|].
  - done.
  - rewrite MAX_TOTAL_CHUNKS_val in Ht. unfold MAX_UDP_PAYLOAD, MAX_REASSEMBLED_LEN in *. lia.
Qed.

(** A map with too few entries misses an index below the bound. *)
Lemma mapM_too_few (m : gmap Z (list Z)) n :
  Z.of_nat (size m) < n -> mapM (λ i, m !! i) (seqZ 0 n) = None.
Proof.
  intros Hs. destruct (mapM _ _) as [cs|] eqn:Em; [exfalso|done].
  apply mapM_Some, Forall2_Forall_l with (Q := λ i, i ∈ dom m) in Em.
  - assert (Hsub : (list_to_set (seqZ 0 n) : gset Z) ⊆ dom m).
    { intros i Hi%elem_of_list_to_set. by apply (proj1 (Forall_forall _ _) Em). }
    apply subseteq_size in Hsub. rewrite size_list_to_set, length_seqZ, size_dom in Hsub by apply NoDup_seqZ. lia.
  - apply Forall_true. intros d i Hi. apply elem_of_dom. by exists d.
Qed.

(** One datagram whose subheader disagrees with an assembly's total destroys it: when
    the assembly lacks a single chunk, a chunk numbered past its total fills the count
    but not the gap, so the packet is dropped and its genuine chunks with it. *)
Theorem stray_chunk_destroys asm now sid pid st i total d :
  asm !! (sid, pid) = Some st -> Z.of_nat (size (as_chunks st)) = as_total st - 1 ->
  (∀ j, is_Some (as_chunks st !! j) -> 0 <= j < as_total st) ->
  as_total st <= i < total -> total <= MAX_TOTAL_CHUNKS -> 0 < total -> len d <= MAX_UDP_PAYLOAD ->
  process_chunk asm now (mk_frame sid pid i total d) = (None, delete (sid, pid) asm).
Proof.
  intros Hk Hn Hidx Hi Ht Hp Hd. unfold process_chunk. cbn [total_chunks chunk_index f_payload f_session_id packet_id].
  destruct (Z.eqb_spec total 0); [lia|]. destruct (Z.ltb_spec MAX_TOTAL_CHUNKS total); [lia|].
  destruct (Z.leb_spec total i); [lia|]. destruct (Z.ltb_spec MAX_UDP_PAYLOAD (len d)); [lia|]. cbn [orb].
  rewrite Hk, bool_decide_false by done. cbn [andb]. rewrite Hk. change (default _ (Some st)) with st.
  destruct (as_chunks st !! i) eqn:E; [exfalso; specialize (Hidx i ltac:(by eexists)); lia|].
  cbn [as_total]. rewrite map_size_insert_None, Nat2Z.inj_succ, Hn by done.
  destruct (Z.eqb_spec (Z.succ (as_total st - 1)) (as_total st)); [|lia]. f_equal.
  unfold assemble. cbn [as_total as_chunks].
  rewrite (Forall_mapM_ext _ (λ j, as_chunks st !! j)); [by rewrite mapM_too_few by lia|].
  apply Forall_forall. intros j [_ Hj]%elem_of_seqZ. by rewrite lookup_insert_ne by lia.
Qed.

(** Two chunks out of three held; a chunk numbered 5 of 9 arrives. *)
Definition sample_partial : AssemblyState := mk_asm (<[0 := [7]]> (<[1 := [8]]> ∅)) 3 10.

Lemma stray_chunk_destroys_witness :
  process_chunk {[([0], 4) := sample_partial]} 20 (mk_frame [0] 4 5 9 [6]) = (None, delete ([0], 4) {[([0], 4) := sample_partial]}).
Proof.
  apply (stray_chunk_destroys _ 20 [0] 4 sample_partial 5 9 [6]); try (by vm_compute).
  intros j Hj. apply elem_of_dom in Hj. revert j Hj. apply set_Forall_elements.
  apply (bool_decide_unpack _). by vm_compute.
Defined.

Lemma assembler_bounded_witness :
  (size (push_datagram ∅ 1 (encode_header OneRtt true (replicate 8 1) ++ [0; 0; 0; 1; 0; 0; 0; 2; 9])%Z).2 <= MAX_CONCURRENT_ASSEMBLIES)%nat.
Proof.
  apply assembler_bounded, asm_push; [constructor|]. apply (bool_decide_unpack _). by vm_compute.
Defined.

(** ** Codec laws *)

Lemma fragments_length t c pid total (l : list (Z * list Z)) :
  length c = CID_LEN ->
  len (concat (fragment_datagram t c pid total <$> l)) = len l * 17 + len (concat l.*2).
Proof.
  intros Hc. unfold len. induction l as [|x l IH]; [done|]. rewrite !fmap_cons. cbn [concat length].
  rewrite !length_app, !Nat2Z.inj_add, IH. unfold fragment_datagram, encode_header. cbn [length app].
  rewrite !length_app, !be_encode_length, Hc. unfold CID_LEN. lia.
Qed.

(** [wire_len] is the number of bytes [encode_datagrams] emits, for every frame it
    accepts, and no datagram is longer than the path's MTU. *)
Theorem wire_len_exact t c pid frame ds :
  length c = CID_LEN -> encode_datagrams t c pid frame = Ok ds ->
  len (concat ds) = wire_len (len frame) ∧ Forall (λ d, len d <= PATH_MTU) ds.
Proof.
  intros Hc He. destruct (Z.leb_spec (len frame) MAX_INNER_UNFRAGMENTED) as [Hs|Hl].
  - unfold encode_datagrams, wire_len in *. rewrite (proj2 (Z.leb_le _ _) Hs) in *. injection He as <-.
    cbn [concat]. rewrite app_nil_r.
    assert (El : len (encode_header t false c ++ frame) = DATAGRAM_HDR_LEN + len frame).
    { unfold len, encode_header. cbn [app length]. rewrite length_app, Hc. unfold CID_LEN, DATAGRAM_HDR_LEN. lia. }
    split; [done|]. apply Forall_singleton. change (len (encode_header t false c ++ frame) <= PATH_MTU). rewrite El. unfold MAX_INNER_UNFRAGMENTED in Hs. lia.
  - destruct (encode_fragmented _ _ _ _ _ Hl He) as [_ ->]. split.
    + rewrite fragments_length by done. rewrite index_from_snd, chunks_concat by (change MAX_INNER_FRAG_CHUNK with 1183; lia).
      unfold wire_len. destruct (Z.leb_spec (len frame) MAX_INNER_UNFRAGMENTED); [lia|].
      unfold len at 1. rewrite <- (length_fmap snd), index_from_snd.
      fold (len (chunks (Z.to_nat MAX_INNER_FRAG_CHUNK) frame)).
      rewrite chunks_length by (change MAX_INNER_FRAG_CHUNK with 1183; lia).
      rewrite Z2Nat.id by (change MAX_INNER_FRAG_CHUNK with 1183; lia).
      change (DATAGRAM_HDR_LEN + Z.of_nat FRAG_SUBHDR_LEN) with 17. lia.
    + apply Forall_fmap, Forall_forall. intros x Hx. apply (list_elem_of_fmap_2 snd) in Hx. rewrite index_from_snd in Hx.
      pose proof (proj1 (Forall_forall _ _) (chunks_fuel_bound _ _ _) _ Hx) as Hb. cbv beta in Hb.
      change MAX_INNER_FRAG_CHUNK with 1183 in Hb. unfold compose, len, fragment_datagram, encode_header.
      cbn [app length]. rewrite !length_app, !be_encode_length, Hc. unfold CID_LEN, PATH_MTU. lia.
Qed.
