(* ===== verification/Coalesce.v ===== *)
(** * Bundled packets ([core/src/transport/packet_coalescer.rs],
      [packet_coalescer_codec.rs])

    The batcher that packs small packets into one datagram, the decoder, and the
    bridge to the COALESCED packet flag.  The receive path uses the decoder; the
    batcher is its tested counterpart. *)

From Stdlib Require Import ZArith Lia.
From stdpp Require Import base numbers option list.
From S2P Require Import Prelude Wire.

Local Open Scope Z_scope.

Definition BUNDLE_HEADER_SIZE : nat := 2.
Definition SUB_HEADER_SIZE : nat := 2.
Definition DEFAULT_MAX_DATAGRAM : Z := 1200.

Record CoalescerConfig := mk_cconf {
  max_datagram_size : Z;
  flush_timeout_us : Z;
  max_packets : Z;
}.
Definition cconf_default : CoalescerConfig := mk_cconf DEFAULT_MAX_DATAGRAM 500 256.

Record PacketCoalescer := mk_coal {
  coal_config : CoalescerConfig;
  coal_buf : list Z;
  coal_count : Z;
  batch_start : option Z;
}.

Definition coal_new (config : CoalescerConfig) : PacketCoalescer :=
  mk_coal config (replicate BUNDLE_HEADER_SIZE 0) 0 None.

(** The count is a [u16]; [len as u16] truncates. *)
Definition push_inner (c : PacketCoalescer) (now : Z) (data : list Z) : PacketCoalescer :=
  let l := wrap 16 (len data) in
  mk_coal (coal_config c) (coal_buf c ++ be_encode 2 l ++ data) (wrap 16 (coal_count c + 1))
    (Some (default now (batch_start c))).

Definition flush (c : PacketCoalescer) : option (list Z) * PacketCoalescer :=
  if coal_count c =? 0 then (None, c)
  else (Some (be_encode 2 (coal_count c) ++ drop BUNDLE_HEADER_SIZE (coal_buf c)),
        mk_coal (coal_config c) (replicate BUNDLE_HEADER_SIZE 0) 0 None).

Definition push (c : PacketCoalescer) (now : Z) (data : list Z) : option (list Z) * PacketCoalescer :=
  let needed := Z.of_nat SUB_HEADER_SIZE + len data in
  if (max_datagram_size (coal_config c) <? len (coal_buf c) + needed)
     || (max_packets (coal_config c) <=? coal_count c)
  then let '(flushed, c1) := flush c in (flushed, push_inner c1 now data)
  else (None, push_inner c now data).

Definition should_flush (c : PacketCoalescer) (now : Z) : bool :=
  if coal_count c =? 0 then false
  else match batch_start c with
       | Some start => flush_timeout_us (coal_config c) * 1000 <=? sat_sub now start
       | None => false
       end.

Definition pending_count (c : PacketCoalescer) : Z := coal_count c.
Definition pending_bytes (c : PacketCoalescer) : Z := len (coal_buf c) - Z.of_nat BUNDLE_HEADER_SIZE.

(** ** Decoding *)

Record Decoalescer := mk_dec { dec_data : list Z; dec_offset : nat; dec_remaining : Z }.

Definition dec_new (datagram : list Z) : option Decoalescer :=
  if (length datagram <? BUNDLE_HEADER_SIZE)%nat then None
  else Some (mk_dec datagram BUNDLE_HEADER_SIZE (be_decode (slice 0 2 datagram))).

Definition dec_next (d : Decoalescer) : option (list Z) * Decoalescer :=
  if dec_remaining d =? 0 then (None, d)
  else if (length (dec_data d) <? dec_offset d + SUB_HEADER_SIZE)%nat then (None, d)
  else
    let l := Z.to_nat (be_decode (slice (dec_offset d) (dec_offset d + 2) (dec_data d))) in
    let o := (dec_offset d + SUB_HEADER_SIZE)%nat in
    if (length (dec_data d) <? o + l)%nat then (None, mk_dec (dec_data d) o (dec_remaining d))
    else (Some (slice o (o + l) (dec_data d)), mk_dec (dec_data d) (o + l) (dec_remaining d - 1)).

(** The [for] loop; each pass that yields decrements [dec_remaining]. *)
Fixpoint dec_collect (fuel : nat) (d : Decoalescer) : list (list Z) :=
  match fuel with
  | O => []
  | S fuel' =>
    match dec_next d with
    | (Some sub, d') => sub :: dec_collect fuel' d'
    | (None, _) => []
    end
  end.

Inductive CoalescedParseError := EmptyOrTruncatedHeader | TruncatedSubPacket (expected got : Z).

Definition wrap_coalesced_packet (sid : list Z) (stream pn flags_extra : Z) (bundle : list Z) : PhantomPacket :=
  packet_new (header_new sid stream pn (Z.lor flags_extra COALESCED)) bundle.

Definition unwrap_coalesced_packet (p : PhantomPacket) : result (option (list (list Z))) CoalescedParseError :=
  if negb (flags_contains (flags (header p)) COALESCED) then Ok None
  else if (length (payload p) <? 2)%nat then Err EmptyOrTruncatedHeader
  else
    let claimed := be_decode (slice 0 2 (payload p)) in
    match dec_new (payload p) with
    | None => Err EmptyOrTruncatedHeader
    | Some d =>
      let out := dec_collect (Z.to_nat claimed) d in
      if negb (len out =? claimed) then Err (TruncatedSubPacket claimed (len out)) else Ok (Some out)
    end.

(** [while let Some(bundle) = coalescer.flush()]: the first flush empties it. *)
Definition drain_coalescer_to_packets (c : PacketCoalescer) (sid : list Z) (stream next_sequence flags_extra : Z)
  : list PhantomPacket * Z * PacketCoalescer :=
  match flush c with
  | (Some bundle, c1) =>
    ([wrap_coalesced_packet sid stream next_sequence flags_extra bundle], wrap 32 (next_sequence + 1), c1)
  | (None, c1) => ([], next_sequence, c1)
  end.

(** ** Round trip *)

Definition sub_encode (d : list Z) : list Z := be_encode 2 (len d) ++ d.
Definition bundle_body (ds : list (list Z)) : list Z := concat (sub_encode <$> ds).
Definition bundle (ds : list (list Z)) : list Z := be_encode 2 (len ds) ++ bundle_body ds.

(** What a batcher holding the packets [ds] looks like. *)
Definition batches (c : PacketCoalescer) (ds : list (list Z)) : Prop :=
  coal_buf c = replicate BUNDLE_HEADER_SIZE 0 ++ bundle_body ds ∧ coal_count c = len ds ∧
  len ds <= Z.max 1 (max_packets (coal_config c)).

Lemma bundle_body_snoc ds d : bundle_body (ds ++ [d]) = bundle_body ds ++ sub_encode d.
Proof. unfold bundle_body. rewrite fmap_app, concat_app. cbn. by rewrite app_nil_r. Qed.

Lemma push_inner_batches c now ds d :
  batches c ds -> len d < 2 ^ 16 -> len ds + 1 <= Z.max 1 (max_packets (coal_config c)) ->
  max_packets (coal_config c) < 2 ^ 16 -> batches (push_inner c now d) (ds ++ [d]).
Proof.
  intros (Hb & Hc & Hm) Hd Hroom Hmax. pose proof (len_nonneg ds). pose proof (len_nonneg d).
  assert (El : len (ds ++ [d]) = len ds + 1) by (unfold len; rewrite length_app; cbn; lia).
  split_and!; cbn [push_inner coal_buf coal_count coal_config].
  - rewrite bundle_body_snoc, Hb. unfold sub_encode. rewrite wrap_small by (unfold in_u; lia). by rewrite <- !app_assoc.
  - rewrite Hc, wrap_small by (unfold in_u; lia). lia.
  - lia.
Qed.

Lemma flush_batches c ds :
  batches c ds ->
  (flush c).1 = match ds with [] => None | _ => Some (bundle ds) end ∧ batches (flush c).2 [] ∧
  coal_config (flush c).2 = coal_config c.
Proof.
  intros (Hb & Hc & Hm). unfold flush. rewrite Hc. destruct ds as [|d ds].
  - rewrite Z.eqb_refl. done.
  - destruct (Z.eqb_spec (len (d :: ds)) 0) as [E|]; [unfold len in E; cbn in E; lia|].
    split_and!; try done; cbn [fst snd coal_config]; [by rewrite Hb|].
    split_and!; [done..|]. unfold len. cbn [length coal_config]. lia.
Qed.

(** The decoder reads back what the batcher wrote. *)
Lemma dec_collect_body ds : ∀ pre,
  Forall (λ d, len d < 2 ^ 16) ds ->
  dec_collect (length ds) (mk_dec (pre ++ bundle_body ds) (length pre) (len ds)) = ds.
Proof.
  induction ds as [|d ds IH]; intros pre Hs; [done|]. apply Forall_cons in Hs as [Hd Hs]. pose proof (len_nonneg d).
  cbn [dec_collect length]. unfold dec_next. cbn [dec_remaining dec_data dec_offset].
  destruct (Z.eqb_spec (len (d :: ds)) 0) as [E|_]; [unfold len in E; cbn in E; lia|].
  assert (Eb : bundle_body (d :: ds) = be_encode 2 (len d) ++ d ++ bundle_body ds).
  { unfold bundle_body. rewrite fmap_cons. cbn [concat]. unfold sub_encode at 1. by rewrite <- app_assoc. }
  rewrite Eb, slice_app_mid by (by rewrite ?be_encode_length). rewrite be_decode_encode by lia.
  rewrite !length_app, be_encode_length. unfold SUB_HEADER_SIZE.
  assert (Ed : Z.to_nat (len d) = length d) by (unfold len; lia). rewrite Ed.
  destruct (Nat.ltb_spec (length pre + (2 + (length d + length (bundle_body ds)))) (length pre + 2)); [lia|].
  destruct (Nat.ltb_spec (length pre + (2 + (length d + length (bundle_body ds)))) (length pre + 2 + length d)); [lia|].
  f_equal.
  - rewrite (app_assoc pre). apply slice_app_mid; rewrite ?length_app, ?be_encode_length; lia.
  - specialize (IH (pre ++ be_encode 2 (len d) ++ d) Hs). rewrite !length_app, be_encode_length in IH.
    rewrite <- !app_assoc in IH. replace (length pre + 2 + length (d : list Z))%nat with (length pre + (2 + length d))%nat by lia.
    replace (len (d :: ds) - 1) with (len ds) by (unfold len; cbn [length]; lia). done.
Qed.

Lemma lor_contains_right f g : flags_contains (Z.lor f g) g = true.
Proof.
  unfold flags_contains. apply Z.eqb_eq, Z.bits_inj'. intros n _.
  rewrite Z.land_spec, Z.lor_spec. by destruct (Z.testbit f n), (Z.testbit g n).
Qed.

Lemma unwrap_bundle sid stream pn fx ds :
  Forall (λ d, len d < 2 ^ 16) ds -> len ds < 2 ^ 16 ->
  unwrap_coalesced_packet (wrap_coalesced_packet sid stream pn fx (bundle ds)) = Ok (Some ds).
Proof.
  intros Hs Hn. pose proof (len_nonneg ds). unfold unwrap_coalesced_packet, wrap_coalesced_packet. cbn [header payload packet_new header_new flags].
  rewrite lor_contains_right. cbn [negb]. unfold dec_new, bundle. rewrite length_app, be_encode_length.
  unfold BUNDLE_HEADER_SIZE. cbn [Nat.add Nat.ltb Nat.leb].
  change (slice 0 2 (be_encode 2 (len ds) ++ bundle_body ds)) with (be_encode 2 (len ds)).
  rewrite be_decode_encode by lia.
  assert (Ed : Z.to_nat (len ds) = length ds) by (unfold len; lia). rewrite Ed.
  pose proof (dec_collect_body ds (be_encode 2 (len ds)) Hs) as E. rewrite be_encode_length in E. rewrite E.
  by rewrite Z.eqb_refl.
Qed.

(** A run of pushes: the datagrams emitted on the way, and the batcher left. *)
Fixpoint coal_run (c : PacketCoalescer) (l : list (Z * list Z)) : list (list Z) * PacketCoalescer :=
  match l with
  | [] => ([], c)
  | (now, d) :: l' =>
    let '(o, c1) := push c now d in
    let '(os, c2) := coal_run c1 l' in (option_list o ++ os, c2)
  end.

Lemma push_batches c now ds d :
  batches c ds -> len d < 2 ^ 16 -> max_packets (coal_config c) < 2 ^ 16 ->
  ∃ ds', batches (push c now d).2 ds' ∧ coal_config (push c now d).2 = coal_config c ∧
    (((push c now d).1 = None ∧ ds' = ds ++ [d]) ∨
     ((push c now d).1 = Some (bundle ds) ∧ ds ≠ [] ∧ ds' = [d])).
Proof.
  intros Hb Hd Hmax. pose proof (flush_batches c ds Hb) as (Hf & Hb0 & Hc0). unfold push. cbv zeta.
  destruct (_ || _) eqn:E.
  - destruct (flush c) as [o c1]. cbn [fst snd] in *.
    exists [d]. pose proof (push_inner_batches c1 now [] d Hb0 Hd) as Hp. rewrite Hc0 in Hp.
    split_and!; [apply Hp; [unfold len; cbn [length]; lia | done] | done |].
    subst o. destruct ds as [|x ds]; [by left | right; done].
  - apply orb_false_iff in E as [_ E]. apply Z.leb_gt in E. exists (ds ++ [d]).
    destruct Hb as (? & Hc & ?). rewrite Hc in E. split_and!; [|done|by left].
    apply push_inner_batches; [done|done|lia|done].
Qed.

(** The packets of a batch and of the bundles before it. *)
Lemma coal_run_batches l : ∀ c ds,
  batches c ds -> max_packets (coal_config c) < 2 ^ 16 -> Forall (λ x, len x.2 < 2 ^ 16) l ->
  ∃ parts ds', batches (coal_run c l).2 ds' ∧ coal_config (coal_run c l).2 = coal_config c ∧
    (coal_run c l).1 = bundle <$> parts ∧ Forall (λ p, p ≠ []) parts ∧
    concat parts ++ ds' = ds ++ l.*2 ∧ Forall (λ p, len p <= Z.max 1 (max_packets (coal_config c))) parts.
Proof.
  induction l as [|[now d] l IH]; intros c ds Hb Hmax Hl.
  { exists [], ds. by rewrite app_nil_r. }
  apply Forall_cons in Hl as [Hd Hl]. destruct (push_batches c now ds d Hb Hd Hmax) as (ds1 & Hb1 & Hc1 & Hcase).
  cbn [coal_run]. destruct (push c now d) as [o c1]. cbn [fst snd] in *.
  destruct (IH c1 ds1 Hb1) as (parts & ds' & Hb' & Hc' & Ho & Hne & Hcat & Hsz); [by rewrite Hc1|done|].
  rewrite Hc1 in Hc', Hsz. destruct (coal_run c1 l) as [os c2]. cbn [fst snd] in *.
  destruct Hcase as [[-> ->]|(-> & Hds & ->)].
  - exists parts, ds'. split_and!; try done. rewrite Hcat. by rewrite <- app_assoc.
  - exists (ds :: parts), ds'. split_and!; try done; cbn.
    + by rewrite Ho.
    + by constructor.
    + rewrite <- app_assoc, Hcat. done.
    + constructor; [apply Hb | done].
Qed.

(** Nothing pushed is lost, repeated or reordered: the emitted bundles, with the last
    flush, unwrap to exactly the packets pushed. *)
Theorem bundles_roundtrip cfg l sid stream pn fx :
  max_packets cfg < 2 ^ 16 -> Forall (λ x, len x.2 < 2 ^ 16) l ->
  let '(os, c) := coal_run (coal_new cfg) l in
  ∃ parts, concat parts = l.*2 ∧
    Forall2 (λ b ds, unwrap_coalesced_packet (wrap_coalesced_packet sid stream pn fx b) = Ok (Some ds))
      (os ++ option_list (flush c).1) parts.
Proof.
  intros Hmax Hl.
  destruct (coal_run_batches l (coal_new cfg) []) as (parts & ds & Hb & Hc & Ho & Hne & Hcat & Hsz); [|done..|].
  { split_and!; [done|done|]. unfold len. cbn [length]. lia. }
  destruct (coal_run (coal_new cfg) l) as [os c]. cbn [fst snd app] in *. cbn in Hc, Hsz.
  destruct (flush_batches c ds Hb) as (Hf & _). rewrite Hf, Ho.
  exists (parts ++ match ds with [] => [] | _ => [ds] end). split.
  { rewrite <- Hcat, concat_app. destruct ds; cbn; by rewrite ?app_nil_r. }
  assert (Hall : Forall (λ d, len d < 2 ^ 16) (concat parts ++ ds)) by (rewrite Hcat; by apply Forall_fmap).
  apply Forall_app in Hall as [Hp Hd]. apply Forall2_app.
  - apply Forall2_fmap_l, Forall_Forall2_diag, Forall_forall. intros p Hin. apply unwrap_bundle.
    + apply List.Forall_concat in Hp. by apply (proj1 (Forall_forall _ _) Hp).
    + apply (proj1 (Forall_forall _ _) Hsz) in Hin. lia.
  - destruct ds as [|d ds]; constructor; [|constructor]. apply unwrap_bundle; [done|].
    destruct Hb as (_ & _ & Hb). rewrite Hc in Hb. lia.
Qed.

Lemma bundles_roundtrip_witness :
  ∃ parts, concat parts = [[1]; []; [2; 3]] ∧
    Forall2 (λ b ds, unwrap_coalesced_packet (wrap_coalesced_packet (replicate 32 0) 1 0 0 b) = Ok (Some ds))
      ((coal_run (coal_new (mk_cconf 9 500 256)) [(0, [1]); (0, []); (0, [2; 3])]).1 ++
       option_list (flush (coal_run (coal_new (mk_cconf 9 500 256)) [(0, [1]); (0, []); (0, [2; 3])]).2).1) parts.
Proof.
  apply (bundles_roundtrip (mk_cconf 9 500 256) [(0, [1]); (0, []); (0, [2; 3])] (replicate 32 0) 1 0 0); [done|].
  repeat constructor.
Defined.

(** What the decoder yields is in the datagram: sub-packets are cut from it in order,
    each with its length prefix, and nothing is read past its end. *)
Lemma dec_collect_sound fuel : ∀ d,
  (dec_offset d <= length (dec_data d))%nat -> is_bytes (dec_data d) -> 
  ∃ rest, drop (dec_offset d) (dec_data d) = bundle_body (dec_collect fuel d) ++ rest.
Proof.
  induction fuel as [|fuel IH]; intros d Ho Hb; [by eexists|]. cbn [dec_collect].
  destruct (dec_next d) as [[sub|] d'] eqn:E; [|by eexists]. unfold dec_next in E.
  destruct (dec_remaining d =? 0); [done|].
  destruct (Nat.ltb_spec (length (dec_data d)) (dec_offset d + SUB_HEADER_SIZE)) as [|H1]; [done|].
  set (o := dec_offset d) in *. set (x := dec_data d) in *. unfold SUB_HEADER_SIZE in *.
  set (l := be_decode (slice o (o + 2) x)) in *.
  assert (Hhd : length (slice o (o + 2) x) = 2%nat) by (rewrite slice_length by lia; lia).
  assert (Hl : 0 <= l < 2 ^ 16).
  { pose proof (be_decode_bound (slice o (o + 2) x)) as Hd. rewrite Hhd in Hd. apply Hd. auto with phantom. }
  destruct (Nat.ltb_spec (length x) (o + 2 + Z.to_nat l)) as [|H2]; [done|]. injection E as <- <-.
  destruct (IH (mk_dec x (o + 2 + Z.to_nat l) (dec_remaining d - 1))) as [rest Hrest]; [done|done|].
  cbn [dec_offset dec_data] in Hrest. exists rest. set (subs := dec_collect _ _) in *. clearbody subs.
  unfold bundle_body. rewrite fmap_cons. cbn [concat]. fold (bundle_body subs). rewrite <- app_assoc, <- Hrest.
  assert (Hsl : length (slice (o + 2) (o + 2 + Z.to_nat l) x) = Z.to_nat l) by (rewrite slice_length by lia; lia).
  unfold sub_encode, len. rewrite Hsl, Z2Nat.id by lia.
  unfold l at 1. rewrite (be_encode_decode_len 2) by (done || auto with phantom).
  unfold slice. replace (o + 2 - o)%nat with 2%nat by lia. replace (o + 2 + Z.to_nat l - (o + 2))%nat with (Z.to_nat l) by lia.
  rewrite <- app_assoc. rewrite <- (take_drop 2 (drop o x)) at 1. f_equal. rewrite drop_drop.
  rewrite <- (take_drop (Z.to_nat l) (drop (o + 2) x)) at 1. f_equal. by rewrite drop_drop.
Qed.

(** A bundle is accepted only when the datagram carries it whole: the count, then each
    sub-packet behind its length. *)
Theorem unwrap_sound p subs :
  is_bytes (payload p) -> unwrap_coalesced_packet p = Ok (Some subs) ->
  ∃ rest, payload p = bundle subs ++ rest.
Proof.
  intros Hb. unfold unwrap_coalesced_packet, dec_new. destruct (negb _); [done|].
  destruct (Nat.ltb_spec (length (payload p)) 2) as [|Hl]; [done|]. unfold BUNDLE_HEADER_SIZE.
  rewrite (proj2 (Nat.ltb_ge _ _) Hl). set (d := mk_dec _ _ _). set (n := be_decode (slice 0 2 (payload p))).
  destruct (Z.eqb_spec (len (dec_collect (Z.to_nat n) d)) n) as [E|]; [|done]. intros [= <-].
  destruct (dec_collect_sound (Z.to_nat n) d Hl Hb) as [rest Hrest]. exists rest.
  unfold bundle. rewrite E, <- app_assoc, <- Hrest. unfold n.
  rewrite (be_encode_decode_len 2); [|rewrite slice_length by lia; lia|auto with phantom].
  cbn [dec_offset dec_data d]. unfold slice. by rewrite drop_0, take_drop.
Qed.

Lemma unwrap_sound_witness :
  ∃ rest, [0; 1; 0; 2; 7; 8; 9] = bundle [[7; 8]] ++ rest.
Proof.
  apply (unwrap_sound (wrap_coalesced_packet (replicate 32 0) 1 0 0 [0; 1; 0; 2; 7; 8; 9])).
  - repeat constructor; done.
  - by vm_compute.
Defined.

(** [data.len() as u16] truncates: a packet of 65,537 bytes decodes as its first byte. *)
Theorem oversized_push_truncates :
  let '(_, c) := push (coal_new cconf_default) 0 (replicate (Z.to_nat 65537) 7) in
  option_map (λ b, unwrap_coalesced_packet (wrap_coalesced_packet (replicate 32 0) 1 0 0 b)) (flush c).1
  = Some (Ok (Some [[7]])).
Proof. by vm_compute. Qed.
