(* ===== verification/Mux.v ===== *)
(** * Stream ids and routes ([core/src/transport/multiplexer.rs] and the stream
      bookkeeping of [core/src/api/session.rs])

    The demultiplexer that allocates this side's ids and routes payloads to the
    application's channels, the record of the ids the peer has used, the open-stream
    counts both caps are enforced on, and the rule that tells a new stream from a
    late frame of a dropped one. *)

From Stdlib Require Import ZArith Lia.
From stdpp Require Import base numbers option gmap list sets.
From S2P Require Import Prelude Errors Replay Session.

Local Open Scope Z_scope.
Local Open Scope phantom_scope.

Definition LAST_STREAM_ID : Z := u_max 16.
Definition MAX_STREAMS : Z := 256.
Definition STREAM_RECV_CHANNEL_DEPTH : nat := 1024.

(** ** The demultiplexer *)

Inductive StreamMessage := MsgData (payload : list Z) | MsgAck (seq : Z) | MsgClose.

(** The bounded channel behind a stream handle is the runtime's: [chan_new] makes one of
    a given depth, [try_send] fails when it is full or its receiver is gone, and
    [send_wait] is the awaiting send, [None] while it waits for room. *)
Class Mpsc := {
  chan : Type;
  chan_new : nat -> chan;
  try_send : chan -> StreamMessage -> bool * chan;
  send_wait : chan -> StreamMessage -> option (bool * chan);
}.

(** A queue with a depth, for concrete runs. *)
Definition list_chan : Mpsc := {|
  chan := list StreamMessage * nat;
  chan_new := λ n, ([], n);
  try_send := λ c m, if (length c.1 <? c.2)%nat then (true, (c.1 ++ [m], c.2)) else (false, c);
  send_wait := λ c m, if (length c.1 <? c.2)%nat then Some (true, (c.1 ++ [m], c.2)) else None;
|}.

Section Mux.
Context {ch : Mpsc}.

Record StreamDemultiplexer := mk_demux {
  routes : gmap Z chan;
  control : chan;
  first_stream_id : Z;
  next_stream_id : Z;
  id_step : Z;
}.

Definition new_with_role (control_buffer : nat) (is_client : bool) : StreamDemultiplexer :=
  let first := if is_client then 3 else 2 in
  mk_demux ∅ (chan_new control_buffer) first first 2.

Definition set_routes (d : StreamDemultiplexer) (m : gmap Z chan) : StreamDemultiplexer :=
  mk_demux m (control d) (first_stream_id d) (next_stream_id d) (id_step d).
Definition set_control (d : StreamDemultiplexer) (r : chan) : StreamDemultiplexer :=
  mk_demux (routes d) r (first_stream_id d) (next_stream_id d) (id_step d).

Definition open_stream (d : StreamDemultiplexer) (buffer_size : nat)
  : result Z CoreError * StreamDemultiplexer :=
  let next := next_stream_id d in
  if next <=? LAST_STREAM_ID then
    (Ok next, mk_demux (<[next := chan_new buffer_size]> (routes d)) (control d)
                (first_stream_id d) (next + id_step d) (id_step d))
  else (Err StreamError, d).

Definition register_stream (d : StreamDemultiplexer) (id : Z) (buffer_size : nat) : StreamDemultiplexer :=
  set_routes d (<[id := chan_new buffer_size]> (routes d)).

Definition is_local_stream_id (d : StreamDemultiplexer) (id : Z) : bool :=
  (1 <? id) && (id mod 2 =? first_stream_id d mod 2).

Definition has_opened (d : StreamDemultiplexer) (id : Z) : bool :=
  is_local_stream_id d id && (first_stream_id d <=? id) && (id <? next_stream_id d).

Definition close_stream (d : StreamDemultiplexer) (id : Z) : StreamDemultiplexer :=
  set_routes d (delete id (routes d)).
Definition close_all_streams (d : StreamDemultiplexer) : StreamDemultiplexer := set_routes d ∅.

(** [route_data] and the other non-blocking routes. *)
Definition route_message (d : StreamDemultiplexer) (id : Z) (m : StreamMessage) : bool * StreamDemultiplexer :=
  match routes d !! id with
  | Some r => let '(ok, r1) := try_send r m in (ok, set_routes d (<[id := r1]> (routes d)))
  | None => (false, d)
  end.
Definition route_data (d : StreamDemultiplexer) (id : Z) (payload : list Z) : bool * StreamDemultiplexer :=
  if id =? 0 then let '(ok, r) := try_send (control d) (MsgData payload) in (ok, set_control d r)
  else route_message d id (MsgData payload).
Definition route_ack (d : StreamDemultiplexer) (id seq : Z) : bool * StreamDemultiplexer :=
  if id =? 0 then (false, d) else route_message d id (MsgAck seq).
Definition route_close (d : StreamDemultiplexer) (id : Z) : bool * StreamDemultiplexer :=
  if id =? 0 then (false, d) else route_message d id MsgClose.

(** The awaiting routes; [None] while the channel is full. *)
Definition route_message_async (d : StreamDemultiplexer) (id : Z) (m : StreamMessage)
  : option (bool * StreamDemultiplexer) :=
  match routes d !! id with
  | Some r => '(ok, r1) ← send_wait r m; Some (ok, set_routes d (<[id := r1]> (routes d)))
  | None => Some (false, d)
  end.
Definition route_data_async (d : StreamDemultiplexer) (id : Z) (payload : list Z)
  : option (bool * StreamDemultiplexer) :=
  if id =? 0 then '(ok, r) ← send_wait (control d) (MsgData payload); Some (ok, set_control d r)
  else route_message_async d id (MsgData payload).
Definition route_ack_async (d : StreamDemultiplexer) (id seq : Z) : option (bool * StreamDemultiplexer) :=
  if id =? 0 then Some (false, d) else route_message_async d id (MsgAck seq).
Definition route_close_async (d : StreamDemultiplexer) (id : Z) : option (bool * StreamDemultiplexer) :=
  if id =? 0 then Some (false, d) else route_message_async d id MsgClose.

Definition active_stream_count (d : StreamDemultiplexer) : nat := size (routes d).
Definition has_stream (d : StreamDemultiplexer) (id : Z) : bool := bool_decide (is_Some (routes d !! id)).

End Mux.

(** ** The ids the peer has used *)

Definition PEER_STREAM_ID_WORDS : nat := 512.

Record PeerStreamIds := mk_peer_ids { seen : option (list Z) }.
Definition peer_ids_new : PeerStreamIds := mk_peer_ids None.

Definition slot (id : Z) : option (nat * Z) :=
  let index := Z.shiftr id 1 in
  if index / 64 <? Z.of_nat PEER_STREAM_ID_WORDS
  then Some (Z.to_nat (index / 64), Z.shiftl 1 (index mod 64)) else None.

Definition has_seen (p : PeerStreamIds) (id : Z) : bool :=
  match seen p, slot id with
  | Some words, Some (word, bit) =>
    match words !! word with Some w => negb (Z.land w bit =? 0) | None => false end
  | _, _ => false
  end.

Definition mark_seen (p : PeerStreamIds) (id : Z) : PeerStreamIds :=
  match slot id with
  | Some (word, bit) =>
    let words := default (replicate PEER_STREAM_ID_WORDS 0) (seen p) in
    mk_peer_ids (Some (match words !! word with
                       | Some w => <[word := Z.lor w bit]> words
                       | None => words
                       end))
  | None => p
  end.

(** ** Open-stream counts *)

Record StreamGauge := mk_gauge { local_open : Z; peer_open_raw : Z; local_parity : Z }.

Definition gauge_new (is_client : bool) : StreamGauge := mk_gauge 0 0 (if is_client then 1 else 0).
Definition gauge_is_local (g : StreamGauge) (id : Z) : bool := id mod 2 =? local_parity g.

Definition opened (g : StreamGauge) (id : Z) : StreamGauge :=
  if id <=? RAW_APP_STREAM_ID then g
  else if gauge_is_local g id then mk_gauge (local_open g + 1) (peer_open_raw g) (local_parity g)
  else mk_gauge (local_open g) (peer_open_raw g + 1) (local_parity g).

(** [fetch_update]: decrement unless already zero. *)
Definition dec_pos (v : Z) : Z := if 0 <? v then v - 1 else v.

Definition closed (g : StreamGauge) (id : Z) : StreamGauge :=
  if id <=? RAW_APP_STREAM_ID then g
  else if gauge_is_local g id then mk_gauge (dec_pos (local_open g)) (peer_open_raw g) (local_parity g)
  else mk_gauge (local_open g) (dec_pos (peer_open_raw g)) (local_parity g).

Definition try_open_local (g : StreamGauge) : bool * StreamGauge :=
  if local_open g <? MAX_STREAMS then (true, mk_gauge (local_open g + 1) (peer_open_raw g) (local_parity g))
  else (false, g).
Definition undo_open_local (g : StreamGauge) : StreamGauge :=
  mk_gauge (dec_pos (local_open g)) (peer_open_raw g) (local_parity g).
Definition peer_open (g : StreamGauge) : Z := Z.max (peer_open_raw g) 0.

(** With the number of streams retired from the gauge. *)
Definition gauge_drain (g : StreamGauge) : Z * StreamGauge :=
  (local_open g + peer_open_raw g, mk_gauge 0 0 (local_parity g)).

(** ** New stream or late frame *)

Inductive UnheldStream := Opens | Retired | NotThePeers.

#[export] Instance UnheldStream_eq_dec : EqDecision UnheldStream.
Proof. solve_decision. Defined.

Definition classify_unheld_stream {ch : Mpsc} (id : Z) (d : StreamDemultiplexer) (p : PeerStreamIds) : UnheldStream :=
  if is_local_stream_id d id then if has_opened d id then Retired else NotThePeers
  else if has_seen p id then Retired
  else Opens.

(** ** The peer's ids are recorded exactly *)

(** A record that holds the ids [ids]; [r] is the parity they share. *)
Definition records (r : Z) (p : PeerStreamIds) (ids : list Z) : Prop :=
  match seen p with None => ids = [] | Some words => length words = PEER_STREAM_ID_WORDS end ∧
  ∀ id, in_u 16 id -> id mod 2 = r -> has_seen p id = bool_decide (id ∈ ids).

Lemma slot_some id : in_u 16 id -> slot id = Some (Z.to_nat (id / 2 / 64), Z.shiftl 1 (id / 2 mod 64)).
Proof.
  intros Hid. unfold slot. rewrite Z.shiftr_div_pow2 by lia. change (2 ^ 1) with 2.
  destruct (Z.ltb_spec (id / 2 / 64) (Z.of_nat PEER_STREAM_ID_WORDS)) as [|Hge]; [done|].
  exfalso. revert Hge. unfold in_u, PEER_STREAM_ID_WORDS in *. Z.to_euclidean_division_equations. lia.
Qed.

Lemma word_in_range id : in_u 16 id -> (Z.to_nat (id / 2 / 64) < PEER_STREAM_ID_WORDS)%nat.
Proof. unfold in_u, PEER_STREAM_ID_WORDS. intros. Z.to_euclidean_division_equations. lia. Qed.

Lemma has_seen_words words id :
  in_u 16 id -> length words = PEER_STREAM_ID_WORDS ->
  has_seen (mk_peer_ids (Some words)) id = bit_at words (id / 2).
Proof.
  intros Hid Hl. unfold has_seen. cbn [seen]. rewrite slot_some by done.
  pose proof (word_in_range id Hid) as Hw. rewrite <- Hl in Hw.
  rewrite list_lookup_lookup_total_lt by done. rewrite land_mask_bit; [by rewrite negb_involutive|].
  unfold in_u in Hid. Z.to_euclidean_division_equations. lia.
Qed.

Lemma mark_seen_words p a :
  in_u 16 a -> match seen p with None => True | Some words => length words = PEER_STREAM_ID_WORDS end ->
  let words := default (replicate PEER_STREAM_ID_WORDS 0) (seen p) in
  mark_seen p a = mk_peer_ids (Some (<[Z.to_nat (a / 2 / 64) :=
     Z.lor (words !!! Z.to_nat (a / 2 / 64)) (Z.shiftl 1 (a / 2 mod 64))]> words)) ∧ length words = PEER_STREAM_ID_WORDS.
Proof.
  intros Ha Hp words. assert (Hl : length words = PEER_STREAM_ID_WORDS).
  { unfold words. destruct (seen p); [done | apply length_replicate]. }
  split; [|done]. unfold mark_seen. rewrite slot_some by done. fold words.
  rewrite list_lookup_lookup_total_lt; [done|]. rewrite Hl. by apply word_in_range.
Qed.

Lemma records_mark r p ids a :
  records r p ids -> in_u 16 a -> a mod 2 = r -> records r (mark_seen p a) (ids ++ [a]).
Proof.
  intros [Hw Hp] Ha Hr. destruct (mark_seen_words p a Ha) as [-> Hl]; [by destruct (seen p)|].
  split; [cbn [seen]; by rewrite length_insert|]. intros id Hid Hpar.
  rewrite has_seen_words by (done || by rewrite length_insert).
  assert (0 <= a / 2 ∧ 0 <= id / 2) as [Ha2 Hi2] by (unfold in_u in *; Z.to_euclidean_division_equations; lia).
  rewrite bit_at_set_gen by (done || (rewrite Hl; by apply word_in_range)).
  rewrite <- has_seen_words by done.
  assert (Hold : has_seen (mk_peer_ids (Some (default (replicate PEER_STREAM_ID_WORDS 0) (seen p)))) id = has_seen p id).
  { destruct p as [[words|]]; [done|]. cbn [seen default] in *.
    rewrite has_seen_words by (done || apply length_replicate). unfold bit_at.
    rewrite lookup_total_replicate_2 by (by apply word_in_range). apply Z.bits_0. }
  rewrite Hold, Hp by done. apply eq_true_iff_eq. rewrite orb_true_iff, !bool_decide_eq_true, Z.eqb_eq, elem_of_app, list_elem_of_singleton.
  split; [intros [E|]; [right; Z.to_euclidean_division_equations; lia | by left] | intros [? | ->]; [by right | by left]].
Qed.

(** The one bit per id is a faithful set: after any sequence of stream ids of the
    peer's parity, [has_seen] answers exactly which of them were among it. *)
Theorem peer_ids_exact r ids id :
  Forall (λ i, in_u 16 i ∧ i mod 2 = r) ids -> in_u 16 id -> id mod 2 = r ->
  has_seen (foldl mark_seen peer_ids_new ids) id = bool_decide (id ∈ ids).
Proof.
  intros Hids Hid Hr. enough (H : records r (foldl mark_seen peer_ids_new ids) ids) by by apply H.
  clear id Hid Hr. induction ids as [|a ids IH] using rev_ind.
  - split; [done|]. intros. unfold has_seen. by rewrite bool_decide_false by (apply not_elem_of_nil).
  - apply Forall_app in Hids as [Hids [[Ha Hr] _]%Forall_cons]. rewrite foldl_snoc. by apply records_mark; auto.
Qed.

Lemma peer_ids_exact_witness :
  has_seen (foldl mark_seen peer_ids_new [3; 65535; 7]) 65535 = bool_decide (65535 ∈ [3; 65535; 7]).
Proof. apply (peer_ids_exact 1); [repeat constructor; done | done | done]. Defined.

(** ** Stream ids are handed out once *)

Section Allocator.
Context {ch : Mpsc}.

Inductive demux_op :=
| DOpen (depth : nat)
| DRegister (id : Z) (depth : nat)
| DClose (id : Z)
| DCloseAll
| DRoute (id : Z) (m : StreamMessage).

Definition demux_step (d : StreamDemultiplexer) (o : demux_op) : list Z * StreamDemultiplexer :=
  match o with
  | DOpen n => match open_stream d n with (Ok id, d1) => ([id], d1) | (Err _, d1) => ([], d1) end
  | DRegister id n => ([], register_stream d id n)
  | DClose id => ([], close_stream d id)
  | DCloseAll => ([], close_all_streams d)
  | DRoute id m => ([], (route_message d id m).2)
  end.

(** The ids a sequence of operations hands out, and the demultiplexer it leaves. *)
Fixpoint demux_run (d : StreamDemultiplexer) (os : list demux_op) : list Z * StreamDemultiplexer :=
  match os with
  | [] => ([], d)
  | o :: os' => let '(i, d1) := demux_step d o in let '(js, d2) := demux_run d1 os' in (i ++ js, d2)
  end.

(** What the allocator promises of the ids handed out so far. *)
Record allocated (first : Z) (d : StreamDemultiplexer) (ids : list Z) : Prop := {
  al_first : first_stream_id d = first;
  al_low : 2 <= first;
  al_step : id_step d = 2;
  al_next : first <= next_stream_id d <= LAST_STREAM_ID + 2;
  al_parity : next_stream_id d mod 2 = first mod 2;
  al_ids : ∀ id, id ∈ ids <-> first <= id < next_stream_id d ∧ id mod 2 = first mod 2;
  al_nodup : NoDup ids;
  al_max : Forall (λ id, id <= LAST_STREAM_ID) ids;
}.

Lemma demux_step_allocated first d ids o :
  allocated first d ids -> allocated first (demux_step d o).2 (ids ++ (demux_step d o).1).
Proof.
  intros [Hf Hl Hs Hn Hp Hi Hd Hm]. destruct o; cbn [demux_step]; try (rewrite app_nil_r; split; done).
  - unfold open_stream. destruct (Z.leb_spec (next_stream_id d) LAST_STREAM_ID); [|rewrite app_nil_r; split; done].
    cbn [fst snd]. split; cbn [first_stream_id next_stream_id id_step]; rewrite ?Hs; try done; [lia|..].
    + Z.to_euclidean_division_equations; lia.
    + intros id. rewrite elem_of_app, list_elem_of_singleton, Hi.
      split; [intros [|E]; [lia|subst; lia]|]. intros [Hr Hpar].
      destruct (decide (id < next_stream_id d)); [left; lia|right]. Z.to_euclidean_division_equations; lia.
    + apply NoDup_app. split_and!; [done| |by apply NoDup_singleton].
      intros x Hx%Hi ->%list_elem_of_singleton. lia.
    + apply Forall_app. split; [done|]. by apply Forall_singleton.
  - unfold route_message. destruct (routes d !! id) as [r|]; [destruct (try_send r m)|]; rewrite app_nil_r; split; done.
Qed.

Lemma demux_run_allocated first os : ∀ d ids,
  allocated first d ids -> allocated first (demux_run d os).2 (ids ++ (demux_run d os).1).
Proof.
  induction os as [|o os IH]; intros d ids Ha; [by rewrite app_nil_r|].
  cbn [demux_run]. pose proof (demux_step_allocated first d ids o Ha) as H1.
  destruct (demux_step d o) as [i d1]. specialize (IH d1 _ H1). destruct (demux_run d1 os) as [js d2].
  cbn [fst snd] in *. by rewrite app_assoc.
Qed.

End Allocator.

(** However streams are opened, accepted, routed and closed, this side never hands out
    an id twice, never one of the peer's parity, a reserved one, or one the 16-bit header
    cannot carry; and [has_opened] answers exactly the ids handed out. *)
Theorem stream_ids_handed_out_once {ch : Mpsc} (is_client : bool) (n : nat) (os : list demux_op) :
  let '(ids, d) := demux_run (new_with_role n is_client) os in
  NoDup ids ∧ (∀ id, has_opened d id = true <-> id ∈ ids) ∧
  Forall (λ id, 2 <= id <= LAST_STREAM_ID ∧ id mod 2 = (if is_client then 1 else 0)) ids.
Proof.
  set (first := if is_client then 3 else 2).
  assert (H0 : allocated first (new_with_role n is_client) []).
  { split; unfold first.
    - done.
    - destruct is_client; lia.
    - done.
    - change LAST_STREAM_ID with 65535. destruct is_client; cbn [new_with_role next_stream_id]; lia.
    - done.
    - intros id. split; [intros []%elem_of_nil | intros [? _]; destruct is_client; cbn in *; lia].
    - constructor.
    - constructor. }
  pose proof (demux_run_allocated first os _ _ H0) as Ha. destruct (demux_run _ os) as [ids d]. cbn [fst snd app] in Ha.
  destruct Ha as [Hf Hl Hs Hn Hp Hi Hd Hm]. split_and!; [done|..].
  - intros id. rewrite Hi. unfold has_opened, is_local_stream_id. rewrite Hf.
    rewrite !andb_true_iff, Z.leb_le, !Z.ltb_lt, Z.eqb_eq. split; [lia|]. intros [? ?]. lia.
  - apply Forall_forall. intros id Hin. pose proof (proj1 (Forall_forall _ _) Hm id Hin) as Hmax.
    apply Hi in Hin. cbv beta in Hmax.
    clear Hi Hm. unfold first in *. destruct is_client;
      [change (3 mod 2) with 1 in Hin | change (2 mod 2) with 0 in Hin]; lia.
Qed.
