(* ===== verification/Pump.v ===== *)
(** * The receive path of the data pump ([handle_packet] of [core/src/api/session.rs]
      and the functions it calls)

    One inbound packet: guard, open, migration bookkeeping, and the dispatch on the
    frame's flags, down to the stream table and the delivery queue.  The state is what
    the reader task owns or shares; what it asks of other parts of the program (bytes to
    send, samples for the bandwidth estimator, a stream offered to the application) is
    appended to a log of effects in order.  What the transport answers, the random
    challenge and the clock are arguments. *)

From Stdlib Require Import ZArith Lia.
From stdpp Require Import base numbers option gmap list sets.
From S2P Require Import Bbr.
From S2P Require Import Prelude Errors Replay Wire Sack Rto StreamSend StreamRecv Arq Stream Path.
From S2P Require Import Crypto Shaping Cid Datagram Session Coalesce Mux.

Local Open Scope Z_scope.
Local Open Scope phantom_scope.

Definition RECV_DELIVERY_HARD_CAP : Z := 4 * 1024 * 1024.
Definition DELIVERY_ITEM_OVERHEAD_BYTES : Z := 128.
Definition MAX_DELIVERY_CHARGE_PER_FRAME : Z :=
  let bundle := MAX_RECV_PAYLOAD - Z.of_nat BUNDLE_HEADER_SIZE in
  let per_sub := Z.of_nat SUB_HEADER_SIZE + 1 in
  bundle / per_sub * (1 + DELIVERY_ITEM_OVERHEAD_BYTES).
Definition MAX_RECV_RELIABLE_CHUNK : Z := MAX_RECV_PAYLOAD - RELIABLE_OFFSET_LEN.
Definition RELEASED_GRANT_STRIDE : Z := 16.
Definition WINDOW_UPDATE_PAYLOAD_LEN : nat := 8.

Inductive DeliverItem :=
| DeliverData (stream : Z) (bytes : list Z) (reliable : bool)
| DeliverClose (stream : Z)
| DeliverRetire (stream : Z).

Definition delivery_charge (payload_len : Z) : Z := payload_len + DELIVERY_ITEM_OVERHEAD_BYTES.

Inductive Effect :=
| SendBytes (bytes : list Z)
| SendToCandidate (bytes : list Z)
| ConfirmSource
| SetOutboundCid (c : list Z)
| SignalCidSlide (slide : CidSlide)
| FeedBbr (sample : DeliverySample)
| ResetCongestion
| NotifyOutbound
| OfferStream (id : Z).

(** What the transport and the random generator answer while one packet is handled. *)
Record TransportView := mk_view {
  has_migration_candidate : bool;
  promote_candidate : bool;
  fresh_challenge : list Z;
}.

Section Pump.
Context `{Primitives} {ch : Mpsc}.

Record RecvState := mk_rs {
  rs_session : Session;
  rs_streams : gmap Z Stream;
  rs_demux : StreamDemultiplexer;
  rs_gauge : StreamGauge;
  rs_peer_ids : PeerStreamIds;
  rs_challenges : gmap Z Z;
  rs_last_peer_path : Z;
  rs_queue : list DeliverItem;
  rs_undelivered : Z;
  rs_log : list Effect;
}.

Definition set_rs_session (r : RecvState) (v : Session) : RecvState :=
  mk_rs v (rs_streams r) (rs_demux r) (rs_gauge r) (rs_peer_ids r) (rs_challenges r)
    (rs_last_peer_path r) (rs_queue r) (rs_undelivered r) (rs_log r).
Definition set_rs_streams (r : RecvState) (v : gmap Z Stream) : RecvState :=
  mk_rs (rs_session r) v (rs_demux r) (rs_gauge r) (rs_peer_ids r) (rs_challenges r)
    (rs_last_peer_path r) (rs_queue r) (rs_undelivered r) (rs_log r).
Definition set_rs_demux (r : RecvState) (v : StreamDemultiplexer) : RecvState :=
  mk_rs (rs_session r) (rs_streams r) v (rs_gauge r) (rs_peer_ids r) (rs_challenges r)
    (rs_last_peer_path r) (rs_queue r) (rs_undelivered r) (rs_log r).
Definition set_rs_gauge (r : RecvState) (v : StreamGauge) : RecvState :=
  mk_rs (rs_session r) (rs_streams r) (rs_demux r) v (rs_peer_ids r) (rs_challenges r)
    (rs_last_peer_path r) (rs_queue r) (rs_undelivered r) (rs_log r).
Definition set_rs_peer_ids (r : RecvState) (v : PeerStreamIds) : RecvState :=
  mk_rs (rs_session r) (rs_streams r) (rs_demux r) (rs_gauge r) v (rs_challenges r)
    (rs_last_peer_path r) (rs_queue r) (rs_undelivered r) (rs_log r).
Definition set_rs_challenges (r : RecvState) (v : gmap Z Z) : RecvState :=
  mk_rs (rs_session r) (rs_streams r) (rs_demux r) (rs_gauge r) (rs_peer_ids r) v
    (rs_last_peer_path r) (rs_queue r) (rs_undelivered r) (rs_log r).
Definition set_rs_last_peer_path (r : RecvState) (v : Z) : RecvState :=
  mk_rs (rs_session r) (rs_streams r) (rs_demux r) (rs_gauge r) (rs_peer_ids r) (rs_challenges r) v
    (rs_queue r) (rs_undelivered r) (rs_log r).
Definition add_effect (r : RecvState) (e : Effect) : RecvState :=
  mk_rs (rs_session r) (rs_streams r) (rs_demux r) (rs_gauge r) (rs_peer_ids r) (rs_challenges r)
    (rs_last_peer_path r) (rs_queue r) (rs_undelivered r) (rs_log r ++ [e]).

(** Queue an item for the delivery task and charge it to the backlog. *)
Definition enqueue (r : RecvState) (item : DeliverItem) (charge : Z) : RecvState :=
  mk_rs (rs_session r) (rs_streams r) (rs_demux r) (rs_gauge r) (rs_peer_ids r) (rs_challenges r)
    (rs_last_peer_path r) (rs_queue r ++ [item]) (wrap 64 (rs_undelivered r + charge)) (rs_log r).

(** Frames handed to the transport. *)
Definition emit (r : RecvState) (frame : option (list Z) * Session) : RecvState :=
  let r1 := set_rs_session r frame.2 in
  match frame.1 with Some buf => add_effect r1 (SendBytes buf) | None => r1 end.

(** ** The functions [handle_packet] calls *)

Definition deliver_in_order_run (run : list (list Z)) (stream : Z) (r : RecvState) : RecvState :=
  foldl (λ r chunk, match chunk with
                    | [] => r
                    | _ => enqueue r (DeliverData stream chunk true) (delivery_charge (len chunk))
                    end) r run.

Definition retire_stream (stream : Z) (r : RecvState) : RecvState :=
  if stream <=? RAW_APP_STREAM_ID then r
  else match rs_streams r !! stream with
  | None => r
  | Some _ =>
    let r1 := set_rs_streams r (delete stream (rs_streams r)) in
    let r2 := set_rs_gauge r1 (Mux.closed (rs_gauge r1) stream) in
    mk_rs (rs_session r2) (rs_streams r2) (rs_demux r2) (rs_gauge r2) (rs_peer_ids r2) (rs_challenges r2)
      (rs_last_peer_path r2) (rs_queue r2 ++ [DeliverRetire stream]) (rs_undelivered r2) (rs_log r2)
  end.

Definition put_stream (stream : Z) (s : Stream) (r : RecvState) : RecvState :=
  set_rs_streams r (<[stream := s]> (rs_streams r)).

(** The stream's end as signalled outside its reliable sequence. *)
Definition take_unordered_remote_fin (stream : Z) (s : Stream) (r : RecvState) : RecvState :=
  if RAW_APP_STREAM_ID <? stream then
    let '(ended, rcv) := note_unordered_remote_fin (receiving s) in
    let r1 := put_stream stream (with_halves s (sending s) rcv) r in
    if ended then enqueue r1 (DeliverClose stream) (delivery_charge 0) else r1
  else r.

Definition retire_if_done (stream : Z) (r : RecvState) : RecvState :=
  match rs_streams r !! stream with
  | Some s => if is_retirable s then retire_stream stream r else r
  | None => r
  end.

Definition released_stream_grant (offset : Z) (is_persist_probe fin : bool) : option Z :=
  if fin || (negb is_persist_probe && negb (offset mod RELEASED_GRANT_STRIDE =? 0)) then None
  else Some (sat_add 64 (sat_mul 64 (offset + 1) MAX_RECV_RELIABLE_CHUNK) MAX_RECV_WINDOW).

Definition with_flags (h : PacketHeader) (f : Z) : PacketHeader :=
  mk_header (version h) (session_id h) (Wire.stream_id h) (packet_number h) f (epoch h) (path_id h).

Definition encrypt_path_validation (s : Session) (path : Z) (payload : list Z) : option (list Z) * Session :=
  let '(pn, s1) := next_send_pn s in
  let p := build_path_validation_packet (sess_id s1) path pn payload in
  let h := with_flags (with_epoch (header p) (sess_epoch s1)) (Z.lor (flags (header p)) ENCRYPTED) in
  match encrypt_packet s1 h payload [] with
  | (Err _, s2) => (None, s2)
  | (Ok ct, s2) =>
    match protect_packet s2 (packet_new h ct) with
    | Err _ => (None, s2)
    | Ok buf => (Some buf, s2)
    end
  end.

Definition path_state (r : RecvState) (path : Z) : option PathStateKind :=
  Path.state (path_registry (rs_session r)) path.

(** ** The branches of [handle_packet] *)

(** An authenticated packet: refresh the activity timer, let the transport commit the
    source, follow a migration of the peer. *)
Definition on_authenticated (r : RecvState) (now path : Z) : RecvState :=
  let r1 := add_effect (set_rs_session r (update_activity (rs_session r) now)) ConfirmSource in
  let s := rs_session r1 in
  match note_migration_path (cid s) path with
  | (None, c) => set_rs_session r1 (set_cid s c)
  | (Some slide, c) =>
    let r2 := set_rs_last_peer_path (add_effect r1 (SignalCidSlide slide)) path in
    let c1 := if is_server s then c else (next_migration_path_id c).2 in
    let '(new_cid, c2) := advance_outbound_cid c1 in
    add_effect (set_rs_session r2 (set_cid s c2)) (SetOutboundCid new_cid)
  end.

Definition handle_keepalive (r : RecvState) (fl : Z) : RecvState :=
  if flags_contains fl ACK then r else emit r (send_keepalive (rs_session r) true).

Definition handle_control (r : RecvState) (plaintext : list Z) : RecvState :=
  match plaintext with
  | [] => r
  | b :: _ => if b =? CONTROL_CLOSE then set_rs_session r (note_peer_closed (rs_session r)) else r
  end.

(** [feed_bbr_on_ack] for one retired segment. *)
Definition bbr_sample (now ack_delay_us : Z) (seg : RetiredSegment) : option DeliverySample :=
  sent_at ← rs_sent_at seg;
  Some (mk_sample (rs_delivered_at_send seg) (default sent_at (rs_delivered_time_at_send seg)) sent_at now
          (rs_size seg) (rs_app_limited_at_send seg) ack_delay_us (negb (rs_was_retransmit seg))).

Definition handle_ack (r : RecvState) (now stream fl : Z) (plaintext : list Z) : RecvState :=
  match Sack.from_wire plaintext with
  | Err _ => r
  | Ok sack =>
    match rs_streams r !! stream with
    | None => r
    | Some s =>
      let '(res, snd) := on_sack (sending s) now sack in
      let r1 := put_stream stream (with_halves s snd (receiving s)) r in
      let r2 := foldl (λ r smp, add_effect r (FeedBbr smp)) r1 (omap (bbr_sample now (ack_delay_us sack)) (retired res)) in
      let r3 := match lost res, retired res with [], [] => r2 | _, _ => add_effect r2 NotifyOutbound end in
      let r4 := if flags_contains fl FIN then take_unordered_remote_fin stream (with_halves s snd (receiving s)) r3 else r3 in
      retire_if_done stream r4
    end
  end.

Definition handle_window_update (r : RecvState) (stream : Z) (plaintext : list Z) : RecvState :=
  if negb (length plaintext =? WINDOW_UPDATE_PAYLOAD_LEN)%nat then r
  else
    let limit := be_decode plaintext in
    match rs_streams r !! stream with
    | None => r
    | Some s => add_effect (put_stream stream (with_halves s (apply_peer_window_limit (sending s) limit) (receiving s)) r) NotifyOutbound
    end.

(** [reset_rto] on every stream of the table. *)
Definition reset_all_rto (m : gmap Z Stream) : gmap Z Stream :=
  (λ s, with_halves s (reset_rto (sending s)) (receiving s)) <$> m.

Definition handle_path_validation (r : RecvState) (view : TransportView) (path : Z) (plaintext : list Z) : RecvState :=
  if negb (length plaintext =? PATH_CHALLENGE_LEN)%nat then r
  else match path_state r path with
  | Some Validating =>
    let '(validated, s) := complete_path_validation (rs_session r) path plaintext in
    let r1 := set_rs_challenges (set_rs_session r s) (delete path (rs_challenges r)) in
    if validated && promote_candidate view then
      let r2 := set_rs_streams (add_effect r1 ResetCongestion) (reset_all_rto (rs_streams r1)) in
      if path =? REBIND_VALIDATION_PATH_ID
      then set_rs_session r2 (set_path_registry (rs_session r2) (retire (path_registry (rs_session r2)) path))
      else r2
    else r1
  | Some Validated | Some Failed => r
  | _ => emit r (encrypt_path_validation (rs_session r) path plaintext)
  end.

(** Challenge the transport's migration candidate on [path]. *)
Definition challenge_candidate (r : RecvState) (now : Z) (view : TransportView) (path : Z) : RecvState :=
  match begin_path_validation (rs_session r) path (fresh_challenge view) with
  | (None, s) => set_rs_session r s
  | (Some challenge, s) =>
    let r1 := set_rs_challenges (set_rs_session r s) (<[path := now]> (rs_challenges r)) in
    match encrypt_path_validation s path challenge with
    | (Some buf, s2) => add_effect (set_rs_session r1 s2) (SendToCandidate buf)
    | (None, s2) => set_rs_session r1 s2
    end
  end.

(** The PATH-001 split: data is delivered whatever its path; an unvalidated path or a
    new source is challenged. *)
Definition handle_path_arrival (r : RecvState) (now : Z) (view : TransportView) (path : Z) : RecvState :=
  if bool_decide (path_state r path = Some Validated) then
    if has_migration_candidate view then challenge_candidate r now view REBIND_VALIDATION_PATH_ID else r
  else if has_migration_candidate view then challenge_candidate r now view path
  else set_rs_session r (register_unvalidated_path (rs_session r) path).

Definition handle_coalesced (r : RecvState) (h : PacketHeader) (plaintext : list Z) : RecvState :=
  match unwrap_coalesced_packet (mk_packet h plaintext []) with
  | Ok (Some subs) => deliver_in_order_run (filter (λ s, s ≠ []) subs) (Wire.stream_id h) r
  | Ok None | Err _ => r
  end.

(** A reliable segment for a stream the table no longer holds: acknowledge everything up
    to it, and grant room now and then so the peer's writes complete. *)
Definition answer_retired (r : RecvState) (stream path offset : Z) (is_persist_probe fin : bool) : RecvState :=
  let r1 := match from_inclusive_ranges [(0, offset)] 0 with
            | Some sack => emit r (send_stream_sack (rs_session r) stream path (Sack.to_wire sack))
            | None => r
            end in
  match released_stream_grant offset is_persist_probe fin with
  | Some limit => emit r1 (send_window_update (rs_session r1) stream limit)
  | None => r1
  end.

(** The first segment of a new stream of the peer. *)
Definition admit_stream (r : RecvState) (stream : Z) : RecvState :=
  let r1 := put_stream stream (stream_new stream) r in
  if RAW_APP_STREAM_ID <? stream then
    let r2 := set_rs_peer_ids r1 (Mux.mark_seen (rs_peer_ids r1) stream) in
    let r3 := set_rs_gauge r2 (Mux.opened (rs_gauge r2) stream) in
    let r4 := set_rs_demux r3 (register_stream (rs_demux r3) stream STREAM_RECV_CHANNEL_DEPTH) in
    add_effect r4 (OfferStream stream)
  else r1.

(** Whether [send_stream_sack] answers [true]: only a saturated epoch makes it [false]. *)
Definition can_stamp (s : Session) : bool := match (rekey_before_stamp s).1 with Some _ => true | None => false end.

(** The part of the RELIABLE branch that runs once the stream is in the table. *)
Definition accept_segment (r : RecvState) (now stream path offset : Z) (data : list Z) (is_persist_probe fin : bool)
    (s : Stream) : RecvState :=
  let '(delivered, rcv1) := accept_in_order (receiving s) now offset [data] in
  let put rcv r := put_stream stream (with_halves s (sending s) rcv) r in
  let r1 := put rcv1 r in
  match received_sack rcv1 now 0 with
  | None => r1
  | Some sack =>
    let r2 := emit r1 (send_stream_sack (rs_session r1) stream path (Sack.to_wire sack)) in
    if negb (can_stamp (rs_session r1)) then r2
    else
      let r3 := deliver_in_order_run delivered stream r2 in
      let '(rcv2, r4) := if is_persist_probe
                         then (stage_window_update_limit rcv1 (recv_limit rcv1), add_effect r3 NotifyOutbound)
                         else (rcv1, r3) in
      let rcv3 := if fin then note_remote_fin rcv2 offset else rcv2 in
      let '(eof, rcv4) := take_in_order_fin rcv3 in
      let r5 := put rcv4 r4 in
      if eof then retire_if_done stream (enqueue r5 (DeliverClose stream) (delivery_charge 0)) else r5
  end.

Definition handle_reliable (r : RecvState) (now stream path fl : Z) (plaintext : list Z) : RecvState :=
  if (length plaintext <? 4)%nat then r
  else
    let offset := be_decode (take 4 plaintext) in
    let data := drop 4 plaintext in
    let fin := flags_contains fl FIN in
    let is_persist_probe := match data with [] => negb fin | _ => false end in
    match rs_streams r !! stream with
    | Some s => accept_segment r now stream path offset data is_persist_probe fin s
    | None =>
      match classify_unheld_stream stream (rs_demux r) (rs_peer_ids r) with
      | Retired => answer_retired r stream path offset is_persist_probe fin
      | NotThePeers => r
      | Opens =>
        if MAX_STREAMS <=? peer_open (rs_gauge r) then r
        else accept_segment (admit_stream r stream) now stream path offset data is_persist_probe fin (stream_new stream)
      end
    end.

(** Unreliable data is delivered in arrival order; a FIN here ends the peer's half. *)
Definition handle_unreliable (r : RecvState) (stream fl : Z) (plaintext : list Z) : RecvState :=
  let r1 := match plaintext with
            | [] => r
            | _ => enqueue r (DeliverData stream plaintext false) (delivery_charge (len plaintext))
            end in
  if flags_contains fl FIN then
    match rs_streams r1 !! stream with
    | Some s => retire_if_done stream (take_unordered_remote_fin stream s r1)
    | None => r1
    end
  else r1.

(** The dispatch after the open. *)
Definition dispatch (r : RecvState) (now : Z) (view : TransportView) (h : PacketHeader) (plaintext : list Z) : RecvState :=
  let fl := flags h in
  let stream := Wire.stream_id h in
  let path := path_id h in
  if flags_contains fl KEEPALIVE then handle_keepalive r fl
  else if flags_contains fl CONTROL then handle_control r plaintext
  else if flags_contains fl COVER then r
  else if flags_contains fl ACK then handle_ack r now stream fl plaintext
  else if flags_contains fl WINDOW_UPDATE then handle_window_update r stream plaintext
  else if flags_contains fl PATH_VALIDATION then handle_path_validation r view path plaintext
  else
    let r1 := handle_path_arrival r now view path in
    if flags_contains fl COALESCED then handle_coalesced r1 h plaintext
    else if flags_contains fl RELIABLE then handle_reliable r1 now stream path fl plaintext
    else handle_unreliable r1 stream fl plaintext.

Definition handle_packet (r : RecvState) (now : Z) (view : TransportView) (p : PhantomPacket) : RecvState :=
  match open_frame (rs_session r) now p with
  | (None, s) => set_rs_session r s
  | (Some plaintext, s) =>
    dispatch (on_authenticated (set_rs_session r s) now (path_id (header p))) now view (header p) plaintext
  end.

(** The reader's loop body: the size gate, header protection, the version gate. *)
Definition receive_bytes (r : RecvState) (now : Z) (view : TransportView) (bytes : list Z) : RecvState :=
  if MAX_RECV_FRAME <? len bytes then r
  else match parse_protected (rs_session r) bytes with
  | Err _ => r
  | Ok p => if negb (version (header p) =? WIRE_VERSION) then r else handle_packet r now view p
  end.

End Pump.

(** ** Only fresh authentic packets have an effect *)

Section Pump_laws.
Context `{PrimitiveLaws} {ch : Mpsc}.

(** What opening a packet leaves alone whatever its outcome. *)
Definition untouched (s s' : Session) : Prop :=
  cid s' = cid s ∧ last_activity s' = last_activity s ∧ path_registry s' = path_registry s ∧
  peer_closed s' = peer_closed s ∧ send_packet_number s' = send_packet_number s ∧
  keepalive_outstanding s' = keepalive_outstanding s.

Lemma check_replay_untouched s pn : untouched s (check_replay s pn).2.
Proof. unfold check_replay. destruct (accept 64 (recv_replay s) pn) as [[] w]; by split_and!. Qed.

Lemma untouched_trans s1 s2 s3 : untouched s1 s2 -> untouched s2 s3 -> untouched s1 s3.
Proof. intros (?&?&?&?&?&?) (?&?&?&?&?&?). split_and!; congruence. Qed.

Lemma decrypt_current_untouched s h ct ext : untouched s (decrypt_current s h ct ext).2.
Proof.
  unfold decrypt_current, decrypt_packet. destruct (decrypt_with_nonce _ _ _ _) as [[pt|e] x]; [|by split_and!].
  pose proof (check_replay_untouched (set_crypto s (set_cs_session (crypto s) x)) (packet_number h)) as Hc.
  destruct (check_replay _ _) as [[] s2]; apply (untouched_trans _ (set_crypto s (set_cs_session (crypto s) x)));
    try (by split_and!); apply Hc.
Qed.

Lemma decrypt_untouched s h ct ext : untouched s (decrypt_packet_accepting_rekey s h ct ext).2.
Proof.
  unfold decrypt_packet_accepting_rekey. destruct (epoch h =? sess_epoch s); [apply decrypt_current_untouched|].
  destruct (epoch h <? sess_epoch s); [by split_and!|]. destruct (negb _); [by split_and!|].
  unfold decrypt_forward. destruct (epoch h =? sess_epoch s); [apply decrypt_current_untouched|].
  destruct (epoch h <? sess_epoch s); [by split_and!|]. destruct (MAX_REKEY_CATCHUP <? _); [by split_and!|].
  destruct (derive_forward_crypto _ _) as [[fs fc]|]; [|by split_and!].
  destruct (decrypt_with_nonce _ _ _ _) as [[pt|e] x]; [|by split_and!].
  set (s1 := commit_forward_crypto _ _ _ _). assert (H1 : untouched s s1) by (by split_and!).
  pose proof (check_replay_untouched s1 (packet_number h)) as Hc. destruct (check_replay _ _) as [[] s2];
    apply (untouched_trans _ s1); try done; by apply Hc.
Qed.

(** A packet sealed by the peer for this session, under an epoch the receive path
    follows, whose number the replay window has not accepted. *)
Definition fresh_authentic (init : list Z) (s : Session) (p : PhantomPacket) : Prop :=
  session_id (header p) = sess_id s ∧ flags_contains (flags (header p)) ENCRYPTED = true ∧
  epoch_admitted s (header p) ∧ (∃ pt, authentic init s (header p) (payload p) (extensions p) pt) ∧
  (Replay.accept 64 (recv_replay s) (packet_number (header p))).1 = true.

Lemma mark_seen_states reg path now q : Path.state (Path.mark_seen reg path now) q = Path.state reg q.
Proof.
  unfold Path.state, Path.mark_seen. destruct (reg !! path) as [x|] eqn:E; [|done].
  destruct (decide (q = path)) as [->|]; [by rewrite lookup_insert_eq, E | by rewrite lookup_insert_ne].
Qed.

Lemma open_frame_refuses init s now p :
  wf_session init s -> is_byte (epoch (header p)) -> ¬ fresh_authentic init s p ->
  ∃ s', open_frame s now p = (None, s') ∧ untouched (set_path_registry s (path_registry s')) s' ∧
        ∀ q, Path.state (path_registry s') q = Path.state (path_registry s) q.
Proof.
  intros Hwf Hb Hnf. unfold open_frame. destruct (bool_decide_reflect (session_id (header p) = sess_id s)) as [Hid|];
    [|eexists; by split_and!]. cbn [negb].
  set (s1 := set_path_registry s _).
  assert (Hr : ∀ q, Path.state (path_registry s1) q = Path.state (path_registry s) q) by (intros; apply mark_seen_states).
  destruct (flags_contains (flags (header p)) ENCRYPTED) eqn:He; cbn [negb]; [|exists s1; by split_and!].
  assert (Hwf1 : wf_session init s1) by (destruct Hwf; by split).
  pose proof (decrypt_outcome init s1 (header p) (payload p) (extensions p) Hwf1 Hb) as Hout.
  pose proof (decrypt_untouched s1 (header p) (payload p) (extensions p)) as Hu.
  destruct (decrypt_packet_accepting_rekey _ _ _ _) as [[pt|e] s2].
  - exfalso. apply Hnf. destruct Hout as (Ha & Hauth & Hn & _). split_and!; try done. by exists pt.
  - exists s2. cbn [snd] in Hu. destruct Hu as (?&?&Ep&?&?&?). rewrite Ep. by split_and!.
Qed.

(** C11: A packet that is not fresh and authentic - forged, replayed, of a foreign session,
    with the ENCRYPTED flag stripped, or under an epoch not admitted - changes nothing
    outside the session and emits nothing; and of the session it touches neither the
    connection ids, the packet number, the activity timer, the close flag nor the state
    of any path. *)
Theorem only_fresh_packets_act init r now view p :
  wf_session init (rs_session r) -> is_byte (epoch (header p)) -> ¬ fresh_authentic init (rs_session r) p ->
  ∃ s', handle_packet r now view p = set_rs_session r s' ∧
        untouched (set_path_registry (rs_session r) (path_registry s')) s' ∧
        ∀ q, Path.state (path_registry s') q = Path.state (path_registry (rs_session r)) q.
Proof.
  intros Hwf Hb Hnf. destruct (open_frame_refuses init _ now p Hwf Hb Hnf) as (s' & E & Hs).
  exists s'. unfold handle_packet. rewrite E. by split.
Qed.

End Pump_laws.

(** ** The reliable branch is the one the end-to-end model uses *)

Section Reliable.
Context `{Primitives} {ch : Mpsc}.

Definition arq_item (stream : Z) (i : Arq.DeliverItem) : DeliverItem :=
  match i with Arq.Data d => DeliverData stream d true | Arq.Close => DeliverClose stream end.

Lemma deliver_queue run stream : ∀ r,
  rs_queue (deliver_in_order_run run stream r) = rs_queue r ++ (arq_item stream <$> Arq.deliver_in_order_run run) ∧
  rs_streams (deliver_in_order_run run stream r) = rs_streams r.
Proof.
  induction run as [|[|b d] run IH]; intros r; [by rewrite app_nil_r|apply IH|].
  destruct (IH (enqueue r (DeliverData stream (b :: d) true) (delivery_charge (len (b :: d))))) as [Q S].
  split; [|exact S]. etrans; [exact Q|]. cbn [enqueue rs_queue]. by rewrite <- app_assoc.
Qed.

Lemma emit_frame r f : rs_queue (emit r f) = rs_queue r ∧ rs_streams (emit r f) = rs_streams r.
Proof. unfold emit. by destruct f as [[]]. Qed.

(** For a stream in the table, [handle_packet] does what the end-to-end model of the
    stream ([Arq.handle_reliable]) says: the same items for the application in the same
    order, and the same receiving half, unless the stream is retired by it. *)
Theorem reliable_branch_is_arq (r : RecvState) (now stream path off : Z) (data : list Z) (fin : bool) (s : Stream) :
  in_u 32 off ->
  let probe := match data with [] => negb fin | _ => false end in
  let r' := accept_segment r now stream path off data probe fin s in
  let '(items, _, rcv) := Arq.handle_reliable (receiving s) now (can_stamp (rs_session r)) fin (reliable_plaintext off data) in
  (rs_streams r' !! stream = Some (with_halves s (sending s) rcv) ∧ rs_queue r' = rs_queue r ++ (arq_item stream <$> items)) ∨
  (rs_streams r' !! stream = None ∧ rs_queue r' = rs_queue r ++ (arq_item stream <$> items) ++ [DeliverRetire stream]).
Proof.
  intros Hoff probe r'. unfold Arq.handle_reliable, reliable_plaintext.
  rewrite length_app, be_encode_length. destruct (Nat.ltb_spec (4 + length data) 4); [lia|].
  change (take 4 (be_encode 4 off ++ data)) with (be_encode 4 off). change (drop 4 (be_encode 4 off ++ data)) with data.
  rewrite be_decode_encode by done. fold probe. unfold r', accept_segment.
  destruct (accept_in_order _ _ _ _) as [delivered rcv1]. cbv zeta.
  destruct (received_sack rcv1 now 0) as [sack|]; [|left; split; [apply lookup_insert_eq | by rewrite app_nil_r]].
  set (r1 := put_stream stream _ r). change (rs_session r1) with (rs_session r).
  set (r2 := emit r1 _). destruct (emit_frame r1 (send_stream_sack (rs_session r) stream path (to_wire sack))) as [Q2 S2].
  fold r2 in Q2, S2. clearbody r2.
  destruct (can_stamp (rs_session r)); cbn [negb]; [|left; rewrite Q2, S2; split; [apply lookup_insert_eq | by rewrite app_nil_r]].
  destruct (deliver_queue delivered stream r2) as [Q3 _]. set (r3 := deliver_in_order_run _ _ r2) in *. clearbody r3.
  set (rcv2 := if probe then stage_window_update_limit rcv1 (recv_limit rcv1) else rcv1).
  destruct (if probe then (_, _) else (_, _)) as [rcv2' r4] eqn:E4.
  assert (H4 : rcv2' = rcv2 ∧ rs_queue r4 = rs_queue r3) by (unfold rcv2; destruct probe; by injection E4 as <- <-).
  destruct H4 as [-> Q4]. destruct (take_in_order_fin _) as [[] rcv4]; cbn [app].
  - rewrite fmap_app. cbn [fmap list_fmap arq_item].
    set (r5 := enqueue _ _ _).
    assert (Q5 : rs_queue r5 = rs_queue r ++ (arq_item stream <$> Arq.deliver_in_order_run delivered) ++ [DeliverClose stream]).
    { cbn [r5 enqueue put_stream set_rs_streams rs_queue]. rewrite Q4, Q3, Q2. by rewrite <- !app_assoc. }
    assert (S5 : rs_streams r5 !! stream = Some (with_halves s (sending s) rcv4)) by apply lookup_insert_eq.
    clearbody r5. unfold retire_if_done, retire_stream. rewrite S5. destruct (is_retirable _); [|by left].
    destruct (stream <=? RAW_APP_STREAM_ID); [by left|]. right. cbn. rewrite lookup_delete_eq, Q5. by rewrite <- !app_assoc.
  - left. split; [apply lookup_insert_eq|]. cbn [put_stream set_rs_streams rs_queue]. by rewrite Q4, Q3, Q2, app_nil_r.
Qed.

End Reliable.

#[local] Existing Instance list_chan.

(** A stripped packet: the frame of [sample_frame] without its ENCRYPTED flag. *)
Definition toy_reader : RecvState :=
  mk_rs (toy_pair true true) ∅ (new_with_role 16 false) (gauge_new false) peer_ids_new ∅ 0 [] 0 [].

Lemma only_fresh_packets_act_witness :
  ∃ s', handle_packet (H := toy_primitives) toy_reader 5 (mk_view false false []) (packet_new (with_flags sample_frame RELIABLE) [1; 2])
        = set_rs_session toy_reader s'.
Proof.
  destruct (only_fresh_packets_act (H := toy_primitives) (replicate 32 9) toy_reader 5 (mk_view false false [])
    (packet_new (with_flags sample_frame RELIABLE) [1; 2])) as (s' & E & _).
  - exact (peer_wf_b _ _ _ toy_peers).
  - done.
  - by intros (_ & Hf & _).
  - by exists s'.
Defined.

(** What a receiver makes of a frame's bytes. *)
Definition toy_opens (b : Session) (frame : option (list Z) * Session) : option (list Z) :=
  w ← frame.1;
  match @parse_protected toy_primitives b w with
  | Ok p => (@open_frame toy_primitives b 5 p).1
  | Err _ => None
  end.

(** While a rekey is unconfirmed every other frame carries the REKEY flag; a path
    validation frame does not, and the peer, still one epoch behind, refuses it. *)
Theorem path_validation_lost_after_rekey :
  let a := (@rekey toy_primitives (toy_pair true false)).2 in
  let b := toy_pair true true in
  rekey_unconfirmed a = true ∧
  toy_opens b (@send_keepalive toy_primitives a false) = Some [] ∧
  is_Some (@encrypt_path_validation toy_primitives a 1 (replicate 32 5)).1 ∧
  toy_opens b (@encrypt_path_validation toy_primitives a 1 (replicate 32 5)) = None ∧
  toy_opens b (@encrypt_path_validation toy_primitives (toy_pair true false) 1 (replicate 32 5)) = Some (replicate 32 5).
Proof. split_and!; vm_compute; (done || by eexists). Qed.

Lemma reliable_branch_is_arq_witness :
  let r' := accept_segment (H := toy_primitives) toy_reader 1 3 0 0 [4; 5] false true (stream_new 3) in
  let '(items, _, rcv) := Arq.handle_reliable recv_new 1 (can_stamp (H := toy_primitives) (rs_session toy_reader)) true (reliable_plaintext 0 [4; 5]) in
  (rs_streams r' !! 3 = Some (with_halves (stream_new 3) send_new rcv) ∧ rs_queue r' = rs_queue toy_reader ++ (arq_item 3 <$> items)) ∨
  (rs_streams r' !! 3 = None ∧ rs_queue r' = rs_queue toy_reader ++ (arq_item 3 <$> items) ++ [DeliverRetire 3]).
Proof. apply (reliable_branch_is_arq (H := toy_primitives) toy_reader 1 3 0 0 [4; 5] true (stream_new 3)). done. Defined.
