(* ===== verification/StreamTable.v ===== *)
(** * The stream table ([streams], [StreamGauge], [PeerStreamIds], the demultiplexer's
      allocator; [core/src/api/session.rs])

    Both tasks of the pump and the application add and remove streams: the receive path
    admits the peer's and retires closed ones, [open_stream] adds this side's,
    [retire_released_stream] drops released ones.  The abstract table has one rule per
    change; the receive path is shown to make only such changes, and the invariant of
    the table is what the two caps and the accept queue rely on. *)

From Stdlib Require Import ZArith Lia.
From stdpp Require Import base numbers option gmap list sets relations.
From S2P Require Import Prelude Errors Replay Wire Sack Rto StreamSend StreamRecv Stream Path.
From S2P Require Import Crypto Shaping Cid Datagram Session Coalesce Mux Pump.

Local Open Scope Z_scope.

(** ** The operations outside the receive path *)

Section Local_ops.
Context `{Primitives} {ch : Mpsc}.

(** [PhantomSession::open_stream]. *)
Definition open_local_stream (r : RecvState) : result Z CoreError * RecvState :=
  match try_open_local (rs_gauge r) with
  | (false, g) => (Err StreamError, set_rs_gauge r g)
  | (true, g) =>
    match open_stream (rs_demux r) STREAM_RECV_CHANNEL_DEPTH with
    | (Err e, d) => (Err e, set_rs_demux (set_rs_gauge r (undo_open_local g)) d)
    | (Ok id, d) => (Ok id, put_stream id (stream_new id) (set_rs_demux (set_rs_gauge r g) d))
    end
  end.

Definition retire_released_stream (stream : Z) (r : RecvState) : RecvState :=
  if stream <=? RAW_APP_STREAM_ID then r
  else match rs_streams r !! stream with
  | None => r
  | Some _ =>
    let r1 := set_rs_streams r (delete stream (rs_streams r)) in
    let r2 := set_rs_gauge r1 (Mux.closed (rs_gauge r1) stream) in
    set_rs_demux r2 (close_stream (rs_demux r2) stream)
  end.

(** What the other tasks do to a stream of the table: they change it in place. *)
Definition update_stream (stream : Z) (f : Stream -> Stream) (r : RecvState) : RecvState :=
  match rs_streams r !! stream with Some s => put_stream stream (f s) r | None => r end.

(** ** The abstract table *)

Record Table := mk_table {
  t_ids : gset Z;
  t_gauge : StreamGauge;
  t_seen : PeerStreamIds;
  t_first : Z;
  t_next : Z;
  t_step : Z;
  t_offers : list Z;
}.

Definition offers (l : list Effect) : list Z :=
  omap (λ e, match e with OfferStream id => Some id | _ => None end) l.

Definition table_of (r : RecvState) : Table :=
  mk_table (dom (rs_streams r)) (rs_gauge r) (rs_peer_ids r) (first_stream_id (rs_demux r))
    (next_stream_id (rs_demux r)) (id_step (rs_demux r)) (offers (rs_log r)).

(** This side's parity. *)
Definition t_local (t : Table) (id : Z) : bool := (1 <? id) && (id mod 2 =? t_first t mod 2).

Inductive table_step : Table -> Table -> Prop :=
| ts_reserved t id :
    id <= 1 -> id ∉ t_ids t ->
    table_step t (mk_table ({[id]} ∪ t_ids t) (t_gauge t) (t_seen t) (t_first t) (t_next t) (t_step t) (t_offers t))
| ts_admit t id :
    1 < id -> in_u 16 id -> id ∉ t_ids t -> t_local t id = false -> has_seen (t_seen t) id = false ->
    peer_open (t_gauge t) < MAX_STREAMS ->
    table_step t (mk_table ({[id]} ∪ t_ids t) (Mux.opened (t_gauge t) id) (Mux.mark_seen (t_seen t) id)
                    (t_first t) (t_next t) (t_step t) (t_offers t ++ [id]))
| ts_retire t id :
    1 < id -> id ∈ t_ids t ->
    table_step t (mk_table (t_ids t ∖ {[id]}) (Mux.closed (t_gauge t) id) (t_seen t) (t_first t) (t_next t) (t_step t) (t_offers t))
| ts_open t :
    local_open (t_gauge t) < MAX_STREAMS -> t_next t <= LAST_STREAM_ID ->
    table_step t (mk_table ({[t_next t]} ∪ t_ids t)
                    (mk_gauge (local_open (t_gauge t) + 1) (peer_open_raw (t_gauge t)) (local_parity (t_gauge t)))
                    (t_seen t) (t_first t) (t_next t + t_step t) (t_step t) (t_offers t)).

(** ** The receive path only makes changes of the abstract table *)

Lemma offers_app l1 l2 : offers (l1 ++ l2) = offers l1 ++ offers l2.
Proof. apply omap_app. Qed.

Lemma table_put r id s s0 : rs_streams r !! id = Some s0 -> table_of (put_stream id s r) = table_of r.
Proof.
  intros E. unfold table_of. cbn. f_equal. rewrite dom_insert_L.
  apply (subseteq_union_L {[id]}), singleton_subseteq_l, elem_of_dom. by exists s0.
Qed.

Lemma table_effect r e : (∀ id, e ≠ OfferStream id) -> table_of (add_effect r e) = table_of r.
Proof.
  intros He. unfold table_of. cbn. f_equal. rewrite offers_app. destruct e; try apply app_nil_r. by destruct (He id).
Qed.

Lemma table_emit r f : table_of (emit r f) = table_of r.
Proof. unfold emit. destruct f as [[buf|] s]; cbn [fst snd]; [by rewrite table_effect|done]. Qed.

Lemma table_deliver run stream : ∀ r, table_of (Pump.deliver_in_order_run run stream r) = table_of r.
Proof. induction run as [|[|b d] run IH]; intros r; [done|apply IH|]. apply (IH (enqueue r _ _)). Qed.

Lemma streams_deliver run stream : ∀ r, rs_streams (Pump.deliver_in_order_run run stream r) = rs_streams r.
Proof. induction run as [|[|b d] run IH]; intros r; [done|apply IH|]. apply (IH (enqueue r _ _)). Qed.

Lemma table_bbr l : ∀ r, table_of (foldl (λ r smp, add_effect r (FeedBbr smp)) r l) = table_of r.
Proof. induction l as [|x l IH]; intros r; cbn [foldl]; [done|]. by rewrite IH, table_effect. Qed.

Lemma streams_bbr l : ∀ r, rs_streams (foldl (λ r smp, add_effect r (FeedBbr smp)) r l) = rs_streams r.
Proof. induction l as [|x l IH]; intros r; [done|]. apply (IH (add_effect r _)). Qed.

Definition refines (r r' : RecvState) : Prop := rtc table_step (table_of r) (table_of r').

Lemma refines_same r r' : table_of r' = table_of r -> refines r r'.
Proof. intros E. unfold refines. by rewrite E. Qed.

Lemma refines_refl r : refines r r.
Proof. by apply refines_same. Qed.

Lemma refines_trans r1 r2 r3 : refines r1 r2 -> refines r2 r3 -> refines r1 r3.
Proof. unfold refines. intros; by etrans. Qed.

Lemma refines_retire stream r : refines r (Pump.retire_stream stream r).
Proof.
  unfold Pump.retire_stream. destruct (Z.leb_spec stream RAW_APP_STREAM_ID); [apply refines_refl|].
  destruct (rs_streams r !! stream) as [s|] eqn:E; [|apply refines_refl]. apply rtc_once.
  unfold table_of. cbn. rewrite dom_delete_L.
  apply (ts_retire (table_of r)); [unfold RAW_APP_STREAM_ID in *; lia|]. apply elem_of_dom. by exists s.
Qed.

Lemma refines_retire_if_done stream r : refines r (retire_if_done stream r).
Proof.
  unfold retire_if_done. destruct (_ !! _) as [s|]; [|apply refines_refl].
  destruct (is_retirable s); [apply refines_retire | apply refines_refl].
Qed.

Lemma table_remote_fin stream s s0 r :
  rs_streams r !! stream = Some s0 -> table_of (take_unordered_remote_fin stream s r) = table_of r.
Proof.
  intros E. unfold take_unordered_remote_fin. destruct (_ <? _); [|done].
  destruct (note_unordered_remote_fin _) as [[] rcv]; [|by eapply table_put].
  change (table_of (put_stream stream (with_halves s (sending s) rcv) r) = table_of r). by eapply table_put.
Qed.

Lemma table_ack r now stream fl pt : refines r (handle_ack r now stream fl pt).
Proof.
  unfold handle_ack. destruct (Sack.from_wire pt) as [sack|]; [|apply refines_refl].
  destruct (rs_streams r !! stream) as [s|] eqn:E; [|apply refines_refl].
  destruct (on_sack _ _ _) as [res snd]. set (s1 := with_halves s snd (receiving s)).
  set (r2 := foldl _ _ _).
  assert (H2 : table_of r2 = table_of r ∧ rs_streams r2 !! stream = Some s1).
  { unfold r2. rewrite table_bbr, streams_bbr. split; [by eapply table_put|]. apply lookup_insert_eq. }
  set (r3 := match lost res with [] => _ | _ => _ end).
  assert (H3 : table_of r3 = table_of r ∧ rs_streams r3 !! stream = Some s1).
  { unfold r3. destruct (lost res), (retired res); try done; by rewrite table_effect. }
  clearbody r3. destruct H3 as [H3 H3s]. eapply refines_trans; [|apply refines_retire_if_done].
  apply refines_same. rewrite <- H3. destruct (flags_contains fl FIN); [|done]. by eapply table_remote_fin.
Qed.

Lemma table_path_validation r view path pt : refines r (handle_path_validation r view path pt).
Proof.
  unfold handle_path_validation. destruct (negb _); [apply refines_refl|].
  destruct (path_state r path) as [[]|]; try apply refines_refl; try (apply refines_same, table_emit).
  destruct (complete_path_validation _ _ _) as [v s]. apply refines_same.
  assert (Hd : ∀ m : gmap Z Stream, dom (reset_all_rto m) = dom m) by (intros; apply dom_fmap_L).
  destruct (v && promote_candidate view); [|done].
  destruct (path =? REBIND_VALIDATION_PATH_ID); unfold table_of; cbn; by rewrite Hd, offers_app, app_nil_r.
Qed.

Lemma table_arrival r now view path : table_of (handle_path_arrival r now view path) = table_of r.
Proof.
  assert (Hc : ∀ p, table_of (challenge_candidate r now view p) = table_of r).
  { intros p. unfold challenge_candidate. destruct (begin_path_validation _ _ _) as [[c|] s]; [|done].
    destruct (encrypt_path_validation _ _ _) as [[b|] s2]; [by rewrite table_effect|done]. }
  unfold handle_path_arrival. destruct (bool_decide _), (has_migration_candidate view); by rewrite ?Hc.
Qed.

Lemma table_unreliable r stream fl pt : refines r (handle_unreliable r stream fl pt).
Proof.
  unfold handle_unreliable. set (r1 := match pt with [] => r | _ => _ end).
  assert (H1 : table_of r1 = table_of r) by (by destruct pt). clearbody r1.
  destruct (flags_contains fl FIN); [|by apply refines_same].
  destruct (rs_streams r1 !! stream) as [s|] eqn:E; [|by apply refines_same].
  eapply refines_trans; [|apply refines_retire_if_done]. apply refines_same. rewrite <- H1. by eapply table_remote_fin.
Qed.

Lemma table_accept r now stream path off data probe fin s s0 :
  rs_streams r !! stream = Some s0 -> refines r (accept_segment r now stream path off data probe fin s).
Proof.
  intros E. unfold accept_segment. destruct (accept_in_order _ _ _ _) as [delivered rcv1].
  cbv zeta.
  assert (Hput : ∀ rcv r', table_of r' = table_of r -> (∃ x, rs_streams r' !! stream = Some x) ->
            table_of (put_stream stream (with_halves s (sending s) rcv) r') = table_of r ∧
            ∃ x, rs_streams (put_stream stream (with_halves s (sending s) rcv) r') !! stream = Some x).
  { intros rcv r' E' [x Hx]. split; [rewrite <- E'; by eapply table_put|]. eexists. apply lookup_insert_eq. }
  destruct (Hput rcv1 r eq_refl (ex_intro _ _ E)) as [H1 Hs1]. set (r1 := put_stream _ _ r) in *. clearbody r1.
  destruct (received_sack _ _ _) as [sack|]; [|by apply refines_same].
  set (r2 := emit _ _). assert (H2 : table_of r2 = table_of r) by (by rewrite <- H1; apply table_emit).
  assert (Hs2 : ∃ x, rs_streams r2 !! stream = Some x).
  { unfold r2, emit. destruct (send_stream_sack _ _ _ _) as [[b|] s']; apply Hs1. }
  clearbody r2. destruct (negb _); [by apply refines_same|].
  set (r3 := Pump.deliver_in_order_run _ _ _).
  assert (H3 : table_of r3 = table_of r) by (unfold r3; by rewrite table_deliver).
  assert (Hs3 : ∃ x, rs_streams r3 !! stream = Some x) by (unfold r3; by rewrite streams_deliver).
  clearbody r3. destruct (if probe then _ else _) as [rcv2 r4] eqn:Ep.
  assert (H4 : table_of r4 = table_of r ∧ ∃ x, rs_streams r4 !! stream = Some x).
  { destruct probe; injection Ep as <- <-; [by rewrite table_effect | done]. }
  destruct (take_in_order_fin _) as [eof rcv4]. destruct (Hput rcv4 r4) as [H5 Hs5]; [apply H4..|].
  destruct eof; [|by apply refines_same]. eapply refines_trans; [|apply refines_retire_if_done]. by apply refines_same.
Qed.

Lemma table_answer r stream path off probe fin : table_of (answer_retired r stream path off probe fin) = table_of r.
Proof.
  unfold answer_retired. set (r1 := match from_inclusive_ranges _ _ with Some _ => _ | None => r end).
  assert (H1 : table_of r1 = table_of r) by (unfold r1; destruct (from_inclusive_ranges _ _); [apply table_emit|done]).
  clearbody r1. destruct (released_stream_grant _ _ _); [by rewrite table_emit|done].
Qed.

Lemma refines_admit r stream :
  in_u 16 stream -> rs_streams r !! stream = None ->
  classify_unheld_stream stream (rs_demux r) (rs_peer_ids r) = Opens -> peer_open (rs_gauge r) < MAX_STREAMS ->
  refines r (admit_stream r stream).
Proof.
  intros Hu E Hc Hroom. unfold classify_unheld_stream in Hc. apply rtc_once. apply not_elem_of_dom in E.
  destruct (is_local_stream_id (rs_demux r) stream) eqn:El; [by destruct (has_opened _ _)|].
  destruct (has_seen (rs_peer_ids r) stream) eqn:Es; [done|].
  unfold admit_stream. destruct (Z.ltb_spec RAW_APP_STREAM_ID stream) as [Hs|Hs]; unfold RAW_APP_STREAM_ID in Hs.
  - unfold table_of. cbn. rewrite dom_insert_L, offers_app. by apply (ts_admit (table_of r)).
  - unfold table_of. cbn. rewrite dom_insert_L. by apply (ts_reserved (table_of r)).
Qed.

Lemma table_reliable r now stream path fl pt :
  in_u 16 stream -> refines r (handle_reliable r now stream path fl pt).
Proof.
  intros Hu. unfold handle_reliable. destruct (_ <? _)%nat; [apply refines_refl|]. cbv zeta.
  destruct (rs_streams r !! stream) as [s|] eqn:E; [by eapply table_accept|].
  destruct (classify_unheld_stream _ _ _) eqn:Ec; [|by apply refines_same, table_answer|apply refines_refl].
  destruct (Z.leb_spec MAX_STREAMS (peer_open (rs_gauge r))); [apply refines_refl|].
  eapply refines_trans; [by apply refines_admit|]. eapply table_accept.
  unfold admit_stream. destruct (_ <? _); apply lookup_insert_eq.
Qed.

Lemma table_authenticated r now path : table_of (on_authenticated r now path) = table_of r.
Proof.
  unfold on_authenticated. cbn [rs_session add_effect set_rs_session].
  destruct (note_migration_path _ _) as [[slide|] c].
  - destruct (advance_outbound_cid _) as [nc c2]. rewrite table_effect by done.
    unfold table_of. cbn. by rewrite !offers_app, !app_nil_r.
  - unfold table_of. cbn. by rewrite offers_app, app_nil_r.
Qed.

(** Everything the receive path does to the stream table is a sequence of the abstract
    changes. *)
Lemma handle_packet_refines r now view p :
  in_u 16 (Wire.stream_id (header p)) -> refines r (handle_packet r now view p).
Proof.
  intros Hu. unfold handle_packet. destruct (open_frame _ _ _) as [[pt|] s]; [|by apply refines_same].
  set (r0 := on_authenticated _ _ _). apply (refines_trans _ r0); [apply refines_same; unfold r0; by rewrite table_authenticated|].
  clearbody r0. unfold dispatch.
  destruct (flags_contains _ KEEPALIVE).
  { unfold handle_keepalive. destruct (flags_contains _ ACK); [apply refines_refl | apply refines_same, table_emit]. }
  destruct (flags_contains _ CONTROL).
  { unfold handle_control. destruct pt; [|case_match]; by apply refines_same. }
  destruct (flags_contains _ COVER); [apply refines_refl|].
  destruct (flags_contains _ ACK); [apply table_ack|].
  destruct (flags_contains _ WINDOW_UPDATE).
  { unfold handle_window_update. destruct (negb _); [apply refines_refl|].
    destruct (rs_streams r0 !! _) eqn:E; [|apply refines_refl]. apply refines_same. rewrite table_effect by done. by eapply table_put. }
  destruct (flags_contains _ PATH_VALIDATION); [apply table_path_validation|].
  eapply refines_trans; [apply refines_same, table_arrival|].
  destruct (flags_contains _ COALESCED).
  { unfold handle_coalesced. destruct (unwrap_coalesced_packet _) as [[subs|]|]; try apply refines_refl.
    apply refines_same, table_deliver. }
  destruct (flags_contains _ RELIABLE); [by apply table_reliable | apply table_unreliable].
Qed.

Lemma open_local_refines r : 0 <= local_open (rs_gauge r) -> refines r (open_local_stream r).2.
Proof.
  intros Hl. unfold open_local_stream, try_open_local.
  destruct (Z.ltb_spec (local_open (rs_gauge r)) MAX_STREAMS); [|by apply refines_same].
  unfold open_stream. destruct (Z.leb_spec (next_stream_id (rs_demux r)) LAST_STREAM_ID).
  - apply rtc_once. unfold table_of. cbn. rewrite dom_insert_L. by apply (ts_open (table_of r)).
  - apply refines_same. unfold table_of, undo_open_local, dec_pos. cbn. f_equal.
    destruct (rs_gauge r) as [lo po lp]. cbn in *. destruct (Z.ltb_spec 0 (lo + 1)); f_equal; lia.
Qed.

Lemma released_refines stream r : refines r (retire_released_stream stream r).
Proof.
  unfold retire_released_stream. destruct (Z.leb_spec stream RAW_APP_STREAM_ID); [apply refines_refl|].
  destruct (rs_streams r !! stream) as [s|] eqn:E; [|apply refines_refl]. apply rtc_once.
  unfold table_of. cbn. rewrite dom_delete_L.
  apply (ts_retire (table_of r)); [unfold RAW_APP_STREAM_ID in *; lia|]. apply elem_of_dom. by exists s.
Qed.

(** ** The invariant of the table *)

Definition peer_ids_held (t : Table) : gset Z := filter (λ id, 1 < id ∧ t_local t id = false) (t_ids t).
Definition local_ids_held (t : Table) : gset Z := filter (λ id, t_local t id = true) (t_ids t).

Record wf_table (t : Table) : Prop := {
  wt_first : t_first t = 2 ∨ t_first t = 3;
  wt_step : t_step t = 2;
  wt_parity : local_parity (t_gauge t) = t_first t mod 2;
  wt_next : t_first t <= t_next t ∧ t_next t mod 2 = t_first t mod 2;
  wt_seen : records (1 - t_first t mod 2) (t_seen t) (t_offers t);
  wt_offers : NoDup (t_offers t);
  wt_peer : ∀ id, id ∈ peer_ids_held t -> in_u 16 id ∧ id ∈ t_offers t;
  wt_local : ∀ id, id ∈ local_ids_held t -> t_first t <= id < t_next t;
  wt_peer_count : peer_open_raw (t_gauge t) = Z.of_nat (size (peer_ids_held t));
  wt_local_count : local_open (t_gauge t) = Z.of_nat (size (local_ids_held t));
  wt_peer_cap : peer_open_raw (t_gauge t) <= MAX_STREAMS;
  wt_local_cap : local_open (t_gauge t) <= MAX_STREAMS;
}.

Section Held.
Context (P : Z -> Prop) `{!∀ x, Decision (P x)}.

Lemma held_add_in (X : gset Z) id : P id -> id ∉ X ->
  filter P ({[id]} ∪ X) = {[id]} ∪ filter P X ∧ size (filter P ({[id]} ∪ X)) = S (size (filter P X)).
Proof.
  intros HP Hid. assert (E : filter P ({[id]} ∪ X) = {[id]} ∪ filter P X).
  { by rewrite filter_union_L, filter_singleton_True_L by (done || apply _). }
  split; [done|]. rewrite E, size_union by set_solver. by rewrite size_singleton.
Qed.

Lemma held_add_out (X : gset Z) id : ¬ P id -> filter P ({[id]} ∪ X) = filter P X.
Proof. intros HP. rewrite filter_union_L, filter_singleton_False_L by (done || apply _). apply (left_id_L ∅ (∪)). Qed.

Lemma held_del_in (X : gset Z) id : P id -> id ∈ X ->
  size (filter P X) = S (size (filter P (X ∖ {[id]}))).
Proof.
  intros HP Hid. assert (E : filter P X = {[id]} ∪ filter P (X ∖ {[id]})).
  { apply set_eq. intros x. destruct (decide (x = id)) as [->|]; set_solver. }
  rewrite E at 1. rewrite size_union by set_solver. by rewrite size_singleton.
Qed.

Lemma held_del_out (X : gset Z) id : ¬ P id -> filter P (X ∖ {[id]}) = filter P X.
Proof. intros HP. apply set_eq. intros x. destruct (decide (x = id)) as [->|]; set_solver. Qed.
End Held.

(** The two sides of a user-visible id. *)
Lemma local_or_peer t id : 1 < id ->
  (t_local t id = true ∧ id mod 2 = t_first t mod 2) ∨ (t_local t id = false ∧ id mod 2 = 1 - t_first t mod 2).
Proof.
  intros Hid. unfold t_local. destruct (Z.ltb_spec 1 id); [|lia]. cbn [andb].
  destruct (Z.eqb_spec (id mod 2) (t_first t mod 2)); [by left|right].
  split; [done|]. Z.to_euclidean_division_equations; lia.
Qed.

Lemma gauge_local t id : wf_table t -> 1 < id -> gauge_is_local (t_gauge t) id = t_local t id.
Proof.
  intros Hwf Hid. unfold gauge_is_local, t_local. rewrite (wt_parity _ Hwf). by destruct (Z.ltb_spec 1 id); [|lia].
Qed.

Lemma ts_reserved_wf t id :
  wf_table t -> id <= 1 ->
  wf_table (mk_table ({[id]} ∪ t_ids t) (t_gauge t) (t_seen t) (t_first t) (t_next t) (t_step t) (t_offers t)).
Proof.
  intros Hwf Hid.
  assert (Hl : t_local t id = false) by (unfold t_local; by destruct (Z.ltb_spec 1 id); [lia|]).
  assert (Ep : peer_ids_held (mk_table ({[id]} ∪ t_ids t) (t_gauge t) (t_seen t) (t_first t) (t_next t) (t_step t) (t_offers t)) = peer_ids_held t).
  { apply held_add_out. lia. }
  assert (El : local_ids_held (mk_table ({[id]} ∪ t_ids t) (t_gauge t) (t_seen t) (t_first t) (t_next t) (t_step t) (t_offers t)) = local_ids_held t).
  { apply held_add_out. unfold t_local in *. cbn. by rewrite Hl. }
  destruct Hwf. split; rewrite ?Ep, ?El; done.
Qed.

Lemma ts_admit_wf t id :
  wf_table t -> 1 < id -> in_u 16 id -> id ∉ t_ids t -> t_local t id = false -> has_seen (t_seen t) id = false ->
  peer_open (t_gauge t) < MAX_STREAMS ->
  wf_table (mk_table ({[id]} ∪ t_ids t) (Mux.opened (t_gauge t) id) (Mux.mark_seen (t_seen t) id)
              (t_first t) (t_next t) (t_step t) (t_offers t ++ [id])).
Proof.
  intros Hwf Hid Hu Hni Hl Hns Hroom. set (t' := mk_table _ _ _ _ _ _ _).
  destruct (held_add_in (λ id, 1 < id ∧ t_local t id = false) (t_ids t) id) as [Ep Sp]; [done..|].
  pose proof (held_add_out (λ id, t_local t id = true) (t_ids t) id ltac:(cbv beta; by rewrite Hl)) as El.
  assert (Hpar : id mod 2 = 1 - t_first t mod 2) by (destruct (local_or_peer t id Hid) as [[E _]|[_ E]]; [congruence|done]).
  assert (Hg : t_gauge t' = mk_gauge (local_open (t_gauge t)) (peer_open_raw (t_gauge t) + 1) (local_parity (t_gauge t))).
  { cbn. unfold Mux.opened. destruct (Z.leb_spec id RAW_APP_STREAM_ID) as [Hc|]; [unfold RAW_APP_STREAM_ID in Hc; lia|].
    by rewrite (gauge_local t id Hwf Hid), Hl. }
  assert (Hno : id ∉ t_offers t).
  { destruct (wt_seen _ Hwf) as [_ Hs]. rewrite Hs in Hns by done. by apply bool_decide_eq_false in Hns. }
  unfold peer_open in Hroom.
  destruct Hwf as [? ? ? ? Hrec ? Hpe Hlo Hpc Hlc ? ?]. split; try done; rewrite ?Hg; cbn [local_open peer_open_raw local_parity]; try done.
  - by apply records_mark.
  - apply NoDup_app. split_and!; [done| |apply NoDup_singleton]. intros x Hx ->%list_elem_of_singleton. done.
  - change (peer_ids_held t') with (filter (λ id, 1 < id ∧ t_local t id = false) ({[id]} ∪ t_ids t)). rewrite Ep.
    intros x [->%elem_of_singleton|Hx]%elem_of_union; change (t_offers t') with (t_offers t ++ [id]); rewrite elem_of_app.
    + split; [done|]. right. by apply list_elem_of_singleton.
    + destruct (Hpe x Hx). auto.
  - change (local_ids_held t') with (filter (λ id, t_local t id = true) ({[id]} ∪ t_ids t)). by rewrite El.
  - change (peer_ids_held t') with (filter (λ id, 1 < id ∧ t_local t id = false) ({[id]} ∪ t_ids t)). rewrite Sp.
    fold (peer_ids_held t). lia.
  - change (local_ids_held t') with (filter (λ id, t_local t id = true) ({[id]} ∪ t_ids t)). by rewrite El.
  - lia.
Qed.

Lemma ts_retire_wf t id :
  wf_table t -> 1 < id -> id ∈ t_ids t ->
  wf_table (mk_table (t_ids t ∖ {[id]}) (Mux.closed (t_gauge t) id) (t_seen t) (t_first t) (t_next t) (t_step t) (t_offers t)).
Proof.
  intros Hwf Hid Hin. set (t' := mk_table _ _ _ _ _ _ _).
  assert (Hg : t_gauge t' = if t_local t id then mk_gauge (dec_pos (local_open (t_gauge t))) (peer_open_raw (t_gauge t)) (local_parity (t_gauge t))
                            else mk_gauge (local_open (t_gauge t)) (dec_pos (peer_open_raw (t_gauge t))) (local_parity (t_gauge t))).
  { cbn. unfold Mux.closed. destruct (Z.leb_spec id RAW_APP_STREAM_ID) as [Hc|]; [unfold RAW_APP_STREAM_ID in Hc; lia|].
    by rewrite (gauge_local t id Hwf Hid). }
  assert (Hp : peer_ids_held t' = filter (λ id, 1 < id ∧ t_local t id = false) (t_ids t ∖ {[id]})) by done.
  assert (Hl : local_ids_held t' = filter (λ id, t_local t id = true) (t_ids t ∖ {[id]})) by done.
  assert (Hsub : peer_ids_held t' ⊆ peer_ids_held t ∧ local_ids_held t' ⊆ local_ids_held t).
  { rewrite Hp, Hl. unfold peer_ids_held, local_ids_held. split; set_solver. }
  destruct (t_local t id) eqn:El.
  - pose proof (held_del_in (λ id, t_local t id = true) (t_ids t) id El Hin) as Hs.
    rewrite (held_del_out (λ id, 1 < id ∧ t_local t id = false)) in Hp by (rewrite El; naive_solver).
    fold (local_ids_held t) in Hs. rewrite <- Hl in Hs. fold (peer_ids_held t) in Hp.
    destruct Hwf as [? ? ? ? ? ? Hpe Hlo Hpc Hlc ? ?]. unfold dec_pos in Hg. destruct (Z.ltb_spec 0 (local_open (t_gauge t))) as [_|]; [|lia].
    split; rewrite ?Hg, ?Hp; cbn [local_open peer_open_raw local_parity]; try done; try lia.
    intros x Hx. apply Hlo. set_solver.
  - pose proof (held_del_in (λ id, 1 < id ∧ t_local t id = false) (t_ids t) id (conj Hid El) Hin) as Hs.
    rewrite (held_del_out (λ id, t_local t id = true)) in Hl by (by rewrite El).
    fold (peer_ids_held t) in Hs. rewrite <- Hp in Hs. fold (local_ids_held t) in Hl.
    destruct Hwf as [? ? ? ? ? ? Hpe Hlo Hpc Hlc ? ?]. unfold dec_pos in Hg. destruct (Z.ltb_spec 0 (peer_open_raw (t_gauge t))) as [_|]; [|lia].
    split; rewrite ?Hg, ?Hl; cbn [local_open peer_open_raw local_parity]; try done; try lia.
    intros x Hx. apply Hpe. set_solver.
Qed.

Lemma ts_open_wf t :
  wf_table t -> local_open (t_gauge t) < MAX_STREAMS -> t_next t <= LAST_STREAM_ID ->
  wf_table (mk_table ({[t_next t]} ∪ t_ids t)
              (mk_gauge (local_open (t_gauge t) + 1) (peer_open_raw (t_gauge t)) (local_parity (t_gauge t)))
              (t_seen t) (t_first t) (t_next t + t_step t) (t_step t) (t_offers t)).
Proof.
  intros Hwf Hroom Hlast. set (t' := mk_table _ _ _ _ _ _ _).
  destruct Hwf as [Hf Hst Hpar [Hnl Hnp] Hrec Hno Hpe Hlo Hpc Hlc Hpm Hlm].
  assert (Hid : 1 < t_next t) by lia.
  assert (El : t_local t (t_next t) = true).
  { unfold t_local. destruct (Z.ltb_spec 1 (t_next t)); [|lia]. by apply Z.eqb_eq. }
  assert (Hnew : t_next t ∉ t_ids t).
  { intros Hin. assert (Hx : t_next t ∈ local_ids_held t) by (by apply elem_of_filter). apply Hlo in Hx. lia. }
  destruct (held_add_in (λ id, t_local t id = true) (t_ids t) (t_next t) El Hnew) as [Eadd Sadd].
  pose proof (held_add_out (λ id, 1 < id ∧ t_local t id = false) (t_ids t) (t_next t) ltac:(cbv beta; rewrite El; naive_solver)) as Ep.
  assert (Hp : peer_ids_held t' = peer_ids_held t) by exact Ep.
  assert (Hl : local_ids_held t' = {[t_next t]} ∪ local_ids_held t) by exact Eadd.
  assert (Sl : size (local_ids_held t') = S (size (local_ids_held t))) by exact Sadd.
  split; rewrite ?Hp, ?Hl; try done; cbn [t' t_first t_next t_step t_gauge local_open peer_open_raw]; rewrite ?Hst; try lia.
  - split; [lia|]. Z.to_euclidean_division_equations; lia.
  - intros x [->%elem_of_singleton|Hx]%elem_of_union; [lia|]. apply Hlo in Hx. lia.
  - rewrite <- Hl, Sl. lia.
Qed.

Lemma table_step_wf t t' : table_step t t' -> wf_table t -> wf_table t'.
Proof. destruct 1; intros Hwf; [by apply ts_reserved_wf | by apply ts_admit_wf | by apply ts_retire_wf | by apply ts_open_wf]. Qed.

Lemma refines_wf r r' : refines r r' -> wf_table (table_of r) -> wf_table (table_of r').
Proof. unfold refines. induction 1; [done|]. intros. apply IHrtc. by eapply table_step_wf. Qed.

(** ** Runs of the pump *)

Inductive pump_op :=
| OpReceive (now : Z) (view : TransportView) (p : PhantomPacket)
| OpOpen
| OpReleased (stream : Z)
| OpUpdate (stream : Z) (f : Stream -> Stream).

Definition pump_op_ok (o : pump_op) : Prop :=
  match o with OpReceive _ _ p => in_u 16 (Wire.stream_id (header p)) | _ => True end.

Definition pump_step (r : RecvState) (o : pump_op) : RecvState :=
  match o with
  | OpReceive now view p => handle_packet r now view p
  | OpOpen => (open_local_stream r).2
  | OpReleased stream => retire_released_stream stream r
  | OpUpdate stream f => update_stream stream f r
  end.

(** The state the pump starts with: the session, and the reserved stream. *)
Definition pump_init (s : Session) (is_client : bool) : RecvState :=
  mk_rs s {[RAW_APP_STREAM_ID := stream_new RAW_APP_STREAM_ID]} (new_with_role 16 is_client) (gauge_new is_client)
    peer_ids_new ∅ 0 [] 0 [].

Lemma pump_init_wf s is_client : wf_table (table_of (pump_init s is_client)).
Proof.
  set (t := table_of _). assert (Hd : t_ids t = {[RAW_APP_STREAM_ID]}) by apply dom_singleton_L.
  assert (Hp : peer_ids_held t = ∅).
  { apply set_eq. intros x. unfold peer_ids_held. rewrite Hd, elem_of_filter, elem_of_singleton. unfold RAW_APP_STREAM_ID.
    split; [lia | set_solver]. }
  assert (Hl : local_ids_held t = ∅).
  { apply set_eq. intros x. unfold local_ids_held. rewrite Hd, elem_of_filter, elem_of_singleton.
    split; [intros [E ->]; by destruct is_client | set_solver]. }
  split; rewrite ?Hp, ?Hl.
  - destruct is_client; [by right | by left].
  - done.
  - by destruct is_client.
  - by destruct is_client.
  - split; [done|]. intros id _ _. by rewrite bool_decide_false by (apply not_elem_of_nil).
  - constructor.
  - set_solver.
  - set_solver.
  - done.
  - done.
  - done.
  - done.
Qed.

Lemma pump_step_wf r o : pump_op_ok o -> wf_table (table_of r) -> wf_table (table_of (pump_step r o)).
Proof.
  intros Hok Hwf. apply (refines_wf r); [|done]. destruct o; cbn [pump_step].
  - by apply handle_packet_refines.
  - apply open_local_refines. pose proof (wt_local_count _ Hwf) as E. cbn in E. lia.
  - apply released_refines.
  - unfold update_stream. destruct (_ !! _) eqn:E; [apply refines_same; by eapply table_put | apply refines_refl].
Qed.

Lemma pump_run_wf os : ∀ r,
  Forall pump_op_ok os -> wf_table (table_of r) -> wf_table (table_of (foldl pump_step r os)).
Proof.
  induction os as [|o os IH]; intros r Hok Hwf; [done|]. apply Forall_cons in Hok as [Ho Hok].
  cbn [foldl]. apply IH; [done|]. by apply pump_step_wf.
Qed.

End Local_ops.

(** C12: However packets arrive, streams are opened, released and used: the application is
    offered a stream of the peer's at most once per id, neither side has more than
    [MAX_STREAMS] streams in the table, both counters equal the number of streams they
    count, and a stream of this side's parity in the table is one this side opened. *)
Theorem stream_table_sound `{Primitives} {ch : Mpsc} (s : Session) (is_client : bool) (os : list pump_op) :
  Forall pump_op_ok os ->
  let t := table_of (foldl pump_step (pump_init s is_client) os) in
  NoDup (t_offers t) ∧
  peer_open (t_gauge t) = Z.of_nat (size (peer_ids_held t)) ∧ peer_open (t_gauge t) <= MAX_STREAMS ∧
  local_open (t_gauge t) = Z.of_nat (size (local_ids_held t)) ∧ local_open (t_gauge t) <= MAX_STREAMS ∧
  (∀ id, id ∈ peer_ids_held t -> id ∈ t_offers t) ∧
  (∀ id, id ∈ local_ids_held t -> t_first t <= id < t_next t).
Proof.
  intros Hok t. pose proof (pump_run_wf os _ Hok (pump_init_wf s is_client)) as Hwf. fold t in Hwf.
  destruct Hwf. unfold peer_open. split_and!; try done; try lia. intros id Hid. by apply wt_peer0.
Qed.

#[local] Existing Instance list_chan.

(** A client that opens a stream of its own and receives the first segment of the
    server's stream 2, and a second copy of it. *)
Definition toy_client : RecvState := pump_init (toy_pair true false) true.
Definition toy_view : TransportView := mk_view false false (replicate 32 3).
Definition toy_packet : PhantomPacket :=
  match (@send_app_data toy_primitives (toy_pair true true) 2 [5; 6] RELIABLE (Some 0)).1 with
  | Some w => match @parse_protected toy_primitives (toy_pair true false) w with Ok p => p | Err _ => packet_new sample_frame [] end
  | None => packet_new sample_frame []
  end.
Definition toy_ops : list pump_op := [OpOpen; OpReceive 1 toy_view toy_packet; OpReceive 2 toy_view toy_packet].

Lemma stream_table_sound_witness :
  NoDup (t_offers (table_of (foldl (pump_step (H := toy_primitives)) toy_client toy_ops))) ∧
  t_offers (table_of (foldl (pump_step (H := toy_primitives)) toy_client toy_ops)) = [2].
Proof.
  split; [|by vm_compute].
  apply (stream_table_sound (H := toy_primitives) (toy_pair true false) true toy_ops).
  repeat constructor; by vm_compute.
Defined.
