(* ===== verification/Delivery.v ===== *)
(** * Delivery to the application (the router and delivery tasks of the data pump,
      [core/src/api/session.rs])

    The reader queues what it released; a router splits the queue into the raw stream's
    and the opened streams', and one task drains each.  A task takes an item, releases
    its charge, credits the stream's flow control, and only then waits for room in the
    application's channel.  The step relation has one rule per thing a task does between
    two waits. *)

From Stdlib Require Import ZArith Lia.
From stdpp Require Import base numbers option gmap list sets.
From S2P Require Import Prelude Errors Replay Wire Sack Rto StreamSend StreamRecv Stream Path.
From S2P Require Import Crypto Shaping Cid Datagram Session Coalesce Mux Pump StreamTable.

Local Open Scope Z_scope.

(** ** The tasks *)

Section Delivery.
Context `{Primitives} {ch : Mpsc}.

Record Delivery := mk_delivery {
  d_pump : RecvState;
  d_budget : Z;
  d_raw : list (list Z * bool);
  d_raw_hand : option (list Z);
  d_streams : list DeliverItem;
  d_hand : option DeliverItem;
  d_recv : list (list Z);
}.

Definition set_undelivered (r : RecvState) (v : Z) : RecvState :=
  mk_rs (rs_session r) (rs_streams r) (rs_demux r) (rs_gauge r) (rs_peer_ids r) (rs_challenges r)
    (rs_last_peer_path r) (rs_queue r) v (rs_log r).
Definition set_queue (r : RecvState) (v : list DeliverItem) : RecvState :=
  mk_rs (rs_session r) (rs_streams r) (rs_demux r) (rs_gauge r) (rs_peer_ids r) (rs_challenges r)
    (rs_last_peer_path r) v (rs_undelivered r) (rs_log r).

(** [fetch_sub]. *)
Definition release_charge (r : RecvState) (payload_len : Z) : RecvState :=
  set_undelivered r (wrap 64 (rs_undelivered r - delivery_charge payload_len)).

(** The router's treatment of the first queued item. *)
Definition route_item (d : Delivery) : option Delivery :=
  match rs_queue (d_pump d) with
  | [] => None
  | item :: q =>
    let r := set_queue (d_pump d) q in
    Some match item with
    | DeliverData id bytes reliable =>
      if id <=? RAW_APP_STREAM_ID
      then mk_delivery r (d_budget d) (d_raw d ++ [(bytes, reliable)]) (d_raw_hand d) (d_streams d) (d_hand d) (d_recv d)
      else mk_delivery r (d_budget d) (d_raw d) (d_raw_hand d) (d_streams d ++ [item]) (d_hand d) (d_recv d)
    | DeliverClose id =>
      if RAW_APP_STREAM_ID <? id
      then mk_delivery r (d_budget d) (d_raw d) (d_raw_hand d) (d_streams d ++ [item]) (d_hand d) (d_recv d)
      else mk_delivery (release_charge r 0) (d_budget d) (d_raw d) (d_raw_hand d) (d_streams d) (d_hand d) (d_recv d)
    | DeliverRetire id =>
      if RAW_APP_STREAM_ID <? id
      then mk_delivery r (d_budget d) (d_raw d) (d_raw_hand d) (d_streams d ++ [item]) (d_hand d) (d_recv d)
      else mk_delivery r (d_budget d) (d_raw d) (d_raw_hand d) (d_streams d) (d_hand d) (d_recv d)
    end
  end.

(** Flow-control credit for [n] bytes handed over on [stream]; [len as u32]. *)
Definition credit (r : RecvState) (budget now stream n : Z) (reliable : bool) : RecvState * Z :=
  match rs_streams r !! stream with
  | None => (r, budget)
  | Some s =>
    let '(limit, s1, budget1) := stream_app_consumed s budget now (wrap 32 n) reliable in
    match limit with
    | Some l =>
      let s2 := with_halves s1 (sending s1) (stage_window_update_limit (receiving s1) l) in
      (add_effect (put_stream stream s2 r) NotifyOutbound, budget1)
    | None => (put_stream stream s1 r, budget1)
    end
  end.

(** Task A: take a raw item, then hand it over when the channel has room. *)
Definition raw_take (d : Delivery) (now : Z) : option Delivery :=
  match d_raw_hand d, d_raw d with
  | None, (bytes, reliable) :: q =>
    let '(r, budget) := credit (release_charge (d_pump d) (len bytes)) (d_budget d) now RAW_APP_STREAM_ID (len bytes) reliable in
    Some (mk_delivery r budget q (Some bytes) (d_streams d) (d_hand d) (d_recv d))
  | _, _ => None
  end.
Definition raw_hand_over (d : Delivery) : option Delivery :=
  match d_raw_hand d with
  | Some bytes => Some (mk_delivery (d_pump d) (d_budget d) (d_raw d) None (d_streams d) (d_hand d) (d_recv d ++ [bytes]))
  | None => None
  end.

(** Task B: take an item of the opened streams, then route it. *)
Definition stream_take (d : Delivery) (now : Z) : option Delivery :=
  match d_hand d, d_streams d with
  | None, item :: q =>
    let '(r, budget) :=
      match item with
      | DeliverData id bytes reliable => credit (release_charge (d_pump d) (len bytes)) (d_budget d) now id (len bytes) reliable
      | DeliverClose id => (release_charge (d_pump d) 0, d_budget d)
      | DeliverRetire id => (d_pump d, d_budget d)
      end in
    Some (mk_delivery r budget (d_raw d) (d_raw_hand d) q (Some item) (d_recv d))
  | _, _ => None
  end.
Definition stream_hand_over (d : Delivery) : option Delivery :=
  match d_hand d with
  | None => None
  | Some item =>
    let dm := rs_demux (d_pump d) in
    '(_, dm1) ← match item with
                | DeliverData id bytes _ => route_data_async dm id bytes
                | DeliverClose id => route_close_async dm id
                | DeliverRetire id => Some (true, close_stream dm id)
                end;
    Some (mk_delivery (set_rs_demux (d_pump d) dm1) (d_budget d) (d_raw d) (d_raw_hand d) (d_streams d) None (d_recv d))
  end.

(** ** What the receive path queues *)

Definition item_charge (item : DeliverItem) : Z :=
  match item with
  | DeliverData _ bytes _ => delivery_charge (len bytes)
  | DeliverClose _ => delivery_charge 0
  | DeliverRetire _ => 0
  end.
Definition charges (l : list DeliverItem) : Z := sum_Z (item_charge <$> l).

(** Equal as 64-bit counters. *)
Definition same_count (a b : Z) : Prop := a mod 2 ^ 64 = b mod 2 ^ 64.

(** [r'] is [r] with the items [new] queued and charged. *)
Definition queued (r r' : RecvState) (new : list DeliverItem) : Prop :=
  rs_queue r' = rs_queue r ++ new ∧ same_count (rs_undelivered r') (rs_undelivered r + charges new) ∧
  (in_u 64 (rs_undelivered r) -> in_u 64 (rs_undelivered r')).
Definition grows (r r' : RecvState) : Prop := ∃ new, queued r r' new.

Lemma item_charges_app l1 l2 : charges (l1 ++ l2) = charges l1 + charges l2.
Proof. unfold charges. rewrite fmap_app. apply sum_Z_app. Qed.

Lemma grows_same r r' : rs_queue r' = rs_queue r -> rs_undelivered r' = rs_undelivered r -> grows r r'.
Proof.
  intros Eq Eu. exists []. split_and!; [by rewrite app_nil_r| |by rewrite Eu].
  unfold same_count. rewrite Eu. f_equal. unfold charges. cbn. lia.
Qed.

Lemma grows_trans r1 r2 r3 : grows r1 r2 -> grows r2 r3 -> grows r1 r3.
Proof.
  intros (n1 & Q1 & C1 & U1) (n2 & Q2 & C2 & U2). exists (n1 ++ n2). split_and!; [by rewrite Q2, Q1, app_assoc| |by auto].
  unfold same_count in *. rewrite C2, item_charges_app. rewrite Z.add_assoc.
  rewrite (Z.add_mod (rs_undelivered r2)), C1, <- Z.add_mod by lia. done.
Qed.

Lemma grows_enqueue r item : grows r (enqueue r item (item_charge item)).
Proof.
  exists [item]. split_and!; [done| |intros _; apply wrap_in_u; lia]. unfold same_count, enqueue, wrap. cbn [rs_undelivered].
  rewrite Z.mod_mod by lia. f_equal. unfold charges. cbn. lia.
Qed.

Lemma grows_emit r f : grows r (emit r f).
Proof. unfold emit. destruct f as [[buf|] s]; by apply grows_same. Qed.

Lemma grows_deliver run stream : ∀ r, grows r (Pump.deliver_in_order_run run stream r).
Proof.
  induction run as [|[|b d] run IH]; intros r; [by apply grows_same|apply IH|].
  eapply grows_trans; [apply (grows_enqueue r (DeliverData stream (b :: d) true))|]. apply (IH (enqueue r _ _)).
Qed.

Lemma grows_retire_if_done stream r : grows r (retire_if_done stream r).
Proof.
  unfold retire_if_done, Pump.retire_stream. destruct (_ !! _) as [s|]; [|by apply grows_same].
  destruct (is_retirable s); [|by apply grows_same]. destruct (stream <=? RAW_APP_STREAM_ID); [by apply grows_same|].
  exists [DeliverRetire stream]. split_and!; [done| |done]. unfold same_count. f_equal. unfold charges. cbn. lia.
Qed.

Lemma grows_remote_fin stream s r : grows r (take_unordered_remote_fin stream s r).
Proof.
  unfold take_unordered_remote_fin. destruct (_ <? _); [|by apply grows_same].
  destruct (note_unordered_remote_fin _) as [[] rcv]; [|by apply grows_same].
  eapply grows_trans; [|apply (grows_enqueue _ (DeliverClose stream))]. by apply grows_same.
Qed.

Lemma grows_bbr l : ∀ r, grows r (foldl (λ r smp, add_effect r (FeedBbr smp)) r l).
Proof.
  induction l as [|x l IH]; intros r; [by apply grows_same|].
  eapply grows_trans; [by apply (grows_same r (add_effect r (FeedBbr x)))|]. apply (IH (add_effect r _)).
Qed.

Lemma grows_ack r now stream fl pt : grows r (handle_ack r now stream fl pt).
Proof.
  unfold handle_ack. destruct (Sack.from_wire pt) as [sack|]; [|by apply grows_same].
  destruct (rs_streams r !! stream) as [s|]; [|by apply grows_same]. destruct (on_sack _ _ _) as [res snd].
  eapply grows_trans; [|apply grows_retire_if_done].
  set (r2 := foldl _ _ _).
  assert (H2 : grows r r2).
  { eapply grows_trans; [|apply grows_bbr]. by apply grows_same. }
  clearbody r2. set (r3 := match lost res with [] => _ | _ => _ end).
  assert (H3 : grows r r3).
  { eapply grows_trans; [exact H2|]. unfold r3. destruct (lost res), (retired res); by apply grows_same. }
  clearbody r3. destruct (flags_contains fl FIN); [|done]. eapply grows_trans; [exact H3 | apply grows_remote_fin].
Qed.

Lemma grows_accept r now stream path off data probe fin s :
  grows r (accept_segment r now stream path off data probe fin s).
Proof.
  unfold accept_segment. destruct (accept_in_order _ _ _ _) as [delivered rcv1]. cbv zeta.
  assert (Hput : ∀ rcv r', grows r r' -> grows r (put_stream stream (with_halves s (sending s) rcv) r')).
  { intros rcv r' Hg. eapply grows_trans; [exact Hg|]. by apply grows_same. }
  assert (H1 : grows r (put_stream stream (with_halves s (sending s) rcv1) r)) by (apply Hput; by apply grows_same).
  set (r1 := put_stream _ _ r) in *. clearbody r1.
  destruct (received_sack _ _ _) as [sack|]; [|done].
  pose proof (grows_trans _ _ _ H1 (grows_emit r1 (send_stream_sack (rs_session r1) stream path (to_wire sack)))) as H2.
  set (r2 := emit _ _) in *. clearbody r2. destruct (negb _); [done|].
  pose proof (grows_trans _ _ _ H2 (grows_deliver delivered stream r2)) as H3.
  set (r3 := Pump.deliver_in_order_run _ _ _) in *. clearbody r3.
  destruct (if probe then _ else _) as [rcv2 r4] eqn:Ep.
  assert (H4 : grows r r4).
  { destruct probe; injection Ep as <- <-; [|done]. eapply grows_trans; [exact H3|]. by apply grows_same. }
  destruct (take_in_order_fin _) as [[] rcv4]; [|by apply Hput].
  eapply grows_trans; [|apply grows_retire_if_done]. eapply grows_trans; [|apply (grows_enqueue _ (DeliverClose stream))].
  by apply Hput.
Qed.

Lemma grows_reliable r now stream path fl pt : grows r (handle_reliable r now stream path fl pt).
Proof.
  unfold handle_reliable. destruct (_ <? _)%nat; [by apply grows_same|]. cbv zeta.
  destruct (rs_streams r !! stream) as [s|]; [apply grows_accept|].
  destruct (classify_unheld_stream _ _ _); [| |by apply grows_same].
  - destruct (_ <=? _); [by apply grows_same|]. eapply grows_trans; [|apply grows_accept].
    unfold admit_stream. destruct (_ <? _); by apply grows_same.
  - unfold answer_retired. set (r1 := match from_inclusive_ranges _ _ with Some _ => _ | None => r end).
    assert (H1 : grows r r1) by (unfold r1; destruct (from_inclusive_ranges _ _); [apply grows_emit | by apply grows_same]).
    clearbody r1. destruct (released_stream_grant _ _ _); [|done]. eapply grows_trans; [exact H1 | apply grows_emit].
Qed.

Lemma grows_unreliable r stream fl pt : grows r (handle_unreliable r stream fl pt).
Proof.
  unfold handle_unreliable. set (r1 := match pt with [] => r | _ => _ end).
  assert (H1 : grows r r1).
  { unfold r1. destruct pt as [|b d]; [by apply grows_same|]. apply (grows_enqueue r (DeliverData stream (b :: d) false)). }
  clearbody r1. destruct (flags_contains fl FIN); [|done]. destruct (rs_streams r1 !! stream) as [s|]; [|done].
  eapply grows_trans; [exact H1|]. eapply grows_trans; [apply grows_remote_fin | apply grows_retire_if_done].
Qed.

Lemma grows_control_frames r now view h pt :
  grows r (if flags_contains (flags h) KEEPALIVE then handle_keepalive r (flags h)
           else if flags_contains (flags h) CONTROL then handle_control r pt
           else if flags_contains (flags h) WINDOW_UPDATE then handle_window_update r (Wire.stream_id h) pt
           else handle_path_validation r view (path_id h) pt) ∧
  grows r (handle_path_arrival r now view (path_id h)).
Proof.
  split.
  - destruct (flags_contains _ KEEPALIVE); [unfold handle_keepalive; destruct (flags_contains _ ACK); [by apply grows_same|apply grows_emit]|].
    destruct (flags_contains _ CONTROL); [unfold handle_control; destruct pt; [|case_match]; by apply grows_same|].
    destruct (flags_contains _ WINDOW_UPDATE).
    { unfold handle_window_update. destruct (negb _); [by apply grows_same|]. destruct (_ !! _); by apply grows_same. }
    unfold handle_path_validation. destruct (negb _); [by apply grows_same|].
    destruct (path_state r _) as [[]|]; try (by apply grows_same); try apply grows_emit.
    destruct (complete_path_validation _ _ _) as [v s]. destruct (v && _); [destruct (_ =? _)|]; by apply grows_same.
  - assert (Hc : ∀ p, grows r (challenge_candidate r now view p)).
    { intros p. unfold challenge_candidate. destruct (begin_path_validation _ _ _) as [[c|] s]; [|by apply grows_same].
      destruct (encrypt_path_validation _ _ _) as [[b|] s2]; by apply grows_same. }
    unfold handle_path_arrival. destruct (bool_decide _), (has_migration_candidate view); try apply Hc; by apply grows_same.
Qed.

(** A packet only appends to the queue, and is charged for exactly what it appends. *)
Lemma handle_packet_grows r now view p : grows r (handle_packet r now view p).
Proof.
  unfold handle_packet. destruct (open_frame _ _ _) as [[pt|] s]; [|by apply grows_same].
  set (r0 := on_authenticated _ _ _). apply (grows_trans _ r0).
  { unfold r0, on_authenticated. destruct (note_migration_path _ _) as [[slide|] c]; [|by apply grows_same].
    destruct (advance_outbound_cid _) as [nc c2]. by apply grows_same. }
  clearbody r0. pose proof (grows_control_frames r0 now view (header p) pt) as [Hctl Harr]. unfold dispatch.
  destruct (flags_contains _ KEEPALIVE); [done|]. destruct (flags_contains _ CONTROL); [done|].
  destruct (flags_contains _ COVER); [by apply grows_same|]. destruct (flags_contains _ ACK); [apply grows_ack|].
  destruct (flags_contains _ WINDOW_UPDATE); [done|]. destruct (flags_contains _ PATH_VALIDATION); [done|].
  eapply grows_trans; [exact Harr|]. destruct (flags_contains _ COALESCED).
  { unfold handle_coalesced. destruct (unwrap_coalesced_packet _) as [[subs|]|]; try (by apply grows_same). apply grows_deliver. }
  destruct (flags_contains _ RELIABLE); [apply grows_reliable | apply grows_unreliable].
Qed.

Lemma pump_step_grows r o : grows r (pump_step r o).
Proof.
  destruct o; cbn [pump_step]; [apply handle_packet_grows|..].
  - unfold open_local_stream. destruct (try_open_local _) as [[] g]; [destruct (open_stream _ _) as [[id|e] d]|]; by apply grows_same.
  - unfold retire_released_stream. destruct (_ <=? _); [|destruct (_ !! _)]; by apply grows_same.
  - unfold update_stream. destruct (_ !! _); by apply grows_same.
Qed.

(** ** The delivery pipeline *)

(** What may happen next, with the items the reader queues and the items task B hands
    to the streams' channels in that step. *)
Inductive delivery_step : Delivery -> list DeliverItem -> list DeliverItem -> Delivery -> Prop :=
| dl_pump d o new :
    queued (d_pump d) (pump_step (d_pump d) o) new ->
    delivery_step d new [] (mk_delivery (pump_step (d_pump d) o) (d_budget d) (d_raw d) (d_raw_hand d) (d_streams d) (d_hand d) (d_recv d))
| dl_route d d' : route_item d = Some d' -> delivery_step d [] [] d'
| dl_raw_take d now d' : raw_take d now = Some d' -> delivery_step d [] [] d'
| dl_raw_over d d' : raw_hand_over d = Some d' -> delivery_step d [] [] d'
| dl_take d now d' : stream_take d now = Some d' -> delivery_step d [] [] d'
| dl_over d item d' : d_hand d = Some item -> stream_hand_over d = Some d' -> delivery_step d [] [item] d'.

Inductive delivery_run (d0 : Delivery) : list DeliverItem -> list DeliverItem -> Delivery -> Prop :=
| dr_start : delivery_run d0 [] [] d0
| dr_more qs hs d q h d' : delivery_run d0 qs hs d -> delivery_step d q h d' -> delivery_run d0 (qs ++ q) (hs ++ h) d'.

Definition delivery_init (s : Session) (is_client : bool) : Delivery :=
  mk_delivery (pump_init s is_client) SESSION_RECV_WINDOW_GROWTH_BUDGET [] None [] None [].

Definition for_stream (item : DeliverItem) : bool :=
  match item with DeliverData id _ _ | DeliverClose id | DeliverRetire id => RAW_APP_STREAM_ID <? id end.
Definition raw_bytes (item : DeliverItem) : option (list Z) :=
  match item with DeliverData id b _ => if RAW_APP_STREAM_ID <? id then None else Some b | _ => None end.

Definition backlog (d : Delivery) : Z :=
  charges (rs_queue (d_pump d)) + sum_Z ((λ x, delivery_charge (len x.1)) <$> d_raw d) + charges (d_streams d).

(** Everything queued is somewhere in the pipeline, in order. *)
Record pipeline (qs hs : list DeliverItem) (d : Delivery) : Prop := {
  pl_streams : filter (λ x, for_stream x) qs =
    hs ++ option_list (d_hand d) ++ d_streams d ++ filter (λ x, for_stream x) (rs_queue (d_pump d));
  pl_raw : omap raw_bytes qs =
    d_recv d ++ option_list (d_raw_hand d) ++ (d_raw d).*1 ++ omap raw_bytes (rs_queue (d_pump d));
  pl_count : same_count (rs_undelivered (d_pump d)) (backlog d);
  pl_width : in_u 64 (rs_undelivered (d_pump d));
}.

Ltac simpl_delivery :=
  cbn [d_pump d_budget d_raw d_raw_hand d_streams d_hand d_recv set_queue set_undelivered release_charge
    set_rs_demux rs_queue rs_undelivered].

Lemma same_count_wrap a b : same_count a b -> same_count (wrap 64 a) b.
Proof. unfold same_count, wrap. intros <-. apply Z.mod_mod. lia. Qed.

Lemma same_count_shift a b c : same_count a b -> same_count (a + c) (b + c).
Proof. unfold same_count. intros E. rewrite (Z.add_mod a), E, <- Z.add_mod by lia. done. Qed.

Lemma same_count_sub a b c : same_count a b -> same_count (a - c) (b - c).
Proof. apply same_count_shift. Qed.

Lemma item_charges_cons x l : charges (x :: l) = item_charge x + charges l.
Proof. done. Qed.

Lemma item_charges_snoc l x : charges (l ++ [x]) = charges l + item_charge x.
Proof. rewrite item_charges_app, item_charges_cons. change (charges []) with 0. lia. Qed.

Lemma credit_frame r budget now stream n rel :
  rs_queue (credit r budget now stream n rel).1 = rs_queue r ∧
  rs_undelivered (credit r budget now stream n rel).1 = rs_undelivered r.
Proof.
  unfold credit. destruct (_ !! _) as [s|]; [|done]. destruct (stream_app_consumed _ _ _ _ _) as [[[l|] s1] b1]; done.
Qed.

Lemma pipeline_pump qs hs d o new :
  pipeline qs hs d -> queued (d_pump d) (pump_step (d_pump d) o) new ->
  pipeline (qs ++ new) hs (mk_delivery (pump_step (d_pump d) o) (d_budget d) (d_raw d) (d_raw_hand d) (d_streams d) (d_hand d) (d_recv d)).
Proof.
  intros [Hs Hr Hc Hw] (Q & C & U). split; simpl_delivery.
  - by rewrite filter_app, Hs, Q, filter_app, <- !app_assoc.
  - by rewrite omap_app, Hr, Q, omap_app, <- !app_assoc.
  - unfold backlog in *. simpl_delivery. rewrite Q, item_charges_app.
    etrans; [exact C|]. etrans; [by apply same_count_shift|]. unfold same_count. f_equal. lia.
  - auto.
Qed.

Lemma filter_hd {A} (P : A -> bool) x l : filter (λ y, P y) (x :: l) = (if P x then [x] else []) ++ filter (λ y, P y) l.
Proof. rewrite filter_cons. destruct (P x); by case_decide. Qed.

Lemma pipeline_route qs hs d d' : pipeline qs hs d -> route_item d = Some d' -> pipeline qs hs d'.
Proof.
  intros [Hs Hr Hc Hw]. unfold route_item. destruct (rs_queue (d_pump d)) as [|item q] eqn:Eq; [done|].
  rewrite filter_hd in Hs. cbn [omap list_omap] in Hr. unfold backlog in Hc. rewrite Eq, item_charges_cons in Hc.
  assert (Hmove : ∀ y, for_stream y = true -> y = item -> raw_bytes item = None ->
    pipeline qs hs (mk_delivery (set_queue (d_pump d) q) (d_budget d) (d_raw d) (d_raw_hand d) (d_streams d ++ [item]) (d_hand d) (d_recv d))).
  { intros y Hf -> Hn. rewrite Hf in Hs. rewrite Hn in Hr. split; simpl_delivery; [|done| |done].
    - by rewrite Hs, <- !app_assoc.
    - etrans; [exact Hc|]. unfold same_count, backlog. simpl_delivery. rewrite item_charges_snoc. f_equal. lia. }
  destruct item as [id b rel|id|id]; intros [= <-].
  - destruct (Z.leb_spec id RAW_APP_STREAM_ID) as [Hle|Hgt].
    + assert (Hf : for_stream (DeliverData id b rel) = false) by (cbn; by apply Z.ltb_ge).
      assert (Hn : raw_bytes (DeliverData id b rel) = Some b) by (cbn in *; by rewrite Hf).
      rewrite Hf in Hs. rewrite Hn in Hr.
      split; simpl_delivery; [done| | |done].
      * by rewrite fmap_app, Hr, <- !app_assoc.
      * etrans; [exact Hc|]. unfold same_count, backlog. simpl_delivery. rewrite fmap_app, sum_Z_app. f_equal. cbn [fmap list_fmap sum_Z foldr item_charge fst]. lia.
    + apply (Hmove (DeliverData id b rel)); [by apply Z.ltb_lt|done|]. cbn. by rewrite (proj2 (Z.ltb_lt _ _) Hgt).
  - destruct (RAW_APP_STREAM_ID <? id) eqn:Hf; [by apply (Hmove (DeliverClose id))|].
    cbn [for_stream] in Hs. rewrite Hf in Hs.
    split; simpl_delivery; [done|done| |apply wrap_in_u; lia].
    apply same_count_wrap. unfold backlog. simpl_delivery.
    etrans; [apply same_count_sub, Hc|]. unfold same_count. f_equal. cbn [item_charge]. lia.
  - destruct (RAW_APP_STREAM_ID <? id) eqn:Hf; [by apply (Hmove (DeliverRetire id))|].
    cbn [for_stream] in Hs. rewrite Hf in Hs. split; simpl_delivery; [done|done| |done].
    etrans; [exact Hc|]. unfold same_count, backlog. simpl_delivery. f_equal; lia.
Qed.

Lemma pipeline_raw qs hs d now d' :
  pipeline qs hs d -> raw_take d now = Some d' ∨ raw_hand_over d = Some d' -> pipeline qs hs d'.
Proof.
  intros [Hs Hr Hc Hw] [E|E].
  - unfold raw_take in E. destruct (d_raw_hand d) eqn:Eh; [done|]. destruct (d_raw d) as [|[b rel] q] eqn:Er; [done|].
    destruct (credit _ _ _ _ _ _) as [r budget] eqn:Ec. injection E as <-.
    pose proof (credit_frame (release_charge (d_pump d) (len b)) (d_budget d) now RAW_APP_STREAM_ID (len b) rel) as [Fq Fu].
    rewrite Ec in Fq, Fu. cbn [fst] in Fq, Fu. cbn [release_charge set_undelivered rs_queue rs_undelivered] in Fq, Fu.
    split; simpl_delivery; rewrite ?Fq, ?Fu; [done|done| |apply wrap_in_u; lia].
    apply same_count_wrap. unfold backlog in *. simpl_delivery. rewrite Fq.
    etrans; [apply same_count_sub, Hc|]. unfold same_count. f_equal.
    rewrite Er, fmap_cons, sum_Z_cons. cbn [fst]. lia.
  - unfold raw_hand_over in E. destruct (d_raw_hand d) as [b|] eqn:Eh; [|done]. injection E as <-.
    split; simpl_delivery; [done| |done|done]. by rewrite Hr, <- app_assoc.
Qed.

Lemma pipeline_take qs hs d now d' : pipeline qs hs d -> stream_take d now = Some d' -> pipeline qs hs d'.
Proof.
  intros [Hs Hr Hc Hw] E. unfold stream_take in E. destruct (d_hand d) eqn:Eh; [done|].
  destruct (d_streams d) as [|item q] eqn:Eq; [done|].
  destruct (match item with DeliverData _ _ _ => _ | DeliverClose _ => _ | DeliverRetire _ => _ end) as [r budget] eqn:Ec.
  injection E as <-. unfold backlog in Hc. rewrite Eq, item_charges_cons in Hc.
  assert (Hf : rs_queue r = rs_queue (d_pump d) ∧ in_u 64 (rs_undelivered r) ∧
               same_count (rs_undelivered r) (rs_undelivered (d_pump d) - item_charge item)).
  { destruct item as [id b rel|id|id].
    - pose proof (credit_frame (release_charge (d_pump d) (len b)) (d_budget d) now id (len b) rel) as [Fq Fu].
      rewrite Ec in Fq, Fu. cbn [fst] in Fq, Fu. rewrite Fq, Fu. split_and!; [done|apply wrap_in_u; lia|]. by apply same_count_wrap.
    - injection Ec as <- <-. split_and!; [done|apply wrap_in_u; lia|]. by apply same_count_wrap.
    - injection Ec as <- <-. split_and!; [done|done|]. unfold same_count. f_equal. cbn. lia. }
  destruct Hf as (Fq & Fw & Fc). split; simpl_delivery; rewrite ?Fq; try done.
  unfold backlog. simpl_delivery. rewrite Fq. etrans; [exact Fc|].
  etrans; [apply same_count_sub, Hc|]. unfold same_count. f_equal. lia.
Qed.

Lemma pipeline_over qs hs d item d' :
  pipeline qs hs d -> d_hand d = Some item -> stream_hand_over d = Some d' -> pipeline qs (hs ++ [item]) d'.
Proof.
  intros [Hs Hr Hc Hw] Eh E. unfold stream_hand_over in E. rewrite Eh in E.
  destruct (match item with DeliverData _ _ _ => _ | DeliverClose _ => _ | DeliverRetire _ => _ end) as [[ok dm]|]; [|done].
  injection E as <-. rewrite Eh in Hs. split; simpl_delivery; try done.
  by rewrite Hs, <- app_assoc.
Qed.

Lemma delivery_run_pipeline s is_client qs hs d :
  delivery_run (delivery_init s is_client) qs hs d -> pipeline qs hs d.
Proof.
  induction 1 as [|qs hs d q h d' _ IH Hstep]; [by split|].
  destruct Hstep; rewrite ?app_nil_r.
  - by apply pipeline_pump.
  - by eapply pipeline_route.
  - eapply pipeline_raw; [done|by left].
  - eapply (pipeline_raw _ _ _ 0); [done|by right].
  - by eapply pipeline_take.
  - by eapply pipeline_over.
Qed.

End Delivery.


(** ** The charge of one frame *)

Section Charge.
Context {ch : Mpsc}.

Lemma deliver_charge run stream : ∀ r new,
  Forall (λ d, d ≠ []) run -> queued r (Pump.deliver_in_order_run run stream r) new ->
  new = (λ d, DeliverData stream d true) <$> run.
Proof.
  assert (Hq : ∀ run r, Forall (λ d, d ≠ []) run ->
    rs_queue (Pump.deliver_in_order_run run stream r) = rs_queue r ++ ((λ d, DeliverData stream d true) <$> run)).
  { clear run. induction run as [|d run IH]; intros r Hne; [by rewrite app_nil_r|]. apply Forall_cons in Hne as [Hd Hne].
    destruct d as [|b d]; [done|]. etrans; [apply (IH (enqueue r _ _)), Hne|]. cbn [enqueue rs_queue fmap list_fmap]. by rewrite <- app_assoc. }
  intros r new Hne (Q & _ & _). rewrite Hq in Q by done. by apply app_inv_head in Q.
Qed.

Lemma bundle_weight (subs : list (list Z)) :
  let ne := filter (λ s, s ≠ []) subs in
  charges ((λ d, DeliverData 0 d true) <$> ne) + 2 * len ne <= len (bundle_body subs) + 128 * len ne ∧
  3 * len ne <= len (bundle_body subs).
Proof.
  induction subs as [|d subs IH]; [done|].
  assert (Eb : len (bundle_body (d :: subs)) = 2 + len d + len (bundle_body subs)).
  { unfold bundle_body, len. rewrite fmap_cons. cbn [concat]. unfold sub_encode at 1. rewrite !length_app, be_encode_length. lia. }
  cbv zeta in *. rewrite Eb. pose proof (len_nonneg d). rewrite filter_cons. case_decide as Hd; [|lia].
  rewrite fmap_cons, item_charges_cons. cbn [item_charge]. unfold delivery_charge, DELIVERY_ITEM_OVERHEAD_BYTES.
  set (ne := filter _ subs) in *. assert (len (d :: ne) = 1 + len ne) as -> by (unfold len; cbn [length]; lia).
  assert (1 <= len d) by (destruct d; [done|unfold len; cbn [length]; lia]). lia.
Qed.

(** A COALESCED frame, however it splits its bundle, adds at most the published
    [MAX_DELIVERY_CHARGE_PER_FRAME] to the backlog. *)
Theorem bundle_charge_bounded (r : RecvState) (h : PacketHeader) (pt : list Z) (new : list DeliverItem) :
  is_bytes pt -> len pt <= MAX_RECV_PAYLOAD -> queued r (handle_coalesced r h pt) new ->
  charges new <= MAX_DELIVERY_CHARGE_PER_FRAME.
Proof.
  intros Hb Hl Hq. unfold handle_coalesced in Hq.
  destruct (unwrap_coalesced_packet (mk_packet h pt [])) as [[subs|]|] eqn:E.
  - apply deliver_charge in Hq; [subst new|apply Forall_forall; by intros d [? _]%list_elem_of_filter].
    apply unwrap_sound in E as [rest E]; [|done]. cbn [payload] in E.
    assert (Hw : 2 + len (bundle_body subs) <= MAX_RECV_PAYLOAD).
    { rewrite E in Hl. unfold bundle, len in *. rewrite !length_app, be_encode_length in Hl. lia. }
    destruct (bundle_weight subs) as [H1 H2]. unfold charges in *.
    replace (item_charge <$> ((λ d, DeliverData (Wire.stream_id h) d true) <$> filter (λ s, s ≠ []) subs))
      with (item_charge <$> ((λ d, DeliverData 0 d true) <$> filter (λ s, s ≠ []) subs)) by (by rewrite <- !list_fmap_compose).
    change MAX_RECV_PAYLOAD with 1304 in Hw. change MAX_DELIVERY_CHARGE_PER_FRAME with 55986. lia.
  - destruct Hq as (Q & _ & _). rewrite <- (app_nil_r (rs_queue r)) in Q at 1. apply app_inv_head in Q as <-. done.
  - destruct Hq as (Q & _ & _). rewrite <- (app_nil_r (rs_queue r)) in Q at 1. apply app_inv_head in Q as <-. done.
Qed.

End Charge.

#[local] Existing Instance list_chan.

(** The client of [toy_ops] takes the segment through the pipeline. *)
Definition toy_d0 : Delivery := delivery_init (toy_pair true false) true.
Definition toy_d1 : Delivery :=
  mk_delivery (pump_step (H := toy_primitives) (d_pump toy_d0) (OpReceive 1 toy_view toy_packet))
    (d_budget toy_d0) [] None [] None [].
Definition toy_d2 : Delivery := default toy_d1 (route_item toy_d1).
Definition toy_d3 : Delivery := default toy_d2 (stream_take toy_d2 5).
Definition toy_d4 : Delivery := default toy_d3 (stream_hand_over toy_d3).


(** Segments of the server's stream 2 at the given offsets, one byte each. *)
Fixpoint toy_segments (s : Session) (offs : list Z) : list PhantomPacket :=
  match offs with
  | [] => []
  | o :: offs' =>
    match @send_app_data toy_primitives s 2 [7] RELIABLE (Some o) with
    | (Some w, s1) =>
      match @parse_protected toy_primitives (toy_pair true false) w with
      | Ok p => p :: toy_segments s1 offs'
      | Err _ => []
      end
    | (None, _) => []
    end
  end.

(** The published figure is not the most one frame can add: a reliable segment that
    closes a gap releases every segment buffered behind it, each charged as an item.
    With 500 one-byte segments waiting, the last one adds 64,629 bytes. *)
Theorem gap_fill_exceeds_published_charge :
  let recv := foldl (λ r p, handle_packet (H := toy_primitives) r 1 toy_view p) toy_client in
  let ps := toy_segments (toy_pair true true) (seqZ 1 500 ++ [0]) in
  rs_undelivered (recv (take 500 ps)) = 0 ∧ rs_undelivered (recv ps) = 64629 ∧ MAX_DELIVERY_CHARGE_PER_FRAME < 64629.
Proof. split_and!; by vm_compute. Qed.
