(* ===== verification/DeliveryEnd.v ===== *)
(** * The end of delivery (the delivery tasks of the data pump once the reader has gone,
      [core/src/api/session.rs])

    The reader ends and with it the channel into the router; the router ends when it has
    emptied it, and the two delivery tasks when they have emptied theirs.  The task of the
    opened streams then drops every route, which is how a stream's reader learns that the
    session is over.  The steps are those of Delivery.v, each while its task runs. *)

From Stdlib Require Import ZArith Lia.
From stdpp Require Import base numbers option gmap list sets relations.
From S2P Require Import Prelude Errors Replay Wire Sack Rto StreamSend StreamRecv Stream Path.
From S2P Require Import Crypto Shaping Cid Datagram Session Coalesce Mux Pump StreamTable Delivery.

Local Open Scope Z_scope.

Section Ending.
Context `{Primitives} {ch : Mpsc}.

(** Which of the tasks still run. *)
Record Ending := mk_ending {
  en_d : Delivery;
  en_reader : bool;
  en_router : bool;
  en_raw : bool;
  en_streams : bool;
}.

Definition on_delivery (e : Ending) (d : Delivery) : Ending := mk_ending d (en_reader e) (en_router e) (en_raw e) (en_streams e).

Definition with_pump (d : Delivery) (r : RecvState) : Delivery :=
  mk_delivery r (d_budget d) (d_raw d) (d_raw_hand d) (d_streams d) (d_hand d) (d_recv d).

(** The last act of the streams' task. *)
Definition close_routes (d : Delivery) : Delivery :=
  with_pump d (set_rs_demux (d_pump d) (close_all_streams (rs_demux (d_pump d)))).

Definition receives_packet (o : pump_op) : bool := match o with OpReceive _ _ _ => true | _ => false end.

(** What may happen next, with what is queued and what is handed to a stream's channel.
    Only the reader queues; the application and the other tasks go on after it. *)
Inductive ending_step (e : Ending) : list DeliverItem -> list DeliverItem -> Ending -> Prop :=
| es_receive o new :
    en_reader e = true -> queued (d_pump (en_d e)) (pump_step (d_pump (en_d e)) o) new ->
    ending_step e new [] (on_delivery e (with_pump (en_d e) (pump_step (d_pump (en_d e)) o)))
| es_local o :
    receives_packet o = false ->
    ending_step e [] [] (on_delivery e (with_pump (en_d e) (pump_step (d_pump (en_d e)) o)))
| es_route d : en_router e = true -> route_item (en_d e) = Some d -> ending_step e [] [] (on_delivery e d)
| es_raw_take now d : en_raw e = true -> raw_take (en_d e) now = Some d -> ending_step e [] [] (on_delivery e d)
| es_raw_over d : en_raw e = true -> raw_hand_over (en_d e) = Some d -> ending_step e [] [] (on_delivery e d)
| es_take now d : en_streams e = true -> stream_take (en_d e) now = Some d -> ending_step e [] [] (on_delivery e d)
| es_over item d :
    en_streams e = true -> d_hand (en_d e) = Some item -> stream_hand_over (en_d e) = Some d ->
    ending_step e [] [item] (on_delivery e d)
| es_reader_ends : ending_step e [] [] (mk_ending (en_d e) false (en_router e) (en_raw e) (en_streams e))
| es_router_ends :
    en_router e = true -> en_reader e = false -> rs_queue (d_pump (en_d e)) = [] ->
    ending_step e [] [] (mk_ending (en_d e) false false (en_raw e) (en_streams e))
| es_raw_ends :
    en_raw e = true -> en_router e = false -> d_raw (en_d e) = [] -> d_raw_hand (en_d e) = None ->
    ending_step e [] [] (mk_ending (en_d e) (en_reader e) false false (en_streams e))
| es_streams_end :
    en_streams e = true -> en_router e = false -> d_streams (en_d e) = [] -> d_hand (en_d e) = None ->
    ending_step e [] [] (mk_ending (close_routes (en_d e)) (en_reader e) false (en_raw e) false).

Inductive ending_run (e0 : Ending) : list DeliverItem -> list DeliverItem -> Ending -> Prop :=
| er_start : ending_run e0 [] [] e0
| er_more qs hs e q h e' : ending_run e0 qs hs e -> ending_step e q h e' -> ending_run e0 (qs ++ q) (hs ++ h) e'.

Definition ending_init (s : Session) (is_client : bool) : Ending :=
  mk_ending (delivery_init s is_client) true true true true.

(** ** Nothing is left behind *)

Record ended_in_order (qs hs : list DeliverItem) (e : Ending) : Prop := {
  eo_pipeline : pipeline qs hs (en_d e);
  eo_router : en_router e = false -> en_reader e = false ∧ rs_queue (d_pump (en_d e)) = [];
  eo_raw : en_raw e = false -> en_router e = false ∧ d_raw (en_d e) = [] ∧ d_raw_hand (en_d e) = None;
  eo_streams : en_streams e = false -> en_router e = false ∧ d_streams (en_d e) = [] ∧ d_hand (en_d e) = None;
}.

Lemma pipeline_same qs hs d r :
  pipeline qs hs d -> rs_queue r = rs_queue (d_pump d) -> rs_undelivered r = rs_undelivered (d_pump d) ->
  pipeline qs hs (with_pump d r).
Proof. intros [H1 H2 H3 H4] E1 E2. split; unfold backlog in *; cbn; rewrite ?E1, ?E2; done. Qed.

(** What a step of one task leaves alone in the others. *)
Lemma route_frame d d' : route_item d = Some d' ->
  rs_queue (d_pump d) ≠ [] ∧ d_hand d' = d_hand d ∧ d_raw_hand d' = d_raw_hand d.
Proof. unfold route_item. destruct (rs_queue (d_pump d)) as [|[] q]; [done|..]; intros [= <-]; try case_test; done. Qed.

Lemma raw_frame d now d' : raw_take d now = Some d' ∨ raw_hand_over d = Some d' ->
  (d_raw d ≠ [] ∨ is_Some (d_raw_hand d)) ∧ d_hand d' = d_hand d ∧ d_streams d' = d_streams d ∧ rs_queue (d_pump d') = rs_queue (d_pump d).
Proof.
  intros [E|E].
  - unfold raw_take in E. destruct (d_raw_hand d); [done|]. destruct (d_raw d) as [|[b rel] q]; [done|].
    destruct (credit _ _ _ _ _ _) as [r bu] eqn:Ec. injection E as <-. split_and!; [by left|done..|].
    pose proof (credit_frame (release_charge (d_pump d) (len b)) (d_budget d) now RAW_APP_STREAM_ID (len b) rel) as [Fq _]. by rewrite Ec in Fq.
  - unfold raw_hand_over in E. destruct (d_raw_hand d) eqn:Eh; [|done]. injection E as <-. split_and!; eauto.
Qed.

Lemma take_frame d now d' : stream_take d now = Some d' ->
  d_streams d ≠ [] ∧ d_hand d = None ∧ d_raw d' = d_raw d ∧ d_raw_hand d' = d_raw_hand d ∧ rs_queue (d_pump d') = rs_queue (d_pump d) ∧
  (∃ item, d_hand d' = Some item ∧ d_streams d = item :: d_streams d').
Proof.
  unfold stream_take. destruct (d_hand d); [done|]. destruct (d_streams d) as [|item q] eqn:Eq; [done|]. intros E.
  destruct (match item with DeliverData _ _ _ => _ | DeliverClose _ => _ | DeliverRetire _ => _ end) as [r bu] eqn:Ec. injection E as <-.
  split_and!; [done..| |by exists item]. cbn. destruct item as [id b rel|id|id]; [|by injection Ec as <- <-..].
  pose proof (credit_frame (release_charge (d_pump d) (len b)) (d_budget d) now id (len b) rel) as [Fq _]. by rewrite Ec in Fq.
Qed.

Lemma over_frame d d' : stream_hand_over d = Some d' ->
  is_Some (d_hand d) ∧ d_hand d' = None ∧ d_streams d' = d_streams d ∧ d_raw d' = d_raw d ∧ d_raw_hand d' = d_raw_hand d ∧ rs_queue (d_pump d') = rs_queue (d_pump d).
Proof.
  unfold stream_hand_over. destruct (d_hand d) as [item|]; [|done].
  destruct (match item with DeliverData _ _ _ => _ | DeliverClose _ => _ | DeliverRetire _ => _ end) as [[ok dm]|]; [|done].
  intros [= <-]. split_and!; eauto.
Qed.

(** Only the reader queues. *)
Lemma local_quiet o r : receives_packet o = false -> queued r (pump_step r o) [].
Proof.
  assert (Hsame : ∀ r', rs_queue r' = rs_queue r -> rs_undelivered r' = rs_undelivered r -> queued r r' []).
  { intros r' E1 E2. split_and!; [by rewrite app_nil_r| |by rewrite E2]. unfold same_count. rewrite E2. f_equal. unfold charges. cbn. lia. }
  intros Ho. apply Hsame; destruct o; try done; cbn.
  all: unfold open_local_stream, retire_released_stream, update_stream; repeat case_match; by simplify_eq.
Qed.

Lemma ending_step_inv qs hs e q h e' : ending_step e q h e' -> ended_in_order qs hs e -> ended_in_order (qs ++ q) (hs ++ h) e'.
Proof.
  intros Hs [I1 I2 I3 I4].
  destruct Hs as [o new Hr Hq|o Ho|d Hr E|now d Hr E|d Hr E|now d Hr E|item d Hr Eh E| |_ Hr Hq|_ Hr H1 H2|_ Hr H1 H2]; rewrite ?app_nil_r.
  - split; cbn; [by apply pipeline_pump| |done..]. intros Hn. destruct (I2 Hn) as [Hf Hz]. congruence.
  - pose proof (local_quiet _ (d_pump (en_d e)) Ho) as Hq. split; cbn; [| |done..].
    + rewrite <- (app_nil_r qs). by apply pipeline_pump.
    + intros Hn. destruct (I2 Hn) as [Hf Hz]. destruct Hq as (Hq & _). by rewrite Hq, Hz.
  - pose proof (route_frame _ _ E) as (Hne & _). split; cbn; [by eapply pipeline_route|..]; try congruence.
    + intros Hn. destruct (I3 Hn). congruence.
    + intros Hn. destruct (I4 Hn). congruence.
  - destruct (raw_frame _ now _ (or_introl E)) as (_ & F1 & F2 & F3). split; cbn; rewrite ?F1, ?F2, ?F3; auto; [|congruence].
    eapply pipeline_raw; [done|by left].
  - destruct (raw_frame _ 0 _ (or_intror E)) as (_ & F1 & F2 & F3). split; cbn; rewrite ?F1, ?F2, ?F3; auto; [|congruence].
    eapply (pipeline_raw _ _ _ 0); [done|by right].
  - destruct (take_frame _ _ _ E) as (_ & _ & F1 & F2 & F3 & _). split; cbn; rewrite ?F1, ?F2, ?F3; auto; [by eapply pipeline_take|congruence].
  - destruct (over_frame _ _ E) as (_ & _ & _ & F1 & F2 & F3). split; cbn; rewrite ?F1, ?F2, ?F3; auto; [by eapply pipeline_over|congruence].
  - split; cbn; auto. intros Hn. by destruct (I2 Hn).
  - split; cbn; auto; intros Hn; [by destruct (I3 Hn)|by destruct (I4 Hn)].
  - split; cbn; auto. intros Hn. by destruct (I4 Hn).
  - split; cbn; auto; [by apply pipeline_same|]. intros Hn. by destruct (I3 Hn).
Qed.

Lemma ending_run_inv s is_client qs hs e : ending_run (ending_init s is_client) qs hs e -> ended_in_order qs hs e.
Proof. induction 1; [split; cbn; try done; by split|]. by eapply ending_step_inv. Qed.
(** ** The tasks finish *)

Lemma run_step e0 qs hs e h e' : ending_run e0 qs hs e -> ending_step e [] h e' -> ending_run e0 qs (hs ++ h) e'.
Proof. intros Hr Hs. rewrite <- (app_nil_r qs). by eapply er_more. Qed.

(** Some run without the reader leads from [e] to [e']. *)
Definition leads (e e' : Ending) : Prop := ∃ hs, ending_run e [] hs e'.

Lemma leads_refl e : leads e e.
Proof. exists []. constructor. Qed.

Lemma leads_step e e' e'' h : leads e e' -> ending_step e' [] h e'' -> leads e e''.
Proof. intros [hs Hr] Hs. exists (hs ++ h). by eapply run_step. Qed.

Lemma leads_trans e e' e'' : leads e e' -> leads e' e'' -> leads e e''.
Proof.
  intros H1 [hs H2]. remember [] as qs eqn:Eq. revert H1 Eq. induction H2 as [|qs hs d q h d' Hr IH Hs]; intros H1 Eq; [done|].
  apply app_nil in Eq as [-> ->]. eapply leads_step; [by apply IH|exact Hs].
Qed.

(** The application keeps taking what its channels hold. *)
Hypothesis channels_drain : ∀ c m, is_Some (send_wait c m).

Lemma router_empties e : en_router e = true ->
  ∃ d, leads e (on_delivery e d) ∧ rs_queue (d_pump d) = [].
Proof.
  intros Hr. remember (length (rs_queue (d_pump (en_d e)))) as n eqn:En. revert e Hr En. induction n as [|n IH]; intros e Hr En.
  { exists (en_d e). split; [destruct e; apply leads_refl|]. by destruct (rs_queue _). }
  assert (∃ d, route_item (en_d e) = Some d ∧ length (rs_queue (d_pump d)) = n) as (d & E & El).
  { unfold route_item. destruct (rs_queue (d_pump (en_d e))) as [|item q]; [done|]. eexists. split; [done|].
    destruct item; try case_test; cbn in *; lia. }
  destruct (IH (on_delivery e d) Hr (eq_sym El)) as (d' & Hl & Hq). exists d'. split; [|done].
  eapply leads_trans; [|exact Hl]. eapply leads_step; [apply leads_refl|by apply es_route].
Qed.

Lemma raw_empties e : en_raw e = true ->
  ∃ d, leads e (on_delivery e d) ∧ d_raw d = [] ∧ d_raw_hand d = None ∧ rs_queue (d_pump d) = rs_queue (d_pump (en_d e)).
Proof.
  intros Hr. remember (length (d_raw (en_d e))) as n eqn:En. revert e Hr En. induction n as [|n IH]; intros e Hr En.
  - destruct (d_raw_hand (en_d e)) as [b|] eqn:Eh.
    + eexists. split; [eapply leads_step; [apply leads_refl|]; apply es_raw_over; [done|]; unfold raw_hand_over; by rewrite Eh|].
      cbn. split_and!; [by destruct (d_raw _)|done..].
    + exists (en_d e). split; [destruct e; apply leads_refl|]. split_and!; [by destruct (d_raw _)|done..].
  - assert (∃ d0, leads e (on_delivery e d0) ∧ d_raw_hand d0 = None ∧ d_raw d0 = d_raw (en_d e) ∧ rs_queue (d_pump d0) = rs_queue (d_pump (en_d e)))
      as (d0 & Hl0 & Eh & Er & Eq).
    { destruct (d_raw_hand (en_d e)) as [b|] eqn:Eh; [|exists (en_d e); split_and!; [destruct e; apply leads_refl|done..]].
      eexists. split; [eapply leads_step; [apply leads_refl|]; apply es_raw_over; [done|]; unfold raw_hand_over; by rewrite Eh|]. done. }
    assert (∃ d1, raw_take d0 0 = Some d1 ∧ length (d_raw d1) = n) as (d1 & E1 & El).
    { unfold raw_take. rewrite Eh, Er. destruct (d_raw (en_d e)) as [|[b rel] q]; [done|]. destruct (credit _ _ _ _ _ _). eexists. split; [done|]. cbn in *. lia. }
    destruct (raw_frame _ 0 _ (or_introl E1)) as (_ & _ & _ & F).
    destruct (IH (on_delivery e d1) Hr (eq_sym El)) as (d' & Hl & ? & ? & Hq). exists d'. split_and!; [|done..|by rewrite Hq, <- Eq, <- F].
    eapply leads_trans; [exact Hl0|]. eapply leads_trans; [|exact Hl]. eapply leads_step; [apply leads_refl|]. by eapply (es_raw_take (on_delivery e d0)).
Qed.

Lemma hand_over_works d item : d_hand d = Some item -> ∃ d', stream_hand_over d = Some d'.
Proof.
  intros Eh. unfold stream_hand_over. rewrite Eh. destruct item as [id b rel|id|id]; [| |by eexists];
    unfold route_data_async, route_close_async, route_message_async; (case_test; [|destruct (routes _ !! id) as [c|]; [|by eexists]]); try (by eexists);
    (destruct (channels_drain (control (rs_demux (d_pump d))) (MsgData b)) as [[ok r] ->] || destruct (channels_drain c (MsgData b)) as [[ok r] ->]
     || destruct (channels_drain c MsgClose) as [[ok r] ->]); by eexists.
Qed.

Lemma streams_empty e : en_streams e = true ->
  ∃ d, leads e (on_delivery e d) ∧ d_streams d = [] ∧ d_hand d = None ∧ rs_queue (d_pump d) = rs_queue (d_pump (en_d e)) ∧
    d_raw d = d_raw (en_d e) ∧ d_raw_hand d = d_raw_hand (en_d e).
Proof.
  intros Hr. remember (length (d_streams (en_d e))) as n eqn:En. revert e Hr En. induction n as [|n IH]; intros e Hr En.
  all: assert (∃ d0, leads e (on_delivery e d0) ∧ d_hand d0 = None ∧ d_streams d0 = d_streams (en_d e) ∧ rs_queue (d_pump d0) = rs_queue (d_pump (en_d e)) ∧
      d_raw d0 = d_raw (en_d e) ∧ d_raw_hand d0 = d_raw_hand (en_d e)) as (d0 & Hl0 & Eh & Es & Eq & Er & Erh).
  1, 3: destruct (d_hand (en_d e)) as [item|] eqn:Eh; [|exists (en_d e); split_and!; [destruct e; apply leads_refl|done..]];
    destruct (hand_over_works _ _ Eh) as [d0 E0]; exists d0; destruct (over_frame _ _ E0) as (_ & ? & ? & ? & ? & ?); split_and!; try done;
    eapply leads_step; [apply leads_refl|by eapply es_over].
  - exists d0. split_and!; try done. rewrite Es. by destruct (d_streams _).
  - assert (∃ d1, stream_take d0 0 = Some d1) as [d1 E1].
    { unfold stream_take. rewrite Eh, Es. destruct (d_streams (en_d e)) as [|item q]; [done|]. destruct (match item with DeliverData _ _ _ => _ | DeliverClose _ => _ | DeliverRetire _ => _ end). by eexists. }
    destruct (take_frame _ _ _ E1) as (_ & _ & F1 & F2 & F3 & item & _ & F4).
    destruct (IH (on_delivery e d1) Hr) as (d' & Hl & ? & ? & G1 & G2 & G3); [cbn; rewrite Es in F4; rewrite F4 in En; cbn in En; lia|].
    cbn in G1, G2, G3. exists d'. split_and!; try done; [|congruence..].
    eapply leads_trans; [exact Hl0|]. eapply leads_trans; [|exact Hl]. eapply leads_step; [apply leads_refl|]. by eapply (es_take (on_delivery e d0)).
Qed.
Lemma run_leads e0 qs hs e e' : ending_run e0 qs hs e -> leads e e' -> ∃ hs', ending_run e0 qs (hs ++ hs') e'.
Proof.
  intros Hr [h H2]. exists h. remember [] as q0 eqn:Eq. revert Eq. induction H2 as [|q1 h1 d q h d' H1 IH Hs]; intros Eq; [by rewrite app_nil_r|].
  apply app_nil in Eq as [-> ->]. rewrite app_assoc. eapply run_step; [by apply IH|exact Hs].
Qed.

Lemma router_ends qs hs e : ended_in_order qs hs e -> en_reader e = false ->
  ∃ d, leads e (mk_ending d false false (en_raw e) (en_streams e)) ∧ rs_queue (d_pump d) = [].
Proof.
  intros [_ I2 _ _] Hf. destruct (en_router e) eqn:Er.
  - destruct (router_empties e Er) as (d & Hl & Hq). exists d. split; [|done].
    eapply leads_step; [exact Hl|]. by apply (es_router_ends (on_delivery e d)).
  - destruct (I2 eq_refl) as [_ Hq]. exists (en_d e). split; [|done]. destruct e; cbn in *; subst. apply leads_refl.
Qed.

Lemma tasks_end d a b : ∃ d', leads (mk_ending d false false a b) (mk_ending d' false false false false).
Proof.
  assert (∃ d1, leads (mk_ending d false false a b) (mk_ending d1 false false false b)) as (d1 & Hl).
  { destruct a; [|exists d; apply leads_refl]. destruct (raw_empties (mk_ending d false false true b) eq_refl) as (d1 & Hl & E1 & E2 & _).
    exists d1. eapply leads_step; [exact Hl|]. by apply (es_raw_ends (mk_ending d1 false false true b)). }
  destruct b; [|by exists d1]. destruct (streams_empty (mk_ending d1 false false false true) eq_refl) as (d2 & Hl2 & E1 & E2 & _).
  eexists. eapply leads_trans; [exact Hl|]. eapply leads_step; [exact Hl2|]. by apply (es_streams_end (mk_ending d2 false false false true)).
Qed.

(** ** A route opened when the tasks have gone *)

(** The route of a stream in the table, empty, and nothing left that would close it. *)
Definition orphaned (id : Z) (c : chan) (e : Ending) : Prop :=
  en_reader e = false ∧ en_router e = false ∧ en_raw e = false ∧ en_streams e = false ∧
  routes (rs_demux (d_pump (en_d e))) !! id = Some c ∧ id < next_stream_id (rs_demux (d_pump (en_d e))) ∧ 0 <= id_step (rs_demux (d_pump (en_d e))).

Lemma orphaned_step id c e q h e' :
  ending_step e q h e' -> is_Some (rs_streams (d_pump (en_d e')) !! id) -> orphaned id c e -> orphaned id c e'.
Proof.
  intros Hs Hin (H1 & H2 & H3 & H4 & H5 & H6 & H7). destruct Hs as [| o Ho | | | | | | | | | ]; try congruence; unfold orphaned; [|done].
  split_and!; try done; destruct o as [|  |i|i f]; try done; cbn in *.
  all: unfold open_local_stream, open_stream, retire_released_stream, update_stream in *; repeat case_match; simplify_eq; cbn in *; try done; try lia.
  all: try (rewrite lookup_insert_ne by lia; done).
  all: destruct (decide (i = id)) as [->|]; [rewrite lookup_delete_eq in Hin; by destruct Hin|by rewrite lookup_delete_ne].
Qed.
End Ending.

(** ** Properties *)


(** A channel whose reader keeps up. *)
Definition open_chan : Mpsc := {|
  chan := list StreamMessage;
  chan_new := λ _, [];
  try_send := λ c m, (true, c ++ [m]);
  send_wait := λ c m, Some (true, c ++ [m]);
|}.

#[local] Existing Instance open_chan.

Definition toy_start : Ending := ending_init (toy_pair true false) true.

(** The packet of [toy_ops] has arrived, and the reader has gone. *)
Definition toy_ending : Ending :=
  mk_ending (with_pump (en_d toy_start) (pump_step (H := toy_primitives) (d_pump (en_d toy_start)) (OpReceive 1 toy_view toy_packet))) false true true true.


(** A session whose tasks have ended. *)
Definition toy_over : Ending := mk_ending (close_routes (en_d toy_start)) false false false false.

(** [open_stream] on a session that is over succeeds, and its route is made after the last
    task that would drop it: as long as the stream is in the table, nothing arrives on it
    and nothing ends it, so [recv] on the new handle waits for ever. *)
Theorem late_stream_never_ends :
  let e := on_delivery toy_over (with_pump (en_d toy_over) (pump_step (H := toy_primitives) (d_pump (en_d toy_over)) OpOpen)) in
  ending_run (H := toy_primitives) toy_start [] [] e ∧
  (open_local_stream (d_pump (en_d toy_over))).1 = Ok 3 ∧
  ∀ e', rtc (λ a b, (∃ q h, ending_step (H := toy_primitives) a q h b) ∧ is_Some (rs_streams (d_pump (en_d b)) !! 3)) e e' ->
    routes (rs_demux (d_pump (en_d e'))) !! 3 = Some [].
Proof.
  cbv zeta. split_and!.
  - apply (er_more _ [] [] toy_over [] []); [|by apply es_local].
    apply (er_more _ [] [] (mk_ending (en_d toy_start) false false false true) [] []); [|by apply (es_streams_end (mk_ending (en_d toy_start) false false false true))].
    apply (er_more _ [] [] (mk_ending (en_d toy_start) false false true true) [] []); [|by apply (es_raw_ends (mk_ending (en_d toy_start) false false true true))].
    apply (er_more _ [] [] (mk_ending (en_d toy_start) false true true true) [] []); [|by apply (es_router_ends (mk_ending (en_d toy_start) false true true true))].
    apply (er_more _ [] [] toy_start [] []); [constructor|apply es_reader_ends].
  - vm_compute. reflexivity.
  - intros e' Hs. assert (orphaned 3 [] e') as (_ & _ & _ & _ & ? & _); [|done].
    assert (H0 : orphaned 3 [] (on_delivery toy_over (with_pump (en_d toy_over) (pump_step (H := toy_primitives) (d_pump (en_d toy_over)) OpOpen))))
      by (split_and!; vm_compute; done).
    revert H0 Hs. generalize (on_delivery toy_over (with_pump (en_d toy_over) (pump_step (H := toy_primitives) (d_pump (en_d toy_over)) OpOpen))).
    induction 2 as [|x y z [(q & h & Hxy) Hin] _ IH]; [done|]. apply IH. by eapply orphaned_step.
Qed.
