(* ===== verification/Pacer.v ===== *)
(** * The token-bucket pacer ([core/src/transport/pacer.rs])

    Credit accrues at [rate_bps] bytes a second up to a burst allowance, a send debits
    what it put on the wire, and a sender without credit waits.  The clock [now] is in
    nanoseconds.  The pump is the only user, so each read-modify-write loop on the
    atomic is one step. *)

From Stdlib Require Import ZArith Lia.
From stdpp Require Import base numbers option list.
From S2P Require Import Prelude.

Local Open Scope Z_scope.

Definition MIN_PACING_RATE : Z := 1024.
Definition BURST_INTERVAL : Z := 4000000.
Definition MIN_BURST_BYTES : Z := 16 * 1024.
Definition MAX_BURST_BYTES : Z := 512 * 1024.
Definition NANOS : Z := 1000000000.

Record Pacer := mk_pacer {
  tokens : Z;
  rate_bps : Z;
  last_refill_ns : Z;
  enabled : bool;
  pacer_epoch : Z;
}.

Definition set_tokens (p : Pacer) (v : Z) : Pacer :=
  mk_pacer v (rate_bps p) (last_refill_ns p) (enabled p) (pacer_epoch p).
Definition set_last_refill (p : Pacer) (v : Z) : Pacer :=
  mk_pacer (tokens p) (rate_bps p) v (enabled p) (pacer_epoch p).
Definition set_enabled_flag (p : Pacer) (b : bool) : Pacer :=
  mk_pacer (tokens p) (rate_bps p) (last_refill_ns p) b (pacer_epoch p).

Definition burst_for (rate : Z) : Z :=
  clamp (to_i64 (sat_mul 128 rate BURST_INTERVAL / NANOS)) MIN_BURST_BYTES MAX_BURST_BYTES.

Definition pacer_new (now initial_rate_bps : Z) : Pacer :=
  let rate := Z.max initial_rate_bps MIN_PACING_RATE in
  mk_pacer (burst_for rate) rate 0 true now.

Definition unlimited (now : Z) : Pacer := set_enabled_flag (pacer_new now (u_max 64)) false.

Definition burst_bytes (p : Pacer) : Z := burst_for (rate_bps p).

(** Nanoseconds since the pacer was made, as the [u64] the mark is kept in. *)
Definition now_ns (p : Pacer) (now : Z) : Z := Z.min (sat_sub now (pacer_epoch p)) (u_max 64).

Definition refill_tokens (p : Pacer) (now : Z) : Pacer :=
  let elapsed_ns := sat_sub (now_ns p now) (last_refill_ns p) in
  if elapsed_ns =? 0 then p
  else
    let credit := sat_mul 128 (rate_bps p) elapsed_ns / NANOS in
    if credit =? 0 then p
    else set_last_refill (set_tokens p (Z.min (sat_i64 (tokens p + to_i64 credit)) (burst_for (rate_bps p))))
           (now_ns p now).

Definition can_send (p : Pacer) (now : Z) : bool * Pacer :=
  if negb (enabled p) then (true, p)
  else let p1 := refill_tokens p now in (0 <? tokens p1, p1).

Definition consume (p : Pacer) (bytes : Z) : Pacer :=
  if negb (enabled p) then p else set_tokens p (sat_i64 (tokens p - to_i64 bytes)).

Definition wait_for (p : Pacer) (deficit : Z) : Z :=
  Z.min (sat_mul 128 deficit NANOS / Z.max (rate_bps p) 1) (u_max 64).

Definition time_until_credit (p : Pacer) (now : Z) : Z * Pacer :=
  if negb (enabled p) then (0, p)
  else
    let p1 := refill_tokens p now in
    if 0 <? tokens p1 then (0, p1) else (wait_for p1 (sat_i64 (1 - tokens p1)), p1).

Definition try_consume (p : Pacer) (now bytes : Z) : bool * Pacer :=
  if negb (enabled p) then (true, p)
  else
    let p1 := refill_tokens p now in
    let want := to_i64 bytes in
    if tokens p1 <? want then (false, p1) else (true, set_tokens p1 (tokens p1 - want)).

Definition time_until_available (p : Pacer) (now bytes : Z) : Z * Pacer :=
  if negb (enabled p) then (0, p)
  else
    let p1 := refill_tokens p now in
    let want := to_i64 bytes in
    if want <=? tokens p1 then (0, p1) else (wait_for p1 (sat_i64 (want - tokens p1)), p1).

Definition set_rate (p : Pacer) (rate : Z) : Pacer :=
  let r := Z.max rate MIN_PACING_RATE in
  mk_pacer (Z.min (tokens p) (burst_for r)) r (last_refill_ns p) (enabled p) (pacer_epoch p).

Definition set_enabled (p : Pacer) (now : Z) (b : bool) : Pacer :=
  let p1 := if b then set_last_refill (set_tokens p (clamp (tokens p) 0 (burst_for (rate_bps p)))) (now_ns p now)
            else p in
  set_enabled_flag p1 b.

Definition available_tokens (p : Pacer) (now : Z) : Z * Pacer :=
  let p1 := refill_tokens p now in (Z.max (tokens p1) 0, p1).

(** ** Invariant *)

Record wf_pacer (p : Pacer) : Prop := {
  wp_rate : MIN_PACING_RATE <= rate_bps p <= u_max 64;
  wp_tokens : - 2 ^ 62 <= tokens p <= burst_for (rate_bps p);
  wp_mark : in_u 64 (last_refill_ns p);
}.

Lemma burst_range r : MIN_BURST_BYTES <= burst_for r <= MAX_BURST_BYTES.
Proof. by apply clamp_bounds. Qed.

Lemma burst_mono r r' : r <= r' -> burst_for r <= burst_for r'.
Proof.
  intros Hr. unfold burst_for, clamp, to_i64, sat_mul.
  assert (Z.min (r * BURST_INTERVAL) (u_max 128) / NANOS <= Z.min (r' * BURST_INTERVAL) (u_max 128) / NANOS);
    [|lia]. apply Z.div_le_mono; [done|]. unfold BURST_INTERVAL. lia.
Qed.

(** The refill in closed form: no saturation is reached below the cap. *)
Lemma refill_spec p now :
  wf_pacer p ->
  let elapsed := sat_sub (now_ns p now) (last_refill_ns p) in
  let credit := rate_bps p * elapsed / NANOS in
  refill_tokens p now =
    if credit =? 0 then p
    else mk_pacer (Z.min (tokens p + credit) (burst_for (rate_bps p))) (rate_bps p) (now_ns p now) (enabled p) (pacer_epoch p).
Proof.
  intros [Hr Ht Hm]. cbv zeta. unfold refill_tokens. set (e := sat_sub _ _).
  assert (He : 0 <= e <= u_max 64).
  { unfold e, now_ns, sat_sub, in_u, u_max in *. lia. }
  destruct (Z.eqb_spec e 0) as [->|Hne]; [by rewrite Z.mul_0_r|].
  assert (Hm128 : sat_mul 128 (rate_bps p) e = rate_bps p * e).
  { unfold sat_mul. apply Z.min_l. unfold MIN_PACING_RATE, u_max in *.
    transitivity ((2 ^ 64 - 1) * (2 ^ 64 - 1)); [|done]. apply Z.mul_le_mono_nonneg; lia. }
  rewrite Hm128. destruct (Z.eqb_spec (rate_bps p * e / NANOS) 0) as [|Hc]; [done|].
  assert (0 <= rate_bps p * e / NANOS) by (apply Z.div_pos; [unfold MIN_PACING_RATE in *; nia|done]).
  pose proof (burst_range (rate_bps p)) as Hb. unfold MIN_BURST_BYTES, MAX_BURST_BYTES in Hb.
  generalize dependent (rate_bps p * e / NANOS). intros credit Hc Hc0.
  unfold set_last_refill, set_tokens. cbn [tokens rate_bps enabled pacer_epoch]. f_equal.
  unfold sat_i64, to_i64, i64_max. lia.
Qed.

Lemma now_ns_range p now : in_u 64 (now_ns p now).
Proof. unfold now_ns, sat_sub, in_u, u_max. lia. Qed.

Lemma refill_wf p now : wf_pacer p -> wf_pacer (refill_tokens p now).
Proof.
  intros Hwf. rewrite refill_spec by done. cbv zeta. destruct (_ =? 0) eqn:E; [done|].
  destruct Hwf as [Hr Ht Hm]. pose proof (burst_range (rate_bps p)) as Hb. unfold MIN_BURST_BYTES, MAX_BURST_BYTES in Hb.
  assert (0 <= rate_bps p * sat_sub (now_ns p now) (last_refill_ns p) / NANOS).
  { apply Z.div_pos; [|done]. unfold MIN_PACING_RATE, sat_sub in *. nia. }
  split; cbn; [done|lia|apply now_ns_range].
Qed.

(** One turn of the send loop: ask, and if there is credit put [n] bytes on the wire. *)
Definition paced_send (p : Pacer) (now n : Z) : Z * Pacer :=
  let '(ok, p1) := can_send p now in if ok then (n, consume p1 n) else (0, p1).

Fixpoint paced_run (p : Pacer) (turns : list (Z * Z)) : Z * Pacer :=
  match turns with
  | [] => (0, p)
  | (now, n) :: turns' =>
    let '(sent, p1) := paced_send p now n in
    let '(rest, p2) := paced_run p1 turns' in (sent + rest, p2)
  end.

(** The books of one turn: bytes sent are paid from the credit, which grew at the rate. *)
Lemma paced_send_books p now n M :
  wf_pacer p -> enabled p = true -> 0 <= n <= M -> M <= 2 ^ 32 -> - M < tokens p ->
  let '(sent, p') := paced_send p now n in
  wf_pacer p' ∧ enabled p' = true ∧ rate_bps p' = rate_bps p ∧ pacer_epoch p' = pacer_epoch p ∧ - M < tokens p' ∧
  last_refill_ns p <= last_refill_ns p' <= Z.max (last_refill_ns p) (now_ns p now) ∧
  (sent + tokens p' - tokens p) * NANOS <= rate_bps p * (last_refill_ns p' - last_refill_ns p).
Proof.
  intros Hwf He Hn HM Ht. unfold paced_send, can_send. rewrite He. cbn [negb].
  pose proof (refill_wf p now Hwf) as Hwf1. rewrite refill_spec in * by done. cbv zeta in *.
  set (e := sat_sub _ _) in *. assert (Hee : e = 0 ∨ e = now_ns p now - last_refill_ns p ∧ 0 < e) by (unfold e, sat_sub; lia).
  assert (Hr : 0 < rate_bps p) by (destruct Hwf as [[] _ _]; unfold MIN_PACING_RATE in *; lia).
  pose proof (Z.mul_div_le (rate_bps p * e) NANOS ltac:(done)) as Hdiv. set (credit := rate_bps p * e / NANOS) in *.
  assert (0 <= credit) by (apply Z.div_pos; [nia|done]).
  set (p1 := if credit =? 0 then p else _) in *.
  assert (Hp1 : enabled p1 = true ∧ rate_bps p1 = rate_bps p ∧ pacer_epoch p1 = pacer_epoch p ∧ - M < tokens p1 ∧
     tokens p1 <= tokens p + credit ∧
     last_refill_ns p1 = if credit =? 0 then last_refill_ns p else now_ns p now).
  { pose proof (burst_range (rate_bps p)) as Hb. unfold MIN_BURST_BYTES in Hb.
    unfold p1. destruct (credit =? 0); cbn; split_and!; try done; lia. }
  destruct Hp1 as (E1 & E2 & E3 & E4 & E5 & E6).
  assert (Hmark : last_refill_ns p <= last_refill_ns p1 <= Z.max (last_refill_ns p) (now_ns p now) ∧
                  credit * NANOS <= rate_bps p * (last_refill_ns p1 - last_refill_ns p)).
  { rewrite E6. destruct (Z.eqb_spec credit 0) as [H0|Hc]; [lia|]. destruct Hee as [Hz|[Hz Hpos]].
    - unfold credit in Hc. rewrite Hz, Z.mul_0_r in Hc. done.
    - rewrite <- Hz. split; [lia|]. lia. }
  destruct Hmark as [Hmark Hgain].
  assert (Hgain' : ∀ k, (k + (tokens p1 - k) - tokens p) * NANOS <= rate_bps p * (last_refill_ns p1 - last_refill_ns p)).
  { intros k. unfold NANOS in *. lia. }
  destruct (Z.ltb_spec 0 (tokens p1)) as [Hpos|Hneg].
  - unfold consume. rewrite E1. cbn [negb]. destruct Hwf1 as [W1 W2 W3].
    pose proof (burst_range (rate_bps p1)) as Hb. unfold MAX_BURST_BYTES in Hb.
    assert (Hs : sat_i64 (tokens p1 - to_i64 n) = tokens p1 - n) by (unfold sat_i64, to_i64, i64_max; lia).
    rewrite Hs. cbn [set_tokens tokens enabled rate_bps pacer_epoch last_refill_ns].
    split_and!; try done; try lia. split; cbn; [done|lia|done].
  - split_and!; try done; try lia. specialize (Hgain' 0). by rewrite Z.sub_0_r in Hgain'.
Qed.

Lemma paced_run_books turns : ∀ p M,
  wf_pacer p -> enabled p = true -> M <= 2 ^ 32 -> - M < tokens p -> Forall (λ t, 0 <= t.2 <= M) turns ->
  let '(sent, p') := paced_run p turns in
  wf_pacer p' ∧ enabled p' = true ∧ rate_bps p' = rate_bps p ∧ - M < tokens p' ∧
  last_refill_ns p <= last_refill_ns p' <= foldr Z.max (last_refill_ns p) ((λ t, now_ns p t.1) <$> turns) ∧
  (sent + tokens p' - tokens p) * NANOS <= rate_bps p * (last_refill_ns p' - last_refill_ns p).
Proof.
  induction turns as [|[now n] turns IH]; intros p M Hwf He HM Ht HF; cbn [paced_run].
  { split_and!; try done; cbn; lia. }
  apply Forall_cons in HF as [Hn HF]. pose proof (paced_send_books p now n M Hwf He Hn HM Ht) as Hb.
  destruct (paced_send p now n) as [sent p1]. destruct Hb as (W1 & E1 & R1 & C1 & T1 & L1 & B1).
  specialize (IH p1 M W1 E1 HM T1 HF). destruct (paced_run p1 turns) as [rest p2].
  destruct IH as (W2 & E2 & R2 & T2 & L2 & B2). rewrite R1 in *.
  assert (Hn' : ∀ t, now_ns p1 t = now_ns p t) by (intros t; unfold now_ns; by rewrite C1).
  rewrite (list_fmap_ext (λ t, now_ns p1 t.1) (λ t, now_ns p t.1)) in L2 by (intros; apply Hn').
  split_and!; try done; [lia| |unfold NANOS in *; lia]. rewrite fmap_cons. cbn [foldr fst].
  assert (Hmax : ∀ l a b c, a <= Z.max b c -> foldr Z.max a l <= Z.max c (foldr Z.max b l)).
  { clear. induction l as [|x l IH]; intros a b c Hab; cbn; [lia|]. specialize (IH a b c Hab). lia. }
  etrans; [apply L2|]. apply Hmax. lia.
Qed.

Lemma foldr_max_bound b l : ∀ a, a <= b -> Forall (λ x, x <= b) l -> foldr Z.max a l <= b.
Proof. induction 2; cbn; lia. Qed.

(** ** Properties *)

(** The pacer is a rate limiter: whenever the send loop asks and however large the
    segments it puts on the wire (at most [M] bytes each), what leaves up to the time
    [t] is at most the burst allowance, one segment, and the rate times the time since
    the last refill. *)
Theorem pacing_bounds_rate (p : Pacer) (turns : list (Z * Z)) (M t : Z) :
  wf_pacer p -> enabled p = true -> M <= 2 ^ 32 -> - M < tokens p ->
  Forall (λ x, x.1 <= t ∧ 0 <= x.2 <= M) turns -> last_refill_ns p <= now_ns p t ->
  ((paced_run p turns).1 - burst_bytes p - M) * NANOS <= rate_bps p * (now_ns p t - last_refill_ns p).
Proof.
  intros Hwf He HM Ht HF Hlast. pose proof (paced_run_books turns p M Hwf He HM Ht) as Hb.
  destruct (paced_run p turns) as [sent p']. cbn [fst].
  destruct Hb as (_ & _ & _ & T & L & B); [by eapply Forall_impl; [exact HF|intros ? []]|].
  assert (Hup : last_refill_ns p' <= now_ns p t).
  { etrans; [apply L|]. apply foldr_max_bound; [done|]. apply Forall_fmap. eapply Forall_impl; [exact HF|].
    intros x [Hx _]. unfold now_ns, sat_sub. cbn. lia. }
  destruct Hwf as [Hr Htk _]. unfold burst_bytes, MIN_PACING_RATE, NANOS in *. nia.
Qed.

Lemma pacing_bounds_rate_witness :
  let p := mk_pacer 2000 2000000 0 true 0 in
  (paced_run p [(10, 1200); (20, 1200); (30, 1200); (1000000, 1200)]).1 = 3600 ∧
  (3600 - burst_bytes p - 1200) * NANOS <= 2000000 * 1000000.
Proof.
  split; [vm_compute; reflexivity|].
  apply (pacing_bounds_rate (mk_pacer 2000 2000000 0 true 0) [(10, 1200); (20, 1200); (30, 1200); (1000000, 1200)] 1200 1000000).
  - split; vm_compute; split; congruence.
  - reflexivity.
  - vm_compute. congruence.
  - reflexivity.
  - repeat (apply Forall_cons; split; [vm_compute; split_and!; congruence|]). apply Forall_nil_2.
  - vm_compute. congruence.
Defined.

(** A refused sender that waits as long as [time_until_credit] says, and one nanosecond
    for the rounding, is admitted. *)
Theorem pacing_wait_suffices (p : Pacer) (now : Z) :
  wf_pacer p -> enabled p = true -> pacer_epoch p <= now -> last_refill_ns p <= now_ns p now ->
  let '(d, p1) := time_until_credit p now in
  now + d + 1 - pacer_epoch p <= u_max 64 -> d < u_max 64 -> (can_send p1 (now + d + 1)).1 = true.
Proof.
  intros Hwf He Hep Hmark. unfold time_until_credit. rewrite He. cbn [negb].
  pose proof (refill_wf p now Hwf) as Hwf1.
  assert (Hm1 : enabled (refill_tokens p now) = true ∧ pacer_epoch (refill_tokens p now) = pacer_epoch p ∧
                last_refill_ns (refill_tokens p now) <= now_ns p now).
  { rewrite refill_spec by done. cbv zeta. destruct (_ =? 0); cbn; split_and!; try done; lia. }
  destruct Hm1 as (E1 & P1 & M1). set (p1 := refill_tokens p now) in *. clearbody p1.
  pose proof (burst_range (rate_bps p1)) as Hb. unfold MIN_BURST_BYTES, MAX_BURST_BYTES in Hb.
  pose proof Hwf1 as [Hr Ht _]. unfold MIN_PACING_RATE in Hr.
  assert (Hcan : ∀ k, 0 < k + 1 -> k + 1 <= now_ns p1 (now + k + 1) - last_refill_ns p1 ->
                      0 < tokens p1 ∨ NANOS * (1 - tokens p1) <= rate_bps p1 * (k + 1) ->
                      (can_send p1 (now + k + 1)).1 = true).
  { intros k Hk Hel Hgot. unfold can_send. rewrite E1. cbn [negb fst]. apply Z.ltb_lt. rewrite refill_spec by done. cbv zeta.
    set (e := sat_sub _ _). assert (k + 1 <= e) by (unfold e, sat_sub; lia).
    assert (0 <= rate_bps p1 * e / NANOS) by (apply Z.div_pos; [nia|done]).
    assert (Hq : 0 < tokens p1 ∨ 1 - tokens p1 <= rate_bps p1 * e / NANOS).
    { destruct Hgot as [|Hgot]; [by left|right]. apply Z.div_le_lower_bound; [done|]. nia. }
    destruct (Z.eqb_spec (rate_bps p1 * e / NANOS) 0); cbn [tokens]; lia. }
  assert (Hnow : ∀ k, 0 <= k -> now + k + 1 - pacer_epoch p <= u_max 64 -> k + 1 <= now_ns p1 (now + k + 1) - last_refill_ns p1).
  { intros k Hk Hlim. unfold now_ns, sat_sub in *. rewrite P1. lia. }
  destruct (Z.ltb_spec 0 (tokens p1)) as [Hpos|Hneg]; intros Hlim Hd.
  - apply Hcan; [lia|by apply Hnow|by left].
  - assert (Es : sat_i64 (1 - tokens p1) = 1 - tokens p1) by (unfold sat_i64, i64_max; lia).
    unfold wait_for in *. rewrite Es, (Z.max_l (rate_bps p1)) in * by lia.
    assert (Em : sat_mul 128 (1 - tokens p1) NANOS = (1 - tokens p1) * NANOS) by (unfold sat_mul, NANOS, u_max; lia).
    rewrite Em in *. set (D := (1 - tokens p1) * NANOS) in *.
    rewrite Z.min_l in * by lia.
    pose proof (Z.mul_succ_div_gt D (rate_bps p1) ltac:(lia)).
    assert (0 <= D / rate_bps p1) by (apply Z.div_pos; unfold D, NANOS; lia).
    apply Hcan; [lia|by apply Hnow|right; unfold D in *; lia].
Qed.

(** A sender 99 bytes in debt at 3,000 bytes a second is told to wait 33,333,333 ns; it
    is still refused then, and admitted a nanosecond later. *)
Lemma pacing_wait_suffices_witness :
  let p := mk_pacer (-99) 3000 0 true 0 in
  (time_until_credit p 0).1 = 33333333 ∧ (can_send p 33333333).1 = false ∧ (can_send p 33333334).1 = true.
Proof.
  split; [vm_compute; reflexivity|]. split; [vm_compute; reflexivity|].
  apply (pacing_wait_suffices (mk_pacer (-99) 3000 0 true 0) 0); try (vm_compute; congruence).
  split; vm_compute; split; congruence.
Defined.

(** Each refill that credits anything moves the mark to the present and drops the
    fraction of a byte.  At the minimum rate, asked every 1.95 ms, the bucket gains one
    byte where the rate gives 1.9968, so the sender runs at about half of it. *)
Theorem refill_rounding_loses_rate (p : Pacer) (n : nat) :
  wf_pacer p -> enabled p = true -> rate_bps p = MIN_PACING_RATE -> pacer_epoch p = 0 ->
  tokens p + Z.of_nat n <= burst_bytes p -> last_refill_ns p + 1950000 * Z.of_nat n <= u_max 64 ->
  let p' := foldl (λ q i, (can_send q (last_refill_ns p + 1950000 * (i + 1))).2) p (seqZ 0 (Z.of_nat n)) in
  tokens p' = tokens p + Z.of_nat n ∧
  rate_bps p * (last_refill_ns p' - last_refill_ns p) = 1996800000 * Z.of_nat n.
Proof.
  intros Hwf He Hr Hep Hcap Hlim. cbv zeta.
  assert (Hrun : foldl (λ q i, (can_send q (last_refill_ns p + 1950000 * (i + 1))).2) p (seqZ 0 (Z.of_nat n))
                 = mk_pacer (tokens p + Z.of_nat n) (rate_bps p) (last_refill_ns p + 1950000 * Z.of_nat n) true 0).
  { induction n as [|n IH].
    { change (Z.of_nat 0) with 0. rewrite Z.mul_0_r, !Z.add_0_r. destruct p. cbn in He, Hep. by subst. }
    rewrite Nat2Z.inj_succ in *. unfold Z.succ in *. rewrite seqZ_app by lia. rewrite foldl_app, IH by lia.
    destruct Hwf as [W1 W2 W3]. pose proof (burst_range (rate_bps p)) as Hb. unfold burst_bytes, MIN_BURST_BYTES, in_u in *.
    change (seqZ (0 + Z.of_nat n) 1) with [Z.of_nat 0 + (0 + Z.of_nat n)]. rewrite !Z.add_0_l.
    cbn [foldl]. unfold can_send. cbn [negb enabled snd].
    rewrite refill_spec by (split; cbn; unfold in_u, u_max in *; lia). cbv zeta.
    cbn [last_refill_ns rate_bps tokens pacer_epoch enabled]. unfold now_ns. cbn [pacer_epoch].
    assert (En : sat_sub (last_refill_ns p + 1950000 * (Z.of_nat n + 1)) 0 `min` u_max 64
                 = last_refill_ns p + 1950000 * (Z.of_nat n + 1)) by (unfold sat_sub; lia).
    rewrite En. assert (Ee : sat_sub (last_refill_ns p + 1950000 * (Z.of_nat n + 1)) (last_refill_ns p + 1950000 * Z.of_nat n) = 1950000)
      by (unfold sat_sub; lia).
    rewrite Ee, Hr. change (MIN_PACING_RATE * 1950000 / NANOS) with 1. cbn [Z.eqb]. f_equal. rewrite <- Hr. lia. }
  rewrite Hrun. cbn [tokens last_refill_ns]. rewrite Hr. unfold MIN_PACING_RATE. lia.
Qed.

Lemma refill_rounding_loses_rate_witness :
  tokens (foldl (λ q i, (can_send q (1950000 * (i + 1))).2) (mk_pacer (-5000) 1024 0 true 0) (seqZ 0 5000)) = 0.
Proof.
  apply (refill_rounding_loses_rate (mk_pacer (-5000) 1024 0 true 0) 5000); try (vm_compute; congruence).
  split; vm_compute; split; congruence.
Defined.
