(* ===== verification/SendLoop.v ===== *)
(** * The sending side of the data pump ([core/src/api/session.rs])

    The queue of application writes the send buffers have not admitted yet
    ([Deferred], [flush_deferred_sends]), the staged flow-control limits
    ([flush_pending_window_updates]) and the drain pass that puts segments on the wire
    under the pacer, the congestion window and the segment budget
    ([drain_streams_inner]), with the congestion state of the session
    ([core/src/transport/session.rs]).  The clock and the answers of the transport are
    arguments: one [Moment] per turn of the inner loop.

    Each turn of the drain is one step of the sender of Arq.v for the stream it polls, so
    a pass, interleaved in any way with the receive path, is a run of that system. *)

From Stdlib Require Import ZArith Lia.
From stdpp Require Import base numbers option gmap list sets relations sorting.
From S2P Require Import Bbr Pacer.
From S2P Require Import Prelude Errors Replay Wire Sack Rto StreamSend StreamRecv Arq Stream Path.
From S2P Require Import Crypto Shaping Cid Datagram Session Coalesce Mux Pump StreamTable.

Local Open Scope Z_scope.

Definition DRAIN_MAX_SEGMENTS_PER_PASS : nat := 32.
Definition DRAIN_MAX_PASSES_ON_CLOSE : nat := 256.
Definition PACING_WAKE_MIN : Z := 1000000.
Definition PACING_WAKE_MAX : Z := 10 * 1000000.
Definition CLOSE_FLUSH_PACING_WAIT_MAX : Z := 2 * 1000000.

(** ** The congestion state of the session *)

Record Congestion := mk_cong { c_est : BandwidthEstimator; c_pacer : Pacer }.

Definition on_est (f : BandwidthEstimator -> BandwidthEstimator) (c : Congestion) : Congestion :=
  mk_cong (f (c_est c)) (c_pacer c).

Definition on_packet_sent (c : Congestion) (bytes : Z) : Congestion := on_est (λ e, Bbr.on_send e bytes) c.
Definition on_packet_retransmitted (c : Congestion) (bytes : Z) : Congestion := on_est (λ e, Bbr.on_retransmit e bytes) c.
Definition on_packet_lost (c : Congestion) (bytes : Z) : Congestion := on_est (λ e, Bbr.on_loss e bytes) c.

Definition on_packet_acked (c : Congestion) (now : Z) (sample : DeliverySample) : Z * Congestion :=
  let '(rate, rtt_sample, e) := Bbr.on_ack (c_est c) sample in
  let p := Pacer.set_rate (c_pacer c) rate in
  (rtt_sample, mk_cong e (if (0 <? est_btl_bw e) && negb (enabled p) then Pacer.set_enabled p now true else p)).

Definition pacing_allows_send (c : Congestion) (now : Z) : bool * Congestion :=
  let '(ok, p) := can_send (c_pacer c) now in (ok, mk_cong (c_est c) p).
Definition pacing_consume (c : Congestion) (bytes : Z) : Congestion :=
  mk_cong (c_est c) (Pacer.consume (c_pacer c) bytes).
Definition pacing_delay (c : Congestion) (now : Z) : Z * Congestion :=
  let '(d, p) := time_until_credit (c_pacer c) now in (d, mk_cong (c_est c) p).

Definition reset_congestion (c : Congestion) (now : Z) : Congestion :=
  let e := est_new now in
  mk_cong e (Pacer.set_rate (Pacer.set_enabled (c_pacer c) now false) (pacing_rate e)).

(** ** The drain pass *)

Inductive DrainStop :=
| Drained | CongestionLimited | FlowControlled | TransportRefused | SegmentBudget | Paced (delay : Z).

(** One turn of the inner loop: the clock, and whether the transport takes the write. *)
Record Moment := mk_moment { m_now : Z; m_accepts : bool }.

Definition drain_block_rank (why : SendBlocked) : Z :=
  match why with Idle => 0 | FlowControl => 1 | CongestionWindow => 2 end.

Definition more_binding (held : option SendBlocked) (why : SendBlocked) : option SendBlocked :=
  match held with
  | Some h => if drain_block_rank h <? drain_block_rank why then Some why else Some h
  | None => Some why
  end.

(** What is recorded of a copy before it is sent. *)
Definition book_repair (c : Congestion) (seg : OutboundSegment) : Congestion :=
  if os_retransmit seg then
    let c1 := on_packet_retransmitted c (len (os_data seg)) in
    let c2 := match os_loss_cause seg with
              | Some cause => on_est (λ e, Bbr.note_repair_ordered_by e cause) c1
              | None => c1
              end in
    if os_first_retransmit seg then on_packet_lost c2 (len (os_data seg)) else c2
  else c.

Definition segment_flags (seg : OutboundSegment) : Z :=
  let base := if os_reliable seg then RELIABLE else UNRELIABLE in
  if os_fin seg then Z.lor base FIN else base.
Definition segment_offset (seg : OutboundSegment) : option Z :=
  if os_reliable seg then Some (os_offset seg) else None.

Definition drain_stop_is_app_limited (stop : DrainStop) : bool :=
  match stop with
  | Drained => true
  | CongestionLimited | FlowControlled | TransportRefused | Paced _ | SegmentBudget => false
  end.

Definition outcome_of (stop : DrainStop) : DrainOutcome :=
  match stop with
  | Drained => OutDrained
  | CongestionLimited => OutCongestionLimited
  | FlowControlled => OutFlowControlled
  | TransportRefused => OutTransportRefused
  | SegmentBudget => OutSegmentBudget
  | Paced _ => OutPaced
  end.

(** Descending priority, then ascending id. *)
Definition drain_before (a b : Z * Z) : Prop := b.1 < a.1 ∨ (a.1 = b.1 ∧ a.2 <= b.2).

#[export] Instance drain_before_dec : RelDecision drain_before.
Proof. intros a b. unfold drain_before. apply _. Defined.

#[export] Instance drain_before_trans : Transitive drain_before.
Proof. intros a b c. unfold drain_before. lia. Qed.
#[export] Instance drain_before_total : Total drain_before.
Proof. intros a b. unfold drain_before. lia. Qed.

Inductive Deferred :=
| DeferData (stream : Z) (data : list Z)
| DeferFin (stream : Z)
| DeferRelease (stream : Z).

Section SendLoop.
Context `{Primitives} {ch : Mpsc}.

(** The whole of [send_app_data], the transport's answer included: on success the bytes
    are charged to the pacer, and to the flight when the segment is reliable. *)
Definition send_segment (r : RecvState) (c : Congestion) (accepts : bool) (stream : Z) (data : list Z) (base : Z) (offset : option Z)
  : bool * RecvState * Congestion :=
  let '(frame, s) := send_app_data (rs_session r) stream data base offset in
  let r1 := set_rs_session r s in
  match frame with
  | Some buf =>
    if accepts then
      let c1 := pacing_consume c (len buf) in
      (true, add_effect r1 (SendBytes buf), match offset with Some _ => on_packet_sent c1 (len data) | None => c1 end)
    else (false, r1, c)
  | None => (false, r1, c)
  end.

(** How one turn ended. *)
Inductive Turn := TurnPaced (delay : Z) | TurnBlocked (why : SendBlocked) | TurnRefused | TurnSent (seg : OutboundSegment).

Definition set_sending (stream : Z) (s : Stream) (h : SendHalf) (r : RecvState) : RecvState :=
  put_stream stream (with_halves s h (receiving s)) r.

(** One turn for one stream of the snapshot; the snapshot holds the stream itself, which
    while the pass runs is the one in the table. *)
Definition drain_turn (m : Moment) (stream : Z) (r : RecvState) (c : Congestion) : Turn * RecvState * Congestion :=
  match pacing_allows_send c (m_now m) with
  | (false, c1) => let '(d, c2) := pacing_delay c1 (m_now m) in (TurnPaced d, r, c2)
  | (true, c1) =>
    match rs_streams r !! stream with
    | None => (TurnBlocked Idle, r, c1)
    | Some s =>
      let e := c_est c1 in
      let budget := sat_sub (cwnd e) (inflight_bytes e) in
      match poll_send (sending s) (m_now m) budget (delivered_bytes e) (last_delivery e) (is_app_limited e) with
      | (Err why, h) => (TurnBlocked why, set_sending stream s h r, c1)
      | (Ok seg, h) =>
        let c2 := book_repair c1 seg in
        let r1 := set_sending stream s h r in
        match send_segment r1 c2 (m_accepts m) stream (os_data seg) (segment_flags seg) (segment_offset seg) with
        | (true, r2, c3) => (TurnSent seg, r2, c3)
        | (false, r2, c3) =>
          (TurnRefused, if os_reliable seg then set_sending stream s (mark_unsent h (os_offset seg)) r2 else r2, c3)
        end
      end
    end
  end.

(** The locals of the pass: [p_sent] is what was sent and for which stream, [p_turn]
    counts the turns. *)
Record Pass := mk_pass {
  p_pump : RecvState;
  p_cong : Congestion;
  p_sent : list (Z * OutboundSegment);
  p_turn : nat;
  p_blocked : option SendBlocked;
  p_refused : bool;
}.

Variable env : nat -> Moment.

(** The inner [loop] for one stream, [left] segments before the budget is spent. *)
Fixpoint drain_stream (left : nat) (stream : Z) (p : Pass) : Pass * option DrainStop :=
  match left with
  | O => (p, Some SegmentBudget)
  | S left' =>
    let '(turn, r, c) := drain_turn (env (p_turn p)) stream (p_pump p) (p_cong p) in
    let next sent := mk_pass r c sent (S (p_turn p)) in
    match turn with
    | TurnPaced d => (next (p_sent p) (p_blocked p) (p_refused p), Some (Paced d))
    | TurnBlocked why => (next (p_sent p) (more_binding (p_blocked p) why) (p_refused p), None)
    | TurnRefused => (next (p_sent p) (p_blocked p) true, None)
    | TurnSent seg => drain_stream left' stream (next (p_sent p ++ [(stream, seg)]) (p_blocked p) (p_refused p))
    end
  end.

Fixpoint drain_each (streams : list Z) (p : Pass) : Pass * option DrainStop :=
  match streams with
  | [] => (p, None)
  | stream :: rest =>
    match drain_stream (DRAIN_MAX_SEGMENTS_PER_PASS - length (p_sent p)) stream p with
    | (p1, Some stop) => (p1, Some stop)
    | (p1, None) => drain_each rest p1
    end
  end.

Definition snapshot (r : RecvState) : list (Z * Z) :=
  merge_sort drain_before ((λ x, (priority x.2, x.1)) <$> map_to_list (rs_streams r)).

(** [min().unwrap_or(0)] over the peer windows. *)
Definition least_window (r : RecvState) : Z :=
  let windows := (λ x, peer_send_window (sending x.2)) <$> map_to_list (rs_streams r) in
  match windows with [] => 0 | w :: ws => foldr Z.min w ws end.

Definition any_stream (f : SendHalf -> bool) (r : RecvState) : bool :=
  existsb (λ x, f (sending x.2)) (map_to_list (rs_streams r)).

Definition drain_streams_inner (r : RecvState) (c : Congestion) : DrainStop * Pass :=
  let start := mk_pass r c [] 0 None false in
  match drain_each (snapshot r).*2 start with
  | (p, Some stop) => (stop, p)
  | (p, None) =>
    let c1 := on_est (λ e, Bbr.note_peer_window_remaining e (least_window (p_pump p))) (p_cong p) in
    let ends c2 := mk_pass (p_pump p) c2 (p_sent p) (p_turn p) (p_blocked p) (p_refused p) in
    if p_refused p then (TransportRefused, ends c1)
    else match p_blocked p with
    | None | Some Idle =>
      (Drained, ends (on_est (λ e, Bbr.note_dry_pass e (any_stream send_buffer_full (p_pump p))
                                 (any_stream (λ h, peer_send_window h =? 0) (p_pump p))) c1))
    | Some FlowControl => (FlowControlled, ends c1)
    | Some CongestionWindow => (CongestionLimited, ends c1)
    end
  end.

Definition drain_streams_priority_ordered (r : RecvState) (c : Congestion) : DrainStop * RecvState * Congestion :=
  let '(stop, p) := drain_streams_inner r c in
  (stop, p_pump p, on_est (λ e, Bbr.note_drain_outcome e (outcome_of stop)) (p_cong p)).

Definition apply_drain_outcome (r : RecvState) (c : Congestion) (now : Z) (stop : DrainStop) (pump_had_work : bool)
  : option Z * RecvState * Congestion :=
  let c1 := if drain_stop_is_app_limited stop then
              let c1 := on_est Bbr.note_app_limited_drain c in
              if pump_had_work then on_est Bbr.note_dry_pass_with_pump_work c1 else c1
            else c in
  match stop with
  | Drained | CongestionLimited | FlowControlled | TransportRefused => (None, r, c1)
  | SegmentBudget => (None, add_effect r NotifyOutbound, c1)
  | Paced delay => (Some (now + clamp delay PACING_WAKE_MIN PACING_WAKE_MAX), r, c1)
  end.

(** ** A pass is a run of the senders of Arq.v *)

(** The sending half [h] becomes [h'] by steps of the system of Arq.v that put [out] on
    the wire, whatever the rest of that system is. *)
Definition sends_as (out : list OutboundSegment) (h h' : SendHalf) : Prop :=
  ∀ rcv w a sub ap, rtc arq_step (mk_arq h rcv w a sub ap) (mk_arq h' rcv (w ++ (out ≫= seg_on_wire)) a sub ap).

Lemma sends_as_refl h : sends_as [] h h.
Proof. intros rcv w a sub ap. cbn. rewrite app_nil_r. apply rtc_refl. Qed.

Lemma sends_as_trans o1 o2 h1 h2 h3 : sends_as o1 h1 h2 -> sends_as o2 h2 h3 -> sends_as (o1 ++ o2) h1 h3.
Proof. intros H1 H2 rcv w a sub ap. etrans; [apply H1|]. rewrite bind_app, app_assoc. apply H2. Qed.

Definition segments_for (stream : Z) (sent : list (Z * OutboundSegment)) : list OutboundSegment :=
  omap (λ x, if decide (x.1 = stream) then Some x.2 else None) sent.

Lemma segments_for_app stream l1 l2 : segments_for stream (l1 ++ l2) = segments_for stream l1 ++ segments_for stream l2.
Proof. apply omap_app. Qed.

(** [buf] is the sealed form of a segment. *)
Definition sealed_as (x : Z * OutboundSegment) (buf : list Z) : Prop :=
  ∃ s s', send_app_data s x.1 (os_data x.2) (segment_flags x.2) (segment_offset x.2) = (Some buf, s').

Record drained (sent : list (Z * OutboundSegment)) (r r' : RecvState) : Prop := {
  dr_streams : ∀ id s, rs_streams r !! id = Some s ->
    ∃ h, rs_streams r' !! id = Some (with_halves s h (receiving s)) ∧ sends_as (segments_for id sent) (sending s) h;
  dr_none : ∀ id, rs_streams r !! id = None -> rs_streams r' !! id = None;
  dr_log : ∃ bufs, rs_log r' = rs_log r ++ (SendBytes <$> bufs) ∧ Forall2 sealed_as sent bufs;
}.

Lemma drained_refl r : drained [] r r.
Proof.
  split; [|done|exists []; by rewrite app_nil_r].
  intros id s E. exists (sending s). split; [by destruct s|apply sends_as_refl].
Qed.

Lemma drained_trans l1 l2 r1 r2 r3 : drained l1 r1 r2 -> drained l2 r2 r3 -> drained (l1 ++ l2) r1 r3.
Proof.
  intros [S1 N1 (b1 & L1 & F1)] [S2 N2 (b2 & L2 & F2)]. split.
  - intros id s (h & E & R)%S1. apply S2 in E as (h2 & E & R2). exists h2. split; [done|].
    rewrite segments_for_app. by eapply sends_as_trans.
  - auto.
  - exists (b1 ++ b2). split; [by rewrite L2, L1, fmap_app, app_assoc|by apply Forall2_app].
Qed.

Lemma send_segment_spec r c accepts stream data base offset b r' c' :
  send_segment r c accepts stream data base offset = (b, r', c') ->
  rs_streams r' = rs_streams r ∧
  if b then ∃ buf s', send_app_data (rs_session r) stream data base offset = (Some buf, s') ∧ rs_log r' = rs_log r ++ [SendBytes buf]
  else rs_log r' = rs_log r.
Proof.
  unfold send_segment. destruct (send_app_data _ _ _ _ _) as [[buf|] s]; [destruct accepts|]; intros [= <- <- <-]; cbn; eauto.
Qed.

Definition turn_sent (stream : Z) (t : Turn) : list (Z * OutboundSegment) :=
  match t with TurnSent seg => [(stream, seg)] | _ => [] end.

(** A stream is left with its last poll refused for [why]. *)
Definition blocked_at (h : SendHalf) (why : SendBlocked) : Prop :=
  ∃ h0 now budget dn dt al, poll_send h0 now budget dn dt al = (Err why, h).

Lemma set_sending_drained stream s h r r' sent :
  rs_streams r !! stream = Some s -> rs_streams r' = <[stream := with_halves s h (receiving s)]> (rs_streams r) ->
  (∀ id, id ≠ stream -> segments_for id sent = []) -> sends_as (segments_for stream sent) (sending s) h ->
  (∃ bufs, rs_log r' = rs_log r ++ (SendBytes <$> bufs) ∧ Forall2 sealed_as sent bufs) -> drained sent r r'.
Proof.
  intros E E' Hother Hs Hlog. split; [| |done]; rewrite E'.
  - intros id s0 E0. destruct (decide (id = stream)) as [->|Hne].
    + rewrite lookup_insert_eq. simplify_eq. eauto.
    + rewrite lookup_insert_ne by done. exists (sending s0). split; [by destruct s0|].
      rewrite Hother by done. apply sends_as_refl.
  - intros id E0. destruct (decide (id = stream)) as [->|Hne]; [congruence|by rewrite lookup_insert_ne].
Qed.

Lemma drain_turn_spec m stream r c t r' c' :
  drain_turn m stream r c = (t, r', c') ->
  drained (turn_sent stream t) r r' ∧
  (is_Some (rs_streams r !! stream) -> ∀ why, t = TurnBlocked why ->
    ∃ s, rs_streams r' !! stream = Some s ∧ blocked_at (sending s) why).
Proof.
  unfold drain_turn. destruct (pacing_allows_send c (m_now m)) as [[] c1].
  2: { destruct (pacing_delay _ _). intros [= <- <- <-]. split; [apply drained_refl|done]. }
  destruct (rs_streams r !! stream) as [s|] eqn:E.
  2: { intros [= <- <- <-]. split; [apply drained_refl|by intros []]. }
  destruct (poll_send _ _ _ _ _ _) as [[seg|why] h] eqn:Ep.
  - destruct (send_segment _ _ _ _ _ _ _) as [[[] r2] c3] eqn:Es; apply send_segment_spec in Es as [Hst Hlog]; intros [= <- <- <-];
      (split; [|done]); cbn [turn_sent].
    + destruct Hlog as (buf & s' & Ebuf & Hlog). eapply (set_sending_drained stream s h); [done|done| | |].
      * intros id Hne. cbn. by rewrite decide_False by done.
      * cbn. rewrite decide_True by done. intros rcv w a sub ap. cbn. rewrite app_nil_r.
        apply rtc_once. by eapply arq_transmit.
      * exists [buf]. split; [done|]. constructor; [|constructor]. by exists (rs_session (set_sending stream s h r)), s'.
    + apply (set_sending_drained stream s (if os_reliable seg then mark_unsent h (os_offset seg) else h)); [done| |done| |].
      * destruct (os_reliable seg); cbn; rewrite Hst; cbn; [apply insert_insert_eq|done].
      * intros rcv w a sub ap. cbn. rewrite app_nil_r. apply rtc_once. by eapply arq_refused.
      * exists []. cbn. split; [|constructor]. rewrite app_nil_r. by destruct (os_reliable seg).
  - intros [= <- <- <-]. split.
    + eapply (set_sending_drained stream s h); [done|done|done| |].
      * intros rcv w a sub ap. cbn. rewrite app_nil_r. apply rtc_once. by eapply arq_blocked.
      * exists []. by rewrite app_nil_r.
    + intros _ why' [= <-]. exists (with_halves s h (receiving s)). cbn. rewrite lookup_insert_eq. split; [done|].
      unfold blocked_at. eauto 10.
Qed.

Lemma drain_turn_frame m stream r c t r' c' id :
  drain_turn m stream r c = (t, r', c') -> id ≠ stream -> rs_streams r' !! id = rs_streams r !! id.
Proof.
  intros E Hne. revert E. unfold drain_turn. destruct (pacing_allows_send c (m_now m)) as [[] c1].
  2: { destruct (pacing_delay _ _). by intros [= <- <- <-]. }
  destruct (rs_streams r !! stream) as [s|]; [|by intros [= <- <- <-]].
  destruct (poll_send _ _ _ _ _ _) as [[seg|why] h]; [|intros [= <- <- <-]; cbn; by rewrite lookup_insert_ne].
  destruct (send_segment _ _ _ _ _ _ _) as [[b r2] c3] eqn:Es. apply send_segment_spec in Es as [Hst _].
  destruct b; [|destruct (os_reliable seg)]; intros [= <- <- <-]; cbn; rewrite Hst; cbn; by rewrite !lookup_insert_ne.
Qed.

(** How the loop over one stream ends: with its last poll refused ([Some why]), or with
    a refused write ([None]). *)
Definition ends_as (stream : Z) (p0 p : Pass) (e : option SendBlocked) : Prop :=
  match e with
  | Some why => p_blocked p = more_binding (p_blocked p0) why ∧ p_refused p = p_refused p0 ∧
      ∃ s, rs_streams (p_pump p) !! stream = Some s ∧ blocked_at (sending s) why
  | None => p_blocked p = p_blocked p0 ∧ p_refused p = true
  end.

Lemma drain_stream_spec left stream : ∀ p p' stop,
  drain_stream left stream p = (p', stop) -> is_Some (rs_streams (p_pump p) !! stream) ->
  ∃ new, p_sent p' = p_sent p ++ (pair stream <$> new) ∧ (length new <= left)%nat ∧
    drained (pair stream <$> new) (p_pump p) (p_pump p') ∧
    (∀ id, id ≠ stream -> rs_streams (p_pump p') !! id = rs_streams (p_pump p) !! id) ∧
    (p_refused p = true -> p_refused p' = true) ∧
    match stop with
    | None => ∃ e, ends_as stream p p' e
    | Some SegmentBudget => length new = left
    | Some (Paced _) => True
    | Some _ => False
    end.
Proof.
  induction left as [|left IH]; intros p p' stop E Hin; cbn [drain_stream] in E.
  { injection E as <- <-. exists []. rewrite app_nil_r. split_and!; try done. apply drained_refl. }
  destruct (drain_turn _ _ _ _) as [[t r] c] eqn:Et. pose proof (λ id, drain_turn_frame _ _ _ _ _ _ _ id Et) as Hf.
  apply drain_turn_spec in Et as [Hd Hb]. specialize (Hb Hin).
  destruct t as [d|why| |seg]; cbn [turn_sent] in Hd.
  - injection E as <- <-. exists []. cbn. rewrite app_nil_r. split_and!; auto with lia.
  - injection E as <- <-. exists []. cbn. rewrite app_nil_r. split_and!; auto with lia. exists (Some why). cbn. eauto.
  - injection E as <- <-. exists []. cbn. rewrite app_nil_r. split_and!; auto with lia. by exists None.
  - apply IH in E as (new & E1 & Hl & Hd2 & Hf2 & Hr & Hend).
    2: { cbn. destruct Hin as [s Hs]. destruct (dr_streams _ _ _ Hd _ _ Hs) as (h & Hh & _). eauto. }
    cbn [p_sent p_pump p_blocked p_refused] in *. exists (seg :: new). rewrite E1, <- app_assoc. split_and!; [done|cbn; lia| | |done|].
    + exact (drained_trans _ _ _ _ _ Hd Hd2).
    + intros id Hne. by rewrite Hf2, Hf.
    + destruct stop as [[]|]; try done. cbn. lia.
Qed.

(** The segments of a pass come in runs, one per stream, in the order of the streams. *)
Inductive grouped : list Z -> list (Z * OutboundSegment) -> Prop :=
| grouped_nil : grouped [] []
| grouped_cons stream streams new rest :
    grouped streams rest -> grouped (stream :: streams) ((pair stream <$> new) ++ rest).

Lemma grouped_app l1 l2 o1 o2 : grouped l1 o1 -> grouped l2 o2 -> grouped (l1 ++ l2) (o1 ++ o2).
Proof. induction 1; cbn; [done|]. intros. rewrite <- app_assoc. constructor. auto. Qed.

(** What is known of the streams the pass finished with. *)
Definition ends_ok (r : RecvState) (refused : bool) (ends : list (Z * option SendBlocked)) : Prop :=
  Forall (λ x, match x.2 with
               | Some why => ∃ s, rs_streams r !! x.1 = Some s ∧ blocked_at (sending s) why
               | None => refused = true
               end) ends.

Lemma drain_each_spec streams : ∀ p p' stop,
  drain_each streams p = (p', stop) -> NoDup streams ->
  (∀ id, id ∈ streams -> is_Some (rs_streams (p_pump p) !! id)) -> (length (p_sent p) <= DRAIN_MAX_SEGMENTS_PER_PASS)%nat ->
  ∃ ends rest new,
    streams = ends.*1 ++ rest ∧ p_sent p' = p_sent p ++ new ∧ (length (p_sent p') <= DRAIN_MAX_SEGMENTS_PER_PASS)%nat ∧
    drained new (p_pump p) (p_pump p') ∧ (∀ id, id ∉ streams -> rs_streams (p_pump p') !! id = rs_streams (p_pump p) !! id) ∧
    grouped (ends.*1 ++ take 1 rest) new ∧ ends_ok (p_pump p') (p_refused p') ends ∧ (p_refused p = true -> p_refused p' = true) ∧
    match stop with
    | None => rest = [] ∧ p_blocked p' = foldl more_binding (p_blocked p) (omap snd ends) ∧
              (p_refused p' = true <-> p_refused p = true ∨ None ∈ ends.*2)
    | Some SegmentBudget => length (p_sent p') = DRAIN_MAX_SEGMENTS_PER_PASS ∧ rest ≠ []
    | Some (Paced _) => rest ≠ []
    | Some _ => False
    end.
Proof.
  induction streams as [|stream streams IH]; intros p p' stop E Hnd Hin Hlen; cbn [drain_each] in E.
  { injection E as <- <-. exists [], [], []. cbn. rewrite app_nil_r. split_and!; try done; [apply drained_refl|constructor|constructor|set_solver]. }
  apply NoDup_cons in Hnd as [Hni Hnd].
  destruct (drain_stream _ _ _) as [p1 stop1] eqn:E1.
  apply drain_stream_spec in E1 as (new & Es & Hl & Hd & Hf & Hr & Hend); [|apply Hin; set_solver].
  assert (Hlen1 : (length (p_sent p1) <= DRAIN_MAX_SEGMENTS_PER_PASS)%nat).
  { rewrite Es, length_app, length_fmap. lia. }
  assert (Hg : grouped [stream] (pair stream <$> new)).
  { rewrite <- (app_nil_r (_ <$> _)). repeat constructor. }
  destruct stop1 as [stop1|].
  { injection E as <- <-. exists [], (stream :: streams), (pair stream <$> new). split_and!; try done; [|constructor|].
    - intros id Hid. apply Hf. set_solver.
    - destruct stop1; try done. split; [|done]. rewrite Es, length_app, length_fmap. lia. }
  destruct Hend as [e He].
  apply IH in E as (ends & rest & new2 & -> & Es2 & Hl2 & Hd2 & Hf2 & Hg2 & Hends & Hr2 & Hstop); [|done| |done].
  2: { intros id Hid. destruct (Hin id) as [s Hs]; [set_solver|]. destruct (dr_streams _ _ _ Hd _ _ Hs) as (h & Hh & _). eauto. }
  exists ((stream, e) :: ends), rest, ((pair stream <$> new) ++ new2). split_and!; try done.
  - by rewrite Es2, Es, app_assoc.
  - by eapply drained_trans.
  - intros id Hid. rewrite Hf2, Hf by set_solver. done.
  - cbn. by constructor.
  - constructor; [|done]. destruct e as [why|]; cbn; [|apply Hr2, He].
    destruct He as (_ & _ & sx & Hs & Hb). exists sx. split; [|done]. by rewrite Hf2.
  - auto.
  - destruct stop as [|]; [done|]. destruct Hstop as (-> & -> & Href). split; [done|]. rewrite Href.
    destruct e as [why|]; cbn in *; [destruct He as (-> & -> & _)|destruct He as (-> & ->)]; (split; [done|]); set_solver.
Qed.

Lemma snapshot_perm r : snapshot r ≡ₚ (λ x, (priority x.2, x.1)) <$> map_to_list (rs_streams r).
Proof. apply merge_sort_Permutation. Qed.

Lemma snapshot_ids r : NoDup (snapshot r).*2 ∧ ∀ id, id ∈ (snapshot r).*2 <-> is_Some (rs_streams r !! id).
Proof.
  assert (Hp : (snapshot r).*2 ≡ₚ (map_to_list (rs_streams r)).*1).
  { rewrite snapshot_perm, <- list_fmap_compose. done. }
  split; [rewrite Hp; apply NoDup_fst_map_to_list|]. intros id. rewrite Hp, list_elem_of_fmap. split.
  - intros ([k x] & -> & Hk%elem_of_map_to_list). by exists x.
  - intros [x Hx]. exists (id, x). split; [done|by apply elem_of_map_to_list].
Qed.

Lemma snapshot_sorted r : StronglySorted drain_before (snapshot r).
Proof. apply (StronglySorted_merge_sort drain_before). Qed.

(** The answer of the last poll, read off the buffers it left behind. *)
Definition left_blocked (h : SendHalf) (why : SendBlocked) : Prop :=
  match why with
  | Idle => unreliable_buffer h = [] ∧ Forall (λ q, is_Some (pd_sent_at q)) (send_buffer h)
  | CongestionWindow | FlowControl => unreliable_buffer h = [] ∧ ∃ q, q ∈ send_buffer h ∧ pd_sent_at q = None
  end.

Lemma blocked_reading h why : blocked_at h why -> left_blocked h why.
Proof.
  intros (h0 & now & budget & dn & dt & al & E). revert E. unfold poll_send.
  destruct (unreliable_buffer h0) as [|d rest] eqn:Eu; [|done].
  destruct (update_first (fast_retransmit now) _) as [[b seg]|]; [done|].
  destruct (update_first (timeout_retransmit _ _) _) as [[b seg]|]; [done|].
  destruct (update_first (offer_unsent _ _ _ _ _ _) _) as [[b [r1 s1]]|] eqn:E2.
  - apply update_first_Some in E2 as (l1 & x & x' & l2 & El & -> & Hf & _).
    assert (Hx : x ∈ send_buffer h0) by (rewrite El; set_solver).
    revert Hf. unfold offer_unsent. destruct (pd_sent_at x) eqn:Ex; [done|]. cbv zeta.
    destruct (Z.ltb_spec budget (len (pd_data x))).
    + intros [= _ <- <-]. intros [= <- <-]. cbn. eauto.
    + destruct (if _ : bool then _ else _) as [[granted s2] ch'] eqn:Eg. intros Hf. destruct granted; [by simplify_eq|].
      assert (Es2 : s2 = h0).
      { revert Eg. unfold try_consume_send_window. repeat case_match; congruence. }
      subst s2. injection Hf as _ <- <-. unfold try_persist_probe. intros E.
      assert (Eh : h = h0 ∧ why = FlowControl) by (repeat case_match; simplify_eq; done). destruct Eh as [-> ->]. cbn. eauto.
  - intros [= <- <-]. cbn. split; [done|]. apply update_first_None in E2. eapply Forall_iff'; [|exact E2].
    intros q. cbn. rewrite offer_unsent_None. unfold unsent. rewrite <- not_eq_None_Some. done.
Qed.

Lemma foldl_binding l : ∀ b0,
  drain_block_rank (default Idle (foldl more_binding b0 l)) =
  foldr Z.max (drain_block_rank (default Idle b0)) (drain_block_rank <$> l).
Proof.
  induction l as [|w l IH]; intros b0; cbn; [done|]. rewrite IH. clear IH.
  assert (E : drain_block_rank (default Idle (more_binding b0 w)) = Z.max (drain_block_rank w) (drain_block_rank (default Idle b0))).
  { destruct b0 as [[]|], w; done. }
  rewrite E. induction l as [|v l IH]; cbn; [done|]. rewrite IH. lia.
Qed.

(** What a whole pass did. *)
Lemma drain_pass_spec r c :
  let '(stop, p) := drain_streams_inner r c in
  (length (p_sent p) <= DRAIN_MAX_SEGMENTS_PER_PASS)%nat ∧ drained (p_sent p) r (p_pump p) ∧
  ∃ ends rest, (snapshot r).*2 = ends.*1 ++ rest ∧ grouped (ends.*1 ++ take 1 rest) (p_sent p) ∧ ends_ok (p_pump p) (p_refused p) ends ∧
  match stop with
  | Drained => rest = [] ∧ Forall (λ x, x.2 = Some Idle) ends
  | CongestionLimited => rest = [] ∧ Some CongestionWindow ∈ ends.*2 ∧ (None ∉ ends.*2)
  | FlowControlled => rest = [] ∧ Some FlowControl ∈ ends.*2 ∧ (Some CongestionWindow ∉ ends.*2) ∧ (None ∉ ends.*2)
  | TransportRefused => rest = [] ∧ None ∈ ends.*2
  | SegmentBudget => rest ≠ [] ∧ length (p_sent p) = DRAIN_MAX_SEGMENTS_PER_PASS
  | Paced _ => rest ≠ []
  end.
Proof.
  unfold drain_streams_inner. destruct (snapshot_ids r) as [Hnd Hin].
  destruct (drain_each _ _) as [p stop] eqn:E.
  apply drain_each_spec in E as (ends & rest & new & Esn & Es & Hl & Hd & _ & Hg & Hends & _ & Hstop);
    [|done|intros id; apply Hin|cbn; lia]. cbn [p_sent p_pump p_blocked p_refused] in *. change (p_sent p = new) in Es. subst new.
  destruct stop as [stop|].
  { split_and!; [done|done|]. exists ends, rest. split_and!; try done. by destruct stop; destruct_and?. }
  destruct Hstop as (-> & Hb & Href).
  assert (Hrank : ∀ w, Some w ∈ ends.*2 -> drain_block_rank w <= drain_block_rank (default Idle (p_blocked p))).
  { intros w Hw. rewrite Hb, foldl_binding. assert (Hw' : w ∈ omap snd ends).
    { apply list_elem_of_fmap in Hw as ([i e] & Ee & Hx). cbn in Ee. subst e. apply list_elem_of_omap. by exists (i, Some w). }
    clear -Hw'. induction (omap snd ends) as [|v l IH]; [set_solver|]. apply elem_of_cons in Hw' as [->|Hw']; cbn; [lia|].
    specialize (IH Hw'). cbn in IH. lia. }
  assert (Hfrom : ∀ w, p_blocked p = Some w -> Some w ∈ ends.*2).
  { intros w Hw. rewrite Hb in Hw. clear -Hw.
    assert (Hgen : ∀ (l : list (Z * option SendBlocked)) b0, foldl more_binding b0 (omap snd l) = Some w -> b0 = Some w ∨ Some w ∈ l.*2).
    { induction l as [|[i [v|]] l IH]; intros b0; [by left| |]; cbn.
      - intros [Hm|]%IH; [|set_solver]. unfold more_binding in Hm. repeat case_match; simplify_eq; set_solver.
      - intros [|]%IH; [by left|set_solver]. }
    apply Hgen in Hw as [|]; done. }
  assert (Hnone : p_refused p = false -> None ∉ ends.*2) by (intros Hf Hn; rewrite (proj2 Href (or_intror Hn)) in Hf; done).
  assert (Hidle : None ∉ ends.*2 -> (∀ w, Some w ∈ ends.*2 -> w = Idle) -> Forall (λ x, x.2 = Some Idle) ends).
  { intros Hn Hw. apply Forall_forall. intros [i [w|]] Hx; apply (list_elem_of_fmap_2 snd) in Hx; cbn in Hx |- *; [|done].
    by rewrite (Hw w). }
  destruct (p_refused p) eqn:Er; [|destruct (p_blocked p) as [[]|] eqn:Ebl];
    (split_and!; [done|done|]; exists ends, []; split_and!; try done); auto.
  - by destruct (proj1 Href eq_refl).
  - apply Hidle; [auto|]. intros w Hw. apply Hrank in Hw. by destruct w.
  - intros Hc%Hrank. done.
  - apply Hidle; [auto|]. intros w Hw. apply Hrank in Hw. by destruct w.
Qed.

End SendLoop.

(** ** Properties of the pass *)

(** C15: One pass of the drain puts at most 32 segments on the wire; for every stream it is a
    run of the sender of Arq.v whose wire grows by exactly the segments sent for that
    stream, refused writes and blocked polls included, and the bytes handed to the
    transport are the sealed segments, in order.  No stream is added or dropped. *)
Theorem drain_pass_is_arq `{Primitives} {ch : Mpsc} (env : nat -> Moment) (r : RecvState) (c : Congestion) :
  let '(_, p) := drain_streams_inner env r c in
  (length (p_sent p) <= DRAIN_MAX_SEGMENTS_PER_PASS)%nat ∧ drained (p_sent p) r (p_pump p).
Proof. pose proof (drain_pass_spec env r c) as Hs. destruct (drain_streams_inner env r c). naive_solver. Qed.

(** C16: The order and the stop reason of a pass are what it says.  Streams are served by
    descending priority, then id; one is left for the next only when its last poll was
    refused or the transport refused a write.  [Drained] means that no stream holds an
    unsent segment or unreliable data; [CongestionLimited] and [FlowControlled] that one
    still holds an unsent segment; [SegmentBudget] that 32 segments went out. *)
Theorem drain_stops_truthfully `{Primitives} {ch : Mpsc} (env : nat -> Moment) (r : RecvState) (c : Congestion) :
  let '(stop, p) := drain_streams_inner env r c in
  StronglySorted drain_before (snapshot r) ∧
  ∃ finished rest, (snapshot r).*2 = finished ++ rest ∧ grouped (finished ++ take 1 rest) (p_sent p) ∧
  (∀ id, id ∈ finished -> p_refused p = true ∨
     ∃ s why, rs_streams (p_pump p) !! id = Some s ∧ left_blocked (sending s) why) ∧
  match stop with
  | Drained => ∀ id s, rs_streams (p_pump p) !! id = Some s -> left_blocked (sending s) Idle
  | CongestionLimited => ∃ id s, rs_streams (p_pump p) !! id = Some s ∧ left_blocked (sending s) CongestionWindow
  | FlowControlled => ∃ id s, rs_streams (p_pump p) !! id = Some s ∧ left_blocked (sending s) FlowControl
  | TransportRefused => rest = [] ∧ p_refused p = true
  | SegmentBudget => length (p_sent p) = DRAIN_MAX_SEGMENTS_PER_PASS
  | Paced _ => rest ≠ []
  end.
Proof.
  pose proof (drain_pass_spec env r c) as Hs. destruct (drain_streams_inner env r c) as [stop p].
  destruct Hs as (_ & Hd & ends & rest & Esn & Hg & Hends & Hstop). split; [apply snapshot_sorted|].
  exists ends.*1, rest. unfold ends_ok in Hends. rewrite Forall_forall in Hends.
  assert (Hat : ∀ e, e ∈ ends.*2 -> ∃ id, (id, e) ∈ ends) by (intros e ([i e'] & -> & He)%list_elem_of_fmap; by exists i).
  assert (Hblk : ∀ why, Some why ∈ ends.*2 -> ∃ id s, rs_streams (p_pump p) !! id = Some s ∧ left_blocked (sending s) why).
  { intros why [id Hid]%Hat. apply Hends in Hid as (s & Hs & Hb). exists id, s. split; [done|by apply blocked_reading]. }
  split_and!; [done|done| |].
  - intros id ([i [why|]] & -> & Hx)%list_elem_of_fmap; apply Hends in Hx; cbn in Hx; [right|by left].
    destruct Hx as (s & Hs & Hb). exists s, why. split; [done|by apply blocked_reading].
  - destruct stop; destruct_and?; auto.
    + intros id s Hs. assert (Hid : id ∈ (snapshot r).*2).
      { apply snapshot_ids. destruct (rs_streams r !! id) eqn:E; [done|]. apply (dr_none _ _ _ Hd) in E. congruence. }
      subst rest. rewrite Esn, app_nil_r in Hid. apply list_elem_of_fmap in Hid as ([i e] & -> & Hx).
      pose proof (Hends _ Hx) as He. rewrite Forall_forall in *. match goal with Hf : ∀ x, x ∈ ends -> _ = _ |- _ => apply Hf in Hx end.
      cbn in *. subst e. destruct He as (s' & Hs' & Hb). simplify_eq. by apply blocked_reading in Hb.
    + split; [done|]. match goal with Hn : None ∈ _ |- _ => destruct (Hat _ Hn) as [id Hx] end. by apply Hends in Hx.
Qed.
