(* ===== verification/SendQueue.v ===== *)
(** * Application writes on their way into the send buffers ([core/src/api/session.rs])

    The commands of the application ([SessionCommand], [ControlCommand]), the queue of
    writes a full send buffer has refused ([Deferred]) and the handles it has dropped.
    [take_command], [flush_deferred_sends], [release_due_streams], [take_control] and
    [flush_pending_window_updates] are whole; the answers of the transport are arguments.

    The system of the last part interleaves them with the application and with what the
    other tasks do to the streams, and shows that a stream carries what was written on
    it, in order, and that dropping the handle closes it behind the last write. *)

From Stdlib Require Import ZArith Lia.
From stdpp Require Import base numbers option gmap list sets relations.
From S2P Require Import Bbr Pacer.
From S2P Require Import Prelude Errors Replay Wire Sack Rto StreamSend StreamRecv Arq Stream Path.
From S2P Require Import Crypto Shaping Cid Datagram Session Coalesce Mux Pump StreamTable SendLoop.

Local Open Scope Z_scope.

Definition APP_CHUNK : nat := Z.to_nat MAX_APP_CHUNK.

Inductive SessionCommand :=
| CmdSend (data : list Z)
| CmdSendReliable (stream : Z) (data : list Z)
| CmdSendUnreliable (stream : Z) (data : list Z)
| CmdCloseStream (stream : Z)
| CmdClose.

(** The address of a migration is the transport's business: the model has its answer. *)
Inductive ControlCommand :=
| CtlMigrate (rebound : bool)
| CtlMigrateServer (rebound : bool)
| CtlSetPriority (stream prio : Z).

Section SendQueue.
Context `{Primitives} {ch : Mpsc}.

(** The pump's share of the session, and the streams that have left the table while a
    [Deferred] still holds them. *)
Record SendState := mk_ss {
  ss_pump : RecvState;
  ss_cong : Congestion;
  ss_detached : gmap Z Stream;
}.

Definition on_pump (f : RecvState -> RecvState) (st : SendState) : SendState :=
  mk_ss (f (ss_pump st)) (ss_cong st) (ss_detached st).

(** The stream a [Deferred] holds.  One that the receive path retired is finished and
    empty; it is not kept, and nothing more can happen to it. *)
Definition held_stream (st : SendState) (id : Z) : option Stream :=
  match rs_streams (ss_pump st) !! id with Some s => Some s | None => ss_detached st !! id end.

Definition put_held (id : Z) (s : Stream) (st : SendState) : SendState :=
  match rs_streams (ss_pump st) !! id with
  | Some _ => on_pump (put_stream id s) st
  | None => mk_ss (ss_pump st) (ss_cong st) (<[id := s]> (ss_detached st))
  end.

Definition set_held_sending (id : Z) (s : Stream) (h : SendHalf) (st : SendState) : SendState :=
  put_held id (with_halves s h (receiving s)) st.

(** Keep hold of a stream that is about to leave the table. *)
Definition detach (id : Z) (st : SendState) : SendState :=
  match rs_streams (ss_pump st) !! id with
  | Some s => mk_ss (ss_pump st) (ss_cong st) (<[id := s]> (ss_detached st))
  | None => st
  end.

Definition drop_released (id : Z) (st : SendState) : SendState :=
  on_pump (retire_released_stream id) (detach id st).

(** Offset exhaustion on a FIN: the bare FIN, and the stream goes. *)
Definition bare_fin (accepts : bool) (id : Z) (st : SendState) : SendState :=
  match rs_streams (ss_pump st) !! id with
  | None => st
  | Some _ =>
    let st1 := detach id st in
    let r1 := set_rs_streams (ss_pump st1) (delete id (rs_streams (ss_pump st1))) in
    let '(_, r2, c) := send_segment r1 (ss_cong st1) accepts id [] FIN None in
    let r3 := set_rs_demux r2 (close_stream (rs_demux r2) id) in
    mk_ss (set_rs_gauge r3 (Mux.closed (rs_gauge r3) id)) c (ss_detached st1)
  end.

(** What entered a send buffer: the stream, the data, whether it was the FIN. *)
Definition Admit : Type := Z * (list Z * bool).

(** What one item does at the head of the queue: [None] when the buffer is full, and
    otherwise what it admitted and the state after. *)
Definition admit_data (id : Z) (data : list Z) (st : SendState) : option (list Admit * SendState) :=
  match held_stream st id with
  | None => Some ([], st)
  | Some s =>
    if is_local_finished s then Some ([], st)
    else match try_send_reliable (sending s) data with
    | Ok (true, h) => Some ([(id, (data, false))], set_held_sending id s h st)
    | Ok (false, _) => None
    | Err _ => Some ([], st)
    end
  end.

Definition admit_fin (accepts : bool) (id : Z) (s : Stream) (st : SendState) : option (list Admit * SendState) :=
  match try_queue_fin (sending s) with
  | Ok (true, h) => Some ([(id, ([], true))], set_held_sending id s h st)
  | Ok (false, _) => None
  | Err _ => Some ([], bare_fin accepts id st)
  end.

Definition admit_release (accepts : bool) (id : Z) (s : Stream) (st : SendState) : option (list Admit * SendState) :=
  if is_local_finished s then Some ([], if is_retirable s then drop_released id st else st)
  else if is_local_stream_id (rs_demux (ss_pump st)) id && negb (has_sent_reliable (sending s))
  then Some ([], drop_released id st)
  else admit_fin accepts id s st.

Definition admit_item (accepts : bool) (item : Deferred) (st : SendState) : option (list Admit * SendState) :=
  match item with
  | DeferData id data => admit_data id data st
  | DeferFin id => match held_stream st id with Some s => admit_fin accepts id s st | None => Some ([], st) end
  | DeferRelease id => match held_stream st id with Some s => admit_release accepts id s st | None => Some ([], st) end
  end.

(** The loop of [flush_deferred_sends]: what is left of the queue, what was admitted. *)
Fixpoint flush_items (accepts : bool) (q : list Deferred) (st : SendState) : list Deferred * list Admit * SendState :=
  match q with
  | [] => ([], [], st)
  | item :: q' =>
    match admit_item accepts item st with
    | None => (q, [], st)
    | Some (out, st1) => let '(rest, more, st2) := flush_items accepts q' st1 in (rest, out ++ more, st2)
    end
  end.

Definition flush_deferred_sends (accepts : bool) (q : list Deferred) (st : SendState) : list Deferred * list Admit * SendState :=
  let '(rest, out, st1) := flush_items accepts q st in
  (rest, out, match out with [] => st1 | _ => on_pump (λ r, add_effect r NotifyOutbound) st1 end).

(** ** Commands *)

Definition defer_chunks (id : Z) (data : list Z) : list Deferred := DeferData id <$> chunks APP_CHUNK data.

Definition notify (st : SendState) : SendState := on_pump (λ r, add_effect r NotifyOutbound) st.

(** [take_command]: whether the session is to close, the queue, what was admitted. *)
Definition take_command (accepts : bool) (cmd : SessionCommand) (q : list Deferred) (st : SendState)
  : bool * list Deferred * list Admit * SendState :=
  match cmd with
  | CmdSend data =>
    let '(q1, out, st1) := flush_deferred_sends accepts (q ++ defer_chunks RAW_APP_STREAM_ID data) st in
    (false, q1, out, notify st1)
  | CmdSendReliable id data =>
    match rs_streams (ss_pump st) !! id with
    | Some _ => let '(q1, out, st1) := flush_deferred_sends accepts (q ++ defer_chunks id data) st in (false, q1, out, st1)
    | None => (false, q, [], st)
    end
  | CmdSendUnreliable id data =>
    match rs_streams (ss_pump st) !! id with
    | Some s =>
      if is_local_finished s then (false, q, [], st)
      else (false, q, [], on_pump (set_sending id s (foldl send_unreliable (sending s) (chunks APP_CHUNK data))) st)
    | None => (false, q, [], st)
    end
  | CmdCloseStream id =>
    match rs_streams (ss_pump st) !! id with
    | Some _ => let '(q1, out, st1) := flush_deferred_sends accepts (q ++ [DeferFin id]) st in (false, q1, out, notify st1)
    | None => (false, q, [], st)
    end
  | CmdClose => (true, q, [], st)
  end.

(** The start of [run_data_pump]: what was queued while connecting joins the raw stream's
    share of the queue. *)
Definition start_queue (queued : list (list Z)) (st : SendState) : list Deferred * SendState :=
  (queued ≫= defer_chunks RAW_APP_STREAM_ID, match queued with [] => st | _ => notify st end).

(** A migration that rebound: the next path id and connection id, in lock-step. *)
Definition migrated (r : RecvState) : RecvState :=
  let s := rs_session r in
  let '(_, c1) := next_migration_path_id (cid s) in
  let '(new_cid, c2) := advance_outbound_cid c1 in
  add_effect (add_effect (set_rs_session r (set_cid s c2)) (SetOutboundCid new_cid)) NotifyOutbound.

Definition take_control (ctl : ControlCommand) (r : RecvState) : RecvState :=
  match ctl with
  | CtlSetPriority id prio => update_stream id (λ s, set_priority s prio) r
  | CtlMigrate rebound | CtlMigrateServer rebound => if rebound then migrated r else r
  end.

(** The loop of [release_due_streams]: the releases not due yet, the queue. *)
Fixpoint release_items (releases : list (Z * Z)) (taken : Z) (q : list Deferred) (st : SendState)
  : list (Z * Z) * list Deferred * SendState :=
  match releases with
  | [] => ([], q, st)
  | (id, due) :: rest =>
    if taken <? due then (releases, q, st)
    else match rs_streams (ss_pump st) !! id with
    | None => release_items rest taken q st
    | Some s =>
      let st1 := on_pump (put_stream id (release_app_handle s)) st in
      if is_retirable (release_app_handle s) then release_items rest taken q (drop_released id st1)
      else release_items rest taken (q ++ [DeferRelease id]) st1
    end
  end.

Definition release_due_streams (accepts : bool) (releases : list (Z * Z)) (taken : Z) (q : list Deferred) (st : SendState)
  : list (Z * Z) * list Deferred * list Admit * SendState :=
  let '(rel, q1, st1) := release_items releases taken q st in
  if (length q <? length q1)%nat
  then let '(q2, out, st2) := flush_deferred_sends accepts q1 st1 in (rel, q2, out, notify st2)
  else (rel, q1, [], st1).

(** [StreamRegistry::retire_untouched_local]: whether the stream went on the spot. *)
Definition retire_untouched_local (id : Z) (st : SendState) : bool * SendState :=
  if negb (is_local_stream_id (rs_demux (ss_pump st)) id) then (false, st)
  else match rs_streams (ss_pump st) !! id with
  | Some s => if has_sent_reliable (sending s) then (false, st) else (true, on_pump (retire_released_stream id) st)
  | None => (false, st)
  end.

(** ** Staged flow-control limits *)

(** [take_pending_window_update] on every stream of the table. *)
Definition take_updates (r : RecvState) : list (Z * Z) * RecvState :=
  (omap (λ x, pair x.1 <$> (take_pending_window_update (receiving x.2)).1) (map_to_list (rs_streams r)),
   set_rs_streams r ((λ s, with_halves s (sending s) (take_pending_window_update (receiving s)).2) <$> rs_streams r)).

(** Send one limit; one that could not go out is staged again. *)
Definition flush_update (accepts : bool) (id limit : Z) (r : RecvState) : RecvState :=
  let '(frame, s) := send_window_update (rs_session r) id limit in
  let r1 := set_rs_session r s in
  match frame, accepts with
  | Some buf, true => add_effect r1 (SendBytes buf)
  | _, _ => update_stream id (λ s, with_halves s (sending s) (stage_window_update_limit (receiving s) limit)) r1
  end.

Fixpoint flush_updates (accepts : nat -> bool) (i : nat) (pending : list (Z * Z)) (r : RecvState) : RecvState :=
  match pending with
  | [] => r
  | (id, limit) :: rest => flush_updates accepts (S i) rest (flush_update (accepts i) id limit r)
  end.

Definition flush_pending_window_updates (accepts : nat -> bool) (r : RecvState) : RecvState :=
  let '(pending, r1) := take_updates r in flush_updates accepts 0 pending r1.

(** ** Streams keep their identity when they leave the table *)

Lemma held_put id s st id' :
  held_stream (put_held id s st) id' = if decide (id' = id) then Some s else held_stream st id'.
Proof.
  unfold put_held, held_stream. destruct (rs_streams (ss_pump st) !! id) eqn:E; cbn; case_decide as Hd; subst.
  - by rewrite lookup_insert_eq.
  - by rewrite lookup_insert_ne.
  - by rewrite E, lookup_insert_eq.
  - by rewrite lookup_insert_ne.
Qed.

Lemma held_detach id st id' : held_stream (detach id st) id' = held_stream st id'.
Proof.
  unfold detach, held_stream. destruct (rs_streams (ss_pump st) !! id) as [s|] eqn:E; [|done]. cbn.
  destruct (decide (id' = id)) as [->|Hne]; [by rewrite E|by rewrite lookup_insert_ne].
Qed.

(** The table without [id], the stream detached before. *)
Lemma held_removed id st st' id' :
  rs_streams (ss_pump st') = delete id (rs_streams (ss_pump st)) -> ss_detached st' = ss_detached (detach id st) ->
  held_stream st' id' = held_stream st id'.
Proof.
  intros E1 E2. rewrite <- (held_detach id st). unfold held_stream. rewrite E1, E2.
  destruct (decide (id' = id)) as [->|Hne].
  - rewrite lookup_delete_eq. unfold detach. destruct (rs_streams (ss_pump st) !! id) eqn:E; cbn; rewrite ?E, ?lookup_insert_eq; done.
  - rewrite lookup_delete_ne by done. unfold detach. by destruct (rs_streams (ss_pump st) !! id).
Qed.

Lemma held_dropped id st id' : held_stream (drop_released id st) id' = held_stream st id'.
Proof.
  unfold drop_released, retire_released_stream, on_pump.
  destruct (Z.leb_spec id RAW_APP_STREAM_ID); [apply held_detach|].
  destruct (rs_streams (ss_pump (detach id st)) !! id) eqn:E; [|apply held_detach].
  apply (held_removed id); cbn; [|done]. unfold detach. by destruct (rs_streams (ss_pump st) !! id).
Qed.

Lemma held_bare_fin accepts id st id' : held_stream (bare_fin accepts id st) id' = held_stream st id'.
Proof.
  unfold bare_fin. destruct (rs_streams (ss_pump st) !! id) eqn:E; [|done].
  destruct (send_segment _ _ _ _ _ _ _) as [[b r2] c] eqn:Es. apply send_segment_spec in Es as [Hst _].
  apply (held_removed id); cbn; [|done]. rewrite Hst. unfold detach. by rewrite E.
Qed.

(** ** A flush submits what it admits *)

Definition submits_as (adm : list (list Z * bool)) (h h' : SendHalf) : Prop :=
  ∀ rcv w a sub ap, rtc arq_step (mk_arq h rcv w a sub ap) (mk_arq h' rcv w a (sub ++ adm) ap).

Lemma submits_as_refl h : submits_as [] h h.
Proof. intros rcv w a sub ap. rewrite app_nil_r. apply rtc_refl. Qed.

Lemma submits_as_trans o1 o2 h1 h2 h3 : submits_as o1 h1 h2 -> submits_as o2 h2 h3 -> submits_as (o1 ++ o2) h1 h3.
Proof. intros H1 H2 rcv w a sub ap. etrans; [apply H1|]. rewrite app_assoc. apply H2. Qed.

Definition admits_for (id : Z) (out : list Admit) : list (list Z * bool) :=
  omap (λ x, if decide (x.1 = id) then Some x.2 else None) out.

Lemma admits_for_app id l1 l2 : admits_for id (l1 ++ l2) = admits_for id l1 ++ admits_for id l2.
Proof. apply omap_app. Qed.

Definition submitted_run (out : list Admit) (st st' : SendState) : Prop :=
  ∀ id s, held_stream st id = Some s ->
    ∃ h, held_stream st' id = Some (with_halves s h (receiving s)) ∧ submits_as (admits_for id out) (sending s) h.

Lemma submitted_same st st' : (∀ id, held_stream st' id = held_stream st id) -> submitted_run [] st st'.
Proof. intros E id s Hs. exists (sending s). rewrite E, Hs. split; [by destruct s|apply submits_as_refl]. Qed.

Lemma submitted_trans o1 o2 st1 st2 st3 : submitted_run o1 st1 st2 -> submitted_run o2 st2 st3 -> submitted_run (o1 ++ o2) st1 st3.
Proof.
  intros H1 H2 id s (h & E & R)%H1. apply H2 in E as (h2 & E & R2). exists h2. split; [done|].
  rewrite admits_for_app. by eapply submits_as_trans.
Qed.

Lemma submitted_one id s h x st :
  held_stream st id = Some s -> submits_as [x] (sending s) h -> submitted_run [(id, x)] st (set_held_sending id s h st).
Proof.
  intros E Hs id' s' E'. unfold set_held_sending. rewrite held_put. cbn. case_decide as Hd; subst.
  - rewrite decide_True by done. simplify_eq. eauto.
  - rewrite decide_False by done. exists (sending s'). rewrite E'. split; [by destruct s'|apply submits_as_refl].
Qed.

Definition item_ok (item : Deferred) : Prop :=
  match item with DeferData _ data => len data < 2 ^ 32 | _ => True end.

Lemma admit_fin_submits accepts id s st out st' :
  held_stream st id = Some s -> admit_fin accepts id s st = Some (out, st') -> submitted_run out st st'.
Proof.
  intros Hs. unfold admit_fin, try_queue_fin. case_test; [done|].
  destruct (push_segment _ _ _) as [[off h]|e] eqn:Ep; cbn; intros [= <- <-].
  - apply submitted_one; [done|]. intros rcv w a sub ap. apply rtc_once, arq_fin. unfold queue_fin.
    case_test; [lia|]. by rewrite Ep.
  - apply submitted_same. intros. apply held_bare_fin.
Qed.

Lemma admit_item_submits accepts item st out st' :
  item_ok item -> admit_item accepts item st = Some (out, st') -> submitted_run out st st'.
Proof.
  intros Hok. destruct item as [id data|id|id]; cbn [admit_item].
  - unfold admit_data. destruct (held_stream st id) as [s|] eqn:Hs; [|intros [= <- <-]; by apply submitted_same].
    destruct (is_local_finished s); [intros [= <- <-]; by apply submitted_same|].
    unfold try_send_reliable. case_test; [done|].
    destruct (push_segment _ _ _) as [[off h]|e] eqn:Ep; cbn; intros [= <- <-]; [|by apply submitted_same].
    apply submitted_one; [done|]. intros rcv w a sub ap. apply rtc_once. eapply arq_send; [exact Hok|].
    unfold send_reliable. case_test; [lia|]. by rewrite Ep.
  - destruct (held_stream st id) as [s|] eqn:Hs; [by apply admit_fin_submits|intros [= <- <-]; by apply submitted_same].
  - destruct (held_stream st id) as [s|] eqn:Hs; [|intros [= <- <-]; by apply submitted_same].
    unfold admit_release. repeat case_match; try (intros [= <- <-]; apply submitted_same; intros; (apply held_dropped || done)).
    by apply admit_fin_submits.
Qed.

Lemma flush_items_submits accepts q : ∀ st rest out st',
  Forall item_ok q -> flush_items accepts q st = (rest, out, st') -> submitted_run out st st'.
Proof.
  induction q as [|item q IH]; intros st rest out st' HF; cbn [flush_items]; [intros [= <- <- <-]; by apply submitted_same|].
  apply Forall_cons in HF as [Hok HF]. destruct (admit_item _ _ _) as [[o1 st1]|] eqn:E1; [|intros [= <- <- <-]; by apply submitted_same].
  destruct (flush_items accepts q st1) as [[r2 o2] st2] eqn:E2. intros [= <- <- <-].
  eapply submitted_trans; [by eapply admit_item_submits|by eapply IH].
Qed.

(** ** The system: application, pump, and the other tasks *)

(** [sn_cmds], [sn_reports] are the channels into the pump, [sn_deferred], [sn_releases],
    [sn_taken] its locals.  The rest is history: what entered the send buffers, what the
    application wrote, the streams that have existed, the handles it dropped, the streams
    it closed by a call. *)
Record Sender := mk_sender {
  sn_state : SendState;
  sn_cmds : list SessionCommand;
  sn_deferred : list Deferred;
  sn_reports : list Z;
  sn_releases : list (Z * Z);
  sn_taken : Z;
  sn_log : list Admit;
  sn_written : list (Z * list Z);
  sn_known : gset Z;
  sn_dropped : gset Z;
  sn_closed : gset Z;
}.

(** What another task may do to a stream in place: nothing that submits data. *)
Definition in_place (s s' : Stream) : Prop :=
  reliable_offset (sending s') = reliable_offset (sending s) ∧ is_local_finished s' = is_local_finished s.

Inductive sender_step : Sender -> Sender -> Prop :=
| sn_open st C D P L n log W K X CL id :
    id ∉ K ->
    sender_step (mk_sender st C D P L n log W K X CL)
      (mk_sender (on_pump (put_stream id (stream_new id)) st) C D P L n log W ({[id]} ∪ K) X CL)
| sn_write st C D P L n log W K X CL id data :
    id ∈ K -> id ∉ X ->
    sender_step (mk_sender st C D P L n log W K X CL)
      (mk_sender st (C ++ [CmdSendReliable id data]) D P L n log (W ++ [(id, data)]) K X CL)
| sn_send st C D P L n log W K X CL data :
    sender_step (mk_sender st C D P L n log W K X CL)
      (mk_sender st (C ++ [CmdSend data]) D P L n log (W ++ [(RAW_APP_STREAM_ID, data)]) K X CL)
| sn_unreliable st C D P L n log W K X CL id data :
    sender_step (mk_sender st C D P L n log W K X CL)
      (mk_sender st (C ++ [CmdSendUnreliable id data]) D P L n log W K X CL)
| sn_disconnect st C D P L n log W K X CL id :
    sender_step (mk_sender st C D P L n log W K X CL)
      (mk_sender st (C ++ [CmdCloseStream id]) D P L n log W K X ({[id]} ∪ CL))
| sn_drop st C D P L n log W K X CL id :
    id ∈ K -> RAW_APP_STREAM_ID < id ->
    sender_step (mk_sender st C D P L n log W K X CL)
      (mk_sender st C D (P ++ [id]) L n log W K ({[id]} ∪ X) CL)
| sn_drop_unused st C D P L n log W K X CL id st' :
    id ∈ K -> RAW_APP_STREAM_ID < id -> Forall (λ w, w.1 ≠ id) W -> retire_untouched_local id st = (true, st') ->
    sender_step (mk_sender st C D P L n log W K X CL)
      (mk_sender st' C D P L n log W K ({[id]} ∪ X) CL)
| sn_start st C P L n W K X CL queued D st' :
    start_queue queued st = (D, st') ->
    sender_step (mk_sender st C [] P L n [] W K X CL)
      (mk_sender st' C D P L n [] ((pair RAW_APP_STREAM_ID <$> queued) ++ W) K X CL)
| sn_take st cmd C P L n log W K X CL accepts D out st' :
    take_command accepts cmd [] st = (false, D, out, st') ->
    sender_step (mk_sender st (cmd :: C) [] P L n log W K X CL)
      (mk_sender st' C D P L (n + 1) (log ++ out) W K X CL)
| sn_report st C D id P L n log W K X CL :
    sender_step (mk_sender st C D (id :: P) L n log W K X CL)
      (mk_sender st C D P (L ++ [(id, n + len C)]) n log W K X CL)
| sn_release st C D P L n log W K X CL accepts L' D' out st' :
    release_due_streams accepts L n D st = (L', D', out, st') ->
    sender_step (mk_sender st C D P L n log W K X CL) (mk_sender st' C D' P L' n (log ++ out) W K X CL)
| sn_flush st C D P L n log W K X CL accepts D' out st' :
    flush_deferred_sends accepts D st = (D', out, st') ->
    sender_step (mk_sender st C D P L n log W K X CL) (mk_sender st' C D' P L n (log ++ out) W K X CL)
| sn_other st C D P L n log W K X CL id s s' :
    rs_streams (ss_pump st) !! id = Some s -> in_place s s' ->
    sender_step (mk_sender st C D P L n log W K X CL)
      (mk_sender (on_pump (put_stream id s') st) C D P L n log W K X CL)
| sn_retire st C D P L n log W K X CL id s :
    rs_streams (ss_pump st) !! id = Some s -> is_retirable s = true ->
    sender_step (mk_sender st C D P L n log W K X CL)
      (mk_sender (on_pump (Pump.retire_stream id) st) C D P L n log W K X CL)
| sn_session st C D P L n log W K X CL r c :
    rs_streams r = rs_streams (ss_pump st) ->
    sender_step (mk_sender st C D P L n log W K X CL) (mk_sender (mk_ss r c (ss_detached st)) C D P L n log W K X CL).

Definition sender_init (r : RecvState) (c : Congestion) : Sender :=
  mk_sender (mk_ss (set_rs_streams r {[RAW_APP_STREAM_ID := stream_new RAW_APP_STREAM_ID]}) c ∅)
    [] [] [] [] 0 [] [] {[RAW_APP_STREAM_ID]} ∅ ∅.

Inductive sender_reachable : Sender -> Prop :=
| sender_start r c : sender_reachable (sender_init r c)
| sender_more x y : sender_reachable x -> sender_step x y -> sender_reachable y.

(** The data for one stream in the log, the deferred queue, the command channel, and
    among what was written. *)
Definition datas (l : list (list Z * bool)) : list (list Z) :=
  omap (λ x, if x.2 : bool then None else Some x.1) l.
Definition qdata (id : Z) (q : list Deferred) : list (list Z) :=
  omap (λ d, match d with DeferData i data => if decide (i = id) then Some data else None | _ => None end) q.
Definition cmd_data (id : Z) (cmd : SessionCommand) : list (list Z) :=
  match cmd with
  | CmdSend data => if decide (RAW_APP_STREAM_ID = id) then chunks APP_CHUNK data else []
  | CmdSendReliable i data => if decide (i = id) then chunks APP_CHUNK data else []
  | _ => []
  end.
Definition cdata (id : Z) (C : list SessionCommand) : list (list Z) := C ≫= cmd_data id.
Definition wdata (id : Z) (W : list (Z * list Z)) : list (list Z) :=
  W ≫= λ w, if decide (w.1 = id) then chunks APP_CHUNK w.2 else [].

(** The stream is in the table, not finished, and has assigned [n] offsets. *)
Definition live (st : SendState) (id n : Z) : Prop :=
  ∃ s, rs_streams (ss_pump st) !! id = Some s ∧ is_local_finished s = false ∧ reliable_offset (sending s) = n.

Lemma datas_app l1 l2 : datas (l1 ++ l2) = datas l1 ++ datas l2.
Proof. apply omap_app. Qed.
Lemma qdata_app id l1 l2 : qdata id (l1 ++ l2) = qdata id l1 ++ qdata id l2.
Proof. apply omap_app. Qed.
Lemma cdata_app id l1 l2 : cdata id (l1 ++ l2) = cdata id l1 ++ cdata id l2.
Proof. apply bind_app. Qed.
Lemma wdata_app id l1 l2 : wdata id (l1 ++ l2) = wdata id l1 ++ wdata id l2.
Proof. apply bind_app. Qed.

Lemma qdata_chunks id i data : qdata id (defer_chunks i data) = if decide (i = id) then chunks APP_CHUNK data else [].
Proof.
  unfold defer_chunks. induction (chunks APP_CHUNK data) as [|d l IH]; [by case_decide|]. cbn.
  change (omap _ (DeferData i <$> l)) with (qdata id (DeferData i <$> l)). rewrite IH. by case_decide.
Qed.

Definition item_id (item : Deferred) : Z :=
  match item with DeferData id _ | DeferFin id | DeferRelease id => id end.

Lemma put_held_other id s st id' : id' ≠ id ->
  rs_streams (ss_pump (put_held id s st)) !! id' = rs_streams (ss_pump st) !! id'.
Proof. intros Hne. unfold put_held. destruct (_ !! id); cbn; [by rewrite lookup_insert_ne|done]. Qed.

Lemma detach_table id st : ss_pump (detach id st) = ss_pump st.
Proof. unfold detach. by destruct (_ !! _). Qed.

Lemma drop_released_other id st id' : id' ≠ id ->
  rs_streams (ss_pump (drop_released id st)) !! id' = rs_streams (ss_pump st) !! id'.
Proof.
  intros Hne. unfold drop_released, on_pump, retire_released_stream. cbn. rewrite detach_table.
  case_test; [done|]. destruct (_ !! id); [|done]. cbn. by rewrite lookup_delete_ne.
Qed.

Lemma bare_fin_other accepts id st id' : id' ≠ id ->
  rs_streams (ss_pump (bare_fin accepts id st)) !! id' = rs_streams (ss_pump st) !! id'.
Proof.
  intros Hne. unfold bare_fin. destruct (rs_streams (ss_pump st) !! id) eqn:E; [|done].
  destruct (send_segment _ _ _ _ _ _ _) as [[b r2] c] eqn:Es. apply send_segment_spec in Es as [Hst _].
  cbn. rewrite Hst. cbn. by rewrite detach_table, lookup_delete_ne.
Qed.

Lemma admit_fin_other accepts id s st out st' id' :
  admit_fin accepts id s st = Some (out, st') -> id' ≠ id ->
  admits_for id' out = [] ∧ rs_streams (ss_pump st') !! id' = rs_streams (ss_pump st) !! id'.
Proof.
  intros E Hne. revert E. unfold admit_fin. destruct (try_queue_fin _) as [[[] h]|e]; intros [= <- <-]; cbn.
  - rewrite decide_False by done. split; [done|]. by apply put_held_other.
  - split; [done|]. by apply bare_fin_other.
Qed.

Lemma admit_item_other accepts item st out st' id :
  admit_item accepts item st = Some (out, st') -> id ≠ item_id item ->
  admits_for id out = [] ∧ rs_streams (ss_pump st') !! id = rs_streams (ss_pump st) !! id.
Proof.
  intros E Hne. destruct item as [i data|i|i]; cbn [admit_item item_id] in *; [unfold admit_data in E| |];
    (destruct (held_stream st i) as [s|] eqn:Hs; [|by injection E as <- <-]).
  - destruct (is_local_finished s); [by injection E as <- <-|].
    destruct (try_send_reliable _ _) as [[[] h]|e]; [| |by injection E as <- <-]; [|done]. injection E as <- <-.
    cbn. rewrite decide_False by done. split; [done|by apply put_held_other].
  - by eapply admit_fin_other.
  - unfold admit_release in E. repeat case_match; try (injection E as <- <-; split; [done|]; (by apply drop_released_other) || done).
    by eapply admit_fin_other.
Qed.

(** A write at the head for a live stream is admitted. *)
Lemma admit_data_live id data st n out st' :
  live st id n -> 0 <= n < u_max 32 -> admit_data id data st = Some (out, st') ->
  out = [(id, (data, false))] ∧ live st' id (n + 1).
Proof.
  intros (s & Hs & Hf & Hn) Hb. unfold admit_data, held_stream. rewrite Hs, Hf.
  unfold try_send_reliable. case_test; [done|]. unfold push_segment, next_reliable_offset, checked_add. rewrite Hn.
  case_test; [|unfold in_u in *; lia]. cbn. intros [= <- <-]. split; [done|].
  unfold live, set_held_sending, put_held. rewrite Hs. cbn. rewrite lookup_insert_eq. eexists. split; [reflexivity|].
  by split.
Qed.

Lemma admit_close_nodata accepts item st out st' id :
  (∀ d, item ≠ DeferData id d) -> admit_item accepts item st = Some (out, st') -> datas (admits_for id out) = [].
Proof.
  intros Hitem E. destruct (decide (id = item_id item)) as [->|Hne]; [|by apply (admit_item_other _ _ _ _ _ id) in E as [-> _]].
  assert (Hfin : ∀ i s, admit_fin accepts i s st = Some (out, st') -> datas (admits_for i out) = []).
  { intros i s. unfold admit_fin. destruct (try_queue_fin _) as [[[] h]|e]; intros [= <- <-]; [|done]. cbn. by rewrite decide_True. }
  destruct item as [i data|i|i]; cbn in *; [by destruct (Hitem data)| |];
    (destruct (held_stream st i) as [s|]; [|by injection E as <- <-]); [by eapply Hfin|].
  unfold admit_release in E. repeat case_match; try (by injection E as <- <-). by eapply Hfin.
Qed.

Lemma flush_nodata accepts q id : ∀ st rest out st',
  flush_items accepts q st = (rest, out, st') -> qdata id q = [] ->
  datas (admits_for id out) = [] ∧ rest `suffix_of` q.
Proof.
  induction q as [|item q IH]; intros st rest out st' E Hq; cbn [flush_items] in E; [by injection E as <- <- <-|].
  destruct (admit_item _ _ _) as [[o1 st1]|] eqn:E1; [|injection E as <- <- <-; done].
  destruct (flush_items accepts q st1) as [[r2 o2] st2] eqn:E2. injection E as <- <- <-.
  assert (Hi : ∀ d, item ≠ DeferData id d) by (intros d ->; cbn in Hq; by rewrite decide_True in Hq).
  assert (Hq' : qdata id q = []) by (destruct item; cbn in Hq; try case_decide; done).
  destruct (IH _ _ _ _ E2 Hq') as [Hd Hs]. rewrite admits_for_app, datas_app, Hd, (admit_close_nodata _ _ _ _ _ _ Hi E1).
  split; [done|by apply suffix_cons_r].
Qed.

(** Nothing for the stream follows its release in the queue, and no FIN is queued. *)
Definition queue_ok (id : Z) (q : list Deferred) : Prop :=
  (DeferFin id ∉ q) ∧ ∀ q1 q2, q = q1 ++ DeferRelease id :: q2 -> qdata id q2 = [].

Lemma queue_ok_suffix id q1 q2 : q1 `suffix_of` q2 -> queue_ok id q2 -> queue_ok id q1.
Proof.
  intros [k ->] [Hf Ho]. split; [set_solver|]. intros a b ->. apply (Ho (k ++ a) b). by rewrite app_assoc.
Qed.

(** What a flush does to a live stream. *)
Lemma flush_live accepts q id : ∀ st n rest out st',
  flush_items accepts q st = (rest, out, st') -> queue_ok id q -> live st id n -> 0 <= n -> n + len out < u_max 32 ->
  datas (admits_for id out) ++ qdata id rest = qdata id q ∧ rest `suffix_of` q ∧
  ((live st' id (n + len (admits_for id out)) ∧ Forall (λ x, x.2 = false) (admits_for id out)) ∨
   (DeferRelease id ∈ q ∧ qdata id rest = [])).
Proof.
  induction q as [|item q IH]; intros st n rest out st' E Hok Hl Hn Hb; cbn [flush_items] in E.
  { injection E as <- <- <-. split_and!; [done|done|]. left. cbn. rewrite Z.add_0_r. done. }
  destruct (admit_item _ _ _) as [[o1 st1]|] eqn:E1.
  2: { injection E as <- <- <-. split_and!; [done|done|]. left. cbn. rewrite Z.add_0_r. done. }
  destruct (flush_items accepts q st1) as [[r2 o2] st2] eqn:E2. injection E as <- <- <-.
  assert (Hok' : queue_ok id q) by (eapply queue_ok_suffix; [|exact Hok]; by apply suffix_cons_r).
  rewrite len_app in Hb. assert (Hb1 : 0 <= n < u_max 32) by (pose proof (len_nonneg o1); pose proof (len_nonneg o2); lia).
  destruct (decide (id = item_id item)) as [Hid|Hne].
  - destruct item as [i data|i|i]; cbn in Hid; subst i.
    + cbn [admit_item] in E1. destruct (admit_data_live _ _ _ _ _ _ Hl Hb1 E1) as [-> Hl1]. change (len [(id, (data, false))]) with 1 in Hb.
      destruct (IH _ _ _ _ _ E2 Hok' Hl1 ltac:(lia) ltac:(lia)) as (Hd & Hs & Hc).
      cbn. rewrite !decide_True by done. change (omap _ o2) with (admits_for id o2). cbn.
      change (omap _ (admits_for id o2)) with (datas (admits_for id o2)). change (omap _ q) with (qdata id q).
      rewrite Hd. split_and!; [done|by apply suffix_cons_r|]. destruct Hc as [[Hl2 HF]|[Hr Hq]]; [left|right; split; [by right|done]].
      rewrite len_cons, Z.add_assoc. split; [done|by constructor].
    + destruct Hok as [Hf _]. set_solver.
    + pose proof (proj2 Hok [] q eq_refl) as Hq. destruct (flush_nodata _ _ id _ _ _ _ E2 Hq) as [Hd Hs].
      assert (Hr : qdata id r2 = []). { destruct Hs as [k ->]. rewrite qdata_app in Hq. by apply app_nil in Hq as [_ Hq]. }
      assert (Hnd : ∀ d, DeferRelease id ≠ DeferData id d) by done.
      rewrite admits_for_app, datas_app, Hd, Hr, (admit_close_nodata _ _ _ _ _ _ Hnd E1).
      split_and!; [exact (eq_sym Hq)|by apply suffix_cons_r|]. right. split; [by left|done].
  - destruct (admit_item_other _ _ _ _ _ _ E1 Hne) as [Ho Ht].
    assert (Hl1 : live st1 id n) by (destruct Hl as (s & ? & ?); exists s; by rewrite Ht).
    destruct (IH _ _ _ _ _ E2 Hok' Hl1 Hn ltac:(pose proof (len_nonneg o1); lia)) as (Hd & Hs & Hc).
    assert (Hq : qdata id (item :: q) = qdata id q).
    { destruct item as [i d|i|i]; cbn in Hne |- *; [|done..]. by rewrite decide_False by done. }
    rewrite admits_for_app, Ho, Hq. split_and!; [done|by apply suffix_cons_r|]. destruct Hc as [|[Hr ?]]; [by left|right; split; [by right|done]].
Qed.

Lemma flush_other accepts q id : ∀ st rest out st',
  flush_items accepts q st = (rest, out, st') -> Forall (λ item, id ≠ item_id item) q -> admits_for id out = [].
Proof.
  induction q as [|item q IH]; intros st rest out st' E HF; cbn [flush_items] in E; [by injection E as <- <- <-|].
  apply Forall_cons in HF as [Hne HF]. destruct (admit_item _ _ _) as [[o1 st1]|] eqn:E1; [|by injection E as <- <- <-].
  destruct (flush_items accepts q st1) as [[r2 o2] st2] eqn:E2. injection E as <- <- <-.
  rewrite admits_for_app, (IH _ _ _ _ E2 HF). by destruct (admit_item_other _ _ _ _ _ _ E1 Hne) as [-> _].
Qed.

(** Where a stream that no call has closed stands: alive, with everything admitted so
    far on it; over, with nothing more to come; or not opened yet. *)
Definition stands (id : Z) (K X : gset Z) (st : SendState) (log : list Admit) (rest : list (list Z)) : Prop :=
  (id ∈ K ∧ live st id (len (admits_for id log)) ∧ Forall (λ e, e.2 = false) (admits_for id log)) ∨
  (id ∈ K ∧ id ∈ X ∧ rest = []) ∨
  ((id ∉ K) ∧ (id ∉ X) ∧ admits_for id log = [] ∧ rest = []).

Lemma flush_stands accepts id K X st D cd log D' out st' :
  flush_deferred_sends accepts D st = (D', out, st') -> len (log ++ out) < u_max 32 -> queue_ok id D ->
  (DeferRelease id ∈ D -> id ∈ X ∧ cd = []) -> stands id K X st log (qdata id D ++ cd) ->
  stands id K X st' (log ++ out) (qdata id D' ++ cd) ∧ D' `suffix_of` D ∧
  datas (admits_for id (log ++ out)) ++ qdata id D' = datas (admits_for id log) ++ qdata id D.
Proof.
  unfold flush_deferred_sends. destruct (flush_items _ _ _) as [[rest o] st1] eqn:E. intros [= <- <- Est] Hb Hok Hrel Hst.
  assert (Hlive : ∀ n, live st1 id n -> live st' id n) by (subst st'; by destruct o).
  rewrite len_app in Hb. rewrite admits_for_app, datas_app, <- app_assoc.
  assert (Hlen : len (admits_for id log) <= len log).
  { clear. unfold len, admits_for. induction log as [|x l IH]; [done|]. cbn in *. case_decide; cbn; lia. }
  destruct Hst as [(HK & Hl & HF)|[(HK & HX & Hr)|(HK & HX & Hlog & Hr)]].
  - destruct (flush_live _ _ id _ _ _ _ _ E Hok Hl) as (Hd & Hs & Hc); [auto with phantom|lia|].
    rewrite Hd. split_and!; [|done|done]. destruct Hc as [[Hl' HF']|[Hr Hq]].
    + left. rewrite admits_for_app, len_app. split_and!; [done|by apply Hlive|by apply Forall_app].
    + right. left. destruct (Hrel Hr) as [HX ->]. by rewrite Hq.
  - apply app_nil in Hr as [Hq ->]. destruct (flush_nodata _ _ id _ _ _ _ E Hq) as [-> Hs].
    destruct Hs as [k Hs]. rewrite Hs, qdata_app in Hq. apply app_nil in Hq as [Hk Hq]. rewrite Hs, qdata_app, Hk, Hq.
    split_and!; [right; left; by rewrite app_nil_r|by exists k|done].
  - apply app_nil in Hr as [Hq ->].
    assert (HF : Forall (λ item, id ≠ item_id item) D).
    { apply Forall_forall. intros item Hi Hid. destruct Hok as [Hf _]. destruct item as [i d|i|i]; cbn in Hid; subst i; [|done|].
      - assert (d ∈ qdata id D) by (apply list_elem_of_omap; eexists; split; [done|]; cbn; by rewrite decide_True). rewrite Hq in *. set_solver.
      - by destruct (Hrel Hi). }
    rewrite (flush_other _ _ _ _ _ _ _ E HF). destruct (flush_nodata _ _ id _ _ _ _ E Hq) as [_ [k Hs]].
    rewrite Hs, qdata_app in Hq. apply app_nil in Hq as [Hk Hq]. rewrite Hs, qdata_app, Hk, Hq.
    split_and!; [|by exists k|done]. right. right. by rewrite admits_for_app, Hlog, (flush_other _ _ _ _ _ _ _ E HF).
Qed.

Lemma release_stands id K X n cd log : ∀ L D st L' D' st',
  release_items L n D st = (L', D', st') -> (∀ due, (id, due) ∈ L -> id ∈ X ∧ (due <= n -> cd = [])) ->
  queue_ok id D -> (DeferRelease id ∈ D -> id ∈ X ∧ cd = []) -> stands id K X st log (qdata id D ++ cd) ->
  stands id K X st' log (qdata id D' ++ cd) ∧ queue_ok id D' ∧ (DeferRelease id ∈ D' -> id ∈ X ∧ cd = []) ∧
  qdata id D' = qdata id D ∧ L' `suffix_of` L.
Proof.
  induction L as [|[i due] L IH]; intros D st L' D' st' E HL Hok Hrel Hst; cbn [release_items] in E; [injection E as <- <- <-; by split_and!|].
  destruct (Z.ltb_spec n due) as [|Hdue]; [injection E as <- <- <-; by split_and!|].
  assert (HL' : ∀ due, (id, due) ∈ L -> id ∈ X ∧ (due <= n -> cd = [])) by (intros; apply HL; by right).
  assert (Hgo : ∀ D1 st1, release_items L n D1 st1 = (L', D', st') -> queue_ok id D1 -> (DeferRelease id ∈ D1 -> id ∈ X ∧ cd = []) ->
    qdata id D1 = qdata id D -> stands id K X st1 log (qdata id D1 ++ cd) ->
    stands id K X st' log (qdata id D' ++ cd) ∧ queue_ok id D' ∧ (DeferRelease id ∈ D' -> id ∈ X ∧ cd = []) ∧
    qdata id D' = qdata id D ∧ L' `suffix_of` (i, due) :: L).
  { intros D1 st1 E1 H1 H2 H3 H4. destruct (IH _ _ _ _ _ E1 HL' H1 H2 H4) as (A1 & A2 & A3 & A4 & A5).
    split_and!; auto; [congruence|by apply suffix_cons_r]. }
  destruct (rs_streams (ss_pump st) !! i) as [s|] eqn:Es; [|by apply (Hgo D st)].
  set (st1 := on_pump _ st) in E.
  assert (Hl1 : ∀ k, live st id k -> live st1 id k ∧ (i = id -> is_retirable (release_app_handle s) = false)).
  { intros k (s0 & Hs0 & Hf & Hk). unfold live, st1. cbn. destruct (decide (i = id)) as [->|Hne].
    - rewrite lookup_insert_eq. assert (s0 = s) as -> by congruence. split; [eexists; split; [done|]; done|].
      intros _. unfold is_retirable, is_fin_acked. unfold is_local_finished in Hf. cbn. rewrite Hf. apply andb_false_r.
    - rewrite lookup_insert_ne by done. split; [eauto|done]. }
  destruct (is_retirable (release_app_handle s)) eqn:Er.
  - apply (Hgo D _ E); [done..|]. destruct Hst as [(HK & Hl & HF)|Hst]; [|by right]. left. split_and!; [done| |done].
    destruct (Hl1 _ Hl) as [(s1 & Hs1 & Hrest) Hi]. destruct (decide (i = id)) as [->|Hne]; [by discriminate Hi|].
    exists s1. rewrite drop_released_other by done. done.
  - assert (Hq : qdata id (D ++ [DeferRelease i]) = qdata id D) by (rewrite qdata_app; apply app_nil_r).
    apply (Hgo _ _ E); [| |done|].
    + destruct Hok as [Hf Ho]. split; [set_solver|]. intros q1 q2 Eq.
      destruct q2 as [|z q2 _] using rev_ind; [done|]. rewrite app_comm_cons, app_assoc in Eq. apply app_inj_tail in Eq as [Eq <-].
      rewrite qdata_app, (Ho _ _ Eq). done.
    + intros [Hd|Hd%list_elem_of_singleton]%elem_of_app; [by apply Hrel|]. injection Hd as <-.
      destruct (HL due) as [HX Hc]; [by left|]. auto.
    + rewrite Hq. destruct Hst as [(HK & Hl & HF)|Hst]; [|by right]. left. split_and!; [done| |done]. by apply Hl1.
Qed.

Ltac simpl_sender :=
  cbn [sn_state sn_cmds sn_deferred sn_reports sn_releases sn_taken sn_log sn_written sn_known sn_dropped sn_closed] in *.

Record id_inv (id : Z) (x : Sender) : Prop := {
  ii_ledger : datas (admits_for id (sn_log x)) ++ qdata id (sn_deferred x) ++ cdata id (sn_cmds x) = wdata id (sn_written x);
  ii_stands : stands id (sn_known x) (sn_dropped x) (sn_state x) (sn_log x) (qdata id (sn_deferred x) ++ cdata id (sn_cmds x));
  ii_reports : id ∈ sn_reports x -> id ∈ sn_dropped x;
  ii_due : ∀ due, (id, due) ∈ sn_releases x ->
    id ∈ sn_dropped x ∧ cdata id (drop (Z.to_nat (due - sn_taken x)) (sn_cmds x)) = [];
  ii_queue : DeferRelease id ∈ sn_deferred x -> id ∈ sn_dropped x ∧ cdata id (sn_cmds x) = [];
  ii_order : queue_ok id (sn_deferred x);
  ii_open : CmdCloseStream id ∉ sn_cmds x;
  ii_raw : id = RAW_APP_STREAM_ID -> id ∈ sn_known x ∧ (id ∉ sn_dropped x);
}.

Lemma cdata_drop_snoc id n C c : cmd_data id c = [] -> cdata id (drop n (C ++ [c])) = cdata id (drop n C).
Proof.
  intros Hc. rewrite drop_app, cdata_app. destruct (n - length C)%nat; cbn; [|rewrite drop_nil; apply app_nil_r].
  rewrite app_nil_r, Hc. apply app_nil_r.
Qed.

Lemma cdata_snoc id C c : cdata id (C ++ [c]) = cdata id C ++ cmd_data id c.
Proof. rewrite cdata_app. f_equal. apply app_nil_r. Qed.

(** A command that says nothing to the stream joins the channel. *)
Lemma inv_other_command id st C D P L n log W K X CL Z1 W' c :
  id_inv id (mk_sender st C D P L n log W K X CL) -> cmd_data id c = [] -> c ≠ CmdCloseStream id -> wdata id W' = wdata id W ->
  id_inv id (mk_sender st (C ++ [c]) D P L n log W' K X Z1).
Proof.
  intros [H1 H2 H3 H4 H5 H6 H7 H8] Hc Hne HW. simpl_sender.
  assert (E : cdata id (C ++ [c]) = cdata id C) by (rewrite cdata_snoc, Hc; apply app_nil_r).
  split; simpl_sender; rewrite ?E, ?HW; auto.
  - intros due [? ?]%H4. by rewrite cdata_drop_snoc.
  - intros [|[=]%list_elem_of_singleton]%elem_of_app; done.
Qed.

(** A write joins the channel. *)
Lemma inv_write_command id st C D P L n log W K X CL c data :
  id_inv id (mk_sender st C D P L n log W K X CL) -> cmd_data id c = chunks APP_CHUNK data -> c ≠ CmdCloseStream id ->
  id ∈ K -> id ∉ X -> id_inv id (mk_sender st (C ++ [c]) D P L n log (W ++ [(id, data)]) K X CL).
Proof.
  intros [H1 H2 H3 H4 H5 H6 H7 H8] Hc Hne HK HX. simpl_sender. split; simpl_sender; auto.
  - rewrite cdata_snoc, wdata_app, <- H1, Hc. cbn. rewrite decide_True by done. cbn. by rewrite app_nil_r, !app_assoc.
  - destruct H2 as [H2|[(_ & ? & _)|(? & _)]]; [by left|done..].
  - intros due [? ?]%H4. done.
  - intros [? ?]%H5. done.
  - intros [|[=]%list_elem_of_singleton]%elem_of_app; done.
Qed.

(** The front command leaves the channel and its data joins the queue. *)
Lemma inv_flush id st C C' D P L n n' log W K X CL accepts D1 D' out st' :
  id_inv id (mk_sender st C D P L n log W K X CL) -> len (log ++ out) < u_max 32 ->
  flush_deferred_sends accepts D1 st = (D', out, st') -> queue_ok id D1 ->
  qdata id D1 ++ cdata id C' = qdata id D ++ cdata id C -> (DeferRelease id ∈ D1 -> id ∈ X ∧ cdata id C' = []) ->
  (CmdCloseStream id ∉ C') -> (∀ due, (id, due) ∈ L -> cdata id (drop (Z.to_nat (due - n')) C') = []) ->
  id_inv id (mk_sender st' C' D' P L n' (log ++ out) W K X CL).
Proof.
  intros [H1 H2 H3 H4 H5 H6 H7 H8] Hb Hf Hok Hq Hrel Hopen Hdue. simpl_sender.
  rewrite <- Hq in H2. destruct (flush_stands _ _ _ _ _ _ _ _ _ _ _ Hf Hb Hok Hrel H2) as (Hst & Hsuf & Hled).
  split; simpl_sender; auto.
  - by rewrite app_assoc, Hled, <- H1, <- app_assoc, Hq.
  - intros due Hd. split; [by apply (H4 due)|by apply Hdue].
  - intros Hd. apply Hrel. destruct Hsuf as [k ->]. set_solver.
  - by eapply queue_ok_suffix.
Qed.

Lemma drop_due {A} (due n : Z) (c : A) C :
  drop (Z.to_nat (due - (n + 1))) C = drop (Z.to_nat (due - n)) (c :: C) ∨ (Z.to_nat (due - n) = 0)%nat.
Proof.
  destruct (Z.leb_spec due n); [right; lia|left].
  replace (Z.to_nat (due - n)) with (S (Z.to_nat (due - (n + 1)))) by lia. done.
Qed.

Lemma inv_due_next id C c due n :
  cdata id (drop (Z.to_nat (due - n)) (c :: C)) = [] -> cdata id (drop (Z.to_nat (due - (n + 1))) C) = [].
Proof.
  intros Hd. destruct (drop_due due n c C) as [->|E0]; [done|]. rewrite E0 in Hd. cbn in Hd.
  replace (Z.to_nat (due - (n + 1))) with 0%nat by lia. by apply app_nil in Hd as [_ Hd].
Qed.

(** The stream of another id, or none, changes. *)
Lemma inv_state id st st' C D P L n log W K K' X CL :
  id_inv id (mk_sender st C D P L n log W K X CL) ->
  (∀ k, live st id k -> live st' id k) -> (id ∈ K' <-> id ∈ K) ->
  id_inv id (mk_sender st' C D P L n log W K' X CL).
Proof.
  intros [H1 H2 H3 H4 H5 H6 H7 H8] Hl HK. simpl_sender. split; simpl_sender; auto.
  - unfold stands in *. rewrite HK. destruct H2 as [(? & ? & ?)|?]; [left; auto|by right].
  - by rewrite HK.
Qed.

Lemma inv_take id st cmd C P L n log W K X CL accepts D out st' :
  id_inv id (mk_sender st (cmd :: C) [] P L n log W K X CL) -> len (log ++ out) < u_max 32 ->
  take_command accepts cmd [] st = (false, D, out, st') ->
  id_inv id (mk_sender st' C D P L (n + 1) (log ++ out) W K X CL).
Proof.
  intros Hi Hb E. pose proof Hi as [H1 H2 H3 H4 H5 H6 H7 H8]. simpl_sender.
  assert (Hdue : ∀ due, (id, due) ∈ L -> cdata id (drop (Z.to_nat (due - (n + 1))) C) = []).
  { intros due [_ Hd]%H4. by eapply inv_due_next. }
  assert (Hopen : CmdCloseStream id ∉ C) by set_solver.
  assert (Hcd : cdata id (cmd :: C) = cmd_data id cmd ++ cdata id C) by done.
  assert (Hnop : cmd_data id cmd = [] -> out = [] -> D = [] -> (∀ k, live st id k -> live st' id k) ->
    id_inv id (mk_sender st' C D P L (n + 1) (log ++ out) W K X CL)).
  { intros Hc -> -> Hl. rewrite app_nil_r. rewrite Hcd, Hc in *. split; simpl_sender; auto.
    - destruct H2 as [(? & ? & ?)|?]; [left; auto|by right].
    - intros due Hd. split; [by apply (H4 due)|auto]. }
  assert (Hq0 : ∀ D1 D2 o2 st2 i data, flush_deferred_sends accepts D1 st = (D2, o2, st2) -> D1 = defer_chunks i data ->
    cmd_data id cmd = qdata id D1 -> len (log ++ o2) < u_max 32 ->
    id_inv id (mk_sender st2 C D2 P L (n + 1) (log ++ o2) W K X CL)).
  { intros D1 D2 o2 st2 i data Hf -> Hq Hb2. eapply inv_flush; [exact Hi|done|exact Hf| |by rewrite Hcd, Hq| |done|done].
    - unfold defer_chunks. split; [intros (? & ? & _)%list_elem_of_fmap; done|]. intros q1 q2 Eq.
      assert (Hin : DeferRelease id ∈ DeferData i <$> chunks APP_CHUNK data) by (rewrite Eq; set_solver).
      by apply list_elem_of_fmap in Hin as (? & ? & _).
    - intros (? & ? & _)%list_elem_of_fmap. done. }
  assert (Hnote : ∀ D2 o2 st2, id_inv id (mk_sender st2 C D2 P L (n + 1) (log ++ o2) W K X CL) ->
    id_inv id (mk_sender (notify st2) C D2 P L (n + 1) (log ++ o2) W K X CL)) by (intros; by eapply inv_state).
  destruct cmd as [data|i data|i data|i|]; cbn [take_command] in E; rewrite ?app_nil_l in E.
  - destruct (flush_deferred_sends _ _ _) as [[D2 o2] st2] eqn:Ef. injection E as <- <- <-.
    apply Hnote. eapply Hq0; [exact Ef|done|by rewrite qdata_chunks|done].
  - destruct (rs_streams (ss_pump st) !! i) eqn:Et.
    + destruct (flush_deferred_sends _ _ _) as [[D2 o2] st2] eqn:Ef. injection E as <- <- <-.
      eapply Hq0; [exact Ef|done|by rewrite qdata_chunks|done].
    + injection E as <- <- <-. apply Hnop; [|done..]. cbn. case_decide as Hd; [subst i|done].
      destruct H2 as [(_ & (s & Hs & _) & _)|[(_ & _ & Hr)|(_ & _ & _ & Hr)]]; [congruence| |];
        rewrite Hcd in Hr; cbn in Hr; rewrite decide_True in Hr by done; by apply app_nil in Hr as [Hr _].
  - destruct (rs_streams (ss_pump st) !! i) as [s|] eqn:Et; [|injection E as <- <- <-; by apply Hnop].
    destruct (is_local_finished s) eqn:Efin; injection E as <- <- <-; [by apply Hnop|]. apply Hnop; [done..|].
    intros k (s0 & Hs0 & Hf & Hk). unfold live. cbn. destruct (decide (i = id)) as [->|Hne].
    + rewrite lookup_insert_eq. eexists. split; [done|]. cbn. assert (s0 = s) as -> by congruence.
      assert (Hu : ∀ l h, local_finished (foldl send_unreliable h l) = local_finished h ∧
                          reliable_offset (foldl send_unreliable h l) = reliable_offset h).
      { induction l as [|d l IHl]; intros h; [done|]. cbn. by rewrite !(proj1 (IHl _)), !(proj2 (IHl _)). }
      unfold is_local_finished in *. cbn. by rewrite (proj1 (Hu _ _)), (proj2 (Hu _ _)).
    + rewrite lookup_insert_ne by done. eauto.
  - assert (Hi' : i ≠ id) by (intros ->; set_solver).
    destruct (rs_streams (ss_pump st) !! i) eqn:Et; [|injection E as <- <- <-; by apply Hnop].
    destruct (flush_deferred_sends _ _ _) as [[D2 o2] st2] eqn:Ef. injection E as <- <- <-.
    apply Hnote. eapply inv_flush; [exact Hi|done|exact Ef| |done|set_solver|done|done].
    split; [set_solver|]. intros q1 q2 Eq. assert (DeferRelease id ∈ [DeferFin i]) by (rewrite Eq; set_solver). set_solver.
  - done.
Qed.

Lemma inv_release id st C D P L n log W K X CL accepts L' D' out st' :
  id_inv id (mk_sender st C D P L n log W K X CL) -> len (log ++ out) < u_max 32 ->
  release_due_streams accepts L n D st = (L', D', out, st') ->
  id_inv id (mk_sender st' C D' P L' n (log ++ out) W K X CL).
Proof.
  intros Hi Hb E. pose proof Hi as [H1 H2 H3 H4 H5 H6 H7 H8]. simpl_sender. revert E. unfold release_due_streams.
  destruct (release_items _ _ _ _) as [[L1 D1] st1] eqn:Er. intros E.
  destruct (release_stands id K X n (cdata id C) log _ _ _ _ _ _ Er) as (A1 & A2 & A3 & A4 & A5); try done.
  { intros due [HX Hd]%H4. split; [done|]. intros Hle. replace (Z.to_nat (due - n)) with 0%nat in Hd by lia. done. }
  assert (HL : ∀ due, (id, due) ∈ L1 -> (id, due) ∈ L) by (destruct A5 as [k ->]; set_solver).
  assert (Hi1 : id_inv id (mk_sender st1 C D1 P L1 n log W K X CL)).
  { split; simpl_sender; auto. by rewrite A4. }
  destruct (length D <? length D1)%nat.
  - destruct (flush_deferred_sends _ _ _) as [[D2 o2] st2] eqn:Ef. injection E as <- <- <- <-.
    eapply (inv_state _ st2); [|done|done]. eapply inv_flush; [exact Hi1|done|exact Ef|done|done|done|done|].
    intros due Hd. by apply (H4 due), HL.
  - injection E as <- <- <- <-. by rewrite app_nil_r.
Qed.

(** A handle is let go, with or without a report. *)
Lemma inv_dropped id st C D P P' L n log W K X CL i :
  id_inv id (mk_sender st C D P L n log W K X CL) -> RAW_APP_STREAM_ID < i -> i ∈ K -> P' = P ∨ P' = P ++ [i] ->
  id_inv id (mk_sender st C D P' L n log W K ({[i]} ∪ X) CL).
Proof.
  intros [I1 I2 I3 I4 I5 I6 I7 I8] Hraw HK HP. simpl_sender. split; simpl_sender; auto.
  - destruct I2 as [?|[(? & ? & ?)|(? & ? & ? & ?)]]; [by left|right; left; split_and!; [done|by apply elem_of_union_r|done]|].
    right. right. split_and!; [done|intros [->%elem_of_singleton|]%elem_of_union; done|done..].
  - intros Hp. apply elem_of_union. destruct HP as [->| ->]; [right; auto|].
    apply elem_of_app in Hp as [Hp| ->%list_elem_of_singleton]; [right; auto|left; by apply elem_of_singleton].
  - intros due [? ?]%I4. split; [by apply elem_of_union_r|done].
  - intros [? ?]%I5. split; [by apply elem_of_union_r|done].
  - intros Hi. destruct (I8 Hi). split; [done|]. intros [Hx%elem_of_singleton|]%elem_of_union; [|done]. subst. lia.
Qed.

Lemma wdata_none id W : Forall (λ w, w.1 ≠ id) W -> wdata id W = [].
Proof. induction 1 as [|w W Hw _ IH]; [done|]. cbn. by rewrite decide_False. Qed.

Lemma untouched_other id st st' id' : retire_untouched_local id st = (true, st') -> id' ≠ id ->
  rs_streams (ss_pump st') !! id' = rs_streams (ss_pump st) !! id'.
Proof.
  unfold retire_untouched_local. repeat case_match; intros [= <-] Hne. cbn. unfold retire_released_stream.
  case_test; [done|]. rewrite H1. cbn. by rewrite lookup_delete_ne.
Qed.

Lemma start_no_close queued item : item ∈ (queued ≫= defer_chunks RAW_APP_STREAM_ID) -> ∃ d, item = DeferData RAW_APP_STREAM_ID d.
Proof. intros (m & (d & -> & _)%list_elem_of_fmap & _)%list_elem_of_bind. by exists d. Qed.

Lemma start_data id queued :
  qdata id (queued ≫= defer_chunks RAW_APP_STREAM_ID) = wdata id (pair RAW_APP_STREAM_ID <$> queued).
Proof.
  induction queued as [|m l IH]; [done|]. change (qdata id (defer_chunks RAW_APP_STREAM_ID m ++ (l ≫= defer_chunks RAW_APP_STREAM_ID)) =
    (if decide (RAW_APP_STREAM_ID = id) then chunks APP_CHUNK m else []) ++ wdata id (pair RAW_APP_STREAM_ID <$> l)).
  by rewrite qdata_app, qdata_chunks, IH.
Qed.

Lemma inv_start id st C P L n W K X CL queued D st' :
  start_queue queued st = (D, st') -> id_inv id (mk_sender st C [] P L n [] W K X CL) ->
  id_inv id (mk_sender st' C D P L n [] ((pair RAW_APP_STREAM_ID <$> queued) ++ W) K X CL).
Proof.
  intros [= <- <-] [I1 I2 I3 I4 I5 I6 I7 I8]. simpl_sender. cbn in I1.
  assert (Hno : ∀ item, item ∈ (queued ≫= defer_chunks RAW_APP_STREAM_ID) -> item ≠ DeferRelease id ∧ item ≠ DeferFin id)
    by (intros item [d ->]%start_no_close; done).
  split; simpl_sender; auto.
  - cbn. by rewrite start_data, wdata_app, <- I1.
  - destruct I2 as [(? & Hl & ?)|I2]; [left; split_and!; auto; by destruct queued|]. right.
    destruct (decide (id = RAW_APP_STREAM_ID)) as [->|Hne].
    { destruct (I8 eq_refl). by destruct I2 as [(? & ? & _)|(? & _)]. }
    replace (qdata id _) with (@nil (list Z)); [done|]. rewrite start_data. clear -Hne.
    induction queued; cbn; [done|]. by rewrite decide_False.
  - by intros [[]]%Hno.
  - split; [by intros [_ []]%Hno|]. intros q1 q2 E. destruct (Hno (DeferRelease id)) as [[]]; [rewrite E; set_solver|done].
Qed.

Lemma inv_step id x y :
  sender_step x y -> id ∉ sn_closed y -> len (sn_log y) < u_max 32 -> id_inv id x -> id_inv id y.
Proof.
  intros Hstep Hcl Hb Hi. destruct Hstep; simpl_sender.
  - destruct (decide (id = id0)) as [->|Hne].
    + destruct Hi as [I1 I2 I3 I4 I5 I6 I7 I8]. simpl_sender.
      destruct I2 as [(? & _)|[(? & _)|(_ & HX & Hlog & Hr)]]; [done..|]. split; simpl_sender; auto; [|set_solver].
      left. rewrite Hlog. split_and!; [set_solver| |constructor]. exists (stream_new id0). cbn. by rewrite lookup_insert_eq.
    + apply (inv_state _ st _ _ _ _ _ _ _ _ K); [done| |set_solver]. intros k (s & Hs & ?). exists s. cbn. by rewrite lookup_insert_ne.
  - destruct (decide (id = id0)) as [->|Hne].
    + eapply inv_write_command; [done| |done|done|done]. cbn. by rewrite decide_True.
    + eapply inv_other_command; [done| |done|]; [cbn; by rewrite decide_False|].
      rewrite wdata_app. cbn. rewrite decide_False by done. apply app_nil_r.
  - destruct (decide (id = RAW_APP_STREAM_ID)) as [->|Hne].
    + destruct (ii_raw _ _ Hi eq_refl). eapply inv_write_command; [done| |done|done|done]. cbn. by rewrite decide_True.
    + eapply inv_other_command; [done| |done|]; [cbn; by rewrite decide_False|].
      rewrite wdata_app. cbn. rewrite decide_False by done. apply app_nil_r.
  - by eapply inv_other_command.
  - eapply inv_other_command; [done|done| |done]. intros [= ->]. set_solver.
  - eapply inv_dropped; [exact Hi|done|done|by right].
  - destruct (decide (id = id0)) as [->|Hne].
    + destruct (inv_dropped id0 st C D P P L n log W K X CL id0) as [I1 _ I3 I4 I5 I6 I7 I8]; auto. simpl_sender.
      rewrite (wdata_none _ _ H2) in I1. pose proof I1 as [_ Hr]%app_nil.
      split; simpl_sender; rewrite ?(wdata_none _ _ H2), ?Hr; auto; [by rewrite Hr in I1|right; left; set_solver].
    + apply (inv_state _ st _ _ _ _ _ _ _ _ K); [eapply inv_dropped; [exact Hi|done|done|by left]| |done].
      intros k (s & Hs & ?). exists s. by rewrite (untouched_other _ _ _ _ H3).
  - by eapply inv_start.
  - by eapply inv_take.
  - destruct Hi as [I1 I2 I3 I4 I5 I6 I7 I8]. simpl_sender. split; simpl_sender; auto; [set_solver|].
    intros due [Hd|[= -> ->]%list_elem_of_singleton]%elem_of_app; [auto|]. split; [set_solver|].
    rewrite Z.add_simpl_l. unfold len. by rewrite Nat2Z.id, drop_all.
  - by eapply inv_release.
  - pose proof Hi as [I1 I2 I3 I4 I5 I6 I7 I8]. simpl_sender. eapply inv_flush; try done. intros due Hd. by apply (I4 due).
  - apply (inv_state _ st _ _ _ _ _ _ _ _ K); [done| |done]. intros k (s0 & Hs & Hf & Hk). unfold live. cbn.
    destruct (decide (id = id0)) as [->|Hne]; [|rewrite lookup_insert_ne by done; eauto].
    rewrite lookup_insert_eq. exists s'. destruct H1 as [E1 E2]. assert (s0 = s) as -> by congruence. split_and!; congruence.
  - apply (inv_state _ st _ _ _ _ _ _ _ _ K); [done| |done]. intros k (s0 & Hs & Hf & Hk). unfold live, Pump.retire_stream. cbn.
    case_test; [eauto|]. rewrite H0. cbn. destruct (decide (id = id0)) as [->|Hne]; [|rewrite lookup_delete_ne by done; eauto].
    assert (s0 = s) as -> by congruence. unfold is_retirable, is_fin_acked in H1. unfold is_local_finished in Hf.
    rewrite Hf, andb_false_r in H1. done.
  - apply (inv_state _ st _ _ _ _ _ _ _ _ K); [done| |done]. intros k (s0 & Hs & Hf & Hk). exists s0. cbn. by rewrite H0.
Qed.

Lemma step_mono x y : sender_step x y -> sn_closed x ⊆ sn_closed y ∧ len (sn_log x) <= len (sn_log y).
Proof.
  destruct 1; simpl_sender; rewrite ?len_app; (split; [done || apply union_subseteq_r|]); try lia; pose proof (len_nonneg out); lia.
Qed.

Lemma reachable_inv id x : sender_reachable x -> id ∉ sn_closed x -> len (sn_log x) < u_max 32 -> id_inv id x.
Proof.
  induction 1 as [r c|x y Hx IH Hs]; intros Hcl Hb.
  - split; cbn; try set_solver.
    + destruct (decide (id = RAW_APP_STREAM_ID)) as [->|Hne]; [left|right; right; set_solver].
      split_and!; [set_solver| |constructor]. exists (stream_new RAW_APP_STREAM_ID). split; [apply lookup_singleton_eq|done].
    + split; [set_solver|]. by intros [] ?.
  - pose proof (step_mono x y Hs) as [? ?]. apply (inv_step id x y); [done..|]. apply IH; [set_solver|lia].
Qed.

(** ** Runs of the system *)

Inductive sender_act :=
| ActOpen (id : Z) | ActWrite (id : Z) (data : list Z) | ActDrop (id : Z) | ActTake | ActReport | ActRelease | ActFlush.

Definition sender_exec (x : Sender) (act : sender_act) : Sender :=
  let '(mk_sender st C D P L n log W K X CL) := x in
  match act with
  | ActOpen id =>
    if decide (id ∈ K) then x
    else mk_sender (on_pump (put_stream id (stream_new id)) st) C D P L n log W ({[id]} ∪ K) X CL
  | ActWrite id data =>
    if decide (id ∈ K ∧ (id ∉ X)) then mk_sender st (C ++ [CmdSendReliable id data]) D P L n log (W ++ [(id, data)]) K X CL else x
  | ActDrop id =>
    if decide (id ∈ K ∧ RAW_APP_STREAM_ID < id) then mk_sender st C D (P ++ [id]) L n log W K ({[id]} ∪ X) CL else x
  | ActTake =>
    match C, D with
    | cmd :: C', [] =>
      let '(closes, D', out, st') := take_command true cmd [] st in
      if closes : bool then x else mk_sender st' C' D' P L (n + 1) (log ++ out) W K X CL
    | _, _ => x
    end
  | ActReport => match P with id :: P' => mk_sender st C D P' (L ++ [(id, n + len C)]) n log W K X CL | [] => x end
  | ActRelease => let '(L', D', out, st') := release_due_streams true L n D st in mk_sender st' C D' P L' n (log ++ out) W K X CL
  | ActFlush => let '(D', out, st') := flush_deferred_sends true D st in mk_sender st' C D' P L n (log ++ out) W K X CL
  end.

Lemma sender_exec_reachable x act : sender_reachable x -> sender_reachable (sender_exec x act).
Proof.
  intros Hx. destruct x as [st C D P L n log W K X CL], act as [id|id data|id| | | |]; cbn.
  - case_decide; [done|]. by eapply sender_more, sn_open.
  - case_decide as Hd; [|done]. destruct Hd. by eapply sender_more, sn_write.
  - case_decide as Hd; [|done]. destruct Hd. by eapply sender_more, sn_drop.
  - destruct C as [|cmd C], D as [|d D]; try done. destruct (take_command _ _ _ _) as [[[[] D'] out] st'] eqn:E; [done|].
    by eapply sender_more, sn_take.
  - destruct P as [|id P]; [done|]. eapply sender_more; [done|apply sn_report].
  - destruct (release_due_streams _ _ _ _ _) as [[[L' D'] out] st'] eqn:E. by eapply sender_more, sn_release.
  - destruct (flush_deferred_sends _ _ _) as [[D' out] st'] eqn:E. by eapply sender_more, sn_flush.
Qed.

Lemma sender_run_reachable acts : ∀ x, sender_reachable x -> sender_reachable (foldl sender_exec x acts).
Proof. induction acts; intros x Hx; cbn; [done|]. auto using sender_exec_reachable. Qed.

Lemma wdata_bytes id W : concat (wdata id W) = concat ((filter (λ w, w.1 = id) W).*2).
Proof.
  induction W as [|[i d] W IH]; [done|]. 
  change (wdata id ((i, d) :: W)) with ((if decide (i = id) then chunks APP_CHUNK d else []) ++ wdata id W).
  rewrite filter_cons. cbn [fst]. case_decide; [|done]. rewrite concat_app, IH, chunks_concat; [done|]. vm_compute. lia.
Qed.

End SendQueue.

(** ** Properties *)

(** A flush of the deferred queue takes items from its front only and stops at the first
    one the buffer refuses; for every stream, what it admitted is what the sender of
    Arq.v was given, in order. *)
Theorem flush_submits_in_order `{Primitives} {ch : Mpsc} (accepts : bool) (q : list Deferred) (st : SendState) :
  Forall item_ok q ->
  let '(rest, out, st') := flush_deferred_sends accepts q st in
  submitted_run out st st' ∧ rest `suffix_of` q ∧
  match rest with [] => True | item :: _ => ∃ st1, admit_item accepts item st1 = None end.
Proof.
  intros HF. unfold flush_deferred_sends. destruct (flush_items accepts q st) as [[rest out] st'] eqn:E.
  split; [|split].
  - pose proof (flush_items_submits _ _ _ _ _ _ HF E) as Hs. by destruct out.
  - clear HF. revert st rest out st' E. induction q as [|item q IH]; intros st rest out st' E; cbn in E; [by injection E as <- <- <-|].
    destruct (admit_item _ _ _) as [[o1 st1]|]; [|injection E as <- <- <-; done].
    destruct (flush_items accepts q st1) as [[r2 o2] st2] eqn:E2. injection E as <- <- <-. apply suffix_cons_r. by eapply IH.
  - clear HF. revert st rest out st' E. induction q as [|item q IH]; intros st rest out st' E; cbn in E; [by injection E as <- <- <-|].
    destruct (admit_item accepts item st) as [[o1 st1]|] eqn:E1; [|injection E as <- <- <-; by exists st].
    destruct (flush_items accepts q st1) as [[r2 o2] st2] eqn:E2. injection E as <- <- <-. by eapply IH.
Qed.

(** However the application writes, drops handles and is interleaved with the pump and
    the other tasks: what has entered the send buffer of a stream that no call closed is
    a prefix of what was written on it, chunk by chunk; and when its FIN has entered,
    the handle was dropped and everything written on it entered before.  Fewer than
    [2^32 - 1] segments in all keep clear of the offset limit. *)
Theorem dropped_handle_closes_behind_writes `{Primitives} {ch : Mpsc} (x : Sender) (id : Z) :
  sender_reachable x -> id ∉ sn_closed x -> len (sn_log x) < u_max 32 ->
  datas (admits_for id (sn_log x)) `prefix_of` wdata id (sn_written x) ∧
  concat (wdata id (sn_written x)) = concat ((filter (λ w, w.1 = id) (sn_written x)).*2) ∧
  ∀ d, (d, true) ∈ admits_for id (sn_log x) ->
    id ∈ sn_dropped x ∧ datas (admits_for id (sn_log x)) = wdata id (sn_written x).
Proof.
  intros Hx Hcl Hb. destruct (reachable_inv id x Hx Hcl Hb) as [Hl Hs _ _ _ _ _ _]. rewrite <- Hl at 1. split_and!.
  - by apply prefix_app_r.
  - apply wdata_bytes.
  - intros d Hd. destruct Hs as [(_ & _ & HF)|[(_ & HX & Hr)|(_ & _ & He & _)]].
    + rewrite Forall_forall in HF. by apply HF in Hd.
    + split; [done|]. by rewrite <- Hl, Hr, app_nil_r.
    + rewrite He in Hd. by apply not_elem_of_nil in Hd.
Qed.

#[local] Existing Instance list_chan.

(** Two writes on stream 5, the handle dropped, and the report read before the writes:
    the release waits until both have been taken. *)
Definition toy_sender : Sender :=
  foldl (sender_exec (H := toy_primitives)) (sender_init toy_client (mk_cong (est_new 0) (unlimited 0)))
    [ActOpen 5; ActWrite 5 [1; 2]; ActWrite 5 [3]; ActDrop 5; ActReport; ActRelease; ActTake; ActRelease; ActTake; ActRelease].

Lemma dropped_handle_closes_behind_writes_witness :
  admits_for 5 (sn_log toy_sender) = [([1; 2], false); ([3], false); ([], true)] ∧
  datas (admits_for 5 (sn_log toy_sender)) = wdata 5 (sn_written toy_sender).
Proof.
  split; [vm_compute; reflexivity|].
  destruct (dropped_handle_closes_behind_writes (H := toy_primitives) toy_sender 5) as (_ & _ & Hfin).
  - apply sender_run_reachable, sender_start.
  - vm_compute. intros Hx. inversion Hx.
  - vm_compute. reflexivity.
  - apply (Hfin []).
    replace (admits_for 5 (sn_log toy_sender)) with [([1; 2], false); ([3], false); ([] : list Z, true)] by (vm_compute; reflexivity).
    right. right. left.
Defined.

(** The raw stream takes a write; a stream that does not exist takes nothing. *)
Lemma flush_submits_in_order_witness :
  let st := sn_state toy_sender in
  let q := [DeferData 1 [7]; DeferData 9 [8]; DeferFin 1] in
  (flush_deferred_sends (H := toy_primitives) true q st).1 = ([], [(1, ([7], false)); (1, ([], true))]) ∧
  submitted_run (flush_deferred_sends (H := toy_primitives) true q st).1.2 st (flush_deferred_sends (H := toy_primitives) true q st).2.
Proof.
  cbv zeta. split; [vm_compute; reflexivity|].
  pose proof (flush_submits_in_order (H := toy_primitives) true [DeferData 1 [7]; DeferData 9 [8]; DeferFin 1] (sn_state toy_sender)) as Hf.
  destruct (flush_deferred_sends true _ _) as [[rest out] st']. apply Hf. repeat constructor.
Defined.
