(* ===== verification/Liveness.v ===== *)
(** * Liveness of a session ([core/src/transport/liveness.rs] and the heartbeat of
      [core/src/api/session.rs])

    The verdict on a silent path, the idle keep-alive and cover traffic, the draining
    window, expired path validations, and the state the application reads with the rules
    by which the tasks of a session publish it.  Instants and durations are nanoseconds;
    the clock and the answer of the transport are arguments. *)

From Stdlib Require Import ZArith Lia.
From stdpp Require Import base numbers option gmap list relations sorting.
From S2P Require Import Bbr.
From S2P Require Import Prelude Errors Replay Wire Sack Rto StreamSend StreamRecv Path.
From S2P Require Import Crypto Shaping Cid Session.

Local Open Scope Z_scope.

(** ** The pure decisions *)

Record LivenessConfig := mk_liveness {
  min_pto : Z;
  path_down_ptos : Z;
  idle_timeout : Z;
  keepalive_interval : option Z;
}.

Definition liveness_default : LivenessConfig :=
  mk_liveness (200 * 1000000) 5 (30 * 1000000000) (Some (15 * 1000000000)).

(** [Duration::saturating_mul]. *)
Definition dur_mul (d k : Z) : Z := Z.min (d * k) DURATION_MAX.

Definition pto (cfg : LivenessConfig) (min_rtt : Z) : Z :=
  let scaled := dur_mul min_rtt 3 in if min_pto cfg <? scaled then scaled else min_pto cfg.
Definition path_down_after (cfg : LivenessConfig) (min_rtt : Z) : Z := dur_mul (pto cfg min_rtt) (path_down_ptos cfg).

Inductive LivenessVerdict := Unchanged | PathDown | Recovered | VerdictDead.

Definition liveness_verdict (silence inflight min_rtt : Z) (in_migrating : bool) (migrating_for : Z) (cfg : LivenessConfig)
  : LivenessVerdict :=
  if in_migrating then
    if silence <=? pto cfg min_rtt then Recovered
    else if idle_timeout cfg <? migrating_for then VerdictDead
    else Unchanged
  else if (0 <? inflight) && (path_down_after cfg min_rtt <? silence) then PathDown else Unchanged.

Definition should_send_keepalive (connected : bool) (inflight inbound_silence since_last_keepalive : Z) (cfg : LivenessConfig) : bool :=
  match keepalive_interval cfg with
  | None => false
  | Some iv => connected && (inflight =? 0) && (iv <=? inbound_silence) && (iv <=? since_last_keepalive)
  end.

Definition DRAIN_ROUND_TRIPS : Z := 3.
Definition DRAIN_WINDOW_MIN : Z := 200 * 1000000.
Definition DRAIN_WINDOW_MAX : Z := 600 * 1000000.

Definition drain_window_for_rtt (rtt : Z) : Z := clamp (dur_mul rtt DRAIN_ROUND_TRIPS) DRAIN_WINDOW_MIN DRAIN_WINDOW_MAX.

(** Unanswered path challenges: those kept, those that timed out with how long they
    waited. *)
Definition path_validation_timeout (cfg : LivenessConfig) (min_rtt : Z) : Z :=
  dur_mul (Z.max (min_pto cfg) (dur_mul min_rtt 3)) (Z.max (path_down_ptos cfg) 1).
Definition expire_challenges (started : gmap Z Z) (now timeout : Z) : list (Z * Z) * gmap Z Z :=
  ((λ x, (x.1, since now x.2)) <$> map_to_list (filter (λ x, timeout < since now x.2) started),
   filter (λ x, since now x.2 <= timeout) started).

(** ** The state the application reads *)

Module Conn.
Inductive ConnectionState := Connecting | Connected | Failed | Closed | Migrating | Dead | Draining.

Definition ended (c : ConnectionState) : bool := match c with Closed | Failed | Dead => true | _ => false end.
End Conn.

Definition publish_end (state next : Conn.ConnectionState) : Conn.ConnectionState :=
  match state with Conn.Closed | Conn.Failed | Conn.Dead => state | _ => next end.

Definition publish_unless_ended (state next : Conn.ConnectionState) : Conn.ConnectionState :=
  match state with Conn.Closed | Conn.Failed | Conn.Dead | Conn.Draining => state | _ => next end.

Definition record_terminal_cause (slot : option CoreError) (cause : CoreError) : option CoreError :=
  match slot with None => Some cause | Some e => Some e end.

Definition publish_failure (state : Conn.ConnectionState) (slot : option CoreError) (cause : CoreError)
  : Conn.ConnectionState * option CoreError :=
  let recorded_here := match slot with None => true | Some _ => false end in
  let slot1 := if recorded_here then Some cause else slot in
  match state with
  | Conn.Closed | Conn.Failed | Conn.Dead => (state, if recorded_here then None else slot1)
  | _ => (Conn.Failed, slot1)
  end.

(** The part of [disconnect] that publishes. *)
Definition publish_disconnect (state : Conn.ConnectionState) : Conn.ConnectionState :=
  match state with Conn.Dead | Conn.Failed => state | _ => Conn.Closed end.

Section Heartbeat.
Context `{Primitives}.

(** What the heartbeat works on. *)
Record Live := mk_live {
  lv_session : Session;
  lv_est : BandwidthEstimator;
  lv_conn : Conn.ConnectionState;
  lv_slot : option CoreError;
  lv_migrating : option Z;
  lv_last_keepalive : Z;
}.

(** An outstanding keep-alive counts as something in flight. *)
Definition effective_inflight (v : Live) : Z :=
  if keepalive_outstanding (lv_session v) then Z.max (inflight_bytes (lv_est v)) 1 else inflight_bytes (lv_est v).

Definition apply_liveness (cfg : LivenessConfig) (now : Z) (v : Live) : bool * Live :=
  let silence := since now (last_activity (lv_session v)) in
  let migrating_for := match lv_migrating v with Some t => since now t | None => 0 end in
  let in_migrating := match lv_migrating v with Some _ => true | None => false end in
  match liveness_verdict silence (effective_inflight v) (est_min_rtt (lv_est v)) in_migrating migrating_for cfg with
  | PathDown =>
    (false, mk_live (set_sess_state (lv_session v) Migrating) (lv_est v) (publish_unless_ended (lv_conn v) Conn.Migrating)
              (lv_slot v) (Some now) (lv_last_keepalive v))
  | Recovered =>
    (false, mk_live (set_sess_state (lv_session v) Connected) (lv_est v) (publish_unless_ended (lv_conn v) Conn.Connected)
              (lv_slot v) None (lv_last_keepalive v))
  | VerdictDead =>
    (true, mk_live (set_sess_state (lv_session v) Closed) (lv_est v) Conn.Dead
             (record_terminal_cause (lv_slot v) Errors.Timeout) (lv_migrating v) (lv_last_keepalive v))
  | Unchanged => (false, v)
  end.

Definition keepalive_due (cfg : LivenessConfig) (now : Z) (v : Live) : bool :=
  should_send_keepalive (bool_decide (sess_state (lv_session v) = Connected)) (effective_inflight v)
    (since now (last_activity (lv_session v))) (since now (lv_last_keepalive v)) cfg.

(** [maybe_send_keepalive]: the bytes that went out; the probe is marked outstanding
    after the write. *)
Definition maybe_send_keepalive (cfg : LivenessConfig) (now : Z) (accepts : bool) (v : Live) : option (list Z) * Live :=
  if keepalive_due cfg now v then
    let '(frame, s) := send_keepalive (lv_session v) false in
    match frame, accepts with
    | Some buf, true =>
      (Some buf, mk_live (mark_keepalive_outstanding s) (lv_est v) (lv_conn v) (lv_slot v) (lv_migrating v) now)
    | _, _ => (None, mk_live s (lv_est v) (lv_conn v) (lv_slot v) (lv_migrating v) (lv_last_keepalive v))
    end
  else (None, v).

(** [maybe_send_cover]: the bytes, the session, and the marks of the last activity seen. *)
Definition maybe_send_cover (interval now : Z) (accepts : bool) (s : Session) (last_pn last_at : Z)
  : option (list Z) * Session * Z * Z :=
  if interval =? 0 then (None, s, last_pn, last_at)
  else if negb (bool_decide (sess_state s = Connected)) then (None, s, last_pn, last_at)
  else if negb (send_packet_number s =? last_pn) then (None, s, send_packet_number s, now)
  else if interval <=? since now last_at then
    let '(frame, s1) := send_cover s in
    match frame, accepts with
    | Some buf, true => (Some buf, s1, send_packet_number s1, now)
    | _, _ => (None, s1, last_pn, last_at)
    end
  else (None, s, last_pn, last_at).

(** The keep-alive and liveness part of one heartbeat; [died] ends the pump. *)
Definition beat (cfg : LivenessConfig) (v : bool * Live) (b : Z * bool) : bool * Live :=
  let '(now, accepts) := b in
  if v.1 then v else apply_liveness cfg now (maybe_send_keepalive cfg now accepts v.2).2.

(** An authenticated packet arrives. *)
Definition inbound (now : Z) (v : Live) : Live :=
  mk_live (update_activity (lv_session v) now) (lv_est v) (lv_conn v) (lv_slot v) (lv_migrating v) (lv_last_keepalive v).

(** The same with the answer handled by the receive task between the write and the mark,
    at the time [answered]. *)
Definition keepalive_raced (cfg : LivenessConfig) (now answered : Z) (v : Live) : Live :=
  if keepalive_due cfg now v then
    let '(frame, s) := send_keepalive (lv_session v) false in
    match frame with
    | Some _ =>
      let s1 := update_activity s answered in
      mk_live (mark_keepalive_outstanding s1) (lv_est v) (lv_conn v) (lv_slot v) (lv_migrating v) now
    | None => mk_live s (lv_est v) (lv_conn v) (lv_slot v) (lv_migrating v) (lv_last_keepalive v)
    end
  else v.

(** ** A silent path is given up *)

Lemma pto_le_down cfg rtt :
  0 <= min_pto cfg <= DURATION_MAX -> 1 <= path_down_ptos cfg -> 0 <= pto cfg rtt <= path_down_after cfg rtt.
Proof.
  intros Hp Hk. unfold path_down_after, pto, dur_mul. case_test; [|nia].
  set (x := Z.min (rtt * 3) DURATION_MAX) in *. assert (x <= DURATION_MAX) by (unfold x; lia). nia.
Qed.

(** Waiting on an answer, or migrating since a time the path was down. *)
Definition waiting (cfg : LivenessConfig) (la : Z) (e : BandwidthEstimator) (v : Live) : Prop :=
  last_activity (lv_session v) = la ∧ lv_est v = e ∧ 0 < effective_inflight v ∧
  ∀ m, lv_migrating v = Some m -> la + path_down_after cfg (est_min_rtt e) < m.

Lemma waiting_not_due cfg now v : 0 < effective_inflight v -> keepalive_due cfg now v = false.
Proof.
  intros Hi. unfold keepalive_due, should_send_keepalive. destruct (keepalive_interval cfg); [|done].
  destruct (Z.eqb_spec (effective_inflight v) 0); [lia|]. by rewrite andb_false_r.
Qed.

Lemma waiting_beat cfg la e v now accepts :
  0 <= min_pto cfg <= DURATION_MAX -> 1 <= path_down_ptos cfg -> waiting cfg la e v -> la <= now ->
  (∀ m, lv_migrating v = Some m -> m <= now) ->
  let '(died, v') := beat cfg (false, v) (now, accepts) in
  if died then lv_conn v' = Conn.Dead ∧ is_Some (lv_slot v')
  else waiting cfg la e v' ∧
    match lv_migrating v' with
    | None => lv_migrating v = None ∧ now <= la + path_down_after cfg (est_min_rtt e)
    | Some m => match lv_migrating v with Some m0 => m = m0 ∧ now <= m + idle_timeout cfg | None => m = now end
    end.
Proof.
  intros Hp Hk (Hla & He & Hi & Hm) Hnow Hm2. unfold beat, maybe_send_keepalive. cbn [fst snd]. rewrite (waiting_not_due cfg now v Hi).
  cbn [snd]. pose proof (pto_le_down cfg (est_min_rtt e) Hp Hk) as Hpd.
  unfold apply_liveness, liveness_verdict, since, sat_sub. subst la e.
  destruct (lv_migrating v) as [m|] eqn:Em.
  - specialize (Hm m eq_refl). specialize (Hm2 m eq_refl). case_test; [lia|]. case_test.
    + cbn. split; [done|]. by destruct (lv_slot v).
    + split; [by split_and!; [| | |congruence]|]. rewrite Em. split; [done|lia].
  - case_test.
    + bool_to_prop. cbn. split; [|done]. split_and!; [done|done|done|]. intros m [= <-]. lia.
    + split; [by split_and!; [| | |congruence]|]. rewrite Em. split; [done|]. bool_to_prop. lia.
Qed.

(** Given up, or still waiting with nothing later than [lo] behind it, and migrating
    since [b] at the latest if [b] is given. *)
Definition giving_up (cfg : LivenessConfig) (la : Z) (e : BandwidthEstimator) (lo : Z) (bound : option Z) (st : bool * Live) : Prop :=
  if st.1 then lv_conn st.2 = Conn.Dead ∧ is_Some (lv_slot st.2)
  else waiting cfg la e st.2 ∧ (∀ m, lv_migrating st.2 = Some m -> m <= lo) ∧
       ∀ b, bound = Some b -> ∃ m, lv_migrating st.2 = Some m ∧ m <= b.

Lemma giving_up_beat cfg la e lo bound st now accepts :
  0 <= min_pto cfg <= DURATION_MAX -> 1 <= path_down_ptos cfg -> giving_up cfg la e lo bound st -> la <= now -> lo <= now ->
  let st' := beat cfg st (now, accepts) in
  giving_up cfg la e now bound st' ∧
  (la + path_down_after cfg (est_min_rtt e) < now -> giving_up cfg la e now (Some now) st') ∧
  (∀ b, bound = Some b -> b + idle_timeout cfg < now -> st'.1 = true).
Proof.
  intros Hp Hk Hg Hla Hlo. destruct st as [[] v]; cbn [fst snd] in *; [unfold giving_up in *; cbn in *; destruct Hg; split_and!; intros; auto|].
  destruct Hg as (Hw & Hm & Hb).
  pose proof (waiting_beat cfg la e v now accepts Hp Hk Hw Hla ltac:(intros m Em; specialize (Hm m Em); lia)) as Hs.
  cbv zeta. destruct (beat cfg (false, v) (now, accepts)) as [[] v']; unfold giving_up; cbn [fst snd] in *; [destruct Hs; split_and!; intros; auto|].
  destruct Hs as [Hw' Hs].
  assert (Hlo' : ∀ m, lv_migrating v' = Some m -> m <= now).
  { intros m Em'. rewrite Em' in Hs. destruct (lv_migrating v) as [m0|]; [|lia]. specialize (Hm m0 eq_refl). lia. }
  assert (Hb' : ∀ b, bound = Some b -> ∃ m, lv_migrating v' = Some m ∧ m <= b ∧ now <= b + idle_timeout cfg).
  { intros b Eb. destruct (Hb b Eb) as (m0 & Em & ?). rewrite Em in Hs. destruct (lv_migrating v') as [m'|]; [|by destruct Hs].
    exists m'. split; [done|lia]. }
  split_and!; [done|done| | |].
  - intros b (m & ? & ? & ?)%Hb'. eauto.
  - intros Hbig. split_and!; [done|done|]. intros b [= <-]. destruct (lv_migrating v') as [m|]; [eauto|lia].
  - intros b (m & ? & ? & ?)%Hb'. lia.
Qed.

Lemma giving_up_beats cfg la e bound next beats : ∀ lo st,
  0 <= min_pto cfg <= DURATION_MAX -> 1 <= path_down_ptos cfg -> giving_up cfg la e lo bound st -> la <= lo ->
  StronglySorted Z.le (lo :: beats.*1 ++ [next]) -> giving_up cfg la e next bound (foldl (beat cfg) st beats).
Proof.
  induction beats as [|[now a] beats IH]; intros lo st Hp Hk Hg Hla Hs; cbn in *.
  - apply StronglySorted_inv in Hs as [_ Hs]. apply Forall_inv in Hs. unfold giving_up in *. destruct st as [[] v]; [done|].
    cbn in *. destruct Hg as (? & Hm & ?). split_and!; [done| |done]. intros m E%Hm. lia.
  - apply StronglySorted_inv in Hs as [Hs Hf]. apply Forall_inv in Hf. apply (IH now); [done|done| |lia|done].
    apply (giving_up_beat cfg la e lo bound st now a); [done..|lia|lia].
Qed.

Lemma dead_beats cfg beats : ∀ v, foldl (beat cfg) (true, v) beats = (true, v).
Proof. induction beats as [|[now a] beats IH]; intros v; cbn; [done|]. apply IH. Qed.

Lemma silence_kills cfg v lo l1 t1 a1 l2 t2 a2 l3 :
  0 <= min_pto cfg <= DURATION_MAX -> 1 <= path_down_ptos cfg -> 0 < effective_inflight v -> lv_migrating v = None ->
  last_activity (lv_session v) <= lo -> StronglySorted Z.le (lo :: l1.*1 ++ t1 :: l2.*1 ++ [t2]) ->
  last_activity (lv_session v) + path_down_after cfg (est_min_rtt (lv_est v)) < t1 -> t1 + idle_timeout cfg < t2 ->
  let '(died, v') := foldl (beat cfg) (false, v) (l1 ++ (t1, a1) :: l2 ++ (t2, a2) :: l3) in
  died = true ∧ lv_conn v' = Conn.Dead ∧ is_Some (lv_slot v').
Proof.
  intros Hp Hk Hi Hm Hla Hs H1 H2. set (la := last_activity _) in *. set (e := lv_est v) in *.
  assert (Hg : giving_up cfg la e lo None (false, v)).
  { split_and!; [|by intros m ?; simplify_eq/=|done]. split_and!; try done. cbn. intros m Em. congruence. }
  rewrite foldl_app. cbn [foldl]. rewrite foldl_app. cbn [foldl].
  assert (Hs1 : StronglySorted Z.le (lo :: l1.*1 ++ [t1])).
  { replace (lo :: l1.*1 ++ t1 :: l2.*1 ++ [t2]) with ((lo :: l1.*1 ++ [t1]) ++ l2.*1 ++ [t2]) in Hs by (cbn; by rewrite <- app_assoc).
    by apply StronglySorted_app in Hs as (_ & ? & _). }
  assert (Hs2 : StronglySorted Z.le (t1 :: l2.*1 ++ [t2]) ∧ lo <= t1).
  { apply StronglySorted_inv in Hs as [Hs Hf]. apply Forall_app in Hf as [_ Hf]. apply Forall_inv in Hf.
    by apply StronglySorted_app in Hs as (_ & _ & ?). }
  destruct Hs2 as [Hs2 Hlo]. pose proof (giving_up_beats cfg la e None t1 l1 lo (false, v) Hp Hk Hg Hla Hs1) as G1.
  destruct (giving_up_beat cfg la e t1 None _ t1 a1 Hp Hk G1 ltac:(lia) ltac:(lia)) as (_ & G2 & _). specialize (G2 H1).
  pose proof (giving_up_beats cfg la e (Some t1) t2 l2 t1 _ Hp Hk G2 ltac:(lia) Hs2) as G3.
  assert (Ht : t1 <= t2).
  { apply StronglySorted_inv in Hs2 as [_ Hf]. apply Forall_app in Hf as [_ Hf]. by apply Forall_inv in Hf. }
  destruct (giving_up_beat cfg la e t2 (Some t1) _ t2 a2 Hp Hk G3 ltac:(lia) ltac:(lia)) as (G4 & _ & Hd).
  specialize (Hd t1 eq_refl H2). destruct (beat cfg _ (t2, a2)) as [died v']. cbn in Hd. subst died.
  rewrite dead_beats. unfold giving_up in G4. cbn in G4. done.
Qed.

End Heartbeat.

(** ** Who publishes what, when *)

(** Where the two tasks of a session are; between recording a cause and publishing the
    state that goes with it is a phase of its own. *)
Inductive PumpPhase := NoPump | PumpLoop | PumpDying | PumpLeft | PumpGaveUp | PumpChecked | PumpDone.
Inductive RecvPhase := NoRecv | RecvLoop | RecvGaveUp | RecvBroken | RecvDone.

Record Life := mk_life {
  lf_conn : Conn.ConnectionState;
  lf_slot : option CoreError;
  lf_pump : PumpPhase;
  lf_recv : RecvPhase;
  lf_peer_closed : bool;
  lf_given_up : bool;
  lf_draining : bool;
  lf_died : bool;
}.

Definition life_init : Life := mk_life Conn.Connecting None NoPump NoRecv false false false false.

Inductive life_step : Life -> Life -> Prop :=
| lf_connected c s pc gu dr d :
    life_step (mk_life c s NoPump NoRecv pc gu dr d) (mk_life (publish_unless_ended c Conn.Connected) s PumpLoop RecvLoop pc gu dr d)
| lf_handshake_failed c s pc gu dr d cause :
    life_step (mk_life c s NoPump NoRecv pc gu dr d)
      (mk_life (publish_failure c s cause).1 (publish_failure c s cause).2 PumpDone RecvDone pc gu dr d)
| lf_disconnect c s p r pc gu dr d :
    life_step (mk_life c s p r pc gu dr d) (mk_life (publish_disconnect c) s p r pc gu dr d)
| lf_transport_gives_up c s p r pc gu dr d :
    life_step (mk_life c s p r pc gu dr d) (mk_life c s p r pc true dr d)
(* the receive task *)
| lf_peer_close c s p pc gu dr d :
    life_step (mk_life c s p RecvLoop pc gu dr d) (mk_life c s p RecvLoop true gu dr d)
| lf_recv_draining c s p gu dr d :
    life_step (mk_life c s p RecvLoop true gu dr d) (mk_life Conn.Draining s p RecvLoop true gu dr d)
| lf_recv_drained c s p gu dr d :
    life_step (mk_life c s p RecvLoop true gu dr d) (mk_life c s p RecvDone true gu dr d)
| lf_recv_gave_up c s p dr d :
    life_step (mk_life c s p RecvLoop false true dr d)
      (mk_life c (record_terminal_cause s Errors.Timeout) p RecvGaveUp false true dr d)
| lf_recv_gave_up_dead c s p pc gu dr d :
    life_step (mk_life c s p RecvGaveUp pc gu dr d) (mk_life Conn.Dead s p RecvDone pc gu dr d)
| lf_recv_broken c s p gu dr d cause :
    life_step (mk_life c s p RecvLoop false gu dr d) (mk_life c (record_terminal_cause s cause) p RecvBroken false gu dr d)
| lf_recv_broken_dead c s p pc gu dr d :
    life_step (mk_life c s p RecvBroken pc gu dr d) (mk_life (publish_end c Conn.Dead) s p RecvDone pc gu dr d)
(* the send loop and the teardown behind it *)
| lf_path c s r pc gu d next :
    next = Conn.Connected ∨ next = Conn.Migrating ->
    life_step (mk_life c s PumpLoop r pc gu false d) (mk_life (publish_unless_ended c next) s PumpLoop r pc gu false d)
| lf_tick_draining c s r gu d :
    life_step (mk_life c s PumpLoop r true gu false d) (mk_life Conn.Draining s PumpLoop r true gu true d)
| lf_idle_timeout c s r pc gu d :
    life_step (mk_life c s PumpLoop r pc gu false d)
      (mk_life c (record_terminal_cause s Errors.Timeout) PumpDying r pc gu false d)
| lf_idle_timeout_dead c s r pc gu dr d :
    life_step (mk_life c s PumpDying r pc gu dr d) (mk_life Conn.Dead s PumpLeft r pc gu dr true)
| lf_leave c s r pc gu dr d :
    life_step (mk_life c s PumpLoop r pc gu dr d) (mk_life c s PumpLeft r pc gu dr d)
| lf_teardown_gave_up c s r dr d :
    life_step (mk_life c s PumpLeft r false true dr d)
      (mk_life c (record_terminal_cause s Errors.Timeout) PumpGaveUp r false true dr d)
| lf_teardown_gave_up_dead c s r pc gu dr d :
    life_step (mk_life c s PumpGaveUp r pc gu dr d) (mk_life Conn.Dead s PumpChecked r pc gu dr true)
| lf_teardown_orderly c s r pc gu dr d :
    gu && negb pc = false ->
    life_step (mk_life c s PumpLeft r pc gu dr d) (mk_life c s PumpChecked r pc gu dr d)
| lf_teardown_abort c s r pc gu dr d :
    life_step (mk_life c s PumpChecked r pc gu dr d)
      (mk_life (if d then c else publish_end c Conn.Closed) s PumpDone RecvDone pc gu dr d).

Definition life_reachable (x : Life) : Prop := rtc life_step life_init x.

(** A cause is recorded before the state that needs one. *)
Definition caused (x : Life) : Prop :=
  (match lf_conn x with Conn.Dead | Conn.Failed => is_Some (lf_slot x) | _ => True end) ∧
  (match lf_pump x with NoPump => lf_slot x = None ∧ lf_recv x = NoRecv | PumpDying | PumpGaveUp => is_Some (lf_slot x) | _ => True end) ∧
  (match lf_recv x with RecvGaveUp | RecvBroken => is_Some (lf_slot x) | _ => True end).

Lemma record_some s cause : is_Some (record_terminal_cause s cause).
Proof. by destruct s. Qed.

Lemma life_step_caused x y : life_step x y -> caused x -> caused y.
Proof.
  unfold caused. destruct 1; cbn; intros (Hc & Hp & Hr); pose proof (record_some s Errors.Timeout);
    try (pose proof (record_some s cause)); try (match goal with Hn : _ ∨ _ |- _ => destruct Hn; subst end);
    unfold publish_failure, publish_end, publish_unless_ended, publish_disconnect; split_and!; try done;
    repeat case_match; destruct_and?; simplify_eq/=; done.
Qed.

Lemma life_caused x : life_reachable x -> caused x.
Proof.
  intros Hx. apply (rtc_ind_r (R := life_step) caused life_init); [done| |done]. intros y z _ Hs Hc. by eapply life_step_caused.
Qed.

(** ** Properties *)


(** An idle session whose last packet arrived at 0: the keep-alive goes out at 15 s and
    is not answered, the path is declared down at 17 s, the session dead at 48 s. *)
Definition toy_live : Live := mk_live (set_sess_state (toy_pair true false) Connected) (est_new 0) Conn.Connected None None 0.


(** The keep-alive is marked outstanding after it was written.  When the answer is
    handled in between, the mark outlives it: an idle session whose one probe was
    answered at [answered] is declared down and then dead, although in the order "mark,
    answer" nothing would be outstanding. *)
Theorem keepalive_answer_race_kills `{Primitives} (cfg : LivenessConfig) (v : Live) (now answered : Z) (buf : list Z)
    (t1 t2 : Z) (a1 a2 : bool) (l1 l2 l3 : list (Z * bool)) :
  keepalive_due cfg now v = true -> (send_keepalive (lv_session v) false).1 = Some buf ->
  0 <= min_pto cfg <= DURATION_MAX -> 1 <= path_down_ptos cfg -> inflight_bytes (lv_est v) = 0 -> lv_migrating v = None ->
  StronglySorted Z.le (answered :: l1.*1 ++ t1 :: l2.*1 ++ [t2]) ->
  answered + path_down_after cfg (est_min_rtt (lv_est v)) < t1 -> t1 + idle_timeout cfg < t2 ->
  effective_inflight (inbound answered (maybe_send_keepalive cfg now true v).2) = 0 ∧
  last_activity (lv_session (keepalive_raced cfg now answered v)) = answered ∧
  (foldl (beat cfg) (false, keepalive_raced cfg now answered v) (l1 ++ (t1, a1) :: l2 ++ (t2, a2) :: l3)).1 = true.
Proof.
  intros Hd Hf Hp Hk Hi Hm Hs H1 H2. unfold maybe_send_keepalive, keepalive_raced. rewrite Hd.
  destruct (send_keepalive (lv_session v) false) as [frame s]. cbn in Hf. subst frame. split_and!; [done|done|].
  set (v1 := mk_live _ _ _ _ _ _). pose proof (silence_kills cfg v1 answered l1 t1 a1 l2 t2 a2 l3 Hp Hk) as Hkill.
  destruct (foldl _ _ _) as [died v']. apply Hkill; try done. unfold effective_inflight. cbn. lia.
Qed.

Lemma keepalive_answer_race_kills_witness :
  let s := 1000000000 in
  let v := keepalive_raced (H := toy_primitives) liveness_default (15 * s) (15 * s + 1000) toy_live in
  (foldl (beat (H := toy_primitives) liveness_default) (false, v) [(17 * s, true); (30 * s, true); (48 * s, true)]).1 = true.
Proof.
  cbv zeta.
  destruct (send_keepalive (H := toy_primitives) (lv_session toy_live) false).1 as [buf|] eqn:E; [|by vm_compute in E].
  apply (keepalive_answer_race_kills (H := toy_primitives) liveness_default toy_live (15 * 1000000000) (15 * 1000000000 + 1000) buf
           (17 * 1000000000) (48 * 1000000000) true true [] [(30 * 1000000000, true)] []); try done; try (vm_compute; split; congruence).
  repeat constructor; vm_compute; congruence.
Defined.

(** However the tasks of a session and the application publish: a caller that reads
    [Dead] or [Failed] finds the cause recorded. *)
Theorem end_has_a_cause (x : Life) :
  life_reachable x -> lf_conn x = Conn.Dead ∨ lf_conn x = Conn.Failed -> is_Some (lf_slot x).
Proof. intros [Hc _]%life_caused Hx. by destruct Hx as [-> | ->] in Hc. Qed.

Lemma end_has_a_cause_witness :
  let x := mk_life Conn.Dead (Some Errors.Timeout) PumpLeft RecvLoop false false false true in
  life_reachable x ∧ is_Some (lf_slot x).
Proof.
  cbv zeta. set (x := mk_life _ _ _ _ _ _ _ _).
  assert (Hx : life_reachable x).
  { eapply rtc_l; [apply lf_connected|]. eapply rtc_l; [apply lf_idle_timeout|]. apply rtc_once, lf_idle_timeout_dead. }
  split; [exact Hx|]. apply (end_has_a_cause x Hx). by left.
Defined.

(** As long as the peer has not announced a close, an end once published stays what the
    caller reads, except that [Dead] may replace it. *)
Theorem ends_are_kept (x y : Life) :
  life_step x y -> lf_peer_closed x = false -> Conn.ended (lf_conn x) = true ->
  lf_conn y = lf_conn x ∨ lf_conn y = Conn.Dead.
Proof.
  destruct 1; cbn; intros Hpc He; try done; try (by left); try (by right); left; destruct c; try done; by destruct d.
Qed.

Lemma ends_are_kept_witness :
  let x := mk_life Conn.Closed None PumpLoop RecvLoop false false false false in
  let y := mk_life Conn.Closed None PumpLoop RecvLoop false false false false in
  lf_conn y = lf_conn x ∨ lf_conn y = Conn.Dead.
Proof.
  cbv zeta. apply (ends_are_kept (mk_life Conn.Closed None PumpLoop RecvLoop false false false false)); [|done|done].
  apply (lf_path Conn.Closed None RecvLoop false false false Conn.Migrating). by right.
Defined.

(** When the peer does announce one, it does not: the receive task stores [Draining] over
    whatever is there.  A close the application asked for is read back as [Draining], and
    a session that died of the idle timeout ends in [Draining] for good, with the cause
    of its death beside it and no task left to publish anything. *)
Theorem draining_overwrites_end :
  (∃ x y, life_reachable x ∧ life_step x y ∧ lf_conn x = Conn.Closed ∧ lf_conn y = Conn.Draining) ∧
  ∃ x y, life_reachable x ∧ lf_conn x = Conn.Dead ∧ rtc life_step x y ∧ lf_conn y = Conn.Draining ∧
    lf_slot y = Some Errors.Timeout ∧ lf_pump y = PumpDone ∧ lf_recv y = RecvDone.
Proof.
  split.
  - exists (mk_life Conn.Closed None PumpLoop RecvLoop true false false false). eexists. split_and!; [|apply lf_recv_draining|done|done].
    eapply rtc_l; [apply lf_connected|]. eapply rtc_l; [apply lf_disconnect|]. apply rtc_once, lf_peer_close.
  - exists (mk_life Conn.Dead (Some Errors.Timeout) PumpLeft RecvLoop false false false true).
    exists (mk_life Conn.Draining (Some Errors.Timeout) PumpDone RecvDone true false false true). split_and!; try done.
    + eapply rtc_l; [apply lf_connected|]. eapply rtc_l; [apply lf_idle_timeout|]. apply rtc_once, lf_idle_timeout_dead.
    + eapply rtc_l; [apply lf_peer_close|]. eapply rtc_l; [apply lf_recv_draining|].
      eapply rtc_l; [by apply lf_teardown_orderly|]. apply rtc_once, lf_teardown_abort.
Qed.
