(* ===== verification/SessionCache.v ===== *)
(** * Resumption tickets ([core/src/transport/session_cache.rs])

    The server's cache of one-shot tickets.  The hash map is a finite map, the
    eviction order the list the source keeps beside it; the clock is an argument of
    every operation that reads it, in nanoseconds.  [Instant + Duration] does not
    overflow for the lifetimes in use and is plain addition. *)

From Stdlib Require Import ZArith Lia.
From stdpp Require Import base numbers option list gmap.
From S2P Require Import Prelude Crypto.

Local Open Scope Z_scope.

Definition DEFAULT_MAX_TICKETS : Z := 64.
Definition DEFAULT_TICKET_LIFETIME : Z := 3600 * 1000000000.

Record ResumptionTicket := mk_ticket {
  t_secret : list Z;
  t_suite : CipherSuite;
  created_at : Z;
  expires_at : Z;
}.

Definition ticket_new (secret : list Z) (suite : CipherSuite) (lifetime now : Z) : ResumptionTicket :=
  mk_ticket secret suite now (now + lifetime).

Definition is_valid (t : ResumptionTicket) (now : Z) : bool := now <? expires_at t.

Record SessionCache := mk_cache {
  tickets : gmap (list Z) ResumptionTicket;
  lru_order : list (list Z);
  max_entries : Z;
  ticket_lifetime : Z;
}.

Definition with_capacity (max lifetime : Z) : SessionCache := mk_cache ∅ [] max lifetime.
Definition cache_new : SessionCache := with_capacity DEFAULT_MAX_TICKETS DEFAULT_TICKET_LIFETIME.

Definition is_disabled (c : SessionCache) : bool := max_entries c =? 0.
Definition cache_len (c : SessionCache) : Z := Z.of_nat (size (tickets c)).

Definition set_entries (c : SessionCache) (m : gmap (list Z) ResumptionTicket) (order : list (list Z)) : SessionCache :=
  mk_cache m order (max_entries c) (ticket_lifetime c).

Definition without (id : list Z) (order : list (list Z)) : list (list Z) := filter (λ x, x ≠ id) order.

Definition remove (c : SessionCache) (id : list Z) : bool * SessionCache :=
  (bool_decide (is_Some (tickets c !! id)), set_entries c (delete id (tickets c)) (without id (lru_order c))).

(** [expired]: the tickets whose time has come. *)
Definition expired (c : SessionCache) (now : Z) : gmap (list Z) ResumptionTicket :=
  filter (λ x, expires_at x.2 <= now) (tickets c).

Definition evict_oldest (c : SessionCache) (now : Z) : SessionCache :=
  let gone := expired c now in
  let m := filter (λ x, gone !! x.1 = None) (tickets c) in
  let order := filter (λ id, gone !! id = None) (lru_order c) in
  if max_entries c <=? Z.of_nat (size m) then
    match order with
    | oldest :: rest => set_entries c (delete oldest m) rest
    | [] => set_entries c m order
    end
  else set_entries c m order.

(** The common tail of [store] and [reinsert_with_expiry]. *)
Definition put_ticket (c : SessionCache) (id : list Z) (t : ResumptionTicket) (now : Z) : SessionCache :=
  let c1 := if max_entries c <=? cache_len c then evict_oldest c now else c in
  set_entries c1 (<[id := t]> (tickets c1)) (without id (lru_order c1) ++ [id]).

Definition store (c : SessionCache) (id secret : list Z) (suite : CipherSuite) (now : Z) : SessionCache :=
  if is_disabled c then c else put_ticket c id (ticket_new secret suite (ticket_lifetime c) now) now.

Definition try_resume (c : SessionCache) (id : list Z) (now : Z) : option (list Z * CipherSuite) * SessionCache :=
  match tickets c !! id with
  | None => (None, c)
  | Some t => if negb (is_valid t now) then (None, (remove c id).2) else (Some (t_secret t, t_suite t), (remove c id).2)
  end.

Definition peek (c : SessionCache) (id : list Z) (now : Z) : option ResumptionTicket * SessionCache :=
  match tickets c !! id with
  | None => (None, c)
  | Some t => if negb (is_valid t now) then (None, (remove c id).2) else (Some t, c)
  end.

Definition reinsert_with_expiry (c : SessionCache) (id : list Z) (t : ResumptionTicket) (now : Z) : SessionCache :=
  if is_disabled c || (expires_at t <=? now) then c else put_ticket c id t now.

Definition cache_clear (c : SessionCache) : SessionCache := set_entries c ∅ [].

(** ** The invariant *)

Record wf_cache (c : SessionCache) : Prop := {
  order_nodup : NoDup (lru_order c);
  order_tickets id : id ∈ lru_order c <-> is_Some (tickets c !! id);
  cache_within : cache_len c <= max_entries c;
}.

Lemma map_size_delete_le {A} (m : gmap (list Z) A) i : (size (delete i m) <= size m)%nat.
Proof. rewrite map_size_delete. destruct (m !! i); cbn; lia. Qed.

Lemma map_size_insert_le {A} (m : gmap (list Z) A) i x : (size (<[i := x]> m) <= S (size m))%nat.
Proof. rewrite map_size_insert. destruct (m !! i); cbn; lia. Qed.

Lemma remove_spec c id : tickets (remove c id).2 = delete id (tickets c) ∧ lru_order (remove c id).2 = without id (lru_order c).
Proof. done. Qed.

Lemma evict_size c now : wf_cache c -> 0 < max_entries c -> cache_len (evict_oldest c now) < max_entries c.
Proof.
  intros [Hn Ho Hw] Hm. unfold evict_oldest, cache_len in *.
  set (gone := expired c now). set (m := filter _ (tickets c)). set (order := filter _ (lru_order c)).
  assert (Hsz : (size m <= size (tickets c))%nat) by apply map_size_filter.
  case_test; [|cbn; lia].
  assert (Hne : m ≠ ∅) by (intros E; rewrite E, map_size_empty in *; lia).
  apply map_choose in Hne as (i & x & Hi).
  assert (Hio : i ∈ order).
  { apply map_lookup_filter_Some in Hi as [Ht Hg]. apply list_elem_of_filter. split; [done|]. apply Ho. by exists x. }
  destruct order as [|oldest rest] eqn:E; [set_solver|]. cbn.
  assert (Ho' : is_Some (m !! oldest)).
  { assert (oldest ∈ order) as Hin by (rewrite E; left). subst order.
    apply list_elem_of_filter in Hin as [Hg [y Hy]%Ho]. exists y. by apply map_lookup_filter_Some. }
  rewrite map_size_delete_Some by done. lia.
Qed.

Lemma evict_wf c now : wf_cache c -> wf_cache (evict_oldest c now).
Proof.
  intros [Hn Ho Hw]. unfold evict_oldest, cache_len in *.
  set (gone := expired c now). set (m := filter _ (tickets c)). set (order := filter _ (lru_order c)).
  assert (Hsz : (size m <= size (tickets c))%nat) by apply map_size_filter.
  assert (Hn' : NoDup order) by by apply NoDup_filter.
  assert (Hom : ∀ id, id ∈ order <-> is_Some (m !! id)).
  { intros id. unfold order, m. rewrite list_elem_of_filter, Ho. unfold is_Some. setoid_rewrite map_lookup_filter_Some. naive_solver. }
  case_test; [|split; cbn; [done|done|unfold cache_len; cbn; lia]].
  destruct order as [|oldest rest] eqn:E; [split; cbn; [done|done|unfold cache_len; cbn; lia]|].
  apply NoDup_cons in Hn' as [Hno Hnr]. split; cbn; [done| |unfold cache_len; cbn].
  - intros id. rewrite lookup_delete_is_Some. rewrite <- Hom, elem_of_cons. split; [|naive_solver].
    intros Hi. split; [by intros ->|by right].
  - pose proof (map_size_delete_le m oldest). lia.
Qed.

Lemma put_ticket_wf c id t now : wf_cache c -> 0 < max_entries c -> wf_cache (put_ticket c id t now).
Proof.
  intros Hwf Hm. unfold put_ticket. set (c1 := if max_entries c <=? cache_len c then evict_oldest c now else c).
  assert (Hmax : max_entries c1 = max_entries c).
  { subst c1. case_test; [|done]. unfold evict_oldest. case_test; [|done]. by destruct (filter _ (lru_order c)). }
  assert (H1 : wf_cache c1 ∧ cache_len c1 < max_entries c).
  { subst c1. case_test; [split; [by apply evict_wf|by apply evict_size]|done]. }
  destruct H1 as [[Hn Ho Hw] Hlt]. split; cbn.
  - apply NoDup_app. split; [by apply NoDup_filter|]. split; [|apply NoDup_singleton].
    intros x [Hx _]%list_elem_of_filter ->%list_elem_of_singleton. done.
  - intros x. rewrite lookup_insert_is_Some, elem_of_app, list_elem_of_singleton. unfold without.
    rewrite list_elem_of_filter, Ho. destruct (decide (x = id)); naive_solver.
  - unfold cache_len in *. cbn. rewrite Hmax. pose proof (map_size_insert_le (tickets c1) id t). lia.
Qed.

Lemma remove_wf c id : wf_cache c -> wf_cache (remove c id).2.
Proof.
  intros [Hn Ho Hw]. split; cbn.
  - by apply NoDup_filter.
  - intros x. unfold without. rewrite list_elem_of_filter, lookup_delete_is_Some, Ho. naive_solver.
  - unfold cache_len in *. cbn. pose proof (map_size_delete_le (tickets c) id). lia.
Qed.

(** ** Runs of the cache *)

Inductive cache_op :=
| OpStore (id secret : list Z) (suite : CipherSuite) (now : Z)
| OpReinsert (id : list Z) (t : ResumptionTicket) (now : Z)
| OpRemove (id : list Z)
| OpResume (id : list Z) (now : Z)
| OpPeek (id : list Z) (now : Z)
| OpClear.

Definition cache_exec (c : SessionCache) (o : cache_op) : SessionCache :=
  match o with
  | OpStore id secret suite now => store c id secret suite now
  | OpReinsert id t now => reinsert_with_expiry c id t now
  | OpRemove id => (remove c id).2
  | OpResume id now => (try_resume c id now).2
  | OpPeek id now => (peek c id now).2
  | OpClear => cache_clear c
  end.

Definition cache_run (c : SessionCache) (l : list cache_op) : SessionCache := foldl cache_exec c l.

Lemma put_ticket_limits c id t now :
  max_entries (put_ticket c id t now) = max_entries c ∧ ticket_lifetime (put_ticket c id t now) = ticket_lifetime c.
Proof.
  unfold put_ticket. case_test; [|done]. unfold evict_oldest. case_test; [|done]. by destruct (filter _ (lru_order c)).
Qed.

Lemma exec_limits c o : max_entries (cache_exec c o) = max_entries c ∧ ticket_lifetime (cache_exec c o) = ticket_lifetime c.
Proof.
  destruct o; cbn; try done.
  - unfold store. case_test; [done|]. apply put_ticket_limits.
  - unfold reinsert_with_expiry. case_test; [done|]. apply put_ticket_limits.
  - unfold try_resume. destruct (tickets c !! id); [|done]. by case_test.
  - unfold peek. destruct (tickets c !! id); [|done]. by case_test.
Qed.

Lemma exec_wf c o : wf_cache c -> wf_cache (cache_exec c o).
Proof.
  intros Hwf. assert (Hnn : 0 <= max_entries c) by (destruct Hwf; unfold cache_len in *; lia).
  destruct o; cbn.
  - unfold store, is_disabled. case_test; bool_to_prop; [done|]. apply put_ticket_wf; [done|lia].
  - unfold reinsert_with_expiry, is_disabled. case_test; bool_to_prop; [done|]. apply put_ticket_wf; [done|lia].
  - by apply remove_wf.
  - unfold try_resume. destruct (tickets c !! id); [|done]. case_test; by apply remove_wf.
  - unfold peek. destruct (tickets c !! id); [|done]. case_test; [by apply remove_wf|done].
  - split; cbn; [constructor| |unfold cache_len; cbn; by rewrite map_size_empty].
    intros x. rewrite lookup_empty. split; [by intros ?%not_elem_of_nil|by intros [? ?]].
Qed.

Lemma run_wf c l : wf_cache c -> wf_cache (cache_run c l).
Proof. revert c. induction l as [|o l IH]; intros c Hc; [done|]. by apply IH, exec_wf. Qed.

Lemma with_capacity_wf max lifetime : 0 <= max -> wf_cache (with_capacity max lifetime).
Proof.
  intros Hm. split; cbn; [constructor| |unfold cache_len; cbn; by rewrite map_size_empty].
  intros x. rewrite lookup_empty. split; [by intros ?%not_elem_of_nil|by intros [? ?]].
Qed.

(** What an operation puts into a cache of the given lifetime, whether it takes the
    ticket [id] out, and the clock it reads. *)
Definition put_of (lifetime : Z) (o : cache_op) : option (list Z * ResumptionTicket) :=
  match o with
  | OpStore id secret suite now => Some (id, ticket_new secret suite lifetime now)
  | OpReinsert id t now => Some (id, t)
  | _ => None
  end.

Definition takes (id : list Z) (o : cache_op) : bool :=
  match o with
  | OpRemove x => bool_decide (x = id)
  | OpResume x _ => bool_decide (x = id)
  | OpClear => true
  | _ => false
  end.

Definition op_time (o : cache_op) : option Z :=
  match o with
  | OpStore _ _ _ now | OpReinsert _ _ now | OpResume _ now | OpPeek _ now => Some now
  | OpRemove _ | OpClear => None
  end.

Lemma evict_lookup c now id t : tickets (evict_oldest c now) !! id = Some t -> tickets c !! id = Some t.
Proof.
  unfold evict_oldest. case_test; [destruct (filter _ (lru_order c))|]; cbn; rewrite ?lookup_delete_Some, map_lookup_filter_Some; tauto.
Qed.

Lemma store_lookup c id secret suite now :
  0 < max_entries c -> tickets (store c id secret suite now) !! id = Some (ticket_new secret suite (ticket_lifetime c) now).
Proof. intros Hm. unfold store, is_disabled. case_test; bool_to_prop; [lia|]. apply lookup_insert_eq. Qed.

Lemma put_lookup c x t' now id t :
  tickets (put_ticket c x t' now) !! id = Some t -> (x = id ∧ t' = t) ∨ tickets c !! id = Some t.
Proof.
  unfold put_ticket. cbn. rewrite lookup_insert_Some. intros [?|[_ Hl]]; [by left|right].
  revert Hl. case_test; [apply evict_lookup|done].
Qed.

Lemma remove_lookup c x id t : tickets (remove c x).2 !! id = Some t -> x ≠ id ∧ tickets c !! id = Some t.
Proof. cbn. by rewrite lookup_delete_Some. Qed.

Lemma exec_lookup c o id t :
  tickets (cache_exec c o) !! id = Some t ->
  put_of (ticket_lifetime c) o = Some (id, t) ∨ (tickets c !! id = Some t ∧ takes id o = false).
Proof.
  destruct o as [x secret suite now|x t' now|x|x now|x now|]; cbn -[remove].
  - unfold store. case_test; [by right|]. intros [[-> ->]| ?]%put_lookup; [by left|by right].
  - unfold reinsert_with_expiry. case_test; [by right|]. intros [[-> ->]| ?]%put_lookup; [by left|by right].
  - intros [? ?]%remove_lookup. right. by rewrite bool_decide_eq_false_2.
  - unfold try_resume. destruct (tickets c !! x) as [t'|] eqn:E.
    + destruct (negb _); cbn -[remove]; intros [? ?]%remove_lookup; right; by rewrite bool_decide_eq_false_2.
    + cbn. intros Ht. right. split; [done|]. apply bool_decide_eq_false_2. congruence.
  - unfold peek. destruct (tickets c !! x) as [t'|] eqn:E; [|by right].
    destruct (negb _); cbn -[remove]; [intros [_ ?]%remove_lookup|]; by right.
  - by rewrite lookup_empty.
Qed.

Lemma run_lookup max lifetime ops id t :
  tickets (cache_run (with_capacity max lifetime) ops) !! id = Some t ->
  ∃ pre o post, ops = pre ++ o :: post ∧ put_of lifetime o = Some (id, t) ∧ Forall (λ o', takes id o' = false) post.
Proof.
  assert (Hlim : ∀ l, ticket_lifetime (cache_run (with_capacity max lifetime) l) = lifetime).
  { induction l as [|o l IH] using rev_ind; [done|]. unfold cache_run in *. rewrite foldl_app. cbn.
    by rewrite (proj2 (exec_limits _ o)). }
  induction ops as [|o ops IH] using rev_ind; [done|]. unfold cache_run. rewrite foldl_app. cbn.
  intros [Hp|[Hl Ht]]%exec_lookup.
  - exists ops, o, []. rewrite Hlim in Hp. by repeat split.
  - destruct (IH Hl) as (pre & o' & post & -> & Hp & Hf). exists pre, o', (post ++ [o]).
    rewrite <- app_assoc. repeat split; [done|]. apply Forall_app. by repeat constructor.
Qed.

Lemma peek_Some c id now t : (peek c id now).1 = Some t <-> tickets c !! id = Some t ∧ now < expires_at t.
Proof.
  unfold peek, is_valid. destruct (tickets c !! id) as [t'|]; [|naive_solver].
  case_test; bool_to_prop; cbn; split; intros Hx; [done| | |].
  - destruct Hx as [[= ->] ?]. lia.
  - injection Hx as ->. split; [done|]. lia.
  - by destruct Hx as [[= ->] _].
Qed.

(** ** The newest tickets stay *)

(** [id] holds [t], and at most [k] tickets are newer. *)
Definition held_since (id : list Z) (t : ResumptionTicket) (k : nat) (c : SessionCache) : Prop :=
  tickets c !! id = Some t ∧ ∃ a b, lru_order c = a ++ id :: b ∧ (length b <= k)%nat.

Lemma held_filter (P : list Z -> Prop) `{∀ x, Decision (P x)} id a b order :
  order = a ++ id :: b -> P id -> ∃ a' b', filter P order = a' ++ id :: b' ∧ (length b' <= length b)%nat.
Proof.
  intros -> Hp. exists (filter P a), (filter P b). rewrite filter_app, filter_cons_True by done.
  split; [done|]. apply length_filter.
Qed.

Lemma order_length (m : gmap (list Z) ResumptionTicket) (order : list (list Z)) :
  NoDup order -> (∀ id, id ∈ order <-> is_Some (m !! id)) -> length order = size m.
Proof.
  intros Hn Ho. rewrite <- size_dom, <- (size_list_to_set (C := gset (list Z))) by done. f_equal.
  apply set_eq. intros x. by rewrite elem_of_list_to_set, elem_of_dom.
Qed.

Lemma held_without id t k c x : x ≠ id -> held_since id t k c -> held_since id t k (remove c x).2.
Proof.
  intros Hx (Hl & a & b & Ho & Hb). split; [by apply lookup_delete_Some|].
  destruct (held_filter (λ y, y ≠ x) id a b (lru_order c) Ho) as (a' & b' & Hf & Hb'); [done|].
  exists a', b'. split; [exact Hf|lia].
Qed.

Lemma held_evict id t k c now :
  wf_cache c -> now < expires_at t -> Z.of_nat k + 1 < max_entries c -> held_since id t k c -> held_since id t k (evict_oldest c now).
Proof.
  intros Hwf Hnow Hk (Hl & a & b & Ho & Hb). pose proof (order_nodup c Hwf) as Hn. unfold evict_oldest.
  assert (Hg : expired c now !! id = None).
  { apply map_lookup_filter_None. right. intros t' Ht' Hle. cbn in Hle. assert (t' = t) as -> by congruence. lia. }
  set (m := filter _ (tickets c)). set (order := filter _ (lru_order c)).
  assert (Hm : m !! id = Some t) by by apply map_lookup_filter_Some.
  destruct (held_filter (λ y, expired c now !! y = None) id a b (lru_order c) Ho Hg) as (a' & b' & Hf & Hb').
  fold order in Hf. case_test; [|split; [done|]; exists a', b'; split; [done|lia]].
  assert (Hsz : length order = size m).
  { apply order_length; [by apply NoDup_filter|]. intros x. unfold order, m.
    rewrite list_elem_of_filter, (order_tickets c Hwf). unfold is_Some. setoid_rewrite map_lookup_filter_Some. naive_solver. }
  destruct a' as [|oldest a']; rewrite Hf; cbn.
  - rewrite Hf in Hsz. cbn in Hsz. lia.
  - split; [|exists a', b'; split; [done|lia]]. apply lookup_delete_Some. split; [|done].
    assert (Hno : NoDup order) by by apply NoDup_filter. rewrite Hf in Hno. apply NoDup_cons in Hno as [Hno _].
    intros ->. apply Hno, elem_of_app. right. left.
Qed.

Lemma kept_put id t k c x t' now :
  wf_cache c -> x ≠ id -> now < expires_at t -> Z.of_nat k + 1 < max_entries c ->
  held_since id t k c -> held_since id t (S k) (put_ticket c x t' now).
Proof.
  intros Hwf Hx Hnow Hk Hh. unfold put_ticket.
  set (c1 := if max_entries c <=? cache_len c then evict_oldest c now else c).
  assert (Hh1 : held_since id t k c1) by (subst c1; case_test; [by apply held_evict|done]).
  destruct Hh1 as (Hl & a & b & Ho & Hb). split; cbn; [by rewrite lookup_insert_ne|].
  destruct (held_filter (λ y, y ≠ x) id a b (lru_order c1) Ho) as (a' & b' & Hf & Hb'); [done|].
  exists a', (b' ++ [x]). unfold without. rewrite Hf, <- app_assoc. split; [done|]. rewrite length_app. cbn. lia.
Qed.

(** Nothing happens to the ticket [id]: it is not taken, not replaced, and every clock
    reading is before its end. *)
Definition leaves (id : list Z) (t : ResumptionTicket) (o : cache_op) : Prop :=
  takes id o = false ∧ (∀ x t', put_of 0 o = Some (x, t') -> x ≠ id) ∧ (∀ now, op_time o = Some now -> now < expires_at t).

Definition is_put (o : cache_op) : bool := match put_of 0 o with Some _ => true | None => false end.

Lemma held_exec id t k c o :
  wf_cache c -> leaves id t o -> (is_put o = true -> Z.of_nat k + 1 < max_entries c) ->
  held_since id t k c -> held_since id t (if is_put o then S k else k) (cache_exec c o).
Proof.
  intros Hwf (Ht & Hp & Hn) Hk Hh.
  assert (Hup : held_since id t (S k) c) by (destruct Hh as (? & a & b & ? & ?); split; [done|]; exists a, b; split; [done|lia]).
  destruct o as [x secret suite now|x t' now|x|x now|x now|]; cbn -[remove] in *; try done.
  - unfold store. case_test; [done|]. apply kept_put; naive_solver.
  - unfold reinsert_with_expiry. case_test; [done|]. apply kept_put; naive_solver.
  - apply bool_decide_eq_false in Ht. by apply held_without.
  - apply bool_decide_eq_false in Ht. unfold try_resume.
    destruct (tickets c !! x); [|done]. destruct (negb _); by apply held_without.
  - unfold peek. destruct (tickets c !! x) as [t'|] eqn:E; [|done]. destruct (negb (is_valid t' now)) eqn:Ev; [|done].
    apply held_without; [|done]. intros ->. destruct Hh as [Hl _]. assert (t' = t) as -> by congruence.
    specialize (Hn _ eq_refl). unfold is_valid in Ev. bool_to_prop. lia.
Qed.

Lemma held_run id t post : ∀ k c,
  wf_cache c -> Forall (leaves id t) post -> Z.of_nat k + Z.of_nat (length (filter (λ o, is_put o = true) post)) < max_entries c ->
  held_since id t k c -> tickets (cache_run c post) !! id = Some t.
Proof.
  induction post as [|o post IH]; intros k c Hwf Hl Hk Hh; [by destruct Hh|].
  inversion_clear Hl as [|? ? Ho Hl']. change (cache_run c (o :: post)) with (cache_run (cache_exec c o) post).
  rewrite filter_cons in Hk. apply (IH (if is_put o then S k else k)); [by apply exec_wf|done| |].
  - rewrite (proj1 (exec_limits c o)). destruct (is_put o), (decide _); cbn in Hk; try done; lia.
  - apply held_exec; [done|done| |done]. intros Ep. rewrite Ep, decide_True in Hk by done. cbn in Hk. lia.
Qed.

(** ** Properties *)

(** A ticket is read at most once per time it was put in.  Whatever runs on a cache of
    any capacity and lifetime, a ticket that [peek] (or [try_resume]) finds under an id
    has not expired, was stored or handed back under that id, and has not been taken by
    a [remove], a [try_resume] or a [clear] since. *)
Theorem tickets_are_one_shot (max lifetime now : Z) (ops : list cache_op) (id : list Z) (t : ResumptionTicket) :
  (peek (cache_run (with_capacity max lifetime) ops) id now).1 = Some t ->
  now < expires_at t ∧
  ∃ pre o post, ops = pre ++ o :: post ∧ put_of lifetime o = Some (id, t) ∧ Forall (λ o', takes id o' = false) post.
Proof. intros [Hl Hnow]%peek_Some. split; [done|]. by apply (run_lookup max). Qed.

(** The cache never holds more tickets than its capacity, and keeps the newest: a ticket
    put in is found as it was stored, until it expires or is taken, by every run in which
    fewer other tickets than the capacity are put in after it. *)
Theorem newest_tickets_stay (c : SessionCache) (o : cache_op) (post : list cache_op) (id : list Z) (t : ResumptionTicket) (now : Z) :
  wf_cache c -> 0 < max_entries c ->
  put_of (ticket_lifetime c) o = Some (id, t) -> (∀ n, op_time o = Some n -> n < expires_at t) ->
  Forall (leaves id t) post -> Z.of_nat (length (filter (λ x, is_put x = true) post)) < max_entries c ->
  now < expires_at t ->
  let c' := cache_run (cache_exec c o) post in
  cache_len c' <= max_entries c ∧ (peek c' id now).1 = Some t.
Proof.
  intros Hwf Hm Hp Ht Hl Hk Hnow c'.
  assert (Hh : held_since id t 0 (cache_exec c o)).
  { assert (Hput : ∀ n, held_since id t 0 (put_ticket c id t n)).
    { intros n. split; [apply lookup_insert_eq|]. by exists (without id (lru_order (if max_entries c <=? cache_len c then evict_oldest c n else c))), []. }
    destruct o as [x secret suite n|x t' n| | | |]; cbn in *; try done; injection Hp as -> <-.
    - unfold store, is_disabled. case_test; bool_to_prop; [lia|]. apply Hput.
    - specialize (Ht n eq_refl). unfold reinsert_with_expiry, is_disabled. case_test; bool_to_prop; [lia|]. apply Hput. }
  assert (Hmax : ∀ l x, max_entries (cache_run x l) = max_entries x).
  { induction l as [|o' l IH]; intros x; [done|]. cbn. unfold cache_run in IH. by rewrite IH, (proj1 (exec_limits x o')). }
  split.
  - rewrite <- (proj1 (exec_limits c o)), <- (Hmax post). apply cache_within, run_wf. by apply exec_wf.
  - apply peek_Some. split; [|done]. apply (held_run id t post 0); [by apply exec_wf|done| |done].
    rewrite (proj1 (exec_limits c o)). lia.
Qed.

Definition sample_ops : list cache_op :=
  [OpStore [1] [7] Aes256Gcm 0; OpStore [2] [8] Aes256Gcm 1; OpStore [3] [9] Aes256Gcm 2; OpPeek [2] 3].

Lemma tickets_are_one_shot_witness :
  1 < expires_at (mk_ticket [8] Aes256Gcm 1 11) ∧
  ∃ pre o post, sample_ops = pre ++ o :: post ∧ put_of 10 o = Some ([2], mk_ticket [8] Aes256Gcm 1 11) ∧
    Forall (λ o', takes [2] o' = false) post.
Proof. apply (tickets_are_one_shot 2 10 1). vm_compute. reflexivity. Defined.

Lemma newest_tickets_stay_witness :
  let c' := cache_run (cache_exec (with_capacity 2 10) (OpStore [2] [8] Aes256Gcm 1)) [OpStore [3] [9] Aes256Gcm 2] in
  cache_len c' <= 2 ∧ (peek c' [2] 5).1 = Some (mk_ticket [8] Aes256Gcm 1 11).
Proof.
  apply (newest_tickets_stay (with_capacity 2 10) (OpStore [2] [8] Aes256Gcm 1)).
  - by apply with_capacity_wf.
  - done.
  - reflexivity.
  - by intros n [= <-].
  - repeat constructor; cbn; intros; simplify_eq; done.
  - vm_compute. reflexivity.
  - done.
Defined.
