(* ===== verification/Pow.v ===== *)
(** * Proof of work ([core/src/crypto/pow.rs])

    Challenges are stateless: the nonce carries its time and a truncated keyed hash
    that binds it to the client.  BLAKE3 is the class [PowHash]; all the code relies on
    is that its output is 32 bytes ([PowHashLaws]).  The clock is in seconds. *)

From Stdlib Require Import ZArith Lia.
From stdpp Require Import base numbers option list.
From S2P Require Import Prelude.

Local Open Scope Z_scope.
Local Open Scope phantom_scope.

Class PowHash := {
  blake3_keyed : list Z -> list Z -> list Z;   (* key, message *)
  blake3_hash : list Z -> list Z;
}.

Class PowHashLaws `{PowHash} : Prop := {
  blake3_keyed_length k m : length (blake3_keyed k m) = 32%nat;
  blake3_keyed_bytes k m : is_bytes (blake3_keyed k m);
  blake3_hash_length m : length (blake3_hash m) = 32%nat;
  blake3_hash_bytes m : is_bytes (blake3_hash m);
}.

Definition MAX_CLIENT_POW_DIFFICULTY : Z := 24.
Definition MAX_SOLVE_ITERATIONS : Z := 2 ^ (MAX_CLIENT_POW_DIFFICULTY + 8).

Inductive PowError := DifficultyTooHigh (demanded cap : Z) | Exhausted.

Record PoWChallenge := mk_challenge { pc_nonce : list Z; pc_difficulty : Z }.
Record PoWSolution := mk_solution { ps_nonce : list Z; ps_solution : Z }.

(** [u8::leading_zeros]. *)
Definition leading_zeros_u8 (b : Z) : Z := if b =? 0 then 8 else 7 - Z.log2 b.

(** The loop of [check_leading_zeros]; the count is a [u8]. *)
Fixpoint count_zeros (hash : list Z) (zeros : Z) : Z :=
  match hash with
  | [] => zeros
  | byte :: rest =>
    if byte =? 0 then count_zeros rest (wrap 8 (zeros + 8))
    else wrap 8 (zeros + leading_zeros_u8 byte)
  end.

Definition check_leading_zeros (hash : list Z) (difficulty : Z) : bool := difficulty <=? count_zeros hash 0.

(** Try [p] candidates from [i] upwards: the first that [f] accepts, or where the search
    ended.  The count is binary, so the bound of 2^32 is never unfolded. *)
Fixpoint search {A} (f : Z -> option A) (p : positive) (i : Z) : A + Z :=
  match p with
  | xH => match f i with Some a => inl a | None => inr (i + 1) end
  | xO q => match search f q i with inl a => inl a | inr j => search f q j end
  | xI q =>
    match f i with
    | Some a => inl a
    | None => match search f q (i + 1) with inl a => inl a | inr j => search f q j end
    end
  end.

Section Pow.
Context `{PowHash}.

Definition compute_blake3_hash (nonce : list Z) (solution : Z) : list Z := blake3_hash (nonce ++ le_encode 8 solution).

Definition new_stateless (difficulty : Z) (client_id secret : list Z) (now : Z) : PoWChallenge :=
  let timestamp := le_encode 8 now in
  mk_challenge (timestamp ++ take 24 (blake3_keyed secret (timestamp ++ client_id))) difficulty.

Definition verify (c : PoWChallenge) (solution : PoWSolution) (client_id secret : list Z) (now : Z) : bool :=
  if negb (bool_decide (pc_nonce c = ps_nonce solution)) then false
  else
    let timestamp_bytes := take 8 (pc_nonce c) in
    let timestamp := le_decode timestamp_bytes in
    let mac := blake3_keyed secret (timestamp_bytes ++ client_id) in
    if negb (bool_decide (slice 8 32 (pc_nonce c) = take 24 mac)) then false
    else if (now <? timestamp) || (wrap 64 (timestamp + 120) <? now) then false
    else check_leading_zeros (compute_blake3_hash (pc_nonce c) (ps_solution solution)) (pc_difficulty c).

Definition attempt (c : PoWChallenge) (solution : Z) : option PoWSolution :=
  if check_leading_zeros (compute_blake3_hash (pc_nonce c) solution) (pc_difficulty c)
  then Some (mk_solution (pc_nonce c) solution) else None.

Definition solve_with_bound (c : PoWChallenge) (max_iters : Z) : result PoWSolution PowError :=
  match max_iters with
  | Zpos p => match search (attempt c) p 0 with inl s => Ok s | inr _ => Err Exhausted end
  | _ => Err Exhausted
  end.

Definition solve (c : PoWChallenge) : result PoWSolution PowError := solve_with_bound c MAX_SOLVE_ITERATIONS.

Definition solve_capped (c : PoWChallenge) (max_difficulty : Z) : result PoWSolution PowError :=
  if max_difficulty <? pc_difficulty c then Err (DifficultyTooHigh (pc_difficulty c) max_difficulty) else solve c.

End Pow.

(** ** The zero count *)

Lemma leading_zeros_u8_spec b d :
  is_byte b -> 0 <= d <= 8 -> (d <= leading_zeros_u8 b <-> b < 2 ^ (8 - d)).
Proof.
  intros [Hb0 Hb] Hd. unfold leading_zeros_u8. case_test; bool_to_prop.
  - subst. split; [|lia]. intros _. apply Z.pow_pos_nonneg; lia.
  - destruct (Z.log2_spec b) as [Hlo Hhi]; [lia|]. split; intros Hx.
    + apply Z.lt_le_trans with (1 := Hhi). apply Z.pow_le_mono_r; lia.
    + destruct (Z_lt_le_dec (7 - Z.log2 b) d) as [Hlt|]; [|done].
      assert (2 ^ (8 - d) <= 2 ^ Z.log2 b) by (apply Z.pow_le_mono_r; lia). lia.
Qed.

Lemma be_decode_head b rest :
  is_bytes (b :: rest) -> b * 256 ^ Z.of_nat (length rest) <= be_decode (b :: rest) < (b + 1) * 256 ^ Z.of_nat (length rest).
Proof.
  intros Hb. inversion_clear Hb as [|? ? Hx Hr]. rewrite be_decode_cons. pose proof (be_decode_bound rest Hr). lia.
Qed.

Lemma pow256 n : 256 ^ Z.of_nat n = 2 ^ (8 * Z.of_nat n).
Proof. rewrite Z.pow_mul_r by lia. done. Qed.

Lemma head_below b rest k :
  is_bytes (b :: rest) -> 0 <= k -> (be_decode (b :: rest) < 2 ^ (k + 8 * Z.of_nat (length rest)) <-> b < 2 ^ k).
Proof.
  intros Hb Hk. pose proof (be_decode_head b rest Hb) as [Hlo Hhi]. rewrite Z.pow_add_r, <- pow256 by lia.
  set (w := 256 ^ Z.of_nat (length rest)) in *. assert (0 < w) by (apply Z.pow_pos_nonneg; lia).
  split; intros Hx.
  - apply (Z.mul_lt_mono_pos_r w); lia.
  - apply Z.lt_le_trans with (1 := Hhi). apply Z.mul_le_mono_nonneg_r; lia.
Qed.

Lemma count_zeros_spec l : ∀ z d,
  is_bytes l -> be_decode l ≠ 0 -> 0 <= z <= d -> d - z <= 8 * len l -> z + 8 * len l <= 256 ->
  (d <= count_zeros l z <-> be_decode l < 2 ^ (8 * len l - (d - z))).
Proof.
  induction l as [|b rest IH]; intros z d Hb Hne Hz Hd Hw; [done|].
  pose proof Hb as Hb0. inversion_clear Hb as [|? ? Hx Hr]. cbn [count_zeros]. rewrite len_cons in *.
  assert (Hlen : 0 <= len rest) by apply len_nonneg.
  destruct (Z.eqb_spec b 0) as [->|Hnz].
  - rewrite be_decode_cons, Z.mul_0_l, Z.add_0_l in *. pose proof (be_decode_bound rest Hr) as [Hp Hq].
    destruct rest as [|b' rest']; [done|]. set (r := b' :: rest') in *.
    assert (len r = 1 + len rest') as Hlr by apply len_cons. pose proof (len_nonneg rest').
    rewrite (wrap_small 8) by (unfold in_u; lia).
    destruct (Z_le_gt_dec d (z + 8)) as [Hle|Hgt].
    + split; intros _.
      * rewrite pow256 in Hq. apply Z.lt_le_trans with (1 := Hq). apply Z.pow_le_mono_r; unfold len; lia.
      * apply Z.le_trans with (z + 8); [done|]. apply IH; [done|done|lia|lia|lia|].
        rewrite pow256 in Hq. replace (8 * len r - (z + 8 - (z + 8))) with (8 * Z.of_nat (length r)) by (unfold len; lia). done.
    + rewrite IH by (done || lia). by replace (8 * len r - (d - (z + 8))) with (8 * (1 + len r) - (d - z)) by lia.
  - assert (Hlz : 0 <= leading_zeros_u8 b <= 7).
    { pose proof (Z.log2_nonneg b) as Hl0. assert (Z.log2 b <= 7).
      { destruct Hx. apply Z.lt_succ_r, Z.log2_lt_pow2; cbn; lia. } unfold leading_zeros_u8.
      destruct (Z.eqb_spec b 0); lia. }
    rewrite (wrap_small 8) by (unfold in_u; lia).
    destruct (Z_le_gt_dec (d - z) 8) as [Hle|Hgt].
    + replace (8 * (1 + len rest) - (d - z)) with ((8 - (d - z)) + 8 * Z.of_nat (length rest)) by (unfold len; lia).
      rewrite head_below by (done || lia). rewrite <- (leading_zeros_u8_spec b (d - z)) by (done || lia). lia.
    + split; [lia|]. intros Hc. exfalso. pose proof (be_decode_head b rest Hb0) as [Hlo _].
      assert (1 <= b) by (destruct Hx; lia). rewrite pow256 in Hlo.
      assert (2 ^ (8 * (1 + len rest) - (d - z)) <= 2 ^ (8 * Z.of_nat (length rest))) by (apply Z.pow_le_mono_r; unfold len; lia).
      assert (0 < 2 ^ (8 * Z.of_nat (length rest))) by (apply Z.pow_pos_nonneg; lia). nia.
Qed.

Lemma check_leading_zeros_spec h d :
  is_bytes h -> length h = 32%nat -> be_decode h ≠ 0 -> 0 <= d <= 255 ->
  (check_leading_zeros h d = true <-> be_decode h < 2 ^ (256 - d)).
Proof.
  intros Hb Hl Hne Hd. unfold check_leading_zeros. rewrite Z.leb_le.
  assert (Hlen : len h = 32) by (unfold len; lia).
  rewrite count_zeros_spec by (done || lia). rewrite Hlen. by replace (8 * 32 - (d - 0)) with (256 - d) by lia.
Qed.

(** ** The search *)

Lemma search_spec {A} (f : Z -> option A) p : ∀ i,
  match search f p i with
  | inl a => ∃ j, i <= j < i + Zpos p ∧ f j = Some a ∧ ∀ k, i <= k < j -> f k = None
  | inr j => j = i + Zpos p ∧ ∀ k, i <= k < j -> f k = None
  end.
Proof.
  assert (Hlink : ∀ q i, (∀ i', match search f q i' with
      | inl a => ∃ j, i' <= j < i' + Zpos q ∧ f j = Some a ∧ ∀ k, i' <= k < j -> f k = None
      | inr j => j = i' + Zpos q ∧ ∀ k, i' <= k < j -> f k = None end) ->
    match (match search f q i with inl a => inl a | inr j => search f q j end) with
    | inl a => ∃ j, i <= j < i + 2 * Zpos q ∧ f j = Some a ∧ ∀ k, i <= k < j -> f k = None
    | inr j => j = i + 2 * Zpos q ∧ ∀ k, i <= k < j -> f k = None
    end).
  { intros q i IH. pose proof (IH i) as H1. destruct (search f q i) as [a|j].
    - destruct H1 as (j & ? & ? & ?). exists j. split; [lia|done].
    - destruct H1 as [-> Hn]. pose proof (IH (i + Zpos q)) as H2. destruct (search f q (i + Zpos q)) as [a|j].
      + destruct H2 as (j & ? & ? & Hn2). exists j. split; [lia|]. split; [done|]. intros k Hk.
        destruct (Z_lt_le_dec k (i + Zpos q)); [apply Hn|apply Hn2]; lia.
      + destruct H2 as [-> Hn2]. split; [lia|]. intros k Hk. destruct (Z_lt_le_dec k (i + Zpos q)); [apply Hn|apply Hn2]; lia. }
  induction p as [q IH|q IH|]; intros i; cbn [search].
  - destruct (f i) as [a|] eqn:E; [exists i; split; [lia|split; [done|intros; lia]]|].
    pose proof (Hlink q (i + 1) IH) as H1.
    destruct (match search f q (i + 1) with inl a => inl a | inr j => search f q j end) as [a|j].
    + destruct H1 as (j & ? & ? & Hn). exists j. split; [lia|]. split; [done|]. intros k Hk.
      destruct (decide (k = i)) as [->|]; [done|]. apply Hn. lia.
    + destruct H1 as [-> Hn]. split; [lia|]. intros k Hk. destruct (decide (k = i)) as [->|]; [done|]. apply Hn. lia.
  - exact (Hlink q i IH).
  - destruct (f i) as [a|] eqn:E; [exists i; split; [lia|split; [done|intros; lia]]|].
    split; [done|]. intros k Hk. by replace k with i by lia.
Qed.

(** ** Properties *)

Section Properties.
Context `{PowHashLaws}.

Definition work (nonce : list Z) (solution : Z) : Z := be_decode (compute_blake3_hash nonce solution).

(** Enough leading zero bits; an all-zero hash overflows the [u8] count to zero. *)
Definition enough (nonce : list Z) (solution d : Z) : Prop :=
  d = 0 ∨ 0 < work nonce solution < 2 ^ (256 - d).

Lemma count_zero_hash : count_zeros (replicate 32 0) 0 = 0.
Proof. reflexivity. Qed.

Lemma be_decode_zero l : is_bytes l -> be_decode l = 0 -> l = replicate (length l) 0.
Proof. intros Hb Hz. rewrite <- (be_encode_decode l Hb), Hz, be_encode_length. clear. induction (length l); cbn; [done|]. f_equal. done. Qed.

Lemma enough_spec nonce solution d :
  0 <= d <= 255 -> (check_leading_zeros (compute_blake3_hash nonce solution) d = true <-> enough nonce solution d).
Proof.
  intros Hd. unfold enough, work, compute_blake3_hash. set (m := nonce ++ le_encode 8 solution).
  pose proof (blake3_hash_bytes m) as Hb. pose proof (blake3_hash_length m) as Hl.
  destruct (decide (be_decode (blake3_hash m) = 0)) as [E|E].
  - rewrite E, (be_decode_zero _ Hb E), Hl. unfold check_leading_zeros. rewrite count_zero_hash, Z.leb_le.
    destruct (decide (d = 0)); [|lia]. split; [by left|lia].
  - rewrite check_leading_zeros_spec by done. pose proof (be_decode_bound _ Hb) as [Hlo Hhi]. rewrite Hl in Hhi.
    change (256 ^ Z.of_nat 32) with (2 ^ 256) in Hhi.
    destruct (decide (d = 0)) as [->|]; [split; [by left|done]|]. lia.
Qed.

Lemma issued_parts d id secret ts :
  take 8 (pc_nonce (new_stateless d id secret ts)) = le_encode 8 ts ∧
  slice 8 32 (pc_nonce (new_stateless d id secret ts)) = take 24 (blake3_keyed secret (le_encode 8 ts ++ id)).
Proof.
  unfold new_stateless. cbn [pc_nonce]. split.
  - apply take_app_exact. by rewrite le_encode_length.
  - unfold slice. rewrite drop_app_exact by by rewrite le_encode_length.
    apply take_ge. rewrite length_take, blake3_keyed_length. lia.
Qed.

Lemma issued_inv n id secret :
  length n = 32%nat -> is_bytes n -> slice 8 32 n = take 24 (blake3_keyed secret (take 8 n ++ id)) ->
  n = pc_nonce (new_stateless 0 id secret (le_decode (take 8 n))).
Proof.
  intros Hl Hb Hm. unfold new_stateless. cbn [pc_nonce].
  assert (He : le_encode 8 (le_decode (take 8 n)) = take 8 n).
  { unfold le_encode, le_decode. rewrite (be_encode_decode_len 8); [by rewrite reverse_involutive| |].
    - rewrite length_reverse, length_take. lia.
    - apply Forall_reverse. by apply is_bytes_take. }
  rewrite He, <- Hm. unfold slice. rewrite <- (take_drop 8 n) at 1. f_equal.
  symmetry. apply take_ge. rewrite length_drop. lia.
Qed.

Lemma le_decode_u64 l : is_bytes l -> length l = 8%nat -> in_u 64 (le_decode l).
Proof.
  intros Hb Hl. unfold in_u, le_decode. pose proof (be_decode_bound (reverse l)) as Hx.
  rewrite length_reverse, Hl in Hx. apply Hx. by apply Forall_reverse.
Qed.

(** On an issued challenge only the hash decides, for 120 seconds. *)
Lemma verify_issued d id secret ts now k :
  0 <= ts < 2 ^ 64 - 120 -> ts <= now <= ts + 120 ->
  let c := new_stateless d id secret ts in
  verify c (mk_solution (pc_nonce c) k) id secret now = check_leading_zeros (compute_blake3_hash (pc_nonce c) k) d.
Proof.
  intros Hts Hnow c. unfold verify. cbn [ps_nonce ps_solution]. rewrite bool_decide_eq_true_2 by done. cbn [negb].
  destruct (issued_parts d id secret ts) as [I1 I2]. fold c in I1, I2. rewrite I1, I2. rewrite bool_decide_eq_true_2 by done. cbn [negb].
  rewrite le_decode_encode, wrap_small by (unfold in_u; cbn; lia).
  destruct (Z.ltb_spec now ts); [lia|]. destruct (Z.ltb_spec (ts + 120) now); [lia|]. done.
Qed.

Lemma issued_nonce_ok d id secret ts :
  length (pc_nonce (new_stateless d id secret ts)) = 32%nat ∧ is_bytes (pc_nonce (new_stateless d id secret ts)).
Proof.
  unfold new_stateless. cbn [pc_nonce]. split.
  - rewrite length_app, le_encode_length, length_take, blake3_keyed_length. done.
  - apply is_bytes_app. split; [apply Forall_reverse, be_encode_bytes|apply is_bytes_take, blake3_keyed_bytes].
Qed.

Lemma solve_capped_spec c cap :
  match solve_capped c cap with
  | Ok s =>
    ∃ k, s = mk_solution (pc_nonce c) k ∧ pc_difficulty c <= cap ∧ 0 <= k < 2 ^ 32 ∧
      check_leading_zeros (compute_blake3_hash (pc_nonce c) k) (pc_difficulty c) = true ∧
      ∀ j, 0 <= j < k -> check_leading_zeros (compute_blake3_hash (pc_nonce c) j) (pc_difficulty c) = false
  | Err Exhausted => pc_difficulty c <= cap ∧ ∀ j, 0 <= j < 2 ^ 32 -> check_leading_zeros (compute_blake3_hash (pc_nonce c) j) (pc_difficulty c) = false
  | Err (DifficultyTooHigh demanded limit) => demanded = pc_difficulty c ∧ limit = cap ∧ cap < pc_difficulty c
  end.
Proof.
  unfold solve_capped. destruct (Z.ltb_spec cap (pc_difficulty c)); [done|].
  assert (Hno : ∀ k, attempt c k = None -> check_leading_zeros (compute_blake3_hash (pc_nonce c) k) (pc_difficulty c) = false).
  { intros k. unfold attempt. by case_test. }
  unfold solve, solve_with_bound. change MAX_SOLVE_ITERATIONS with (Zpos (2 ^ 32)). cbn [Pos.pow].
  pose proof (search_spec (attempt c) (2 ^ 32) 0) as Hs. destruct (search (attempt c) (2 ^ 32) 0) as [s|j].
  - destruct Hs as (j & Hj & Ha & Hn). unfold attempt in Ha.
    destruct (check_leading_zeros _ _) eqn:Hz in Ha; [|done]. injection Ha as <-. exists j. split; [done|]. split; [lia|]. split; [lia|]. auto.
  - destruct Hs as [-> Hn]. split; [done|]. intros k Hk. apply Hno, Hn. lia.
Qed.

(** The gate accepts exactly the work it asked for.  A solution passes [verify] if and
    only if its nonce is the one the server issues for this client under this secret at
    some second of the last 120, and its hash has the demanded zero bits.  Nothing is
    stored per challenge, and no nonce of another client, secret or time passes unless
    its 24-byte tag is the same. *)
Theorem pow_verify_exact (c : PoWChallenge) (s : PoWSolution) (id secret : list Z) (now : Z) :
  length (pc_nonce c) = 32%nat -> is_bytes (pc_nonce c) -> 0 <= pc_difficulty c <= 255 -> 0 <= now < 2 ^ 64 - 120 ->
  (verify c s id secret now = true <->
   ps_nonce s = pc_nonce c ∧ enough (pc_nonce c) (ps_solution s) (pc_difficulty c) ∧
   ∃ ts, c = new_stateless (pc_difficulty c) id secret ts ∧ 0 <= ts ∧ ts <= now <= ts + 120).
Proof.
  intros Hl Hb Hd Hnow. unfold verify. case_test; bool_to_prop.
  { split; [done|]. intros (E & _). apply bool_decide_eq_false in Heqb. congruence. }
  case_test; bool_to_prop.
  { split; [done|]. intros (_ & _ & ts & E & _). destruct (issued_parts (pc_difficulty c) id secret ts) as [H8 Hm].
    rewrite <- E in H8, Hm. apply bool_decide_eq_false in Heqb0. by rewrite H8 in Heqb0. }
  apply bool_decide_eq_true in Heqb, Heqb0. pose proof (le_decode_u64 (take 8 (pc_nonce c)) (is_bytes_take 8 _ Hb)) as Hts.
  rewrite length_take, Hl in Hts. specialize (Hts eq_refl). set (t := le_decode _) in *.
  assert (Hiss : c = new_stateless (pc_difficulty c) id secret t).
  { destruct c as [n d]. cbn in *. unfold new_stateless. f_equal. by apply issued_inv. }
  assert (Huniq : ∀ ts, 0 <= ts <= now -> c = new_stateless (pc_difficulty c) id secret ts -> ts = t).
  { intros ts Hr E. destruct (issued_parts (pc_difficulty c) id secret ts) as [H8 _]. rewrite <- E in H8.
    subst t. rewrite H8, le_decode_encode; [done|]. cbn. lia. }
  unfold in_u in Hts. rewrite <- enough_spec by done. destruct (Z_lt_le_dec now t) as [Hlt|Hge].
  { rewrite (proj2 (Z.ltb_lt _ _) Hlt). cbn [orb]. split; [done|]. intros (_ & _ & ts & E & Hp & Hw).
    rewrite (Huniq ts) in Hw by (done || lia). lia. }
  rewrite (proj2 (Z.ltb_ge _ _) Hge), wrap_small by (unfold in_u; lia). cbn [orb].
  destruct (Z.ltb_spec (t + 120) now) as [Hold|Hfresh].
  - split; [done|]. intros (_ & _ & ts & E & Hp & Hw). rewrite (Huniq ts) in Hw by (done || lia). lia.
  - split; [|by intros (_ & ? & _)]. intros Hc. split; [done|]. split; [done|]. exists t. repeat split; [done|lia..].
Qed.

(** The honest client's side of it.  [solve_capped] refuses a difficulty above its cap;
    otherwise it ends after at most 2^32 hashes, with the least candidate that has the
    zero bits or, when none of them has, with [Exhausted].  What it returns for a
    challenge issued to it passes the server's [verify] at every moment of the 120
    seconds. *)
Theorem pow_solve_exact (d cap ts : Z) (id secret : list Z) :
  0 <= d <= 255 -> 0 <= ts < 2 ^ 64 - 240 ->
  let c := new_stateless d id secret ts in
  match solve_capped c cap with
  | Ok s =>
    d <= cap ∧ 0 <= ps_solution s < 2 ^ 32 ∧ (∀ k, 0 <= k < ps_solution s -> ~ enough (pc_nonce c) k d) ∧
    (∀ now, ts <= now <= ts + 120 -> verify c s id secret now = true)
  | Err Exhausted => d <= cap ∧ ∀ k, 0 <= k < 2 ^ 32 -> ~ enough (pc_nonce c) k d
  | Err (DifficultyTooHigh demanded limit) => demanded = d ∧ limit = cap ∧ cap < d
  end.
Proof.
  intros Hd Hts c. pose proof (solve_capped_spec c cap) as Hs. assert (Hdc : pc_difficulty c = d) by done. rewrite Hdc in Hs.
  destruct (solve_capped c cap) as [s|[|]]; [|done|].
  - destruct Hs as (k & -> & Hc & Hk & Hz & Hn). cbn [ps_solution]. split; [done|]. split; [done|]. split.
    + intros j Hj. rewrite <- enough_spec, Hn by done. done.
    + intros now Hnow. subst c. rewrite verify_issued by lia. done.
  - destruct Hs as [Hc Hn]. split; [done|]. intros k Hk. rewrite <- enough_spec, Hn by done. done.
Qed.
End Properties.

(** ** A concrete hash

    Not BLAKE3: the tag is the length of the message, the hash of a nonce and a candidate
    [k] is 2^255 / (1 + k).  The witnesses run on it. *)

Definition toy_hash : PowHash := {|
  blake3_keyed := λ k m, replicate 32 (len m mod 256);
  blake3_hash := λ m, be_encode 32 (2 ^ 255 / (1 + le_decode (drop 32 m)));
|}.

#[export] Instance toy_hash_laws : @PowHashLaws toy_hash.
Proof.
  split; intros; cbn -[be_encode].
  - done.
  - apply (Forall_replicate is_byte 32), Z.mod_pos_bound. lia.
  - apply be_encode_length.
  - apply be_encode_bytes.
Qed.

Definition toy_challenge : PoWChallenge := @new_stateless toy_hash 4 [1; 2] [9] 1000.

Lemma pow_verify_exact_witness :
  @verify toy_hash toy_challenge (mk_solution (pc_nonce toy_challenge) 8) [1; 2] [9] 1120 = true ∧
  @verify toy_hash toy_challenge (mk_solution (pc_nonce toy_challenge) 8) [1; 2] [9] 1121 = false ∧
  @verify toy_hash toy_challenge (mk_solution (pc_nonce toy_challenge) 7) [1; 2] [9] 1000 = false.
Proof.
  split; [|by vm_compute].
  apply (pow_verify_exact (H := toy_hash) toy_challenge (mk_solution (pc_nonce toy_challenge) 8) [1; 2] [9] 1120).
  - by vm_compute.
  - by repeat constructor.
  - done.
  - done.
  - split; [done|]. split; [right; by vm_compute|]. exists 1000. done.
Defined.

Lemma pow_solve_exact_witness :
  @solve_capped toy_hash toy_challenge 24 = Ok (mk_solution (pc_nonce toy_challenge) 8) ∧
  @verify toy_hash toy_challenge (mk_solution (pc_nonce toy_challenge) 8) [1; 2] [9] 1100 = true.
Proof.
  assert (E : @solve_capped toy_hash toy_challenge 24 = Ok (mk_solution (pc_nonce toy_challenge) 8)) by (vm_compute; reflexivity).
  split; [exact E|]. pose proof (pow_solve_exact (H := toy_hash) 4 24 1000 [1; 2] [9]) as Hx. cbv zeta in Hx.
  change (new_stateless 4 [1; 2] [9] 1000) with toy_challenge in Hx. rewrite E in Hx. apply Hx; lia.
Defined.
