(* ===== verification/Reputation.v ===== *)
(** * Per-address reputation ([core/src/transport/reputation.rs])

    The bounded map from addresses to their recent violations and the difficulty it
    asks for.  An address is its canonical text: the sources only compare addresses and
    print them.  The clock is in seconds; the sharded map is a finite map, each
    operation on it one step. *)

From Stdlib Require Import ZArith Lia.
From stdpp Require Import base numbers option list gmap.
From S2P Require Import Prelude.

Local Open Scope Z_scope.

Definition IpAddr : Type := list Z.

Definition WINDOW_SECS : Z := 60.
Definition BASE_DIFFICULTY : Z := 8.
Definition MAX_DIFFICULTY : Z := 20.
Definition DEFAULT_MAX_ENTRIES : Z := 100000.

Record ReputationEntry := mk_entry { violations : Z; last_seen_secs : Z }.
Record ReputationTracker := mk_tracker { entries : gmap IpAddr ReputationEntry; max_tracked : Z }.

Definition tracker_with_capacity (max : Z) : ReputationTracker := mk_tracker ∅ (Z.max max 1).
Definition tracker_new : ReputationTracker := tracker_with_capacity DEFAULT_MAX_ENTRIES.

Definition set_tracked (t : ReputationTracker) (m : gmap IpAddr ReputationEntry) : ReputationTracker := mk_tracker m (max_tracked t).

Definition stale (e : ReputationEntry) (now : Z) : bool := wrap 64 (last_seen_secs e + WINDOW_SECS) <? now.

Definition gc (t : ReputationTracker) (now : Z) : ReputationTracker :=
  set_tracked t (filter (λ x, stale x.2 now = false) (entries t)).

Definition full (t : ReputationTracker) : bool := max_tracked t <=? Z.of_nat (size (entries t)).

Definition record_violation (t : ReputationTracker) (ip : IpAddr) (now : Z) : ReputationTracker :=
  match entries t !! ip with
  | Some e =>
    let v := if stale e now then 1 else wrap 32 (violations e + 1) in
    set_tracked t (<[ip := mk_entry v now]> (entries t))
  | None =>
    let t1 := if full t then gc t now else t in
    if full t && full t1 then t1 else set_tracked t1 (<[ip := mk_entry 1 now]> (entries t1))
  end.

Definition reset_violations (t : ReputationTracker) (ip : IpAddr) : ReputationTracker :=
  set_tracked t (delete ip (entries t)).

Definition calculate_difficulty (t : ReputationTracker) (ip : IpAddr) (has_ticket : bool) (now : Z) : Z :=
  if has_ticket then 0
  else match entries t !! ip with
  | Some e =>
    if stale e now then 0
    else if violations e =? 0 then 0
    else Z.min (BASE_DIFFICULTY + Z.shiftl 1 (Z.min (violations e - 1) 8)) MAX_DIFFICULTY
  | None => 0
  end.

(** ** Runs *)

Inductive rep_op := Violation (ip : IpAddr) (now : Z) | Reset_ip (ip : IpAddr) | Sweep (now : Z).

Definition rep_exec (t : ReputationTracker) (o : rep_op) : ReputationTracker :=
  match o with
  | Violation ip now => record_violation t ip now
  | Reset_ip ip => reset_violations t ip
  | Sweep now => gc t now
  end.

Definition rep_run (t : ReputationTracker) (l : list rep_op) : ReputationTracker := foldl rep_exec t l.

(** The violations of one address since its last reset. *)
Fixpoint own (ip : IpAddr) (l : list rep_op) (acc : list Z) : list Z :=
  match l with
  | [] => acc
  | Violation x now :: rest => own ip rest (if decide (x = ip) then now :: acc else acc)
  | Reset_ip x :: rest => own ip rest (if decide (x = ip) then [] else acc)
  | Sweep _ :: rest => own ip rest acc
  end.

Lemma own_snoc ip l o acc :
  own ip (l ++ [o]) acc =
  match o with
  | Violation x now => if decide (x = ip) then now :: own ip l acc else own ip l acc
  | Reset_ip x => if decide (x = ip) then [] else own ip l acc
  | Sweep _ => own ip l acc
  end.
Proof. revert acc. induction l as [|[x n|x|n] l IH]; intros acc; cbn; auto. Qed.

(** The entry of an address is its latest violation, counted at most once each. *)
Definition entry_ok (ip : IpAddr) (own : list Z) (e : ReputationEntry) : Prop :=
  head own = Some (last_seen_secs e) ∧ 0 <= violations e <= Z.of_nat (length own).

Record tracker_ok (l : list rep_op) (t : ReputationTracker) : Prop := {
  tracker_own ip e : entries t !! ip = Some e -> entry_ok ip (own ip l []) e;
  tracker_bound : Z.of_nat (size (entries t)) <= max_tracked t;
}.

Lemma gc_ok l t now : tracker_ok l t -> tracker_ok l (gc t now).
Proof.
  intros [Ho Hb]. split; cbn.
  - intros ip e [He _]%map_lookup_filter_Some. by apply Ho.
  - pose proof (map_size_filter (λ x, stale x.2 now = false) (entries t)). lia.
Qed.

Lemma wrap_le w x : 0 <= w -> 0 <= x -> 0 <= wrap w x <= x.
Proof. intros. unfold wrap. assert (0 < 2 ^ w) by (apply Z.pow_pos_nonneg; lia). split; [apply Z.mod_pos_bound; lia|apply Z.mod_le; lia]. Qed.

Lemma tracked_insert l t x now v :
  tracker_ok l t -> 0 <= v <= Z.of_nat (S (length (own x l []))) ->
  Z.of_nat (size (<[x := mk_entry v now]> (entries t))) <= max_tracked t ->
  tracker_ok (l ++ [Violation x now]) (set_tracked t (<[x := mk_entry v now]> (entries t))).
Proof.
  intros [Ho Hb] Hv Hs. split; cbn; [|done]. intros ip e. rewrite own_snoc.
  destruct (decide (x = ip)) as [->|Hne].
  - rewrite lookup_insert_eq. intros [= <-]. by split.
  - rewrite lookup_insert_ne by done. apply Ho.
Qed.

Lemma violation_skipped l t x now : tracker_ok l t -> entries t !! x = None -> tracker_ok (l ++ [Violation x now]) t.
Proof.
  intros [Ho Hb] Hx. split; [|done]. intros ip e He. rewrite own_snoc.
  rewrite decide_False by congruence. by apply Ho.
Qed.

Lemma violation_ok l t x now : tracker_ok l t -> tracker_ok (l ++ [Violation x now]) (record_violation t x now).
Proof.
  intros Ht. pose proof Ht as [Ho Hb]. unfold record_violation. destruct (entries t !! x) as [e|] eqn:E.
  - destruct (Ho _ _ E) as [_ Hv]. apply tracked_insert; [done| |by rewrite map_size_insert_Some].
    case_test; [lia|]. pose proof (wrap_le 32 (violations e + 1)). lia.
  - set (t1 := if full t then gc t now else t).
    assert (Ht1 : tracker_ok l t1) by (subst t1; case_test; [by apply gc_ok|done]).
    assert (E1 : entries t1 !! x = None).
    { subst t1. case_test; [|done]. cbn. apply map_lookup_filter_None. by left. }
    case_test; bool_to_prop; [by apply violation_skipped|].
    apply tracked_insert; [done|lia|]. rewrite map_size_insert_None by done.
    assert (Hm : max_tracked t1 = max_tracked t) by (subst t1; by destruct (full t)).
    assert (Hf : full t1 = false) by (subst t1; destruct (full t) eqn:Ef; [|done]; cbn in *; by destruct (full (gc t now))).
    unfold full in Hf. bool_to_prop. lia.
Qed.

Lemma reset_ok l t x : tracker_ok l t -> tracker_ok (l ++ [Reset_ip x]) (reset_violations t x).
Proof.
  intros [Ho Hb]. split; cbn.
  - intros ip e [Hne He]%lookup_delete_Some. rewrite own_snoc, decide_False by done. by apply Ho.
  - rewrite map_size_delete. destruct (entries t !! x); cbn; lia.
Qed.

Lemma rep_run_ok max l : tracker_ok l (rep_run (tracker_with_capacity max) l).
Proof.
  induction l as [|o l IH] using rev_ind.
  - split; cbn; [by intros ? ? ?|]. rewrite map_size_empty. lia.
  - unfold rep_run in *. rewrite foldl_app. destruct o as [x now|x|now]; cbn.
    + by apply violation_ok.
    + by apply reset_ok.
    + apply (gc_ok _ _ now) in IH. split; [|apply IH]. intros ip e He. rewrite own_snoc. by apply IH.
Qed.

Lemma rep_run_max max l : max_tracked (rep_run (tracker_with_capacity max) l) = Z.max max 1.
Proof.
  induction l as [|o l IH] using rev_ind; [done|]. unfold rep_run in *. rewrite foldl_app. destruct o as [x now|x|now]; cbn; try done.
  unfold record_violation. destruct (entries _ !! x); [done|]. set (t := foldl _ _ l) in *. destruct (full t); cbn; [|done].
  by destruct (full (gc t now)).
Qed.

(** ** Property *)

(** Whatever the traffic, the map never exceeds its capacity, and an address is charged
    only for its own recent violations: the difficulty asked of it is zero unless its
    latest violation since its last success is at most 60 seconds old, and then it is
    between 9 and 20 and no more than its own number of violations justifies. *)
Theorem charged_for_own_violations (max now : Z) (l : list rep_op) (ip : IpAddr) :
  let t := rep_run (tracker_with_capacity max) l in
  let d := calculate_difficulty t ip false now in
  Z.of_nat (size (entries t)) <= Z.max max 1 ∧
  (d = 0 ∨
   9 <= d <= MAX_DIFFICULTY ∧ d <= BASE_DIFFICULTY + 2 ^ (Z.of_nat (length (own ip l [])) - 1) ∧
   ∃ seen, head (own ip l []) = Some seen ∧ now <= wrap 64 (seen + WINDOW_SECS)).
Proof.
  intros t d. destruct (rep_run_ok max l) as [Ho Hb]. rewrite rep_run_max in Hb. split; [done|].
  unfold d, calculate_difficulty. destruct (entries t !! ip) as [e|] eqn:E; [|by left].
  destruct (Ho _ _ E) as [Hh Hv]. case_test; [by left|]. case_test; bool_to_prop; [by left|right].
  unfold stale in *. bool_to_prop. rewrite Z.shiftl_1_l.
  set (k := Z.min (violations e - 1) 8). assert (0 <= k) by lia.
  assert (2 ^ 0 <= 2 ^ k) by (apply Z.pow_le_mono_r; lia).
  assert (2 ^ k <= 2 ^ (Z.of_nat (length (own ip l [])) - 1)) by (apply Z.pow_le_mono_r; lia).
  unfold BASE_DIFFICULTY, MAX_DIFFICULTY. repeat split; [lia..|]. exists (last_seen_secs e). by split.
Qed.
