(* ===== verification/HandshakeWire.v ===== *)
(** * Handshake messages ([core/src/transport/handshake.rs], [crypto/hybrid_kem.rs],
      [crypto/hybrid_sign.rs])

    The messages of the handshake, the walk that bounds a [ClientHello] before it is
    decoded, the framing of the server's replies and the signed transcript.

    The messages are serialised by the [borsh] crate, whose derived code is not in the
    repository: it is the class [Borsh].  What the sources rely on is the documented
    format (fixed arrays as they are, a [Vec<u8>] behind its little-endian [u32]
    length, an [Option] behind a byte 0 or 1, fields in order) and that it is
    bijective; that is the class [BorshLaws], stated with the codecs of the first
    section.  [borsh_by_format] is a concrete instance. *)

From Stdlib Require Import ZArith Lia String.
From stdpp Require Import base numbers option list.
From S2P Require Import Prelude Crypto Pow.

Local Open Scope Z_scope.
Local Open Scope phantom_scope.

Lemma le_encode_bytes n x : is_bytes (le_encode n x).
Proof. apply Forall_reverse, be_encode_bytes. Qed.

(** ** Codecs *)

Record codec (A : Type) := mk_codec {
  enc : A -> list Z;
  dec : list Z -> option (A * list Z);
  fits : A -> Prop;
  dec_enc a r : fits a -> dec (enc a ++ r) = Some (a, r);
  enc_dec l a r : is_bytes l -> dec l = Some (a, r) -> fits a ∧ l = enc a ++ r;
  enc_bytes a : fits a -> is_bytes (enc a);
}.
Arguments enc {A} _ _.
Arguments dec {A} _ _.
Arguments fits {A} _ _.
Arguments dec_enc {A} _ _ _ _.
Arguments enc_dec {A} _ _ _ _ _ _.
Arguments enc_bytes {A} _ _ _.

Lemma enc_inj {A} (c : codec A) a b r s : fits c a -> fits c b -> enc c a ++ r = enc c b ++ s -> a = b ∧ r = s.
Proof.
  intros Ha Hb E. pose proof (dec_enc c a r Ha) as Da. rewrite E, (dec_enc c b s Hb) in Da. by injection Da as -> ->.
Qed.

Definition c_fixed (n : nat) : codec (list Z).
Proof.
  refine (mk_codec _ (λ a, a) (λ l, if decide (n <= length l)%nat then Some (take n l, drop n l) else None)
    (λ a, length a = n ∧ is_bytes a) _ _ _).
  - intros a r [Hl _]. rewrite decide_True by (rewrite length_app; lia).
    by rewrite take_app_exact, drop_app_exact.
  - intros l a r Hb. destruct (decide _); [|done]. intros [= <- <-]. split; [|symmetry; apply take_drop].
    split; [rewrite length_take; lia|by apply is_bytes_take].
  - by intros a [_ Ha].
Defined.

Definition c_map {A B} (f : A -> B) (g : B -> A) (gf : ∀ a, g (f a) = a) (fg : ∀ b, f (g b) = b) (c : codec A) : codec B.
Proof.
  refine (mk_codec _ (λ b, enc c (g b)) (λ l, match dec c l with Some (a, r) => Some (f a, r) | None => None end)
    (λ b, fits c (g b)) _ _ _).
  - intros b r Hb. rewrite (dec_enc c) by done. by rewrite fg.
  - intros l b r Hl. destruct (dec c l) as [[a s]|] eqn:E; [|done]. intros [= <- <-]. rewrite gf. by apply (enc_dec c).
  - intros b Hb. by apply (enc_bytes c).
Defined.

Definition c_pair {A B} (c : codec A) (d : codec B) : codec (A * B).
Proof.
  refine (mk_codec _ (λ x, enc c x.1 ++ enc d x.2)
    (λ l, match dec c l with
          | Some (a, r) => match dec d r with Some (b, s) => Some ((a, b), s) | None => None end
          | None => None end)
    (λ x, fits c x.1 ∧ fits d x.2) _ _ _).
  - intros [a b] r [Ha Hb]. cbn in *. rewrite <- app_assoc, (dec_enc c) by done. by rewrite (dec_enc d).
  - intros l [a b] s Hl. destruct (dec c l) as [[a' r]|] eqn:E; [|done].
    destruct (enc_dec c l a' r Hl E) as [Ha ->]. apply is_bytes_app in Hl as [_ Hr].
    destruct (dec d r) as [[b' s']|] eqn:E2; [|done]. intros [= -> -> ->].
    destruct (enc_dec d r b s Hr E2) as [Hb ->]. cbn. by rewrite <- app_assoc.
  - intros [a b] [Ha Hb]. apply is_bytes_app. split; [by apply (enc_bytes c)|by apply (enc_bytes d)].
Defined.

(** A little-endian integer of [n] bytes. *)
Definition c_int (n : nat) : codec Z.
Proof.
  refine (mk_codec _ (le_encode n) (λ l, if decide (n <= length l)%nat then Some (le_decode (take n l), drop n l) else None)
    (λ x, 0 <= x < 256 ^ Z.of_nat n) _ _ _).
  - intros x r Hx. rewrite decide_True by (rewrite length_app, le_encode_length; lia).
    rewrite take_app_exact, drop_app_exact by by rewrite le_encode_length. by rewrite le_decode_encode.
  - intros l x r Hl. destruct (decide _); [|done]. intros [= <- <-].
    assert (Ht : is_bytes (reverse (take n l))) by by apply Forall_reverse, is_bytes_take.
    assert (Hn : length (reverse (take n l)) = n) by (rewrite length_reverse, length_take; lia).
    pose proof (be_decode_bound _ Ht) as Hx. rewrite Hn in Hx. split; [exact Hx|].
    unfold le_encode, le_decode. rewrite be_encode_decode_len, reverse_involutive by done. symmetry. apply take_drop.
  - intros x _. apply le_encode_bytes.
Defined.

Definition c_vec : codec (list Z).
Proof.
  refine (mk_codec _ (λ a, enc (c_int 4) (len a) ++ a)
    (λ l, match dec (c_int 4) l with
          | Some (n, r) => dec (c_fixed (Z.to_nat n)) r
          | None => None end)
    (λ a, len a < 2 ^ 32 ∧ is_bytes a) _ _ _).
  - intros a r [Ha Hb]. rewrite <- app_assoc. rewrite (dec_enc (c_int 4)) by (cbn; pose proof (len_nonneg a); lia).
    unfold len. rewrite Nat2Z.id. by apply (dec_enc (c_fixed (length a))).
  - intros l a r Hl. destruct (dec (c_int 4) l) as [[n s]|] eqn:E; [|done].
    destruct (enc_dec (c_int 4) l n s Hl E) as [Hn ->]. apply is_bytes_app in Hl as [_ Hs]. intros D.
    destruct (enc_dec (c_fixed (Z.to_nat n)) s a r Hs D) as [[Ha Hb] ->]. cbn [c_int enc fits] in *.
    assert (Hln : len a = n) by (unfold len; lia). rewrite Hln, <- app_assoc. split; [|done]. split; [|done].
    change (2 ^ 32) with (256 ^ Z.of_nat 4). lia.
  - intros a [_ Ha]. apply is_bytes_app. split; [apply le_encode_bytes|done].
Defined.

Definition c_opt {A} (c : codec A) : codec (option A).
Proof.
  refine (mk_codec _ (λ o, match o with None => [0] | Some a => 1 :: enc c a end)
    (λ l, match l with
          | [] => None
          | t :: r => if t =? 0 then Some (None, r)
                      else if t =? 1 then match dec c r with Some (a, s) => Some (Some a, s) | None => None end
                      else None end)
    (λ o, match o with None => True | Some a => fits c a end) _ _ _).
  - intros [a|] r Ho; cbn; [|done]. by rewrite (dec_enc c).
  - intros [|t l] o r Hl; [done|]. inversion_clear Hl as [|? ? _ Hl'].
    destruct (Z.eqb_spec t 0) as [->|]; [intros [= <- <-]; done|].
    destruct (Z.eqb_spec t 1) as [->|]; [|done]. destruct (dec c l) as [[a s]|] eqn:E; [|done].
    intros [= <- <-]. destruct (enc_dec c l a s Hl' E) as [? ->]. done.
  - intros [a|] Ha; [apply Forall_cons; split; [done|by apply (enc_bytes c)]|by apply Forall_singleton].
Defined.

Definition c_bool : codec bool.
Proof.
  refine (mk_codec _ (λ b : bool, [if b then 1 else 0])
    (λ l, match l with [] => None | t :: r => if t =? 0 then Some (false, r) else if t =? 1 then Some (true, r) else None end)
    (λ _, True) _ _ _).
  - by intros [] r _.
  - intros [|t l] b r _; [done|]. destruct (Z.eqb_spec t 0) as [->|]; [by intros [= <- <-]|].
    destruct (Z.eqb_spec t 1) as [->|]; [by intros [= <- <-]|done].
  - intros [] _; by apply Forall_singleton.
Defined.

(** ** Messages *)

Definition ascii_bytes (s : string) : list Z := (λ c, Z.of_N (Ascii.N_of_ascii c)) <$> list_ascii_of_string s.

Definition EARLY_DATA_MAX_LEN : Z := 16 * 1024.
Definition EARLY_DATA_SEALED_MAX_LEN : Z := EARLY_DATA_MAX_LEN + AEAD_OVERHEAD.
Definition ML_KEM_PK_MAX : Z := 1184.
Definition ML_DSA_PK_MAX : Z := 1952.
Definition PROTOCOL_VARIANT_MAX : Z := 64.
Definition PROTOCOL_VERSION : Z := 5.
Definition SERVER_REJECT_MARKER : list Z := ascii_bytes "PRJ1".
Definition REJECT_UNSUPPORTED_VERSION : Z := 1.
Definition REJECT_PROTOCOL_VARIANT : Z := 2.
Definition REJECT_RETRY_LIMIT : Z := 3.
Definition MAX_HANDSHAKE_RETRY_ROUNDS : Z := 3.

Definition PROTOCOL_VARIANT `{Primitives} : list Z := ascii_bytes (if fips then "phantom-fips-1" else "phantom-default-1").
Definition CLASSICAL_PK_BYTES `{Primitives} : nat := if fips then 65 else 32.

Record HybridKeyPackage := mk_kp { kp_classical : list Z; kp_ml_kem : list Z }.
Record HybridCiphertext := mk_ct { ct_classical : list Z; ct_ml_kem : list Z }.
Record HybridVerifyingKey := mk_vk { vk_ed25519 : list Z; vk_ml_dsa : list Z }.
Record HybridSignature := mk_sig { sig_ed25519 : list Z; sig_ml_dsa : list Z }.

#[export] Instance HybridVerifyingKey_eq_dec : EqDecision HybridVerifyingKey.
Proof. solve_decision. Defined.

Record ClientHello := mk_hello {
  client_key_package : HybridKeyPackage;
  client_verify_key : HybridVerifyingKey;
  ch_nonce : list Z;
  ch_version : Z;
  ch_cookie : option (list Z);
  pow_solution : option PoWSolution;
  resume_session_id : option (list Z);
  resumption_binder : option (list Z);
  ch_variant : list Z;
  ch_early_data : option (list Z);
}.

Record HelloRetryRequest := mk_retry { rq_challenge : option PoWChallenge; rq_cookie : option (list Z) }.

Record ServerHello := mk_shello {
  server_nonce : list Z;
  sh_ciphertext : HybridCiphertext;
  server_verify_key : HybridVerifyingKey;
  sh_signature : HybridSignature;
  sh_session_id : list Z;
  sh_early_data_accepted : bool;
}.

Record ServerReject := mk_reject { rj_marker : list Z; rj_code : Z; supported_version : Z }.

Definition unsupported_version : ServerReject := mk_reject SERVER_REJECT_MARKER REJECT_UNSUPPORTED_VERSION PROTOCOL_VERSION.
Definition protocol_variant_mismatch : ServerReject := mk_reject SERVER_REJECT_MARKER REJECT_PROTOCOL_VARIANT PROTOCOL_VERSION.
Definition retry_limit : ServerReject := mk_reject SERVER_REJECT_MARKER REJECT_RETRY_LIMIT PROTOCOL_VERSION.
Definition has_marker (r : ServerReject) : bool := bool_decide (rj_marker r = SERVER_REJECT_MARKER).

Inductive ServerReply := ReplyHello (h : ServerHello) | ReplyRetry (r : HelloRetryRequest) | ReplyReject (r : ServerReject).

Record HandshakeTranscript := mk_transcript {
  tr_variant : list Z;
  tr_client_hello : ClientHello;
  tr_server_nonce : list Z;
  tr_ciphertext : HybridCiphertext;
  tr_server_key : HybridVerifyingKey;
  tr_session_id : list Z;
  tr_early_data_accepted : bool;
}.

(** ** Their documented format *)

Section Format.
Context `{Primitives}.

Definition c_key_package : codec HybridKeyPackage.
Proof. refine (c_map (λ x, mk_kp x.1 x.2) (λ k, (kp_classical k, kp_ml_kem k)) _ _ (c_pair (c_fixed CLASSICAL_PK_BYTES) c_vec)); by intros []. Defined.

Definition c_ciphertext : codec HybridCiphertext.
Proof. refine (c_map (λ x, mk_ct x.1 x.2) (λ k, (ct_classical k, ct_ml_kem k)) _ _ (c_pair (c_fixed CLASSICAL_PK_BYTES) c_vec)); by intros []. Defined.

Definition c_verify_key : codec HybridVerifyingKey.
Proof. refine (c_map (λ x, mk_vk x.1 x.2) (λ k, (vk_ed25519 k, vk_ml_dsa k)) _ _ (c_pair (c_fixed 32) c_vec)); by intros []. Defined.

Definition c_signature : codec HybridSignature.
Proof. refine (c_map (λ x, mk_sig x.1 x.2) (λ k, (sig_ed25519 k, sig_ml_dsa k)) _ _ (c_pair (c_fixed 64) c_vec)); by intros []. Defined.

Definition c_solution : codec PoWSolution.
Proof. refine (c_map (λ x, mk_solution x.1 x.2) (λ k, (ps_nonce k, ps_solution k)) _ _ (c_pair (c_fixed 32) (c_int 8))); by intros []. Defined.

Definition c_challenge : codec PoWChallenge.
Proof. refine (c_map (λ x, mk_challenge x.1 x.2) (λ k, (pc_nonce k, pc_difficulty k)) _ _ (c_pair (c_fixed 32) (c_int 1))); by intros []. Defined.

Definition hello_of_fields (x : HybridKeyPackage * (HybridVerifyingKey * (list Z * (Z * (option (list Z) * (option PoWSolution *
    (option (list Z) * (option (list Z) * (list Z * option (list Z)))))))))) : ClientHello :=
  let '(kp, (vk, (nonce, (version, (cookie, (pow, (rid, (binder, (variant, early))))))))) := x in
  mk_hello kp vk nonce version cookie pow rid binder variant early.

Definition c_hello : codec ClientHello.
Proof.
  refine (c_map hello_of_fields
    (λ h, (client_key_package h, (client_verify_key h, (ch_nonce h, (ch_version h, (ch_cookie h, (pow_solution h,
      (resume_session_id h, (resumption_binder h, (ch_variant h, ch_early_data h)))))))))) _ _
    (c_pair c_key_package (c_pair c_verify_key (c_pair (c_fixed 32) (c_pair (c_int 1) (c_pair (c_opt (c_fixed 32))
      (c_pair (c_opt c_solution) (c_pair (c_opt (c_fixed 32)) (c_pair (c_opt (c_fixed 32)) (c_pair c_vec (c_opt c_vec)))))))))));
    [intros (kp & vk & nonce & version & cookie & pow & rid & binder & variant & early)|intros []]; done.
Defined.

Definition c_retry : codec HelloRetryRequest.
Proof.
  refine (c_map (λ x, mk_retry x.1 x.2) (λ k, (rq_challenge k, rq_cookie k)) _ _ (c_pair (c_opt c_challenge) (c_opt (c_fixed 32)))); by intros [].
Defined.

Definition shello_of_fields (x : list Z * (HybridCiphertext * (HybridVerifyingKey * (HybridSignature * (list Z * bool))))) : ServerHello :=
  let '(nonce, (ct, (vk, (sig, (sid, early))))) := x in mk_shello nonce ct vk sig sid early.

Definition c_shello : codec ServerHello.
Proof.
  refine (c_map shello_of_fields
    (λ h, (server_nonce h, (sh_ciphertext h, (server_verify_key h, (sh_signature h, (sh_session_id h, sh_early_data_accepted h)))))) _ _
    (c_pair (c_fixed 32) (c_pair c_ciphertext (c_pair c_verify_key (c_pair c_signature (c_pair (c_fixed 32) c_bool))))));
    [intros (nonce & ct & vk & sig & sid & early)|intros []]; done.
Defined.

Definition c_reject : codec ServerReject.
Proof.
  refine (c_map (λ x, mk_reject x.1 x.2.1 x.2.2) (λ k, (rj_marker k, (rj_code k, supported_version k))) _ _
    (c_pair (c_fixed 4) (c_pair (c_int 1) (c_int 1)))); [by intros [? []]|by intros []].
Defined.

Definition transcript_of_fields (x : list Z * (ClientHello * (list Z * (HybridCiphertext * (HybridVerifyingKey * (list Z * bool)))))) : HandshakeTranscript :=
  let '(variant, (hello, (nonce, (ct, (vk, (sid, early)))))) := x in mk_transcript variant hello nonce ct vk sid early.

Definition c_transcript : codec HandshakeTranscript.
Proof.
  refine (c_map transcript_of_fields
    (λ t, (tr_variant t, (tr_client_hello t, (tr_server_nonce t, (tr_ciphertext t, (tr_server_key t, (tr_session_id t, tr_early_data_accepted t))))))) _ _
    (c_pair c_vec (c_pair c_hello (c_pair (c_fixed 32) (c_pair c_ciphertext (c_pair c_verify_key (c_pair (c_fixed 32) c_bool)))))));
    [intros (variant & hello & nonce & ct & vk & sid & early)|intros []]; done.
Defined.

End Format.

(** ** The serialiser *)

Class Borsh := {
  hello_to_vec : ClientHello -> option (list Z);        (* None: a field too long for its length prefix *)
  hello_from_slice : list Z -> option ClientHello;
  shello_to_vec : ServerHello -> option (list Z);
  shello_from_slice : list Z -> option ServerHello;
  retry_to_vec : HelloRetryRequest -> option (list Z);
  retry_from_slice : list Z -> option HelloRetryRequest;
  reject_to_vec : ServerReject -> option (list Z);
  reject_from_slice : list Z -> option ServerReject;
  transcript_to_vec : HandshakeTranscript -> option (list Z);
}.

(** [to] and [from] are the derived code for the format [c]. *)
Definition follows {A} (c : codec A) (to : A -> option (list Z)) (from : list Z -> option A) : Prop :=
  (∀ a, fits c a -> to a = Some (enc c a)) ∧
  (∀ l a, is_bytes l -> (from l = Some a <-> fits c a ∧ l = enc c a)).

Class BorshLaws `{Primitives, Borsh} : Prop := {
  hello_format : follows c_hello hello_to_vec hello_from_slice;
  shello_format : follows c_shello shello_to_vec shello_from_slice;
  retry_format : follows c_retry retry_to_vec retry_from_slice;
  reject_format : follows c_reject reject_to_vec reject_from_slice;
  transcript_format t : fits c_transcript t -> transcript_to_vec t = Some (enc c_transcript t);
}.

(** [from_slice] of a format: everything must be consumed. *)
Definition dec_all {A} (c : codec A) (l : list Z) : option A :=
  match dec c l with Some (a, []) => Some a | _ => None end.

Lemma dec_all_follows {A} (c : codec A) : follows c (λ a, Some (enc c a)) (dec_all c).
Proof.
  split; [done|]. intros l a Hl. unfold dec_all. split.
  - destruct (dec c l) as [[a' [|]]|] eqn:E; [|done..]. intros [= ->].
    destruct (enc_dec c l a [] Hl E) as [? ->]. by rewrite app_nil_r.
  - intros [Hf ->]. pose proof (dec_enc c a [] Hf) as E. rewrite app_nil_r in E. by rewrite E.
Qed.

Definition borsh_by_format `{Primitives} : Borsh := {|
  hello_to_vec := λ a, Some (enc c_hello a); hello_from_slice := dec_all c_hello;
  shello_to_vec := λ a, Some (enc c_shello a); shello_from_slice := dec_all c_shello;
  retry_to_vec := λ a, Some (enc c_retry a); retry_from_slice := dec_all c_retry;
  reject_to_vec := λ a, Some (enc c_reject a); reject_from_slice := dec_all c_reject;
  transcript_to_vec := λ a, Some (enc c_transcript a);
|}.

Lemma borsh_by_format_laws `{Primitives} : @BorshLaws _ borsh_by_format.
Proof. by split; [apply dec_all_follows..|]. Qed.

(** ** Errors *)

Module HsError.
Inductive HandshakeError :=
| UnsupportedVersion
| KemFailed
| ServerIdentityMismatch
| RngError
| SerializationError
| ClockBackwards
| InternalError
| ProtocolVariantMismatch (expected received : list Z).
End HsError.

(** ** Framing of the replies *)

Definition KIND_HELLO : Z := 0.
Definition KIND_RETRY : Z := 1.
Definition KIND_REJECT : Z := 2.

Section Reply.
Context `{Borsh}.

Definition reply_to_wire (r : ServerReply) : result (list Z) HsError.HandshakeError :=
  let '(kind, body) :=
    match r with
    | ReplyHello h => (KIND_HELLO, shello_to_vec h)
    | ReplyRetry q => (KIND_RETRY, retry_to_vec q)
    | ReplyReject j => (KIND_REJECT, reject_to_vec j)
    end in
  b <-? ok_or body HsError.SerializationError; Ok (kind :: b).

Definition reply_from_wire (bytes : list Z) : result ServerReply HsError.HandshakeError :=
  match bytes with
  | [] => Err HsError.SerializationError
  | kind :: body =>
    if kind =? KIND_HELLO then h <-? ok_or (shello_from_slice body) HsError.SerializationError; Ok (ReplyHello h)
    else if kind =? KIND_RETRY then q <-? ok_or (retry_from_slice body) HsError.SerializationError; Ok (ReplyRetry q)
    else if kind =? KIND_REJECT then j <-? ok_or (reject_from_slice body) HsError.SerializationError; Ok (ReplyReject j)
    else Err HsError.SerializationError
  end.
End Reply.

(** ** The length walk

    The position is threaded through; [None] is the [false] every failing step returns. *)

Section Walk.
Context `{Primitives}.
Variable bytes : list Z.

Definition skip (pos n : Z) : option Z :=
  match checked_add 64 pos n with
  | Some e => if e <=? len bytes then Some e else None
  | None => None
  end.

Definition read_len (pos : Z) : option (Z * Z) :=
  match checked_add 64 pos 4 with
  | Some e => if len bytes <? e then None else Some (le_decode (slice (Z.to_nat pos) (Z.to_nat pos + 4) bytes), e)
  | None => None
  end.

Definition read_opt (pos : Z) : option (bool * Z) :=
  match bytes !! Z.to_nat pos with
  | Some tag => if tag =? 0 then Some (false, pos + 1) else if tag =? 1 then Some (true, pos + 1) else None
  | None => None
  end.

Definition vec_le (max pos : Z) : option Z :=
  match read_len pos with
  | Some (l, p) => if l <=? max then skip p l else None
  | None => None
  end.

Definition opt_fixed (n pos : Z) : option Z :=
  match read_opt pos with
  | Some (true, p) => skip p n
  | Some (false, p) => Some p
  | None => None
  end.

Definition opt_vec_le (max pos : Z) : option Z :=
  match read_opt pos with
  | Some (true, p) => vec_le max p
  | Some (false, p) => Some p
  | None => None
  end.

Definition client_hello_lengths_within_bounds : bool :=
  let walk :=
    p ← skip 0 (Z.of_nat CLASSICAL_PK_BYTES); p ← vec_le ML_KEM_PK_MAX p;
    p ← skip p 32; p ← vec_le ML_DSA_PK_MAX p;
    p ← skip p (32 + 1);
    p ← opt_fixed 32 p; p ← opt_fixed 40 p; p ← opt_fixed 32 p; p ← opt_fixed 32 p;
    p ← vec_le PROTOCOL_VARIANT_MAX p;
    opt_vec_le EARLY_DATA_SEALED_MAX_LEN p in
  match walk with Some pos => pos =? len bytes | None => false end.
End Walk.

(** ** The walk follows the format *)

Section WalkSpec.
Context `{Primitives}.
Variable bytes : list Z.
Hypothesis small : len bytes < 2 ^ 63.
Hypothesis bytes_ok : is_bytes bytes.

(** From any position, [step] moves past what [c] decodes there, if it passes [P]. *)
Definition walks {A} (step : Z -> option Z) (c : codec A) (P : A -> bool) : Prop :=
  ∀ pos, 0 <= pos <= len bytes ->
  match dec c (drop (Z.to_nat pos) bytes) with
  | Some (a, r) =>
    if P a then ∃ q, step pos = Some q ∧ 0 <= q <= len bytes ∧ r = drop (Z.to_nat q) bytes else step pos = None
  | None => step pos = None
  end.

Lemma drop_at pos n : 0 <= pos -> 0 <= n -> drop (Z.to_nat n) (drop (Z.to_nat pos) bytes) = drop (Z.to_nat (pos + n)) bytes.
Proof. intros. rewrite drop_drop. f_equal. lia. Qed.

Lemma len_at pos : 0 <= pos <= len bytes -> Z.of_nat (length (drop (Z.to_nat pos) bytes)) = len bytes - pos.
Proof. intros. rewrite length_drop. unfold len in *. lia. Qed.

Lemma skip_spec pos n : skip bytes pos n = if pos + n <=? len bytes then Some (pos + n) else None.
Proof.
  unfold skip, checked_add, u_max. destruct (Z.leb_spec (pos + n) (2 ^ 64 - 1)); [done|]. case_test; [lia|done].
Qed.

Lemma skip_add pos a b : 0 <= b -> skip bytes pos (a + b) = skip bytes pos a ≫= λ q, skip bytes q b.
Proof.
  intros Hb. rewrite !skip_spec. destruct (Z.leb_spec (pos + a) (len bytes)); cbn.
  - rewrite skip_spec. by rewrite Z.add_assoc.
  - case_test; [lia|done].
Qed.

Lemma walks_skip {A} (c : codec A) (n : nat) :
  Z.of_nat n < 2 ^ 32 ->
  (∀ l, if decide (n <= length l)%nat then ∃ a, dec c l = Some (a, drop n l) else dec c l = None) ->
  walks (λ p, skip bytes p (Z.of_nat n)) c (λ _, true).
Proof.
  intros Hn Hc pos Hp. specialize (Hc (drop (Z.to_nat pos) bytes)). pose proof (len_at pos Hp) as Hl.
  rewrite skip_spec. destruct (decide _).
  - destruct Hc as [a ->]. exists (pos + Z.of_nat n). rewrite (proj2 (Z.leb_le _ _)) by lia. repeat split; [lia|lia|].
    rewrite <- drop_at by lia. by rewrite Nat2Z.id.
  - rewrite Hc. case_test; [lia|done].
Qed.

Lemma walks_fixed n : Z.of_nat n < 2 ^ 32 -> walks (λ p, skip bytes p (Z.of_nat n)) (c_fixed n) (λ _, true).
Proof. intros Hn. apply walks_skip; [done|]. intros l. cbn. destruct (decide _); [by eexists|done]. Qed.

Lemma walks_int n : Z.of_nat n < 2 ^ 32 -> walks (λ p, skip bytes p (Z.of_nat n)) (c_int n) (λ _, true).
Proof. intros Hn. apply walks_skip; [done|]. intros l. cbn. destruct (decide _); [by eexists|done]. Qed.

Lemma walks_map {A B} f g gf fg (c : codec A) s (P : A -> bool) (Q : B -> bool) :
  (∀ a, Q (f a) = P a) -> walks s c P -> walks s (c_map f g gf fg c) Q.
Proof.
  intros Hq Hw pos Hp. specialize (Hw pos Hp). cbn. destruct (dec c _) as [[a r]|]; [|done]. by rewrite Hq.
Qed.

Lemma walks_pair {A B} (c : codec A) (d : codec B) s t P Q :
  walks s c P -> walks t d Q -> walks (λ p, s p ≫= t) (c_pair c d) (λ x, P x.1 && Q x.2).
Proof.
  intros Hs Ht pos Hp. specialize (Hs pos Hp). cbn. destruct (dec c _) as [[a r]|]; [|by rewrite Hs].
  destruct (P a) eqn:Ea.
  - destruct Hs as (q & -> & Hq & ->). specialize (Ht q Hq). cbn.
    destruct (dec d _) as [[b u]|]; [|done]. cbn. by rewrite Ea.
  - rewrite Hs. cbn. destruct (dec d r) as [[b u]|]; [|done]. cbn. by rewrite Ea.
Qed.

Lemma walks_opt {A} (c : codec A) s P :
  walks s c P ->
  walks (λ p, match read_opt bytes p with Some (true, q) => s q | Some (false, q) => Some q | None => None end)
    (c_opt c) (λ o, match o with Some a => P a | None => true end).
Proof.
  intros Hs pos Hp. unfold read_opt. pose proof (len_at pos Hp) as Hl.
  assert (Hlk : bytes !! Z.to_nat pos = drop (Z.to_nat pos) bytes !! 0%nat) by by rewrite lookup_drop, Nat.add_0_r.
  cbn beta. rewrite Hlk.
  pose proof (drop_at pos 1 ltac:(lia) ltac:(lia)) as Hd.
  destruct (drop (Z.to_nat pos) bytes) as [|t l] eqn:E; [done|]. cbn in Hl, Hd. cbn [c_opt dec lookup list_lookup].
  destruct (Z.eqb_spec t 0) as [->|]; [exists (pos + 1); repeat split; [lia|lia|done]|].
  destruct (Z.eqb_spec t 1) as [->|]; [|done]. change (drop (Z.to_nat 1) (1 :: l)) with l in Hd. subst l.
  specialize (Hs (pos + 1) ltac:(lia)). destruct (dec c _) as [[a r]|]; [|done]. by destruct (P a).
Qed.

Lemma walks_vec max : max < 2 ^ 31 -> walks (vec_le bytes max) c_vec (λ a, len a <=? max).
Proof.
  intros Hmax pos Hp. pose proof (len_at pos Hp) as Hl. unfold vec_le, read_len, checked_add.
  unfold u_max. rewrite (proj2 (Z.leb_le (pos + 4) (2 ^ 64 - 1))) by lia. change (dec c_vec) with (λ l, match dec (c_int 4) l with
    | Some (n, r) => dec (c_fixed (Z.to_nat n)) r | None => None end). cbn beta. cbn [c_int dec].
  destruct (decide (4 <= length (drop (Z.to_nat pos) bytes))%nat) as [H4|H4].
  - rewrite (proj2 (Z.ltb_ge _ _)) by lia.
    replace (slice (Z.to_nat pos) (Z.to_nat pos + 4) bytes) with (take 4 (drop (Z.to_nat pos) bytes)) by (unfold slice; f_equal; lia).
    set (n := le_decode _).
    assert (Hn : 0 <= n < 2 ^ 32).
    { apply (enc_dec (c_int 4) (drop (Z.to_nat pos) bytes) n (drop 4 (drop (Z.to_nat pos) bytes))); [by apply is_bytes_drop|].
      cbn. by rewrite decide_True. }
    change 4%nat with (Z.to_nat 4). rewrite drop_at by lia. pose proof (len_at (pos + 4) ltac:(lia)) as Hl4.
    cbn [c_fixed dec]. rewrite skip_spec. destruct (decide _) as [Hd|Hd].
    + replace (len (take (Z.to_nat n) (drop (Z.to_nat (pos + 4)) bytes))) with n by (unfold len; rewrite length_take; lia).
      destruct (Z.leb_spec n max); [|done]. rewrite (proj2 (Z.leb_le _ _)) by lia. exists (pos + 4 + n).
      repeat split; [lia|lia|]. apply drop_at; lia.
    + destruct (Z.leb_spec n max); [|done]. case_test; [lia|done].
  - rewrite (proj2 (Z.ltb_lt _ _)) by lia. done.
Qed.

Lemma walks_key_package :
  walks (λ p, skip bytes p (Z.of_nat CLASSICAL_PK_BYTES) ≫= vec_le bytes ML_KEM_PK_MAX) c_key_package (λ k, len (kp_ml_kem k) <=? ML_KEM_PK_MAX).
Proof.
  eapply walks_map; [|apply walks_pair; [apply walks_fixed|by apply walks_vec]].
  - done.
  - unfold CLASSICAL_PK_BYTES. by destruct fips.
Qed.

Lemma walks_verify_key :
  walks (λ p, skip bytes p 32 ≫= vec_le bytes ML_DSA_PK_MAX) c_verify_key (λ k, len (vk_ml_dsa k) <=? ML_DSA_PK_MAX).
Proof. eapply walks_map; [|apply walks_pair; [by apply (walks_fixed 32)|by apply walks_vec]]. done. Qed.

Lemma walks_solution : walks (λ p, skip bytes p 40) c_solution (λ _, true).
Proof.
  eapply (walks_map _ _ _ _ _ _ (λ _, true)); [done|]. intros pos Hp. change 40 with (Z.of_nat 32 + Z.of_nat 8).
  rewrite skip_add by lia. by apply (walks_pair (c_fixed 32) (c_int 8) _ _ _ _ (walks_fixed 32 ltac:(done)) (walks_int 8 ltac:(done))).
Qed.

Definition within_bounds (h : ClientHello) : bool :=
  (len (kp_ml_kem (client_key_package h)) <=? ML_KEM_PK_MAX) && (len (vk_ml_dsa (client_verify_key h)) <=? ML_DSA_PK_MAX) &&
  (len (ch_variant h) <=? PROTOCOL_VARIANT_MAX) &&
  match ch_early_data h with Some e => len e <=? EARLY_DATA_SEALED_MAX_LEN | None => true end.

(** The walk, one step per field. *)
Definition hello_walk (p : Z) : option Z :=
  (skip bytes p (Z.of_nat CLASSICAL_PK_BYTES) ≫= vec_le bytes ML_KEM_PK_MAX) ≫= λ p,
  (skip bytes p 32 ≫= vec_le bytes ML_DSA_PK_MAX) ≫= λ p,
  skip bytes p 32 ≫= λ p, skip bytes p 1 ≫= λ p,
  opt_fixed bytes 32 p ≫= λ p, opt_fixed bytes 40 p ≫= λ p, opt_fixed bytes 32 p ≫= λ p, opt_fixed bytes 32 p ≫= λ p,
  vec_le bytes PROTOCOL_VARIANT_MAX p ≫= opt_vec_le bytes EARLY_DATA_SEALED_MAX_LEN.

Lemma walks_hello : walks hello_walk c_hello within_bounds.
Proof.
  pose proof (walks_opt _ _ _ (walks_fixed 32 ltac:(done))) as Ho. pose proof (walks_opt _ _ _ walks_solution) as Hp.
  pose proof (walks_opt _ _ _ (walks_vec EARLY_DATA_SEALED_MAX_LEN ltac:(done))) as He.
  eapply walks_map; [|exact (walks_pair _ _ _ _ _ _ walks_key_package (walks_pair _ _ _ _ _ _ walks_verify_key
    (walks_pair _ _ _ _ _ _ (walks_fixed 32 ltac:(done)) (walks_pair _ _ _ _ _ _ (walks_int 1 ltac:(done))
    (walks_pair _ _ _ _ _ _ Ho (walks_pair _ _ _ _ _ _ Hp (walks_pair _ _ _ _ _ _ Ho (walks_pair _ _ _ _ _ _ Ho
    (walks_pair _ _ _ _ _ _ (walks_vec PROTOCOL_VARIANT_MAX ltac:(done)) He)))))))))].
  intros (kp & vk & nonce & version & cookie & pow & rid & binder & variant & early). unfold within_bounds. cbn.
  by destruct cookie, pow, rid, binder; rewrite <- ?andb_assoc.
Qed.
End WalkSpec.

(** ** Properties *)

Lemma walk_spec `{Primitives} bytes : is_bytes bytes -> len bytes < 2 ^ 63 ->
  (client_hello_lengths_within_bounds bytes = true <-> ∃ h, dec_all c_hello bytes = Some h ∧ within_bounds h = true).
Proof.
  intros Hb Hs. pose proof (walks_hello bytes Hs Hb 0 ltac:(pose proof (len_nonneg bytes); lia)) as Hw.
  change (drop (Z.to_nat 0) bytes) with bytes in Hw. unfold client_hello_lengths_within_bounds, dec_all.
  match goal with |- (match ?x with _ => _ end = true) <-> _ => set (walk := x) end.
  assert (Hwalk : walk = hello_walk bytes 0).
  { subst walk. unfold hello_walk. rewrite option_bind_assoc. do 2 (apply option_bind_ext_fun; intros ?; unfold compose).
    rewrite option_bind_assoc. do 2 (apply option_bind_ext_fun; intros ?; unfold compose).
    rewrite skip_add, option_bind_assoc by lia. done. }
  destruct (dec c_hello bytes) as [[h r]|] eqn:E; cycle 1.
  { rewrite Hwalk, Hw. split; [done|]. by intros (h & ? & _). }
  destruct (within_bounds h) eqn:Ew; cycle 1.
  { rewrite Hwalk, Hw. split; [done|]. intros (h' & Hh & Hw'). destruct r; [|done]. injection Hh as <-. congruence. }
  destruct Hw as (q & Hq & Hr & ->). rewrite Hwalk, Hq. split.
  - intros ->%Z.eqb_eq. exists h. rewrite drop_ge by (unfold len; lia). done.
  - intros (h' & Hh & _). apply Z.eqb_eq. destruct (drop (Z.to_nat q) bytes) as [|x l] eqn:Ed; [|done].
    apply (f_equal length) in Ed. rewrite length_drop in Ed. cbn in Ed. unfold len in *. lia.
Qed.

Lemma within_bounds_length `{Primitives} h :
  fits c_hello h -> within_bounds h = true -> len (enc c_hello h) <= 19887.
Proof.
  intros Hf Hw. unfold within_bounds in Hw. bool_to_prop.
  destruct h as [[k1 k2] [v1 v2] n v c p r b t e]. cbn -[le_encode] in *.
  destruct Hf as ([[Hk1 _] _] & [[Hv1 _] _] & [Hn _] & _ & Hc & Hp & Hr & Hbi & _ & _).
  assert (Hcl : (CLASSICAL_PK_BYTES <= 65)%nat) by (unfold CLASSICAL_PK_BYTES; destruct fips; lia).
  unfold ML_KEM_PK_MAX, ML_DSA_PK_MAX, PROTOCOL_VARIANT_MAX, EARLY_DATA_SEALED_MAX_LEN, EARLY_DATA_MAX_LEN, AEAD_OVERHEAD in *.
  assert (Hopt : ∀ o : option (list Z), match o with Some a => length a = 32%nat ∧ is_bytes a | None => True end ->
    len (match o with None => [0] | Some a => 1 :: a end) <= 33).
  { intros [a|]; [intros [Ha _]; rewrite len_cons; unfold len; lia|done]. }
  specialize (Hopt c Hc) as I1. specialize (Hopt r Hr) as I2. specialize (Hopt b Hbi) as I3.
  assert (I4 : len (match p with None => [0] | Some a => 1 :: ps_nonce a ++ le_encode 8 (ps_solution a) end) <= 41).
  { destruct p as [a|]; [|done]. destruct Hp as [[Ha _] _]. rewrite len_cons, len_app. unfold len. rewrite le_encode_length. lia. }
  assert (I5 : len (match e with None => [0] | Some a => 1 :: le_encode 4 (len a) ++ a end) <= 16405).
  { destruct e as [a|]; [|done]. rewrite len_cons, len_app. unfold len in *. rewrite le_encode_length. lia. }
  rewrite !len_app. unfold len in *. rewrite !le_encode_length. lia.
Qed.

(** A hello within its caps passes the walk and is read back. *)
Lemma hello_reads `{BorshLaws} h :
  fits c_hello h -> within_bounds h = true ->
  hello_to_vec h = Some (enc c_hello h) ∧ client_hello_lengths_within_bounds (enc c_hello h) = true ∧
  hello_from_slice (enc c_hello h) = Some h.
Proof.
  intros Hf Hw. pose proof (enc_bytes c_hello h Hf) as Hb. pose proof (within_bounds_length h Hf Hw) as Hl.
  destruct hello_format as [Hto Hfrom]. split; [by apply Hto|]. split; [|by apply Hfrom].
  apply walk_spec; [done|lia|]. exists h. split; [|done]. by apply (proj2 (dec_all_follows c_hello)).
Qed.

Definition reply_fits `{Primitives} (r : ServerReply) : Prop :=
  match r with ReplyHello h => fits c_shello h | ReplyRetry q => fits c_retry q | ReplyReject j => fits c_reject j end.

Lemma reply_reads `{BorshLaws} r : reply_fits r -> ∃ b, reply_to_wire r = Ok b ∧ reply_from_wire b = Ok r.
Proof.
  intros Hf. destruct shello_format as [Hst Hsf], retry_format as [Hrt Hrf], reject_format as [Hjt Hjf].
  unfold reply_to_wire. destruct r as [h|q|j]; cbn in Hf.
  - rewrite Hst by done. exists (KIND_HELLO :: enc c_shello h). split; [done|]. unfold reply_from_wire. cbn [Z.eqb Pos.eqb KIND_HELLO KIND_RETRY KIND_REJECT]. by rewrite (proj2 (Hsf _ h (enc_bytes c_shello h Hf))).
  - rewrite Hrt by done. exists (KIND_RETRY :: enc c_retry q). split; [done|]. unfold reply_from_wire. cbn [Z.eqb Pos.eqb KIND_HELLO KIND_RETRY KIND_REJECT]. by rewrite (proj2 (Hrf _ q (enc_bytes c_retry q Hf))).
  - rewrite Hjt by done. exists (KIND_REJECT :: enc c_reject j). split; [done|]. unfold reply_from_wire. cbn [Z.eqb Pos.eqb KIND_HELLO KIND_RETRY KIND_REJECT]. by rewrite (proj2 (Hjf _ j (enc_bytes c_reject j Hf))).
Qed.

(** C35: The walk in front of the decoder refuses exactly what it should.  A byte string
    passes [client_hello_lengths_within_bounds] if and only if it decodes, with nothing
    left over, to a [ClientHello] whose four variable fields are within their caps; and
    then it is at most 19,887 bytes long. *)
Theorem hello_walk_exact `{BorshLaws} (bytes : list Z) :
  is_bytes bytes -> len bytes < 2 ^ 63 ->
  (client_hello_lengths_within_bounds bytes = true <->
   ∃ h, hello_from_slice bytes = Some h ∧ within_bounds h = true ∧ len bytes <= 19887).
Proof.
  intros Hb Hs. rewrite walk_spec by done. destruct hello_format as [_ Hfrom]. destruct (dec_all_follows c_hello) as [_ Hdec].
  split; intros (h & Hh & Hw).
  - apply Hdec in Hh as [Hf E]; [|done]. exists h. rewrite Hfrom by done. split; [done|]. split; [done|].
    rewrite E. by apply within_bounds_length.
  - exists h. apply Hfrom in Hh as [Hf E]; [|done]. rewrite Hdec by done. tauto.
Qed.

(** A reply and its frame determine each other: what [to_wire] writes for a reply whose
    fields fit their format is read back as that reply, and every byte string
    [from_wire] accepts is the frame of exactly one reply.  The kind byte alone tells the
    three replies apart. *)
Theorem reply_wire_bijective `{BorshLaws} (bytes : list Z) (r : ServerReply) :
  is_bytes bytes ->
  (match r with ReplyHello h => fits c_shello h | ReplyRetry q => fits c_retry q | ReplyReject j => fits c_reject j end) ->
  (reply_to_wire r = Ok bytes <-> reply_from_wire bytes = Ok r).
Proof.
  intros Hb Hf. unfold reply_to_wire, reply_from_wire.
  destruct shello_format as [Hst Hsf], retry_format as [Hrt Hrf], reject_format as [Hjt Hjf].
  destruct bytes as [|k body].
  { split; [|done]. destruct r; [rewrite Hst|rewrite Hrt|rewrite Hjt]; done. }
  inversion_clear Hb as [|? ? _ Hb'].
  destruct r as [h|q|j]; [rewrite Hst by done|rewrite Hrt by done|rewrite Hjt by done]; cbn.
  - split; [intros [= <- <-]; cbn; by rewrite (proj2 (Hsf _ h Hb'))|].
    destruct (Z.eqb_spec k KIND_HELLO) as [->|]; [|repeat case_test; cbn; try done; by destruct (ok_or _ _)].
    destruct (shello_from_slice body) as [h'|] eqn:E; [|done]. cbn. intros [= ->]. by apply Hsf in E as [_ ->].
  - split; [intros [= <- <-]; cbn; by rewrite (proj2 (Hrf _ q Hb'))|].
    destruct (Z.eqb_spec k KIND_HELLO); [by destruct (ok_or _ _)|].
    destruct (Z.eqb_spec k KIND_RETRY) as [->|]; [|case_test; cbn; try done; by destruct (ok_or _ _)].
    destruct (retry_from_slice body) as [h'|] eqn:E; [|done]. cbn. intros [= ->]. by apply Hrf in E as [_ ->].
  - split; [intros [= <- <-]; cbn; by rewrite (proj2 (Hjf _ j Hb'))|].
    destruct (Z.eqb_spec k KIND_HELLO); [by destruct (ok_or _ _)|]. destruct (Z.eqb_spec k KIND_RETRY); [by destruct (ok_or _ _)|].
    destruct (Z.eqb_spec k KIND_REJECT) as [->|]; [|done].
    destruct (reject_from_slice body) as [h'|] eqn:E; [|done]. cbn. intros [= ->]. by apply Hjf in E as [_ ->].
Qed.

(** ** A concrete hello *)

Definition toy_hello : ClientHello :=
  mk_hello (mk_kp (replicate 32 1) [1; 2]) (mk_vk (replicate 32 2) [3]) (replicate 32 4) PROTOCOL_VERSION
    (Some (replicate 32 6)) None None None (ascii_bytes "phantom-default-1") (Some [7; 8]).

Definition toy_hello_bytes : list Z := enc (@c_hello toy_primitives) toy_hello.

Lemma toy_hello_bytes_ok : is_bytes toy_hello_bytes.
Proof. unfold is_bytes, is_byte. vm_compute. repeat constructor; discriminate. Qed.

Lemma hello_walk_exact_witness :
  ∃ h, @hello_from_slice (@borsh_by_format toy_primitives) toy_hello_bytes = Some h ∧ within_bounds h = true ∧ len toy_hello_bytes <= 19887.
Proof.
  apply (hello_walk_exact (H1 := @borsh_by_format_laws toy_primitives)).
  - apply toy_hello_bytes_ok.
  - by vm_compute.
  - by vm_compute.
Defined.

Lemma reply_wire_bijective_witness :
  @reply_from_wire (@borsh_by_format toy_primitives) (2 :: SERVER_REJECT_MARKER ++ [1; 5]) = Ok (ReplyReject unsupported_version).
Proof.
  apply (reply_wire_bijective (H1 := @borsh_by_format_laws toy_primitives)).
  - unfold is_bytes, is_byte. vm_compute. repeat constructor; discriminate.
  - unfold unsupported_version. cbn. unfold is_bytes, is_byte. vm_compute. repeat constructor; discriminate.
  - by vm_compute.
Defined.
