(* ===== verification/Hybrid.v ===== *)
(** * Hybrid key exchange and signatures ([core/src/crypto/hybrid_kem.rs],
      [crypto/hybrid_sign.rs])

    What the repository does around the classical and the post-quantum primitive: the
    combiner of the two shared secrets, the two halves of a signature, the byte forms of
    the keys.  The primitives are other people's code: the class [HybridPrims], with
    what their documentation promises in [HybridLaws].  Randomness is an argument. *)

From Stdlib Require Import ZArith Lia String.
From stdpp Require Import base numbers option list.
From S2P Require Import Prelude Errors Crypto HandshakeWire.

Local Open Scope Z_scope.
Local Open Scope phantom_scope.

Class HybridPrims := {
  (* X25519, or ECDH on P-256 in the fips build: public key; agreement, None when the
     peer's key does not parse *)
  ecdh_public : list Z -> list Z;
  ecdh_agree : list Z -> list Z -> option (list Z);
  (* ML-KEM-768: sizes, key pair of a seed, encapsulation with randomness (None: the
     encoded key is refused), decapsulation *)
  mlkem_ek_len : nat;
  mlkem_ct_len : nat;
  mlkem_keypair : list Z -> list Z * list Z;                  (* decapsulation key, encapsulation key *)
  mlkem_encaps : list Z -> list Z -> option (list Z * list Z); (* ciphertext, shared key *)
  mlkem_decaps : list Z -> list Z -> list Z;
  (* Ed25519 *)
  ed25519_public : list Z -> list Z;
  ed25519_key_ok : list Z -> bool;
  ed25519_sign : list Z -> list Z -> list Z;
  ed25519_verify_strict : list Z -> list Z -> list Z -> bool; (* key, message, signature *)
  (* ML-DSA-65, keys by seed *)
  mldsa_vk_len : nat;
  mldsa_sig_len : nat;
  mldsa_public : list Z -> list Z;
  mldsa_sign : list Z -> list Z -> list Z;
  mldsa_sig_ok : list Z -> bool;
  mldsa_verify : list Z -> list Z -> list Z -> bool;
}.

(** Documented behaviour: sizes, correctness of the exchange, and that a signature made
    with a key verifies under its public half. *)
Class HybridLaws `{Primitives, HybridPrims} : Prop := {
  ecdh_public_length sk : length (ecdh_public sk) = CLASSICAL_PK_BYTES ∧ is_bytes (ecdh_public sk);
  ecdh_agree_ok a b : ∃ s, ecdh_agree a (ecdh_public b) = Some s ∧ ecdh_agree b (ecdh_public a) = Some s;
  mlkem_ek_length seed : length (mlkem_keypair seed).2 = mlkem_ek_len;
  mlkem_ek_bytes seed : is_bytes (mlkem_keypair seed).2 ∧ Z.of_nat mlkem_ek_len <= ML_KEM_PK_MAX;
  mlkem_encaps_ok seed rnd : ∃ ct ss, mlkem_encaps (mlkem_keypair seed).2 rnd = Some (ct, ss) ∧
    mlkem_decaps (mlkem_keypair seed).1 ct = ss;
  mlkem_encaps_length ek rnd ct ss : mlkem_encaps ek rnd = Some (ct, ss) -> length ct = mlkem_ct_len ∧ is_bytes ct;
  mlkem_ct_small : Z.of_nat mlkem_ct_len < 2 ^ 32;
  ed25519_public_ok sk : ed25519_key_ok (ed25519_public sk) = true ∧ length (ed25519_public sk) = 32%nat ∧ is_bytes (ed25519_public sk);
  ed25519_sign_length sk m : length (ed25519_sign sk m) = 64%nat ∧ is_bytes (ed25519_sign sk m);
  ed25519_correct sk m : ed25519_verify_strict (ed25519_public sk) m (ed25519_sign sk m) = true;
  mldsa_public_length sk : length (mldsa_public sk) = mldsa_vk_len;
  mldsa_public_bytes sk : is_bytes (mldsa_public sk) ∧ Z.of_nat mldsa_vk_len <= ML_DSA_PK_MAX;
  mldsa_sign_ok sk m : length (mldsa_sign sk m) = mldsa_sig_len ∧ mldsa_sig_ok (mldsa_sign sk m) = true;
  mldsa_sign_bytes sk m : is_bytes (mldsa_sign sk m) ∧ Z.of_nat mldsa_sig_len < 2 ^ 32;
  mldsa_correct sk m : mldsa_verify (mldsa_public sk) m (mldsa_sign sk m) = true;
}.

Definition COMBINE_LABEL `{Primitives} : string := if fips then "HybridKEM_P256_Kyber768" else "HybridKEM_X25519_Kyber768".

Record HybridSecretKey := mk_hsk { classical_sk : list Z; ml_kem_dk : list Z }.
Record HybridSigningKey := mk_ssk { ed25519_sk : list Z; ml_dsa_sk : list Z }.

Inductive HybridSignError :=
| InvalidKeyLength | InvalidKeyFormat | InvalidPublicKey | InvalidSignature | InvalidSignatureLength
| Ed25519VerificationFailed | DilithiumVerificationFailed.

(** [anyhow::Error] texts of the key exchange. *)
Inductive KemError := KemAgreeFailed | KemCiphertextLength | KemKeyLength | KemKeyInvalid.

Section Hybrid.
Context `{Primitives, HybridPrims}.

(** ** Key exchange *)

Definition kem_generate (sk seed : list Z) : HybridSecretKey * HybridKeyPackage :=
  let '(dk, ek) := mlkem_keypair seed in
  (mk_hsk sk dk, mk_kp (ecdh_public sk) ek).

Definition combine_secrets (ecc_secret pq_secret classical_ct classical_pk : list Z) : list Z :=
  hkdf_sha256 None (ecc_secret ++ pq_secret ++ classical_ct ++ classical_pk) COMBINE_LABEL 32.

Definition decode_ml_kem_encap_key (bytes : list Z) : option (list Z) := if (length bytes =? mlkem_ek_len)%nat then Some bytes else None.
Definition decode_ml_kem_ciphertext (bytes : list Z) : option (list Z) := if (length bytes =? mlkem_ct_len)%nat then Some bytes else None.

Definition decapsulate (sk : HybridSecretKey) (ct : HybridCiphertext) : result (list Z) KemError :=
  classical_shared <-? ok_or (ecdh_agree (classical_sk sk) (ct_classical ct)) KemAgreeFailed;
  ct_array <-? ok_or (decode_ml_kem_ciphertext (ct_ml_kem ct)) KemCiphertextLength;
  let ml_kem_shared := mlkem_decaps (ml_kem_dk sk) ct_array in
  Ok (combine_secrets classical_shared ml_kem_shared (ct_classical ct) (ecdh_public (classical_sk sk))).

(** [eph_sk] is the ephemeral scalar drawn, [rnd] the randomness of ML-KEM. *)
Definition encapsulate (kp : HybridKeyPackage) (eph_sk rnd : list Z) : result (list Z * HybridCiphertext) KemError :=
  let eph_pk := ecdh_public eph_sk in
  classical_shared <-? ok_or (ecdh_agree eph_sk (kp_classical kp)) KemAgreeFailed;
  ek_array <-? ok_or (decode_ml_kem_encap_key (kp_ml_kem kp)) KemKeyLength;
  out <-? ok_or (mlkem_encaps ek_array rnd) KemKeyInvalid;
  let '(ct, ml_kem_shared) := out in
  Ok (combine_secrets classical_shared ml_kem_shared eph_pk (kp_classical kp), mk_ct eph_pk ct).

(** ** Signatures *)

Definition verifying_key (k : HybridSigningKey) : HybridVerifyingKey :=
  mk_vk (ed25519_public (ed25519_sk k)) (mldsa_public (ml_dsa_sk k)).

Definition generate_signing (ed_seed ml_seed : list Z) : HybridSigningKey * HybridVerifyingKey :=
  let k := mk_ssk ed_seed ml_seed in (k, verifying_key k).

Definition hybrid_sign (k : HybridSigningKey) (message : list Z) : HybridSignature :=
  mk_sig (ed25519_sign (ed25519_sk k) message) (mldsa_sign (ml_dsa_sk k) message).

Definition hybrid_verify (vk : HybridVerifyingKey) (message : list Z) (signature : HybridSignature) : result () HybridSignError :=
  if negb (ed25519_key_ok (vk_ed25519 vk)) then Err InvalidPublicKey
  else if negb (ed25519_verify_strict (vk_ed25519 vk) message (sig_ed25519 signature)) then Err Ed25519VerificationFailed
  else if negb (length (vk_ml_dsa vk) =? mldsa_vk_len)%nat then Err InvalidPublicKey
  else if negb (length (sig_ml_dsa signature) =? mldsa_sig_len)%nat then Err InvalidSignature
  else if negb (mldsa_sig_ok (sig_ml_dsa signature)) then Err InvalidSignature
  else if negb (mldsa_verify (vk_ml_dsa vk) message (sig_ml_dsa signature)) then Err DilithiumVerificationFailed
  else Ok ().

Definition pairwise_consistency_check (k : HybridSigningKey) (vk : HybridVerifyingKey) : result () HybridSignError :=
  let msg := ascii_bytes "phantom-protocol keygen pairwise-consistency test" in
  hybrid_verify vk msg (hybrid_sign k msg).

(** ** Byte forms *)

Definition signing_to_bytes (k : HybridSigningKey) : list Z := ed25519_sk k ++ ml_dsa_sk k.

Definition signing_from_bytes (bytes : list Z) : result HybridSigningKey HybridSignError :=
  if negb (length bytes =? 64)%nat then Err InvalidKeyLength else Ok (mk_ssk (take 32 bytes) (drop 32 bytes)).

Definition vk_to_bytes (vk : HybridVerifyingKey) : list Z := vk_ed25519 vk ++ vk_ml_dsa vk.

Definition vk_from_bytes (bytes : list Z) : result HybridVerifyingKey HybridSignError :=
  if negb (length bytes =? 32 + 1952)%nat then Err InvalidKeyLength else Ok (mk_vk (take 32 bytes) (drop 32 bytes)).

Definition sig_size (s : HybridSignature) : Z := 64 + len (sig_ml_dsa s).
Definition sig_to_bytes (s : HybridSignature) : list Z := sig_ed25519 s ++ sig_ml_dsa s.

Definition sig_from_bytes (bytes : list Z) : result HybridSignature HybridSignError :=
  if (length bytes <? 64)%nat then Err InvalidSignatureLength else Ok (mk_sig (take 64 bytes) (drop 64 bytes)).

End Hybrid.

(** ** Properties *)

Section Properties.
Context `{PrimitiveLaws, HP : HybridPrims, !HybridLaws}.

(** Both sides of the key exchange end with the same 32-byte secret: what [encapsulate]
    makes for a generated key package, whatever the randomness of either side, is
    accepted by [decapsulate] with the matching secret key, and the two results agree. *)
Lemma kem_agrees (sk seed eph_sk rnd : list Z) :
  let '(secret, package) := kem_generate sk seed in
  ∃ ss ct, encapsulate package eph_sk rnd = Ok (ss, ct) ∧ decapsulate secret ct = Ok ss ∧ length ss = 32%nat.
Proof.
  unfold kem_generate. destruct (mlkem_keypair seed) as [dk ek] eqn:Ek. unfold encapsulate, decapsulate. cbn.
  destruct (ecdh_agree_ok eph_sk sk) as (s & -> & Hs). cbn.
  pose proof (mlkem_ek_length seed) as Hl. destruct (mlkem_encaps_ok seed rnd) as (ct & ss & He & Hd).
  destruct (mlkem_encaps_length _ _ _ _ He) as [Hlc _].
  rewrite Ek in Hl, He, Hd. cbn in Hl, He, Hd. unfold decode_ml_kem_encap_key, decode_ml_kem_ciphertext.
  rewrite Hl, Nat.eqb_refl. cbn. rewrite He. cbn. eexists _, _. split; [done|]. cbn. rewrite Hs. cbn.
  rewrite Hlc, Nat.eqb_refl. cbn. rewrite Hd. split; [done|]. apply hkdf_sha256_length.
Qed.

Lemma hybrid_verify_iff vk m s : hybrid_verify vk m s = Ok () <->
  ed25519_key_ok (vk_ed25519 vk) = true ∧ ed25519_verify_strict (vk_ed25519 vk) m (sig_ed25519 s) = true ∧
  length (vk_ml_dsa vk) = mldsa_vk_len ∧ length (sig_ml_dsa s) = mldsa_sig_len ∧ mldsa_sig_ok (sig_ml_dsa s) = true ∧
  mldsa_verify (vk_ml_dsa vk) m (sig_ml_dsa s) = true.
Proof.
  unfold hybrid_verify.
  destruct (ed25519_key_ok _); [|naive_solver]. destruct (ed25519_verify_strict _ _ _); [|naive_solver]. cbn [negb].
  destruct (Nat.eqb_spec (length (vk_ml_dsa vk)) mldsa_vk_len); [|naive_solver].
  destruct (Nat.eqb_spec (length (sig_ml_dsa s)) mldsa_sig_len); [|naive_solver]. cbn [negb].
  destruct (mldsa_sig_ok _); [|naive_solver]. destruct (mldsa_verify _ _ _); naive_solver.
Qed.

Lemma hybrid_verify_sign k m : hybrid_verify (verifying_key k) m (hybrid_sign k m) = Ok ().
Proof.
  apply hybrid_verify_iff. cbn. split_and!;
    (apply ed25519_public_ok || apply ed25519_correct || apply mldsa_public_length || apply mldsa_sign_ok || apply mldsa_correct).
Qed.

(** A hybrid signature is accepted if and only if both halves are: the key parses and
    verifies the Ed25519 half strictly, and the ML-DSA half is well formed and verifies.
    What a key signs verifies under its own verifying key, which is the check made on a
    fresh identity. *)
Theorem hybrid_signature_both (k : HybridSigningKey) (vk : HybridVerifyingKey) (m : list Z) (s : HybridSignature) :
  (hybrid_verify vk m s = Ok () <->
   ed25519_key_ok (vk_ed25519 vk) = true ∧ ed25519_verify_strict (vk_ed25519 vk) m (sig_ed25519 s) = true ∧
   length (vk_ml_dsa vk) = mldsa_vk_len ∧ length (sig_ml_dsa s) = mldsa_sig_len ∧ mldsa_sig_ok (sig_ml_dsa s) = true ∧
   mldsa_verify (vk_ml_dsa vk) m (sig_ml_dsa s) = true) ∧
  hybrid_verify (verifying_key k) m (hybrid_sign k m) = Ok () ∧
  pairwise_consistency_check k (verifying_key k) = Ok ().
Proof. split; [apply hybrid_verify_iff|]. split; apply hybrid_verify_sign. Qed.

(** Keys and signatures survive their byte forms; a verifying key of the published
    length does, and nothing of another length is read. *)
Theorem key_bytes_roundtrip (k : HybridSigningKey) (vk : HybridVerifyingKey) (s : HybridSignature) :
  length (ed25519_sk k) = 32%nat -> length (ml_dsa_sk k) = 32%nat ->
  length (vk_ed25519 vk) = 32%nat -> length (vk_ml_dsa vk) = 1952%nat -> length (sig_ed25519 s) = 64%nat ->
  signing_from_bytes (signing_to_bytes k) = Ok k ∧ vk_from_bytes (vk_to_bytes vk) = Ok vk ∧ sig_from_bytes (sig_to_bytes s) = Ok s.
Proof.
  intros I1 I2 I3 I4 I5. unfold signing_from_bytes, signing_to_bytes, vk_from_bytes, vk_to_bytes, sig_from_bytes, sig_to_bytes.
  rewrite !length_app, I1, I2, I3, I4, I5. cbn [negb Nat.eqb Nat.add].
  destruct (Nat.ltb_spec (64 + length (sig_ml_dsa s)) 64); [lia|].
  destruct k, vk, s. cbn in *. by rewrite !take_app_exact, !drop_app_exact by done.
Qed.
End Properties.

(** ** Concrete primitives

    Nothing secret: keys are their last byte repeated, agreement is addition.  They
    satisfy the laws, and the witnesses run on them. *)

Definition lastb (l : list Z) : Z := default 0 (last l) mod 256.

Definition block (n : nat) (x : Z) : list Z := replicate n (x mod 256).

Lemma lastb_block n x : lastb (block (S n) x) = x mod 256.
Proof. unfold lastb, block. rewrite replicate_S_end, last_snoc. cbn. apply Z.mod_mod. lia. Qed.

Lemma block_length n x : length (block n x) = n.
Proof. apply length_replicate. Qed.

Lemma block_bytes n x : is_bytes (block n x).
Proof. apply (Forall_replicate is_byte), Z.mod_pos_bound. lia. Qed.

Lemma block_mod n a b : block n (a mod 256 + b) = block n (a + b).
Proof. unfold block. by rewrite Zplus_mod_idemp_l. Qed.

Definition toy_hybrid : HybridPrims := {|
  ecdh_public := λ sk, block 32 (lastb sk);
  ecdh_agree := λ sk pk, Some (block 32 (lastb pk + lastb sk));
  mlkem_ek_len := 4;
  mlkem_ct_len := 4;
  mlkem_keypair := λ seed, (seed, block 4 (lastb seed));
  mlkem_encaps := λ ek rnd, Some (block 4 (lastb rnd), block 32 (lastb ek + lastb rnd));
  mlkem_decaps := λ dk ct, block 32 (lastb ct + lastb dk);
  ed25519_public := λ sk, block 32 (lastb sk);
  ed25519_key_ok := λ _, true;
  ed25519_sign := λ sk m, block 64 (lastb sk + lastb m);
  ed25519_verify_strict := λ pk m s, bool_decide (s = block 64 (lastb pk + lastb m));
  mldsa_vk_len := 4;
  mldsa_sig_len := 8;
  mldsa_public := λ sk, block 4 (lastb sk);
  mldsa_sign := λ sk m, block 8 (lastb sk + lastb m);
  mldsa_sig_ok := λ _, true;
  mldsa_verify := λ pk m s, bool_decide (s = block 8 (lastb pk + lastb m));
|}.

#[export] Instance toy_hybrid_laws : @HybridLaws toy_primitives toy_hybrid.
Proof.
  split; intros; cbn [ecdh_public ecdh_agree mlkem_ek_len mlkem_ct_len mlkem_keypair mlkem_encaps mlkem_decaps ed25519_public
    ed25519_key_ok ed25519_sign ed25519_verify_strict mldsa_vk_len mldsa_sig_len mldsa_public mldsa_sign mldsa_sig_ok mldsa_verify
    toy_hybrid fst snd]; rewrite ?lastb_block, ?block_length, ?block_mod; try (split; [apply block_bytes|done]); auto using block_length, block_bytes.
  - eexists. split; [done|]. rewrite ?lastb_block, ?block_mod. by rewrite Z.add_comm.
  - eexists _, _. split; [done|]. rewrite ?lastb_block, ?block_mod. by rewrite Z.add_comm.
  - match goal with E : mlkem_encaps _ _ = _ |- _ => injection E as <- _ end. split; [apply block_length|apply block_bytes].
  - done.
  - by apply bool_decide_eq_true.
  - by apply bool_decide_eq_true.
Qed.

Lemma kem_agrees_witness :
  let '(secret, package) := @kem_generate toy_hybrid [3] [4] in
  ∃ ss ct, @encapsulate toy_primitives toy_hybrid package [5] [6] = Ok (ss, ct) ∧
    @decapsulate toy_primitives toy_hybrid secret ct = Ok ss ∧ length ss = 32%nat.
Proof. apply (kem_agrees (HP := toy_hybrid) [3] [4] [5] [6]). Defined.

Lemma hybrid_signature_both_witness :
  @hybrid_verify toy_hybrid (@verifying_key toy_hybrid (mk_ssk [1] [2])) [7] (@hybrid_sign toy_hybrid (mk_ssk [1] [2]) [7]) = Ok ().
Proof.
  destruct (hybrid_signature_both (H := toy_primitives) (HP := toy_hybrid) (mk_ssk [1] [2]) (@verifying_key toy_hybrid (mk_ssk [1] [2])) [7] (mk_sig [] [])) as (_ & Hs & _).
  exact Hs.
Defined.

Lemma key_bytes_roundtrip_witness :
  signing_from_bytes (signing_to_bytes (mk_ssk (replicate 32 1) (replicate 32 2))) = Ok (mk_ssk (replicate 32 1) (replicate 32 2)).
Proof. apply (key_bytes_roundtrip _ (mk_vk (replicate 32 1) (replicate 1952 2)) (mk_sig (replicate 64 1) [])); reflexivity. Defined.
