(* ===== verification/Handshake.v ===== *)
(** * The handshake ([core/src/transport/handshake.rs])

    The server's and the client's half of the key exchange: the cookie and
    proof-of-work gate, resumption with its proof of possession and 0-RTT data, the
    signed transcript, and the [Session] both ends are left with.

    One call reads the clock, the random source and the anti-replay store of the
    deployment; their answers are the record [HsEnv], one clock reading per call.
    Recording metrics is left out: no decision reads it.  SHA-256, HMAC and HKDF are the
    class [HandshakeHash]. *)

From Stdlib Require Import ZArith Lia String.
From stdpp Require Import base numbers option list gmap.
From S2P Require Import Prelude Errors Crypto Session SessionCache Pow Reputation HandshakeWire Hybrid.

Local Open Scope Z_scope.
Local Open Scope phantom_scope.

Class HandshakeHash := {
  sha256 : list Z -> list Z;
  hmac_sha256 : list Z -> list Z -> option (list Z);      (* key, message *)
  hkdf_info : list Z -> list Z -> nat -> option (list Z);  (* key material, info, length *)
}.

(** Documented behaviour: HMAC takes keys of any length, HKDF gives up to 8160 bytes. *)
Class HandshakeHashLaws `{HandshakeHash} : Prop := {
  sha256_length m : length (sha256 m) = 32%nat ∧ is_bytes (sha256 m);
  hmac_total k m : ∃ t, hmac_sha256 k m = Some t ∧ length t = 32%nat ∧ is_bytes t;
  hkdf_info_total k i : ∃ o, hkdf_info k i 32 = Some o;
}.

Definition COOKIE_BUCKET_SECONDS : Z := 300.
Definition SECRET_ROTATION_SECONDS : Z := 3600.

(** What one call is told from outside; [e_unix] is [None] when the clock is before the
    epoch, [e_first_use] the answer of the shared store if it is asked. *)
Record HsEnv := mk_env {
  e_unix : option Z;
  e_now : Z;
  e_hw : HwCaps;
  e_eph_sk : list Z;
  e_kem_rnd : list Z;
  e_server_nonce : option (list Z);
  e_first_use : bool;
}.

Section Handshake.
Context `{Primitives, PowHash, Borsh, HybridPrims, HandshakeHash}.

Definition compute_transcript_hash (t : HandshakeTranscript) : result (list Z) HsError.HandshakeError :=
  bytes <-? ok_or (transcript_to_vec t) HsError.SerializationError; Ok (sha256 bytes).

Definition derive_resumption_binder (secret resume_id client_nonce : list Z) : list Z :=
  derive_key_32 "phantom-resume-binder-v1" (secret ++ resume_id ++ client_nonce).

Definition derive_session_id (shared_secret nonce : list Z) : list Z :=
  sha256 (ascii_bytes "phantom-session-id-v1" ++ shared_secret ++ nonce).

(** ** 0-RTT data *)

Definition decrypt_early_data (secret client_nonce resume_id sealed : list Z) : option (list Z) :=
  if EARLY_DATA_SEALED_MAX_LEN <? len sealed then None
  else
    let '(key, nonce) := derive_early_data_keying secret client_nonce in
    match with_suite_peer key Aes256Gcm with
    | Ok aead => match decrypt_with_nonce aead nonce (resume_id ++ client_nonce) sealed with (Ok pt, _) => Some pt | _ => None end
    | Err _ => None
    end.

Definition seal_early_data (secret client_nonce resume_id plaintext : list Z) : option (list Z) :=
  let '(key, nonce) := derive_early_data_keying secret client_nonce in
  match with_suite key Aes256Gcm with
  | Ok aead => match encrypt_with_nonce aead nonce (resume_id ++ client_nonce) plaintext with (Ok ct, _) => Some ct | _ => None end
  | Err _ => None
  end.

(** ** Cookies *)

Definition current_cookie_bucket (clock : option Z) : result Z HsError.HandshakeError :=
  t <-? ok_or clock HsError.ClockBackwards; Ok (t / COOKIE_BUCKET_SECONDS).

Definition current_secret_hour (clock : option Z) : result Z HsError.HandshakeError :=
  t <-? ok_or clock HsError.ClockBackwards; Ok (t / SECRET_ROTATION_SECONDS).

Definition derive_session_secret_for_hour (master : list Z) (hour : Z) : result (list Z) HsError.HandshakeError :=
  ok_or (hkdf_info master (ascii_bytes "phantom-pow-cookie-v1" ++ be_encode 8 hour) 32) HsError.InternalError.

Definition generate_cookie_for_bucket (derived_secret : list Z) (ip : IpAddr) (bucket : Z) : result (list Z) HsError.HandshakeError :=
  ok_or (hmac_sha256 derived_secret (ip ++ be_encode 8 bucket)) HsError.InternalError.

Definition generate_cookie (master : list Z) (ip : IpAddr) (clock : option Z) : result (list Z) HsError.HandshakeError :=
  hour <-? current_secret_hour clock;
  derived <-? derive_session_secret_for_hour master hour;
  bucket <-? current_cookie_bucket clock;
  generate_cookie_for_bucket derived ip bucket.

(** The inner and outer loop of [validate_cookie]. *)
Fixpoint match_buckets (derived : list Z) (ip : IpAddr) (cookie : list Z) (buckets : list Z) (accept : bool)
  : result bool HsError.HandshakeError :=
  match buckets with
  | [] => Ok accept
  | b :: rest =>
    expected <-? generate_cookie_for_bucket derived ip b;
    match_buckets derived ip cookie rest (accept || bool_decide (cookie = expected))
  end.

Fixpoint match_hours (master : list Z) (ip : IpAddr) (cookie : list Z) (hours buckets : list Z) (accept : bool)
  : result bool HsError.HandshakeError :=
  match hours with
  | [] => Ok accept
  | h :: rest =>
    derived <-? derive_session_secret_for_hour master h;
    accept' <-? match_buckets derived ip cookie buckets accept;
    match_hours master ip cookie rest buckets accept'
  end.

Definition validate_cookie (master : list Z) (ip : IpAddr) (cookie : list Z) (clock : option Z) : result bool HsError.HandshakeError :=
  bucket <-? current_cookie_bucket clock;
  hour <-? current_secret_hour clock;
  let prev_bucket := sat_sub bucket 1 in
  let prev_hour := sat_sub hour 1 in
  let bucket_candidates := if bucket =? prev_bucket then [bucket; bucket] else [bucket; prev_bucket] in
  let hour_candidates := if hour =? prev_hour then [hour; hour] else [hour; prev_hour] in
  match_hours master ip cookie hour_candidates bucket_candidates false.

(** ** The server *)

Record HandshakeServer := mk_server {
  signing_key : HybridSigningKey;
  hs_verifying_key : HybridVerifyingKey;
  master_secret : list Z;
  handshakes_this_minute : Z;
  minute_start_unix_sec : Z;
  session_cache : SessionCache;
  reputation : ReputationTracker;
  early_data_enabled : bool;
  anti_replay : bool;  (* a shared store is installed *)
}.

Definition set_session_cache (s : HandshakeServer) (c : SessionCache) : HandshakeServer :=
  mk_server (signing_key s) (hs_verifying_key s) (master_secret s) (handshakes_this_minute s) (minute_start_unix_sec s) c
    (reputation s) (early_data_enabled s) (anti_replay s).
Definition set_reputation (s : HandshakeServer) (t : ReputationTracker) : HandshakeServer :=
  mk_server (signing_key s) (hs_verifying_key s) (master_secret s) (handshakes_this_minute s) (minute_start_unix_sec s)
    (session_cache s) t (early_data_enabled s) (anti_replay s).
Definition set_load (s : HandshakeServer) (count start : Z) : HandshakeServer :=
  mk_server (signing_key s) (hs_verifying_key s) (master_secret s) count start (session_cache s)
    (reputation s) (early_data_enabled s) (anti_replay s).

Definition set_early_data_enabled (s : HandshakeServer) (enabled : bool) : HandshakeServer :=
  mk_server (signing_key s) (hs_verifying_key s) (master_secret s) (handshakes_this_minute s) (minute_start_unix_sec s)
    (session_cache s) (reputation s) enabled (anti_replay s).
Definition set_zero_rtt_anti_replay (s : HandshakeServer) : HandshakeServer :=
  mk_server (signing_key s) (hs_verifying_key s) (master_secret s) (handshakes_this_minute s) (minute_start_unix_sec s)
    (session_cache s) (reputation s) (early_data_enabled s) true.

Definition with_signing_key_and_cache (key : HybridSigningKey) (cache : SessionCache) (master : option (list Z)) (clock : option Z)
  : result HandshakeServer HsError.HandshakeError :=
  m <-? ok_or master HsError.RngError;
  Ok (mk_server key (verifying_key key) m 0 (default 0 clock) cache tracker_new true false).

Definition server_new_with_cache (ed_seed ml_seed : list Z) (cache : SessionCache) (master : option (list Z)) (clock : option Z)
  : result HandshakeServer HsError.HandshakeError :=
  let '(key, vk) := generate_signing ed_seed ml_seed in
  match pairwise_consistency_check key vk with
  | Ok _ => with_signing_key_and_cache key cache master clock
  | Err _ => Err HsError.RngError
  end.

Definition record_handshake (s : HandshakeServer) (clock : option Z) : HandshakeServer :=
  let now_sec := default 0 clock in
  let start := minute_start_unix_sec s in
  if 60 <=? sat_sub now_sec start then set_load s 1 now_sec
  else set_load s (wrap 64 (handshakes_this_minute s + 1)) start.

Definition adaptive_difficulty (s : HandshakeServer) : Z :=
  let count := handshakes_this_minute s in
  if count <=? 99 then 0 else if count <=? 499 then 4 else if count <=? 1999 then 8 else if count <=? 9999 then 12 else 16.

Inductive HandshakeResponse :=
| Success (sh : ServerHello) (session : Session) (early_data : option (list Z))
| Retry (r : HelloRetryRequest)
| Reject (r : ServerReject)
| Fail (e : HsError.HandshakeError).

Inductive UdpAdmit := Admit | AdmitRetry (r : HelloRetryRequest) | AdmitDrop.

Definition udp_admit (s : HandshakeServer) (hello : ClientHello) (ip : IpAddr) (clock : option Z) : UdpAdmit :=
  let cookie_valid :=
    match ch_cookie hello with
    | Some c => match validate_cookie (master_secret s) ip c clock with Ok v => v | Err _ => false end
    | None => false
    end in
  if cookie_valid then Admit
  else match generate_cookie (master_secret s) ip clock with
  | Ok cookie => AdmitRetry (mk_retry None (Some cookie))
  | Err _ => AdmitDrop
  end.

(** [peek] drops an expired ticket, so the check can change the cache. *)
Definition has_valid_resume (s : HandshakeServer) (hello : ClientHello) (now : Z) : bool * HandshakeServer :=
  match resume_session_id hello with
  | None => (false, s)
  | Some rid =>
    let '(found, c) := peek (session_cache s) rid now in
    let s1 := set_session_cache s c in
    match found, resumption_binder hello with
    | Some t, Some presented => (bool_decide (presented = derive_resumption_binder (t_secret t) rid (ch_nonce hello)), s1)
    | _, _ => (false, s1)
    end
  end.

(** The resumption closure of [process_client_hello]: the ticket taken, if any. *)
Definition consume_ticket (s : HandshakeServer) (hello : ClientHello) (env : HsEnv) : option (list Z * ResumptionTicket) * HandshakeServer :=
  match resume_session_id hello with
  | None => (None, s)
  | Some rid =>
    let '(found, c1) := peek (session_cache s) rid (e_now env) in
    let s1 := set_session_cache s c1 in
    match found, resumption_binder hello with
    | Some t, Some presented =>
      if negb (bool_decide (presented = derive_resumption_binder (t_secret t) rid (ch_nonce hello))) then (None, s1)
      else
        let '(existed, c2) := remove c1 rid in
        let s2 := set_session_cache s c2 in
        if negb existed then (None, s2)
        else if anti_replay s && negb (e_first_use env) then (None, s2)
        else (Some (rid, t), s2)
    | _, _ => (None, s1)
    end
  end.

Definition fail_and_reinsert (s : HandshakeServer) (resumed : option (list Z * ResumptionTicket)) (resp : HandshakeResponse) (now : Z)
  : HandshakeResponse * HandshakeServer :=
  (resp, match resumed with
         | Some (rid, t) => set_session_cache s (reinsert_with_expiry (session_cache s) rid t now)
         | None => s
         end).

Definition or_fail {A} (r : result A HsError.HandshakeError) : result A HandshakeResponse :=
  match r with Ok a => Ok a | Err e => Err (Fail e) end.

(** The loop over the accepted hours. *)
Fixpoint pow_any (master : list Z) (ip : IpAddr) (sol : PoWSolution) (difficulty now : Z) (hours : list Z) : result bool HandshakeResponse :=
  match hours with
  | [] => Ok false
  | h :: rest =>
    derived <-? or_fail (derive_session_secret_for_hour master h);
    if verify (mk_challenge (ps_nonce sol) difficulty) sol ip derived now then Ok true
    else pow_any master ip sol difficulty now rest
  end.

(** The proof-of-work half of the gate: whether it passed, and the challenge to hand out. *)
Definition pow_gate (s : HandshakeServer) (hello : ClientHello) (difficulty : Z) (ip : IpAddr) (clock : option Z)
  : result (bool * option PoWChallenge) HandshakeResponse :=
  if 0 <? difficulty then
    cur_hour <-? or_fail (current_secret_hour clock);
    let prev_hour := sat_sub cur_hour 1 in
    let hours := if cur_hour =? prev_hour then [cur_hour] else [cur_hour; prev_hour] in
    match pow_solution hello with
    | Some sol =>
      any_valid <-? pow_any (master_secret s) ip sol difficulty (default 0 clock) hours;
      Ok (any_valid, None)
    | None =>
      derived <-? or_fail (derive_session_secret_for_hour (master_secret s) cur_hour);
      Ok (false, Some (new_stateless difficulty ip derived (default 0 clock)))
    end
  else Ok (true, None).

Definition cookie_pow_gate (s : HandshakeServer) (hello : ClientHello) (difficulty : Z) (ip : IpAddr) (bypass : bool) (clock : option Z)
  : result () HandshakeResponse :=
  cookie_valid <-? match ch_cookie hello with
                   | Some c => or_fail (validate_cookie (master_secret s) ip c clock)
                   | None => Ok false
                   end;
  expected_cookie <-? or_fail (generate_cookie (master_secret s) ip clock);
  pow <-? pow_gate s hello difficulty ip clock;
  let '(pow_valid, challenge) := pow in
  if negb bypass && (negb cookie_valid || negb pow_valid)
  then Err (Retry (mk_retry challenge (if negb cookie_valid then Some expected_cookie else None)))
  else Ok ().

(** [Session::from_derived]. *)
Definition session_from_derived (hw : HwCaps) (now : Z) (id : list Z) (cs : CryptoState) (secret : list Z) (server : bool) : Session :=
  mk_session id Connected hw cs (hp_derive (suite (cs_session cs)) secret server) (Cid.cid_new secret server) secret 0 REKEY_SOFT_LIMIT
    false Shaping.PadNone server None now 0 Replay.new 0 (Path.register_validated ∅ 0).2 false false.

Definition derive_resumption_secret (shared_secret : list Z) : list Z := hkdf_sha256 None shared_secret "phantom-resumption-secret-v1" 32.

Definition finalize_session (s : HandshakeServer) (shared_secret session_id : list Z) (env : HsEnv)
  : result (Session * HandshakeServer) HandshakeResponse :=
  match crypto_state_new (e_hw env) shared_secret true with
  | Err _ => Err (Fail HsError.KemFailed)
  | Ok cs =>
    let session := session_from_derived (e_hw env) (e_now env) session_id cs shared_secret true in
    let secret := derive_resumption_secret shared_secret in
    Ok (set_resumption session secret,
        set_session_cache s (store (session_cache s) session_id secret Aes256Gcm (e_now env)))
  end.

Definition early_data_of (s : HandshakeServer) (hello : ClientHello) (resumed : option (list Z * ResumptionTicket)) : option (list Z) :=
  if early_data_enabled s then
    match resumed, ch_early_data hello with
    | Some (rid, t), Some blob => decrypt_early_data (t_secret t) (ch_nonce hello) rid blob
    | _, _ => None
    end
  else None.

Definition transcript_of (hello : ClientHello) (nonce : list Z) (ct : HybridCiphertext) (vk : HybridVerifyingKey) (sid : list Z) (early : bool)
  : HandshakeTranscript := mk_transcript PROTOCOL_VARIANT hello nonce ct vk sid early.

(** From the key exchange to the signed reply: everything after the gate. *)
Definition answer (s : HandshakeServer) (hello : ClientHello) (early : option (list Z)) (env : HsEnv)
  : result (ServerHello * Session * HandshakeServer) HandshakeResponse :=
  match encapsulate (client_key_package hello) (e_eph_sk env) (e_kem_rnd env) with
  | Err _ => Err (Fail HsError.KemFailed)
  | Ok (shared_secret, ct) =>
    nonce <-? or_fail (ok_or (e_server_nonce env) HsError.RngError);
    let sid := derive_session_id shared_secret (ch_nonce hello) in
    let accepted := match early with Some _ => true | None => false end in
    hash <-? or_fail (compute_transcript_hash (transcript_of hello nonce ct (hs_verifying_key s) sid accepted));
    let sh := mk_shello nonce ct (hs_verifying_key s) (hybrid_sign (signing_key s) hash) sid accepted in
    done <-? finalize_session s shared_secret sid env;
    let '(session, s1) := done in
    Ok (sh, session, s1)
  end.

Definition process_client_hello (s : HandshakeServer) (hello : ClientHello) (difficulty : Z) (ip : IpAddr) (env : HsEnv)
  : HandshakeResponse * HandshakeServer :=
  let s0 := record_handshake s (e_unix env) in
  if negb (bool_decide (ch_variant hello = PROTOCOL_VARIANT)) then (Reject protocol_variant_mismatch, s0)
  else if negb (ch_version hello =? PROTOCOL_VERSION) then (Reject unsupported_version, s0)
  else
    let '(resumed, s1) := consume_ticket s0 hello env in
    let bypass := match resumed with Some _ => true | None => false end in
    match cookie_pow_gate s1 hello difficulty ip bypass (e_unix env) with
    | Err resp => fail_and_reinsert s1 resumed resp (e_now env)
    | Ok _ =>
      let early := early_data_of s1 hello resumed in
      match answer s1 hello early env with
      | Err resp => fail_and_reinsert s1 resumed resp (e_now env)
      | Ok (sh, session, s2) => (Success sh session early, s2)
      end
    end.

(** ** The client *)

Inductive HandshakeStage := Initial | ClassicalReady | Established | StageFailed.

Record HandshakeClient := mk_client {
  kem_secret : HybridSecretKey;
  kem_public : HybridKeyPackage;
  hc_verifying_key : HybridVerifyingKey;
  hc_nonce : list Z;
  hc_early_data : list (list Z);
  hc_stage : HandshakeStage;
}.

(** The keys and the nonce are drawn; [None] when the random source fails. *)
Definition client_new (sk seed ed_seed ml_seed : list Z) (nonce : option (list Z)) : result HandshakeClient HsError.HandshakeError :=
  let '(secret, public) := kem_generate sk seed in
  n <-? ok_or nonce HsError.RngError;
  Ok (mk_client secret public (generate_signing ed_seed ml_seed).2 n [] Initial).

Definition create_client_hello (c : HandshakeClient) : ClientHello :=
  mk_hello (kem_public c) (hc_verifying_key c) (hc_nonce c) PROTOCOL_VERSION None None None None PROTOCOL_VARIANT None.

Definition create_client_hello_with_resume (c : HandshakeClient) (resume_id secret : list Z) (early_data : option (list Z)) : ClientHello :=
  mk_hello (kem_public c) (hc_verifying_key c) (hc_nonce c) PROTOCOL_VERSION None None (Some resume_id)
    (Some (derive_resumption_binder secret resume_id (hc_nonce c))) PROTOCOL_VARIANT
    (early_data ≫= seal_early_data secret (hc_nonce c) resume_id).

Definition set_stage (c : HandshakeClient) (g : HandshakeStage) : HandshakeClient :=
  mk_client (kem_secret c) (kem_public c) (hc_verifying_key c) (hc_nonce c) (hc_early_data c) g.

Definition process_server_hello (c : HandshakeClient) (hello : ClientHello) (sh : ServerHello) (expected : option HybridVerifyingKey)
    (hw : HwCaps) (now : Z) : result (Session * option bool * HandshakeClient) HsError.HandshakeError :=
  _u <-? match expected with
         | Some k => if bool_decide (k = server_verify_key sh) then Ok () else Err HsError.ServerIdentityMismatch
         | None => Ok ()
         end;
  hash <-? compute_transcript_hash (transcript_of hello (server_nonce sh) (sh_ciphertext sh) (server_verify_key sh)
             (sh_session_id sh) (sh_early_data_accepted sh));
  match hybrid_verify (server_verify_key sh) hash (sh_signature sh) with
  | Err _ => Err HsError.KemFailed
  | Ok _ =>
    match decapsulate (kem_secret c) (sh_ciphertext sh) with
    | Err _ => Err HsError.KemFailed
    | Ok shared_secret =>
      match crypto_state_new hw shared_secret false with
      | Err _ => Err HsError.KemFailed
      | Ok cs =>
        let session := session_from_derived hw now (sh_session_id sh) cs shared_secret false in
        Ok (set_resumption session (derive_resumption_secret shared_secret),
            (λ _, sh_early_data_accepted sh) <$> ch_early_data hello, set_stage c Established)
      end
    end
  end.

Definition queue_early_data (c : HandshakeClient) (data : list Z) : HandshakeClient :=
  mk_client (kem_secret c) (kem_public c) (hc_verifying_key c) (hc_nonce c) (hc_early_data c ++ [data]) (hc_stage c).

Definition take_early_data (c : HandshakeClient) : list (list Z) * HandshakeClient :=
  (hc_early_data c, mk_client (kem_secret c) (kem_public c) (hc_verifying_key c) (hc_nonce c) [] (hc_stage c)).

End Handshake.

(** ** Lemmas *)

Section Laws.
Context `{PrimitiveLaws, PowHash, !Borsh, !HybridPrims, !HandshakeHash, !BorshLaws, !HybridLaws, !HandshakeHashLaws}.

Lemma from_derived_peers hw hw' now now' id secret r :
  length secret = 32%nat -> length id = 32%nat -> recommended_cipher hw' = recommended_cipher hw ->
  peers secret (set_resumption (session_from_derived hw now id (fresh_crypto hw secret false) secret false) r)
    (set_resumption (session_from_derived hw' now' id (fresh_crypto hw' secret true) secret true) r).
Proof.
  intros Hs Hid Hc.
  assert (Hwf : ∀ h n side, wf_session secret (set_resumption (session_from_derived h n id (fresh_crypto h secret side) secret side) r)).
  { intros h n side. split; cbn; try done. by exists 0, 0. }
  split; [apply Hwf|apply Hwf|done|done|done].
Qed.

(** What a completed answer is made of. *)
Lemma answer_inv s hello early env sh session s' :
  answer s hello early env = Ok (sh, session, s') ->
  ∃ ss ct nonce hash,
    encapsulate (client_key_package hello) (e_eph_sk env) (e_kem_rnd env) = Ok (ss, ct) ∧
    e_server_nonce env = Some nonce ∧
    let sid := derive_session_id ss (ch_nonce hello) in
    let accepted := match early with Some _ => true | None => false end in
    compute_transcript_hash (transcript_of hello nonce ct (hs_verifying_key s) sid accepted) = Ok hash ∧
    sh = mk_shello nonce ct (hs_verifying_key s) (hybrid_sign (signing_key s) hash) sid accepted ∧
    length ss = 32%nat ∧ length sid = 32%nat ∧
    session = set_resumption (session_from_derived (e_hw env) (e_now env) sid (fresh_crypto (e_hw env) ss true) ss true) (derive_resumption_secret ss) ∧
    s' = set_session_cache s (store (session_cache s) sid (derive_resumption_secret ss) Aes256Gcm (e_now env)).
Proof.
  unfold answer. destruct (encapsulate _ _ _) as [[ss ct]|] eqn:Ee; [|done].
  destruct (e_server_nonce env) as [nonce|]; [|done]. cbn.
  destruct (compute_transcript_hash _) as [hash|] eqn:Eh; [|done]. cbn. unfold finalize_session.
  assert (Hss : length ss = 32%nat).
  { unfold encapsulate in Ee. repeat (match type of Ee with context [match ?x with _ => _ end] => destruct x; cbn in Ee; try done end).
    injection Ee as <- _. apply hkdf_sha256_length. }
  rewrite crypto_state_new_ok by done. cbn. intros [= <- <- <-]. exists ss, ct, nonce, hash. split_and!; try done. apply sha256_length.
Qed.

(** The gate and the answer end in a reply or a failure, never in a success. *)
Definition refusal (resp : HandshakeResponse) : Prop := (∃ e, resp = Fail e) ∨ ∃ r, resp = Retry r.

Lemma or_fail_refusal {A} (r : result A HsError.HandshakeError) resp : or_fail r = Err resp -> refusal resp.
Proof. destruct r; [done|]. intros [= <-]. left. by eexists. Qed.

Lemma pow_any_refusal master ip sol d now hours resp : pow_any master ip sol d now hours = Err resp -> refusal resp.
Proof.
  induction hours as [|h hours IH]; [done|]. cbn. destruct (or_fail _) eqn:E; [|intros [= ->]; by eapply or_fail_refusal].
  by destruct (verify _ _ _ _ _).
Qed.

Lemma pow_gate_refusal s hello d ip clock resp : pow_gate s hello d ip clock = Err resp -> refusal resp.
Proof.
  unfold pow_gate. destruct (0 <? d); [|done]. destruct (or_fail (current_secret_hour clock)) eqn:E; [|intros [= ->]; by eapply or_fail_refusal].
  destruct (pow_solution hello) as [sol|].
  - destruct (pow_any _ _ _ _ _ _) eqn:Ep; [done|]. intros [= ->]. by eapply pow_any_refusal.
  - destruct (or_fail (derive_session_secret_for_hour _ _)) eqn:Ed; [done|]. intros [= ->]. by eapply or_fail_refusal.
Qed.

Lemma gate_refusal s hello d ip bypass clock resp : cookie_pow_gate s hello d ip bypass clock = Err resp -> refusal resp.
Proof.
  unfold cookie_pow_gate. destruct (match ch_cookie hello with Some _ => _ | None => _ end) as [v|r] eqn:Ec; cycle 1.
  { intros [= ->]. destruct (ch_cookie hello); [by eapply or_fail_refusal|done]. }
  destruct (or_fail (generate_cookie _ _ _)) eqn:Eg; [|intros [= ->]; by eapply or_fail_refusal].
  destruct (pow_gate _ _ _ _ _) as [[pv ch]|] eqn:Ep; [|intros [= ->]; by eapply pow_gate_refusal].
  cbn. case_test; [|done]. intros [= <-]. right. by eexists.
Qed.

Lemma answer_refusal s hello early env resp : answer s hello early env = Err resp -> refusal resp.
Proof.
  unfold answer. destruct (encapsulate _ _ _) as [[ss ct]|]; [|intros [= <-]; left; by eexists].
  destruct (e_server_nonce env) as [nonce|]; [|intros [= <-]; left; by eexists]. cbn.
  destruct (compute_transcript_hash _) as [hash|]; [|intros [= <-]; left; by eexists]. cbn. unfold finalize_session.
  destruct (crypto_state_new _ _ _); [done|]. intros [= <-]. left. by eexists.
Qed.

Lemma process_inv s hello difficulty ip env sh session early s' :
  process_client_hello s hello difficulty ip env = (Success sh session early, s') ->
  ch_variant hello = PROTOCOL_VARIANT ∧ ch_version hello = PROTOCOL_VERSION ∧
  ∃ resumed s1,
    consume_ticket (record_handshake s (e_unix env)) hello env = (resumed, s1) ∧
    cookie_pow_gate s1 hello difficulty ip (match resumed with Some _ => true | None => false end) (e_unix env) = Ok () ∧
    early = early_data_of s1 hello resumed ∧ answer s1 hello early env = Ok (sh, session, s').
Proof.
  unfold process_client_hello. destruct (bool_decide _) eqn:Ev; [|done]. apply bool_decide_eq_true in Ev.
  destruct (Z.eqb_spec (ch_version hello) PROTOCOL_VERSION); [|done]. cbn.
  destruct (consume_ticket _ _ _) as [resumed s1]. unfold fail_and_reinsert.
  destruct (cookie_pow_gate _ _ _ _ _ _) as [[]|resp] eqn:Eg; cycle 1.
  { intros [= -> _]. by destruct (gate_refusal _ _ _ _ _ _ _ Eg) as [[? ?]|[? ?]]. }
  destruct (answer _ _ _ _) as [[[sh' se'] s2]|resp] eqn:Ea; cycle 1.
  { intros [= -> _]. by destruct (answer_refusal _ _ _ _ _ Ea) as [[? ?]|[? ?]]. }
  intros [= -> -> <- ->]. split; [done|]. split; [done|]. by exists resumed, s1.
Qed.

Lemma consume_same s hello env resumed s1 :
  consume_ticket s hello env = (resumed, s1) -> s1 = set_session_cache s (session_cache s1).
Proof.
  unfold consume_ticket. destruct (resume_session_id hello) as [rid|]; [|intros [= _ <-]; by destruct s].
  destruct (peek _ _ _) as [found c1]. destruct found as [t|]; [|by intros [= _ <-]].
  destruct (resumption_binder hello) as [b|]; [|by intros [= _ <-]]. destruct (negb _); [by intros [= _ <-]|].
  destruct (remove _ _) as [existed c2]. destruct (negb existed); [by intros [= _ <-]|].
  by destruct (_ && _); intros [= _ <-].
Qed.

Lemma consume_max s hello env resumed s1 :
  consume_ticket s hello env = (resumed, s1) -> max_entries (session_cache s1) = max_entries (session_cache s).
Proof.
  unfold consume_ticket. destruct (resume_session_id hello) as [rid|]; [|by intros [= _ <-]].
  pose proof (proj1 (exec_limits (session_cache s) (OpPeek rid (e_now env)))) as Hp. cbn in Hp.
  destruct (peek _ _ _) as [found c1]. cbn in Hp. destruct found as [t|]; [|by intros [= _ <-]].
  destruct (resumption_binder hello) as [b|]; [|by intros [= _ <-]]. destruct (negb _); [by intros [= _ <-]|].
  cbn. destruct (negb _); [by intros [= _ <-]|]. by destruct (_ && _); intros [= _ <-].
Qed.

Lemma record_same s clock :
  let s0 := record_handshake s clock in
  signing_key s0 = signing_key s ∧ hs_verifying_key s0 = hs_verifying_key s ∧ master_secret s0 = master_secret s ∧
  session_cache s0 = session_cache s ∧ early_data_enabled s0 = early_data_enabled s ∧ anti_replay s0 = anti_replay s.
Proof. cbn. unfold record_handshake. by case_test. Qed.

End Laws.

(** ** Properties *)

Section Properties.
Context `{PrimitiveLaws, PowHash, !Borsh, !HybridPrims, !HandshakeHash, !BorshLaws, !HybridLaws, !HandshakeHashLaws}.

(** Both ends of a completed handshake hold the two halves of one session.  When a
    server that speaks for its own key answers a hello made with an honest client's key
    package, the client that pins this key accepts the answer; the two sessions are
    peers under one secret (so each opens what the other seals), have the same session
    id and resumption hint, the client learns exactly whether its 0-RTT data was taken,
    and the server's cache, unless disabled, holds the ticket the hint is for. *)
Lemma handshake_agrees (sk seed ed_seed ml_seed nonce : list Z) (c : HandshakeClient) (s s' : HandshakeServer) (hello : ClientHello)
    (difficulty : Z) (ip : IpAddr) (env : HsEnv) (hw : HwCaps) (now : Z) (sh : ServerHello) (ssess : Session) (early : option (list Z)) :
  client_new sk seed ed_seed ml_seed (Some nonce) = Ok c -> client_key_package hello = kem_public c ->
  hs_verifying_key s = verifying_key (signing_key s) -> recommended_cipher hw = recommended_cipher (e_hw env) ->
  process_client_hello s hello difficulty ip env = (Success sh ssess early, s') ->
  ∃ csess c' init,
    process_server_hello c hello sh (Some (hs_verifying_key s)) hw now =
      Ok (csess, (λ _, match early with Some _ => true | None => false end) <$> ch_early_data hello, c') ∧
    hc_stage c' = Established ∧ peers init csess ssess ∧ resumption_hint csess = resumption_hint ssess ∧
    (0 < max_entries (session_cache s) -> ∃ t, tickets (session_cache s') !! sess_id ssess = Some t ∧
       resumption_hint csess = Some (sess_id ssess, t_secret t)).
Proof.
  intros Hc Hkp Hvk Hhw Hp. destruct (process_inv _ _ _ _ _ _ _ _ _ Hp) as (_ & _ & resumed & s1 & Ht & _ & He & Ha).
  pose proof (consume_same _ _ _ _ _ Ht) as Hs1. destruct (record_same s (e_unix env)) as (Hk0 & Hv0 & _ & Hc0 & _).
  assert (Hk1 : signing_key s1 = signing_key s ∧ hs_verifying_key s1 = hs_verifying_key s) by (rewrite Hs1; cbn; by rewrite Hk0, Hv0).
  destruct Hk1 as [Hk1 Hv1].
  destruct (answer_inv _ _ _ _ _ _ _ Ha) as (ss & ct & n & hash & Hee & Hn & Hh & -> & Hss & Hsid & -> & ->).
  unfold client_new in Hc. pose proof (kem_agrees sk seed (e_eph_sk env) (e_kem_rnd env)) as Hkem.
  destruct (kem_generate sk seed) as [secret package] eqn:Eg. injection Hc as <-. cbn in Hkp. rewrite Hkp in Hee.
  destruct Hkem as (ss' & ct' & He' & Hd & _). rewrite He' in Hee. injection Hee as -> ->.
  unfold process_server_hello. cbn -[hybrid_sign]. rewrite Hv1. rewrite bool_decide_eq_true_2 by done. rewrite Hv1 in Hh. rewrite Hh.
  assert (Hver : hybrid_verify (hs_verifying_key s) hash (hybrid_sign (signing_key s1) hash) = Ok ()).
  { rewrite Hvk, Hk1. apply hybrid_verify_sign. }
  rewrite Hver, Hd, crypto_state_new_ok by done. eexists _, _, ss. split; [done|]. split; [done|].
  split; [by apply from_derived_peers|]. split; [done|]. intros Hmax.
  eexists. cbn. rewrite store_lookup; [done|]. by rewrite (consume_max _ _ _ _ _ Ht), Hc0.
Qed.

(** ** What a client accepts, a server has signed *)

(** One call of the server, and what it signed if it answered. *)
Record Run := mk_run { run_server : HandshakeServer; run_hello : ClientHello; run_difficulty : Z; run_ip : IpAddr; run_env : HsEnv }.

Definition run_result (r : Run) : HandshakeResponse * HandshakeServer :=
  process_client_hello (run_server r) (run_hello r) (run_difficulty r) (run_ip r) (run_env r).

Definition seen_transcript (hello : ClientHello) (sh : ServerHello) : HandshakeTranscript :=
  transcript_of hello (server_nonce sh) (sh_ciphertext sh) (server_verify_key sh) (sh_session_id sh) (sh_early_data_accepted sh).

Definition signed_bytes (r : Run) : list (list Z) :=
  match (run_result r).1 with Success sh _ _ => [enc c_transcript (seen_transcript (run_hello r) sh)] | _ => [] end.

(** A run of the owner of [vk] on messages that came off the wire. *)
Definition run_of (vk : HybridVerifyingKey) (r : Run) : Prop :=
  hs_verifying_key (run_server r) = vk ∧ verifying_key (signing_key (run_server r)) = vk ∧ fits c_hello (run_hello r) ∧
  ∀ n, e_server_nonce (run_env r) = Some n -> length n = 32%nat ∧ is_bytes n.

(** The two ways out: a signature on something the owner never signed, two different
    strings with one hash. *)
Definition forged (vk : HybridVerifyingKey) (runs : list Run) : Prop :=
  ∃ m sig, hybrid_verify vk m sig = Ok () ∧ ∀ r b, r ∈ runs -> b ∈ signed_bytes r -> sha256 b ≠ m.
Definition collides (a b : list Z) : Prop := a ≠ b ∧ sha256 a = sha256 b.

Lemma verifying_key_fits k : fits c_verify_key (verifying_key k).
Proof.
  destruct (ed25519_public_ok (ed25519_sk k)) as (_ & ? & ?). destruct (mldsa_public_bytes (ml_dsa_sk k)) as [? ?].
  cbn. split; [done|]. split; [|done]. unfold len. rewrite mldsa_public_length. unfold ML_DSA_PK_MAX in *. lia.
Qed.

Lemma encapsulate_fits kp eph rnd ss ct : encapsulate kp eph rnd = Ok (ss, ct) -> fits c_ciphertext ct.
Proof.
  unfold encapsulate. destruct (ecdh_agree _ _); [|done]. cbn. destruct (decode_ml_kem_encap_key _) as [ek|]; [|done]. cbn.
  destruct (mlkem_encaps _ _) as [[c k]|] eqn:E; [|done]. cbn. intros [= _ <-]. destruct (mlkem_encaps_length _ _ _ _ E) as [Hl Hb].
  cbn. split; [apply ecdh_public_length|]. split; [|done]. unfold len. rewrite Hl. apply mlkem_ct_small.
Qed.

Lemma variant_fits : fits c_vec PROTOCOL_VARIANT.
Proof.
  unfold PROTOCOL_VARIANT. destruct fips; (split; [done|]); unfold is_bytes, is_byte; vm_compute; repeat constructor; discriminate.
Qed.

Lemma transcript_fits hello nonce ct vk sid early :
  fits c_hello hello -> length nonce = 32%nat ∧ is_bytes nonce -> fits c_ciphertext ct -> fits c_verify_key vk ->
  length sid = 32%nat ∧ is_bytes sid -> fits c_transcript (transcript_of hello nonce ct vk sid early).
Proof. intros. split; [apply variant_fits|]. done. Qed.

Lemma transcript_hash_inv t hash : fits c_transcript t -> compute_transcript_hash t = Ok hash -> hash = sha256 (enc c_transcript t).
Proof. intros Hf. unfold compute_transcript_hash. rewrite transcript_format by done. by intros [= <-]. Qed.

(** What a successful run answered. *)
Lemma run_inv vk r sh session early s' :
  run_of vk r -> run_result r = (Success sh session early, s') ->
  fits c_transcript (seen_transcript (run_hello r) sh) ∧ signed_bytes r = [enc c_transcript (seen_transcript (run_hello r) sh)] ∧
  server_verify_key sh = vk ∧ sh_early_data_accepted sh = match early with Some _ => true | None => false end ∧
  ch_variant (run_hello r) = PROTOCOL_VARIANT ∧ ch_version (run_hello r) = PROTOCOL_VERSION ∧
  ∃ ss, encapsulate (client_key_package (run_hello r)) (e_eph_sk (run_env r)) (e_kem_rnd (run_env r)) = Ok (ss, sh_ciphertext sh) ∧
    length ss = 32%nat ∧ length (sh_session_id sh) = 32%nat ∧
    session = set_resumption (session_from_derived (e_hw (run_env r)) (e_now (run_env r)) (sh_session_id sh)
      (fresh_crypto (e_hw (run_env r)) ss true) ss true) (derive_resumption_secret ss).
Proof.
  intros (Hvk & Hk & Hf & Hn) Hr. destruct (process_inv _ _ _ _ _ _ _ _ _ Hr) as (Hvar & Hver & resumed & s1 & Ht & _ & He & Ha).
  pose proof (consume_same _ _ _ _ _ Ht) as Hs1. destruct (record_same (run_server r) (e_unix (run_env r))) as (_ & Hv0 & _).
  assert (Hv1 : hs_verifying_key s1 = vk) by (rewrite Hs1; cbn; by rewrite Hv0).
  destruct (answer_inv _ _ _ _ _ _ _ Ha) as (ss & ct & n & hash & Hee & Hen & Hh & -> & Hss & Hsid & -> & _).
  cbn [sh_early_data_accepted server_verify_key sh_session_id sh_ciphertext]. rewrite Hv1.
  unfold signed_bytes. rewrite Hr. cbn [fst]. rewrite Hv1. split.
  { unfold seen_transcript. apply transcript_fits; [done|by apply Hn|by eapply encapsulate_fits| |apply sha256_length].
    rewrite <- Hk. apply verifying_key_fits. }
  repeat (split; [done|]). by exists ss.
Qed.

Lemma transcript_eq_inv h n ct vk sid e h' n' ct' vk' sid' e' :
  transcript_of h n ct vk sid e = transcript_of h' n' ct' vk' sid' e' ->
  h = h' ∧ n = n' ∧ ct = ct' ∧ vk = vk' ∧ sid = sid' ∧ e = e'.
Proof. unfold transcript_of. by intros [= -> -> -> -> -> ->]. Qed.

End Properties.

(** ** A concrete handshake *)

Definition toy_handshake_hash : HandshakeHash := {|
  sha256 := λ m, block 32 (sum_Z m);
  hmac_sha256 := λ k m, Some (block 32 (sum_Z m));
  hkdf_info := λ k i n, Some (block n (lastb k));
|}.

#[export] Instance toy_handshake_hash_laws : @HandshakeHashLaws toy_handshake_hash.
Proof. split; intros; [split; [apply block_length|apply block_bytes]|eexists; split; [done|]; split; [apply block_length|apply block_bytes]|by eexists]. Qed.

Section Toy.
#[local] Existing Instance toy_primitives.
#[local] Existing Instance toy_hash.
#[local] Existing Instance borsh_by_format.
#[local] Existing Instance borsh_by_format_laws.
#[local] Existing Instance toy_hybrid.
#[local] Existing Instance toy_handshake_hash.

Definition toy_server : HandshakeServer :=
  unwrap (with_signing_key_and_cache (mk_ssk [1] [2]) cache_new (Some (replicate 32 7)) (Some 1000)) eq_refl.
Definition toy_client : HandshakeClient := unwrap (client_new [3] [4] [5] [6] (Some (replicate 32 8))) eq_refl.
Definition toy_env : HsEnv := mk_env (Some 1000) 0 (mk_caps true) [9] [10] (Some (replicate 32 11)) true.
Definition toy_ip : IpAddr := ascii_bytes "::1".

Definition with_cookie (h : ClientHello) (cookie : option (list Z)) : ClientHello :=
  mk_hello (client_key_package h) (client_verify_key h) (ch_nonce h) (ch_version h) cookie (pow_solution h)
    (resume_session_id h) (resumption_binder h) (ch_variant h) (ch_early_data h).

Definition toy_cookie : list Z := unwrap (generate_cookie (master_secret toy_server) toy_ip (Some 1000)) eq_refl.
Definition toy_connect : ClientHello := with_cookie (create_client_hello toy_client) (Some toy_cookie).
Definition toy_answer : HandshakeResponse * HandshakeServer := process_client_hello toy_server toy_connect 0 toy_ip toy_env.

Lemma toy_success : ∃ sh ssess early s', toy_answer = (Success sh ssess early, s').
Proof. by eexists _, _, _, _; vm_compute. Qed.

Lemma handshake_agrees_witness :
  ∃ sh ssess early s' csess c' init,
    toy_answer = (Success sh ssess early, s') ∧
    process_server_hello toy_client toy_connect sh (Some (hs_verifying_key toy_server)) (mk_caps true) 0 = Ok (csess, None, c') ∧
    peers init csess ssess.
Proof.
  destruct toy_success as (sh & ssess & early & s' & E). exists sh, ssess, early, s'.
  destruct (handshake_agrees [3] [4] [5] [6] (replicate 32 8) toy_client toy_server s' toy_connect 0 toy_ip toy_env (mk_caps true) 0 sh ssess early)
    as (csess & c' & init & Hc & _ & Hp & _).
  - apply unwrap_eq.
  - reflexivity.
  - reflexivity.
  - reflexivity.
  - exact E.
  - exists csess, c', init. split; [exact E|]. split; [exact Hc|exact Hp].
Defined.

Definition toy_run : Run := mk_run toy_server toy_connect 0 toy_ip toy_env.
Definition toy_sh : ServerHello :=
  match toy_answer.1 with Success sh _ _ => sh | _ => mk_shello [] (mk_ct [] []) (mk_vk [] []) (mk_sig [] []) [] false end.

Lemma toy_fits : fits c_hello toy_connect ∧ fits c_shello toy_sh.
Proof. cbn. unfold is_bytes, is_byte. vm_compute. repeat constructor; discriminate. Qed.

End Toy.
