(* ===== verification/HandshakeGate.v ===== *)
(** * The cookie and proof-of-work gate ([cookie_pow_gate], [udp_admit] and the cookies of
      [core/src/transport/handshake.rs])

    How long a cookie is good, for whom, and what exactly the gate answers. *)

From Stdlib Require Import ZArith Lia String.
From stdpp Require Import base numbers option list gmap.
From S2P Require Import Prelude Errors Crypto Session SessionCache Pow Reputation HandshakeWire Hybrid Handshake.

Local Open Scope Z_scope.
Local Open Scope phantom_scope.

(** Linear arithmetic over quotients. *)
Local Ltac lia_div := Z.to_euclidean_division_equations; lia.

Section Gate.
Context `{Primitives, PowHash, Borsh, HybridPrims, HandshakeHash, !HandshakeHashLaws}.

Definition hour_secret (master : list Z) (hour : Z) : list Z :=
  default [] (hkdf_info master (ascii_bytes "phantom-pow-cookie-v1" ++ be_encode 8 hour) 32).

(** The cookie of an address in a five-minute bucket, under the secret of an hour. *)
Definition cookie_for (master : list Z) (ip : IpAddr) (hour bucket : Z) : list Z :=
  default [] (hmac_sha256 (hour_secret master hour) (ip ++ be_encode 8 bucket)).

Lemma derive_hour_ok master hour : derive_session_secret_for_hour master hour = Ok (hour_secret master hour).
Proof. unfold derive_session_secret_for_hour, hour_secret. by destruct (hkdf_info_total master (ascii_bytes "phantom-pow-cookie-v1" ++ be_encode 8 hour)) as [o ->]. Qed.

Lemma cookie_bucket_ok master ip hour bucket :
  generate_cookie_for_bucket (hour_secret master hour) ip bucket = Ok (cookie_for master ip hour bucket).
Proof. unfold generate_cookie_for_bucket, cookie_for. by destruct (hmac_total (hour_secret master hour) (ip ++ be_encode 8 bucket)) as (o & -> & _). Qed.

Lemma generate_cookie_ok master ip t : generate_cookie master ip (Some t) = Ok (cookie_for master ip (t / 3600) (t / 300)).
Proof. unfold generate_cookie. cbn. rewrite derive_hour_ok. apply cookie_bucket_ok. Qed.

Lemma cookie_for_fits master ip hour bucket : length (cookie_for master ip hour bucket) = 32%nat ∧ is_bytes (cookie_for master ip hour bucket).
Proof. unfold cookie_for. by destruct (hmac_total (hour_secret master hour) (ip ++ be_encode 8 bucket)) as (o & -> & ?). Qed.

Lemma match_buckets_ok master ip cookie hour bs acc :
  match_buckets (hour_secret master hour) ip cookie bs acc =
  Ok (acc || existsb (λ b, bool_decide (cookie = cookie_for master ip hour b)) bs).
Proof.
  revert acc. induction bs as [|b bs IH]; intros acc; cbn [match_buckets existsb]; [by rewrite orb_false_r|].
  rewrite cookie_bucket_ok, IH. by rewrite orb_assoc.
Qed.

Lemma match_hours_ok master ip cookie hs bs acc :
  match_hours master ip cookie hs bs acc =
  Ok (acc || existsb (λ h, existsb (λ b, bool_decide (cookie = cookie_for master ip h b)) bs) hs).
Proof.
  revert acc. induction hs as [|h hs IH]; intros acc; cbn [match_hours existsb]; [by rewrite orb_false_r|].
  rewrite derive_hour_ok, match_buckets_ok, IH. by rewrite orb_assoc.
Qed.

(** [x] or the one before, as the source lists them. *)
Definition recent (x y : Z) : Prop := y = x ∨ y = sat_sub x 1.

Lemma existsb_recent (f : Z -> bool) x :
  existsb f (if x =? sat_sub x 1 then [x; x] else [x; sat_sub x 1]) = true <-> ∃ y, recent x y ∧ f y = true.
Proof.
  rewrite existsb_exists. unfold recent. destruct (Z.eqb_spec x (sat_sub x 1)) as [E|E].
  - split; intros (y & Hy & Hf); exists y; (split; [|done]); cbn in *; intuition congruence.
  - split; intros (y & Hy & Hf); exists y; (split; [|done]); cbn in *; intuition congruence.
Qed.

Lemma validate_cookie_ok master ip cookie t :
  ∃ v, validate_cookie master ip cookie (Some t) = Ok v ∧
    (v = true <-> ∃ h b, recent (t / 3600) h ∧ recent (t / 300) b ∧ cookie = cookie_for master ip h b).
Proof.
  unfold validate_cookie. cbn -[sat_sub existsb]. rewrite match_hours_ok. eexists. split; [done|]. cbn [orb].
  rewrite existsb_recent. split.
  - intros (h & Hh & Hb). apply existsb_recent in Hb as (b & Hb & Hc). apply bool_decide_eq_true in Hc. by exists h, b.
  - intros (h & b & Hh & Hb & Hc). exists h. split; [done|]. apply existsb_recent. exists b. split; [done|]. by apply bool_decide_eq_true.
Qed.

Lemma app_be8_inj (a a' : list Z) x y :
  in_u 64 x -> in_u 64 y -> a ++ be_encode 8 x = a' ++ be_encode 8 y -> a = a' ∧ x = y.
Proof.
  intros Hx Hy E. apply app_inj_2 in E as [-> E]; [|by rewrite !be_encode_length]. split; [done|]. by apply (be_encode_inj 8).
Qed.

Lemma validate_fresh master ip t0 t :
  0 <= t0 -> t0 <= t <= t0 + 300 -> validate_cookie master ip (cookie_for master ip (t0 / 3600) (t0 / 300)) (Some t) = Ok true.
Proof.
  intros Ht0 Hw. destruct (validate_cookie_ok master ip (cookie_for master ip (t0 / 3600) (t0 / 300)) t) as (v & -> & Hv).
  f_equal. apply Hv. exists (t0 / 3600), (t0 / 300). unfold recent, sat_sub. repeat split; lia_div.
Qed.

(** Two different messages with one authentication tag. *)
Definition mac_collision : Prop := ∃ k k' m m' t, m ≠ m' ∧ hmac_sha256 k m = Some t ∧ hmac_sha256 k' m' = Some t.

(** A cookie is good for its own address and for five to ten minutes.  The cookie the
    server hands to [ip] at second [t0] is accepted from [ip] for the next 300 seconds,
    across changes of bucket and of the hourly secret; and if it is accepted at [t] from
    [ip'], then [ip'] is [ip] and [t] is less than 600 seconds later (and less than 300
    earlier), or two different messages have the same HMAC. *)
Theorem cookie_window (master : list Z) (ip ip' : IpAddr) (t0 t : Z) (cookie : list Z) :
  in_u 64 t0 -> in_u 64 t -> generate_cookie master ip (Some t0) = Ok cookie ->
  (t0 <= t <= t0 + 300 -> validate_cookie master ip cookie (Some t) = Ok true) ∧
  (validate_cookie master ip' cookie (Some t) = Ok true -> ip' = ip ∧ t0 - 300 < t < t0 + 600 ∨ mac_collision).
Proof.
  unfold in_u. intros Ht0 Ht. rewrite generate_cookie_ok. intros [= <-]. split.
  - intros Hw. apply validate_fresh; lia.
  - destruct (validate_cookie_ok master ip' (cookie_for master ip (t0 / 3600) (t0 / 300)) t) as (v & -> & Hv).
    intros [= ->]. destruct (proj1 Hv eq_refl) as (h & b & Hh & Hb & Hc). unfold cookie_for in Hc.
    destruct (hmac_total (hour_secret master (t0 / 3600)) (ip ++ be_encode 8 (t0 / 300))) as (x & Hx & _).
    destruct (hmac_total (hour_secret master h) (ip' ++ be_encode 8 b)) as (y & Hy & _).
    rewrite Hx, Hy in Hc. cbn in Hc. subst y.
    destruct (decide (ip ++ be_encode 8 (t0 / 300) = ip' ++ be_encode 8 b)) as [E|E].
    + left. apply app_be8_inj in E as [-> E]; [|unfold in_u; lia_div|unfold in_u, recent, sat_sub in *; lia_div].
      split; [done|]. unfold recent, sat_sub in Hb. lia_div.
    + right. eexists _, _, _, _, x. split; [exact E|done].
Qed.

(** ** What the gate answers *)

Definition cookie_okb (s : HandshakeServer) (hello : ClientHello) (ip : IpAddr) (t : Z) : bool :=
  match ch_cookie hello with
  | Some c => match validate_cookie (master_secret s) ip c (Some t) with Ok v => v | Err _ => false end
  | None => false
  end.

Definition solved (s : HandshakeServer) (sol : PoWSolution) (difficulty : Z) (ip : IpAddr) (t h : Z) : bool :=
  verify (mk_challenge (ps_nonce sol) difficulty) sol ip (hour_secret (master_secret s) h) t.

Definition pow_okb (s : HandshakeServer) (hello : ClientHello) (difficulty : Z) (ip : IpAddr) (t : Z) : bool :=
  (difficulty <=? 0) ||
  match pow_solution hello with
  | Some sol => solved s sol difficulty ip t (t / 3600) || solved s sol difficulty ip t (sat_sub (t / 3600) 1)
  | None => false
  end.

(** The challenge the gate hands out: only to a hello that brings no solution. *)
Definition challenge_for (s : HandshakeServer) (hello : ClientHello) (difficulty : Z) (ip : IpAddr) (t : Z) : option PoWChallenge :=
  match pow_solution hello with
  | None => if 0 <? difficulty then Some (new_stateless difficulty ip (hour_secret (master_secret s) (t / 3600)) t) else None
  | Some _ => None
  end.

Definition retry_for (s : HandshakeServer) (hello : ClientHello) (difficulty : Z) (ip : IpAddr) (t : Z) : HelloRetryRequest :=
  mk_retry (challenge_for s hello difficulty ip t)
    (if cookie_okb s hello ip t then None else Some (cookie_for (master_secret s) ip (t / 3600) (t / 300))).

Lemma cookie_okb_fresh s hello ip t0 t :
  ch_cookie hello = Some (cookie_for (master_secret s) ip (t0 / 3600) (t0 / 300)) -> 0 <= t0 -> t0 <= t <= t0 + 300 ->
  cookie_okb s hello ip t = true.
Proof. intros Hc Ht0 Ht. unfold cookie_okb. by rewrite Hc, validate_fresh. Qed.

Lemma pow_any_ok s ip sol d t hs : pow_any (master_secret s) ip sol d t hs = Ok (existsb (solved s sol d ip t) hs).
Proof.
  induction hs as [|h hs IH]; [done|]. cbn [pow_any existsb]. rewrite derive_hour_ok. cbn. rewrite IH. unfold solved at 2.
  by destruct (verify _ _ _ _ _).
Qed.

Lemma pow_gate_ok s hello d ip t : pow_gate s hello d ip (Some t) = Ok (pow_okb s hello d ip t, challenge_for s hello d ip t).
Proof.
  unfold pow_gate, pow_okb, challenge_for. destruct (Z.ltb_spec 0 d); [|destruct (Z.leb_spec d 0); [|lia]; by destruct (pow_solution hello)].
  destruct (Z.leb_spec d 0); [lia|]. cbn -[sat_sub pow_any].
  destruct (pow_solution hello) as [sol|]; [|by rewrite derive_hour_ok]. rewrite pow_any_ok. cbn. do 2 f_equal.
  destruct (Z.eqb_spec (t / SECRET_ROTATION_SECONDS) (sat_sub (t / SECRET_ROTATION_SECONDS) 1)) as [E|]; cbn [existsb]; [|by rewrite orb_false_r].
  change SECRET_ROTATION_SECONDS with 3600 in *. rewrite <- E. by destruct (solved _ _ _ _ _ _).
Qed.

Lemma gate_value s hello d ip bypass t :
  cookie_pow_gate s hello d ip bypass (Some t) =
  if bypass || cookie_okb s hello ip t && pow_okb s hello d ip t then Ok () else Err (Retry (retry_for s hello d ip t)).
Proof.
  unfold cookie_pow_gate. rewrite generate_cookie_ok, pow_gate_ok. unfold retry_for, cookie_okb.
  destruct (ch_cookie hello) as [c|]; [|by destruct bypass].
  destruct (validate_cookie_ok (master_secret s) ip c t) as (v & -> & _). cbn.
  by destruct v, bypass, (pow_okb _ _ _ _ _).
Qed.

Lemma udp_admit_value s hello ip t :
  udp_admit s hello ip (Some t) =
  if cookie_okb s hello ip t then Admit else AdmitRetry (mk_retry None (Some (cookie_for (master_secret s) ip (t / 3600) (t / 300)))).
Proof.
  unfold udp_admit, cookie_okb. rewrite generate_cookie_ok. destruct (ch_cookie hello) as [c|]; [|done].
  by destruct (validate_cookie_ok (master_secret s) ip c t) as (v & -> & _); destruct v.
Qed.

(** The solution of a challenge this server issued passes for the rest of its 120 seconds. *)
Lemma pow_okb_fresh `{!PowHashLaws} s hello d ip t0 t sol :
  0 <= t0 < 2 ^ 64 - 120 -> t0 <= t <= t0 + 120 -> pow_solution hello = Some sol ->
  solve_capped (new_stateless d ip (hour_secret (master_secret s) (t0 / 3600)) t0) MAX_CLIENT_POW_DIFFICULTY = Ok sol ->
  pow_okb s hello d ip t = true.
Proof.
  intros Ht0 Ht Hs E. unfold pow_okb. rewrite Hs. apply orb_true_iff. right. apply orb_true_iff.
  set (secret := hour_secret _ _) in E. pose proof (solve_capped_spec (new_stateless d ip secret t0) MAX_CLIENT_POW_DIFFICULTY) as Hx.
  rewrite E in Hx. destruct Hx as (k & -> & _ & _ & Hz & _).
  assert (Hv : verify (mk_challenge (pc_nonce (new_stateless d ip secret t0)) d) (mk_solution (pc_nonce (new_stateless d ip secret t0)) k) ip secret t = true).
  { pose proof (verify_issued d ip secret t0 t k Ht0 Ht) as Hi. cbv zeta in Hi. change (pc_difficulty _) with d in Hz. rewrite Hz in Hi. exact Hi. }
  unfold solved. cbn [ps_nonce].
  assert (Hh : t0 / 3600 = t / 3600 ∨ t0 / 3600 = sat_sub (t / 3600) 1) by (unfold sat_sub; lia_div).
  destruct Hh as [<-|<-]; [by left|by right].
Qed.
End Gate.

Section Toy.
#[local] Existing Instance toy_primitives.
#[local] Existing Instance toy_hash.
#[local] Existing Instance borsh_by_format.
#[local] Existing Instance toy_hybrid.
#[local] Existing Instance toy_handshake_hash.

Lemma cookie_window_witness :
  validate_cookie (replicate 32 7) toy_ip (cookie_for (replicate 32 7) toy_ip 0 3) (Some 1300) = Ok true ∧
  validate_cookie (replicate 32 7) toy_ip (cookie_for (replicate 32 7) toy_ip 0 3) (Some 1600) = Ok false.
Proof.
  split; [|by vm_compute].
  apply (cookie_window (replicate 32 7) toy_ip toy_ip 1000 1300 (cookie_for (replicate 32 7) toy_ip 0 3)).
  - unfold in_u. lia.
  - unfold in_u. lia.
  - by vm_compute.
  - lia.
Defined.
End Toy.
