(* ===== verification/Connect.v ===== *)
(** * Connecting ([run_client_handshake] of [core/src/api/session.rs],
      [drive_server_handshake] of [core/src/api/listener.rs], and the admission of the
      demultiplexer loop of [core/src/api/udp_listener.rs])

    The two loops that drive a handshake, and the two together.  Error texts are not
    modelled, except what a believed refusal says ([describe_server_reject]).  A
    transport is what it answers: the outcome of each send and of each receive. *)

From Stdlib Require Import ZArith Lia String.
From stdpp Require Import base numbers option list gmap.
From S2P Require Import Prelude Errors Crypto Session SessionCache Pow Reputation HandshakeWire Hybrid Handshake HandshakeGate.

Local Open Scope Z_scope.
Local Open Scope phantom_scope.

Definition MAX_HANDSHAKE_RETRY_ROUNDS : Z := 3.
Definition MAX_CLIENT_RETRY_ROUNDS : Z := MAX_HANDSHAKE_RETRY_ROUNDS.
Definition MAX_CLIENT_REJECT_ROUNDS : Z := 3.

(** [From<HandshakeError> for CoreError]. *)
Definition core_of_handshake (e : HsError.HandshakeError) : CoreError :=
  match e with
  | HsError.ServerIdentityMismatch => ServerIdentityMismatch
  | HsError.ProtocolVariantMismatch _ _ => ProtocolRejected
  | _ => Errors.HandshakeError
  end.

(** The sentences of [describe_server_reject]. *)
Inductive RejectText :=
| VariantText | RetryLimitText | UnknownReason (code version : Z) | VersionText (client server : Z).

Definition describe_server_reject (client_version : Z) (r : ServerReject) : RejectText :=
  if rj_code r =? REJECT_PROTOCOL_VARIANT then VariantText
  else if rj_code r =? REJECT_RETRY_LIMIT then RetryLimitText
  else if negb (rj_code r =? REJECT_UNSUPPORTED_VERSION) && (supported_version r =? client_version)
  then UnknownReason (rj_code r) (supported_version r)
  else VersionText client_version (supported_version r).

(** [Refused] is [CoreError::ProtocolRejected] with its text. *)
Inductive ConnectError := Failed (e : CoreError) | Refused (why : RejectText).

Section Loops.
Context `{Primitives, PowHash, Borsh, HybridPrims, HandshakeHash}.

(** ** The client *)

Record ClientLoop := mk_loop {
  cl_hello : ClientHello;
  retry_rounds : Z;
  reject_rounds : Z;
  remembered_reject : option ServerReject;
}.

Definition first_hello (c : HandshakeClient) (resumption : option (list Z * list Z * list Z)) : ClientHello :=
  match resumption with
  | Some (resume_id, resume_secret, early_data) =>
    create_client_hello_with_resume c resume_id resume_secret (match early_data with [] => None | _ => Some early_data end)
  | None => create_client_hello c
  end.

(** [hello.cookie = retry.cookie], and the solution if one was asked for. *)
Definition set_cookie (h : ClientHello) (cookie : option (list Z)) : ClientHello :=
  mk_hello (client_key_package h) (client_verify_key h) (ch_nonce h) (ch_version h) cookie (pow_solution h)
    (resume_session_id h) (resumption_binder h) (ch_variant h) (ch_early_data h).
Definition set_solution (h : ClientHello) (s : PoWSolution) : ClientHello :=
  mk_hello (client_key_package h) (client_verify_key h) (ch_nonce h) (ch_version h) (ch_cookie h) (Some s)
    (resume_session_id h) (resumption_binder h) (ch_variant h) (ch_early_data h).

Definition apply_retry (h : ClientHello) (r : HelloRetryRequest) : result ClientHello PowError :=
  let h1 := set_cookie h (rq_cookie r) in
  match rq_challenge r with
  | Some challenge => s <-? solve_capped challenge MAX_CLIENT_POW_DIFFICULTY; Ok (set_solution h1 s)
  | None => Ok h1
  end.

Inductive ClientNext :=
| ReadOn (st : ClientLoop)
| Resend (st : ClientLoop)
| Finished (r : result (Session * option bool) ConnectError).

(** One turn of the inner loop. *)
Definition client_receive (c : HandshakeClient) (expected : HybridVerifyingKey) (hw : HwCaps) (now : Z) (st : ClientLoop)
    (resp : result (list Z) CoreError) : ClientNext :=
  match resp with
  | Err e =>
    Finished (Err match remembered_reject st with
                  | Some r => Refused (describe_server_reject (ch_version (cl_hello st)) r)
                  | None => Failed e
                  end)
  | Ok bytes =>
    match reply_from_wire bytes with
    | Ok (ReplyHello sh) =>
      match process_server_hello c (cl_hello st) sh (Some expected) hw now with
      | Ok (session, accepted, _) => Finished (Ok (session, accepted))
      | Err e => Finished (Err (Failed (core_of_handshake e)))
      end
    | Ok (ReplyReject r) =>
      if has_marker r then
        let rounds := reject_rounds st + 1 in
        if MAX_CLIENT_REJECT_ROUNDS <? rounds then Finished (Err (Refused (describe_server_reject (ch_version (cl_hello st)) r)))
        else ReadOn (mk_loop (cl_hello st) (retry_rounds st) rounds (Some r))
      else Finished (Err (Failed Errors.HandshakeError))
    | Ok (ReplyRetry r) =>
      let rounds := retry_rounds st + 1 in
      if MAX_CLIENT_RETRY_ROUNDS <? rounds then Finished (Err (Failed Errors.HandshakeError))
      else match apply_retry (cl_hello st) r with
      | Ok h => Resend (mk_loop h rounds (reject_rounds st) (remembered_reject st))
      | Err _ => Finished (Err (Failed Errors.HandshakeError))
      end
    | Err _ => Finished (Err (Failed Errors.HandshakeError))
    end
  end.

(** The head of the outer loop; the bytes that went out. *)
Definition client_send (st : ClientLoop) (sent : result () CoreError) : result (list Z) ConnectError :=
  bytes <-? ok_or (hello_to_vec (cl_hello st)) (Failed SerializationError);
  match sent with Ok _ => Ok bytes | Err e => Err (Failed e) end.

(** Where a client is after some receives: done, or waiting for the next; with what it
    has sent, newest first.  [sends] are the outcomes of its sends, all good after the
    end of the list. *)
Inductive ClientRun := Waiting (st : ClientLoop) (out : list (list Z)) | Ended (r : result (Session * option bool) ConnectError) (out : list (list Z)).

Definition next_send (sends : list (result () CoreError)) : result () CoreError := default (Ok ()) (head sends).

Fixpoint read_replies (c : HandshakeClient) (expected : HybridVerifyingKey) (hw : HwCaps) (now : Z) (st : ClientLoop)
    (sends : list (result () CoreError)) (recvs : list (result (list Z) CoreError)) (out : list (list Z)) : ClientRun :=
  match recvs with
  | [] => Waiting st out
  | r :: rest =>
    match client_receive c expected hw now st r with
    | ReadOn st' => read_replies c expected hw now st' sends rest out
    | Resend st' =>
      match client_send st' (next_send sends) with
      | Ok bytes => read_replies c expected hw now st' (tail sends) rest (bytes :: out)
      | Err e => Ended (Err e) out
      end
    | Finished x => Ended x out
    end
  end.

Definition run_client_handshake (made : result HandshakeClient HsError.HandshakeError) (expected : HybridVerifyingKey)
    (resumption : option (list Z * list Z * list Z)) (hw : HwCaps) (now : Z)
    (sends : list (result () CoreError)) (recvs : list (result (list Z) CoreError)) : ClientRun :=
  match made with
  | Err e => Ended (Err (Failed (core_of_handshake e))) []
  | Ok c =>
    let st := mk_loop (first_hello c resumption) 0 0 None in
    match client_send st (next_send sends) with
    | Ok bytes => read_replies c expected hw now st (tail sends) recvs [bytes]
    | Err e => Ended (Err e) []
    end
  end.

(** ** The server *)

Record ServerConn := mk_conn { sc_retry_rounds : Z; demanded_difficulty : option Z }.

Inductive ServerNext := NextHello (k : ServerConn) | ServerDone (r : result (Session * option (list Z)) CoreError).

(** The price of this connection, set by its first hello. *)
Definition demand (s : HandshakeServer) (k : ServerConn) (hello : ClientHello) (ip : IpAddr) (env : HsEnv) : Z * HandshakeServer :=
  match demanded_difficulty k with
  | Some fixed => (fixed, s)
  | None =>
    let '(has_ticket, s1) := has_valid_resume s hello (e_now env) in
    (Z.max (adaptive_difficulty s1) (calculate_difficulty (reputation s1) ip has_ticket (default 0 (e_unix env))), s1)
  end.

(** A reply whose failure to encode or to go out is ignored. *)
Definition best_effort (r : ServerReply) (sent : result () CoreError) : option (list Z) :=
  match reply_to_wire r, sent with Ok bytes, Ok _ => Some bytes | _, _ => None end.

(** A reply that must go out. *)
Definition send_reply (r : ServerReply) (sent : result () CoreError) : result (list Z) CoreError :=
  match reply_to_wire r with
  | Ok bytes => match sent with Ok _ => Ok bytes | Err e => Err e end
  | Err _ => Err NetworkError
  end.

(** What the loop does with the verdict on a hello. *)
Definition respond (s : HandshakeServer) (k : ServerConn) (ip : IpAddr) (hello : ClientHello) (env : HsEnv) (sent : result () CoreError)
    (difficulty : Z) (resp : HandshakeResponse) : HandshakeServer * option (list Z) * ServerNext :=
  match resp with
  | Retry r =>
    let rounds := sc_retry_rounds k + 1 in
    if MAX_HANDSHAKE_RETRY_ROUNDS <? rounds
    then (s, best_effort (ReplyReject retry_limit) sent, ServerDone (Err Errors.HandshakeError))
    else match send_reply (ReplyRetry r) sent with
    | Ok bytes => (s, Some bytes, NextHello (mk_conn rounds (Some difficulty)))
    | Err e => (s, None, ServerDone (Err e))
    end
  | Success sh session early =>
    match send_reply (ReplyHello sh) sent with
    | Ok bytes => (set_reputation s (reset_violations (reputation s) ip), Some bytes, ServerDone (Ok (session, early)))
    | Err e => (s, None, ServerDone (Err e))
    end
  | Reject r =>
    (s, best_effort (ReplyReject r) sent,
     ServerDone (Err (if rj_code r =? REJECT_PROTOCOL_VARIANT
                      then core_of_handshake (HsError.ProtocolVariantMismatch PROTOCOL_VARIANT (ch_variant hello))
                      else InternalError)))
  | Fail e =>
    (match e with
     | HsError.ProtocolVariantMismatch _ _ => s
     | _ => set_reputation s (record_violation (reputation s) ip (default 0 (e_unix env)))
     end, None, ServerDone (Err InternalError))
  end.

(** One turn of [drive_server_handshake]: the bytes sent and whether it goes on. *)
Definition server_receive (s : HandshakeServer) (k : ServerConn) (ip : IpAddr) (env : HsEnv) (received : result (list Z) CoreError)
    (sent : result () CoreError) : HandshakeServer * option (list Z) * ServerNext :=
  match received with
  | Err e => (s, None, ServerDone (Err e))
  | Ok bytes =>
    if negb (client_hello_lengths_within_bounds bytes) then (s, None, ServerDone (Err NetworkError))
    else match hello_from_slice bytes with
    | None => (s, None, ServerDone (Err NetworkError))
    | Some hello =>
      let '(difficulty, s1) := demand s k hello ip env in
      let '(resp, s2) := process_client_hello s1 hello difficulty ip env in
      respond s2 k ip hello env sent difficulty resp
    end
  end.

(** ** Both together, over a transport that delivers

    On TCP a connection has its loop from the start.  On UDP a hello goes to the loop
    only once a slot is committed ([Some]); before that the demultiplexer admits it or
    answers by itself.  A free slot is assumed here. *)

Definition listen (s : HandshakeServer) (k : option ServerConn) (ip : IpAddr) (env : HsEnv) (bytes : list Z)
  : HandshakeServer * option (list Z) * option ServerNext :=
  let drive k := let '(s', out, n) := server_receive s k ip env (Ok bytes) (Ok ()) in (s', out, Some n) in
  match k with
  | Some k => drive k
  | None =>
    if negb (client_hello_lengths_within_bounds bytes) then (s, None, None)
    else match hello_from_slice bytes with
    | None => (s, None, None)
    | Some hello =>
      match udp_admit s hello ip (e_unix env) with
      | Admit => drive (mk_conn 0 None)
      | AdmitRetry r => (s, match reply_to_wire (ReplyRetry r) with Ok b => Some b | Err _ => None end, None)
      | AdmitDrop => (s, None, None)
      end
    end
  end.

(** How an exchange stands after the given rounds of the server. *)
Inductive Exchange :=
| Joined (client : Session) (verdict : option bool) (server : Session) (early : option (list Z)) (rounds : Z) (s : HandshakeServer)
| Broken (rounds : Z)
| Pending.

Fixpoint exchange (c : HandshakeClient) (expected : HybridVerifyingKey) (hw : HwCaps) (ip : IpAddr) (st : ClientLoop)
    (s : HandshakeServer) (k : option ServerConn) (envs : list HsEnv) : Exchange :=
  match envs with
  | [] => Pending
  | env :: rest =>
    match client_send st (Ok ()) with
    | Err _ => Broken (retry_rounds st)
    | Ok bytes =>
      let '(s', out, next) := listen s k ip env bytes in
      match out with
      | None => Broken (retry_rounds st)
      | Some reply =>
        match client_receive c expected hw (e_now env) st (Ok reply), next with
        | Resend st', Some (NextHello k') => exchange c expected hw ip st' s' (Some k') rest
        | Resend st', None => exchange c expected hw ip st' s' None rest
        | Finished (Ok (session, verdict)), Some (ServerDone (Ok (ssession, early))) =>
          Joined session verdict ssession early (retry_rounds st) s'
        | _, _ => Broken (retry_rounds st)
        end
      end
    end
  end.
End Loops.

(** ** The client's loop ends *)

Section Client.
Context `{Primitives, PowHash, Borsh, HybridPrims, HandshakeHash}.

(** Everything in a hello but the cookie and the proof of work. *)
Definition offer (h : ClientHello) : ClientHello :=
  mk_hello (client_key_package h) (client_verify_key h) (ch_nonce h) (ch_version h) None None
    (resume_session_id h) (resumption_binder h) (ch_variant h) (ch_early_data h).

Lemma apply_retry_offer h r h' : apply_retry h r = Ok h' -> offer h' = offer h.
Proof.
  unfold apply_retry. destruct (rq_challenge r) as [ch|]; [|by intros [= <-]].
  destruct (solve_capped _ _); [|done]. by intros [= <-].
Qed.

Definition loop_ok (first : ClientHello) (st : ClientLoop) (out : list (list Z)) : Prop :=
  0 <= retry_rounds st <= 3 ∧ 0 <= reject_rounds st <= 3 ∧ len out = 1 + retry_rounds st ∧
  head out = hello_to_vec (cl_hello st) ∧ offer (cl_hello st) = offer first.

Definition run_ok (c : HandshakeClient) (expected : HybridVerifyingKey) (hw : HwCaps) (now : Z) (first : ClientHello) (reads : Z) (r : ClientRun) : Prop :=
  match r with
  | Waiting st out => loop_ok first st out ∧ reads = retry_rounds st + reject_rounds st
  | Ended (Err _) out => len out <= 4
  | Ended (Ok (session, verdict)) out =>
    len out <= 4 ∧ ∃ h sh c', head out = hello_to_vec h ∧ offer h = offer first ∧
      process_server_hello c h sh (Some expected) hw now = Ok (session, verdict, c')
  end.

Lemma client_receive_ok c expected hw now first st out resp :
  loop_ok first st out ->
  match client_receive c expected hw now st resp with
  | ReadOn st' => loop_ok first st' out ∧ retry_rounds st' + reject_rounds st' = retry_rounds st + reject_rounds st + 1
  | Resend st' => retry_rounds st < 3 ∧ retry_rounds st' = retry_rounds st + 1 ∧ reject_rounds st' = reject_rounds st ∧ offer (cl_hello st') = offer first
  | Finished r => run_ok c expected hw now first 0 (Ended r out)
  end.
Proof.
  intros (Hr & Hj & Ho & Hh & Hf). unfold client_receive. destruct resp as [bytes|e]; [|cbn; lia].
  destruct (reply_from_wire bytes) as [[sh|r|r]|]; [| | |cbn; lia].
  - destruct (process_server_hello _ _ _ _ _ _) as [[[session v] c']|] eqn:E; [|cbn; lia].
    split; [lia|]. by exists (cl_hello st), sh, c'.
  - destruct (Z.ltb_spec MAX_CLIENT_RETRY_ROUNDS (retry_rounds st + 1)) as [|Hm]; [cbn; lia|].
    change MAX_CLIENT_RETRY_ROUNDS with 3 in Hm. destruct (apply_retry _ _) as [h|] eqn:E; [|cbn; lia].
    cbn. rewrite (apply_retry_offer _ _ _ E). repeat split; [lia|done].
  - destruct (has_marker r); [|cbn; lia]. change MAX_CLIENT_REJECT_ROUNDS with 3.
    destruct (Z.ltb_spec 3 (reject_rounds st + 1)); [cbn; lia|]. unfold loop_ok. cbn. split; [|lia]. repeat split; try done; lia.
Qed.

Lemma read_replies_ok c expected hw now first recvs : ∀ st sends out,
  loop_ok first st out ->
  run_ok c expected hw now first (retry_rounds st + reject_rounds st + len recvs) (read_replies c expected hw now st sends recvs out).
Proof.
  induction recvs as [|r recvs IH]; intros st sends out Hok; cbn [read_replies].
  - split; [done|]. unfold len. cbn [length]. lia.
  - rewrite len_cons. pose proof (client_receive_ok c expected hw now first st out r Hok) as Hc.
    destruct (client_receive _ _ _ _ _ _) as [st'|st'|x].
    + destruct Hc as [Hok' E]. specialize (IH st' sends out Hok'). by replace (retry_rounds st + reject_rounds st + (1 + len recvs))
        with (retry_rounds st' + reject_rounds st' + len recvs) by lia.
    + destruct Hc as (Hm & Hr & Hj & Hof). destruct Hok as (Hr0 & Hj0 & Ho & _ & _). unfold client_send.
      destruct (hello_to_vec (cl_hello st')) as [bytes|] eqn:Eb; [|cbn; lia]. cbn.
      destruct (next_send sends); [|cbn; lia].
      specialize (IH st' (tail sends) (bytes :: out)).
      replace (retry_rounds st + reject_rounds st + (1 + len recvs)) with (retry_rounds st' + reject_rounds st' + len recvs) by lia.
      apply IH. unfold loop_ok. rewrite len_cons. repeat split; try done; lia.
    + destruct x as [[session v]|]; exact Hc.
Qed.

(** A client's handshake is over after seven replies, whatever they are.  However the
    peer, or anyone between, answers, and however sends fare: as long as the client is
    still reading, what it has read is at most three retries and three refusals, and it
    has sent one hello more than the retries, so never more than four, all of which
    differ in cookie and proof of work only.  If it ends with a session, then an answer
    to the hello it sent last was accepted by [process_server_hello] with the pinned key. *)
Theorem client_loop_bounded (c : HandshakeClient) (expected : HybridVerifyingKey) (resumption : option (list Z * list Z * list Z)) (hw : HwCaps)
    (now : Z) (sends : list (result () CoreError)) (recvs : list (result (list Z) CoreError)) :
  match run_client_handshake (Ok c) expected resumption hw now sends recvs with
  | Waiting st out =>
    len recvs = retry_rounds st + reject_rounds st ∧ retry_rounds st <= 3 ∧ reject_rounds st <= 3 ∧ len out = 1 + retry_rounds st ∧
    offer (cl_hello st) = offer (first_hello c resumption)
  | Ended (Ok (session, verdict)) out =>
    len out <= 4 ∧ ∃ h sh c', head out = hello_to_vec h ∧ offer h = offer (first_hello c resumption) ∧
      process_server_hello c h sh (Some expected) hw now = Ok (session, verdict, c')
  | Ended (Err _) out => len out <= 4
  end.
Proof.
  unfold run_client_handshake. set (first := first_hello c resumption). set (st := mk_loop first 0 0 None).
  unfold client_send. cbn [cl_hello st]. destruct (hello_to_vec first) as [bytes|] eqn:Eb; [|by cbn]. cbn [ok_or].
  destruct (next_send sends); [|by cbn].
  pose proof (read_replies_ok c expected hw now first recvs st (tail sends) [bytes]) as Hx.
  assert (Hok : loop_ok first st [bytes]) by (unfold loop_ok; cbn; repeat split; (done || lia)).
  specialize (Hx Hok). destruct (read_replies _ _ _ _ _ _ _ _) as [st' out|[[session v]|] out]; [|exact Hx..].
  destruct Hx as [(I1 & I2 & I3 & I4 & I5) Hx]. cbn in Hx. repeat split; try done; lia.
Qed.
End Client.

(** ** A connection comes about *)

Section Together.
Context `{PrimitiveLaws, PowHash, !PowHashLaws, !Borsh, !HybridPrims, !HandshakeHash, !BorshLaws, !HybridLaws, !HandshakeHashLaws}.

Definition bytes32 (l : list Z) : Prop := length l = 32%nat ∧ is_bytes l.

(** A hello of this client, with or without cookie and solution, that can be written. *)
Definition own_hello (c : HandshakeClient) (h : ClientHello) : Prop :=
  offer h = offer (create_client_hello c) ∧ (∀ k, ch_cookie h = Some k -> bytes32 k) ∧
  (∀ s, pow_solution h = Some s -> bytes32 (ps_nonce s) ∧ in_u 64 (ps_solution s)).

Lemma own_hello_fields c h : own_hello c h ->
  client_key_package h = kem_public c ∧ client_verify_key h = hc_verifying_key c ∧ ch_nonce h = hc_nonce c ∧
  ch_version h = PROTOCOL_VERSION ∧ resume_session_id h = None ∧ resumption_binder h = None ∧ ch_variant h = PROTOCOL_VARIANT ∧ ch_early_data h = None.
Proof. intros [E _]. unfold offer in E. by injection E as -> -> -> -> -> -> -> ->. Qed.

Lemma own_hello_readable sk seed ed ml nonce c h :
  client_new sk seed ed ml (Some nonce) = Ok c -> bytes32 nonce -> own_hello c h -> fits c_hello h ∧ within_bounds h = true.
Proof.
  intros Hc Hn Ho. destruct (own_hello_fields c h Ho) as (E1 & E2 & E3 & E4 & E5 & E6 & E7 & E8). destruct Ho as (_ & Hck & Hs).
  unfold client_new, kem_generate in Hc. pose proof (mlkem_ek_length seed) as Hl. pose proof (mlkem_ek_bytes seed) as [Hb Hm].
  destruct (mlkem_keypair seed) as [dk ek]. cbn in Hc, Hl, Hb. injection Hc as <-. cbn in E1, E2, E3.
  destruct h as [kp vk n v ck sol rid b var e]. cbn in *. subst.
  pose proof (verifying_key_fits (mk_ssk ed ml)) as Hvk. pose proof variant_fits as Hvar. split.
  - unfold ML_KEM_PK_MAX in Hm. split; [split; [apply ecdh_public_length|split; [unfold len; cbn; lia|done]]|]. split; [exact Hvk|].
    split; [exact Hn|]. split; [cbn; unfold PROTOCOL_VERSION; lia|]. split; [destruct ck; [by apply Hck|done]|].
    split; [|done]. destruct sol as [s|]; [|done]. destruct (Hs s eq_refl) as [? ?]. done.
  - unfold within_bounds. cbn. rewrite (proj2 (Z.leb_le _ _)) by (unfold len; lia). unfold len. rewrite mldsa_public_length.
    rewrite (proj2 (Z.leb_le _ _)) by apply (mldsa_public_bytes ml). unfold PROTOCOL_VARIANT. by destruct fips.
Qed.

Lemma retry_fits s h d ip t : 0 <= d <= 255 -> reply_fits (ReplyRetry (retry_for s h d ip t)).
Proof.
  intros Hd. unfold retry_for. split; cbn [rq_challenge rq_cookie].
  - unfold challenge_for. cbn. destruct (pow_solution h); [done|]. destruct (0 <? d); [|done].
    pose proof (issued_nonce_ok d ip (hour_secret (master_secret s) (t / 3600)) t) as Hn. cbn in Hn |- *. split; [exact Hn|]. lia.
  - cbn. destruct (cookie_okb s h ip t); [done|]. apply cookie_for_fits.
Qed.

(** A hello of ours at the gate. *)
Lemma process_own c s h d ip env t :
  own_hello c h -> e_unix env = Some t ->
  process_client_hello s h d ip env =
  let s0 := record_handshake s (Some t) in
  if cookie_okb s h ip t && pow_okb s h d ip t
  then match answer s0 h None env with
       | Err resp => (resp, s0)
       | Ok (sh, session, s2) => (Success sh session None, s2)
       end
  else (Retry (retry_for s h d ip t), s0).
Proof.
  intros Ho Ht. destruct (own_hello_fields c h Ho) as (_ & _ & _ & E4 & E5 & _ & E7 & E8). unfold process_client_hello.
  rewrite Ht, E7, E4. rewrite bool_decide_eq_true_2 by done. cbn [negb]. rewrite Z.eqb_refl. cbn [negb].
  unfold consume_ticket. rewrite E5, gate_value. cbn [orb]. cbv zeta. unfold early_data_of. set (s0 := record_handshake s (Some t)).
  assert (Hm : master_secret s0 = master_secret s) by apply (record_same s (Some t)).
  assert (Hck : cookie_okb s0 h ip t = cookie_okb s h ip t) by (unfold cookie_okb; by rewrite Hm).
  assert (Hpw : pow_okb s0 h d ip t = pow_okb s h d ip t) by (unfold pow_okb, solved; by rewrite Hm).
  assert (Hrf : retry_for s0 h d ip t = retry_for s h d ip t) by (unfold retry_for, challenge_for; by rewrite Hm, Hck).
  rewrite Hck, Hpw, Hrf. destruct (_ && _); [|done].
  destruct (early_data_enabled s0); by destruct (answer s0 h None env) as [[[sh se] s2]|].
Qed.

Definition serves (hw : HwCaps) (env : HsEnv) (t : Z) : Prop :=
  e_unix env = Some t ∧ recommended_cipher hw = recommended_cipher (e_hw env) ∧ ∃ n, e_server_nonce env = Some n ∧ bytes32 n.

Lemma signature_fits k m : fits c_signature (hybrid_sign k m).
Proof.
  destruct (mldsa_sign_ok (ml_dsa_sk k) m) as [Hl _]. destruct (mldsa_sign_bytes (ml_dsa_sk k) m) as [Hb Hs].
  split; [apply ed25519_sign_length|]. split; [|exact Hb]. unfold len. cbn [sig_ml_dsa hybrid_sign snd]. by rewrite Hl.
Qed.

(** An honest key package is always answered, with a reply that can be written. *)
Lemma answer_total sk seed ed ml nonce c s h early env hw t :
  client_new sk seed ed ml (Some nonce) = Ok c -> client_key_package h = kem_public c -> fits c_hello h ->
  hs_verifying_key s = verifying_key (signing_key s) -> serves hw env t ->
  ∃ sh session s2, answer s h early env = Ok (sh, session, s2) ∧ fits c_shello sh.
Proof.
  intros Hc Hkp Hf Hvk (_ & _ & n & Hn & Hb). unfold answer, client_new in *.
  pose proof (kem_agrees sk seed (e_eph_sk env) (e_kem_rnd env)) as Hkem. destruct (kem_generate sk seed) as [secret package].
  injection Hc as <-. cbn in Hkp. rewrite Hkp. destruct Hkem as (ss & ct & He & _ & Hss). rewrite He, Hn. cbn [or_fail ok_or].
  set (sid := derive_session_id ss (ch_nonce h)). set (accepted := match early with Some _ => true | None => false end).
  pose proof (encapsulate_fits _ _ _ _ _ He) as Hct. pose proof (verifying_key_fits (signing_key s)) as Hvf. rewrite <- Hvk in Hvf.
  assert (Hsid : bytes32 sid) by apply sha256_length.
  unfold compute_transcript_hash. rewrite (transcript_format _ (transcript_fits h n ct _ sid accepted Hf Hb Hct Hvf Hsid)). cbn [ok_or or_fail].
  unfold finalize_session. rewrite crypto_state_new_ok by done. eexists _, _, _. split; [done|].
  split; [exact Hb|]. split; [exact Hct|]. split; [exact Hvf|]. split; [apply signature_fits|]. by split.
Qed.

(** The price of a connection from [ip] that brings no ticket. *)
Definition price (s : HandshakeServer) (ip : IpAddr) (t : Z) : Z := Z.max (adaptive_difficulty s) (calculate_difficulty (reputation s) ip false t).

Lemma price_range s ip t : 0 <= price s ip t <= 20.
Proof.
  unfold price, adaptive_difficulty, calculate_difficulty, MAX_DIFFICULTY, BASE_DIFFICULTY.
  assert (Hs : ∀ v, 0 <= Z.shiftl 1 v) by (intros v; apply Z.shiftl_nonneg; lia).
  destruct (entries _ !! ip) as [e|]; [specialize (Hs (Z.min (violations e - 1) 8))|]; repeat case_test; lia.
Qed.

Definition priced (s : HandshakeServer) (k : ServerConn) (ip : IpAddr) (t d : Z) : Prop :=
  match demanded_difficulty k with Some fixed => fixed = d | None => price s ip t = d end.

Lemma demand_own c s k h ip env t d :
  own_hello c h -> e_unix env = Some t -> priced s k ip t d -> demand s k h ip env = (d, s).
Proof.
  intros Ho Ht. destruct (own_hello_fields c h Ho) as (_ & _ & _ & _ & E5 & _). unfold priced, demand, has_valid_resume.
  rewrite E5, Ht. by destruct (demanded_difficulty k); intros <-.
Qed.

Context (sk seed ed ml nonce : list Z) (c : HandshakeClient) (hw : HwCaps) (ip : IpAddr).
Context (Hc : client_new sk seed ed ml (Some nonce) = Ok c) (Hnonce : bytes32 nonce).

(** A round that ends in a retry. *)
Lemma drive_retry s k h env t d :
  own_hello c h -> e_unix env = Some t -> priced s k ip t d -> 0 <= d <= 255 -> sc_retry_rounds k < 3 ->
  cookie_okb s h ip t && pow_okb s h d ip t = false ->
  ∃ b, reply_from_wire b = Ok (ReplyRetry (retry_for s h d ip t)) ∧
    server_receive s k ip env (Ok (enc c_hello h)) (Ok ()) =
      (record_handshake s (Some t), Some b, NextHello (mk_conn (sc_retry_rounds k + 1) (Some d))).
Proof.
  intros Ho Ht Hp Hd Hk Hg. destruct (own_hello_readable _ _ _ _ _ _ _ Hc Hnonce Ho) as [Hf Hw].
  destruct (hello_reads h Hf Hw) as (_ & Hlen & Hfrom). destruct (reply_reads _ (retry_fits s h d ip t Hd)) as (b & Hto & Hback).
  exists b. split; [done|]. unfold server_receive. rewrite Hlen, Hfrom. cbn [negb]. rewrite (demand_own c s k h ip env t d) by done.
  rewrite (process_own c s h d ip env t) by done. cbv zeta. rewrite Hg. unfold respond, send_reply.
  change MAX_HANDSHAKE_RETRY_ROUNDS with 3. destruct (Z.ltb_spec 3 (sc_retry_rounds k + 1)); [lia|]. by rewrite Hto.
Qed.

(** A round that ends in a session. *)
Lemma drive_success s k h env t d :
  own_hello c h -> serves hw env t -> priced s k ip t d -> hs_verifying_key s = verifying_key (signing_key s) ->
  cookie_okb s h ip t && pow_okb s h d ip t = true ->
  ∃ b sh session s2, reply_from_wire b = Ok (ReplyHello sh) ∧ process_client_hello s h d ip env = (Success sh session None, s2) ∧
    server_receive s k ip env (Ok (enc c_hello h)) (Ok ()) =
      (set_reputation s2 (reset_violations (reputation s2) ip), Some b, ServerDone (Ok (session, None))).
Proof.
  intros Ho Hsv Hp Hvk Hg. pose proof (proj1 Hsv) as Ht. destruct (own_hello_readable _ _ _ _ _ _ _ Hc Hnonce Ho) as [Hf Hw].
  destruct (hello_reads h Hf Hw) as (_ & Hlen & Hfrom). pose proof (process_own c s h d ip env t Ho Ht) as Hproc.
  cbv zeta in Hproc. rewrite Hg in Hproc. destruct (record_same s (Some t)) as (Hk0 & Hv0 & _).
  destruct (answer_total sk seed ed ml nonce c (record_handshake s (Some t)) h None env hw t) as (sh & session & s2 & Ha & Hsh);
    [done|by apply (own_hello_fields c)|done|by rewrite Hk0, Hv0|done|].
  rewrite Ha in Hproc. destruct (reply_reads (ReplyHello sh) Hsh) as (b & Hto & Hback). exists b, sh, session, s2.
  split; [done|]. split; [done|]. unfold server_receive. rewrite Hlen, Hfrom. cbn [negb]. rewrite (demand_own c s k h ip env t d) by done.
  rewrite Hproc. unfold respond, send_reply. by rewrite Hto.
Qed.

Lemma own_set_cookie h t0 m : own_hello c h -> own_hello c (set_cookie h (Some (cookie_for m ip (t0 / 3600) (t0 / 300)))).
Proof. intros (E & _ & Hs). split; [exact E|]. split; [|exact Hs]. cbn. intros k [= <-]. apply cookie_for_fits. Qed.

Lemma own_no_cookie h : own_hello c h -> own_hello c (set_cookie h None).
Proof. intros (E & _ & Hs). by split; [exact E|]. Qed.

Lemma own_set_solution h d secret t0 sol :
  own_hello c h -> solve_capped (new_stateless d ip secret t0) MAX_CLIENT_POW_DIFFICULTY = Ok sol -> own_hello c (set_solution h sol).
Proof.
  intros (E & Hck & _) Hsol. split; [exact E|]. split; [exact Hck|]. cbn. intros s' [= <-].
  pose proof (solve_capped_spec (new_stateless d ip secret t0) MAX_CLIENT_POW_DIFFICULTY) as Hx. rewrite Hsol in Hx.
  destruct Hx as (k & -> & _ & Hk & _). split; [apply issued_nonce_ok|]. unfold in_u. cbn [ps_solution]. lia.
Qed.

Lemma cookie_okb_same s s' h t : master_secret s' = master_secret s -> cookie_okb s' h ip t = cookie_okb s h ip t.
Proof. unfold cookie_okb. by intros ->. Qed.

Lemma client_send_own st : own_hello c (cl_hello st) -> client_send st (Ok ()) = Ok (enc c_hello (cl_hello st)).
Proof.
  intros Ho. destruct (own_hello_readable _ _ _ _ _ _ _ Hc Hnonce Ho) as [Hf Hw].
  unfold client_send. by rewrite (proj1 (hello_reads _ Hf Hw)).
Qed.

Lemma client_retry vk now st b r h' :
  reply_from_wire b = Ok (ReplyRetry r) -> retry_rounds st < 3 -> apply_retry (cl_hello st) r = Ok h' ->
  client_receive c vk hw now st (Ok b) = Resend (mk_loop h' (retry_rounds st + 1) (reject_rounds st) (remembered_reject st)).
Proof.
  intros Hb Hr Ha. unfold client_receive. rewrite Hb, Ha. change MAX_CLIENT_RETRY_ROUNDS with 3.
  by destruct (Z.ltb_spec 3 (retry_rounds st + 1)); [lia|].
Qed.

(** The demultiplexer asks for a cookie, and commits nothing. *)
Lemma round_admit vk h n j r s env t rest :
  own_hello c h -> e_unix env = Some t -> n < 3 -> cookie_okb s h ip t = false ->
  exchange c vk hw ip (mk_loop h n j r) s None (env :: rest) =
  exchange c vk hw ip (mk_loop (set_cookie h (Some (cookie_for (master_secret s) ip (t / 3600) (t / 300)))) (n + 1) j r) s None rest.
Proof.
  intros Ho Ht Hn Hck. set (st := mk_loop h n j r). cbn [exchange]. rewrite (client_send_own st Ho).
  destruct (own_hello_readable _ _ _ _ _ _ _ Hc Hnonce Ho) as [Hf Hw]. destruct (hello_reads h Hf Hw) as (_ & Hlen & Hfrom).
  unfold listen. change (cl_hello st) with h. rewrite Hlen, Hfrom, Ht, udp_admit_value, Hck. cbn [negb].
  set (q := mk_retry None (Some (cookie_for (master_secret s) ip (t / 3600) (t / 300)))).
  destruct (reply_reads (ReplyRetry q)) as (b & -> & Hback). { split; [done|]. apply cookie_for_fits. }
  by erewrite client_retry; [|done..].
Qed.

(** With a good cookie it commits the slot and hands the hello over. *)
Lemma round_commit vk h n j r s env t rest :
  own_hello c h -> e_unix env = Some t -> cookie_okb s h ip t = true ->
  exchange c vk hw ip (mk_loop h n j r) s None (env :: rest) = exchange c vk hw ip (mk_loop h n j r) s (Some (mk_conn 0 None)) (env :: rest).
Proof.
  intros Ho Ht Hck. cbn [exchange]. rewrite client_send_own by done. cbn [cl_hello].
  destruct (own_hello_readable _ _ _ _ _ _ _ Hc Hnonce Ho) as [Hf Hw]. destruct (hello_reads h Hf Hw) as (_ & Hlen & Hfrom).
  unfold listen. by rewrite Hlen, Hfrom, Ht, udp_admit_value, Hck.
Qed.

Lemma round_retry vk h n j r s k env t d h' rest :
  own_hello c h -> e_unix env = Some t -> priced s k ip t d -> 0 <= d <= 255 -> sc_retry_rounds k < 3 -> n < 3 ->
  cookie_okb s h ip t && pow_okb s h d ip t = false -> apply_retry h (retry_for s h d ip t) = Ok h' ->
  exchange c vk hw ip (mk_loop h n j r) s (Some k) (env :: rest) =
  exchange c vk hw ip (mk_loop h' (n + 1) j r) (record_handshake s (Some t)) (Some (mk_conn (sc_retry_rounds k + 1) (Some d))) rest.
Proof.
  intros Ho Ht Hp Hd Hk Hn Hg Ha. destruct (drive_retry s k h env t d Ho Ht Hp Hd Hk Hg) as (b & Hb & Hs).
  cbn [exchange]. rewrite client_send_own by done. cbn [cl_hello]. unfold listen. rewrite Hs. by erewrite client_retry; [|done..].
Qed.

Lemma round_success h n j r s k env t d rest :
  own_hello c h -> serves hw env t -> priced s k ip t d -> hs_verifying_key s = verifying_key (signing_key s) ->
  cookie_okb s h ip t && pow_okb s h d ip t = true ->
  ∃ csess ssess init s', exchange c (hs_verifying_key s) hw ip (mk_loop h n j r) s (Some k) (env :: rest) = Joined csess None ssess None n s' ∧
    peers init csess ssess ∧ resumption_hint csess = resumption_hint ssess.
Proof.
  intros Ho Hsv Hp Hvk Hg. destruct (drive_success s k h env t d Ho Hsv Hp Hvk Hg) as (b & sh & session & s2 & Hb & Hproc & Hs).
  destruct (own_hello_fields c h Ho) as (Hkp & _ & _ & _ & _ & _ & _ & He).
  destruct (handshake_agrees _ _ _ _ _ c s s2 h d ip env hw (e_now env) sh session None Hc Hkp Hvk (proj1 (proj2 Hsv)) Hproc)
    as (csess & c' & init & Hps & _ & Hpe & Hhint & _).
  eexists csess, session, init, _. split; [|done]. cbn [exchange]. rewrite client_send_own by done. cbn [cl_hello]. unfold listen. rewrite Hs.
  unfold client_receive. cbn [cl_hello]. rewrite Hb, Hps, He. done.
Qed.
End Together.

Section Connects.
Context `{PrimitiveLaws, PowHash, !PowHashLaws, !Borsh, !HybridPrims, !HandshakeHash, !BorshLaws, !HybridLaws, !HandshakeHashLaws}.

Lemma gate_first s h d ip t : ch_cookie h = None -> cookie_okb s h ip t && pow_okb s h d ip t = false.
Proof. intros E. unfold cookie_okb. by rewrite E. Qed.

(** The hello after a first retry that brings both the cookie and, if there is a price,
    the challenge. *)
Lemma first_retry s h d ip t :
  ch_cookie h = None -> pow_solution h = None -> 0 <= d <= 255 ->
  (0 < d -> ∃ sol, solve_capped (new_stateless d ip (hour_secret (master_secret s) (t / 3600)) t) MAX_CLIENT_POW_DIFFICULTY = Ok sol) ->
  ∃ h', apply_retry h (retry_for s h d ip t) = Ok h' ∧ ∀ c, own_hello c h -> own_hello c h' ∧
    ∀ t', 0 <= t < 2 ^ 64 - 120 -> t <= t' <= t + 120 -> cookie_okb s h' ip t' && pow_okb s h' d ip t' = true.
Proof.
  intros Hc Hp Hd Hsol. assert (Hno : cookie_okb s h ip t = false) by (unfold cookie_okb; by rewrite Hc).
  unfold apply_retry, retry_for, challenge_for. rewrite Hp, Hno. cbn [rq_challenge rq_cookie].
  destruct (Z.ltb_spec 0 d) as [Hpos|].
  - destruct (Hsol Hpos) as [sol Hs]. rewrite Hs. eexists. split; [done|]. intros c Ho. split.
    { eapply own_set_solution; [|exact Hs]. by apply own_set_cookie. }
    intros t' Ht Ht'. rewrite (cookie_okb_fresh s _ ip t t') by (done || lia). by rewrite (pow_okb_fresh s _ d ip t t' sol).
  - eexists. split; [done|]. intros c Ho. split; [by apply own_set_cookie|].
    intros t' Ht Ht'. rewrite (cookie_okb_fresh s _ ip t t') by (done || lia). unfold pow_okb. by rewrite (proj2 (Z.leb_le d 0)).
Qed.

(** With a committed slot, a good cookie and a price: the challenge, the cookie again, the session. *)
Lemma priced_rounds sk seed ed ml nonce c s ip hw h2 env2 env3 env4 t2 t3 t4 d :
  client_new sk seed ed ml (Some nonce) = Ok c -> bytes32 nonce -> hs_verifying_key s = verifying_key (signing_key s) ->
  serves hw env2 t2 -> serves hw env3 t3 -> serves hw env4 t4 -> 0 <= t2 -> t2 <= t3 -> t3 <= t4 -> t4 <= t2 + 120 -> t4 < 2 ^ 64 - 240 ->
  own_hello c h2 -> pow_solution h2 = None -> cookie_okb s h2 ip t2 = true -> price s ip t2 = d -> 0 < d -> d <= 20 ->
  (0 < d -> ∃ sol, solve_capped (new_stateless d ip (hour_secret (master_secret s) (t2 / 3600)) t2) MAX_CLIENT_POW_DIFFICULTY = Ok sol) ->
  ∃ csess ssess init s',
    exchange c (hs_verifying_key s) hw ip (mk_loop h2 1 0 None) s (Some (mk_conn 0 None)) [env2; env3; env4] = Joined csess None ssess None 3 s' ∧
    peers init csess ssess ∧ resumption_hint csess = resumption_hint ssess.
Proof.
  intros Hc Hn Hvk S2 S3 S4 I2 I3 I4 I5 I6 Ho2 Hns Hck Hp Hpos Hd Hsol.
  destruct (Hsol Hpos) as [sol Hs].
  rewrite (round_retry sk seed ed ml nonce c hw ip Hc Hn _ h2 1 0 None s (mk_conn 0 None) env2 t2 d (set_solution (set_cookie h2 None) sol));
    [|done|apply S2|done|lia|done|lia| |]; cycle 1.
  { unfold pow_okb. rewrite Hns. rewrite (proj2 (Z.leb_gt d 0)) by done. by rewrite andb_false_r. }
  { unfold apply_retry, retry_for, challenge_for. rewrite Hck, Hns. cbn [rq_challenge rq_cookie].
    rewrite (proj2 (Z.ltb_lt 0 d)) by done. by rewrite Hs. }
  set (h3 := set_solution _ _). set (s2 := record_handshake s (Some t2)). destruct (record_same s (Some t2)) as (K2 & V2 & M2 & _). fold s2 in K2, V2, M2.
  assert (Ho3 : own_hello c h3) by (eapply own_set_solution; [by apply own_no_cookie|exact Hs]).
  rewrite (round_retry sk seed ed ml nonce c hw ip Hc Hn _ h3 2 0 None s2 (mk_conn 1 (Some d)) env3 t3 d
    (set_cookie h3 (Some (cookie_for (master_secret s2) ip (t3 / 3600) (t3 / 300))))); [|done|apply S3|done|lia|done|lia|by apply gate_first|done].
  set (h4 := set_cookie _ _). set (s3 := record_handshake s2 (Some t3)). destruct (record_same s2 (Some t3)) as (K3 & V3 & M3 & _). fold s3 in K3, V3, M3.
  rewrite <- V2, <- V3.
  apply (round_success sk seed ed ml nonce c hw ip Hc Hn h4 3 0 None s3 (mk_conn 2 (Some d)) env4 t4 d);
    [by apply own_set_cookie|done|done|by rewrite V3, V2, K3, K2|].
  rewrite (cookie_okb_fresh s3 h4 ip t3 t4) by (by rewrite ?M3 || lia).
  rewrite (pow_okb_fresh s3 h4 d ip t2 t4 sol); [done|lia|lia|done|]. rewrite M3, M2. exact Hs.
Qed.

End Connects.

(** ** A concrete connection: UDP under load *)

Section Toy.
#[local] Existing Instance toy_primitives.
#[local] Existing Instance toy_hash.
#[local] Existing Instance borsh_by_format.
#[local] Existing Instance borsh_by_format_laws.
#[local] Existing Instance toy_hybrid.
#[local] Existing Instance toy_handshake_hash.

Definition busy_server : HandshakeServer := set_load toy_server 150 1000.
Definition env_at (t : Z) : HsEnv := mk_env (Some t) 0 (mk_caps true) [9] [10] (Some (replicate 32 11)) true.

Lemma toy_serves t : serves (mk_caps true) (env_at t) t.
Proof. split; [done|]. split; [done|]. eexists. split; [done|]. split; [done|]. unfold is_bytes, is_byte. repeat constructor; done. Qed.

Lemma busy_price : price busy_server toy_ip 1001 = 4.
Proof. reflexivity. Qed.

Lemma busy_solvable :
  ∃ sol, solve_capped (new_stateless 4 toy_ip (hour_secret (master_secret busy_server) (1001 / 3600)) 1001) MAX_CLIENT_POW_DIFFICULTY = Ok sol.
Proof. eexists. vm_compute. reflexivity. Qed.

End Toy.
