(* ===== verification/ZeroRtt.v ===== *)
(** * Resumption with 0-RTT data (the resumption path of
      [core/src/transport/handshake.rs] under the loops of [Connect]) *)

From Stdlib Require Import ZArith Lia String.
From stdpp Require Import base numbers option list gmap.
From S2P Require Import Prelude Errors Crypto Session SessionCache Pow Reputation HandshakeWire Hybrid Handshake HandshakeGate Connect.

Local Open Scope Z_scope.
Local Open Scope phantom_scope.

Section ZeroRtt.
Context `{PrimitiveLaws, PowHash, !PowHashLaws, !Borsh, !HybridPrims, !HandshakeHash, !BorshLaws, !HybridLaws, !HandshakeHashLaws}.

Lemma early_data_roundtrip secret nonce rid data :
  len data <= EARLY_DATA_MAX_LEN ->
  ∃ blob, seal_early_data secret nonce rid data = Some blob ∧ decrypt_early_data secret nonce rid blob = Some data ∧
    len blob <= EARLY_DATA_SEALED_MAX_LEN.
Proof.
  intros Hl. unfold seal_early_data, decrypt_early_data, with_suite, with_suite_peer.
  destruct (derive_early_data_keying secret nonce) as [key n]. cbn [guard_suite_under_fips].
  assert (Hg : guard_suite_under_fips Aes256Gcm = Ok ()) by (unfold guard_suite_under_fips; by destruct fips). rewrite Hg, !build_ok. cbn [encrypt_with_nonce].
  unfold encrypt_with_nonce, decrypt_with_nonce. cbn [send_counter recv_counter suite send_key recv_key].
  destruct (seal_total Aes256Gcm (derive_key_32 (send_label Aes256Gcm) key) n (rid ++ nonce) data) as [ct Hct].
  { unfold EARLY_DATA_MAX_LEN in Hl. lia. }
  rewrite Hct. cbn [ok_or]. exists ct. split; [done|]. pose proof (seal_length _ _ _ _ _ _ Hct) as Hs.
  rewrite (proj2 (Z.ltb_ge _ _)) by (unfold EARLY_DATA_SEALED_MAX_LEN; lia). rewrite (open_seal _ _ _ _ _ _ Hct).
  split; [done|]. unfold EARLY_DATA_SEALED_MAX_LEN. lia.
Qed.

Context (sk seed ed ml nonce : list Z) (c : HandshakeClient) (hw : HwCaps) (ip : IpAddr) (rid : list Z) (t : ResumptionTicket) (data : list Z).
Context (Hc : client_new sk seed ed ml (Some nonce) = Ok c) (Hdata : data ≠ []) (Hlen : len data <= EARLY_DATA_MAX_LEN).

(** A hello that presents the ticket and carries the data. *)
Definition resuming (h : ClientHello) : Prop :=
  offer h = offer (first_hello c (Some (rid, t_secret t, data))) ∧ fits c_hello h.

(** A server that would honour it. *)
Definition holds_ticket (s : HandshakeServer) (env : HsEnv) : Prop :=
  hs_verifying_key s = verifying_key (signing_key s) ∧ early_data_enabled s = true ∧
  tickets (session_cache s) !! rid = Some t ∧ e_now env < expires_at t ∧ (anti_replay s = true -> e_first_use env = true).

Lemma resuming_fields h : resuming h ->
  client_key_package h = kem_public c ∧ client_verify_key h = hc_verifying_key c ∧ ch_nonce h = hc_nonce c ∧ ch_version h = PROTOCOL_VERSION ∧
  resume_session_id h = Some rid ∧ resumption_binder h = Some (derive_resumption_binder (t_secret t) rid (hc_nonce c)) ∧
  ch_variant h = PROTOCOL_VARIANT ∧ ch_early_data h = seal_early_data (t_secret t) (hc_nonce c) rid data.
Proof.
  intros [E _]. unfold first_hello in E. destruct data as [|x l] eqn:Ed; [done|]. rewrite <- Ed in *.
  unfold offer in E. cbn in E. by injection E as -> -> -> -> -> -> -> ->.
Qed.

Lemma resuming_readable h : resuming h -> within_bounds h = true.
Proof.
  intros Hr. destruct (resuming_fields h Hr) as (E1 & E2 & _ & _ & _ & _ & E7 & E8).
  destruct (early_data_roundtrip (t_secret t) (hc_nonce c) rid data Hlen) as (blob & Hb & _ & Hbl).
  unfold client_new, kem_generate in Hc. pose proof (mlkem_ek_length seed) as Hl. pose proof (mlkem_ek_bytes seed) as [_ Hm].
  destruct (mlkem_keypair seed) as [dk ek]. cbn in Hc, Hl. injection Hc as <-.
  unfold within_bounds. rewrite E1, E2, E7, E8, Hb, (proj2 (Z.leb_le (len blob) _)) by done. cbn.
  rewrite (proj2 (Z.leb_le _ _)) by (unfold len; lia). unfold len. rewrite mldsa_public_length.
  rewrite (proj2 (Z.leb_le _ _)) by apply (mldsa_public_bytes ml). unfold PROTOCOL_VARIANT. by destruct fips.
Qed.

Lemma peek_held s env : holds_ticket s env -> peek (session_cache s) rid (e_now env) = (Some t, session_cache s).
Proof.
  intros (_ & _ & Hl & Hn & _). unfold peek, is_valid. rewrite Hl. by rewrite (proj2 (Z.ltb_lt _ _)).
Qed.

Lemma set_cache_same s : set_session_cache s (session_cache s) = s.
Proof. by destruct s. Qed.

Lemma demand_resuming s h env : resuming h -> holds_ticket s env -> ∃ d, demand s (mk_conn 0 None) h ip env = (d, s).
Proof.
  intros Hr Hs. destruct (resuming_fields h Hr) as (_ & _ & E3 & _ & E5 & E6 & _). unfold demand, has_valid_resume. cbn [demanded_difficulty].
  rewrite E5, E6, (peek_held s env Hs), set_cache_same. by eexists.
Qed.

(** The ticket opens the gate at any price, and is gone. *)
Lemma process_resuming s h env n d :
  resuming h -> holds_ticket s env -> serves hw env n ->
  ∃ sh session s2, process_client_hello s h d ip env = (Success sh session (Some data), s2) ∧ fits c_shello sh ∧
    (tickets (session_cache s2) !! rid = None ∨ sess_id session = rid).
Proof.
  intros Hr Hs Hsv. destruct (resuming_fields h Hr) as (E1 & _ & E3 & E4 & E5 & E6 & E7 & E8).
  destruct (early_data_roundtrip (t_secret t) (hc_nonce c) rid data Hlen) as (blob & Hb & Hd & _).
  pose proof (proj1 Hsv) as Hun. destruct (record_same s (Some n)) as (K0 & V0 & M0 & C0 & D0 & A0).
  set (s0 := record_handshake s (Some n)) in *.
  assert (Hs0 : holds_ticket s0 env) by (unfold holds_ticket; by rewrite K0, V0, C0, D0, A0).
  set (s1 := set_session_cache s0 (remove (session_cache s0) rid).2).
  assert (Hcons : consume_ticket s0 h env = (Some (rid, t), s1)).
  { unfold consume_ticket. rewrite E5, E6, E3, (peek_held s0 env Hs0), bool_decide_eq_true_2 by done. cbn [negb]. unfold remove.
    destruct Hs0 as (_ & _ & -> & _ & Hf). cbn [negb bool_decide]. rewrite bool_decide_eq_true_2 by done. cbn [negb].
    destruct (anti_replay s0); [by rewrite Hf|done]. }
  destruct (answer_total sk seed ed ml nonce c s1 h (Some data) env hw n) as (sh & session & s2 & Ha & Hsh);
    [done|done|apply Hr|apply Hs0|done|].
  exists sh, session, s2. split; [|split; [done|]].
  - unfold process_client_hello. rewrite E7, E4, bool_decide_eq_true_2 by done. cbn [negb]. rewrite Z.eqb_refl. cbn [negb].
    rewrite Hun. fold s0. rewrite Hcons, gate_value. cbn [orb]. unfold early_data_of. change (early_data_enabled s1) with (early_data_enabled s0).
    rewrite D0, (proj1 (proj2 Hs)), E8, Hb, E3, Hd. by rewrite Ha.
  - destruct (answer_inv _ _ _ _ _ _ _ Ha) as (ss & ct & nn & hash & _ & _ & _ & _ & _ & _ & -> & ->). cbn.
    destruct (decide (derive_session_id ss (ch_nonce h) = rid)) as [E|E]; [by right|left].
    unfold store. destruct (is_disabled _); [apply lookup_delete_eq|].
    destruct (tickets (put_ticket _ _ _ _) !! rid) as [x|] eqn:Ex; [|done].
    apply put_lookup in Ex as [[? _]|Ex]; [done|]. cbn in Ex. by rewrite lookup_delete_eq in Ex.
Qed.

Lemma resuming_sent st : resuming (cl_hello st) ->
  client_send st (Ok ()) = Ok (enc c_hello (cl_hello st)) ∧ client_hello_lengths_within_bounds (enc c_hello (cl_hello st)) = true ∧
  hello_from_slice (enc c_hello (cl_hello st)) = Some (cl_hello st).
Proof.
  intros Hr. destruct (hello_reads _ (proj2 Hr) (resuming_readable _ Hr)) as (Hto & Hl & Hfrom).
  unfold client_send. by rewrite Hto.
Qed.

Lemma resuming_set_cookie h k : resuming h -> bytes32 k -> resuming (set_cookie h (Some k)).
Proof.
  intros [E Hf] Hk. split; [exact E|]. destruct Hf as (F1 & F2 & F3 & F4 & _ & F6).
  split; [exact F1|]. split; [exact F2|]. split; [exact F3|]. split; [exact F4|]. split; [exact Hk|]. exact F6.
Qed.

Definition joined_with_data (r : Exchange) (rounds : Z) : Prop :=
  ∃ csess ssess init s', r = Joined csess (Some true) ssess (Some data) rounds s' ∧ peers init csess ssess ∧
    (tickets (session_cache s') !! rid = None ∨ sess_id ssess = rid).

Lemma resume_round st s env n rest :
  resuming (cl_hello st) -> holds_ticket s env -> serves hw env n ->
  joined_with_data (exchange c (hs_verifying_key s) hw ip st s (Some (mk_conn 0 None)) (env :: rest)) (retry_rounds st).
Proof.
  intros Hr Hs Hsv. destruct (resuming_sent st Hr) as (Hsend & Hl & Hfrom).
  destruct (demand_resuming s _ env Hr Hs) as [d Hd].
  destruct (process_resuming s _ env n d Hr Hs Hsv) as (sh & session & s2 & Hp & Hsh & Ht).
  destruct (reply_reads (ReplyHello sh) Hsh) as (b & Hto & Hback). destruct (resuming_fields _ Hr) as (Hkp & _ & _ & _ & _ & _ & _ & He).
  destruct (handshake_agrees _ _ _ _ _ c s s2 _ d ip env hw (e_now env) sh session _ Hc Hkp (proj1 Hs) (proj1 (proj2 Hsv)) Hp)
    as (csess & c' & init & Hps & _ & Hpe & _).
  destruct (early_data_roundtrip (t_secret t) (hc_nonce c) rid data Hlen) as (blob & Hblob & _).
  exists csess, session, init, (set_reputation s2 (reset_violations (reputation s2) ip)). split; [|by split].
  cbn [exchange]. rewrite Hsend. unfold listen, server_receive. rewrite Hl, Hfrom. cbn [negb]. rewrite Hd, Hp.
  unfold respond, send_reply. rewrite Hto. unfold client_receive. rewrite Hback, Hps, He, Hblob. done.
Qed.
End ZeroRtt.

Section Property.
Context `{PrimitiveLaws, PowHash, !PowHashLaws, !Borsh, !HybridPrims, !HandshakeHash, !BorshLaws, !HybridLaws, !HandshakeHashLaws}.

End Property.

Section Toy.
#[local] Existing Instance toy_primitives.
#[local] Existing Instance toy_hash.
#[local] Existing Instance borsh_by_format.
#[local] Existing Instance borsh_by_format_laws.
#[local] Existing Instance toy_hybrid.
#[local] Existing Instance toy_handshake_hash.

Definition toy_rid : list Z := replicate 32 1.
Definition toy_ticket : ResumptionTicket := ticket_new (replicate 32 2) Aes256Gcm (ticket_lifetime (session_cache busy_server)) 0.
Definition ticket_server : HandshakeServer :=
  set_session_cache busy_server (store (session_cache busy_server) toy_rid (replicate 32 2) Aes256Gcm 0).

Lemma toy_resume_fits : fits c_hello (first_hello toy_client (Some (toy_rid, t_secret toy_ticket, [1; 2; 3]))).
Proof. cbn. unfold is_bytes, is_byte. vm_compute. repeat constructor; discriminate. Qed.

Lemma toy_holds n : holds_ticket toy_rid toy_ticket ticket_server (env_at n).
Proof. by vm_compute. Qed.

End Toy.
