(* ===== verification/Routes.v ===== *)
(** * The demultiplexer's tables ([RouteTable], [FlightTable] and [PendingByIp] of
      [core/src/api/udp_listener.rs])

    A connection id is its bytes, a channel and a session identity are numbers.  Whether
    a channel is closed is asked of the environment ([closed]), as is whether the session
    behind a retained flight has been heard from ([heard]); the clock is an argument, in
    nanoseconds. *)

From Stdlib Require Import ZArith Lia.
From stdpp Require Import base numbers option list gmap.
From S2P Require Import Prelude Crypto Cid SessionCache Reputation Handshake.

Local Open Scope Z_scope.
Local Open Scope phantom_scope.

Definition ConnId : Type := list Z.
Definition SocketAddr : Type := IpAddr * Z.

Definition MAX_ROUTES : Z := 2 ^ 18.

(** ** Routes *)

Record RouteEntry := mk_route { r_tx : Z; r_owner : Z }.

Record RouteTable := mk_routes {
  routes : gmap ConnId RouteEntry;
  owned : gmap Z (list ConnId);
  gauge : Z;
}.

Definition routes_new : RouteTable := mk_routes ∅ ∅ 0.

Definition route_count (t : RouteTable) : Z := Z.of_nat (size (routes t)).

Definition routes_sync (t : RouteTable) : RouteTable := mk_routes (routes t) (owned t) (route_count t).

Definition get_route (t : RouteTable) (cid : ConnId) : option Z := r_tx <$> routes t !! cid.

Definition forget_owned (m : gmap Z (list ConnId)) (owner : Z) (cid : ConnId) : gmap Z (list ConnId) :=
  match m !! owner with
  | Some cids =>
    match filter (λ c, c ≠ cid) cids with
    | [] => delete owner m
    | kept => <[owner := kept]> m
    end
  | None => m
  end.

Definition insert_route (t : RouteTable) (cid : ConnId) (tx owner : Z) : RouteTable :=
  let o := match routes t !! cid with Some previous => forget_owned (owned t) (r_owner previous) cid | None => owned t end in
  mk_routes (<[cid := mk_route tx owner]> (routes t)) (<[owner := default [] (o !! owner) ++ [cid]]> o) (gauge t).

Definition remove_route (t : RouteTable) (cid : ConnId) : RouteTable :=
  match routes t !! cid with
  | Some e => mk_routes (delete cid (routes t)) (forget_owned (owned t) (r_owner e) cid) (gauge t)
  | None => t
  end.

Section Routes.
Variable closed : Z -> bool.

Definition dead (e : RouteEntry) : bool := closed (r_tx e).

Definition reap_dead (t : RouteTable) : RouteTable :=
  let gone := (filter (λ x, dead x.2 = true) (map_to_list (routes t))).*1 in
  routes_sync (foldl remove_route t gone).

Definition try_insert (t : RouteTable) (cid : ConnId) (tx owner : Z) : bool * RouteTable :=
  let go :=
    let t1 := if MAX_ROUTES <=? route_count t then reap_dead t else t in
    if (MAX_ROUTES <=? route_count t) && (MAX_ROUTES <=? route_count t1) then (false, t1)
    else (true, routes_sync (insert_route t1 cid tx owner)) in
  match routes t !! cid with
  | Some e => if r_owner e =? owner then (true, t) else if negb (dead e) then (false, t) else go
  | None => go
  end.

Definition remove_if_dead (t : RouteTable) (cid : ConnId) : RouteTable :=
  match routes t !! cid with
  | Some e => if dead e then routes_sync (remove_route t cid) else t
  | None => t
  end.

(** [deliver]: the frame comes back when nothing routes for the id; [sent] is the
    outcome of [try_send]. *)
Definition deliver_route (t : RouteTable) (cid : ConnId) (frame : list Z) (sent : bool) : option (list Z) * RouteTable :=
  match get_route t cid with
  | None => (Some frame, t)
  | Some tx => (None, if negb sent && closed tx then remove_if_dead t cid else t)
  end.

Definition register_window (t : RouteTable) (cids : list ConnId) (tx owner : Z) : RouteTable :=
  foldl (λ t cid, (try_insert t cid tx owner).2) t cids.

Definition apply_slide (t : RouteTable) (s : CidSlide) : RouteTable :=
  match routes t !! slide_anchor s with
  | None => t
  | Some e =>
    let t1 := register_window t (slide_add s) (r_tx e) (r_owner e) in
    routes_sync (foldl remove_route t1 (slide_remove s))
  end.

Definition retire_session (t : RouteTable) (owner : Z) : RouteTable :=
  match owned t !! owner with
  | None => t
  | Some cids => routes_sync (mk_routes (foldl (λ m cid, delete cid m) (routes t) cids) (delete owner (owned t)) (gauge t))
  end.
End Routes.

(** ** Handshakes in flight, by source *)

Definition MAX_PENDING_PER_IP : Z := 64.

Abbreviation PendingByIp := (gmap IpAddr Z).

Definition pending_count (p : PendingByIp) (ip : IpAddr) : Z := default 0 (p !! ip).
Definition pending_admit (p : PendingByIp) (ip : IpAddr) : PendingByIp := <[ip := pending_count p ip + 1]> p.
Definition pending_release (p : PendingByIp) (ip : IpAddr) : PendingByIp :=
  match p !! ip with
  | Some c => if c - 1 =? 0 then delete ip p else <[ip := c - 1]> p
  | None => p
  end.

(** ** Retained replies *)

Definition MAX_FLIGHT_REPEATS : Z := 3.
Definition HANDSHAKE_FLIGHT_RETENTION : Z := 8 * 10 ^ 9.
Definition RETAINED_FLIGHT_BUDGET : Z := 8 * 1024 * 1024.
Definition FLIGHT_AMPLIFICATION_LIMIT : Z := 3.

(** [f_caps] are the capacities of the datagrams' buffers, [f_session] stands for the
    latch [delivered] that is shared with the session. *)
Record HandshakeFlight := mk_flight {
  f_datagrams : list (list Z);
  f_caps : list Z;
  f_peer : SocketAddr;
  f_question : list Z;
  f_wire_bytes : Z;
  f_question_wire_bytes : Z;
  f_session : Z;
}.

Record RetainedFlight := mk_retained { rf_flight : HandshakeFlight; repeats_left : Z; rf_expires_at : Z; charged_bytes : Z }.

Record FlightTable := mk_flights { flights : gmap ConnId RetainedFlight; retained_bytes : Z; occupancy : Z }.

Definition flights_new : FlightTable := mk_flights ∅ 0 0.
Definition flights_sync (t : FlightTable) : FlightTable := mk_flights (flights t) (retained_bytes t) (Z.of_nat (size (flights t))).

Definition forget (t : FlightTable) (cid : ConnId) : FlightTable :=
  match flights t !! cid with
  | Some e => mk_flights (delete cid (flights t)) (sat_sub (retained_bytes t) (charged_bytes e)) (occupancy t)
  | None => t
  end.

Section Flights.
(** [RETAINED_FLIGHT_ENTRY_OVERHEAD] and the size of a vector header, which the compiler
    computes from the layout of types. *)
Variables entry_overhead vec_size : Z.
Variable heard : Z -> bool.

Definition retained_cost (f : HandshakeFlight) : Z := entry_overhead + sum_Z ((λ c, c + vec_size) <$> f_caps f).

Definition stays (now : Z) (e : RetainedFlight) : bool := negb (heard (f_session (rf_flight e))) && (now <? rf_expires_at e).

Definition sweep (t : FlightTable) (now : Z) : FlightTable :=
  let kept := filter (λ x, stays now x.2 = true) (flights t) in
  flights_sync (mk_flights kept (sum_Z ((λ x, charged_bytes x.2) <$> map_to_list kept)) (occupancy t)).

(** [min_by_key] over the map: a first one with the least deadline. *)
Definition oldest (t : FlightTable) : option ConnId :=
  fst <$> foldl (λ best x, match best with
    | None => Some x
    | Some b => if rf_expires_at x.2 <? rf_expires_at b.2 then Some x else Some b
    end) None (map_to_list (flights t)).

(** The [while] loop of [retain]: at most one turn per entry. *)
Fixpoint evict_until (fuel : nat) (t : FlightTable) (cost : Z) : FlightTable :=
  match fuel with
  | O => t
  | S fuel =>
    if negb (bool_decide (flights t = ∅)) && (RETAINED_FLIGHT_BUDGET <? retained_bytes t + cost)
    then match oldest t with Some cid => evict_until fuel (forget t cid) cost | None => t end
    else t
  end.

Definition retain (t : FlightTable) (cid : ConnId) (f : HandshakeFlight) (now : Z) : bool * FlightTable :=
  if Z.min (u_max 64) (f_question_wire_bytes f * FLIGHT_AMPLIFICATION_LIMIT) <? f_wire_bytes f then (false, t)
  else
    let cost := retained_cost f in
    let t1 := forget t cid in
    let t2 := if RETAINED_FLIGHT_BUDGET <? retained_bytes t1 + cost then sweep t1 now else t1 in
    let t3 := evict_until (size (flights t2)) t2 cost in
    (true, flights_sync (mk_flights (<[cid := mk_retained f MAX_FLIGHT_REPEATS (now + HANDSHAKE_FLIGHT_RETENTION) cost]> (flights t3))
             (retained_bytes t3 + cost) (occupancy t3))).

Context `{HandshakeHash}.

Definition set_flight (t : FlightTable) (cid : ConnId) (e : RetainedFlight) : FlightTable :=
  mk_flights (<[cid := e]> (flights t)) (retained_bytes t) (occupancy t).

Definition repeat_flight (t : FlightTable) (cid : ConnId) (question : list Z) (now : Z) : option (list (list Z) * SocketAddr) * FlightTable :=
  match flights t !! cid with
  | None => (None, t)
  | Some e =>
    if negb (stays now e) then (None, flights_sync (forget t cid))
    else if negb (bool_decide (sha256 question = f_question (rf_flight e))) then (None, t)
    else
      let e' := mk_retained (rf_flight e) (repeats_left e - 1) (rf_expires_at e) (charged_bytes e) in
      let t1 := set_flight t cid e' in
      (Some (f_datagrams (rf_flight e), f_peer (rf_flight e)),
       flights_sync (if repeats_left e' =? 0 then forget t1 cid else t1))
  end.
End Flights.

(** ** The reverse index *)

Definition owned_of (m : gmap Z (list ConnId)) (owner : Z) : list ConnId := default [] (m !! owner).

(** The index lists, for each owner, its routes: each once, and no empty lists. *)
Record indexed (r : gmap ConnId RouteEntry) (m : gmap Z (list ConnId)) : Prop := {
  ix_exact o cid : cid ∈ owned_of m o <-> ∃ e, r !! cid = Some e ∧ r_owner e = o;
  ix_nodup o : NoDup (owned_of m o);
  ix_nonempty o : m !! o ≠ Some [];
}.

Record wf_routes (t : RouteTable) : Prop := {
  wr_index : indexed (routes t) (owned t);
  wr_gauge : gauge t = route_count t;
  wr_bound : route_count t <= MAX_ROUTES;
}.

Lemma forget_owned_of m owner cid o :
  owned_of (forget_owned m owner cid) o = if decide (o = owner) then filter (λ c, c ≠ cid) (owned_of m o) else owned_of m o.
Proof.
  unfold forget_owned, owned_of. destruct (m !! owner) as [cids|] eqn:E.
  - destruct (filter _ cids) as [|x l] eqn:F; destruct (decide (o = owner)) as [->|].
    + by rewrite lookup_delete_eq, E.
    + by rewrite lookup_delete_ne.
    + by rewrite lookup_insert_eq, E.
    + by rewrite lookup_insert_ne.
  - destruct (decide (o = owner)) as [->|]; [|done]. by rewrite E.
Qed.

Lemma forget_owned_nonempty m owner cid : (∀ o, m !! o ≠ Some []) -> ∀ o, forget_owned m owner cid !! o ≠ Some [].
Proof.
  intros Hm o. unfold forget_owned. destruct (m !! owner) as [cids|]; [|apply Hm].
  destruct (filter _ cids) as [|x l]; destruct (decide (o = owner)) as [->|].
  - by rewrite lookup_delete_eq.
  - rewrite lookup_delete_ne by done. apply Hm.
  - by rewrite lookup_insert_eq.
  - rewrite lookup_insert_ne by done. apply Hm.
Qed.

Lemma indexed_delete r m cid e :
  r !! cid = Some e -> indexed r m -> indexed (delete cid r) (forget_owned m (r_owner e) cid).
Proof.
  intros Hl Hi. split.
  - intros o x. rewrite forget_owned_of.
    assert (Hx : x ∈ owned_of m o <-> ∃ e', r !! x = Some e' ∧ r_owner e' = o) by apply Hi.
    destruct (decide (o = r_owner e)) as [->|Ho].
    + rewrite list_elem_of_filter, Hx. setoid_rewrite lookup_delete_Some. naive_solver.
    + rewrite Hx. setoid_rewrite lookup_delete_Some. split; [|naive_solver].
      intros (e' & He' & <-). exists e'. split; [|done]. split; [|done]. intros ->. congruence.
  - intros o. rewrite forget_owned_of. case_decide; [apply NoDup_filter|]; apply Hi.
  - apply forget_owned_nonempty, Hi.
Qed.

Lemma indexed_insert r m cid tx owner :
  r !! cid = None -> indexed r m ->
  indexed (<[cid := mk_route tx owner]> r) (<[owner := owned_of m owner ++ [cid]]> m).
Proof.
  intros Hl Hi. split.
  - intros o x. assert (Hx : x ∈ owned_of m o <-> ∃ e', r !! x = Some e' ∧ r_owner e' = o) by apply Hi.
    unfold owned_of at 1. destruct (decide (o = owner)) as [->|Ho].
    + rewrite lookup_insert_eq. cbn. rewrite elem_of_app, list_elem_of_singleton, Hx.
      destruct (decide (x = cid)) as [->|]; [rewrite lookup_insert_eq|rewrite lookup_insert_ne by done]; naive_solver.
    + rewrite lookup_insert_ne by done. fold (owned_of m o). rewrite Hx.
      destruct (decide (x = cid)) as [->|]; [rewrite lookup_insert_eq, Hl|rewrite lookup_insert_ne by done]; naive_solver.
  - intros o. unfold owned_of at 1. destruct (decide (o = owner)) as [->|Ho]; [|rewrite lookup_insert_ne by done; apply Hi].
    rewrite lookup_insert_eq. cbn. apply NoDup_app. split; [apply Hi|]. split; [|apply NoDup_singleton].
    intros x Hx [= ->]%list_elem_of_singleton. apply Hi in Hx as (e & He & _). congruence.
  - intros o. destruct (decide (o = owner)) as [->|Ho]; [rewrite lookup_insert_eq; by destruct (owned_of m owner)|].
    rewrite lookup_insert_ne by done. apply Hi.
Qed.

Lemma insert_route_index t cid tx owner :
  indexed (routes t) (owned t) -> indexed (routes (insert_route t cid tx owner)) (owned (insert_route t cid tx owner)).
Proof.
  intros Hi. unfold insert_route. cbn. destruct (routes t !! cid) as [e|] eqn:E.
  - rewrite <- insert_delete_eq. apply indexed_insert; [apply lookup_delete_eq|]. by apply indexed_delete.
  - by apply indexed_insert.
Qed.

Lemma remove_route_index t cid : indexed (routes t) (owned t) -> indexed (routes (remove_route t cid)) (owned (remove_route t cid)).
Proof. intros Hi. unfold remove_route. destruct (routes t !! cid) as [e|] eqn:E; [|done]. by apply indexed_delete. Qed.

Lemma remove_all_index cids : ∀ t, indexed (routes t) (owned t) ->
  indexed (routes (foldl remove_route t cids)) (owned (foldl remove_route t cids)).
Proof. induction cids as [|c cids IH]; intros t Hi; [done|]. by apply IH, remove_route_index. Qed.

Lemma remove_route_lookup t cid x : routes (remove_route t cid) !! x = if decide (x = cid) then None else routes t !! x.
Proof.
  unfold remove_route. destruct (routes t !! cid) as [e|] eqn:E; cbn; case_decide; subst; [apply lookup_delete_eq|by rewrite lookup_delete_ne|done..].
Qed.

Lemma remove_all_lookup cids x : ∀ t, routes (foldl remove_route t cids) !! x = if decide (x ∈ cids) then None else routes t !! x.
Proof.
  induction cids as [|c cids IH]; intros t; cbn [foldl]; [by rewrite decide_False by set_solver|].
  rewrite IH, remove_route_lookup. repeat case_decide; set_solver.
Qed.

Lemma routes_size_le (r r' : gmap ConnId RouteEntry) : r ⊆ r' -> Z.of_nat (size r) <= Z.of_nat (size r').
Proof. intros Hs. apply Nat2Z.inj_le, map_subseteq_size. done. Qed.

Lemma remove_all_sub cids t : routes (foldl remove_route t cids) ⊆ routes t.
Proof. apply map_subseteq_spec. intros i x. rewrite remove_all_lookup. by case_decide. Qed.

Lemma shrunk_wf t t' :
  wf_routes t -> indexed (routes t') (owned t') -> routes t' ⊆ routes t -> wf_routes (routes_sync t').
Proof.
  intros Hwf Hi Hs. split; [done|done|]. cbn. unfold route_count in *. pose proof (routes_size_le _ _ Hs). pose proof (wr_bound t Hwf) as Hb.
  unfold route_count in Hb. cbn. lia.
Qed.

Lemma retire_lookup t owner x e :
  wf_routes t -> (routes (retire_session t owner) !! x = Some e <-> routes t !! x = Some e ∧ r_owner e ≠ owner).
Proof.
  intros Hwf. unfold retire_session.
  assert (Hdel : ∀ cids (m : gmap ConnId RouteEntry), foldl (λ m cid, delete cid m) m cids !! x = if decide (x ∈ cids) then None else m !! x).
  { induction cids as [|c cids IH]; intros m; cbn [foldl]; [by rewrite decide_False by set_solver|].
    rewrite IH. destruct (decide (x = c)) as [->|]; [rewrite lookup_delete_eq|rewrite lookup_delete_ne by done]; repeat case_decide; set_solver. }
  pose proof (ix_exact _ _ (wr_index _ Hwf) owner x) as Hx. unfold owned_of in Hx.
  destruct (owned t !! owner) as [cids|]; cbn in *; [rewrite Hdel; case_decide as Hin|].
  - apply Hx in Hin as (e' & He' & Ho). naive_solver.
  - split; [|naive_solver]. intros He. split; [done|]. intros Ho. apply Hin, Hx. by exists e.
  - split; [|naive_solver]. intros He. split; [done|]. intros Ho. by destruct (not_elem_of_nil x); apply Hx; exists e.
Qed.

Lemma retire_wf t owner : wf_routes t -> wf_routes (retire_session t owner).
Proof.
  intros Hwf. pose proof (λ x e, retire_lookup t owner x e Hwf) as Hl. unfold retire_session in *.
  destruct (owned t !! owner) as [cids|] eqn:E; [|done]. apply (shrunk_wf t); [done| |].
  - cbn in Hl |- *. split.
    + intros o x. unfold owned_of. destruct (decide (o = owner)) as [->|Ho].
      * rewrite lookup_delete_eq. cbn. setoid_rewrite Hl. split; [by intros ?%not_elem_of_nil|naive_solver].
      * rewrite lookup_delete_ne by done. setoid_rewrite Hl. etransitivity; [apply (wr_index _ Hwf)|]. naive_solver.
    + intros o. unfold owned_of. destruct (decide (o = owner)) as [->|Ho]; [rewrite lookup_delete_eq; apply NoDup_nil_2|].
      rewrite lookup_delete_ne by done. apply (wr_index _ Hwf).
    + intros o. destruct (decide (o = owner)) as [->|Ho]; [by rewrite lookup_delete_eq|]. rewrite lookup_delete_ne by done. apply (wr_index _ Hwf).
  - cbn in Hl |- *. apply map_subseteq_spec. intros i x Hi. by apply Hl in Hi as [? _].
Qed.

Section Wf.
Variable closed : Z -> bool.

Lemma reap_lookup t x e : routes (reap_dead closed t) !! x = Some e <-> routes t !! x = Some e ∧ dead closed e = false.
Proof.
  unfold reap_dead. cbn. rewrite remove_all_lookup. case_decide as Hin.
  - split; [done|]. intros [He Hd]. apply list_elem_of_fmap in Hin as ([y e'] & -> & [Hd' Hl%elem_of_map_to_list]%list_elem_of_filter).
    cbn in *. congruence.
  - split; [|by intros [? _]]. intros He. split; [done|]. destruct (dead closed e) eqn:Hd; [|done]. exfalso. apply Hin.
    apply list_elem_of_fmap. exists (x, e). split; [done|]. apply list_elem_of_filter. split; [done|]. by apply elem_of_map_to_list.
Qed.

Lemma reap_wf t : wf_routes t -> wf_routes (reap_dead closed t).
Proof. intros Hwf. apply (shrunk_wf t); [done|apply remove_all_index, Hwf|apply remove_all_sub]. Qed.

Lemma insert_wf t cid tx owner : wf_routes t -> route_count t < MAX_ROUTES -> wf_routes (routes_sync (insert_route t cid tx owner)).
Proof.
  intros Hwf Hc. split; [apply insert_route_index, Hwf|done|]. unfold route_count in *. cbn -[Z.add].
  assert (size (<[cid := mk_route tx owner]> (routes t)) <= S (size (routes t)))%nat; [|lia].
  rewrite map_size_insert. destruct (routes t !! cid); cbn; lia.
Qed.

Lemma try_insert_wf t cid tx owner : wf_routes t -> wf_routes (try_insert closed t cid tx owner).2.
Proof.
  intros Hwf. unfold try_insert. set (go := if _ && _ then _ else _).
  assert (Hgo : wf_routes go.2).
  { subst go. destruct (Z.leb_spec MAX_ROUTES (route_count t)) as [Hm|Hm]; cbn [andb].
    - destruct (Z.leb_spec MAX_ROUTES (route_count (reap_dead closed t))); cbn [snd]; [by apply reap_wf|]. apply insert_wf; [by apply reap_wf|done].
    - by apply insert_wf. }
  destruct (routes t !! cid) as [e|]; [|done]. by repeat case_test.
Qed.

Lemma try_insert_keeps t cid tx owner x e :
  routes t !! x = Some e -> dead closed e = false -> routes (try_insert closed t cid tx owner).2 !! x = Some e.
Proof.
  intros He Hd. unfold try_insert. set (go := if _ && _ then _ else _).
  assert (Hr : routes (reap_dead closed t) !! x = Some e) by by apply reap_lookup.
  assert (Hgo : x ≠ cid -> routes go.2 !! x = Some e).
  { intros Hne. subst go. destruct (MAX_ROUTES <=? route_count t); cbn [andb]; [destruct (MAX_ROUTES <=? route_count (reap_dead closed t)); [done|]|];
      cbn; by rewrite lookup_insert_ne. }
  destruct (decide (x = cid)) as [->|Hne].
  - rewrite He. destruct (r_owner e =? owner); [done|]. by rewrite Hd.
  - destruct (routes t !! cid) as [e'|]; [|by apply Hgo]. repeat case_test; try done; by apply Hgo.
Qed.

Lemma try_insert_routes t cid tx owner :
  (try_insert closed t cid tx owner).1 = true -> ∃ e, routes (try_insert closed t cid tx owner).2 !! cid = Some e ∧ r_owner e = owner.
Proof.
  unfold try_insert. set (go := if _ && _ then _ else _).
  assert (Hgo : go.1 = true -> ∃ e, routes go.2 !! cid = Some e ∧ r_owner e = owner).
  { subst go. destruct (_ && _); [done|]. intros _. cbn. rewrite lookup_insert_eq. by eexists. }
  destruct (routes t !! cid) as [e|] eqn:E; [|done]. destruct (Z.eqb_spec (r_owner e) owner); [|by destruct (negb _)].
  intros _. by exists e.
Qed.

Lemma register_wf cids tx owner : ∀ t, wf_routes t -> wf_routes (register_window closed t cids tx owner).
Proof. induction cids as [|c cids IH]; intros t Hwf; [done|]. by apply IH, try_insert_wf. Qed.

Lemma register_keeps cids tx owner x e : ∀ t,
  routes t !! x = Some e -> dead closed e = false -> routes (register_window closed t cids tx owner) !! x = Some e.
Proof. induction cids as [|c cids IH]; intros t He Hd; [done|]. apply IH; [|done]. by apply try_insert_keeps. Qed.

Lemma remove_if_dead_wf t cid : wf_routes t -> wf_routes (remove_if_dead closed t cid).
Proof.
  intros Hwf. unfold remove_if_dead. destruct (routes t !! cid); [|done]. case_test; [|done].
  apply (shrunk_wf t); [done|apply remove_route_index, Hwf|apply (remove_all_sub [cid])].
Qed.

Lemma remove_if_dead_keeps t cid x e :
  routes t !! x = Some e -> dead closed e = false -> routes (remove_if_dead closed t cid) !! x = Some e.
Proof.
  intros He Hd. unfold remove_if_dead. destruct (routes t !! cid) as [e'|] eqn:E; [|done]. case_test; [|done]. cbn.
  rewrite remove_route_lookup. case_decide; [|done]. congruence.
Qed.

Lemma slide_wf t s : wf_routes t -> wf_routes (apply_slide closed t s).
Proof.
  intros Hwf. unfold apply_slide. destruct (routes t !! slide_anchor s) as [e|]; [|done].
  pose proof (register_wf (slide_add s) (r_tx e) (r_owner e) t Hwf) as Hr.
  apply (shrunk_wf (register_window closed t (slide_add s) (r_tx e) (r_owner e))); [done|apply remove_all_index, Hr|apply remove_all_sub].
Qed.

Lemma slide_keeps t s x e :
  routes t !! x = Some e -> dead closed e = false -> x ∉ slide_remove s -> routes (apply_slide closed t s) !! x = Some e.
Proof.
  intros He Hd Hx. unfold apply_slide. destruct (routes t !! slide_anchor s) as [a|]; [|done]. cbn.
  rewrite remove_all_lookup, decide_False by done. by apply register_keeps.
Qed.
End Wf.

(** ** Runs of the route table *)

Inductive route_op :=
| RInsert (cid : ConnId) (tx owner : Z)
| RDeliver (cid : ConnId) (frame : list Z) (sent : bool)
| RIfDead (cid : ConnId)
| RReap
| RRegister (cids : list ConnId) (tx owner : Z)
| RSlide (s : CidSlide)
| RRetire (owner : Z).

(** An operation, and which channels are closed when it runs. *)
Definition route_exec (t : RouteTable) (x : (Z -> bool) * route_op) : RouteTable :=
  let '(closed, o) := x in
  match o with
  | RInsert cid tx owner => (try_insert closed t cid tx owner).2
  | RDeliver cid frame sent => (deliver_route closed t cid frame sent).2
  | RIfDead cid => remove_if_dead closed t cid
  | RReap => reap_dead closed t
  | RRegister cids tx owner => register_window closed t cids tx owner
  | RSlide s => apply_slide closed t s
  | RRetire owner => retire_session t owner
  end.

Definition route_run (t : RouteTable) (l : list ((Z -> bool) * route_op)) : RouteTable := foldl route_exec t l.

(** The operation neither ends the session of [e] nor names [cid] among ids to drop, and
    the channel of [e] is open. *)
Definition spares (cid : ConnId) (e : RouteEntry) (x : (Z -> bool) * route_op) : Prop :=
  x.1 (r_tx e) = false ∧ match x.2 with RRetire o => o ≠ r_owner e | RSlide s => cid ∉ slide_remove s | _ => True end.

Lemma route_exec_wf t x : wf_routes t -> wf_routes (route_exec t x).
Proof.
  intros Hwf. destruct x as [closed []]; cbn.
  - by apply try_insert_wf.
  - unfold deliver_route. destruct (get_route _ _); [|done]. cbn. case_test; [by apply remove_if_dead_wf|done].
  - by apply remove_if_dead_wf.
  - by apply reap_wf.
  - by apply register_wf.
  - by apply slide_wf.
  - by apply retire_wf.
Qed.

Lemma route_run_wf l : ∀ t, wf_routes t -> wf_routes (route_run t l).
Proof. induction l as [|x l IH]; intros t Hwf; [done|]. by apply IH, route_exec_wf. Qed.

Lemma routes_new_wf : wf_routes routes_new.
Proof.
  split; [|done|done]. split.
  - intros o cid. cbn. unfold owned_of. rewrite lookup_empty. split; [by intros ?%not_elem_of_nil|]. intros (e & He & _). by rewrite lookup_empty in He.
  - intros o. unfold owned_of. cbn. rewrite lookup_empty. apply NoDup_nil_2.
  - intros o. cbn. by rewrite lookup_empty.
Qed.

Lemma route_exec_keeps t cid e x : wf_routes t -> routes t !! cid = Some e -> spares cid e x -> routes (route_exec t x) !! cid = Some e.
Proof.
  intros Hwf He [Hc Hs]. destruct x as [closed []]; cbn in *.
  - by apply try_insert_keeps.
  - unfold deliver_route. destruct (get_route _ _); [|done]. cbn. case_test; [by apply remove_if_dead_keeps|done].
  - by apply remove_if_dead_keeps.
  - by apply reap_lookup.
  - by apply register_keeps.
  - by apply slide_keeps.
  - apply retire_lookup; [done|]. split; [done|]. congruence.
Qed.

Lemma route_run_keeps cid e l : ∀ t, wf_routes t -> routes t !! cid = Some e -> Forall (spares cid e) l -> routes (route_run t l) !! cid = Some e.
Proof.
  induction l as [|x l IH]; intros t Hwf He Hl; [done|]. apply Forall_cons in Hl as [Hx Hl].
  apply IH; [by apply route_exec_wf|by apply route_exec_keeps|done].
Qed.


(** The ids a slide drops are not checked to belong to the session that slides: a slide
    anchored at one session's route removes another's, whose channel is open. *)
Theorem slide_drops_foreign_route :
  let t := route_run routes_new [(λ _, false, RInsert [1] 10 100); (λ _, false, RInsert [2] 20 200)] in
  routes t !! [2] = Some (mk_route 20 200) ∧ routes (apply_slide (λ _, false) t (mk_slide [] [[2]] [1])) !! [2] = None.
Proof. by vm_compute. Qed.

(** ** The retained replies *)

Definition charges (m : gmap ConnId RetainedFlight) : Z := sum_Z ((λ x, charged_bytes x.2) <$> map_to_list m).

(** What holds of each entry: it is within the amplification bound and can still be
    repeated, and it has been charged something. *)
Definition entry_ok (e : RetainedFlight) : Prop :=
  f_wire_bytes (rf_flight e) <= FLIGHT_AMPLIFICATION_LIMIT * f_question_wire_bytes (rf_flight e) ∧
  1 <= repeats_left e <= MAX_FLIGHT_REPEATS ∧ 0 <= charged_bytes e.

Record wf_flights (t : FlightTable) : Prop := {
  wf_charges : retained_bytes t = charges (flights t);
  wf_entries : map_Forall (λ _, entry_ok) (flights t);
}.

Lemma charges_delete (m : gmap ConnId RetainedFlight) cid e : m !! cid = Some e -> charges m = charged_bytes e + charges (delete cid m).
Proof.
  intros He. unfold charges. rewrite <- (sum_Z_perm _ _ (fmap_Permutation _ _ _ (map_to_list_delete m cid e He))).
  by rewrite fmap_cons, sum_Z_cons.
Qed.

Lemma charges_insert (m : gmap ConnId RetainedFlight) cid e : m !! cid = None -> charges (<[cid := e]> m) = charged_bytes e + charges m.
Proof. intros He. rewrite (charges_delete _ cid e) by apply lookup_insert_eq. by rewrite delete_insert_id. Qed.

Lemma charges_nonneg m : map_Forall (λ _, entry_ok) m -> 0 <= charges m.
Proof.
  intros Hm. unfold charges. apply sum_Z_nonneg, Forall_fmap, Forall_forall. intros [k e] Hin%elem_of_map_to_list.
  by destruct (Hm _ _ Hin) as (_ & _ & ?).
Qed.

Lemma charges_sub m : ∀ m', m ⊆ m' -> map_Forall (λ _, entry_ok) m' -> charges m <= charges m'.
Proof.
  induction m as [|k e m Hk IH] using map_ind; intros m' Hs He; [by apply charges_nonneg|].
  assert (Hl : m' !! k = Some e) by (eapply lookup_weaken; [apply lookup_insert_eq|exact Hs]).
  rewrite charges_insert, (charges_delete m' k e Hl) by done. specialize (IH (delete k m')).
  assert (charges m <= charges (delete k m')); [|lia]. apply IH; [|by apply map_Forall_delete].
  rewrite <- (delete_insert_id m k e Hk). by apply delete_mono.
Qed.

Lemma forget_wf t cid : wf_flights t -> wf_flights (forget t cid).
Proof.
  intros [Hc He]. unfold forget. destruct (flights t !! cid) as [e|] eqn:E; [|by split]. split; cbn.
  - rewrite Hc, (charges_delete _ _ _ E). unfold sat_sub. pose proof (charges_nonneg (delete cid (flights t))) as Hn.
    specialize (Hn (map_Forall_delete _ _ _ He)). destruct (He _ _ E) as (_ & _ & ?). lia.
  - by apply map_Forall_delete.
Qed.

Lemma forget_lookup t cid x : flights (forget t cid) !! x = if decide (x = cid) then None else flights t !! x.
Proof.
  unfold forget. destruct (flights t !! cid) as [e|] eqn:E; cbn; case_decide; subst; [apply lookup_delete_eq|by rewrite lookup_delete_ne|done..].
Qed.

Lemma forget_size t cid e : flights t !! cid = Some e -> size (flights t) = S (size (flights (forget t cid))).
Proof. intros E. unfold forget. rewrite E. cbn. rewrite map_size_delete, E. cbn. assert (size (flights t) ≠ 0)%nat; [|lia]. intros Hz%map_size_empty_inv. by rewrite Hz in E. Qed.

Lemma sync_wf t : wf_flights t -> wf_flights (flights_sync t).
Proof. by intros []. Qed.

Lemma flights_sweep_wf heard t now : wf_flights t -> wf_flights (sweep heard t now).
Proof. intros [Hc He]. split; [done|]. cbn. intros k e [Hl _]%map_lookup_filter_Some. by apply (He k). Qed.

Lemma oldest_held t cid : oldest t = Some cid -> ∃ e, flights t !! cid = Some e.
Proof.
  unfold oldest. intros (x & Hx & ->)%fmap_Some_1.
  assert (Hin : ∀ l b, foldl (λ best x, match best with None => Some x
      | Some b => if rf_expires_at x.2 <? rf_expires_at b.2 then Some x else Some b end) b l = Some x -> x ∈ l ∨ b = Some x).
  { induction l as [|y l IH]; intros b; cbn [foldl]; [by right|]. intros [Hl|Hb]%IH; [left; by apply elem_of_cons; right|].
    destruct b as [b|]; [|injection Hb as ->; left; apply elem_of_cons; by left].
    destruct (_ <? _); [injection Hb as ->; left; apply elem_of_cons; by left|by right]. }
  destruct (Hin _ _ Hx) as [Hl|]; [|done]. destruct x as [k e]. exists e. by apply elem_of_map_to_list.
Qed.

Lemma oldest_some t : flights t ≠ ∅ -> ∃ cid, oldest t = Some cid.
Proof.
  intros Hne. unfold oldest. destruct (map_to_list (flights t)) as [|x l] eqn:E; [by apply map_to_list_empty_iff in E|]. cbn [foldl].
  assert (Hs : ∀ l (b : ConnId * RetainedFlight), ∃ y, foldl (λ best x, match best with None => Some x
      | Some b => if rf_expires_at x.2 <? rf_expires_at b.2 then Some x else Some b end) (Some b) l = Some y).
  { clear. induction l as [|y l IH]; intros b; [by eexists|]. cbn [foldl]. destruct (_ <? _); apply IH. }
  destruct (Hs l x) as [y ->]. by eexists.
Qed.

Lemma evict_spec fuel cost : ∀ t, wf_flights t -> (size (flights t) <= fuel)%nat ->
  let t' := evict_until fuel t cost in
  wf_flights t' ∧ flights t' ⊆ flights t ∧ (flights t' = ∅ ∨ retained_bytes t' + cost <= RETAINED_FLIGHT_BUDGET).
Proof.
  induction fuel as [|fuel IH]; intros t Hwf Hs; cbn [evict_until].
  - split; [done|]. split; [done|]. left. apply map_size_empty_inv. lia.
  - destruct (bool_decide_reflect (flights t = ∅)) as [|Hne]; cbn [negb andb]; [by auto|].
    destruct (Z.ltb_spec RETAINED_FLIGHT_BUDGET (retained_bytes t + cost)); [|by auto].
    destruct (oldest_some t Hne) as [cid Ho]. rewrite Ho. destruct (oldest_held t cid Ho) as [e He].
    pose proof (forget_size t cid e He). destruct (IH (forget t cid)) as (H1 & H2 & H3); [by apply forget_wf|lia|].
    split; [done|]. split; [|done]. etransitivity; [exact H2|]. unfold forget. rewrite He. cbn. apply delete_subseteq.
Qed.

Section Flight_runs.
Context `{HandshakeHash}.
Context (entry_overhead vec_size : Z).

Inductive flight_op := FRetain (cid : ConnId) (f : HandshakeFlight) | FRepeat (cid : ConnId) (question : list Z) | FSweep.

(** An operation, who has been heard from when it runs, and the time; with the repeat it
    sends, if any. *)
Definition flight_exec (t : FlightTable) (x : (Z -> bool) * Z * flight_op) : option (list (list Z) * SocketAddr) * FlightTable :=
  let '(heard, now, o) := x in
  match o with
  | FRetain cid f => (None, (retain entry_overhead vec_size heard t cid f now).2)
  | FRepeat cid question => repeat_flight heard t cid question now
  | FSweep => (None, sweep heard t now)
  end.

Definition flight_run (t : FlightTable) (l : list ((Z -> bool) * Z * flight_op)) : FlightTable := foldl (λ t x, (flight_exec t x).2) t l.

(** A flight no larger than the whole budget. *)
Definition flight_op_ok (o : flight_op) : Prop :=
  match o with FRetain _ f => 0 <= retained_cost entry_overhead vec_size f <= RETAINED_FLIGHT_BUDGET | _ => True end.

Lemma retain_sub heard t cid f now x e :
  wf_flights t -> x ≠ cid -> flights (retain entry_overhead vec_size heard t cid f now).2 !! x = Some e -> flights t !! x = Some e.
Proof.
  intros Hwf Hx. unfold retain. case_test; [done|]. cbn. rewrite lookup_insert_ne by done.
  set (t1 := forget t cid). set (t2 := if RETAINED_FLIGHT_BUDGET <? retained_bytes t1 + _ then sweep heard t1 now else t1).
  assert (Hw2 : wf_flights t2 ∧ flights t2 ⊆ flights t1).
  { subst t2. case_test; (split; [|try done]); [by apply flights_sweep_wf, forget_wf| |by apply forget_wf]. cbn. apply map_filter_subseteq. }
  destruct Hw2 as [Hw2 Hs2]. destruct (evict_spec (size (flights t2)) (retained_cost entry_overhead vec_size f) t2 Hw2) as (_ & Hs3 & _); [done|].
  intros He. eapply lookup_weaken in He; [|exact Hs3]. eapply lookup_weaken in He; [|exact Hs2].
  unfold t1 in He. rewrite forget_lookup in He. by case_decide.
Qed.

Lemma retain_spec heard t cid f now :
  wf_flights t -> retained_bytes t <= RETAINED_FLIGHT_BUDGET -> flight_op_ok (FRetain cid f) ->
  let t' := (retain entry_overhead vec_size heard t cid f now).2 in
  wf_flights t' ∧ retained_bytes t' <= RETAINED_FLIGHT_BUDGET.
Proof.
  intros Hwf Hb Hok. unfold retain. cbn in Hok. set (cost := retained_cost entry_overhead vec_size f) in *.
  destruct (Z.ltb_spec (Z.min (u_max 64) (f_question_wire_bytes f * FLIGHT_AMPLIFICATION_LIMIT)) (f_wire_bytes f)) as [|Hamp]; [done|]. cbn [snd].
  set (t1 := forget t cid). set (t2 := if RETAINED_FLIGHT_BUDGET <? retained_bytes t1 + _ then sweep heard t1 now else t1).
  assert (Hw2 : wf_flights t2) by (subst t2; case_test; [by apply flights_sweep_wf, forget_wf|by apply forget_wf]).
  assert (Hn2 : flights t2 !! cid = None).
  { assert (Hn1 : flights t1 !! cid = None) by (unfold t1; rewrite forget_lookup; by rewrite decide_True).
    subst t2. case_test; [|done]. cbn. apply map_lookup_filter_None. by left. }
  destruct (evict_spec (size (flights t2)) cost t2 Hw2) as (Hw3 & Hs3 & Hfit); [done|].
  set (t3 := evict_until _ t2 cost) in *.
  assert (Hn3 : flights t3 !! cid = None) by (eapply lookup_weaken_None; [exact Hn2|exact Hs3]).
  split; [split|]; cbn.
  - rewrite charges_insert by done. cbn. rewrite (wf_charges _ Hw3). lia.
  - apply map_Forall_insert_2; [|apply Hw3]. unfold entry_ok, FLIGHT_AMPLIFICATION_LIMIT, MAX_FLIGHT_REPEATS in *. cbn. lia.
  - destruct Hfit as [Hz|]; [|lia]. rewrite (wf_charges _ Hw3), Hz. unfold charges. rewrite map_to_list_empty. cbn. lia.
Qed.

Lemma set_flight_wf t cid e n :
  wf_flights t -> flights t !! cid = Some e -> 1 <= n <= repeats_left e ->
  wf_flights (set_flight t cid (mk_retained (rf_flight e) n (rf_expires_at e) (charged_bytes e))).
Proof.
  intros [Hc He] Hl Hn. destruct (He _ _ Hl) as (H1 & H2 & H3). split; cbn.
  - rewrite <- insert_delete_eq, charges_insert by apply lookup_delete_eq. cbn. by rewrite Hc, (charges_delete _ _ _ Hl).
  - apply map_Forall_insert_2; [|done]. unfold entry_ok. cbn. split; [done|]. lia.
Qed.

Lemma repeat_wf heard t cid q now : wf_flights t -> wf_flights (repeat_flight heard t cid q now).2.
Proof.
  intros Hwf. unfold repeat_flight. destruct (flights t !! cid) as [e|] eqn:E; [|done].
  case_test; [by apply sync_wf, forget_wf|]. case_test; [done|]. cbn [snd repeats_left]. apply sync_wf.
  destruct (wf_entries _ Hwf _ _ E) as (_ & Hr & _). destruct (Z.eqb_spec (repeats_left e - 1) 0) as [Hz|Hz].
  - set (t1 := set_flight t cid _).
    assert (Ht : forget t1 cid = mk_flights (delete cid (flights t)) (sat_sub (retained_bytes t) (charged_bytes e)) (occupancy t)).
    { unfold forget, t1. cbn. rewrite lookup_insert_eq. cbn. by rewrite delete_insert_eq. }
    rewrite Ht. pose proof (forget_wf t cid Hwf) as Hx. unfold forget in Hx. by rewrite E in Hx.
  - apply set_flight_wf; [done|done|lia].
Qed.

Lemma forget_bytes t cid : wf_flights t -> retained_bytes (forget t cid) <= retained_bytes t.
Proof.
  intros Hwf. unfold forget. destruct (flights t !! cid) as [e|] eqn:E; [|done]. cbn. unfold sat_sub.
  destruct (wf_entries _ Hwf _ _ E) as (_ & _ & ?). pose proof (charges_nonneg _ (wf_entries _ Hwf)). rewrite <- (wf_charges _ Hwf) in *. lia.
Qed.

Lemma repeat_bytes heard t cid q now : wf_flights t -> retained_bytes (repeat_flight heard t cid q now).2 <= retained_bytes t.
Proof.
  intros Hwf. unfold repeat_flight. destruct (flights t !! cid) as [e|] eqn:E; [|done].
  case_test; [by apply forget_bytes|]. case_test; [done|]. cbn [snd repeats_left].
  destruct (wf_entries _ Hwf _ _ E) as (_ & _ & Hc). pose proof (charges_nonneg _ (wf_entries _ Hwf)) as Hn. rewrite <- (wf_charges _ Hwf) in Hn.
  case_test; [|done]. unfold forget, set_flight. cbn. rewrite lookup_insert_eq. cbn. unfold sat_sub. lia.
Qed.

Lemma sweep_bytes heard t now : wf_flights t -> retained_bytes (sweep heard t now) <= retained_bytes t.
Proof.
  intros Hwf. rewrite (wf_charges _ Hwf). apply charges_sub; [apply map_filter_subseteq|apply Hwf].
Qed.

Lemma flight_exec_ok t x :
  wf_flights t -> retained_bytes t <= RETAINED_FLIGHT_BUDGET -> flight_op_ok x.2 ->
  wf_flights (flight_exec t x).2 ∧ retained_bytes (flight_exec t x).2 <= RETAINED_FLIGHT_BUDGET.
Proof.
  intros Hwf Hb Hok. destruct x as [[heard now] [cid f|cid q|]]; cbn [flight_exec snd].
  - by apply retain_spec.
  - split; [by apply repeat_wf|]. pose proof (repeat_bytes heard t cid q now Hwf). lia.
  - split; [by apply flights_sweep_wf|]. pose proof (sweep_bytes heard t now Hwf). lia.
Qed.

Lemma flight_run_ok l : ∀ t, wf_flights t -> retained_bytes t <= RETAINED_FLIGHT_BUDGET -> Forall (λ x, flight_op_ok x.2) l ->
  wf_flights (flight_run t l) ∧ retained_bytes (flight_run t l) <= RETAINED_FLIGHT_BUDGET.
Proof.
  induction l as [|x l IH]; intros t Hwf Hb Hl; [done|]. apply Forall_cons in Hl as [Hx Hl].
  destruct (flight_exec_ok t x Hwf Hb Hx) as [? ?]. by apply IH.
Qed.

Lemma flights_new_wf : wf_flights flights_new.
Proof. split; [done|]. apply map_Forall_empty. Qed.

(** The repeats sent for [cid]: the question, the time, the answer. *)
Fixpoint answers (cid : ConnId) (t : FlightTable) (l : list ((Z -> bool) * Z * flight_op)) : list (list Z * Z * (list (list Z) * SocketAddr)) :=
  match l with
  | [] => []
  | x :: rest =>
    let '(a, t') := flight_exec t x in
    match x.2, a with
    | FRepeat c q, Some r => if decide (c = cid) then (q, x.1.2, r) :: answers cid t' rest else answers cid t' rest
    | _, _ => answers cid t' rest
    end
  end.

Definition other_retain (cid : ConnId) (o : flight_op) : Prop := match o with FRetain c _ => c ≠ cid | _ => True end.

(** The entry at [cid] is the one retained with [f], with at most [n] repeats left. *)
Definition holds_at (f : HandshakeFlight) (x n : Z) (o : option RetainedFlight) : Prop :=
  match o with Some e => rf_flight e = f ∧ rf_expires_at e = x ∧ repeats_left e <= n | None => True end.

Lemma holds_at_sub f x n o o' : (∀ e, o' = Some e -> o = Some e) -> holds_at f x n o -> holds_at f x n o'.
Proof. destruct o' as [e|]; [|done]. intros Hs. by rewrite (Hs e eq_refl). Qed.

Lemma flight_exec_other heard now o t cid f x n :
  wf_flights t -> other_retain cid o -> holds_at f x n (flights t !! cid) -> (∀ q, o ≠ FRepeat cid q) ->
  holds_at f x n (flights (flight_exec t (heard, now, o)).2 !! cid).
Proof.
  intros Hwf Ho Hh Hq. eapply holds_at_sub; [|exact Hh]. intros e. destruct o as [c g|c q|]; cbn [flight_exec snd].
  - apply retain_sub; [done|]. by intros ->.
  - assert (Hne : cid ≠ c) by (intros ->; by apply (Hq q)). unfold repeat_flight. destruct (flights t !! c) as [e'|]; [|done].
    case_test; [cbn; rewrite forget_lookup; by case_decide|]. case_test; [done|]. cbn [snd repeats_left].
    case_test; cbn; rewrite ?forget_lookup; rewrite ?decide_False by done; cbn; by rewrite lookup_insert_ne.
  - cbn. by intros [? _]%map_lookup_filter_Some.
Qed.

(** One repeat of [cid]: nothing is sent, or it is the retained reply to its question. *)
Lemma repeat_exact heard now q t cid f x n :
  wf_flights t -> holds_at f x n (flights t !! cid) ->
  match repeat_flight heard t cid q now with
  | (None, t') => holds_at f x n (flights t' !! cid)
  | (Some (ds, p), t') =>
    1 <= n ∧ ds = f_datagrams f ∧ p = f_peer f ∧ sha256 q = f_question f ∧ now < x ∧ holds_at f x (n - 1) (flights t' !! cid)
  end.
Proof.
  intros Hwf Hh. unfold repeat_flight. destruct (flights t !! cid) as [e|] eqn:E; [|by rewrite E].
  destruct (wf_entries _ Hwf _ _ E) as (_ & Hr & _). destruct Hh as (<- & <- & Hn).
  unfold stays. destruct (negb (heard _) && (now <? rf_expires_at e)) eqn:Hst; cbn [negb]; cycle 1.
  { cbn. rewrite forget_lookup. by rewrite decide_True. }
  destruct (bool_decide_reflect (sha256 q = f_question (rf_flight e))); cbn [negb]; [|by rewrite E].
  bool_to_prop. split; [lia|]. repeat (split; [done|]). cbn [repeats_left].
  case_test; cbn; [rewrite forget_lookup, decide_True by done; done|]. rewrite lookup_insert_eq. cbn. split; [done|]. split; [done|]. lia.
Qed.

Lemma answers_bounded cid f x l : ∀ t n,
  wf_flights t -> retained_bytes t <= RETAINED_FLIGHT_BUDGET -> Forall (λ y, flight_op_ok y.2 ∧ other_retain cid y.2) l ->
  holds_at f x n (flights t !! cid) -> 0 <= n ->
  len (answers cid t l) <= n ∧
  Forall (λ a, sha256 a.1.1 = f_question f ∧ a.1.2 < x ∧ a.2 = (f_datagrams f, f_peer f)) (answers cid t l).
Proof.
  induction l as [|[[heard now] o] l IH]; intros t n Hwf Hb Hl Hh Hn; [by split; [|apply Forall_nil]|].
  apply Forall_cons in Hl as [[Hok Hoth] Hl]. destruct (flight_exec_ok t (heard, now, o) Hwf Hb Hok) as [Hwf' Hb'].
  assert (Hd : (∃ q, o = FRepeat cid q) ∨ ~ ∃ q, o = FRepeat cid q).
  { destruct o as [c g|c q|]; [right; naive_solver| |right; naive_solver]. destruct (decide (c = cid)) as [->|]; [left; by exists q|right; naive_solver]. }
  cbn [answers]. destruct Hd as [[q ->]|Hno].
  - cbn [flight_exec] in Hwf', Hb' |- *. pose proof (repeat_exact heard now q t cid f x n Hwf Hh) as Hr.
    destruct (repeat_flight heard t cid q now) as [[[ds p]|] t']; cbn [snd fst] in *; [|by apply IH].
    rewrite decide_True by done. destruct Hr as (H1 & -> & -> & Hq & Hx & Hh'). destruct (IH t' (n - 1)) as [Hlen Hall]; [done|done|done|done|lia|].
    rewrite len_cons. split; [lia|]. apply Forall_cons. split; [|done]. by cbn.
  - pose proof (flight_exec_other heard now o t cid f x n Hwf Hoth Hh) as Hh'.
    destruct (flight_exec t (heard, now, o)) as [a t'] eqn:E. cbn [snd fst] in *.
    assert (Hgo : len (answers cid t' l) <= n ∧ Forall (λ a, sha256 a.1.1 = f_question f ∧ a.1.2 < x ∧ a.2 = (f_datagrams f, f_peer f)) (answers cid t' l)).
    { apply IH; try done. apply Hh'. intros q ->. apply Hno. by exists q. }
    destruct o as [c g|c q|]; [done| |done]. destruct a as [r|]; [|done]. rewrite decide_False; [done|]. intros ->. apply Hno. by exists q.
Qed.

Lemma retain_held heard t cid f now :
  (retain entry_overhead vec_size heard t cid f now).1 = true ->
  f_wire_bytes f <= FLIGHT_AMPLIFICATION_LIMIT * f_question_wire_bytes f ∧
  flights (retain entry_overhead vec_size heard t cid f now).2 !! cid =
    Some (mk_retained f MAX_FLIGHT_REPEATS (now + HANDSHAKE_FLIGHT_RETENTION) (retained_cost entry_overhead vec_size f)).
Proof.
  unfold retain. destruct (Z.ltb_spec (Z.min (u_max 64) (f_question_wire_bytes f * FLIGHT_AMPLIFICATION_LIMIT)) (f_wire_bytes f)); [done|].
  intros _. split; [unfold FLIGHT_AMPLIFICATION_LIMIT in *; lia|]. apply lookup_insert_eq.
Qed.

(** A retained reply is neither an amplifier nor a burden.  In every run the table charges
    exactly what its entries cost and never more than its 8 MiB.  A reply larger than
    three times its question on the wire is not retained, and nothing changes; a retained
    one is sent again at most three times, only within its eight seconds, only to a
    question with the same digest, and then it is the same datagrams to the same address. *)
Theorem repeats_bounded (pre post : list ((Z -> bool) * Z * flight_op)) (heard : Z -> bool) (cid : ConnId) (f : HandshakeFlight) (now : Z) :
  Forall (λ y, flight_op_ok y.2) pre -> flight_op_ok (FRetain cid f) -> Forall (λ y, flight_op_ok y.2 ∧ other_retain cid y.2) post ->
  let t := flight_run flights_new pre in
  retained_bytes t = charges (flights t) ∧ retained_bytes t <= RETAINED_FLIGHT_BUDGET ∧
  match retain entry_overhead vec_size heard t cid f now with
  | (false, t') => t' = t ∧ Z.min (u_max 64) (FLIGHT_AMPLIFICATION_LIMIT * f_question_wire_bytes f) < f_wire_bytes f
  | (true, t') =>
    f_wire_bytes f <= FLIGHT_AMPLIFICATION_LIMIT * f_question_wire_bytes f ∧
    len (answers cid t' post) <= MAX_FLIGHT_REPEATS ∧
    Forall (λ a, sha256 a.1.1 = f_question f ∧ a.1.2 < now + HANDSHAKE_FLIGHT_RETENTION ∧ a.2 = (f_datagrams f, f_peer f)) (answers cid t' post)
  end.
Proof.
  intros Hpre Hok Hpost t. destruct (flight_run_ok pre flights_new flights_new_wf) as [Hwf Hb]; [done|done|]. fold t in Hwf, Hb.
  split; [apply Hwf|]. split; [done|]. destruct (retain_spec heard t cid f now Hwf Hb Hok) as [Hwf' Hb'].
  pose proof (retain_held heard t cid f now) as Hh. destruct (retain entry_overhead vec_size heard t cid f now) as [[] t'] eqn:E; cbn [fst snd] in *.
  - destruct (Hh eq_refl) as [Hamp Hl]. split; [done|]. apply answers_bounded; try done. rewrite Hl. done.
  - unfold retain in E. destruct (Z.ltb_spec (Z.min (u_max 64) (f_question_wire_bytes f * FLIGHT_AMPLIFICATION_LIMIT)) (f_wire_bytes f)); [|done].
    injection E as <-. split; [done|]. lia.
Qed.
End Flight_runs.

Section Toy.
#[local] Existing Instance toy_handshake_hash.

Definition toy_flight : HandshakeFlight := mk_flight [[1; 2]; [3]] [1200; 1200] ([127; 0; 0; 1], 443) (sha256 [9; 9]) 3 2 7.
Definition toy_asks : list ((Z -> bool) * Z * flight_op) :=
  [(λ _, false, 10, FRepeat [5] [8]); (λ _, false, 11, FRepeat [5] [9; 9]); (λ _, false, 12, FRepeat [5] [9; 9]);
   (λ _, false, 13, FSweep); (λ _, false, 14, FRepeat [5] [9; 9]); (λ _, false, 15, FRepeat [5] [9; 9])].

Lemma repeats_bounded_witness :
  let t := flight_run 200 24 flights_new [(λ _, false, 0, FRetain [6] toy_flight)] in
  let '(kept, t') := retain 200 24 (λ _, false) t [5] toy_flight 5 in
  kept = true ∧ answers 200 24 [5] t' toy_asks =
    [([9; 9], 11, (f_datagrams toy_flight, f_peer toy_flight)); ([9; 9], 12, (f_datagrams toy_flight, f_peer toy_flight));
     ([9; 9], 14, (f_datagrams toy_flight, f_peer toy_flight))] ∧ len (answers 200 24 [5] t' toy_asks) <= 3.
Proof.
  pose proof (repeats_bounded 200 24 [(λ _, false, 0, FRetain [6] toy_flight)] toy_asks (λ _, false) [5] toy_flight 5) as Hx.
  destruct Hx as (_ & _ & Hx).
  - by apply Forall_singleton.
  - done.
  - repeat constructor; done.
  - cbv zeta. set (r := retain 200 24 _ _ [5] toy_flight 5) in *. destruct r as [[] t'] eqn:E; [|vm_compute in E; discriminate].
    split; [reflexivity|]. split; [|apply Hx]. vm_compute in E. injection E as <-. vm_compute. reflexivity.
Defined.
End Toy.
