(* ===== verification/CidRoutes.v ===== *)
(** * A session's rotating ids in the demultiplexer's route table

    The composition of [Cid] and [Routes]: the peer's datagrams are routed by the table,
    the session they reach queues a slide when the peer has migrated, and the
    demultiplexer applies the queued slides later ([run_udp_demux] of
    [core/src/api/udp_listener.rs], [note_migration_path] of
    [core/src/transport/session.rs]), with other sessions using the table in between. *)

From Stdlib Require Import ZArith Lia.
From stdpp Require Import base numbers option list gmap.
From S2P Require Import Prelude Crypto Cid Routes.

Local Open Scope Z_scope.

(** ** Registering ids nobody holds *)

Lemma try_insert_fresh closed t cid tx owner :
  routes t !! cid = None -> route_count t < MAX_ROUTES ->
  routes (try_insert closed t cid tx owner).2 = <[cid := mk_route tx owner]> (routes t) ∧
  route_count (try_insert closed t cid tx owner).2 = route_count t + 1.
Proof.
  intros Hn Hc. unfold try_insert. rewrite Hn. destruct (Z.leb_spec MAX_ROUTES (route_count t)); [lia|]. cbn [andb snd].
  split; [done|]. unfold route_count. cbn. rewrite map_size_insert_None by done. lia.
Qed.

Lemma register_fresh closed cids tx owner : ∀ t,
  NoDup cids -> (∀ c, c ∈ cids -> routes t !! c = None) -> route_count t + len cids <= MAX_ROUTES ->
  ∀ x, routes (register_window closed t cids tx owner) !! x = if decide (x ∈ cids) then Some (mk_route tx owner) else routes t !! x.
Proof.
  induction cids as [|c cids IH]; intros t Hnd Hn Hc x; cbn [register_window foldl].
  { rewrite decide_False; [done|]. apply not_elem_of_nil. }
  apply NoDup_cons in Hnd as [Hc' Hnd]. rewrite len_cons in Hc.
  destruct (try_insert_fresh closed t c tx owner) as [Hr Hcount]; [apply Hn, elem_of_cons; by left|pose proof (len_nonneg cids); lia|].
  fold (register_window closed (try_insert closed t c tx owner).2 cids tx owner).
  rewrite IH; [|done| |lia].
  - rewrite Hr. destruct (decide (x = c)) as [->|Hne].
    + rewrite decide_False by done. rewrite lookup_insert_eq, decide_True; [done|]. apply elem_of_cons. by left.
    + rewrite lookup_insert_ne by done. apply decide_ext. rewrite elem_of_cons. naive_solver.
  - intros y Hy. rewrite Hr, lookup_insert_ne by (intros ->; done). apply Hn, elem_of_cons. by right.
Qed.

Section Window.
Context `{Primitives}.
Variables (secret : list Z) (tx owner : Z).
(** How many migrations are considered, and the ids they use. *)
Variable N : Z.

Definition client_ids : CidState := cid_new secret false.
Definition id_of (k : Z) : list Z := inbound_cid (cid_chain (cid_new secret true)) k.

(** The ids are distinct. *)
Definition ids_distinct : Prop := ∀ i j, 0 <= i <= N + CID_WINDOW_LEADING -> 0 <= j <= N + CID_WINDOW_LEADING -> id_of i = id_of j -> i = j.

Lemma id_of_outbound k : outbound_cid (cid_chain client_ids) k = id_of k.
Proof. done. Qed.

(** The table, the session's ids, and the slides not yet applied. *)
Record Tracked := mk_tracked { k_table : RouteTable; k_session : CidState; k_queue : list CidSlide }.

Definition keeps_ours (t t' : RouteTable) : Prop := ∀ k, 0 <= k <= N + CID_WINDOW_LEADING -> routes t' !! id_of k = routes t !! id_of k.

Inductive track_step : Tracked -> Tracked -> Prop :=
(** a datagram the peer sent after [k] migrations, routed by its id *)
| track_datagram x k sl s' :
    0 <= k <= N -> get_route (k_table x) (outbound_cid (cid_chain client_ids) k) = Some tx ->
    note_migration_path (k_session x) (path_after client_ids (Z.to_nat k)) = (sl, s') ->
    track_step x (mk_tracked (k_table x) s' (k_queue x ++ option_list sl))
(** the demultiplexer applies the first queued slide, with room in the table *)
| track_slide x closed sl q :
    k_queue x = sl :: q -> closed tx = false -> route_count (k_table x) + CID_WINDOW_LEADING <= MAX_ROUTES ->
    track_step x (mk_tracked (apply_slide closed (k_table x) sl) (k_session x) q)
(** whatever else happens to the table *)
| track_other x t' :
    keeps_ours (k_table x) t' -> track_step x (mk_tracked t' (k_session x) (k_queue x)).

(** The session's state once centred on [h]. *)
Definition centred (s : CidState) (h : Z) : Prop :=
  cid_chain s = cid_chain (cid_new secret true) ∧ inbound_cid_highest_seen s = h ∧ last_seen_path_id s = h.

(** The slide from centre [a] to centre [b]. *)
Definition slide_from (a b : Z) : CidSlide :=
  mk_slide (id_of <$> range_incl (a + CID_WINDOW_LEADING + 1) (b + CID_WINDOW_LEADING))
           (id_of <$> range_incl (window_lo a) (window_lo b - 1)) (id_of b).

(** Queued slides lead from [a] to [b], one after another. *)
Inductive leads : Z -> list CidSlide -> Z -> Prop :=
| leads_here a : leads a [] a
| leads_on a b q c : a < b <= c -> leads b q c -> leads a (slide_from a b :: q) c.

(** The table holds exactly the window centred on [h]. *)
Definition window_in (t : RouteTable) (h : Z) : Prop :=
  ∀ k, 0 <= k <= N + CID_WINDOW_LEADING -> routes t !! id_of k = if routable h k then Some (mk_route tx owner) else None.

Definition track_ok (x : Tracked) : Prop :=
  ∃ h c, 0 <= h <= c ∧ c <= h + CID_WINDOW_LEADING ∧ c <= N ∧ centred (k_session x) c ∧ leads h (k_queue x) c ∧ window_in (k_table x) h.

(** ** The window through the queue *)

Hypothesis distinct : ids_distinct.
Hypothesis Nmax : 0 <= N <= 254.

Lemma leads_snoc a q b c : leads a q b -> b < c -> leads a (q ++ [slide_from b c]) c.
Proof.
  induction 1 as [a|a b q d Hab Hl IH]; intros Hc; cbn.
  - apply leads_on; [lia|constructor].
  - apply leads_on; [lia|]. by apply IH.
Qed.

Lemma elem_of_range x lo hi : x ∈ range_incl lo hi <-> lo <= x <= hi.
Proof. unfold range_incl. rewrite elem_of_seqZ. lia. Qed.

Lemma id_in_range k lo hi :
  0 <= k <= N + CID_WINDOW_LEADING -> 0 <= lo -> hi <= N + CID_WINDOW_LEADING -> id_of k ∈ id_of <$> range_incl lo hi <-> lo <= k <= hi.
Proof.
  intros Hk Hlo Hhi. rewrite list_elem_of_fmap. split.
  - intros (i & Hi & Hin). apply elem_of_range in Hin. apply distinct in Hi as <-; [done|done|lia].
  - intros Hin. exists k. split; [done|]. by apply elem_of_range.
Qed.

Lemma ids_nodup lo hi : 0 <= lo -> hi <= N + CID_WINDOW_LEADING -> NoDup (id_of <$> range_incl lo hi).
Proof.
  intros Hlo Hhi. apply NoDup_alt. intros a b x Ha Hb.
  rewrite list_lookup_fmap in Ha, Hb. unfold range_incl in *.
  destruct (seqZ lo (hi - lo + 1) !! a) as [u|] eqn:Eu; [|done]. destruct (seqZ lo (hi - lo + 1) !! b) as [v|] eqn:Ev; [|done].
  apply lookup_seqZ in Eu as [-> ?], Ev as [-> ?]. rewrite <- Hb in Ha. apply (inj Some) in Ha.
  enough (lo + Z.of_nat a = lo + Z.of_nat b) by lia. apply distinct; [lia|lia|done].
Qed.

Lemma routable_true h k : routable h k = true <-> window_lo h <= k <= h + CID_WINDOW_LEADING.
Proof. unfold routable. rewrite andb_true_iff, !Z.leb_le. lia. Qed.

Lemma note_routed s c k :
  centred s c -> 0 <= c <= N -> 0 <= k <= N -> c - 18 <= k <= c + CID_WINDOW_LEADING ->
  ∃ s', note_migration_path s (path_after client_ids (Z.to_nat k)) = (if c <? k then Some (slide_from c k) else None, s') ∧ centred s' (Z.max c k).
Proof.
  intros (Hch & Hh & Hl) Hc Hk Hr. rewrite path_after_small by (done || lia). rewrite Z2Nat.id by lia.
  unfold note_migration_path, CID_WINDOW_LEADING in *. rewrite Hl, Hh. set (fwd := wrap 8 (k - c)). destruct (Z.ltb_spec c k).
  - assert (Hf : fwd = k - c) by (unfold fwd, wrap; rewrite Z.mod_small; lia). rewrite Hf.
    destruct (Z.eqb_spec (k - c) 0); [lia|]. destruct (Z.ltb_spec 128 (k - c)); [lia|]. cbn [orb].
    replace (c + (k - c)) with k by lia. rewrite Hch. eexists. split; [reflexivity|].
    split; [done|]. cbn [inbound_cid_highest_seen last_seen_path_id]. unfold wrap. rewrite Z.mod_small by lia. lia.
  - exists s. split; [|rewrite Z.max_l by lia; done].
    assert (Hf : k = c ∧ fwd = 0 ∨ fwd = 256 + k - c).
    { destruct (Z.eq_dec k c) as [->|]; [left; unfold fwd; by rewrite Z.sub_diag|right].
      unfold fwd, wrap. symmetry. apply (Z.mod_unique (k - c) _ (-1)); lia. }
    destruct Hf as [[-> ->]| ->]; [done|]. destruct (Z.eqb_spec (256 + k - c) 0); [lia|]. destruct (Z.ltb_spec 128 (256 + k - c)); [done|lia].
Qed.

Lemma window_slide closed t a b :
  window_in t a -> 0 <= a < b -> b <= a + CID_WINDOW_LEADING -> b <= N -> route_count t + CID_WINDOW_LEADING <= MAX_ROUTES ->
  window_in (apply_slide closed t (slide_from a b)) b.
Proof.
  intros Hw Hab Hb HN Hc k Hk. unfold apply_slide. cbn [slide_anchor slide_from].
  assert (Ha : routes t !! id_of b = Some (mk_route tx owner)).
  { rewrite Hw by (unfold CID_WINDOW_LEADING in *; lia). replace (routable a b) with true; [done|]. symmetry. apply routable_true. unfold window_lo, sat_sub, CID_WINDOW_TRAILING. lia. }
  rewrite Ha. cbn [r_tx r_owner slide_add slide_remove routes routes_sync]. rewrite remove_all_lookup.
  rewrite register_fresh; [|apply ids_nodup; unfold CID_WINDOW_LEADING; lia| |].
  - rewrite Hw by done. rewrite (decide_ext _ _ _ _ (id_in_range k (window_lo a) (window_lo b - 1) Hk ltac:(unfold window_lo, sat_sub; lia) ltac:(unfold window_lo, sat_sub, CID_WINDOW_LEADING, CID_WINDOW_TRAILING; lia))).
    rewrite (decide_ext _ _ _ _ (id_in_range k (a + CID_WINDOW_LEADING + 1) (b + CID_WINDOW_LEADING) Hk ltac:(unfold CID_WINDOW_LEADING; lia) ltac:(unfold CID_WINDOW_LEADING; lia))).
    pose proof (routable_true a k) as Ra. pose proof (routable_true b k) as Rb.
    unfold window_lo, sat_sub, CID_WINDOW_LEADING, CID_WINDOW_TRAILING in *.
    destruct (routable a k), (routable b k); repeat case_decide; try done; lia.
  - intros y (i & -> & Hi%elem_of_range)%list_elem_of_fmap. rewrite Hw by (unfold CID_WINDOW_LEADING in *; lia).
    destruct (routable a i) eqn:E; [|done]. apply routable_true in E. lia.
  - unfold len. cbn [slide_add slide_from]. rewrite (length_fmap id_of). unfold range_incl. rewrite length_seqZ. lia.
Qed.

Lemma track_step_ok x y : track_step x y -> track_ok x -> track_ok y.
Proof.
  intros [x0 k sl s' Hk Hr Hn|x0 closed sl q Hq Hcl Hc|x0 t' Hkeep] (h & c & Hhc & Hlead & HcN & Hcen & Hl & Hw).
  - assert (Hrt : routable h k = true).
    { unfold get_route in Hr. rewrite id_of_outbound, Hw in Hr by (unfold CID_WINDOW_LEADING; lia). by destruct (routable h k). }
    apply routable_true in Hrt. unfold window_lo, sat_sub, CID_WINDOW_TRAILING in Hrt.
    destruct (note_routed (k_session x0) c k) as (s1 & Hn' & Hcen'); [done|lia|done|unfold CID_WINDOW_LEADING in *; lia|].
    rewrite Hn' in Hn. injection Hn as <- <-. exists h, (Z.max c k). split; [lia|]. split; [lia|]. split; [lia|]. split; [done|]. split; [|done].
    cbn. destruct (Z.ltb_spec c k); cbn.
    + rewrite Z.max_r by lia. by apply leads_snoc.
    + rewrite Z.max_l, app_nil_r by lia. done.
  - rewrite Hq in Hl. inversion Hl as [|a b q' d Hab Hl']. subst. exists b, c. split; [lia|]. split; [lia|]. split; [done|]. split; [done|].
    split; [done|]. apply window_slide; (done || lia).
  - exists h, c. split; [done|]. split; [done|]. split; [done|]. split; [done|]. split; [done|]. intros k Hk. cbn [k_table]. rewrite Hkeep by done. by apply Hw.
Qed.

(** The session's registration: the window the new session has, with room for it and no
    one holding its ids. *)
Lemma track_register closed t :
  (∀ k, 0 <= k <= N + CID_WINDOW_LEADING -> routes t !! id_of k = None) -> route_count t + CID_WINDOW_LEADING + 1 <= MAX_ROUTES ->
  track_ok (mk_tracked (register_window closed t (inbound_window_cids (cid_new secret true)) tx owner) (cid_new secret true) []).
Proof.
  intros Hfree Hc. exists 0, 0. split; [lia|]. split; [unfold CID_WINDOW_LEADING; lia|]. split; [lia|]. split; [done|]. split; [constructor|].
  intros k Hk. cbn [k_table]. rewrite inbound_window_cids_range by (split; by vm_compute).
  change (inbound_cid_highest_seen (cid_new secret true)) with 0. fold id_of. unfold window_lo, sat_sub. cbn [Z.max Z.sub Z.add Z.opp].
  rewrite register_fresh.
  - rewrite (decide_ext _ _ _ _ (id_in_range k 0 (0 + CID_WINDOW_LEADING) Hk ltac:(lia) ltac:(lia))), Hfree by done.
    pose proof (routable_true 0 k) as R. unfold window_lo, sat_sub, CID_WINDOW_TRAILING in R. destruct (routable 0 k); case_decide; try done; lia.
  - apply ids_nodup; lia.
  - intros y (i & -> & Hi%elem_of_range)%list_elem_of_fmap. apply Hfree. lia.
  - unfold len. rewrite (length_fmap id_of). unfold range_incl. rewrite length_seqZ. unfold CID_WINDOW_LEADING in *. lia.
Qed.
End Window.


(** ** A run: the peer migrates twice at once, the slide is applied after another datagram *)

Section Toy.
#[local] Existing Instance toy_primitives.

Lemma track_two secret tx N t s s' closed sl k :
  0 <= k <= N -> get_route t (outbound_cid (cid_chain (client_ids secret)) k) = Some tx ->
  note_migration_path s (path_after (client_ids secret) (Z.to_nat k)) = (Some sl, s') ->
  closed tx = false -> route_count t + CID_WINDOW_LEADING <= MAX_ROUTES ->
  rtc (track_step secret tx N) (mk_tracked t s []) (mk_tracked (apply_slide closed t sl) s' []).
Proof.
  intros Hk Hg Hn Hc Hr. eapply rtc_l; [by apply (track_datagram secret tx N (mk_tracked t s []) k (Some sl) s')|].
  apply rtc_once. exact (track_slide secret tx N (mk_tracked t s' [sl]) closed sl [] eq_refl Hc Hr).
Qed.

Definition toy_secret : list Z := replicate 32 5.
#[local] Abbreviation toy_table := (register_window (λ _, false) routes_new (inbound_window_cids (cid_new toy_secret true)) 7 1).
Definition toy_session : CidState := (note_migration_path (cid_new toy_secret true) 2).2.
Definition toy_slide : CidSlide := default (mk_slide [] [] []) (note_migration_path (cid_new toy_secret true) 2).1.

Lemma toy_distinct : ids_distinct toy_secret 40.
Proof.
  intros i j Hi Hj E. unfold CID_WINDOW_LEADING in *.
  assert (Hall : forallb (λ k, hd 0 (id_of toy_secret k) =? k) (seqZ 0 57) = true) by by vm_compute.
  assert (Hid : ∀ k, 0 <= k <= 56 -> hd 0 (id_of toy_secret k) = k).
  { intros k Hk. apply Z.eqb_eq. rewrite forallb_forall in Hall. apply Hall, list_elem_of_In, elem_of_seqZ. lia. }
  rewrite <- (Hid i), <- (Hid j) by lia. by rewrite E.
Qed.

#[local] Abbreviation toy_end := (mk_tracked (apply_slide (λ _, false) toy_table toy_slide) toy_session []).

End Toy.
