(* ===== verification/Demux.v ===== *)
(** * The UDP listener's demultiplexer ([run_udp_demux] of [core/src/api/udp_listener.rs])

    One turn of its loop for each thing it can wake up for, over the tables of [Routes],
    the reassembler of [Datagram] and the admission of [Handshake]; and the handshake
    tasks it spawns, as far as they matter to its counts.  What it asks of others (which
    channels are closed, which sessions have been heard from, whether a permit is free,
    whether a send is accepted) is in the event. *)

From Stdlib Require Import ZArith Lia.
From stdpp Require Import base numbers option list gmap.
From S2P Require Import Prelude Errors Wire Crypto Datagram Cid SessionCache Pow Reputation HandshakeWire Hybrid Handshake Routes.

Local Open Scope Z_scope.
Local Open Scope phantom_scope.

Definition MAX_INFLIGHT_HANDSHAKES : Z := 256.

(** What a handshake task hands over when it has established a session. *)
Record SessionRegistration := mk_registration {
  reg_cids : list ConnId;
  reg_tx : Z;
  reg_owner : Z;
  bootstrap_cid : ConnId;
  reg_flight : option HandshakeFlight;
}.

Record Demux := mk_demux {
  d_routes : RouteTable;
  d_flights : FlightTable;
  d_pending : PendingByIp;
  d_asm : FragmentAssembler;
  d_next_owner : Z;
  d_new_conns : Z;
  d_server : HandshakeServer;
}.

Definition with_routes (d : Demux) (r : RouteTable) : Demux :=
  mk_demux r (d_flights d) (d_pending d) (d_asm d) (d_next_owner d) (d_new_conns d) (d_server d).
Definition with_flights (d : Demux) (f : FlightTable) : Demux :=
  mk_demux (d_routes d) f (d_pending d) (d_asm d) (d_next_owner d) (d_new_conns d) (d_server d).
Definition with_pending (d : Demux) (p : PendingByIp) : Demux :=
  mk_demux (d_routes d) (d_flights d) p (d_asm d) (d_next_owner d) (d_new_conns d) (d_server d).
Definition with_asm (d : Demux) (a : FragmentAssembler) : Demux :=
  mk_demux (d_routes d) (d_flights d) (d_pending d) a (d_next_owner d) (d_new_conns d) (d_server d).

Definition demux_new (s : HandshakeServer) : Demux := mk_demux routes_new flights_new ∅ ∅ 0 0 s.

(** The moment: closed channels, sessions heard from, the monotonic clock and the wall
    clock. *)
Record Moment := mk_moment { m_closed : Z -> bool; m_heard : Z -> bool; m_now : Z; m_unix : option Z }.

(** A datagram also meets: whether a permit is free, whether the route's channel takes
    the frame, and the channel that would be made for a new connection. *)
Inductive demux_event :=
| EvReap (cid : ConnId) (ip : IpAddr)
| EvRegister (r : SessionRegistration)
| EvSlide (s : CidSlide)
| EvRetire (owner : Z)
| EvSweep
| EvDatagram (bytes : list Z) (peer : SocketAddr) (permit sent : bool) (tx : Z).

Inductive demux_effect :=
| FxRepeat (datagrams : list (list Z)) (dst : SocketAddr)
| FxRetry (cid : ConnId) (peer : SocketAddr) (r : HelloRetryRequest)
| FxSpawn (owner : Z) (cid : ConnId) (peer : SocketAddr) (frame : list Z).

Section Demux.
Context `{Primitives, PowHash, Borsh, HybridPrims, HandshakeHash}.
Context (entry_overhead vec_size : Z).

(** Every 256th new connection. *)
Definition housekeep (d : Demux) (m : Moment) : Demux :=
  let n := wrap 64 (d_new_conns d + 1) in
  if n mod 256 =? 0
  then mk_demux (reap_dead (m_closed m) (d_routes d)) (d_flights d) (d_pending d) (d_asm d) (d_next_owner d) n
         (set_reputation (d_server d) (gc (reputation (d_server d)) (default 0 (m_unix m))))
  else mk_demux (d_routes d) (d_flights d) (d_pending d) (d_asm d) (d_next_owner d) n (d_server d).

(** A frame nothing routes for. *)
Definition new_connection (d : Demux) (m : Moment) (hdr : OuterHeader) (frame : list Z) (peer : SocketAddr) (permit : bool) (tx : Z)
  : Demux * list demux_effect :=
  match ty hdr with
  | Datagram.Initial =>
    if negb (client_hello_lengths_within_bounds frame) then (d, [])
    else match hello_from_slice frame with
    | None => (d, [])
    | Some hello =>
      match udp_admit (d_server d) hello peer.1 (m_unix m) with
      | AdmitDrop => (d, [])
      | AdmitRetry r => (d, [FxRetry (cid hdr) peer r])
      | Admit =>
        if MAX_PENDING_PER_IP <=? pending_count (d_pending d) peer.1 then (d, [])
        else if negb permit then (d, [])
        else
          let owner := wrap 64 (d_next_owner d + 1) in
          let d1 := mk_demux (d_routes d) (d_flights d) (d_pending d) (d_asm d) owner (d_new_conns d) (d_server d) in
          match try_insert (m_closed m) (d_routes d) (cid hdr) tx owner with
          | (false, r) => (with_routes d1 r, [])
          | (true, r) =>
            let d2 := with_pending (with_routes d1 r) (pending_admit (d_pending d) peer.1) in
            (housekeep d2 m, [FxSpawn owner (cid hdr) peer frame])
          end
      end
    end
  | _ => (d, [])
  end.

Definition on_committed_route (d : Demux) (hdr : OuterHeader) : bool :=
  match ty hdr, get_route (d_routes d) (cid hdr) with Datagram.Initial, Some _ => true | _, _ => false end.

Definition demux_datagram (d : Demux) (m : Moment) (bytes : list Z) (peer : SocketAddr) (permit sent : bool) (tx : Z)
  : Demux * list demux_effect :=
  let '(r, asm) := push_datagram (d_asm d) (m_now m) bytes in
  let d := with_asm d asm in
  match r with
  | Err _ | Ok (_, None) => (d, [])
  | Ok (hdr, Some frame) =>
    let '(again, d) :=
      if on_committed_route d hdr
      then let '(a, fl) := repeat_flight (m_heard m) (d_flights d) (cid hdr) frame (m_now m) in (a, with_flights d fl)
      else (None, d) in
    match again with
    | Some (datagrams, dst) => (d, [FxRepeat datagrams dst])
    | None =>
      match deliver_route (m_closed m) (d_routes d) (cid hdr) frame sent with
      | (None, r) => (with_routes d r, [])
      | (Some frame, r) => new_connection (with_routes d r) m hdr frame peer permit tx
      end
    end
  end.

Definition demux_turn (d : Demux) (m : Moment) (e : demux_event) : Demux * list demux_effect :=
  match e with
  | EvReap c ip => (with_routes (with_pending d (pending_release (d_pending d) ip)) (remove_if_dead (m_closed m) (d_routes d) c), [])
  | EvRegister r =>
    let d1 := with_routes d (register_window (m_closed m) (d_routes d) (reg_cids r) (reg_tx r) (reg_owner r)) in
    (match reg_flight r with
     | Some f => with_flights d1 (retain entry_overhead vec_size (m_heard m) (d_flights d1) (bootstrap_cid r) f (m_now m)).2
     | None => d1
     end, [])
  | EvSlide s => (with_routes d (apply_slide (m_closed m) (d_routes d) s), [])
  | EvRetire owner => (with_routes d (retire_session (d_routes d) owner), [])
  | EvSweep => (with_flights (with_routes d (reap_dead (m_closed m) (d_routes d))) (sweep (m_heard m) (d_flights d) (m_now m)), [])
  | EvDatagram bytes peer permit sent tx => demux_datagram d m bytes peer permit sent tx
  end.
End Demux.

(** ** A datagram's turn *)

Section Turn.
Context `{PrimitiveLaws, PowHash, !Borsh, !HybridPrims, !HandshakeHash}.

(** The address has echoed a cookie: what the frame must be for a slot to be committed. *)
Definition validated (s : HandshakeServer) (frame : list Z) (ip : IpAddr) (clock : option Z) : Prop :=
  client_hello_lengths_within_bounds frame = true ∧
  ∃ hello c, hello_from_slice frame = Some hello ∧ ch_cookie hello = Some c ∧ validate_cookie (master_secret s) ip c clock = Ok true.

Lemma udp_admit_validated s hello ip clock :
  udp_admit s hello ip clock = Admit -> ∃ c, ch_cookie hello = Some c ∧ validate_cookie (master_secret s) ip c clock = Ok true.
Proof.
  unfold udp_admit. destruct (ch_cookie hello) as [c|]; [|by destruct (generate_cookie _ _ _)].
  destruct (validate_cookie _ _ _ _) as [[]|] eqn:E; [by exists c| |]; by destruct (generate_cookie _ _ _).
Qed.

(** Nothing committed: the turn at most dropped dead routes and spent repeats. *)
Definition quiet (d d' : Demux) : Prop :=
  d_pending d' = d_pending d ∧ d_server d' = d_server d ∧ d_new_conns d' = d_new_conns d ∧ routes (d_routes d') ⊆ routes (d_routes d).

Lemma demux_quiet_trans d1 d2 d3 : quiet d1 d2 -> quiet d2 d3 -> quiet d1 d3.
Proof. intros (P1 & S1 & N1 & R1) (P2 & S2 & N2 & R2). split; [congruence|]. split; [congruence|]. split; [congruence|]. by etransitivity. Qed.

Lemma demux_quiet_same d : quiet d d.
Proof. done. Qed.

Lemma remove_if_dead_sub closed t c : routes (remove_if_dead closed t c) ⊆ routes t.
Proof. unfold remove_if_dead. destruct (routes t !! c); [|done]. case_test; [|done]. apply (remove_all_sub [c]). Qed.

Lemma try_insert_refused closed t c tx owner r : try_insert closed t c tx owner = (false, r) -> routes r ⊆ routes t.
Proof.
  unfold try_insert. set (go := if _ && _ then _ else _).
  assert (Hgo : go = (false, r) -> routes r ⊆ routes t).
  { subst go. case_test; [|done]. intros [= <-]. case_test; [|done]. apply remove_all_sub. }
  destruct (routes t !! c) as [e|]; [|done]. repeat case_test; try done; by intros [= <-].
Qed.

(** A new connection is committed exactly for a validated address with room left. *)
Lemma new_connection_spec d m hdr frame peer permit tx :
  let '(d', fx) := new_connection d m hdr frame peer permit tx in
  (quiet d d' ∧ (fx = [] ∨ ∃ r, fx = [FxRetry (cid hdr) peer r] ∧ d' = d)) ∨
  (∃ owner, fx = [FxSpawn owner (cid hdr) peer frame] ∧ ty hdr = Datagram.Initial ∧ validated (d_server d) frame peer.1 (m_unix m) ∧
     permit = true ∧ pending_count (d_pending d) peer.1 < MAX_PENDING_PER_IP ∧ d_pending d' = pending_admit (d_pending d) peer.1 ∧
     owner = wrap 64 (d_next_owner d + 1) ∧ d_next_owner d' = owner).
Proof.
  unfold new_connection. destruct (ty hdr); [|by left; split; [|left]..].
  destruct (client_hello_lengths_within_bounds frame) eqn:Hw; cbn [negb]; [|by left; split; [|left]].
  destruct (hello_from_slice frame) as [hello|] eqn:Hh; [|by left; split; [|left]].
  destruct (udp_admit _ _ _ _) as [|r|] eqn:Ha; [|by left; split; [|right; exists r]|by left; split; [|left]].
  destruct (Z.leb_spec MAX_PENDING_PER_IP (pending_count (d_pending d) peer.1)); [by left; split; [|left]|].
  destruct permit; cbn [negb]; [|by left; split; [|left]].
  destruct (try_insert _ _ _ _ _) as [[] r] eqn:Et.
  - right. eexists. split; [done|]. split; [done|]. destruct (udp_admit_validated _ _ _ _ Ha) as (c & Hc & Hv).
    split; [split; [done|]; by exists hello, c|]. split; [done|]. split; [done|]. unfold housekeep. by case_test.
  - left. split; [|by left]. split; [done|]. split; [done|]. split; [done|]. cbn. by eapply try_insert_refused.
Qed.

Definition spawned (fx : list demux_effect) : list (ConnId * IpAddr) :=
  fx ≫= λ x, match x with FxSpawn _ c peer _ => [(c, peer.1)] | _ => [] end.

Lemma datagram_spec d m bytes peer permit sent tx :
  let '(d', fx) := demux_datagram d m bytes peer permit sent tx in
  d_asm d' = (push_datagram (d_asm d) (m_now m) bytes).2 ∧
  (quiet d d' ∧ spawned fx = [] ∨
   ∃ owner c frame, fx = [FxSpawn owner c peer frame] ∧ validated (d_server d) frame peer.1 (m_unix m) ∧
     permit = true ∧ pending_count (d_pending d) peer.1 < MAX_PENDING_PER_IP ∧ d_pending d' = pending_admit (d_pending d) peer.1 ∧
     get_route (d_routes d) c = None ∧ owner = wrap 64 (d_next_owner d + 1) ∧ d_next_owner d' = owner).
Proof.
  unfold demux_datagram. destruct (push_datagram _ _ _) as [r asm]. cbn [snd].
  destruct r as [[hdr [frame|]]|]; [|by split; [|left]..].
  set (again := if on_committed_route (with_asm d asm) hdr then _ else _).
  assert (Hq : quiet d again.2 ∧ d_asm again.2 = asm ∧ d_routes again.2 = d_routes d ∧ d_next_owner again.2 = d_next_owner d).
  { subst again. destruct (on_committed_route _ _); [|done]. by destruct (repeat_flight _ _ _ _ _). }
  destruct again as [[[ds dst]|] d1]; cbn [snd] in Hq; destruct Hq as (Hq & Hasm & Hr & Hn); [by split; [|left]|].
  unfold deliver_route. destruct (get_route (d_routes d1) (cid hdr)) as [ch|] eqn:Eg.
  - split; [done|]. left. split; [|done]. eapply demux_quiet_trans; [exact Hq|]. split; [done|]. split; [done|]. split; [done|]. cbn.
    case_test; [apply remove_if_dead_sub|done].
  - pose proof (new_connection_spec (with_routes d1 (d_routes d1)) m hdr frame peer permit tx) as Hs.
    destruct (new_connection _ _ _ _ _ _ _) as [d' fx] eqn:En.
    assert (Hasm' : d_asm d' = asm).
    { unfold new_connection in En. repeat (match type of En with context [match ?x with _ => _ end] => destruct x end; try by injection En as <- <-). 
      injection En as <- <-. unfold housekeep. by case_test. }
    split; [done|]. destruct Hq as (Qp & Qs & Qn & Qr). destruct Hs as [[Hq' Hfx]|(owner & -> & _ & Hv & Hp & Hc & Hpen & Ho & Hno)].
    + left. split; [eapply demux_quiet_trans; [|exact Hq']; done|]. destruct Hfx as [->|(r & -> & _)]; done.
    + right. exists owner, (cid hdr), frame. cbn in Hv, Hc, Hpen, Ho, Hno. rewrite Qs in Hv. rewrite Qp in Hc, Hpen. rewrite <- Hr, Hn in *. done.
Qed.
End Turn.

(** ** The listener: the demultiplexer and the handshake tasks it spawned *)

(** Tasks by their bootstrap id and source: still running, past their reap signal but
    with the permit still held; and the reap signals not yet taken. *)
Record Listener := mk_listener {
  l_demux : Demux;
  l_running : list (ConnId * IpAddr);
  l_ending : list (ConnId * IpAddr);
  l_reaps : list (ConnId * IpAddr);
}.

Section System.
Context `{PrimitiveLaws, PowHash, !Borsh, !HybridPrims, !HandshakeHash}.
Context (entry_overhead vec_size : Z).

(** The events that do not touch the counts; a registered flight fits the budget. *)
Definition table_event (e : demux_event) : Prop :=
  match e with
  | EvRegister r => match reg_flight r with Some f => 0 <= retained_cost entry_overhead vec_size f <= RETAINED_FLIGHT_BUDGET | None => True end
  | EvSlide _ | EvRetire _ | EvSweep => True
  | EvReap _ _ | EvDatagram _ _ _ _ _ => False
  end.

Definition free_permit (l : Listener) : bool := len (l_running l) + len (l_ending l) <? MAX_INFLIGHT_HANDSHAKES.

Inductive listener_step : Listener -> Listener -> Prop :=
| step_datagram l m bytes peer sent tx d' fx :
    is_bytes bytes -> demux_datagram (l_demux l) m bytes peer (free_permit l) sent tx = (d', fx) ->
    listener_step l (mk_listener d' (l_running l ++ spawned fx) (l_ending l) (l_reaps l))
| step_signal l pre x post :
    l_running l = pre ++ x :: post -> listener_step l (mk_listener (l_demux l) (pre ++ post) (x :: l_ending l) (l_reaps l ++ [x]))
| step_end l pre x post :
    l_ending l = pre ++ x :: post -> listener_step l (mk_listener (l_demux l) (l_running l) (pre ++ post) (l_reaps l))
| step_reap l m x rest :
    l_reaps l = x :: rest ->
    listener_step l (mk_listener (demux_turn entry_overhead vec_size (l_demux l) m (EvReap x.1 x.2)).1 (l_running l) (l_ending l) rest)
| step_table l m e :
    table_event e -> listener_step l (mk_listener (demux_turn entry_overhead vec_size (l_demux l) m e).1 (l_running l) (l_ending l) (l_reaps l))
| step_server l s :
    master_secret s = master_secret (d_server (l_demux l)) ->
    listener_step l (mk_listener (mk_demux (d_routes (l_demux l)) (d_flights (l_demux l)) (d_pending (l_demux l)) (d_asm (l_demux l))
                      (d_next_owner (l_demux l)) (d_new_conns (l_demux l)) s) (l_running l) (l_ending l) (l_reaps l)).

Definition from_ip (ip : IpAddr) (l : list (ConnId * IpAddr)) : Z := len (filter (λ x, x.2 = ip) l).

Lemma from_ip_app ip a b : from_ip ip (a ++ b) = from_ip ip a + from_ip ip b.
Proof. unfold from_ip. by rewrite filter_app, len_app. Qed.

Lemma from_ip_cons ip x l : from_ip ip (x :: l) = (if decide (x.2 = ip) then 1 else 0) + from_ip ip l.
Proof. unfold from_ip. rewrite filter_cons. case_decide; [apply len_cons|done]. Qed.

Lemma from_ip_nonneg ip l : 0 <= from_ip ip l.
Proof. apply len_nonneg. Qed.

Lemma count_admit p ip x : pending_count (pending_admit p ip) x = (if decide (ip = x) then 1 else 0) + pending_count p x.
Proof.
  unfold pending_admit, pending_count at 1. case_decide as E; [subst; rewrite lookup_insert_eq|by rewrite lookup_insert_ne]. cbn. lia.
Qed.

Lemma count_release p ip x : 1 <= pending_count p ip -> pending_count (pending_release p ip) x = pending_count p x - (if decide (ip = x) then 1 else 0).
Proof.
  intros Hp. unfold pending_release, pending_count in *. destruct (p !! ip) as [c|] eqn:E; cbn in Hp; [|lia].
  destruct (Z.eqb_spec (c - 1) 0); case_decide; subst; rewrite ?lookup_delete_eq, ?lookup_insert_eq, ?lookup_delete_ne, ?lookup_insert_ne by done; cbn; rewrite ?E; cbn; lia.
Qed.

Record listener_ok (l : Listener) : Prop := {
  lk_counts ip : pending_count (d_pending (l_demux l)) ip = from_ip ip (l_running l) + from_ip ip (l_reaps l);
  lk_pending ip : pending_count (d_pending (l_demux l)) ip <= MAX_PENDING_PER_IP;
  lk_permits : len (l_running l) + len (l_ending l) <= MAX_INFLIGHT_HANDSHAKES;
  lk_routes : wf_routes (d_routes (l_demux l));
  lk_flights : wf_flights (d_flights (l_demux l)) ∧ retained_bytes (d_flights (l_demux l)) <= RETAINED_FLIGHT_BUDGET;
  lk_asm : wf_assembler (d_asm (l_demux l));
}.

Lemma new_connection_wf d m hdr frame peer permit tx : wf_routes (d_routes d) -> wf_routes (d_routes (new_connection d m hdr frame peer permit tx).1).
Proof.
  intros Hwf. unfold new_connection. destruct (ty hdr); [|done..].
  destruct (negb (client_hello_lengths_within_bounds frame)); [done|]. destruct (hello_from_slice frame); [|done].
  destruct (udp_admit _ _ _ _); [|done..]. case_test; [done|]. case_test; [done|].
  pose proof (try_insert_wf (m_closed m) (d_routes d) (cid hdr) tx (wrap 64 (d_next_owner d + 1)) Hwf) as Hi.
  destruct (try_insert _ _ _ _ _) as [[] r]; [|done]. cbn in *. unfold housekeep. case_test; [|done]. cbn. by apply reap_wf.
Qed.

Lemma datagram_wf d m bytes peer permit sent tx : wf_routes (d_routes d) -> wf_routes (d_routes (demux_datagram d m bytes peer permit sent tx).1).
Proof.
  intros Hwf. unfold demux_datagram. destruct (push_datagram _ _ _) as [[[hdr [frame|]]|] asm]; [|done..].
  set (again := if on_committed_route (with_asm d asm) hdr then _ else _).
  assert (Hr : d_routes again.2 = d_routes d) by (subst again; destruct (on_committed_route _ _); [|done]; by destruct (repeat_flight _ _ _ _ _)).
  destruct again as [[[ds dst]|] d1]; cbn [snd fst] in *; [by rewrite Hr|]. unfold deliver_route.
  destruct (get_route (d_routes d1) (cid hdr)); [|by apply new_connection_wf; cbn; rewrite Hr].
  cbn. rewrite Hr. case_test; [by apply remove_if_dead_wf|done].
Qed.

Lemma new_connection_flights d m hdr frame peer permit tx : d_flights (new_connection d m hdr frame peer permit tx).1 = d_flights d.
Proof.
  unfold new_connection. destruct (ty hdr); [|done..]. case_test; [done|]. destruct (hello_from_slice frame); [|done].
  destruct (udp_admit _ _ _ _); [|done..]. case_test; [done|]. case_test; [done|].
  destruct (try_insert _ _ _ _ _) as [[] r]; [|done]. unfold housekeep. by case_test.
Qed.

Lemma datagram_flights d m bytes peer permit sent tx :
  wf_flights (d_flights d) -> let d' := (demux_datagram d m bytes peer permit sent tx).1 in
  wf_flights (d_flights d') ∧ retained_bytes (d_flights d') <= retained_bytes (d_flights d).
Proof.
  intros Hwf. unfold demux_datagram. destruct (push_datagram _ _ _) as [[[hdr [frame|]]|] asm]; [|done..].
  set (again := if on_committed_route (with_asm d asm) hdr then _ else _).
  assert (Hr : wf_flights (d_flights again.2) ∧ retained_bytes (d_flights again.2) <= retained_bytes (d_flights d)).
  { subst again. destruct (on_committed_route _ _); [|done]. pose proof (repeat_wf (m_heard m) (d_flights d) (cid hdr) frame (m_now m) Hwf).
    pose proof (repeat_bytes (m_heard m) (d_flights d) (cid hdr) frame (m_now m) Hwf). cbn. by destruct (repeat_flight _ _ _ _ _). }
  destruct again as [[[ds dst]|] d1]; cbn [snd fst] in *; [done|]. destruct (deliver_route _ _ _ _ _) as [[f|] r]; [|done].
  cbn. by rewrite new_connection_flights.
Qed.

Lemma step_ok_datagram l m bytes peer sent tx d' fx :
  listener_ok l -> is_bytes bytes -> demux_datagram (l_demux l) m bytes peer (free_permit l) sent tx = (d', fx) ->
  listener_ok (mk_listener d' (l_running l ++ spawned fx) (l_ending l) (l_reaps l)).
Proof.
  intros [Hc Hp Hm Hr [Hf Hb] Ha] Hby E.
  pose proof (datagram_spec (l_demux l) m bytes peer (free_permit l) sent tx) as Hs.
  pose proof (datagram_wf (l_demux l) m bytes peer (free_permit l) sent tx Hr) as Hr'.
  pose proof (datagram_flights (l_demux l) m bytes peer (free_permit l) sent tx Hf) as [Hf' Hb'].
  pose proof (push_datagram_wf _ (m_now m) _ Hby Ha) as Ha'.
  rewrite E in *. cbn [fst] in *. destruct Hs as [Hasm Hs]. rewrite <- Hasm in Ha'.
  destruct Hs as [[(Hpen & _) Hsp]|(owner & c & frame & -> & _ & Hperm & Hlt & Hpen & _)].
  - rewrite Hsp, app_nil_r. split; cbn; [by setoid_rewrite Hpen|by setoid_rewrite Hpen|done|done|split; [done|lia]|done].
  - cbn [spawned mbind list_bind app]. unfold free_permit in Hperm. bool_to_prop. split; cbn; [| | |done|split; [done|lia]|done].
    + intros ip. rewrite Hpen, count_admit, from_ip_app, from_ip_cons, Hc. cbn. change (from_ip ip []) with 0. lia.
    + intros ip. rewrite Hpen, count_admit. specialize (Hp ip). case_decide; subst; lia.
    + rewrite len_app. change (len [_]) with 1. lia.
Qed.

Lemma step_ok_reap l m x rest :
  listener_ok l -> l_reaps l = x :: rest ->
  listener_ok (mk_listener (demux_turn entry_overhead vec_size (l_demux l) m (EvReap x.1 x.2)).1 (l_running l) (l_ending l) rest).
Proof.
  intros [Hc Hp Hm Hr Hf Ha] E.
  assert (Hone : 1 <= pending_count (d_pending (l_demux l)) x.2).
  { rewrite Hc, E, from_ip_cons, decide_True by done. pose proof (from_ip_nonneg x.2 (l_running l)). pose proof (from_ip_nonneg x.2 rest). lia. }
  split; cbn; [| |done|by apply remove_if_dead_wf|done|done].
  - intros ip. rewrite count_release, Hc, E, from_ip_cons by done. lia.
  - intros ip. rewrite count_release by done. specialize (Hp ip). case_decide; lia.
Qed.

Lemma step_ok_table l m e :
  listener_ok l -> table_event e ->
  listener_ok (mk_listener (demux_turn entry_overhead vec_size (l_demux l) m e).1 (l_running l) (l_ending l) (l_reaps l)).
Proof.
  intros [Hc Hp Hm Hr [Hf Hb] Ha] He.
  destruct e as [|r|s|owner| |]; [done| | | | |done]; cbn [demux_turn fst].
  - cbn in He. destruct (reg_flight r) as [f|]; split; cbn; try done; try by apply register_wf. by apply (retain_spec _ _ _ _ (bootstrap_cid r)).
  - split; cbn; try done. by apply slide_wf.
  - split; cbn; try done. by apply retire_wf.
  - split; cbn; try done; [by apply reap_wf|]. split; [by apply flights_sweep_wf|].
    pose proof (sweep_bytes (m_heard m) _ (m_now m) Hf). cbn in *. lia.
Qed.

Lemma listener_step_ok l l' : listener_step l l' -> listener_ok l -> listener_ok l'.
Proof.
  intros [l0 m bytes peer sent tx d' fx Hby E|l0 pre x post E|l0 pre x post E|l0 m x rest E|l0 m e He|l0 s Hs] Hok.
  - by eapply step_ok_datagram.
  - destruct Hok as [Hc Hp Hm Hr Hf Ha]. rewrite E in *. split; cbn; try done.
    + intros ip. rewrite Hc, !from_ip_app, !from_ip_cons. change (from_ip ip []) with 0. lia.
    + rewrite ?len_app, ?len_cons in *. lia.
  - destruct Hok as [Hc Hp Hm Hr Hf Ha]. rewrite E in *. split; cbn; try done. rewrite ?len_app, ?len_cons in *. lia.
  - by apply step_ok_reap.
  - by apply step_ok_table.
  - by destruct Hok.
Qed.

Lemma listener_new_ok s : listener_ok (mk_listener (demux_new s) [] [] []).
Proof.
  split; cbn; [done|done|done|apply routes_new_wf|split; [apply flights_new_wf|done]|]. split; [rewrite map_size_empty; lia|apply map_Forall_empty].
Qed.

(** C25: One datagram, whatever it holds and whatever state it meets: nothing is committed (no
    slot, no task, no server state, no new route), or one handshake is started, and then
    the frame is a hello within bounds that carries a cookie valid for the address it came
    from, a permit and a slot for that address were free, and no route held its id. *)
Theorem commits_need_a_cookie d m bytes peer permit sent tx :
  let '(d', fx) := demux_datagram d m bytes peer permit sent tx in
  (d_pending d' = d_pending d ∧ d_server d' = d_server d ∧ routes (d_routes d') ⊆ routes (d_routes d) ∧ spawned fx = []) ∨
  (∃ c frame hello cookie,
     fx = [FxSpawn (wrap 64 (d_next_owner d + 1)) c peer frame] ∧
     client_hello_lengths_within_bounds frame = true ∧ hello_from_slice frame = Some hello ∧ ch_cookie hello = Some cookie ∧
     validate_cookie (master_secret (d_server d)) peer.1 cookie (m_unix m) = Ok true ∧
     permit = true ∧ pending_count (d_pending d) peer.1 < MAX_PENDING_PER_IP ∧ get_route (d_routes d) c = None ∧
     d_pending d' = pending_admit (d_pending d) peer.1).
Proof.
  pose proof (datagram_spec d m bytes peer permit sent tx) as Hs. destruct (demux_datagram _ _ _ _ _ _ _) as [d' fx].
  destruct Hs as [_ [[(Hp & Hsv & _ & Hr) Hf]|(owner & c & frame & Hf & (Hb & hello & cookie & Hh & Hc & Hv) & Hperm & Hlt & Hpen & Hg & Ho & _)]].
  - by left.
  - right. exists c, frame, hello, cookie. by subst owner.
Qed.

(** C24: Whatever arrives, from whomever, and however the handshake tasks end: the slots an
    address holds are exactly its handshakes still running or not yet reaped, so none
    leaks, and never more than 64; at most 256 handshakes run at once; and the routes,
    the retained replies and the reassemblies stay within their bounds. *)
Theorem listener_bounded s l :
  rtc listener_step (mk_listener (demux_new s) [] [] []) l ->
  (∀ ip, pending_count (d_pending (l_demux l)) ip = from_ip ip (l_running l) + from_ip ip (l_reaps l) ∧
         pending_count (d_pending (l_demux l)) ip <= MAX_PENDING_PER_IP) ∧
  len (l_running l) + len (l_ending l) <= MAX_INFLIGHT_HANDSHAKES ∧
  route_count (d_routes (l_demux l)) <= MAX_ROUTES ∧
  retained_bytes (d_flights (l_demux l)) <= RETAINED_FLIGHT_BUDGET ∧
  (size (d_asm (l_demux l)) <= MAX_CONCURRENT_ASSEMBLIES)%nat.
Proof.
  intros Hs. assert (Hok : listener_ok l).
  { revert Hs. generalize (listener_new_ok s). generalize (mk_listener (demux_new s) [] [] []). intros l0 H0' Hs.
    induction Hs as [|x y z Hxy _ IH]; [done|]. apply IH. by eapply listener_step_ok. }
  destruct Hok as [Hc Hp Hm Hr [_ Hb] [Ha _]]. split; [intros ip; split; [apply Hc|apply Hp]|]. split; [done|]. split; [apply Hr|]. done.
Qed.
End System.

(** ** A run *)

Section Toy.
#[local] Existing Instance toy_primitives.
#[local] Existing Instance toy_hash.
#[local] Existing Instance borsh_by_format.
#[local] Existing Instance toy_hybrid.
#[local] Existing Instance toy_handshake_hash.

Definition toy_moment : Moment := mk_moment (λ _, false) (λ _, false) 0 (Some 1000).
Definition toy_datagram : list Z := encode_header Datagram.Initial false (replicate 8 1) ++ enc c_hello toy_connect.
Definition toy_turn : Demux * list demux_effect := demux_datagram (demux_new toy_server) toy_moment toy_datagram (toy_ip, 9) true true 5.
Definition toy_bound : Listener := mk_listener toy_turn.1 [] [(replicate 8 1, toy_ip)] [(replicate 8 1, toy_ip)].

Lemma toy_spawned : spawned toy_turn.2 = [(replicate 8 1, toy_ip)].
Proof. by vm_compute. Qed.

Lemma listener_bounded_witness :
  pending_count (d_pending (l_demux toy_bound)) toy_ip = 1 ∧ pending_count (d_pending (l_demux toy_bound)) toy_ip <= MAX_PENDING_PER_IP.
Proof.
  destruct (listener_bounded 64 24 toy_server toy_bound) as (Hc & _).
  - eapply rtc_l; [|eapply rtc_l; [|apply rtc_refl]].
    + apply (step_datagram _ _ _ toy_moment toy_datagram (toy_ip, 9) true 5 toy_turn.1 toy_turn.2).
      * apply is_bytes_check. by vm_compute.
      * apply surjective_pairing.
    + rewrite toy_spawned. cbn [l_running l_ending l_reaps app].
      exact (step_signal 64 24 (mk_listener toy_turn.1 [(replicate 8 1, toy_ip)] [] []) [] (replicate 8 1, toy_ip) [] eq_refl).
  - split; [|apply (Hc toy_ip)]. destruct (Hc toy_ip) as [-> _]. by vm_compute.
Defined.
End Toy.
