(* ===== verification/UdpTransport.v ===== *)
(** * PhantomUDP transports ([core/src/api/udp_transport.rs])

    The client's and the server's end of one session: sending frames as datagrams, the
    client's receive loop with its retransmission schedule and the overlap after a rebind,
    the migration candidate with its amplification budget, and the server's handshake reply
    that the listener can repeat.  A socket is a number; what it does with a send (how many
    datagrams went out before an error) and what wakes the receive loop are arguments. *)

From Stdlib Require Import ZArith Lia.
From stdpp Require Import base numbers option list gmap.
From S2P Require Import Prelude Errors Crypto Datagram Handshake Routes.

Local Open Scope Z_scope.
Local Open Scope phantom_scope.

Definition Socket : Type := Z.

Inductive FramePhase := PhaseHandshake | PhaseEstablished.

#[export] Instance FramePhase_eq_dec : EqDecision FramePhase.
Proof. solve_decision. Defined.
#[export] Instance PacketType_eq_dec : EqDecision PacketType.
Proof. solve_decision. Defined.

(** ** The retransmission schedule, in nanoseconds *)

Definition DURATION_MAX : Z := 2 ^ 64 * 10 ^ 9 - 1.
Definition HANDSHAKE_INITIAL_RTO : Z := 1 * 10 ^ 9.
Definition HANDSHAKE_RETRANSMIT_BUDGET : Z := 8 * 10 ^ 9.

Definition checked_mul_duration (d k : Z) : option Z := if d * k <=? DURATION_MAX then Some (d * k) else None.
Definition sat_add_duration (a b : Z) : Z := Z.min (a + b) DURATION_MAX.

Definition next_handshake_wait (attempt spent : Z) : option Z :=
  if HANDSHAKE_RETRANSMIT_BUDGET <? spent then None
  else
    let remaining := HANDSHAKE_RETRANSMIT_BUDGET - spent in
    if remaining =? 0 then None
    else
      let doublings := if attempt <? 32 then wrap 32 (Z.shiftl 1 attempt) else u_max 32 in
      let rto := default HANDSHAKE_RETRANSMIT_BUDGET (checked_mul_duration HANDSHAKE_INITIAL_RTO doublings) in
      Some (Z.min rto remaining).

(** The intervals in order; [fuel] bounds their number. *)
Fixpoint handshake_retransmit_schedule (fuel : nat) (attempt spent : Z) : list Z :=
  match fuel, next_handshake_wait attempt spent with
  | S fuel, Some wait => wait :: handshake_retransmit_schedule fuel (sat_add 32 attempt 1) (sat_add_duration spent wait)
  | _, _ => []
  end.

(** ** Socket results *)

Inductive IoErrorKind := ConnectionRefused | ConnectionReset | OtherKind.
Record IoError := mk_io { io_kind : IoErrorKind; raw_os_error : option Z }.

Definition is_advisory_recv_error (linux : bool) (e : IoError) : bool :=
  match io_kind e with
  | ConnectionRefused | ConnectionReset => true
  | OtherKind => match raw_os_error e with Some errno => linux && ((errno =? 113) || (errno =? 101)) | None => false end
  end.

Inductive RecvAction := Got (bytes : list Z) (src : SocketAddr) | RetryRecv | FatalRecv (e : IoError).

Definition classify_recv (linux : bool) (r : result (list Z * SocketAddr) IoError) : RecvAction :=
  match r with
  | Ok (bytes, src) => Got bytes src
  | Err e => if is_advisory_recv_error linux e then RetryRecv else FatalRecv e
  end.

(** A send of some datagrams: whether all went out, and those that did. *)
Definition send_all (ds : list (list Z)) (fail_at : option nat) : bool * list (list Z) :=
  match fail_at with
  | Some k => if (k <? length ds)%nat then (false, take k ds) else (true, ds)
  | None => (true, ds)
  end.

(** What leaves: the socket, the datagram, the destination. *)
Abbreviation Sent := (list (Socket * list Z * SocketAddr)).
Definition sent_to (s : Socket) (dst : SocketAddr) (ds : list (list Z)) : Sent := (λ d, (s, d, dst)) <$> ds.

Definition wire_bytes (ds : list (list Z)) : Z := sum_Z (len <$> ds).

(** ** The migration candidate, the same on both sides *)

Record Candidate := mk_candidate {
  cand_addr : option SocketAddr;
  cand_recv : Z;
  cand_sent : Z;
  last_recv_src : option SocketAddr;
  last_frame_len : Z;
}.

Definition candidate_new : Candidate := mk_candidate None 0 0 None 0.

Definition note_received (c : Candidate) (src : SocketAddr) (frame : list Z) : Candidate :=
  mk_candidate (cand_addr c) (cand_recv c) (cand_sent c) (Some src) (len frame).

Definition confirm_source (c : Candidate) (peer : SocketAddr) : Candidate :=
  match last_recv_src c with
  | None => c
  | Some src =>
    if bool_decide (src = peer) then c
    else if bool_decide (cand_addr c = Some src)
    then mk_candidate (cand_addr c) (wrap 64 (cand_recv c + last_frame_len c)) (cand_sent c) (last_recv_src c) (last_frame_len c)
    else mk_candidate (Some src) (last_frame_len c) 0 (last_recv_src c) (last_frame_len c)
  end.

(** [send_to_candidate] on [sock], once the packet id is taken: the answer, the new
    candidate state and what left. *)
Definition send_candidate (c : Candidate) (cid : ConnId) (pid : Z) (sock : Socket) (data : list Z) (fail_at : option nat)
  : result bool CoreError * Candidate * Sent :=
  match cand_addr c with
  | None => (Ok false, c, [])
  | Some addr =>
    match encode_datagrams OneRtt cid pid data with
    | Err _ => (Err NetworkError, c, [])
    | Ok dgrams =>
      let wire := wire_bytes dgrams in
      if sat_mul 64 (cand_recv c) 3 <? sat_add 64 (cand_sent c) wire then (Ok false, c, [])
      else
        let '(ok, out) := send_all dgrams fail_at in
        if ok
        then (Ok true, mk_candidate (cand_addr c) (cand_recv c) (wrap 64 (cand_sent c + wire)) (last_recv_src c) (last_frame_len c), sent_to sock addr out)
        else (Err NetworkError, c, sent_to sock addr out)
    end
  end.

Definition take_candidate (c : Candidate) : option SocketAddr * Candidate :=
  match cand_addr c with
  | Some addr => (Some addr, mk_candidate None 0 0 (last_recv_src c) (last_frame_len c))
  | None => (None, c)
  end.

(** ** The client *)

Record UdpClientTransport := mk_client {
  uc_socket : Socket;
  uc_prev : option Socket;
  uc_server : SocketAddr;
  uc_cid : ConnId;
  uc_established : option ConnId;
  uc_phase : FramePhase;
  uc_next_pid : Z;
  uc_last_sent : list (list Z);
  uc_reasm : FragmentAssembler;
  uc_cand : Candidate;
  uc_notified : bool;
  uc_answered : bool;
}.

(** [connect]: the bound socket, or the error of the bind; the random id, or the error of
    the generator. *)
Definition client_connect (server : SocketAddr) (bound : option Socket) (random : option ConnId) : result UdpClientTransport CoreError :=
  match bound with
  | None => Err NetworkError
  | Some s =>
    match random with
    | None => Err RngError
    | Some c => Ok (mk_client s None server c None PhaseHandshake 0 [] ∅ candidate_new false false)
    end
  end.

Definition with_pid (u : UdpClientTransport) (n : Z) : UdpClientTransport :=
  mk_client (uc_socket u) (uc_prev u) (uc_server u) (uc_cid u) (uc_established u) (uc_phase u) n (uc_last_sent u) (uc_reasm u) (uc_cand u) (uc_notified u) (uc_answered u).
Definition with_last_sent (u : UdpClientTransport) (ds : list (list Z)) : UdpClientTransport :=
  mk_client (uc_socket u) (uc_prev u) (uc_server u) (uc_cid u) (uc_established u) (uc_phase u) (uc_next_pid u) ds (uc_reasm u) (uc_cand u) (uc_notified u) (uc_answered u).
Definition with_reasm (u : UdpClientTransport) (a : FragmentAssembler) : UdpClientTransport :=
  mk_client (uc_socket u) (uc_prev u) (uc_server u) (uc_cid u) (uc_established u) (uc_phase u) (uc_next_pid u) (uc_last_sent u) a (uc_cand u) (uc_notified u) (uc_answered u).
Definition with_cand (u : UdpClientTransport) (c : Candidate) : UdpClientTransport :=
  mk_client (uc_socket u) (uc_prev u) (uc_server u) (uc_cid u) (uc_established u) (uc_phase u) (uc_next_pid u) (uc_last_sent u) (uc_reasm u) c (uc_notified u) (uc_answered u).
Definition with_prev (u : UdpClientTransport) (p : option Socket) : UdpClientTransport :=
  mk_client (uc_socket u) p (uc_server u) (uc_cid u) (uc_established u) (uc_phase u) (uc_next_pid u) (uc_last_sent u) (uc_reasm u) (uc_cand u) (uc_notified u) (uc_answered u).
Definition with_notified (u : UdpClientTransport) (b : bool) : UdpClientTransport :=
  mk_client (uc_socket u) (uc_prev u) (uc_server u) (uc_cid u) (uc_established u) (uc_phase u) (uc_next_pid u) (uc_last_sent u) (uc_reasm u) (uc_cand u) b (uc_answered u).
Definition with_answered (u : UdpClientTransport) : UdpClientTransport :=
  mk_client (uc_socket u) (uc_prev u) (uc_server u) (uc_cid u) (uc_established u) (uc_phase u) (uc_next_pid u) (uc_last_sent u) (uc_reasm u) (uc_cand u) (uc_notified u) true.
Definition with_server (u : UdpClientTransport) (s : SocketAddr) : UdpClientTransport :=
  mk_client (uc_socket u) (uc_prev u) s (uc_cid u) (uc_established u) (uc_phase u) (uc_next_pid u) (uc_last_sent u) (uc_reasm u) (uc_cand u) (uc_notified u) (uc_answered u).

Definition client_set_phase (u : UdpClientTransport) (p : FramePhase) : UdpClientTransport :=
  mk_client (uc_socket u) (uc_prev u) (uc_server u) (uc_cid u) (uc_established u) p (uc_next_pid u) (uc_last_sent u) (uc_reasm u) (uc_cand u) (uc_notified u) (uc_answered u).
Definition client_set_cid (u : UdpClientTransport) (c : ConnId) : UdpClientTransport :=
  mk_client (uc_socket u) (uc_prev u) (uc_server u) (uc_cid u) (Some c) (uc_phase u) (uc_next_pid u) (uc_last_sent u) (uc_reasm u) (uc_cand u) (uc_notified u) (uc_answered u).

(** The two stores of [migrate_to], and its wake-up. *)
Definition migrate_retain (u : UdpClientTransport) : UdpClientTransport := with_prev u (Some (uc_socket u)).
Definition migrate_swap (u : UdpClientTransport) (s : Socket) : UdpClientTransport :=
  mk_client s (uc_prev u) (uc_server u) (uc_cid u) (uc_established u) (uc_phase u) (uc_next_pid u) (uc_last_sent u) (uc_reasm u) (uc_cand u) (uc_notified u) (uc_answered u).
Definition client_migrate_to (u : UdpClientTransport) (bound : option Socket) : result unit CoreError * UdpClientTransport :=
  match bound with
  | None => (Err NetworkError, u)
  | Some s => (Ok (), with_notified (migrate_swap (migrate_retain u) s) true)
  end.

Definition phase_type (p : FramePhase) : PacketType := match p with PhaseHandshake => Datagram.Initial | PhaseEstablished => OneRtt end.

Definition client_send_bytes (u : UdpClientTransport) (data : list Z) (fail_at : option nat) : result unit CoreError * UdpClientTransport * Sent :=
  let c := default (uc_cid u) (uc_established u) in
  let u1 := with_pid u (wrap 32 (uc_next_pid u + 1)) in
  match encode_datagrams (phase_type (uc_phase u)) c (uc_next_pid u) data with
  | Err _ => (Err NetworkError, u1, [])
  | Ok dgrams =>
    let '(ok, out) := send_all dgrams fail_at in
    if ok then (Ok (), with_last_sent u1 dgrams, sent_to (uc_socket u) (uc_server u) out)
    else (Err NetworkError, u1, sent_to (uc_socket u) (uc_server u) out)
  end.

Definition client_confirm_source (u : UdpClientTransport) : UdpClientTransport := with_cand u (confirm_source (uc_cand u) (uc_server u)).

Definition client_send_candidate (u : UdpClientTransport) (data : list Z) (fail_at : option nat) : result bool CoreError * UdpClientTransport * Sent :=
  let '(r, c, out) := send_candidate (uc_cand u) (uc_cid u) (uc_next_pid u) (uc_socket u) data fail_at in
  let u1 := match cand_addr (uc_cand u) with Some _ => with_pid u (wrap 32 (uc_next_pid u + 1)) | None => u end in
  (r, with_cand u1 c, out).

Definition client_promote (u : UdpClientTransport) : bool * UdpClientTransport :=
  match take_candidate (uc_cand u) with
  | (Some addr, c) => (true, with_cand (with_server u addr) c)
  | (None, _) => (false, u)
  end.

(** *** The receive loop *)

Record RecvLoop := mk_loop { rl_attempt : Z; rl_spent : Z; rl_at : option Z }.
Definition recv_start : RecvLoop := mk_loop 0 0 None.

(** Where one [recv_bytes] call waits: what it read at the top of its loop. *)
Inductive Parked :=
| ParkHandshake (active : Socket) (prev : option Socket) (server : SocketAddr) (wait deadline : Z) (l : RecvLoop)
| ParkOverlap (active prev : Socket) (l : RecvLoop)
| ParkSingle (active : Socket) (l : RecvLoop).

Definition park (phase : FramePhase) (active : Socket) (prev : option Socket) (server : SocketAddr) (now : Z) (l : RecvLoop) : result Parked CoreError :=
  match phase with
  | PhaseHandshake =>
    match next_handshake_wait (rl_attempt l) (rl_spent l) with
    | None => Err Timeout
    | Some wait =>
      let deadline := default (now + wait) (rl_at l) in
      Ok (ParkHandshake active prev server wait deadline (mk_loop (rl_attempt l) (rl_spent l) (Some deadline)))
    end
  | PhaseEstablished => Ok (match prev with Some p => ParkOverlap active p l | None => ParkSingle active l end)
  end.

Inductive Turn := Again (l : RecvLoop) | Return (r : result (list Z) CoreError).

(** A datagram from [src], after the wait; [prev] is what the loop read at its top. *)
Definition take_datagram (u : UdpClientTransport) (now : Z) (prev : option Socket) (from_prev : bool) (bytes : list Z) (src : SocketAddr) (l : RecvLoop)
  : Turn * UdpClientTransport :=
  let datagram := take (Z.to_nat (PATH_MTU + 64)) bytes in
  let wanted :=
    match uc_phase u with
    | PhaseHandshake =>
      match decode_header datagram with
      | Ok (hdr, _) => bool_decide (ty hdr = Datagram.Initial) && bool_decide (cid hdr = uc_cid u)
      | Err _ => false
      end
    | PhaseEstablished => true
    end in
  if negb wanted then (Again l, u)
  else
    let '(decoded, asm) := push_datagram (uc_reasm u) now datagram in
    let u1 := with_reasm u asm in
    let up := match decoded with Ok _ => true | Err _ => false end in
    let u2 := if negb from_prev && bool_decide (prev ≠ None) && up then with_prev u1 None else u1 in
    match decoded with
    | Ok (_, Some frame) => (Return (Ok frame), with_cand u2 (note_received (uc_cand u2) src frame))
    | Ok (_, None) | Err _ => (Again l, u2)
    end.

Inductive wake := WDatagram (s : Socket) (r : result (list Z * SocketAddr) IoError) | WTimer | WMigrated.

Definition loop_of (p : Parked) : RecvLoop := match p with ParkHandshake _ _ _ _ _ l | ParkOverlap _ _ l | ParkSingle _ l => l end.

(** A socket's result while parked; [None] when the loop does not listen on [s]. *)
Definition on_socket (linux : bool) (u : UdpClientTransport) (now : Z) (p : Parked) (s : Socket) (r : result (list Z * SocketAddr) IoError)
  : option (Turn * UdpClientTransport) :=
  let handle prev from_prev u :=
    match classify_recv linux r with
    | Got bytes src => take_datagram u now prev from_prev bytes src (loop_of p)
    | RetryRecv => (Again (loop_of p), u)
    | FatalRecv _ => (Return (Err NetworkError), u)
    end in
  match p with
  | ParkHandshake active prev server _ _ _ =>
    if s =? active then
      let u1 := match classify_recv linux r with Got _ src => if bool_decide (src = server) then with_answered u else u | _ => u end in
      Some (handle prev false u1)
    else None
  | ParkOverlap active prev _ =>
    if s =? active then Some (handle (Some prev) false u) else if s =? prev then Some (handle (Some prev) true u) else None
  | ParkSingle active _ => if s =? active then Some (handle None false u) else None
  end.

Definition on_wake (linux : bool) (u : UdpClientTransport) (now : Z) (p : Parked) (w : wake) : option (Turn * UdpClientTransport * Sent) :=
  match w with
  | WDatagram s r => '(t, u') ← on_socket linux u now p s r; Some (t, u', [])
  | WTimer =>
    match p with
    | ParkHandshake active _ server wait deadline l =>
      let spent := sat_add_duration (rl_spent l) wait in
      let attempt := sat_add 32 (rl_attempt l) 1 in
      match next_handshake_wait attempt spent with
      | None => Some (Return (Err Timeout), u, [])
      | Some next => Some (Again (mk_loop attempt spent (Some (deadline + next))), u, sent_to active server (uc_last_sent u))
      end
    | _ => None
    end
  | WMigrated =>
    match p with
    | ParkHandshake _ _ _ _ _ _ => None
    | ParkOverlap _ _ l | ParkSingle _ l => if uc_notified u then Some (Again l, with_notified u false, []) else None
    end
  end.

(** ** The server *)

(** [ss_latch] names the flag [peer_authenticated], which a retained reply shares. *)
Record UdpServerTransport := mk_server {
  ss_socket : Socket;
  ss_migrated : option Socket;
  ss_peer : SocketAddr;
  ss_cid : ConnId;
  ss_established : option ConnId;
  ss_phase : FramePhase;
  ss_next_pid : Z;
  ss_cand : Candidate;
  ss_question : option (list Z * Z);
  ss_flight : option HandshakeFlight;
  ss_latch : Z;
  ss_authenticated : bool;
}.

Definition server_new (socket : Socket) (peer : SocketAddr) (c : ConnId) (latch : Z) : UdpServerTransport :=
  mk_server socket None peer c None PhaseHandshake 0 candidate_new None None latch false.

Definition server_with_pid (s : UdpServerTransport) (n : Z) : UdpServerTransport :=
  mk_server (ss_socket s) (ss_migrated s) (ss_peer s) (ss_cid s) (ss_established s) (ss_phase s) n (ss_cand s) (ss_question s) (ss_flight s) (ss_latch s) (ss_authenticated s).
Definition server_with_cand (s : UdpServerTransport) (c : Candidate) : UdpServerTransport :=
  mk_server (ss_socket s) (ss_migrated s) (ss_peer s) (ss_cid s) (ss_established s) (ss_phase s) (ss_next_pid s) c (ss_question s) (ss_flight s) (ss_latch s) (ss_authenticated s).
Definition server_with_peer (s : UdpServerTransport) (p : SocketAddr) : UdpServerTransport :=
  mk_server (ss_socket s) (ss_migrated s) p (ss_cid s) (ss_established s) (ss_phase s) (ss_next_pid s) (ss_cand s) (ss_question s) (ss_flight s) (ss_latch s) (ss_authenticated s).
Definition server_with_flight (s : UdpServerTransport) (q : option (list Z * Z)) (f : option HandshakeFlight) : UdpServerTransport :=
  mk_server (ss_socket s) (ss_migrated s) (ss_peer s) (ss_cid s) (ss_established s) (ss_phase s) (ss_next_pid s) (ss_cand s) q f (ss_latch s) (ss_authenticated s).

Definition server_set_phase (s : UdpServerTransport) (p : FramePhase) : UdpServerTransport :=
  mk_server (ss_socket s) (ss_migrated s) (ss_peer s) (ss_cid s) (ss_established s) p (ss_next_pid s) (ss_cand s) (ss_question s) (ss_flight s) (ss_latch s) (ss_authenticated s).
Definition server_set_cid (s : UdpServerTransport) (c : ConnId) : UdpServerTransport :=
  mk_server (ss_socket s) (ss_migrated s) (ss_peer s) (ss_cid s) (Some c) (ss_phase s) (ss_next_pid s) (ss_cand s) (ss_question s) (ss_flight s) (ss_latch s) (ss_authenticated s).

Definition take_handshake_flight (s : UdpServerTransport) : option HandshakeFlight * UdpServerTransport :=
  (ss_flight s, server_with_flight s None None).

(** [migrate_to]: the new socket also gets a receive task; the task of an earlier
    migration is stopped. *)
Definition server_migrate_to (s : UdpServerTransport) (bound : option Socket) : result unit CoreError * UdpServerTransport :=
  match bound with
  | None => (Err NetworkError, s)
  | Some n => (Ok (), mk_server n (Some n) (ss_peer s) (ss_cid s) (ss_established s) (ss_phase s) (ss_next_pid s) (ss_cand s) (ss_question s) (ss_flight s) (ss_latch s) (ss_authenticated s))
  end.

(** One turn of [run_migration_recv]: the frame it hands to the session's channel, the
    reassembler, and whether the task goes on; [sent] is the outcome of [try_send],
    [closed] whether the channel is closed. *)
Definition migration_recv_turn (linux : bool) (asm : FragmentAssembler) (now : Z) (r : result (list Z * SocketAddr) IoError) (sent closed : bool)
  : option (list Z * SocketAddr) * FragmentAssembler * bool :=
  match r with
  | Err e => (None, asm, is_advisory_recv_error linux e)
  | Ok (bytes, src) =>
    match push_datagram asm now (take (Z.to_nat (PATH_MTU + 64)) bytes) with
    | (Ok (_, Some frame), asm') => (if sent then Some (frame, src) else None, asm', sent || negb closed)
    | (_, asm') => (None, asm', true)
    end
  end.

(** [caps]: the capacities the datagrams' buffers were given. *)
Definition server_send_bytes (caps : list (list Z) -> list Z) (s : UdpServerTransport) (data : list Z) (fail_at : option nat)
  : result unit CoreError * UdpServerTransport * Sent :=
  let t := phase_type (ss_phase s) in
  let s1 := server_with_pid s (wrap 32 (ss_next_pid s + 1)) in
  match encode_datagrams t (default (ss_cid s) (ss_established s)) (ss_next_pid s) data with
  | Err _ => (Err NetworkError, s1, [])
  | Ok dgrams =>
    let '(ok, out) := send_all dgrams fail_at in
    if negb ok then (Err NetworkError, s1, sent_to (ss_socket s) (ss_peer s) out)
    else
      let s2 :=
        match t, ss_question s with
        | Datagram.Initial, Some (question, question_wire_bytes) =>
          server_with_flight s1 (ss_question s)
            (Some (mk_flight dgrams (caps dgrams) (ss_peer s) question (wire_bytes dgrams) question_wire_bytes (ss_latch s)))
        | _, _ => s1
        end in
      (Ok (), s2, sent_to (ss_socket s) (ss_peer s) out)
  end.

Section Server.
Context `{HandshakeHash}.

(** [recv_bytes]: what the channel gives, [None] when it is closed. *)
Definition server_recv_bytes (s : UdpServerTransport) (item : option (list Z * SocketAddr)) : result (list Z) CoreError * UdpServerTransport :=
  match item with
  | None => (Err ConnectionClosed, s)
  | Some (frame, src) =>
    let s1 := server_with_cand s (note_received (ss_cand s) src frame) in
    (Ok frame,
     match ss_phase s with
     | PhaseHandshake => server_with_flight s1 (Some (sha256 frame, wire_len (len frame))) (ss_flight s)
     | PhaseEstablished => s1
     end)
  end.
End Server.

Definition server_confirm_source (s : UdpServerTransport) : UdpServerTransport :=
  mk_server (ss_socket s) (ss_migrated s) (ss_peer s) (ss_cid s) (ss_established s) (ss_phase s) (ss_next_pid s)
    (confirm_source (ss_cand s) (ss_peer s)) (ss_question s) (ss_flight s) (ss_latch s) true.

Definition server_send_candidate (s : UdpServerTransport) (data : list Z) (fail_at : option nat) : result bool CoreError * UdpServerTransport * Sent :=
  let '(r, c, out) := send_candidate (ss_cand s) (ss_cid s) (ss_next_pid s) (ss_socket s) data fail_at in
  let s1 := match cand_addr (ss_cand s) with Some _ => server_with_pid s (wrap 32 (ss_next_pid s + 1)) | None => s end in
  (r, server_with_cand s1 c, out).

Definition server_promote (s : UdpServerTransport) : bool * UdpServerTransport :=
  match take_candidate (ss_cand s) with
  | (Some addr, c) => (true, server_with_cand (server_with_peer s addr) c)
  | (None, _) => (false, s)
  end.

(** ** One [recv_bytes] call while the handshake runs *)

(** The call in the making: still waiting, or returned; with how often its timer fired and
    what it sent. *)
Inductive CallState := Waiting (l : RecvLoop) | Returned (r : result (list Z) CoreError).
Record Call := mk_call { cl_state : CallState; cl_client : UdpClientTransport; cl_fired : nat; cl_out : Sent }.

Definition call_start (u : UdpClientTransport) : Call := mk_call (Waiting recv_start) u 0 [].

(** One turn of the loop: the time at its top, then what wakes it and when. A wake-up the
    loop does not wait for changes nothing. *)
Definition call_turn (linux : bool) (c : Call) (x : Z * Z * wake) : Call :=
  let '(top, now, w) := x in
  let u := cl_client c in
  match cl_state c with
  | Returned _ => c
  | Waiting l =>
    match park (uc_phase u) (uc_socket u) (uc_prev u) (uc_server u) top l with
    | Err e => mk_call (Returned (Err e)) u (cl_fired c) (cl_out c)
    | Ok p =>
      match on_wake linux u now p w with
      | None => mk_call (Waiting (loop_of p)) u (cl_fired c) (cl_out c)
      | Some (t, u', out) =>
        mk_call (match t with Again l' => Waiting l' | Return r => Returned r end) u'
          (match w with WTimer => S (cl_fired c) | _ => cl_fired c end) (cl_out c ++ out)
      end
    end
  end.

Definition call_run (linux : bool) (u : UdpClientTransport) (l : list (Z * Z * wake)) : Call := foldl (call_turn linux) (call_start u) l.

(** The schedule's marks: when the timer fires, after the start of the call, in seconds;
    how much has been spent by then. *)
Definition mark (k : nat) : Z := nth k [1; 3; 7; 8] 8 * 10 ^ 9.
Definition spent_by (k : nat) : Z := nth k [0; 1; 3; 7; 8] 8 * 10 ^ 9.

Lemma wait_at k : next_handshake_wait (Z.of_nat k) (spent_by k) = if (k <? 4)%nat then Some (mark k - spent_by k) else None.
Proof. do 4 (destruct k as [|k]; [by vm_compute|]). unfold spent_by. do 4 (destruct k as [|k]; [by vm_compute|]). done. Qed.

(** A datagram the handshake takes. *)
Definition handshake_datagram (u : UdpClientTransport) (bytes : list Z) : bool :=
  match decode_header (take (Z.to_nat (PATH_MTU + 64)) bytes) with
  | Ok (hdr, _) => bool_decide (ty hdr = Datagram.Initial) && bool_decide (cid hdr = uc_cid u)
  | Err _ => false
  end.

(** Between two clients: what a handshake's receive call never changes. *)
Definition same_flight (u u' : UdpClientTransport) : Prop :=
  uc_phase u' = uc_phase u ∧ uc_socket u' = uc_socket u ∧ uc_server u' = uc_server u ∧ uc_last_sent u' = uc_last_sent u ∧ uc_cid u' = uc_cid u.

Lemma take_datagram_same u now prev fp bytes src l : same_flight u (take_datagram u now prev fp bytes src l).2.
Proof.
  unfold take_datagram. case_test; [done|]. destruct (push_datagram _ _ _) as [[[hdr [f|]]|e] asm];
    destruct fp, (bool_decide (prev ≠ None)); done.
Qed.

(** The loop after [k] firings, for a call begun at [t0]. *)
Definition loop_at (t0 : Z) (k : nat) (l : RecvLoop) : Prop :=
  (k < 4)%nat ∧ rl_attempt l = Z.of_nat k ∧ rl_spent l = spent_by k ∧ rl_at l = Some (t0 + mark k).

Definition call_ok (t0 : Z) (u : UdpClientTransport) (c : Call) : Prop :=
  same_flight u (cl_client c) ∧ cl_out c = mjoin (replicate (cl_fired c `min` 3) (sent_to (uc_socket u) (uc_server u) (uc_last_sent u))) ∧
  match cl_state c with
  | Waiting l => loop_at t0 (cl_fired c) l ∨ l = recv_start ∧ cl_fired c = 0%nat
  | Returned (Err Timeout) => cl_fired c = 4%nat
  | Returned (Ok _) | Returned (Err NetworkError) => (cl_fired c < 4)%nat
  | Returned (Err _) => False
  end.

Lemma same_flight_trans a b c : same_flight a b -> same_flight b c -> same_flight a c.
Proof. unfold same_flight. intros (? & ? & ? & ? & ?) (? & ? & ? & ? & ?). split_and!; congruence. Qed.

(** What a result of the socket does while the loop is parked. *)
Lemma on_socket_spec linux u now p s r t u' :
  on_socket linux u now p s r = Some (t, u') ->
  same_flight u u' ∧ match t with Again l => l = loop_of p | Return (Ok _) | Return (Err NetworkError) => True | Return (Err _) => False end.
Proof.
  assert (Hh : ∀ prev fp v, same_flight u v -> ∀ t u',
    match classify_recv linux r with
    | Got bytes src => take_datagram v now prev fp bytes src (loop_of p)
    | RetryRecv => (Again (loop_of p), v)
    | FatalRecv _ => (Return (Err NetworkError), v)
    end = (t, u') ->
    same_flight u u' ∧ match t with Again l => l = loop_of p | Return (Ok _) | Return (Err NetworkError) => True | Return (Err _) => False end).
  { intros prev fp v Hv t0 v' Ht. destruct (classify_recv linux r) as [bytes src| |e]; [|by injection Ht as <- <-..].
    pose proof (take_datagram_same v now prev fp bytes src (loop_of p)) as Hs. rewrite Ht in Hs. split; [by eapply same_flight_trans|].
    unfold take_datagram in Ht. destruct (negb _); [by injection Ht as <- <-|].
    destruct (push_datagram _ _ _) as [[[hdr [f|]]|e] asm]; by injection Ht as <- <-. }
  unfold on_socket. destruct p as [active prev server wait deadline l|active prev l|active l]; repeat case_test; try done;
    intros [= Ht]; (eapply Hh; [|exact Ht]); try done.
  destruct (classify_recv linux r) as [bytes src| |e]; try done. by case_match.
Qed.

Lemma call_turn_ok linux t0 u c top now w :
  uc_phase u = PhaseHandshake -> call_ok t0 u c -> (cl_state c = Waiting recv_start -> top = t0) ->
  call_ok t0 u (call_turn linux c (top, now, w)) ∧ cl_state (call_turn linux c (top, now, w)) ≠ Waiting recv_start.
Proof.
  intros Hph Hok Htop. pose proof Hok as (Hsame & Hout & Hst). pose proof Hsame as (Hp & Hs & Hv & Hl & _).
  unfold call_turn. destruct (cl_state c) as [l|r] eqn:Ec; [|by rewrite Ec].
  assert (Hl0 : (cl_fired c < 4)%nat ∧ rl_attempt l = Z.of_nat (cl_fired c) ∧ rl_spent l = spent_by (cl_fired c) ∧
    default (top + (mark (cl_fired c) - spent_by (cl_fired c))) (rl_at l) = t0 + mark (cl_fired c)).
  { destruct Hst as [(? & ? & ? & ->)|[-> ->]]; [done|]. rewrite Htop by done. split; [lia|]. split; [done|]. split; [done|]. cbn [rl_at recv_start default from_option].
    change (spent_by 0) with 0. unfold default, id. lia. }
  destruct Hl0 as (Hk & Ha & Hsp & Hat). rewrite Hp, Hph. unfold park. rewrite Ha, Hsp, wait_at, (proj2 (Nat.ltb_lt _ _) Hk), Hat.
  set (l1 := mk_loop (Z.of_nat (cl_fired c)) (spent_by (cl_fired c)) (Some (t0 + mark (cl_fired c)))).
  assert (Hl1 : loop_at t0 (cl_fired c) l1) by done.
  set (p := ParkHandshake _ _ _ _ _ l1). destruct (on_wake linux (cl_client c) now p w) as [[[t u'] out]|] eqn:Ew; [|by split; [split; [done|]; split; [done|left]|]].
  destruct w as [s r| |]; cbn [on_wake] in Ew; [|subst p; cbn [rl_spent rl_attempt l1] in Ew|done].
  - apply bind_Some in Ew as ([t1 u1] & Ho & [= <- <- <-]). apply on_socket_spec in Ho as [Hsf Ht].
    rewrite app_nil_r. split; [split; [by eapply same_flight_trans|split; [done|]]|].
    + cbn. destruct t1 as [l2|[f|[]]]; try done. left. by rewrite Ht.
    + cbn. destruct t1 as [l2|]; [|done]. rewrite Ht. by intros [= ? ? ?].
  - replace (sat_add 32 (Z.of_nat (cl_fired c)) 1) with (Z.of_nat (S (cl_fired c))) in Ew by (unfold sat_add, u_max; lia).
    replace (sat_add_duration _ _) with (spent_by (S (cl_fired c))) in Ew.
    2:{ generalize (cl_fired c) Hk. clear. intros k Hk. do 4 (destruct k as [|k]; [by vm_compute|]). lia. }
    rewrite wait_at in Ew. destruct (Nat.ltb_spec (S (cl_fired c)) 4); injection Ew as <- <- <-; cbn [cl_state cl_client cl_fired cl_out].
    + split; [|done]. split; [done|]. split.
      * cbn [cl_out cl_fired]. rewrite Hout, Hs, Hv, Hl, !Nat.min_l by lia.
        rewrite replicate_S_end, join_app. cbn [mjoin list_join]. by rewrite app_nil_r.
      * left. split; [done|]. split; [done|]. split; [done|]. cbn. f_equal. unfold mark, spent_by.
        match goal with Hn : (S (cl_fired c) < 4)%nat |- _ => revert Hn end. generalize (cl_fired c). clear. intros k Hk.
        do 3 (destruct k as [|k]; [cbn [nth]; lia|]). lia.
    + split; [|done]. rewrite app_nil_r. split; [done|]. split; cbn [cl_out cl_fired cl_state]; [|lia]. rewrite Hout. do 2 f_equal. lia.
Qed.

Lemma call_run_ok linux u t0 l :
  uc_phase u = PhaseHandshake -> (∀ x, head l = Some x -> x.1.1 = t0) ->
  call_ok t0 u (call_run linux u l) ∧ (l ≠ [] -> cl_state (call_run linux u l) ≠ Waiting recv_start).
Proof.
  intros Hph Hh. unfold call_run.
  assert (Hg : ∀ l c, call_ok t0 u c -> cl_state c ≠ Waiting recv_start ->
    call_ok t0 u (foldl (call_turn linux) c l) ∧ cl_state (foldl (call_turn linux) c l) ≠ Waiting recv_start).
  { clear -Hph. induction l as [|[[top now] w] l IH]; intros c H1 H2; [done|]. cbn [foldl].
    destruct (call_turn_ok linux t0 u c top now w Hph H1) as [H3 H4]; [done|]. by apply IH. }
  assert (H0 : call_ok t0 u (call_start u)) by (split; [done|]; split; [done|]; by right).
  destruct l as [|[[top now] w] l]; [done|]. cbn [foldl]. specialize (Hh _ eq_refl). cbn in Hh.
  destruct (call_turn_ok linux t0 u (call_start u) top now w Hph H0) as [H1 H2]; [done|]. destruct (Hg l _ H1 H2). done.
Qed.

(** Nothing that arrives while a client waits for the answer to its handshake moves its
    schedule: for every sequence of arrivals, socket errors and timer expiries, the timer is
    set 1, 3, 7 and 8 seconds after the call began, each of the first three expiries sends
    the last flight again, byte for byte, to the server, and the fourth ends the call with
    [Timeout]; only a frame or a fatal socket error ends it earlier. *)
Theorem handshake_schedule_fixed linux u t0 l :
  uc_phase u = PhaseHandshake -> (∀ x, head l = Some x -> x.1.1 = t0) ->
  let c := call_run linux u l in
  let flights n := mjoin (replicate n (sent_to (uc_socket u) (uc_server u) (uc_last_sent u))) in
  match cl_state c with
  | Waiting loop => (cl_fired c < 4)%nat ∧ cl_out c = flights (cl_fired c) ∧ (l ≠ [] -> rl_at loop = Some (t0 + nth (cl_fired c) [1; 3; 7; 8] 8 * 10 ^ 9))
  | Returned (Err Timeout) => cl_fired c = 4%nat ∧ cl_out c = flights 3%nat
  | Returned (Ok _) | Returned (Err NetworkError) => (cl_fired c < 4)%nat ∧ cl_out c = flights (cl_fired c)
  | Returned (Err _) => False
  end.
Proof.
  intros Hph Hh c flights. destruct (call_run_ok linux u t0 l Hph Hh) as [(_ & Hout & Hst) Hne]. fold c in Hout, Hst, Hne.
  destruct (cl_state c) as [loop|[f|[]]] eqn:Ec; try done.
  - destruct Hst as [(Hk & _ & _ & Hat)|[-> Hz]].
    + rewrite Nat.min_l in Hout by lia. done.
    + rewrite Hz in *. split; [lia|]. split; [done|]. intros Hl. by apply Hne in Hl.
  - rewrite Nat.min_l in Hout by lia. done.
  - rewrite Nat.min_l in Hout by lia. done.
  - rewrite Hst in Hout. done.
Qed.

(** A client whose server is silent, with a stray datagram after the first expiry. *)
Definition toy_waiting : UdpClientTransport :=
  with_last_sent (mk_client 1 None ([127; 0; 0; 1], 443) (replicate 8 4) None PhaseHandshake 1 [] ∅ candidate_new false false) [[1; 2]; [3]].
Definition toy_silence : list (Z * Z * wake) :=
  [(5, 6, WTimer); (6, 7, WDatagram 1 (Ok ([9; 9], ([10; 0; 0; 1], 7)))); (8, 8, WTimer); (9, 9, WTimer); (10, 10, WTimer)].

Lemma handshake_schedule_fixed_witness :
  cl_state (call_run true toy_waiting toy_silence) = Returned (Err Timeout) ∧ cl_fired (call_run true toy_waiting toy_silence) = 4%nat ∧
  len (cl_out (call_run true toy_waiting toy_silence)) = 6.
Proof.
  pose proof (handshake_schedule_fixed true toy_waiting 5 toy_silence eq_refl) as Hs. cbv zeta in Hs.
  assert (E : cl_state (call_run true toy_waiting toy_silence) = Returned (Err Timeout)) by by vm_compute.
  rewrite E in Hs. destruct Hs as [Hf Ho]; [by intros x [= <-]|]. split; [exact E|]. split; [exact Hf|]. rewrite Ho. by vm_compute.
Defined.

(** ** Stray datagrams *)

(** Not a handshake datagram of this connection. *)
Definition stray (u : UdpClientTransport) (x : Z * Z * wake) : bool :=
  match x.2 with WDatagram _ (Ok (bytes, _)) => negb (handshake_datagram u bytes) | _ => false end.

(** Two calls alike but for the answered flag and the time of the next expiry. *)
Definition alike (c d : Call) : Prop :=
  with_answered (cl_client c) = with_answered (cl_client d) ∧ cl_fired c = cl_fired d ∧ cl_out c = cl_out d ∧
  match cl_state c, cl_state d with
  | Waiting l, Waiting l' => rl_attempt l = rl_attempt l' ∧ rl_spent l = rl_spent l'
  | Returned r, Returned r' => r = r'
  | _, _ => False
  end.

Lemma answered_fields u v : with_answered u = with_answered v ->
  uc_phase u = uc_phase v ∧ uc_socket u = uc_socket v ∧ uc_prev u = uc_prev v ∧ uc_server u = uc_server v ∧ uc_last_sent u = uc_last_sent v.
Proof. by intros [= ? ? ? ? ? ? ? ? ? ? ?]. Qed.

Definition turn_alike (t t' : Turn) : Prop :=
  match t, t' with
  | Again l, Again l' => rl_attempt l = rl_attempt l' ∧ rl_spent l = rl_spent l'
  | Return r, Return r' => r = r'
  | _, _ => False
  end.

Lemma take_datagram_alike u v now prev fp bytes src l l' :
  with_answered u = with_answered v -> rl_attempt l = rl_attempt l' -> rl_spent l = rl_spent l' ->
  turn_alike (take_datagram u now prev fp bytes src l).1 (take_datagram v now prev fp bytes src l').1 ∧
  with_answered (take_datagram u now prev fp bytes src l).2 = with_answered (take_datagram v now prev fp bytes src l').2.
Proof.
  destruct u as [s1 p1 sv1 c1 e1 ph1 n1 ls1 a1 cd1 no1 an1], v as [s2 p2 sv2 c2 e2 ph2 n2 ls2 a2 cd2 no2 an2].
  intros [= -> -> -> -> -> -> -> -> -> -> ->] Ha Hs. unfold take_datagram. cbn [uc_phase uc_cid uc_reasm].
  destruct (negb _); [done|]. destruct (push_datagram _ _ _) as [[[hdr [f|]]|e] asm];
    destruct fp, (bool_decide (prev ≠ None)); done.
Qed.

Lemma on_socket_alike linux u v now active prev server wait dl dl' l l' s r :
  with_answered u = with_answered v -> rl_attempt l = rl_attempt l' -> rl_spent l = rl_spent l' ->
  match on_socket linux u now (ParkHandshake active prev server wait dl l) s r, on_socket linux v now (ParkHandshake active prev server wait dl' l') s r with
  | Some (t, u'), Some (t', v') => turn_alike t t' ∧ with_answered u' = with_answered v'
  | None, None => True
  | _, _ => False
  end.
Proof.
  intros Hu Ha Hs. unfold on_socket. case_test; [|done]. cbn [loop_of].
  destruct (classify_recv linux r) as [bytes src| |e]; [|done..].
  set (u1 := if bool_decide (src = server) then with_answered u else u). set (v1 := if bool_decide (src = server) then with_answered v else v).
  assert (Hu1 : with_answered u1 = with_answered v1) by (subst u1 v1; destruct (bool_decide (src = server)); [by rewrite Hu|done]).
  pose proof (take_datagram_alike u1 v1 now prev false bytes src l l' Hu1 Ha Hs) as Ht.
  destruct (take_datagram u1 _ _ _ _ _ _), (take_datagram v1 _ _ _ _ _ _). done.
Qed.

Lemma call_turn_alike linux c d x :
  uc_phase (cl_client c) = PhaseHandshake -> alike c d -> alike (call_turn linux c x) (call_turn linux d x).
Proof.
  intros Hph (Hu & Hf & Ho & Hst). destruct x as [[top now] w]. unfold call_turn.
  destruct (answered_fields _ _ Hu) as (Hp & Hs & Hv & Hsv & Hls). rewrite <- Hp, <- Hs, <- Hv, <- Hsv, Hph.
  destruct (cl_state c) as [l|r] eqn:Ec, (cl_state d) as [l'|r'] eqn:Ed; try done.
  2:{ unfold alike. by rewrite Ec, Ed. }
  destruct Hst as [Ha Hsp]. unfold park. rewrite <- Ha, <- Hsp. destruct (next_handshake_wait _ _) as [wait|]; [|by unfold alike].
  destruct w as [s r| |]; cbn [on_wake].
  - match goal with |- alike (match ?A ≫= _ with _ => _ end) (match ?B ≫= _ with _ => _ end) =>
      match A with on_socket _ _ _ (ParkHandshake _ _ _ _ ?dl ?la) _ _ => match B with on_socket _ _ _ (ParkHandshake _ _ _ _ ?dl' ?lb) _ _ =>
        pose proof (on_socket_alike linux (cl_client c) (cl_client d) now (uc_socket (cl_client c)) (uc_prev (cl_client c)) (uc_server (cl_client c)) wait dl dl' la lb s r Hu eq_refl eq_refl) as Hon
      end end end.
    destruct (on_socket linux (cl_client c) _ _ _ _) as [[t u']|], (on_socket linux (cl_client d) _ _ _ _) as [[t' v']|]; try done.
    destruct Hon as [Ht Hu']. unfold alike. cbn. rewrite Hf, Ho. by destruct t, t'.
  - cbn [rl_attempt rl_spent]. destruct (next_handshake_wait _ _) as [next|]; unfold alike; cbn; by rewrite Hf, Ho, ?Hls.
  - by unfold alike.
Qed.

Lemma alike_refl c : alike c c.
Proof. unfold alike. by destruct (cl_state c). Qed.

Lemma alike_trans c d e : alike c d -> alike d e -> alike c e.
Proof.
  unfold alike. intros (? & ? & ? & Hc) (? & ? & ? & Hd). split; [congruence|]. split; [congruence|]. split; [congruence|].
  destruct (cl_state c), (cl_state d), (cl_state e); try done; intuition congruence.
Qed.

Lemma stray_turn linux u c x :
  uc_phase (cl_client c) = PhaseHandshake -> uc_cid (cl_client c) = uc_cid u -> stray u x = true -> (cl_fired c < 4)%nat ->
  (∀ l, cl_state c = Waiting l -> rl_attempt l = Z.of_nat (cl_fired c) ∧ rl_spent l = spent_by (cl_fired c)) -> alike (call_turn linux c x) c.
Proof.
  intros Hph Hcid Hx Hk Hl. destruct x as [[top now] w]. unfold stray in Hx. cbn in Hx. destruct w as [s [[bytes src]|e]| |]; try done.
  unfold call_turn. destruct (cl_state c) as [l|r] eqn:Ec; [|apply alike_refl]. destruct (Hl l eq_refl) as [Ha Hsp].
  rewrite Hph. unfold park. rewrite Ha, Hsp, wait_at, (proj2 (Nat.ltb_lt _ _) Hk). cbn [on_wake on_socket loop_of].
  destruct (s =? uc_socket (cl_client c)); [|unfold alike; by rewrite Ec]. cbn [classify_recv].
  set (u1 := if bool_decide _ then _ else cl_client c).
  assert (Hu1 : with_answered u1 = with_answered (cl_client c) ∧ uc_phase u1 = PhaseHandshake ∧ uc_cid u1 = uc_cid u)
    by (subst u1; destruct (bool_decide _); done).
  destruct Hu1 as (Hu1 & Hph1 & Hc1). unfold take_datagram. rewrite Hph1, Hc1. fold (handshake_datagram u bytes). rewrite Hx. cbn.
  unfold alike. cbn. rewrite Ec, app_nil_r. by cbn.
Qed.

(** Whoever sends a client datagrams that are not handshake datagrams of its connection,
    they are as if they had never arrived: with or without them the call waits or returns
    alike, at the same expiry, having sent the same and reassembled the same. *)
Theorem stray_datagrams_ignored linux u t0 l :
  uc_phase u = PhaseHandshake -> (∀ x, head l = Some x -> x.1.1 = t0) ->
  let c := call_run linux u l in
  let d := call_run linux u (filter (λ x, stray u x = false) l) in
  with_answered (cl_client c) = with_answered (cl_client d) ∧ cl_fired c = cl_fired d ∧ cl_out c = cl_out d ∧
  match cl_state c, cl_state d with
  | Waiting lc, Waiting ld => rl_attempt lc = rl_attempt ld ∧ rl_spent lc = rl_spent ld
  | Returned r, Returned r' => r = r'
  | _, _ => False
  end.
Proof.
  intros Hph Hh c d. change (alike c d). subst c d.
  induction l as [|x l IH] using rev_ind; [apply alike_refl|].
  assert (Hh' : ∀ y, head l = Some y -> y.1.1 = t0) by (intros y Hy; apply Hh; by destruct l).
  specialize (IH Hh'). destruct (call_run_ok linux u t0 l Hph Hh') as [((Hp & _ & _ & _ & Hcid) & _ & Hst) _].
  unfold call_run in *. rewrite filter_app, !foldl_app. cbn [foldl]. set (c := foldl (call_turn linux) (call_start u) l) in *.
  destruct (stray u x) eqn:Es.
  - rewrite filter_cons_False, filter_nil by (rewrite Es; done). cbn [foldl].
    destruct (cl_state c) as [lc|r] eqn:Ec; [|unfold call_turn; destruct x as [[top now] w]; by rewrite Ec].
    eapply alike_trans; [|exact IH]. apply stray_turn with u; [by rewrite Hp|done|done|destruct Hst as [(? & _)|[_ ->]]; lia|].
    intros l' E. rewrite Ec in E. injection E as <-. destruct Hst as [(_ & ? & ? & _)|[-> ->]]; done.
  - rewrite filter_cons_True, filter_nil by done. cbn [foldl]. apply call_turn_alike; [by rewrite Hp|done].
Qed.

Lemma stray_datagrams_ignored_witness :
  filter (λ x, stray toy_waiting x = false) toy_silence = [(5, 6, WTimer); (8, 8, WTimer); (9, 9, WTimer); (10, 10, WTimer)] ∧
  cl_out (call_run true toy_waiting toy_silence) = cl_out (call_run true toy_waiting [(5, 6, WTimer); (8, 8, WTimer); (9, 9, WTimer); (10, 10, WTimer)]).
Proof.
  split; [reflexivity|]. destruct (stray_datagrams_ignored true toy_waiting 5 toy_silence) as (_ & _ & Ho & _).
  - reflexivity.
  - by intros x [= <-].
  - exact Ho.
Defined.

(** ** The candidate's amplification budget *)

(** What a session does with its candidate: a frame arrives and authenticates or not, a
    challenge goes out, a validated candidate is promoted. *)
Inductive cand_op :=
| CFrame (frame : list Z) (src : SocketAddr) (authentic : bool)
| CChallenge (data : list Z) (fail_at : option nat)
| CPromote.

Section Amplification.
Context `{HandshakeHash}.

Definition server_op (s : UdpServerTransport) (o : cand_op) : UdpServerTransport * Sent :=
  match o with
  | CFrame frame src authentic =>
    let s1 := (server_recv_bytes s (Some (frame, src))).2 in (if authentic then server_confirm_source s1 else s1, [])
  | CChallenge data fail_at => let '(_, s', out) := server_send_candidate s data fail_at in (s', out)
  | CPromote => ((server_promote s).2, [])
  end.

Fixpoint server_ops (s : UdpServerTransport) (l : list cand_op) : UdpServerTransport * Sent :=
  match l with
  | [] => (s, [])
  | o :: l' => let '(s1, out1) := server_op s o in let '(s2, out2) := server_ops s1 l' in (s2, out1 ++ out2)
  end.
End Amplification.

(** Bytes of authentic frames from [v], and bytes sent to [v]. *)
Definition got_from (v : SocketAddr) (l : list cand_op) : Z :=
  sum_Z ((λ o, match o with CFrame frame src true => if decide (src = v) then len frame else 0 | _ => 0 end) <$> l).
Definition put_to (v : SocketAddr) (out : Sent) : Z :=
  sum_Z ((λ x, if decide (x.2 = v) then len x.1.2 else 0) <$> out).

(** A challenge fits one datagram. *)
Definition one_datagram (o : cand_op) : Prop := match o with CChallenge data _ => len data <= MAX_INNER_UNFRAGMENTED | _ => True end.

(** The books: [g v] received from and [p v] sent to each address so far. *)
Definition cand_books (c : Candidate) (g p : SocketAddr -> Z) : Prop :=
  0 <= cand_sent c ∧ 0 <= cand_recv c ∧
  (∀ v, cand_addr c = Some v -> cand_sent c <= 3 * cand_recv c ∧ cand_recv c <= g v ∧ p v + 3 * cand_recv c <= 3 * g v + cand_sent c) ∧
  (∀ v, p v <= 3 * g v).

Lemma put_to_app v a b : put_to v (a ++ b) = put_to v a + put_to v b.
Proof. unfold put_to. by rewrite fmap_app, sum_Z_app. Qed.

Lemma put_to_sent v s dst ds : put_to v (sent_to s dst ds) = if decide (dst = v) then wire_bytes ds else 0.
Proof.
  unfold put_to, sent_to, wire_bytes. rewrite <- list_fmap_compose. case_decide as E.
  - f_equal. apply list_fmap_ext. intros i d _. cbn. by rewrite decide_True.
  - induction ds as [|d ds IH]; [done|]. cbn [fmap list_fmap]. rewrite sum_Z_cons, IH. cbn. by rewrite decide_False.
Qed.

Definition bump (f : SocketAddr -> Z) (v : SocketAddr) (n : Z) (x : SocketAddr) : Z := (if decide (v = x) then n else 0) + f x.

Lemma confirm_books c peer src n g p :
  cand_books c g p -> last_recv_src c = Some src -> last_frame_len c = n -> 0 <= n -> (∀ v, 0 <= g v) -> bump g src n src < 2 ^ 62 ->
  cand_books (confirm_source c peer) (bump g src n) p.
Proof.
  intros (Hs & Hr & Hc & Hp) Hsrc Hn Hn0 Hg Hmax. unfold confirm_source. rewrite Hsrc, Hn.
  assert (Hmono : ∀ v, g v <= bump g src n v) by (intros v; unfold bump; case_decide; lia).
  assert (Hp' : ∀ v, p v <= 3 * bump g src n v) by (intros v; specialize (Hp v); specialize (Hmono v); lia).
  destruct (bool_decide_reflect (src = peer)); [split_and!; try done; intros v Hv; specialize (Hmono v); destruct (Hc v Hv) as (? & ? & ?); lia|].
  assert (Hb : bump g src n src = n + g src) by (unfold bump; by rewrite decide_True).
  destruct (bool_decide_reflect (cand_addr c = Some src)) as [Ha|Ha].
  - destruct (Hc src Ha) as (? & ? & ?). assert (Hw : wrap 64 (cand_recv c + n) = cand_recv c + n) by (unfold wrap; rewrite Z.mod_small; lia).
    unfold cand_books. cbn [cand_addr cand_sent cand_recv]. rewrite Hw. split; [done|]. split; [lia|]. split; [|done].
    intros v Hv. rewrite Ha in Hv. injection Hv as <-. rewrite Hb. lia.
  - unfold cand_books. cbn [cand_addr cand_sent cand_recv]. split; [lia|]. split; [done|]. split; [|done].
    intros v [= <-]. rewrite Hb. specialize (Hp src). specialize (Hg src). lia.
Qed.

Lemma note_books c src frame g p : cand_books c g p -> cand_books (note_received c src frame) g p.
Proof. done. Qed.

Lemma encode_one t c pid data : len data <= MAX_INNER_UNFRAGMENTED -> encode_datagrams t c pid data = Ok [encode_header t false c ++ data].
Proof. intros Hd. unfold encode_datagrams. by rewrite (proj2 (Z.leb_le _ _) Hd). Qed.

Lemma send_books c cid pid sock data fail_at g p :
  cand_books c g p -> len data <= MAX_INNER_UNFRAGMENTED -> (∀ v, g v < 2 ^ 62) ->
  let '(_, c', out) := send_candidate c cid pid sock data fail_at in cand_books c' g (λ v, p v + put_to v out).
Proof.
  intros Hbk Hd Hg. pose proof Hbk as (Hs & Hr & Hc & Hp). unfold send_candidate.
  assert (Hsame : cand_books c g (λ v, p v + put_to v [])).
  { unfold put_to. cbn. split; [done|]. split; [done|]. split; intros v; [intros Hv; destruct (Hc v Hv)|specialize (Hp v)]; lia. }
  destruct (cand_addr c) as [addr|] eqn:Ha; [|done]. rewrite encode_one by done.
  set (d := encode_header OneRtt false cid ++ data). assert (Hw : 0 <= wire_bytes [d]) by (unfold wire_bytes; cbn [fmap list_fmap]; rewrite sum_Z_cons; pose proof (len_nonneg d); change (sum_Z []) with 0; lia).
  destruct (Hc addr eq_refl) as (Hle & Hra & Hpa). specialize (Hg addr).
  destruct (Z.ltb_spec (sat_mul 64 (cand_recv c) 3) (sat_add 64 (cand_sent c) (wire_bytes [d]))) as [|Hb]; [done|].
  assert (Hfit : cand_sent c + wire_bytes [d] <= 3 * cand_recv c) by (unfold sat_mul, sat_add, u_max in Hb; lia).
  destruct (send_all [d] fail_at) as [ok out] eqn:Eo.
  assert (Hout : if ok then out = [d] else out = []).
  { unfold send_all in Eo. destruct fail_at as [[|k]|]; cbn in Eo; by injection Eo as <- <-. }
  destruct ok; subst out; [|exact Hsame].
  assert (Hwr : wrap 64 (cand_sent c + wire_bytes [d]) = cand_sent c + wire_bytes [d]) by (unfold wrap; rewrite Z.mod_small; lia).
  unfold cand_books. cbn [cand_addr cand_sent cand_recv]. rewrite Hwr. split; [lia|]. split; [done|]. split.
  - intros v Hv. injection Hv as <-. rewrite put_to_sent, decide_True by done. lia.
  - intros v. rewrite put_to_sent. case_decide; [subst v; lia|specialize (Hp v); lia].
Qed.

Lemma promote_books c g p : cand_books c g p -> cand_books (take_candidate c).2 g p.
Proof.
  intros (Hs & Hr & Hc & Hp). unfold take_candidate. destruct (cand_addr c) as [a|] eqn:Ea; [|cbn [snd]; by split; [done|]; split; [done|]; split; [intros v; rewrite Ea|]].
  unfold cand_books. cbn. done.
Qed.

Section Budget.
Context `{HandshakeHash}.

Lemma server_op_books s o g p :
  cand_books (ss_cand s) g p -> one_datagram o -> (∀ v, 0 <= g v) -> (∀ v, g v + got_from v [o] < 2 ^ 62) ->
  let '(s', out) := server_op s o in cand_books (ss_cand s') (λ v, got_from v [o] + g v) (λ v, p v + put_to v out).
Proof.
  intros Hb Ho Hg Hmax.
  assert (Hquiet : ∀ c, cand_books c g p -> (∀ v, got_from v [o] = 0) -> cand_books c (λ v, got_from v [o] + g v) (λ v, p v + put_to v [])).
  { intros c (Hs & Hr & Hc & Hp) Hz. split; [done|]. split; [done|].
    split; intros v; rewrite Hz; change (put_to v []) with 0; [intros Hv; destruct (Hc v Hv)|specialize (Hp v)]; lia. }
  destruct o as [frame src [|]|data fail_at|]; cbn [server_op].
  - set (s1 := (server_recv_bytes s (Some (frame, src))).2).
    assert (Hc1 : ss_cand s1 = note_received (ss_cand s) src frame ∧ ss_peer s1 = ss_peer s) by (subst s1; cbn; by destruct (ss_phase s)).
    destruct Hc1 as [Hc1 Hp1]. cbn [ss_cand server_confirm_source]. rewrite Hc1, Hp1.
    assert (Hgot : ∀ v, got_from v [CFrame frame src true] = if decide (src = v) then len frame else 0) by (intros v; unfold got_from; cbn; lia).
    pose proof (confirm_books (note_received (ss_cand s) src frame) (ss_peer s) src (len frame) g p) as Hcb.
    destruct Hcb as (Ks & Kr & Kc & Kp); [done|done|done|apply len_nonneg|done| |].
    { specialize (Hmax src). rewrite Hgot, decide_True in Hmax by done. unfold bump. rewrite decide_True by done. lia. }
    split; [done|]. split; [done|]. split; intros v; rewrite Hgot; change (put_to v []) with 0; unfold bump in Kc, Kp;
      [intros Hv; destruct (Kc v Hv)|specialize (Kp v)]; lia.
  - cbn [server_recv_bytes snd]. destruct (ss_phase s); (apply Hquiet; [by apply note_books|done]).
  - pose proof (send_books (ss_cand s) (ss_cid s) (ss_next_pid s) (ss_socket s) data fail_at g p Hb Ho) as Hsb.
    unfold server_send_candidate. destruct (send_candidate _ _ _ _ _ _) as [[r c] out]. cbn.
    apply Hsb. intros v. specialize (Hmax v). cbn in Hmax. lia.
  - apply Hquiet; [|done]. unfold server_promote. pose proof (promote_books _ _ _ Hb) as Hpb.
    unfold take_candidate in *. by destruct (cand_addr (ss_cand s)).
Qed.

Lemma got_from_cons v o l : got_from v (o :: l) = got_from v [o] + got_from v l.
Proof. unfold got_from. cbn [fmap list_fmap]. rewrite !sum_Z_cons. change (sum_Z []) with 0. lia. Qed.

Lemma got_from_nonneg v l : 0 <= got_from v l.
Proof.
  apply sum_Z_nonneg, Forall_fmap, Forall_forall. intros o _. cbn. destruct o as [f src [|]| |]; try done. case_decide; [apply len_nonneg|done].
Qed.

Lemma server_ops_books l : ∀ s g p,
  cand_books (ss_cand s) g p -> Forall one_datagram l -> (∀ v, 0 <= g v) -> (∀ v, g v + got_from v l < 2 ^ 62) ->
  ∀ v, p v + put_to v (server_ops s l).2 <= 3 * (got_from v l + g v).
Proof.
  induction l as [|o l IH]; intros s g p Hb Hl Hg Hmax v.
  { destruct Hb as (_ & _ & _ & Hp). specialize (Hp v). change (put_to v (server_ops s []).2) with 0. change (got_from v []) with 0. lia. }
  apply Forall_cons in Hl as [Ho Hl]. cbn [server_ops].
  assert (Hmax1 : ∀ v, g v + got_from v [o] < 2 ^ 62).
  { intros x. specialize (Hmax x). rewrite got_from_cons in Hmax. pose proof (got_from_nonneg x l). lia. }
  pose proof (server_op_books s o g p Hb Ho Hg Hmax1) as Hs. destruct (server_op s o) as [s1 out1].
  specialize (IH s1 _ _ Hs Hl). destruct (server_ops s1 l) as [s2 out2]. cbn [snd] in *. rewrite put_to_app, got_from_cons.
  assert (Hv := IH ltac:(intros x; pose proof (got_from_nonneg x [o]); specialize (Hg x); lia)
    ltac:(intros x; specialize (Hmax x); rewrite got_from_cons in Hmax; lia) v). lia.
Qed.

(** C30: A session never becomes a reflector through its migration candidate: whatever frames
    arrive from wherever, authentic or not, and however often the candidate changes or is
    promoted, the bytes of the challenges sent to an address stay within three times the
    bytes of the authentic frames that came from it. *)
Theorem challenges_not_amplified socket peer c latch l v :
  Forall one_datagram l -> (∀ x, got_from x l < 2 ^ 62) ->
  put_to v (server_ops (server_new socket peer c latch) l).2 <= 3 * got_from v l.
Proof.
  intros Hl Hmax. pose proof (server_ops_books l (server_new socket peer c latch) (λ _, 0) (λ _, 0)) as Hs.
  specialize (Hs ltac:(done) Hl ltac:(done)). specialize (Hs ltac:(intros x; specialize (Hmax x); lia) v). cbv beta in Hs. lia.
Qed.

Lemma authentic_source s frame src :
  src ≠ ss_peer s ->
  let s' := server_confirm_source (server_recv_bytes s (Some (frame, src))).2 in ss_peer s' = ss_peer s ∧ cand_addr (ss_cand s') = Some src.
Proof.
  intros Hs. cbn [server_recv_bytes snd]. destruct (ss_phase s); (split; [done|]); cbn;
    unfold confirm_source; cbn; rewrite bool_decide_false by done; case_bool_decide; done.
Qed.

(** The switch of address is not tied to the address that was challenged: whatever
    candidate is challenged, an authentic response that arrives from an address [v] makes
    [v] the candidate before it is verified, and promoting the candidate sends everything
    from then on to [v], to which nothing was ever sent. *)
Theorem response_source_is_promoted s frame1 b challenge response v :
  b ≠ ss_peer s -> v ≠ ss_peer s -> v ≠ b ->
  let '(s2, out) := server_ops s [CFrame frame1 b true; CChallenge challenge None; CFrame response v true] in
  ss_peer s2 = ss_peer s ∧ put_to v out = 0 ∧ (server_promote s2).1 = true ∧ ss_peer (server_promote s2).2 = v.
Proof.
  intros Hb Hv Hvb. cbn [server_ops server_op].
  destruct (authentic_source s frame1 b Hb) as [Hp1 Hc1]. set (s1 := server_confirm_source _) in *.
  pose proof (put_to_sent v (ss_socket s1) b) as Hput. unfold server_send_candidate, send_candidate. rewrite Hc1.
  set (r := match encode_datagrams OneRtt (ss_cid s1) (ss_next_pid s1) challenge with Ok _ => _ | Err _ => _ end).
  assert (Hr : put_to v r.2 = 0).
  { subst r. destruct (encode_datagrams _ _ _ _) as [ds|]; [|done]. case_test; [done|]. cbn [send_all fst snd]. by rewrite Hput, decide_False. }
  destruct r as [[res c2] out]. cbn [snd] in Hr. set (s2 := server_with_cand _ c2).
  destruct (authentic_source s2 response v) as [Hp3 Hc3]; [change (ss_peer s2) with (ss_peer s1); by rewrite Hp1|].
  rewrite !app_nil_l, !app_nil_r. split; [rewrite Hp3; exact Hp1|]. split; [exact Hr|]. unfold server_promote, take_candidate. rewrite Hc3. done.
Qed.

End Budget.

Section Toy.
#[local] Existing Instance toy_handshake_hash.

Lemma response_source_is_promoted_witness :
  let s := server_new 1 ([10; 0; 0; 1], 1) (replicate 8 2) 0 in
  let v := ([203; 0; 113; 9], 53) in
  let '(s2, out) := server_ops s [CFrame (replicate 60 0) ([10; 0; 0; 2], 1) true; CChallenge (replicate 40 0) None; CFrame (replicate 60 1) v true] in
  ss_peer s2 = ss_peer s ∧ put_to v out = 0 ∧ (server_promote s2).1 = true ∧ ss_peer (server_promote s2).2 = v.
Proof. apply response_source_is_promoted; [discriminate|discriminate|discriminate]. Defined.

Definition toy_cand_ops : list cand_op :=
  [CFrame (replicate 60 0) ([10; 0; 0; 2], 1) true; CChallenge (replicate 40 0) None; CChallenge (replicate 40 0) None; CChallenge (replicate 400 0) None;
   CFrame (replicate 9 0) ([10; 0; 0; 3], 1) true; CChallenge (replicate 40 0) None; CFrame (replicate 9 0) ([10; 0; 0; 4], 1) false].

Lemma challenges_not_amplified_witness :
  put_to ([10; 0; 0; 2], 1) (server_ops (server_new 1 ([10; 0; 0; 1], 1) (replicate 8 2) 0) toy_cand_ops).2 = 98 ∧ 98 <= 3 * 60.
Proof.
  split; [by vm_compute|].
  pose proof (challenges_not_amplified 1 ([10; 0; 0; 1], 1) (replicate 8 2) 0 toy_cand_ops ([10; 0; 0; 2], 1)) as Hs.
  apply Hs.
  - repeat constructor; by vm_compute.
  - intros x. unfold got_from, toy_cand_ops. cbn [fmap list_fmap]. rewrite !sum_Z_cons. change (sum_Z []) with 0.
    change (len (replicate 60 0)) with 60. change (len (replicate 9 0)) with 9. repeat case_decide; lia.
Defined.
End Toy.

(** ** A rebind beside the receive loop *)

(** The loop reads its two sockets one after the other; [migrate_to] stores the two and
    wakes the loop, in three steps. *)
Inductive RecvPos := AtTop (l : RecvLoop) | ReadActive (active : Socket) (l : RecvLoop) | IsParked (p : Parked) | BetweenCalls.
Inductive RebindPos := RebindIdle | Retained (s : Socket) | Swapped.
Record Race := mk_race { rc_client : UdpClientTransport; rc_recv : RecvPos; rc_rebind : RebindPos }.

Inductive race_step (linux : bool) : Race -> Race -> Prop :=
| race_call u m : race_step linux (mk_race u BetweenCalls m) (mk_race u (AtTop recv_start) m)
| race_active u l m : race_step linux (mk_race u (AtTop l) m) (mk_race u (ReadActive (uc_socket u) l) m)
| race_park u a l m now p :
    park (uc_phase u) a (uc_prev u) (uc_server u) now l = Ok p -> race_step linux (mk_race u (ReadActive a l) m) (mk_race u (IsParked p) m)
| race_wake u p m now w t u' out :
    on_wake linux u now p w = Some (t, u', out) ->
    race_step linux (mk_race u (IsParked p) m) (mk_race u' (match t with Again l => AtTop l | Return _ => BetweenCalls end) m)
| race_retain u r s : race_step linux (mk_race u r RebindIdle) (mk_race (migrate_retain u) r (Retained s))
| race_swap u r s : race_step linux (mk_race u r (Retained s)) (mk_race (migrate_swap u s) r Swapped)
| race_notify u r : race_step linux (mk_race u r Swapped) (mk_race (with_notified u true) r RebindIdle).

(** The loop listens on the sockets the transport has. *)
Definition listens (u : UdpClientTransport) (p : Parked) : Prop :=
  match p with
  | ParkHandshake _ _ _ _ _ _ => False
  | ParkOverlap a q _ => a = uc_socket u ∧ uc_prev u = Some q
  | ParkSingle a _ => a = uc_socket u ∧ uc_prev u = None
  end.

Definition race_ok (x : Race) : Prop :=
  uc_phase (rc_client x) = PhaseEstablished ∧
  (∀ p, rc_recv x = IsParked p -> match p with ParkHandshake _ _ _ _ _ _ => False | _ => True end) ∧
  (rc_rebind x = RebindIdle ->
   match rc_recv x with
   | ReadActive a _ => a = uc_socket (rc_client x) ∨ uc_notified (rc_client x) = true
   | IsParked p => listens (rc_client x) p ∨ uc_notified (rc_client x) = true
   | _ => True
   end).

Lemma on_wake_phase linux u now p w t u' out : on_wake linux u now p w = Some (t, u', out) -> uc_phase u' = uc_phase u.
Proof.
  destruct w as [s r| |]; cbn [on_wake].
  - intros ([t1 u1] & Ho & [= <- <- <-])%bind_Some. by apply on_socket_spec in Ho as [[? _] _].
  - destruct p; [|done..]. destruct (next_handshake_wait _ _); by intros [= <- <- <-].
  - destruct p; [done|..]; (destruct (uc_notified u); [|done]); by intros [= <- <- <-].
Qed.

Lemma race_step_ok linux x y : race_step linux x y -> race_ok x -> race_ok y.
Proof.
  intros [u m|u l m|u a l m now p Hp|u p m now w t u' out Hw|u r s|u r s|u r] (Hph & Hpk & Hi); cbn in Hph, Hpk, Hi.
  - by split; [|split].
  - split; [done|]. split; [done|]. cbn. by left.
  - rewrite Hph in Hp. cbn in Hp. injection Hp as <-. split; [done|]. split; [by intros p [= <-]; destruct (uc_prev u)|].
    cbn. intros Hm. destruct (Hi Hm) as [->|]; [|by right]. left. destruct (uc_prev u) eqn:E; cbn; by rewrite E.
  - split; [cbn; by rewrite (on_wake_phase _ _ _ _ _ _ _ _ Hw)|]. by split; destruct t.
  - split; [done|]. by split.
  - split; [done|]. by split.
  - split; [done|]. split; [done|]. cbn. intros _. destruct r; [done|by right|by right|done].
Qed.

(** A rebind never leaves a receiver waiting on sockets the transport no longer uses: at
    whatever point of the receiver's reads it happens, and however many follow, a receiver
    that is parked on other sockets once the rebind is done can be woken at once, and then
    reads the new ones. *)
Theorem rebind_wakes_receiver linux u x p :
  uc_phase u = PhaseEstablished -> rtc (race_step linux) (mk_race u BetweenCalls RebindIdle) x ->
  rc_rebind x = RebindIdle -> rc_recv x = IsParked p ->
  listens (rc_client x) p ∨ ∃ u', ∀ now, on_wake linux (rc_client x) now p WMigrated = Some (Again (loop_of p), u', []).
Proof.
  intros Hph Hs Hm Hr. assert (Hok : race_ok x).
  { revert Hs. assert (H0 : race_ok (mk_race u BetweenCalls RebindIdle)) by by split. revert H0. generalize (mk_race u BetweenCalls RebindIdle).
    intros y Hy Hs. clear -Hy Hs. induction Hs as [|a b c Hab _ IH]; [done|]. apply IH. by eapply race_step_ok. }
  destruct Hok as (_ & Hpk & Hi). specialize (Hi Hm). rewrite Hr in Hi. destruct Hi as [|Hn]; [by left|right].
  eexists. intros now. specialize (Hpk p Hr). cbn [on_wake]. destruct p; [done|..]; by rewrite Hn.
Qed.

Definition toy_established : UdpClientTransport :=
  mk_client 1 None ([127; 0; 0; 1], 443) (replicate 8 4) None PhaseEstablished 1 [] ∅ candidate_new false false.

Lemma rebind_wakes_receiver_witness :
  ∃ u', ∀ now, on_wake true (with_notified (migrate_swap (migrate_retain toy_established) 2) true) now (ParkSingle 1 recv_start) WMigrated
    = Some (Again recv_start, u', []).
Proof.
  destruct (rebind_wakes_receiver true toy_established
    (mk_race (with_notified (migrate_swap (migrate_retain toy_established) 2) true) (IsParked (ParkSingle 1 recv_start)) RebindIdle) (ParkSingle 1 recv_start))
    as [[Hs _]|Hw].
  - reflexivity.
  - eapply rtc_l; [apply race_call|]. eapply rtc_l; [apply race_active|]. eapply rtc_l; [by apply (race_park _ _ _ _ _ 0 (ParkSingle 1 recv_start))|].
    eapply rtc_l; [apply (race_retain _ _ _ 2)|]. eapply rtc_l; [apply race_swap|]. apply rtc_once, race_notify.
  - reflexivity.
  - reflexivity.
  - discriminate Hs.
  - exact Hw.
Defined.

(** Data on the retained old socket does not end the overlap while the receiver waits on
    the transport's own sockets.  But a receiver still parked from before a second rebind
    takes the socket just retained for the new one: a well-formed datagram on it drops it,
    although nothing has arrived on the new socket. *)
Theorem stale_wait_drops_old_socket linux u now q l s bytes src hdr f asm :
  uc_phase u = PhaseEstablished -> uc_prev u = Some q -> s ≠ uc_socket u -> q ≠ uc_socket u ->
  push_datagram (uc_reasm u) now (take (Z.to_nat (PATH_MTU + 64)) bytes) = (Ok (hdr, f), asm) ->
  let u1 := (client_migrate_to u (Some s)).2 in
  let arrives p := on_socket linux u1 now p (uc_socket u) (Ok (bytes, src)) in
  uc_socket u1 = s ∧ uc_prev u1 = Some (uc_socket u) ∧
  (∃ t u2, arrives (ParkOverlap s (uc_socket u) l) = Some (t, u2) ∧ uc_prev u2 = Some (uc_socket u)) ∧
  (∃ t u2, arrives (ParkOverlap (uc_socket u) q l) = Some (t, u2) ∧ uc_prev u2 = None).
Proof.
  intros Hph Hprev Hs Hq Hpush u1 arrives. split; [done|]. split; [done|]. subst arrives. cbn [on_socket classify_recv loop_of].
  split.
  - rewrite (proj2 (Z.eqb_neq _ _)), Z.eqb_refl by done. unfold take_datagram. change (uc_phase u1) with (uc_phase u). rewrite Hph. cbn [negb].
    change (uc_reasm u1) with (uc_reasm u). rewrite Hpush. destruct f; by do 2 eexists.
  - rewrite Z.eqb_refl. unfold take_datagram. change (uc_phase u1) with (uc_phase u). rewrite Hph. cbn [negb].
    change (uc_reasm u1) with (uc_reasm u). rewrite Hpush. destruct f; by do 2 eexists.
Qed.

Lemma stale_wait_drops_old_socket_witness :
  let u := mk_client 2 (Some 1) ([127; 0; 0; 1], 443) (replicate 8 4) None PhaseEstablished 1 [] ∅ candidate_new false false in
  ∃ t u2, on_socket true (client_migrate_to u (Some 3)).2 0 (ParkOverlap 2 1 recv_start) 2 (Ok (encode_header OneRtt false (replicate 8 4) ++ [1], ([127; 0; 0; 1], 443)))
    = Some (t, u2) ∧ uc_prev u2 = None.
Proof.
  intros u.
  destruct (stale_wait_drops_old_socket true u 0 1 recv_start 3 (encode_header OneRtt false (replicate 8 4) ++ [1]) ([127; 0; 0; 1], 443)
    (mk_outer OneRtt false (replicate 8 4)) (Some [1]) ∅) as (_ & _ & _ & Hx).
  - reflexivity.
  - reflexivity.
  - discriminate.
  - discriminate.
  - by vm_compute.
  - exact Hx.
Defined.
