(* ===== verification/Repair.v ===== *)
(** * A lost handshake reply is repaired

    The composition of the client's transport, the listener's demultiplexer and the
    server's transport ([core/src/api/udp_transport.rs], [core/src/api/udp_listener.rs]):
    the client repeats its flight on its own timer, the demultiplexer finds the reply it
    retained for exactly that question and sends it again, byte for byte, and the client
    reassembles it; whatever order the datagrams arrive in. *)

From Stdlib Require Import ZArith Lia.
From stdpp Require Import base numbers option list gmap.
From S2P Require Import Prelude Errors Crypto Datagram Pow HandshakeWire Hybrid Handshake Routes Demux UdpTransport.

Local Open Scope Z_scope.

(** ** What the server keeps *)

Section Keep.
Context `{HandshakeHash}.

(** The handshake task's turn on the transport: the hello comes in, the reply goes out, the
    reply is handed to the demultiplexer. *)
Lemma reply_is_kept caps s hello src reply ds :
  ss_phase s = PhaseHandshake -> encode_datagrams Datagram.Initial (default (ss_cid s) (ss_established s)) (ss_next_pid s) reply = Ok ds ->
  let '(r, s2, out) := server_send_bytes caps (server_recv_bytes s (Some (hello, src))).2 reply None in
  r = Ok () ∧ out = sent_to (ss_socket s) (ss_peer s) ds ∧
  (take_handshake_flight s2).1 =
    Some (mk_flight ds (caps ds) (ss_peer s) (sha256 hello) (wire_bytes ds) (wire_len (len hello)) (ss_latch s)) ∧
  (take_handshake_flight (take_handshake_flight s2).2).1 = None ∧ ss_question (take_handshake_flight s2).2 = None.
Proof.
  intros Hph He. cbn [server_recv_bytes snd]. rewrite Hph. unfold server_send_bytes. cbn. rewrite Hph. cbn. rewrite He. done.
Qed.
End Keep.

(** ** What the demultiplexer answers *)

Section Answer.
Context `{Primitives, PowHash, Borsh, HybridPrims, HandshakeHash}.

(** Datagrams with what each of them meets: the moment, the source, the permit, the channel. *)
Record Arrival := mk_arrival { ar_moment : Moment; ar_bytes : list Z; ar_src : SocketAddr; ar_permit : bool; ar_sent : bool; ar_tx : Z }.

Definition demux_arrival (x : Demux * list demux_effect) (a : Arrival) : Demux * list demux_effect :=
  let '(d', fx) := demux_datagram x.1 (ar_moment a) (ar_bytes a) (ar_src a) (ar_permit a) (ar_sent a) (ar_tx a) in (d', x.2 ++ fx).

Definition demux_arrivals (d : Demux) (l : list Arrival) : Demux * list demux_effect := foldl demux_arrival (d, []) l.

Definition timed (l : list Arrival) : list (Z * list Z) := (λ a, (m_now (ar_moment a), ar_bytes a)) <$> l.

Lemma with_asm_id d : with_asm d (d_asm d) = d.
Proof. by destruct d. Qed.

Lemma partial_arrivals l hdr : ∀ d fx asm',
  push_all (d_asm d) (timed l) = (replicate (length l) (Ok (hdr, None)), asm') -> foldl demux_arrival (d, fx) l = (with_asm d asm', fx).
Proof.
  induction l as [|a l IH]; intros d fx asm' Hp; cbn [timed fmap list_fmap push_all] in Hp.
  { injection Hp as <-. cbn. by rewrite with_asm_id. }
  destruct (push_datagram (d_asm d) (m_now (ar_moment a)) (ar_bytes a)) as [r asm1] eqn:Ea.
  fold (timed l) in Hp. destruct (push_all asm1 (timed l)) as [rs asm2] eqn:El. cbn [length replicate] in Hp. injection Hp as -> -> ->.
  cbn [foldl]. unfold demux_arrival at 2. unfold demux_datagram. cbn [fst snd]. rewrite Ea, app_nil_r. by rewrite (IH (with_asm d asm1) fx asm').
Qed.

(** The question again, on a committed route, with its reply retained: the reply goes out
    again, to where it went before, and nothing else changes but the count of repeats. *)
Lemma question_again d l a t (c : ConnId) pid hello qs e :
  length c = CID_LEN -> in_u 32 pid -> encode_datagrams t c pid hello = Ok qs -> t = Datagram.Initial ->
  d_asm d !! (cid16 c, pid) = None -> (size (d_asm d) < MAX_CONCURRENT_ASSEMBLIES)%nat -> completes qs (timed l) (ar_bytes a) ->
  is_Some (get_route (d_routes d) c) -> flights (d_flights d) !! c = Some e -> f_question (rf_flight e) = sha256 hello ->
  stays (m_heard (ar_moment a)) (m_now (ar_moment a)) e = true ->
  ∃ fl, demux_arrivals d (l ++ [a]) = (with_flights d fl, [FxRepeat (f_datagrams (rf_flight e)) (f_peer (rf_flight e))]) ∧
    flights fl !! c = (if repeats_left e - 1 =? 0 then None
                       else Some (mk_retained (rf_flight e) (repeats_left e - 1) (rf_expires_at e) (charged_bytes e))).
Proof.
  intros Hc Hpid He -> Hk Hs Hcomp [tx Hr] Hf Hq Hst.
  destruct (frame_arrives _ _ _ _ _ (d_asm d) (timed l) (m_now (ar_moment a)) (ar_bytes a) Hc Hpid He Hk Hs Hcomp) as (fr & asm' & Hp & Hlast).
  assert (Hlen : length (timed l) = length l) by (unfold timed; by rewrite length_fmap). rewrite Hlen in Hp.
  unfold demux_arrivals. rewrite foldl_app, (partial_arrivals l _ d [] asm' Hp). cbn [foldl]. unfold demux_arrival, demux_datagram. cbn [fst snd].
  change (d_asm (with_asm d asm')) with asm'. rewrite Hlast. change (with_asm (with_asm d asm') (d_asm d)) with (with_asm d (d_asm d)). rewrite with_asm_id.
  unfold on_committed_route. cbn [ty cid]. rewrite Hr. unfold repeat_flight. rewrite Hf, Hst, Hq, bool_decide_true by done. cbn [negb app].
  eexists. split; [done|]. cbn [repeats_left flights flights_sync]. destruct (_ =? 0); cbn; [rewrite forget_lookup; by rewrite decide_True|by rewrite lookup_insert_eq].
Qed.
End Answer.

(** ** What the client reads *)

Lemma call_datagram linux t0 u c l top now bytes src hdr o asm :
  uc_phase u = PhaseHandshake -> call_ok t0 u c -> cl_state c = Waiting l -> len bytes <= PATH_MTU ->
  push_datagram (uc_reasm (cl_client c)) now bytes = (Ok (hdr, o), asm) -> ty hdr = Datagram.Initial -> cid hdr = uc_cid u ->
  let c' := call_turn linux c (top, now, WDatagram (uc_socket u) (Ok (bytes, src))) in
  uc_reasm (cl_client c') = asm ∧ match o with Some f => cl_state c' = Returned (Ok f) | None => ∃ l', cl_state c' = Waiting l' end.
Proof.
  intros Hph ((Hp & Hs & _ & _ & Hcid) & _ & Hst) Ec Hlen Hpush Hty Hc. unfold call_turn. rewrite Ec in *. rewrite Hp, Hph.
  assert (Hl : (cl_fired c < 4)%nat ∧ rl_attempt l = Z.of_nat (cl_fired c) ∧ rl_spent l = spent_by (cl_fired c)).
  { destruct Hst as [(? & ? & ? & _)|[-> ->]]; [done|]. split; [lia|done]. }
  destruct Hl as (Hk & Ha & Hsp). unfold park. rewrite Ha, Hsp, wait_at, (proj2 (Nat.ltb_lt _ _) Hk).
  cbn [on_wake on_socket loop_of classify_recv]. rewrite Hs, Z.eqb_refl.
  set (u1 := if bool_decide _ then _ else cl_client c).
  assert (Hu1 : uc_phase u1 = PhaseHandshake ∧ uc_cid u1 = uc_cid u ∧ uc_reasm u1 = uc_reasm (cl_client c))
    by (subst u1; destruct (bool_decide _); cbn; by rewrite Hp, Hph).
  destruct Hu1 as (Hph1 & Hc1 & Hr1). unfold take_datagram. rewrite Hph1, Hc1, Hr1.
  rewrite take_ge by (unfold len in Hlen; change (Z.to_nat (PATH_MTU + 64)) with 1264%nat; unfold PATH_MTU in Hlen; lia).
  assert (Hd : ∃ rest, decode_header bytes = Ok (hdr, rest)).
  { unfold push_datagram in Hpush. destruct (decode_header bytes) as [[h rest]|]; [|done]. exists rest. destruct (negb (fragmented h)); [by injection Hpush as <- <- <-|].
    destruct (_ <? _)%nat; [done|]. destruct (process_chunk _ _ _). by injection Hpush as <- <- <-. }
  destruct Hd as [rest ->]. rewrite !bool_decide_true by done. cbn [andb negb]. rewrite Hpush.
  destruct o, (bool_decide (uc_prev (cl_client c) ≠ None)); (split; [done|]); cbn; eauto.
Qed.

(** A datagram on the client's socket. *)
Definition on_socket_event (s : Socket) (x : Z * Z * list Z * SocketAddr) : Z * Z * wake :=
  let '(top, now, bytes, src) := x in (top, now, WDatagram s (Ok (bytes, src))).
Definition client_timed (l : list (Z * Z * list Z * SocketAddr)) : list (Z * list Z) := (λ x, (x.1.1.2, x.1.2)) <$> l.

Lemma client_partial linux t0 u hdr l : ∀ c w asm',
  uc_phase u = PhaseHandshake -> call_ok t0 u c -> cl_state c = Waiting w -> w ≠ recv_start ->
  Forall (λ x, len x.1.2 <= PATH_MTU) l -> ty hdr = Datagram.Initial -> cid hdr = uc_cid u ->
  push_all (uc_reasm (cl_client c)) (client_timed l) = (replicate (length l) (Ok (hdr, None)), asm') ->
  let c' := foldl (call_turn linux) c (on_socket_event (uc_socket u) <$> l) in
  call_ok t0 u c' ∧ uc_reasm (cl_client c') = asm' ∧ ∃ w', cl_state c' = Waiting w' ∧ w' ≠ recv_start.
Proof.
  induction l as [|[[[top now] bytes] src] l IH]; intros c w asm' Hph Hok Ec Hw Hlen Hty Hc Hp; cbn [client_timed fmap list_fmap push_all] in Hp.
  { injection Hp as <-. split; [done|]. split; [done|]. by exists w. }
  apply Forall_cons in Hlen as [Hb Hlen]. cbn [fst snd] in *.
  destruct (push_datagram (uc_reasm (cl_client c)) now bytes) as [r asm1] eqn:Ea. fold (client_timed l) in Hp.
  destruct (push_all asm1 (client_timed l)) as [rs asm2] eqn:El. cbn [length replicate] in Hp. injection Hp as -> -> ->.
  destruct (call_datagram linux t0 u c w top now bytes src hdr None asm1 Hph Hok Ec Hb Ea Hty Hc) as [Hr [w' Hw']].
  destruct (call_turn_ok linux t0 u c top now (WDatagram (uc_socket u) (Ok (bytes, src))) Hph Hok) as [Hok' Hne]; [rewrite Ec; by intros [= ->]|].
  cbn [fmap list_fmap on_socket_event foldl]. apply (IH _ w'); [done|done|done|intros ->; by rewrite Hw' in Hne|done|done|done|by rewrite Hr].
Qed.

(** The datagrams of a frame for the client, in any order: the call returns the frame. *)
Lemma reply_received linux t0 u c w l x top now src pid reply rds :
  uc_phase u = PhaseHandshake -> call_ok t0 u c -> cl_state c = Waiting w -> w ≠ recv_start ->
  length (uc_cid u) = CID_LEN -> in_u 32 pid -> encode_datagrams Datagram.Initial (uc_cid u) pid reply = Ok rds ->
  uc_reasm (cl_client c) !! (cid16 (uc_cid u), pid) = None -> (size (uc_reasm (cl_client c)) < MAX_CONCURRENT_ASSEMBLIES)%nat ->
  completes rds (client_timed l) x ->
  cl_state (foldl (call_turn linux) c (on_socket_event (uc_socket u) <$> (l ++ [(top, now, x, src)]))) = Returned (Ok reply).
Proof.
  intros Hph Hok Ec Hw Hc Hpid He Hk Hs Hcomp.
  destruct (frame_arrives _ _ _ _ _ _ _ now x Hc Hpid He Hk Hs Hcomp) as (fr & asm' & Hp & Hlast).
  destruct (wire_len_exact _ _ _ _ _ Hc He) as [_ Hmtu]. rewrite Forall_forall in Hmtu.
  assert (Hlen : length (client_timed l) = length l) by (unfold client_timed; by rewrite length_fmap). rewrite Hlen in Hp.
  destruct Hcomp as (Hin & Hx & _). rewrite fmap_app, foldl_app.
  destruct (client_partial linux t0 u (mk_outer Datagram.Initial fr (uc_cid u)) l c w asm') as (Hok' & Hr & w' & Hw' & _); try done.
  { apply Forall_forall. intros y Hy. apply Hmtu, (Hin (y.1.1.2, y.1.2)). by apply (list_elem_of_fmap_2 (λ x, (x.1.1.2, x.1.2))). }
  cbn [fmap list_fmap foldl on_socket_event]. rewrite <- Hr in Hlast.
  eapply call_datagram in Hlast as [_ Hret]; [exact Hret|done|exact Hok'|exact Hw'|by apply Hmtu|done|done].
Qed.

(** ** End to end *)

Section Repair.
Context `{Primitives, PowHash, Borsh, HybridPrims, HandshakeHash}.
Context (entry_overhead vec_size : Z).

Lemma retain_lookup heard t (c : ConnId) f now :
  f_wire_bytes f <= Z.min (u_max 64) (f_question_wire_bytes f * FLIGHT_AMPLIFICATION_LIMIT) ->
  flights (retain entry_overhead vec_size heard t c f now).2 !! c =
    Some (mk_retained f MAX_FLIGHT_REPEATS (now + HANDSHAKE_FLIGHT_RETENTION) (retained_cost entry_overhead vec_size f)).
Proof. intros Hf. unfold retain. rewrite (proj2 (Z.ltb_ge _ _)) by lia. apply lookup_insert_eq. Qed.

Lemma timer_resends linux t0 u c w top now :
  uc_phase u = PhaseHandshake -> call_ok t0 u c -> cl_state c = Waiting w -> (w = recv_start -> top = t0) -> (cl_fired c < 3)%nat ->
  let c' := call_turn linux c (top, now, WTimer) in
  cl_out c' = cl_out c ++ sent_to (uc_socket u) (uc_server u) (uc_last_sent u) ∧ cl_client c' = cl_client c ∧
  call_ok t0 u c' ∧ ∃ w', cl_state c' = Waiting w' ∧ w' ≠ recv_start.
Proof.
  intros Hph Hok Ec Htop Hk c'. destruct (call_turn_ok linux t0 u c top now WTimer Hph Hok) as [Hok' Hne]; [rewrite Ec; intros [= ->]; by apply Htop|].
  fold c' in Hok', Hne. revert Hok' Hne. subst c'. unfold call_turn. rewrite Ec.
  destruct Hok as ((Hp & Hs & Hv & Hl & _) & _ & Hst). rewrite Ec in Hst. rewrite Hp, Hph.
  assert (Hw : rl_attempt w = Z.of_nat (cl_fired c) ∧ rl_spent w = spent_by (cl_fired c)) by (destruct Hst as [(_ & ? & ? & _)|[-> ->]]; done).
  destruct Hw as [Ha Hsp]. unfold park. rewrite Ha, Hsp, wait_at, (proj2 (Nat.ltb_lt _ _)) by lia. cbn [on_wake rl_attempt rl_spent].
  replace (sat_add 32 (Z.of_nat (cl_fired c)) 1) with (Z.of_nat (S (cl_fired c))) by (unfold sat_add, u_max; lia).
  replace (sat_add_duration _ _) with (spent_by (S (cl_fired c))) by (revert Hk; generalize (cl_fired c); intros [|[|[|]]]; [done..|lia]).
  rewrite wait_at, (proj2 (Nat.ltb_lt _ _)) by lia. cbn [cl_out cl_client cl_state]. rewrite Hs, Hv, Hl. intros Hok' Hne.
  split; [done|]. split; [done|]. split; [done|]. eexists. split; [done|]. by intros [= ? ? ?].
Qed.

(** C22: A client waiting for the reply whose every datagram was lost.  Its timer sends its
    flight again; when those datagrams have reached the demultiplexer, in any order and
    from anywhere, with the reply retained and the session not yet heard from, the answer is
    exactly the datagrams of the reply, to the address the reply went to; and when those
    have reached the client, in any order, its [recv_bytes] returns the reply. *)
Theorem lost_reply_repaired linux caps u t0 l0 w top now hello pid s src reply rds d tx r m cids owner l a evs x now' top' src' :
  uc_phase u = PhaseHandshake -> length (uc_cid u) = CID_LEN -> in_u 32 pid ->
  encode_datagrams Datagram.Initial (uc_cid u) pid hello = Ok (uc_last_sent u) ->
  (∀ y, head l0 = Some y -> y.1.1 = t0) -> l0 ≠ [] -> cl_state (call_run linux u l0) = Waiting w -> (cl_fired (call_run linux u l0) < 3)%nat ->
  ss_phase s = PhaseHandshake -> ss_established s = None -> ss_cid s = uc_cid u -> in_u 32 (ss_next_pid s) ->
  encode_datagrams Datagram.Initial (ss_cid s) (ss_next_pid s) reply = Ok rds ->
  wire_bytes rds <= Z.min (u_max 64) (wire_len (len hello) * FLIGHT_AMPLIFICATION_LIMIT) ->
  routes (d_routes d) !! (uc_cid u : ConnId) = Some r -> m_closed m (r_tx r) = false ->
  let s2 := (server_send_bytes caps (server_recv_bytes s (Some (hello, src))).2 reply None).1.2 in
  let d1 := (demux_turn entry_overhead vec_size d m (EvRegister (mk_registration cids tx owner (uc_cid u) (take_handshake_flight s2).1))).1 in
  d_asm d !! (cid16 (uc_cid u), pid) = None -> (size (d_asm d) < MAX_CONCURRENT_ASSEMBLIES)%nat ->
  completes (uc_last_sent u) (timed l) (ar_bytes a) ->
  m_heard (ar_moment a) (ss_latch s) = false -> m_now (ar_moment a) < m_now m + HANDSHAKE_FLIGHT_RETENTION ->
  let q := call_turn linux (call_run linux u l0) (top, now, WTimer) in
  uc_reasm (cl_client q) !! (cid16 (uc_cid u), ss_next_pid s) = None -> (size (uc_reasm (cl_client q)) < MAX_CONCURRENT_ASSEMBLIES)%nat ->
  completes rds (client_timed evs) x ->
  cl_out q = cl_out (call_run linux u l0) ++ sent_to (uc_socket u) (uc_server u) (uc_last_sent u) ∧
  (demux_arrivals d1 (l ++ [a])).2 = [FxRepeat rds (ss_peer s)] ∧
  cl_state (foldl (call_turn linux) q (on_socket_event (uc_socket u) <$> (evs ++ [(top', now', x, src')]))) = Returned (Ok reply).
Proof.
  intros Hph Hcl Hpid He Hh Hl0 Ew Hk Hsp Hse Hsc Hspid Hre Hamp Hr Hopen s2 d1 Hka Hsz Hcomp Hheard Hnow q Hkc Hszc Hcompc.
  destruct (call_run_ok linux u t0 l0 Hph Hh) as [Hok Hne]. specialize (Hne Hl0).
  destruct (timer_resends linux t0 u _ w top now Hph Hok Ew) as (Hout & Hcli & Hokq & w' & Hw' & Hwne); [intros ->; by rewrite Ew in Hne|done|].
  fold q in Hout, Hcli, Hokq, Hw'. split; [done|]. split.
  - pose proof (reply_is_kept caps s hello src reply rds Hsp) as Hkeep. rewrite Hse in Hkeep. cbn [default from_option] in Hkeep. specialize (Hkeep Hre).
    destruct (server_send_bytes caps _ reply None) as [[res s2'] out] eqn:Es. change s2 with s2' in d1. destruct Hkeep as (_ & _ & Hfl & _).
    subst d1. rewrite Hfl. set (f := mk_flight _ _ _ _ _ _ _). cbn [demux_turn fst reg_flight].
    set (d1 := with_flights _ _). set (e := mk_retained f MAX_FLIGHT_REPEATS (m_now m + HANDSHAKE_FLIGHT_RETENTION) (retained_cost entry_overhead vec_size f)).
    destruct (question_again d1 l a Datagram.Initial (uc_cid u) pid hello (uc_last_sent u) e) as (fl & Hq & _); try done.
    + exists (r_tx r). exact (f_equal (fmap r_tx) (register_keeps (m_closed m) cids tx owner (uc_cid u) r _ Hr Hopen)).
    + subst d1. cbn. by apply retain_lookup.
    + unfold stays. cbn. rewrite Hheard. cbn. apply Z.ltb_lt. done.
    + rewrite Hq. done.
  - rewrite Hsc in Hre. by eapply reply_received.
Qed.
End Repair.

(** ** A run: a hello of two datagrams, which arrive last to first *)

Section Toy.
#[local] Existing Instance toy_primitives.
#[local] Existing Instance toy_hash.
#[local] Existing Instance borsh_by_format.
#[local] Existing Instance toy_hybrid.
#[local] Existing Instance toy_handshake_hash.

Definition rp_cid : ConnId := replicate 8 4.
Definition rp_hello : list Z := replicate 1300 7.
Definition rp_reply : list Z := replicate 1400 8.
Definition rp_split (pid : Z) (frame : list Z) : list (list Z) := match encode_datagrams Datagram.Initial rp_cid pid frame with Ok ds => ds | Err _ => [] end.
Definition rp_client : UdpClientTransport :=
  mk_client 1 None ([127; 0; 0; 1], 443) rp_cid None PhaseHandshake 1 (rp_split 0 rp_hello) ∅ candidate_new false false.
Definition rp_server : UdpServerTransport := server_new 9 ([10; 0; 0; 7], 5000) rp_cid 77.
Definition rp_moment (now : Z) : Moment := mk_moment (λ _, false) (λ _, false) now None.
Definition rp_demux : Demux := with_routes (demux_new toy_server) (try_insert (λ _, false) routes_new rp_cid 5 1).2.
Definition rp_arrival (now : Z) (bytes : list Z) : Arrival := mk_arrival (rp_moment now) bytes ([10; 0; 0; 8], 1) true true 6.

Lemma completes_check ds l x :
  (bool_decide (Forall (λ y, y.2 ∈ ds) l) && bool_decide (x ∈ ds) && bool_decide (x ∉ l.*2) && bool_decide (Forall (λ d, d = x ∨ d ∈ l.*2) ds)) = true -> completes ds l x.
Proof.
  rewrite !andb_true_iff, !bool_decide_eq_true, !Forall_forall. intros [[[Ha Hb] Hc] Hd]. split; [exact Ha|]. split; [exact Hb|]. split; [exact Hc|exact Hd].
Qed.

Lemma lost_reply_repaired_witness :
  (demux_arrivals (demux_turn 64 24 rp_demux (rp_moment 100) (EvRegister (mk_registration [] 5 1 rp_cid (take_handshake_flight
      (server_send_bytes (fmap len) (server_recv_bytes rp_server (Some (rp_hello, ([10; 0; 0; 7], 5000)))).2 rp_reply None).1.2).1))).1
    [rp_arrival 200 (rp_split 0 rp_hello !!! 1%nat); rp_arrival 201 (rp_split 0 rp_hello !!! 0%nat)]).2
  = [FxRepeat (rp_split 0 rp_reply) ([10; 0; 0; 7], 5000)].
Proof.
  destruct (lost_reply_repaired 64 24 true (fmap len) rp_client 5 [(5, 6, WDatagram 1 (Ok ([9; 9], ([10; 0; 0; 1], 7))))] (mk_loop 0 0 (Some (5 + 1 * 10 ^ 9))) 7 8
    rp_hello 0 rp_server ([10; 0; 0; 7], 5000) rp_reply (rp_split 0 rp_reply) rp_demux 5 (mk_route 5 1) (rp_moment 100) [] 1
    [rp_arrival 200 (rp_split 0 rp_hello !!! 1%nat)] (rp_arrival 201 (rp_split 0 rp_hello !!! 0%nat))
    [(9, 10, rp_split 0 rp_reply !!! 1%nat, ([127; 0; 0; 1], 443))] (rp_split 0 rp_reply !!! 0%nat) 12 11 ([127; 0; 0; 1], 443)) as (_ & Hd & _).
  - reflexivity.
  - reflexivity.
  - done.
  - by vm_compute.
  - by intros y [= <-].
  - discriminate.
  - by vm_compute.
  - vm_compute. lia.
  - reflexivity.
  - reflexivity.
  - reflexivity.
  - done.
  - by vm_compute.
  - by vm_compute.
  - by vm_compute.
  - reflexivity.
  - by vm_compute.
  - vm_compute. lia.
  - apply completes_check. by vm_compute.
  - reflexivity.
  - by vm_compute.
  - by vm_compute.
  - vm_compute. lia.
  - apply completes_check. by vm_compute.
  - exact Hd.
Defined.
End Toy.
