(* ===== verification/AddressWalk.v ===== *)
(** * Connecting to a name with several addresses ([walk_candidate_addresses] of
      [core/src/api/session.rs])

    The overlapping attempts, their verdicts and the order among them.  A candidate is its
    index in the resolver's order, and stands for the session built on it.  Whether its
    socket opens is an argument of the walk; the clock, which addresses have said something
    and what wakes the walk are arguments of each turn. *)

From Stdlib Require Import ZArith Lia.
From stdpp Require Import base numbers option list.
From S2P Require Import Prelude Errors.

Local Open Scope Z_scope.

(** ** The share of each candidate, in nanoseconds *)

Definition UDP_HANDSHAKE_FLIGHTS : Z := 2.
Definition NO_SAMPLE_FLIGHT_RTO : Z := 1 * 10 ^ 9.
Definition MIN_CANDIDATE_HANDSHAKE_SHARE : Z := (NO_SAMPLE_FLIGHT_RTO / 10 ^ 6) * UDP_HANDSHAKE_FLIGHTS * 10 ^ 6.
Definition CANDIDATE_ATTEMPT_DELAY : Z := 250 * 10 ^ 6.

Definition candidate_share (budget count : Z) : Z :=
  let divisor := if count <=? u_max 32 then count else u_max 32 in
  let even := if divisor =? 0 then budget else budget / divisor in
  Z.min (Z.max even MIN_CANDIDATE_HANDSHAKE_SHARE) budget.

(** ** The verdicts *)

Definition refusal_ends_the_walk (e : CoreError) : bool :=
  match e with
  | ServerIdentityMismatch | ProtocolRejected | CipherSuiteUnavailable | ConfigError | FipsSelfTestFailure => true
  | Timeout | NetworkError | ConnectionClosed | SerializationError | ValidationError | CryptoError _ | HandshakeError | ReplayDetected
  | StreamError | Unsupported | KeyDerivationError | RngError | InternalError => false
  end.

(** [waiting]: for each candidate, whether it is still being waited on. *)
Definition waited (waiting : list bool) (i : nat) : bool := default false (waiting !! i).

Definition answering (waiting : list bool) (answered : nat -> bool) (i : nat) : bool := waited waiting i && answered i.

Definition an_earlier_address_is_still_answering (winner : nat) (waiting : list bool) (answered : nat -> bool) : bool :=
  existsb (answering waiting answered) (seq 0 winner).

Definition may_contact_the_next_address (next total : nat) (verdict_in_hand : bool) (waiting : list bool) (answered : nat -> bool) : bool :=
  (next <? total)%nat && negb verdict_in_hand && negb (existsb (answering waiting answered) (seq 0 (length waiting))).

Definition a_refusal_is_the_answer_now (refuser : nat) (waiting : list bool) : bool := forallb negb (take refuser waiting).

Inductive VerdictToActOn := Win | Refusal | Neither.

Definition verdict_to_act_on (won refused : option nat) : VerdictToActOn :=
  match won, refused with
  | Some winner, Some refuser => if (winner <? refuser)%nat then Win else Refusal
  | Some _, None => Win
  | None, Some _ => Refusal
  | None, None => Neither
  end.

(** ** The walk *)

Record Walk := mk_walk {
  wk_tried : list (nat * CoreError);
  wk_waiting : list bool;
  wk_running : list nat;
  wk_next : nat;
  wk_at : Z;
  wk_won : option nat;
  wk_refused : option (nat * CoreError);
}.

Inductive AttemptOutcome := Ready | FailedWith (e : CoreError) | ShareElapsed.

Inductive WalkWake := Finished (i : nat) (o : AttemptOutcome) | BudgetSpent | ContactDue.

(** What one turn of the contacting loop sees: the time and the answers at its check, and
    the time once the socket is open. *)
Record Look := mk_look { lk_now : Z; lk_answered : nat -> bool; lk_after : Z }.

(** One turn of the walk: what the contacting loop sees, the answers when it decides, what
    wakes it and when. *)
Record Turn := mk_turn { tn_looks : nat -> Look; tn_answered : nat -> bool; tn_wake : WalkWake; tn_now : Z }.

Section Walk.
Context (total : nat) (opens : nat -> result () CoreError).

Definition walk_new (now : Z) : Walk := mk_walk [] (replicate total false) [] 0 now None None.

Definition in_hand (w : Walk) : bool := bool_decide (wk_won w ≠ None) || bool_decide (wk_refused w ≠ None).

(** The contacting loop: at most one turn per candidate.  [inr] is the session of a name
    with one address. *)
Fixpoint contact (fuel : nat) (looks : nat -> Look) (w : Walk) : Walk + nat :=
  match fuel with
  | O => inl w
  | S fuel =>
    let k := looks 0%nat in
    if (wk_at w <=? lk_now k) && may_contact_the_next_address (wk_next w) total (in_hand w) (wk_waiting w) (lk_answered k) then
      let i := wk_next w in
      match opens i with
      | Ok _ =>
        if (total =? 1)%nat then inr i
        else contact fuel (λ n, looks (S n))
               (mk_walk (wk_tried w) (<[i := true]> (wk_waiting w)) (wk_running w ++ [i]) (S i) (lk_after k + CANDIDATE_ATTEMPT_DELAY) (wk_won w) (wk_refused w))
      | Err e =>
        contact fuel (λ n, looks (S n)) (mk_walk (wk_tried w ++ [(i, e)]) (wk_waiting w) (wk_running w) (S i) (lk_after k) (wk_won w) (wk_refused w))
      end
    else inl w
  end.

Definition first_waiting (w : Walk) : option nat := fst <$> list_find (λ b, b = true) (wk_waiting w).

(** The decisions between contacting and waiting: [inr] returns, [inl] goes on with the
    verdict and whether the loop ends here. *)
Definition settle (w : Walk) (answered : nat -> bool) : VerdictToActOn * bool + result nat CoreError :=
  let verdict := verdict_to_act_on (wk_won w) (fst <$> wk_refused w) in
  let now_answer :=
    match verdict with
    | Win => match wk_won w with
             | Some i => if an_earlier_address_is_still_answering i (wk_waiting w) answered then None else Some (Ok i)
             | None => None
             end
    | _ => match wk_refused w with
           | Some (j, e) => if a_refusal_is_the_answer_now j (wk_waiting w) then Some (Err e) else None
           | None => None
           end
    end in
  match now_answer with
  | Some r => inr r
  | None =>
    let last_one :=
      if (total <=? wk_next w)%nat && negb (in_hand w) && (length (wk_running w) =? 1)%nat then first_waiting w else None in
    match last_one with
    | Some i => inr (Ok i)
    | None => inl (verdict, bool_decide (wk_running w = []) && (total <=? wk_next w)%nat)
    end
  end.

Definition lower (held : option nat) (i : nat) : bool := match held with None => true | Some h => (i <? h)%nat end.

Definition finish (w : Walk) (i : nat) (o : AttemptOutcome) (now : Z) : Walk :=
  let waiting := <[i := false]> (wk_waiting w) in
  let running := filter (λ j, j ≠ i) (wk_running w) in
  let tried e := mk_walk (wk_tried w ++ [(i, e)]) waiting running (wk_next w) now (wk_won w) (wk_refused w) in
  match o with
  | Ready =>
    let won := if waited (wk_waiting w) i && lower (wk_won w) i then Some i else wk_won w in
    mk_walk (wk_tried w) waiting running (wk_next w) (wk_at w) won (wk_refused w)
  | FailedWith e =>
    if refusal_ends_the_walk e then
      let refused := if lower (fst <$> wk_refused w) i then Some (i, e) else wk_refused w in
      mk_walk (wk_tried w) waiting running (wk_next w) (wk_at w) (wk_won w) refused
    else tried e
  | ShareElapsed => tried Timeout
  end.

(** The answer after the loop. *)
Definition last_answer (w : Walk) : result nat CoreError :=
  match verdict_to_act_on (wk_won w) (fst <$> wk_refused w) with
  | Win => match wk_won w with Some i => Ok i | None => Err NetworkError end
  | Refusal => match wk_refused w with Some (_, e) => Err e | None => Err NetworkError end
  | Neither => Err NetworkError
  end.

(** The answer when the budget is spent. *)
Definition budget_answer (w : Walk) (verdict : VerdictToActOn) : result nat CoreError :=
  let win := match verdict with Win => wk_won w | _ => None end in
  match win, wk_refused w, wk_won w, first_waiting w with
  | Some i, _, _, _ => Ok i
  | None, Some (_, e), _, _ => Err e
  | None, None, Some i, _ => Ok i
  | None, None, None, Some i => Ok i
  | None, None, None, None => last_answer w
  end.

(** One turn of the loop. A wake-up it does not wait for changes nothing. *)
Definition walk_turn (w : Walk) (t : Turn) : Walk + result nat CoreError :=
  match contact (S total) (tn_looks t) w with
  | inr i => inr (Ok i)
  | inl w1 =>
    match settle w1 (tn_answered t) with
    | inr r => inr r
    | inl (_, true) => inr (last_answer w1)
    | inl (verdict, false) =>
      match tn_wake t with
      | Finished i o => if bool_decide (i ∈ wk_running w1) then inl (finish w1 i o (tn_now t)) else inl w1
      | BudgetSpent => inr (budget_answer w1 verdict)
      | ContactDue => inl w1
      end
    end
  end.

(** [walk_candidate_addresses], as far as the turns go. *)
Fixpoint walk (w : Walk) (ts : list Turn) : Walk + result nat CoreError :=
  match ts with
  | [] => inl w
  | t :: ts => match walk_turn w t with inl w' => walk w' ts | inr r => inr r end
  end.

Definition walk_candidate_addresses (now : Z) (ts : list Turn) : Walk + result nat CoreError :=
  if (total =? 0)%nat then inr (Err NetworkError) else walk (walk_new now) ts.

(** ** What the state knows of what happened *)

(** The attempts that finished so far, with their outcomes. *)
Definition history : Type := list (nat * AttemptOutcome).

Definition refused_in (h : history) (j : nat) (e : CoreError) : Prop := (j, FailedWith e) ∈ h ∧ refusal_ends_the_walk e = true.

(** The lowest-numbered success, and the lowest-numbered refusal. *)
Definition won_of (h : history) (won : option nat) : Prop :=
  match won with
  | None => ∀ i, (i, Ready) ∉ h
  | Some i => (i, Ready) ∈ h ∧ ∀ j, (j, Ready) ∈ h -> (i <= j)%nat
  end.
Definition refused_of (h : history) (refused : option (nat * CoreError)) : Prop :=
  match refused with
  | None => ∀ j e, ~ refused_in h j e
  | Some (j, e) => refused_in h j e ∧ ∀ j' e', refused_in h j' e' -> (j <= j')%nat
  end.

Record walk_ok (h : history) (w : Walk) : Prop := {
  ok_next : (wk_next w <= total)%nat;
  ok_len : length (wk_waiting w) = total;
  ok_running i : i ∈ wk_running w <-> (i < wk_next w)%nat ∧ opens i = Ok () ∧ i ∉ h.*1;
  ok_waiting i : waited (wk_waiting w) i = true <-> i ∈ wk_running w;
  ok_nodup : NoDup (wk_running w);
  ok_past i o : (i, o) ∈ h -> (i < wk_next w)%nat ∧ opens i = Ok ();
  ok_won : won_of h (wk_won w);
  ok_refused : refused_of h (wk_refused w);
}.

Lemma walk_new_ok now : walk_ok [] (walk_new now).
Proof.
  constructor; cbn.
  - lia.
  - apply length_replicate.
  - intros i. split; [by intros ?%not_elem_of_nil|]. intros (? & _). lia.
  - intros i. unfold waited. split; [|by intros ?%not_elem_of_nil]. destruct (replicate total false !! i) as [b|] eqn:E; [|done].
    apply lookup_replicate in E as [-> _]. done.
  - apply NoDup_nil_2.
  - by intros i o ?%not_elem_of_nil.
  - by intros i ?%not_elem_of_nil.
  - by intros j e [?%not_elem_of_nil _].
Qed.

Lemma waited_insert l i j b : (i < length l)%nat -> waited (<[i := b]> l) j = if decide (j = i) then b else waited l j.
Proof.
  intros Hi. unfold waited. case_decide; [subst; by rewrite list_lookup_insert_eq|by rewrite list_lookup_insert_ne].
Qed.

Lemma contact_ok h fuel : ∀ looks w, walk_ok h w -> match contact fuel looks w with inl w' => walk_ok h w' | inr i => total = 1%nat ∧ opens i = Ok () end.
Proof.
  induction fuel as [|fuel IH]; intros looks w Hok; cbn [contact]; [done|].
  destruct (_ && _) eqn:Eg; [|done]. unfold may_contact_the_next_address in Eg. bool_to_prop.
  match goal with Hx : (wk_next w <? total)%nat = true |- _ => apply Nat.ltb_lt in Hx end.
  destruct (opens (wk_next w)) as [[]|e] eqn:Eo.
  - destruct (Nat.eqb_spec total 1); [done|]. apply IH. destruct Hok as [Hn Hl Hr Hw Hd Hp Hwn Hrf]. split; cbn; try done.
    + by rewrite length_insert.
    + intros i. rewrite elem_of_app, list_elem_of_singleton, Hr. split.
      * intros [(? & ? & ?)| ->]; [split; [lia|done]|]. split; [lia|]. split; [done|]. intros ([k o] & Hk & Hin)%list_elem_of_fmap. destruct (Hp _ _ Hin) as [? _]. cbn in Hk. lia.
      * intros (? & ? & ?). destruct (decide (i = wk_next w)); [by right|left]. split; [lia|done].
    + intros i. rewrite waited_insert by lia. rewrite elem_of_app, list_elem_of_singleton. case_decide; [subst; split; auto|]. rewrite Hw. naive_solver.
    + apply NoDup_app. split; [done|]. split; [|apply NoDup_singleton]. intros x Hx ->%list_elem_of_singleton. apply Hr in Hx as (? & _). lia.
    + intros i o Hin. destruct (Hp _ _ Hin). split; [lia|done].
  - apply IH. destruct Hok as [Hn Hl Hr Hw Hd Hp Hwn Hrf]. split; cbn; try done.
    + intros i. rewrite Hr. split; intros (? & ? & ?); (split; [|done]); [lia|]. destruct (decide (i = wk_next w)); [subst; congruence|lia].
    + intros i o Hin. destruct (Hp _ _ Hin). split; [lia|done].
Qed.

Lemma won_after h won i o :
  won_of h won -> won_of (h ++ [(i, o)]) (match o with Ready => if lower won i then Some i else won | _ => won end).
Proof.
  assert (Hrd : ∀ j, (j, Ready) ∈ h ++ [(i, o)] <-> (j, Ready) ∈ h ∨ j = i ∧ o = Ready) by (intros j; rewrite elem_of_app, list_elem_of_singleton; naive_solver).
  unfold won_of. intros Hwn. destruct o as [|e|].
  - destruct won as [k|]; cbn [lower]; [destruct (Nat.ltb_spec i k)|].
    + split; [apply Hrd; by right|]. intros j [Hj|[-> _]]%Hrd; [|done]. apply Hwn in Hj. lia.
    + destruct Hwn as [Hk1 Hk2]. split; [apply Hrd; by left|]. intros j [Hj|[-> _]]%Hrd; [by apply Hk2|done].
    + split; [apply Hrd; by right|]. intros j [Hj|[-> _]]%Hrd; [by apply Hwn in Hj|done].
  - destruct won as [k|]; [|by intros j [?%Hwn|[_ ?]]%Hrd]. destruct Hwn as [Hk1 Hk2]. split; [apply Hrd; by left|]. intros j [Hj|[_ ?]]%Hrd; [by apply Hk2|done].
  - destruct won as [k|]; [|by intros j [?%Hwn|[_ ?]]%Hrd]. destruct Hwn as [Hk1 Hk2]. split; [apply Hrd; by left|]. intros j [Hj|[_ ?]]%Hrd; [by apply Hk2|done].
Qed.

Lemma refused_after h refused i o :
  refused_of h refused ->
  refused_of (h ++ [(i, o)])
    (match o with
     | FailedWith e => if refusal_ends_the_walk e then if lower (fst <$> refused) i then Some (i, e) else refused else refused
     | _ => refused
     end).
Proof.
  assert (Hrd : ∀ j e, refused_in (h ++ [(i, o)]) j e <-> refused_in h j e ∨ j = i ∧ o = FailedWith e ∧ refusal_ends_the_walk e = true)
    by (intros j e; unfold refused_in; rewrite elem_of_app, list_elem_of_singleton; naive_solver).
  intros Hrf. assert (Hsame : (∀ e, o = FailedWith e -> refusal_ends_the_walk e = false) -> refused_of (h ++ [(i, o)]) refused).
  { intros Hne. unfold refused_of in *. destruct refused as [[j e]|].
    - destruct Hrf as [Hj1 Hj2]. split; [apply Hrd; by left|]. intros j' e' [Hj|(_ & Ho' & Ht)]%Hrd; [by apply (Hj2 j' e')|]. apply Hne in Ho'. congruence.
    - intros j e [Hj|(_ & Ho' & Ht)]%Hrd; [by apply (Hrf j e)|]. apply Hne in Ho'. congruence. }
  destruct o as [|e|]; [by apply Hsame| |by apply Hsame]. destruct (refusal_ends_the_walk e) eqn:Ee; [|apply Hsame; by intros e' [= <-]].
  unfold refused_of in *. destruct refused as [[k ek]|]; cbn [lower fmap option_fmap option_map fst]; [destruct (Nat.ltb_spec i k)|].
  - split; [apply Hrd; by right|]. intros j' e' [Hj|(-> & _)]%Hrd; [|done]. apply Hrf in Hj. lia.
  - destruct Hrf as [Hj1 Hj2]. split; [apply Hrd; by left|]. intros j' e' [Hj|(-> & _)]%Hrd; [by apply (Hj2 j' e')|done].
  - split; [apply Hrd; by right|]. intros j' e' [Hj|(-> & _)]%Hrd; [by apply Hrf in Hj|done].
Qed.

Lemma finish_ok h w i o now : walk_ok h w -> i ∈ wk_running w -> walk_ok (h ++ [(i, o)]) (finish w i o now).
Proof.
  intros [Hn Hl Hr Hw Hd Hp Hwn Hrf] Hi. destruct (proj1 (Hr i) Hi) as (Hin & Ho & Hnew).
  assert (Hback : ∀ tr at_, walk_ok (h ++ [(i, o)]) (mk_walk tr (<[i := false]> (wk_waiting w)) (filter (λ j, j ≠ i) (wk_running w)) (wk_next w) at_
      (match o with Ready => if lower (wk_won w) i then Some i else wk_won w | _ => wk_won w end)
      (match o with FailedWith e => if refusal_ends_the_walk e then if lower (fst <$> wk_refused w) i then Some (i, e) else wk_refused w else wk_refused w | _ => wk_refused w end))).
  { intros tr at_. constructor; cbn [wk_next wk_waiting wk_running wk_won wk_refused].
    - done.
    - by rewrite length_insert.
    - intros j. rewrite list_elem_of_filter, Hr, fmap_app, elem_of_app. cbn. rewrite list_elem_of_singleton. naive_solver.
    - intros j. rewrite waited_insert by lia. rewrite list_elem_of_filter. case_decide; [naive_solver|]. rewrite Hw. naive_solver.
    - by apply NoDup_filter.
    - intros j p [Hj|[= -> ->]%list_elem_of_singleton]%elem_of_app; [by apply (Hp j p)|done].
    - by apply won_after.
    - by apply refused_after. }
  unfold finish. rewrite (proj2 (Hw i) Hi). cbn [andb]. destruct o as [|e|]; [apply Hback| |apply Hback].
  destruct (refusal_ends_the_walk e) eqn:Ee; [|specialize (Hback (wk_tried w ++ [(i, e)]) now)]; [specialize (Hback (wk_tried w) (wk_at w))|]; by rewrite ?Ee in Hback.
Qed.

(** ** Every walk *)

(** The attempt whose end a turn takes in. *)
Definition taken_in (w : Walk) (t : Turn) : history :=
  match contact (S total) (tn_looks t) w, tn_wake t with
  | inl w1, Finished i o => if bool_decide (i ∈ wk_running w1) then [(i, o)] else []
  | _, _ => []
  end.

Inductive walks (now0 : Z) : history -> Walk -> Prop :=
| walks_new : walks now0 [] (walk_new now0)
| walks_turn h w t w' : walks now0 h w -> walk_turn w t = inl w' -> walks now0 (h ++ taken_in w t) w'.

Lemma walks_ok now0 h w : walks now0 h w -> walk_ok h w.
Proof.
  induction 1 as [|h w t w' _ IH Ht]; [apply walk_new_ok|]. unfold walk_turn, taken_in in *.
  pose proof (contact_ok h (S total) (tn_looks t) w IH) as Hc. destruct (contact (S total) (tn_looks t) w) as [w1|]; [|done].
  destruct (settle w1 (tn_answered t)) as [[v [|]]|r]; [done| |done].
  destruct (tn_wake t) as [i o| |]; [|done|by injection Ht as <-; rewrite app_nil_r].
  destruct (bool_decide_reflect (i ∈ wk_running w1)); injection Ht as <-; [by apply finish_ok|by rewrite app_nil_r].
Qed.

Lemma first_waiting_running h w i : walk_ok h w -> first_waiting w = Some i -> i ∈ wk_running w.
Proof.
  intros Hok ([k b] & Hf & ->)%fmap_Some. apply list_find_Some in Hf as (Hl & -> & _). apply (ok_waiting _ _ Hok). unfold waited. cbn. by rewrite Hl.
Qed.

Lemma in_hand_none h w : walk_ok h w -> in_hand w = false -> (∀ i, (i, Ready) ∉ h) ∧ (∀ j e, ~ refused_in h j e).
Proof.
  intros [_ _ _ _ _ _ Hwn Hrf] Hi. unfold in_hand in Hi. apply orb_false_iff in Hi as [H1%bool_decide_eq_false H2%bool_decide_eq_false].
  destruct (wk_won w); [by destruct H1|]. destruct (wk_refused w); [by destruct H2|]. done.
Qed.

(** Nobody is still waited on among the addresses before [j]. *)
Definition all_before_done (h : history) (w : Walk) (j : nat) : Prop := ∀ i, (i < j)%nat -> (i < wk_next w)%nat -> opens i = Ok () -> i ∈ h.*1.

Lemma answer_now_done h w j : walk_ok h w -> a_refusal_is_the_answer_now j (wk_waiting w) = true -> all_before_done h w j.
Proof.
  intros Hok Ha i Hij Hin Ho. unfold a_refusal_is_the_answer_now in Ha. rewrite forallb_forall in Ha.
  destruct (decide (i ∈ h.*1)) as [|Hn]; [done|]. exfalso.
  assert (Hr : i ∈ wk_running w) by by apply (ok_running _ _ Hok).
  apply (ok_waiting _ _ Hok) in Hr. unfold waited in Hr. destruct (wk_waiting w !! i) as [b|] eqn:E; [|done]. cbn in Hr. subst b.
  assert (Hx : negb true = true); [|done]. apply Ha, list_elem_of_In, list_elem_of_lookup. exists i. rewrite lookup_take by done. by rewrite decide_True.
Qed.

Definition none_before_answering (h : history) (w : Walk) (answered : nat -> bool) (i : nat) : Prop :=
  ∀ j, (j < i)%nat -> (j < wk_next w)%nat -> opens j = Ok () -> j ∉ h.*1 -> answered j = false.

Lemma not_answering_none h w answered i :
  walk_ok h w -> an_earlier_address_is_still_answering i (wk_waiting w) answered = false -> none_before_answering h w answered i.
Proof.
  intros Hok Ha j Hji Hjn Ho Hnew. unfold an_earlier_address_is_still_answering in Ha.
  destruct (answered j) eqn:E; [|done]. exfalso. assert (Ht : existsb (answering (wk_waiting w) answered) (seq 0 i) = true); [|congruence].
  apply existsb_exists. exists j. split; [apply in_seq; lia|]. unfold answering. rewrite E, andb_true_r. apply (ok_waiting _ _ Hok), (ok_running _ _ Hok). done.
Qed.

(** What an answer may be, given what happened: [early] when the budget was not spent. *)
Definition answer_ok (h : history) (w : Walk) (answered : nat -> bool) (early : Prop) (r : result nat CoreError) : Prop :=
  match r with
  | Ok i =>
    opens i = Ok () ∧ (∀ j e, refused_in h j e -> (i < j)%nat) ∧
    ((i, Ready) ∈ h ∧ (∀ j, (j, Ready) ∈ h -> (i <= j)%nat) ∧ (early -> none_before_answering h w answered i) ∨
     (∀ j, (j, Ready) ∉ h) ∧ (∀ j e, ~ refused_in h j e) ∧ (i ∉ h.*1) ∧ (early -> ∀ j, (j < total)%nat -> opens j = Ok () -> j ≠ i -> j ∈ h.*1))
  | Err e =>
    (∃ j, refused_in h j e ∧ (∀ i, (i, Ready) ∈ h -> (j <= i)%nat) ∧ (∀ j' e', refused_in h j' e' -> (j <= j')%nat) ∧ (early -> all_before_done h w j)) ∨
    (e = NetworkError ∧ (∀ i, (i, Ready) ∉ h) ∧ (∀ j e, ~ refused_in h j e) ∧ ∀ i, (i < wk_next w)%nat -> opens i = Ok () -> i ∈ h.*1)
  end.

(** The verdict says which of the two in hand counts. *)
Lemma verdict_spec h w :
  walk_ok h w ->
  match verdict_to_act_on (wk_won w) (fst <$> wk_refused w) with
  | Win => ∃ i, wk_won w = Some i ∧ (i, Ready) ∈ h ∧ opens i = Ok () ∧ (∀ j, (j, Ready) ∈ h -> (i <= j)%nat) ∧ ∀ j e, refused_in h j e -> (i < j)%nat
  | Refusal => ∃ j e, wk_refused w = Some (j, e) ∧ refused_in h j e ∧ (∀ i, (i, Ready) ∈ h -> (j <= i)%nat) ∧ ∀ j' e', refused_in h j' e' -> (j <= j')%nat
  | Neither => in_hand w = false
  end.
Proof.
  intros Hok. pose proof (ok_won _ _ Hok) as Hwn. pose proof (ok_refused _ _ Hok) as Hrf. unfold in_hand.
  destruct (wk_won w) as [i|], (wk_refused w) as [[j e]|]; cbn [verdict_to_act_on fmap option_fmap option_map fst won_of refused_of] in *.
  - destruct Hwn as [Hi Hmin], Hrf as [Hj Hjmin]. destruct (Nat.ltb_spec i j).
    + exists i. split; [done|]. split; [done|]. split; [by apply (ok_past _ _ Hok i Ready)|]. split; [done|]. intros j' e' Hr. apply Hjmin in Hr. lia.
    + exists j, e. split; [done|]. split; [done|]. split; [|done]. intros k Hk. apply Hmin in Hk. lia.
  - destruct Hwn as [Hi Hmin]. exists i. split; [done|]. split; [done|]. split; [by apply (ok_past _ _ Hok i Ready)|]. split; [done|]. intros j e Hr. by apply Hrf in Hr.
  - destruct Hrf as [Hj Hjmin]. exists j, e. split; [done|]. split; [done|]. split; [|done]. intros i Hi. by apply Hwn in Hi.
  - done.
Qed.

Lemma nothing_left h w : walk_ok h w -> wk_running w = [] -> ∀ i, (i < wk_next w)%nat -> opens i = Ok () -> i ∈ h.*1.
Proof.
  intros Hok He i Hi Ho. destruct (decide (i ∈ h.*1)) as [|Hn]; [done|]. exfalso.
  assert (Hr : i ∈ wk_running w) by by apply (ok_running _ _ Hok). rewrite He in Hr. by apply not_elem_of_nil in Hr.
Qed.

Lemma last_answer_ok h w answered (early : Prop) : walk_ok h w -> wk_running w = [] -> answer_ok h w answered early (last_answer w).
Proof.
  intros Hok He. pose proof (nothing_left h w Hok He) as Hnone. pose proof (verdict_spec h w Hok) as Hv. unfold last_answer.
  destruct (verdict_to_act_on _ _).
  - destruct Hv as (i & -> & Hi & Ho & Hmin & Hr). split; [done|]. split; [done|]. left. split; [done|]. split; [done|].
    intros _ j Hj1 Hj2 Hj3 Hj4. by destruct Hj4; apply Hnone.
  - destruct Hv as (j & e & -> & Hj & Hw & Hmin). left. exists j. split; [done|]. split; [done|]. split; [done|]. intros _ i Hi Hin Ho. by apply Hnone.
  - destruct (in_hand_none h w Hok Hv) as [H1 H2]. right. done.
Qed.

Lemma settle_ok h w answered : walk_ok h w ->
  match settle w answered with
  | inr r => answer_ok h w answered True r
  | inl (v, fin) => v = verdict_to_act_on (wk_won w) (fst <$> wk_refused w) ∧ (fin = true -> wk_running w = [])
  end.
Proof.
  intros Hok. pose proof (verdict_spec h w Hok) as Hv. unfold settle. set (v := verdict_to_act_on _ _) in *.
  set (na := match v with Win => _ | _ => _ end). destruct na as [r|] eqn:En; subst na.
  - destruct v.
    + destruct Hv as (i & Hwi & Hi & Ho & Hmin & Hr). rewrite Hwi in En. destruct (an_earlier_address_is_still_answering _ _ _) eqn:Ea; [done|].
      injection En as <-. split; [done|]. split; [done|]. left. split; [done|]. split; [done|]. intros _. by apply not_answering_none.
    + destruct Hv as (j & e & Hwj & Hj & Hw & Hmin). rewrite Hwj in En. destruct (a_refusal_is_the_answer_now _ _) eqn:Ea; [|done].
      injection En as <-. left. exists j. split; [done|]. split; [done|]. split; [done|]. intros _. by apply answer_now_done.
    + destruct (in_hand_none h w Hok Hv) as [_ H2]. pose proof (ok_refused _ _ Hok) as Hrf. destruct (wk_refused w) as [[j e]|]; [|done].
      destruct Hrf as [Hj _]. by apply H2 in Hj.
  - clear En. destruct (_ && _ && _) eqn:Eg.
    2:{ split; [done|]. intros Hb%andb_true_iff. destruct Hb as [Hb%bool_decide_eq_true _]. done. }
    destruct (first_waiting w) as [i|] eqn:Ef.
    2:{ split; [done|]. intros Hb%andb_true_iff. destruct Hb as [Hb%bool_decide_eq_true _]. done. }
    apply andb_true_iff in Eg as [[Et%Nat.leb_le Eh%negb_true_iff]%andb_true_iff El%Nat.eqb_eq].
    pose proof (first_waiting_running h w i Hok Ef) as Hr. pose proof (proj1 (ok_running _ _ Hok i) Hr) as (Hi & Ho & Hnew).
    destruct (in_hand_none h w Hok Eh) as [H1 H2]. split; [done|]. split; [intros j e Hj; by apply H2 in Hj|]. right. split; [done|]. split; [done|]. split; [done|].
    intros _ j Hj Hoj Hne. destruct (decide (j ∈ h.*1)) as [|Hn]; [done|]. exfalso. apply Hne.
    assert (Hjr : j ∈ wk_running w) by (apply (ok_running _ _ Hok); split; [lia|done]).
    destruct (wk_running w) as [|a [|b l]]; [by apply not_elem_of_nil in Hr| |done].
    apply list_elem_of_singleton in Hr, Hjr. congruence.
Qed.

Lemma budget_answer_ok h w answered : walk_ok h w ->
  answer_ok h w answered False (budget_answer w (verdict_to_act_on (wk_won w) (fst <$> wk_refused w))).
Proof.
  intros Hok. pose proof (verdict_spec h w Hok) as Hv. unfold budget_answer. destruct (verdict_to_act_on _ _) eqn:Ev.
  - destruct Hv as (i & -> & Hi & Ho & Hmin & Hr). split; [done|]. split; [done|]. by left.
  - destruct Hv as (j & e & -> & Hj & Hw & Hmin). left. by exists j.
  - destruct (in_hand_none h w Hok Hv) as [H1 H2]. unfold in_hand in Hv. apply orb_false_iff in Hv as [Hw%bool_decide_eq_false Hr%bool_decide_eq_false].
    destruct (wk_refused w) as [|] eqn:Er; [by destruct Hr|]. destruct (wk_won w) eqn:Ew; [by destruct Hw|].
    destruct (first_waiting w) as [i|] eqn:Ef.
    + pose proof (first_waiting_running h w i Hok Ef) as Hri. pose proof (proj1 (ok_running _ _ Hok i) Hri) as (Hi & Ho & Hnew).
      split; [done|]. split; [intros j e Hj; by apply H2 in Hj|]. by right.
    + apply last_answer_ok; [done|]. destruct (wk_running w) as [|i l] eqn:El; [done|]. exfalso.
      assert (Hi : waited (wk_waiting w) i = true) by (apply (ok_waiting _ _ Hok); rewrite El; apply elem_of_cons; by left).
      unfold first_waiting in Ef. apply fmap_None, list_find_None in Ef. unfold waited in Hi. destruct (wk_waiting w !! i) as [b|] eqn:E; [|done].
      rewrite Forall_forall in Ef. apply (Ef b); [|done]. apply list_elem_of_lookup. by exists i.
Qed.
End Walk.


(** ** A run: the second address is an impostor, the first one is slow *)

Section Toy.
Definition all_open : nat -> result () CoreError := λ _, Ok ().
Definition quiet_looks (now : Z) : nat -> Look := λ _, mk_look now (λ _, false) now.
Definition turn_at (now : Z) (wake : WalkWake) : Turn := mk_turn (quiet_looks now) (λ _, false) wake now.

Definition toy_step (w : Walk) (t : Turn) : Walk := match walk_turn 2 all_open w t with inl w' => w' | inr _ => w end.
Definition toy_turns : list Turn :=
  [turn_at 0 ContactDue; turn_at (3 * 10 ^ 8) (Finished 1 (FailedWith ServerIdentityMismatch)); turn_at (4 * 10 ^ 8) (Finished 0 Ready)].
Definition toy_walk : Walk := foldl toy_step (walk_new 2 0) toy_turns.
Definition toy_history : history := [(1%nat, FailedWith ServerIdentityMismatch); (0%nat, Ready)].

Lemma toy_walks : walks 2 all_open 0 toy_history toy_walk.
Proof.
  pose proof (walks_new 2 all_open 0) as H0.
  pose proof (walks_turn 2 all_open 0 _ _ (turn_at 0 ContactDue) (toy_step (walk_new 2 0) (turn_at 0 ContactDue)) H0 ltac:(by vm_compute)) as H1.
  pose proof (walks_turn 2 all_open 0 _ _ (turn_at (3 * 10 ^ 8) (Finished 1 (FailedWith ServerIdentityMismatch)))
    (foldl toy_step (walk_new 2 0) (take 2 toy_turns)) H1 ltac:(by vm_compute)) as H2.
  exact (walks_turn 2 all_open 0 _ _ (turn_at (4 * 10 ^ 8) (Finished 0 Ready)) toy_walk H2 ltac:(by vm_compute)).
Qed.

End Toy.
