(* ===== verification/PumpLoop.v ===== *)
(** * The send loop of the data pump ([run_data_pump] of [core/src/api/session.rs])

    The turns of the [select!] of the pump, one constructor of [Wake] per arm, over the
    parts modelled before: the deferred queue and the commands (SendQueue.v), the drain
    pass (SendLoop.v), keep-alive, cover traffic and the liveness verdict (Liveness.v).
    Then the two ways a session leaves: the local close, which pushes what is queued and
    announces the end, and the close of the peer, behind which the loop drains for a
    bounded time.  The clock, what the transport takes and what the channels hold when
    they are looked at are arguments. *)

From Stdlib Require Import ZArith Lia.
From stdpp Require Import base numbers option gmap list sets relations sorting.
From S2P Require Import Bbr Pacer.
From S2P Require Import Prelude Errors Replay Wire Sack Rto StreamSend StreamRecv Arq Stream Path.
From S2P Require Import Crypto Shaping Cid Datagram Session Coalesce Mux Pump StreamTable SendLoop SendQueue Liveness.

Local Open Scope Z_scope.

Definition CLOSE_FRAME_COPIES : nat := 3.

Section PumpLoop.
Context `{Primitives} {ch : Mpsc}.

(** ** The end of a session on this side *)

(** The passes of [drain_streams_fully]: the answer that ended them, [None] when the
    bound did.  A pacing delay is slept, which the clock of the next pass shows. *)
Fixpoint drain_passes (n : nat) (env : nat -> nat -> Moment) (r : RecvState) (c : Congestion)
  : option DrainStop * RecvState * Congestion :=
  match n with
  | O => (None, r, c)
  | S n' =>
    let '(stop, r1, c1) := drain_streams_priority_ordered (env 0%nat) r c in
    match stop with
    | Drained | CongestionLimited | FlowControlled | TransportRefused => (Some stop, r1, c1)
    | SegmentBudget | Paced _ => drain_passes n' (λ k, env (S k)) r1 c1
    end
  end.

Definition drain_streams_fully (env : nat -> nat -> Moment) (r : RecvState) (c : Congestion)
  : option DrainStop * RecvState * Congestion :=
  drain_passes DRAIN_MAX_PASSES_ON_CLOSE env r c.

(** The copies of the close frame, until one does not go out. *)
Fixpoint close_copies (n : nat) (accepts : nat -> bool) (r : RecvState) : RecvState :=
  match n with
  | O => r
  | S n' =>
    let '(frame, s) := send_control_close (rs_session r) in
    let r1 := set_rs_session r s in
    match frame with
    | Some buf => if accepts 0%nat then close_copies n' (λ k, accepts (S k)) (add_effect r1 (SendBytes buf)) else r1
    | None => r1
    end
  end.

Definition announce_close (accepts : nat -> bool) (r : RecvState) : RecvState :=
  match sess_state (rs_session r) with
  | Connected | Migrating => close_copies CLOSE_FRAME_COPIES accepts r
  | _ => r
  end.

(** What the transport answers while the session finishes. *)
Record Answers := mk_answers {
  an_flush : bool;
  an_updates : nat -> bool;
  an_drain : nat -> nat -> Moment;
  an_close : nat -> bool;
}.

Definition finish_and_announce (a : Answers) (r : RecvState) (c : Congestion) : RecvState * Congestion :=
  if peer_closed (rs_session r) then (r, c)
  else
    let r1 := flush_pending_window_updates (an_updates a) r in
    let '(_, r2, c2) := drain_streams_fully (an_drain a) r1 c in
    (announce_close (an_close a) r2, c2).

(** The commands the close takes in: those in the channel when it was seen, as long as
    the buffers admit them. *)
Fixpoint close_takes (accepts : bool) (cmds : list SessionCommand) (q : list Deferred) (st : SendState)
  : list SessionCommand * list Deferred * list Admit * SendState :=
  match cmds with
  | [] => ([], q, [], st)
  | cmd :: rest =>
    match q with
    | _ :: _ => (cmds, q, [], st)
    | [] =>
      let '(_, q1, out, st1) := take_command accepts cmd q st in
      let '(behind, q2, more, st2) := close_takes accepts rest q1 st1 in
      (behind, q2, out ++ more, st2)
    end
  end.

(** The arm of the local close up to [finish_and_announce]. *)
Definition close_pushes (a : Answers) (controls : list ControlCommand) (cmds : list SessionCommand) (q : list Deferred) (st : SendState)
  : list SessionCommand * list Deferred * list Admit * SendState :=
  if peer_closed (rs_session (ss_pump st)) then (cmds, q, [], st)
  else
    let st1 := on_pump (λ r, foldl (λ r ctl, take_control ctl r) r controls) st in
    let '(q1, out, st2) := flush_deferred_sends (an_flush a) q st1 in
    let '(behind, q2, more, st3) := close_takes (an_flush a) cmds q1 st2 in
    (behind, q2, out ++ more, st3).

Definition finish (a : Answers) (st : SendState) : SendState :=
  let '(r, c) := finish_and_announce a (ss_pump st) (ss_cong st) in mk_ss r c (ss_detached st).

(** ** The loop *)

(** The locals of the loop and what it shares with the application: [lp_cmds],
    [lp_controls] and [lp_reports] are the channels into it. *)
Record Loop := mk_loop {
  lp_state : SendState;
  lp_cmds : list SessionCommand;
  lp_controls : list ControlCommand;
  lp_reports : list Z;
  lp_deferred : list Deferred;
  lp_releases : list (Z * Z);
  lp_taken : Z;
  lp_draining : option Z;
  lp_paced : option Z;
  lp_conn : Conn.ConnectionState;
  lp_slot : option CoreError;
  lp_migrating : option Z;
  lp_last_keepalive : Z;
  lp_last_pn : Z;
  lp_last_at : Z;
}.

Definition with_state (l : Loop) (st : SendState) : Loop :=
  mk_loop st (lp_cmds l) (lp_controls l) (lp_reports l) (lp_deferred l) (lp_releases l) (lp_taken l) (lp_draining l) (lp_paced l)
    (lp_conn l) (lp_slot l) (lp_migrating l) (lp_last_keepalive l) (lp_last_pn l) (lp_last_at l).
Definition with_queue (l : Loop) (q : list Deferred) (st : SendState) : Loop :=
  mk_loop st (lp_cmds l) (lp_controls l) (lp_reports l) q (lp_releases l) (lp_taken l) (lp_draining l) (lp_paced l)
    (lp_conn l) (lp_slot l) (lp_migrating l) (lp_last_keepalive l) (lp_last_pn l) (lp_last_at l).
Definition with_releases (l : Loop) (rel : list (Z * Z)) (taken : Z) : Loop :=
  mk_loop (lp_state l) (lp_cmds l) (lp_controls l) (lp_reports l) (lp_deferred l) rel taken (lp_draining l) (lp_paced l)
    (lp_conn l) (lp_slot l) (lp_migrating l) (lp_last_keepalive l) (lp_last_pn l) (lp_last_at l).
Definition with_channels (l : Loop) (cmds : list SessionCommand) (controls : list ControlCommand) (reports : list Z) : Loop :=
  mk_loop (lp_state l) cmds controls reports (lp_deferred l) (lp_releases l) (lp_taken l) (lp_draining l) (lp_paced l)
    (lp_conn l) (lp_slot l) (lp_migrating l) (lp_last_keepalive l) (lp_last_pn l) (lp_last_at l).
Definition with_paced (l : Loop) (st : SendState) (paced : option Z) : Loop :=
  mk_loop st (lp_cmds l) (lp_controls l) (lp_reports l) (lp_deferred l) (lp_releases l) (lp_taken l) (lp_draining l) paced
    (lp_conn l) (lp_slot l) (lp_migrating l) (lp_last_keepalive l) (lp_last_pn l) (lp_last_at l).
Definition with_draining (l : Loop) (until : Z) : Loop :=
  mk_loop (lp_state l) (lp_cmds l) (lp_controls l) (lp_reports l) (lp_deferred l) (lp_releases l) (lp_taken l) (Some until) (lp_paced l)
    Conn.Draining (lp_slot l) (lp_migrating l) (lp_last_keepalive l) (lp_last_pn l) (lp_last_at l).
Definition with_marks (l : Loop) (pn at_ : Z) : Loop :=
  mk_loop (lp_state l) (lp_cmds l) (lp_controls l) (lp_reports l) (lp_deferred l) (lp_releases l) (lp_taken l) (lp_draining l) (lp_paced l)
    (lp_conn l) (lp_slot l) (lp_migrating l) (lp_last_keepalive l) pn at_.

Definition to_live (l : Loop) : Live :=
  mk_live (rs_session (ss_pump (lp_state l))) (c_est (ss_cong (lp_state l))) (lp_conn l) (lp_slot l) (lp_migrating l) (lp_last_keepalive l).
(** The heartbeat does not change the estimator. *)
Definition of_live (l : Loop) (v : Live) : Loop :=
  mk_loop (on_pump (λ r, set_rs_session r (lv_session v)) (lp_state l)) (lp_cmds l) (lp_controls l) (lp_reports l) (lp_deferred l)
    (lp_releases l) (lp_taken l) (lp_draining l) (lp_paced l) (lv_conn v) (lv_slot v) (lv_migrating v) (lv_last_keepalive v)
    (lp_last_pn l) (lp_last_at l).

Definition sent_frame (frame : option (list Z)) (l : Loop) : Loop :=
  match frame with
  | Some buf => with_state l (on_pump (λ r, add_effect r (SendBytes buf)) (lp_state l))
  | None => l
  end.

Definition drain_and_book (env : nat -> Moment) (now : Z) (l : Loop) : Loop :=
  let '(stop, r, c) := drain_streams_priority_ordered env (ss_pump (lp_state l)) (ss_cong (lp_state l)) in
  let had_work := negb (bool_decide (lp_deferred l = [])) || negb (bool_decide (lp_cmds l = [])) in
  let '(paced, r1, c1) := apply_drain_outcome r c now stop had_work in
  with_paced l (mk_ss r1 c1 (ss_detached (lp_state l))) paced.

(** What the tick and the notified arm share. *)
Definition flush_and_drain (a : Answers) (now : Z) (l : Loop) : Loop :=
  let '(q, _, st) := flush_deferred_sends (an_flush a) (lp_deferred l) (lp_state l) in
  let st1 := on_pump (flush_pending_window_updates (an_updates a)) st in
  drain_and_book (an_drain a 0%nat) now (with_queue l q st1).

(** The readings of the clock in one tick, and what the transport takes of the two
    frames a tick may send. *)
Record Beat := mk_beat {
  bt_arm : Z; bt_check : Z; bt_drained : Z; bt_keepalive : Z; bt_cover : Z; bt_sweep : Z; bt_live : Z;
  bt_takes_keepalive : bool; bt_takes_cover : bool;
}.

Inductive Wake :=
| Tick (b : Beat) (a : Answers)
| Notified (now : Z) (a : Answers)
| PacedWake (now : Z) (a : Answers)
| CloseRequested (a : Answers)
| ControlReady
| ReleaseReady (a : Answers)
| CommandReady (a : Answers)
| CommandsGone (a : Answers)
| RecvEnded.

(** How the loop ends; [true]: the liveness verdict was death. *)
Inductive Turn := Stay (l : Loop) | Leave (died : bool) (l : Loop).

Context (cfg : LivenessConfig) (cover_interval : Z).

Definition arm_draining (now : Z) (l : Loop) : Loop :=
  match lp_draining l with
  | Some _ => l
  | None =>
    if peer_closed (rs_session (ss_pump (lp_state l)))
    then with_draining l (now + drain_window_for_rtt (est_min_rtt (c_est (ss_cong (lp_state l)))))
    else l
  end.

Definition tick_live (b : Beat) (l : Loop) : Loop :=
  let '(frame, v) := maybe_send_keepalive cfg (bt_keepalive b) (bt_takes_keepalive b) (to_live l) in
  let l1 := sent_frame frame (of_live l v) in
  let '(frame2, s, pn, at_) :=
    maybe_send_cover cover_interval (bt_cover b) (bt_takes_cover b) (rs_session (ss_pump (lp_state l1))) (lp_last_pn l1) (lp_last_at l1) in
  let l2 := sent_frame frame2 (with_marks (with_state l1 (on_pump (λ r, set_rs_session r s) (lp_state l1))) pn at_) in
  let sweep r := set_rs_challenges r (expire_challenges (rs_challenges r) (bt_sweep b)
                   (path_validation_timeout cfg (est_min_rtt (c_est (ss_cong (lp_state l2)))))).2 in
  with_state l2 (on_pump sweep (lp_state l2)).

Definition tick (b : Beat) (a : Answers) (l : Loop) : Turn :=
  let l1 := arm_draining (bt_arm b) l in
  match lp_draining l1 with
  | Some until => if until <=? bt_check b then Leave false l1 else Stay l1
  | None =>
    let l2 := tick_live b (flush_and_drain a (bt_drained b) l1) in
    let '(died, v) := apply_liveness cfg (bt_live b) (to_live l2) in
    if died then Leave true (of_live l2 v) else Stay (of_live l2 v)
  end.

Definition release_due (accepts : bool) (l : Loop) : Loop :=
  let '(rel, q, _, st) := release_due_streams accepts (lp_releases l) (lp_taken l) (lp_deferred l) (lp_state l) in
  with_releases (with_queue l q st) rel (lp_taken l).

(** A write the loop refuses while it drains. *)
Definition is_write (cmd : SessionCommand) : bool := match cmd with CmdClose => false | _ => true end.

Definition command_turn (a : Answers) (l : Loop) : Turn :=
  match lp_cmds l with
  | [] => Stay l
  | cmd :: cmds =>
    let l1 := with_releases (with_channels l cmds (lp_controls l) (lp_reports l)) (lp_releases l) (wrap 64 (lp_taken l + 1)) in
    if bool_decide (lp_draining l ≠ None) && is_write cmd then Stay (release_due (an_flush a) l1)
    else
      let '(closes, q, _, st) := take_command (an_flush a) cmd (lp_deferred l1) (lp_state l1) in
      if closes then Leave false (with_queue l1 q (finish a st))
      else Stay (release_due (an_flush a) (with_queue l1 q st))
  end.

(** One turn.  An arm that is disabled or has nothing to take does nothing. *)
Definition pump_turn (l : Loop) (w : Wake) : Turn :=
  match w with
  | Tick b a => tick b a l
  | Notified now a => if bool_decide (lp_draining l = None) then Stay (flush_and_drain a now l) else Stay l
  | PacedWake now a =>
    if bool_decide (lp_paced l ≠ None) && bool_decide (lp_draining l = None) then Stay (drain_and_book (an_drain a 0%nat) now l) else Stay l
  | CloseRequested a =>
    let '(cmds, q, _, st) := close_pushes a (lp_controls l) (lp_cmds l) (lp_deferred l) (lp_state l) in
    Leave false (with_queue (with_channels l cmds [] (lp_reports l)) q (finish a st))
  | ControlReady =>
    match lp_controls l with
    | [] => Stay l
    | ctl :: rest => Stay (with_channels (with_state l (on_pump (take_control ctl) (lp_state l))) (lp_cmds l) rest (lp_reports l))
    end
  | ReleaseReady a =>
    match lp_reports l with
    | [] => Stay l
    | ids =>
      let rel := (lp_releases l ++ ((λ id, (id, wrap 64 (lp_taken l + len (lp_cmds l)))) <$> ids))%list in
      Stay (release_due (an_flush a) (with_releases (with_channels l (lp_cmds l) (lp_controls l) []) rel (lp_taken l)))
    end
  | CommandReady a => if bool_decide (lp_deferred l = []) then command_turn a l else Stay l
  | CommandsGone a =>
    if bool_decide (lp_deferred l = []) && bool_decide (lp_cmds l = [])
    then Leave false (with_state l (finish a (lp_state l))) else Stay l
  | RecvEnded => Leave false l
  end.

(** What follows the loop: [given_up] is the transport's. *)
Definition teardown (given_up died : bool) (l : Loop) : Conn.ConnectionState * option CoreError :=
  let gave_up := given_up && negb (peer_closed (rs_session (ss_pump (lp_state l)))) in
  let slot := if gave_up then record_terminal_cause (lp_slot l) Errors.Timeout else lp_slot l in
  let conn := if gave_up then Conn.Dead else lp_conn l in
  (if gave_up || died then conn else publish_end conn Conn.Closed, slot).

End PumpLoop.

Section Sending.
Context `{Primitives} {ch : Mpsc}.

(** ** What sending leaves alone *)

Definition same_end (s s' : Session) : Prop := sess_state s' = sess_state s ∧ peer_closed s' = peer_closed s.

Lemma same_end_trans s1 s2 s3 : same_end s1 s2 -> same_end s2 s3 -> same_end s1 s3.
Proof. intros [] []. split; congruence. Qed.

Lemma stamp_end s : same_end s (rekey_before_stamp s).2.
Proof.
  unfold rekey_before_stamp, rekey. case_test; [|done]. case_test; [done|].
  by destruct (derive_forward_crypto s 1) as [[next crypto]|].
Qed.

Lemma seal_end s bits stream path pt : same_end s (seal_frame s bits stream path pt).2.
Proof.
  unfold seal_frame, next_send_pn, encrypt_packet. destruct (encrypt_with_nonce _ _ _ _) as [[ct|e] x]; [|done].
  unfold aead_to_core. by case_match.
Qed.

Lemma sends_end s : (∀ stream data base off, same_end s (send_app_data s stream data base off).2) ∧
  (∀ stream limit, same_end s (send_window_update s stream limit).2) ∧ same_end s (send_control_close s).2.
Proof.
  pose proof (stamp_end s) as Hs. unfold send_app_data, send_window_update, send_control_close.
  destruct (rekey_before_stamp s) as [[extra|] s1]; cbn [snd] in *; [|by split_and!].
  split_and!; intros; try (destruct (pad_frame _ _ _)); eapply same_end_trans; [done|apply seal_end|done|apply seal_end|done|apply seal_end].
Qed.

(** Frames were added to the log, and the stream table has the sending halves it had. *)
Record added (frames : list (list Z)) (r r' : RecvState) : Prop := {
  ad_log : rs_log r' = rs_log r ++ (SendBytes <$> frames);
  ad_end : same_end (rs_session r) (rs_session r');
}.

Lemma added_refl r : added [] r r.
Proof. split; [by rewrite app_nil_r|done]. Qed.

Lemma added_trans f1 f2 r1 r2 r3 : added f1 r1 r2 -> added f2 r2 r3 -> added (f1 ++ f2) r1 r3.
Proof. intros [L1 E1] [L2 E2]. split; [by rewrite L2, L1, fmap_app, app_assoc|by eapply same_end_trans]. Qed.

(** Whether a table change leaves every sending half as it is. *)
Definition same_sending (m m' : gmap Z Stream) : Prop := ∀ id, sending <$> m' !! id = sending <$> m !! id.

Lemma same_sending_put m id s s' : m !! id = Some s -> sending s' = sending s -> same_sending m (<[id := s']> m).
Proof.
  intros E Es id'. destruct (decide (id' = id)) as [->|Hne]; [rewrite lookup_insert_eq, E; cbn; congruence|by rewrite lookup_insert_ne].
Qed.

Lemma same_sending_trans m1 m2 m3 : same_sending m1 m2 -> same_sending m2 m3 -> same_sending m1 m3.
Proof. intros H1 H2 id. by rewrite H2, H1. Qed.

Lemma flush_update_spec accepts id limit r :
  ∃ frames, added frames r (flush_update accepts id limit r) ∧ same_sending (rs_streams r) (rs_streams (flush_update accepts id limit r)).
Proof.
  destruct (sends_end (rs_session r)) as (_ & Hu & _). specialize (Hu id limit). unfold flush_update.
  destruct (send_window_update _ _ _) as [frame s]. cbn [snd] in Hu.
  assert (Hstage : ∃ frames, added frames r (update_stream id (λ s0, with_halves s0 (sending s0) (stage_window_update_limit (receiving s0) limit)) (set_rs_session r s)) ∧
    same_sending (rs_streams r) (rs_streams (update_stream id (λ s0, with_halves s0 (sending s0) (stage_window_update_limit (receiving s0) limit)) (set_rs_session r s)))).
  { exists []. unfold update_stream. cbn. destruct (rs_streams r !! id) as [x|] eqn:E; cbn; (split; [split; [by rewrite app_nil_r|done]|]).
    - by eapply same_sending_put.
    - done. }
  destruct frame as [buf|]; [destruct accepts|]; try done. exists [buf]. split; [by split|]. done.
Qed.

Lemma flush_pending_spec accepts r :
  ∃ frames, added frames r (flush_pending_window_updates accepts r) ∧
    same_sending (rs_streams r) (rs_streams (flush_pending_window_updates accepts r)).
Proof.
  unfold flush_pending_window_updates. destruct (take_updates r) as [pending r1] eqn:E.
  assert (H1 : added [] r r1 ∧ same_sending (rs_streams r) (rs_streams r1)).
  { injection E as <- <-. split; [split; [by rewrite app_nil_r|done]|]. intros id. cbn. rewrite lookup_fmap. by destruct (rs_streams r !! id). }
  clear E. generalize 0%nat. destruct H1 as [Ha Hs]. revert r1 Ha Hs. generalize (@nil (list Z)).
  induction pending as [|[id limit] pending IH]; intros fs r1 Ha Hs i; cbn; [eauto|].
  destruct (flush_update_spec (accepts i) id limit r1) as (f2 & Ha2 & Hs2).
  apply (IH (fs ++ f2)); [by eapply added_trans|by eapply same_sending_trans].
Qed.

End Sending.

(** ** A flush on close *)

Section Flush.
Context `{Primitives} {ch : Mpsc}.

Lemma drain_turn_end m stream r c : same_end (rs_session r) (rs_session (drain_turn m stream r c).1.2).
Proof.
  unfold drain_turn. destruct (pacing_allows_send c (m_now m)) as [[] c1]; [|by destruct (pacing_delay _ _)].
  destruct (rs_streams r !! stream) as [s|]; [|done]. destruct (poll_send _ _ _ _ _ _) as [[seg|why] h]; [|done].
  unfold send_segment. destruct (sends_end (rs_session (set_sending stream s h r))) as (Ha & _).
  specialize (Ha stream (os_data seg) (segment_flags seg) (segment_offset seg)).
  destruct (send_app_data _ _ _ _ _) as [[buf|] s']; cbn [snd] in Ha; [destruct (m_accepts m)|]; cbn; try done; by destruct (os_reliable seg).
Qed.

Lemma drain_stream_end env left stream : ∀ p,
  same_end (rs_session (p_pump p)) (rs_session (p_pump (drain_stream env left stream p).1)).
Proof.
  induction left as [|left IH]; intros p; cbn [drain_stream]; [done|].
  pose proof (drain_turn_end (env (p_turn p)) stream (p_pump p) (p_cong p)) as He.
  destruct (drain_turn _ _ _ _) as [[[d|why| |seg] r] c]; cbn in *; try done.
  eapply same_end_trans; [exact He|]. exact (IH (mk_pass r c _ _ _ _)).
Qed.

Lemma drain_each_end env streams : ∀ p,
  same_end (rs_session (p_pump p)) (rs_session (p_pump (drain_each env streams p).1)).
Proof.
  induction streams as [|stream streams IH]; intros p; cbn [drain_each]; [done|].
  pose proof (drain_stream_end env (DRAIN_MAX_SEGMENTS_PER_PASS - length (p_sent p)) stream p) as He.
  destruct (drain_stream _ _ _ _) as [p1 [stop|]]; cbn in *; [done|]. eapply same_end_trans; [exact He|apply IH].
Qed.

Lemma drain_inner_end env r c : same_end (rs_session r) (rs_session (p_pump (drain_streams_inner env r c).2)).
Proof.
  unfold drain_streams_inner. pose proof (drain_each_end env (snapshot r).*2 (mk_pass r c [] 0 None false)) as He.
  destruct (drain_each _ _ _) as [p [stop|]]; [done|]. cbn in He. destruct (p_refused p); [done|]. by destruct (p_blocked p) as [[]|].
Qed.

(** How a flush leaves a table of streams, by the answer that ended it. *)
Definition flushed_to (stop : option DrainStop) (r : RecvState) : Prop :=
  match stop with
  | Some Drained => ∀ id s, rs_streams r !! id = Some s -> left_blocked (sending s) Idle
  | Some CongestionLimited | Some FlowControlled =>
    ∀ id s, rs_streams r !! id = Some s -> ∃ why, left_blocked (sending s) why
  | Some TransportRefused | None => True
  | Some SegmentBudget | Some (Paced _) => False
  end.

Lemma ends_all r r' refused (ends : list (Z * option SendBlocked)) id s sent :
  drained sent r r' -> ends_ok r' refused ends -> (snapshot r).*2 = ends.*1 -> rs_streams r' !! id = Some s ->
  ∃ e, (id, e) ∈ ends ∧ match e with Some why => left_blocked (sending s) why | None => refused = true end.
Proof.
  intros Hd He Hs E. assert (Hin : id ∈ ends.*1).
  { rewrite <- Hs. apply (snapshot_ids r). destruct (rs_streams r !! id) eqn:E0; [by eexists|]. by rewrite (dr_none _ _ _ Hd _ E0) in E. }
  apply list_elem_of_fmap in Hin as ([i e] & -> & Hx). exists e. split; [done|]. cbn in E.
  apply (proj1 (Forall_forall _ _) He) in Hx. destruct e as [why|]; cbn in Hx; [|done].
  destruct Hx as (s' & Es' & Hb). simplify_eq. by apply blocked_reading.
Qed.

Lemma drain_pass_leaves env r c :
  let '(stop, r', c') := drain_streams_priority_ordered env r c in
  ∃ sent, drained sent r r' ∧ same_end (rs_session r) (rs_session r') ∧
    match stop with SegmentBudget | Paced _ => True | _ => flushed_to (Some stop) r' end.
Proof.
  unfold drain_streams_priority_ordered. pose proof (drain_pass_spec env r c) as Hp. pose proof (drain_inner_end env r c) as He.
  destruct (drain_streams_inner env r c) as [stop p]. cbn [snd] in He. destruct Hp as (_ & Hd & ends & rest & Hs & _ & Hok & Hstop).
  exists (p_sent p). split_and!; [done|done|]. destruct stop; try done; cbn.
  - destruct Hstop as [-> Hidle]. rewrite app_nil_r in Hs. intros id s Es.
    destruct (ends_all _ _ _ _ _ _ _ Hd Hok Hs Es) as (e & Hin & Hb). apply (proj1 (Forall_forall _ _) Hidle) in Hin. cbn in Hin. by subst e.
  - destruct Hstop as (-> & _ & Hn). rewrite app_nil_r in Hs. intros id s Es.
    destruct (ends_all _ _ _ _ _ _ _ Hd Hok Hs Es) as ([why|] & Hin & Hb); [eauto|]. destruct Hn. apply list_elem_of_fmap. by exists (id, None).
  - destruct Hstop as (-> & _ & _ & Hn). rewrite app_nil_r in Hs. intros id s Es.
    destruct (ends_all _ _ _ _ _ _ _ Hd Hok Hs Es) as ([why|] & Hin & Hb); [eauto|]. destruct Hn. apply list_elem_of_fmap. by exists (id, None).
Qed.

Lemma drain_passes_spec n : ∀ env r c,
  let '(stop, r', c') := drain_passes n env r c in
  ∃ sent, drained sent r r' ∧ same_end (rs_session r) (rs_session r') ∧ flushed_to stop r'.
Proof.
  induction n as [|n IH]; intros env r c; cbn [drain_passes].
  { exists []. split_and!; [apply drained_refl|done|done]. }
  pose proof (drain_pass_leaves (env 0%nat) r c) as Hp.
  destruct (drain_streams_priority_ordered _ r c) as [[stop r1] c1]. destruct Hp as (sent & Hd & He & Hf).
  destruct stop; try by (exists sent; split_and!).
  all: specialize (IH (λ k, env (S k)) r1 c1); destruct (drain_passes n _ r1 c1) as [[stop r'] c'];
    destruct IH as (sent2 & Hd2 & He2 & Hf2); exists (sent ++ sent2);
    split_and!; [by eapply drained_trans|by eapply same_end_trans|done].
Qed.

End Flush.

(** ** What the queue may put in the log *)

Section Quiet.
Context `{Primitives} {ch : Mpsc}.

(** The frame of a FIN outside the sequence of its stream, sent when the offsets of the
    stream are used up. *)
Definition is_bare_fin (buf : list Z) : Prop := ∃ s id s', send_app_data s id [] FIN None = (Some buf, s').

Definition quiet_effect (e : Effect) : Prop :=
  match e with
  | SendBytes buf => is_bare_fin buf
  | NotifyOutbound | SetOutboundCid _ => True
  | _ => False
  end.

Record quiet (r r' : RecvState) : Prop := {
  qt_log : ∃ l, rs_log r' = rs_log r ++ l ∧ Forall quiet_effect l;
  qt_end : same_end (rs_session r) (rs_session r');
}.

Lemma quiet_same r r' : rs_log r' = rs_log r -> rs_session r' = rs_session r -> quiet r r'.
Proof. intros E1 E2. split; [exists []; by rewrite app_nil_r|by rewrite E2]. Qed.

Lemma quiet_trans r1 r2 r3 : quiet r1 r2 -> quiet r2 r3 -> quiet r1 r3.
Proof.
  intros [(l1 & E1 & F1) H1] [(l2 & E2 & F2) H2]. split; [|by eapply same_end_trans].
  exists (l1 ++ l2). split; [by rewrite E2, E1, app_assoc|by apply Forall_app].
Qed.

Lemma quiet_effect_added r e : quiet_effect e -> quiet r (add_effect r e).
Proof. intros He. split; [|done]. exists [e]. split; [done|by constructor]. Qed.

Lemma quiet_put_held id s st : quiet (ss_pump st) (ss_pump (put_held id s st)).
Proof. unfold put_held. by destruct (rs_streams _ !! id); apply quiet_same. Qed.

Lemma quiet_drop_released id st : quiet (ss_pump st) (ss_pump (drop_released id st)).
Proof.
  unfold drop_released, detach, retire_released_stream. destruct (rs_streams (ss_pump st) !! id) eqn:E; cbn; rewrite E; case_test; by apply quiet_same.
Qed.

Lemma quiet_bare_fin accepts id st : quiet (ss_pump st) (ss_pump (bare_fin accepts id st)).
Proof.
  unfold bare_fin, detach. destruct (rs_streams (ss_pump st) !! id) as [s|] eqn:E; [|by apply quiet_same]. cbn [ss_pump ss_cong ss_detached].
  unfold send_segment. set (r1 := set_rs_streams _ _). destruct (sends_end (rs_session r1)) as (Ha & _). specialize (Ha id [] FIN None).
  destruct (send_app_data _ _ _ _ _) as [[buf|] s'] eqn:Es; cbn [snd] in Ha; [destruct accepts|]; cbn.
  - split; [|done]. exists [SendBytes buf]. split; [done|]. constructor; [|constructor]. by exists (rs_session r1), id, s'.
  - split; [|done]. exists []. by rewrite app_nil_r.
  - split; [|done]. exists []. by rewrite app_nil_r.
Qed.

Lemma quiet_admit accepts item st out st' : admit_item accepts item st = Some (out, st') -> quiet (ss_pump st) (ss_pump st').
Proof.
  assert (Hfin : ∀ id s o x, admit_fin accepts id s st = Some (o, x) -> quiet (ss_pump st) (ss_pump x)).
  { intros id s o x. unfold admit_fin. destruct (try_queue_fin _) as [[[] h]|]; intros [= <- <-]; [apply quiet_put_held|apply quiet_bare_fin]. }
  destruct item as [id data|id|id]; cbn [admit_item].
  - unfold admit_data. destruct (held_stream st id) as [s|]; [|intros [= <- <-]; by apply quiet_same].
    case_test; [intros [= <- <-]; by apply quiet_same|].
    destruct (try_send_reliable _ _) as [[[] h]|]; intros [= <- <-]; [apply quiet_put_held|by apply quiet_same].
  - destruct (held_stream st id) as [s|]; [apply Hfin|intros [= <- <-]; by apply quiet_same].
  - destruct (held_stream st id) as [s|]; [|intros [= <- <-]; by apply quiet_same]. unfold admit_release.
    case_test; [intros [= <- <-]; case_test; [apply quiet_drop_released|by apply quiet_same]|].
    case_test; [intros [= <- <-]; apply quiet_drop_released|apply Hfin].
Qed.

Lemma quiet_notify st : quiet (ss_pump st) (ss_pump (notify st)).
Proof. by apply quiet_effect_added. Qed.

Lemma quiet_flush accepts q st : quiet (ss_pump st) (ss_pump (flush_deferred_sends accepts q st).2).
Proof.
  unfold flush_deferred_sends. assert (Hi : quiet (ss_pump st) (ss_pump (flush_items accepts q st).2)).
  { revert st. induction q as [|item q IH]; intros st; cbn [flush_items]; [by apply quiet_same|].
    destruct (admit_item accepts item st) as [[out st1]|] eqn:E; [|by apply quiet_same]. specialize (IH st1).
    destruct (flush_items accepts q st1) as [[rest more] st2]. eapply quiet_trans; [by eapply quiet_admit|done]. }
  destruct (flush_items accepts q st) as [[rest out] st1]. cbn [snd] in *. destruct out; [done|].
  eapply quiet_trans; [exact Hi|by apply quiet_effect_added].
Qed.

Lemma quiet_command accepts cmd q st : quiet (ss_pump st) (ss_pump (take_command accepts cmd q st).2).
Proof.
  assert (Hf : ∀ q, quiet (ss_pump st) (ss_pump (let '(q1, out, st1) := flush_deferred_sends accepts q st in (false, q1, out, st1)).2)).
  { intros q0. pose proof (quiet_flush accepts q0 st) as Hq. by destruct (flush_deferred_sends _ _ _) as [[]]. }
  assert (Hn : ∀ q, quiet (ss_pump st) (ss_pump (let '(q1, out, st1) := flush_deferred_sends accepts q st in (false, q1, out, notify st1)).2)).
  { intros q0. pose proof (quiet_flush accepts q0 st) as Hq. destruct (flush_deferred_sends _ _ _) as [[]].
    eapply quiet_trans; [exact Hq|apply quiet_notify]. }
  unfold take_command. destruct cmd; [apply Hn| | | |by apply quiet_same]; (destruct (rs_streams _ !! _) as [s|]; [|by apply quiet_same]);
    [apply Hf| |apply Hn]. case_test; by apply quiet_same.
Qed.

Lemma quiet_control ctl r : quiet r (take_control ctl r).
Proof.
  assert (Hm : quiet r (migrated r)).
  { unfold migrated. destruct (next_migration_path_id _) as [? c1], (advance_outbound_cid c1) as [cid c2].
    split; [|done]. exists [SetOutboundCid cid; NotifyOutbound]. cbn. rewrite <- app_assoc. split; [done|by repeat constructor]. }
  destruct ctl as [[]|[]|id prio]; cbn; try done; try (by apply quiet_same). unfold update_stream. destruct (_ !! id); by apply quiet_same.
Qed.

Lemma quiet_release accepts rel taken q st : quiet (ss_pump st) (ss_pump (release_due_streams accepts rel taken q st).2).
Proof.
  unfold release_due_streams.
  assert (Hi : ∀ rel q st, quiet (ss_pump st) (ss_pump (release_items rel taken q st).2)).
  { intros rel0. induction rel0 as [|[id due] rel0 IH]; intros q0 st0; cbn [release_items]; [by apply quiet_same|].
    case_test; [by apply quiet_same|]. destruct (rs_streams _ !! id) as [s|]; [|apply IH].
    case_test; (eapply quiet_trans; [|apply IH]); [|by apply quiet_same].
    eapply quiet_trans; [|apply quiet_drop_released]. by apply quiet_same. }
  specialize (Hi rel q st). destruct (release_items rel taken q st) as [[rel' q1] st1]. cbn [snd] in Hi.
  destruct (length q <? length q1)%nat; [|done]. pose proof (quiet_flush accepts q1 st1) as Hq.
  destruct (flush_deferred_sends accepts q1 st1) as [[q2 out] st2]. cbn [snd] in *.
  eapply quiet_trans; [exact Hi|]. eapply quiet_trans; [exact Hq|apply quiet_notify].
Qed.

End Quiet.

(** ** What the close takes in *)

Section Close.
Context `{Primitives} {ch : Mpsc}.

Lemma no_close_command x : sender_reachable x -> CmdClose ∉ sn_cmds x.
Proof.
  induction 1 as [r c|x y Hx IH Hs]; [cbn; set_solver|]. destruct Hs; cbn [sn_cmds] in *; try done; set_solver.
Qed.

Lemma take_command_closes accepts cmd q st q' out st' : take_command accepts cmd q st = (true, q', out, st') -> cmd = CmdClose.
Proof.
  unfold take_command. destruct cmd; [destruct (flush_deferred_sends _ _ _) as [[]]; done| | | |done];
    (destruct (rs_streams _ !! _); [|done]); [|by case_test|]; by destruct (flush_deferred_sends _ _ _) as [[]].
Qed.

Lemma controls_reachable controls : ∀ st C D P L n log W K X CL,
  sender_reachable (mk_sender st C D P L n log W K X CL) ->
  sender_reachable (mk_sender (on_pump (λ r, foldl (λ r ctl, take_control ctl r) r controls) st) C D P L n log W K X CL).
Proof.
  induction controls as [|ctl controls IH]; intros st C D P L n log W K X CL Hx; [by destruct st|].
  cbn [foldl]. change (on_pump _ st) with (on_pump (λ r, foldl (λ r ctl, take_control ctl r) r controls) (on_pump (take_control ctl) st)).
  apply IH. assert (Hm : sender_reachable (mk_sender (on_pump migrated st) C D P L n log W K X CL)).
  { eapply sender_more; [exact Hx|]. apply (sn_session st C D P L n log W K X CL (migrated (ss_pump st)) (ss_cong st)).
    unfold migrated. by destruct (next_migration_path_id _), (advance_outbound_cid _). }
  destruct ctl as [[]|[]|id prio]; [exact Hm|by destruct st|exact Hm|by destruct st|].
  unfold on_pump, take_control, update_stream. destruct (rs_streams (ss_pump st) !! id) as [s|] eqn:E; [|by destruct st].
  eapply sender_more; [exact Hx|]. exact (sn_other st C D P L n log W K X CL id s (set_priority s prio) E (conj eq_refl eq_refl)).
Qed.

Lemma close_takes_reachable accepts cmds : ∀ D st P L n log W K X CL C' D' out st',
  sender_reachable (mk_sender st cmds D P L n log W K X CL) -> close_takes accepts cmds D st = (C', D', out, st') ->
  (D' = [] -> C' = []) ∧ ∃ n', sender_reachable (mk_sender st' C' D' P L n' (log ++ out) W K X CL).
Proof.
  induction cmds as [|cmd cmds IH]; intros D st P L n log W K X CL C' D' out st' Hx E; cbn [close_takes] in E.
  { injection E as <- <- <- <-. rewrite app_nil_r. eauto. }
  destruct D as [|d D]; [|injection E as <- <- <- <-; rewrite app_nil_r; split; [done|eauto]].
  pose proof (no_close_command _ Hx) as Hc. cbn in Hc.
  destruct (take_command accepts cmd [] st) as [[[closes D1] out1] st1] eqn:Et.
  assert (closes = false) as ->.
  { destruct closes; [|done]. destruct Hc. apply take_command_closes in Et. subst. by left. }
  destruct (close_takes accepts cmds D1 st1) as [[[C2 D2] more] st2] eqn:E2. injection E as <- <- <- <-.
  rewrite app_assoc. eapply IH; [|done]. eapply sender_more; [exact Hx|]. by eapply sn_take.
Qed.

Lemma close_pushes_reachable a controls x C' D' out st' :
  sender_reachable x -> peer_closed (rs_session (ss_pump (sn_state x))) = false ->
  close_pushes a controls (sn_cmds x) (sn_deferred x) (sn_state x) = (C', D', out, st') ->
  (D' = [] -> C' = []) ∧
  ∃ n', sender_reachable (mk_sender st' C' D' (sn_reports x) (sn_releases x) n' (sn_log x ++ out) (sn_written x) (sn_known x) (sn_dropped x) (sn_closed x)).
Proof.
  intros Hx Hpc. unfold close_pushes. rewrite Hpc. destruct x as [st C D P L n log W K X CL]. cbn.
  destruct (flush_deferred_sends _ _ _) as [[q1 out1] st2] eqn:Ef. destruct (close_takes _ _ _ _) as [[[C2 D2] more] st3] eqn:Et.
  intros [= <- <- <- <-]. rewrite app_assoc. eapply close_takes_reachable; [|exact Et].
  eapply sender_more; [exact (controls_reachable controls _ _ _ _ _ _ _ _ _ _ _ Hx)|]. by eapply sn_flush.
Qed.

Lemma quiet_controls controls r : quiet r (foldl (λ r ctl, take_control ctl r) r controls).
Proof.
  revert r. induction controls as [|ctl controls IH]; intros r; cbn; [by apply quiet_same|].
  eapply quiet_trans; [apply quiet_control|apply IH].
Qed.

Lemma quiet_close_pushes a controls cmds q st : quiet (ss_pump st) (ss_pump (close_pushes a controls cmds q st).2).
Proof.
  unfold close_pushes. destruct (peer_closed _); [by apply quiet_same|].
  pose proof (quiet_controls controls (ss_pump st)) as H1. set (st1 := on_pump _ st). pose proof (quiet_flush (an_flush a) q st1) as H2.
  destruct (flush_deferred_sends _ _ _) as [[q1 out] st2].
  assert (H3 : ∀ cmds q st, quiet (ss_pump st) (ss_pump (close_takes (an_flush a) cmds q st).2)).
  { intros cmds0. induction cmds0 as [|cmd cmds0 IH]; intros q0 st0; cbn [close_takes]; [by apply quiet_same|].
    destruct q0; [|by apply quiet_same]. pose proof (quiet_command (an_flush a) cmd [] st0) as Hc.
    destruct (take_command _ _ _ _) as [[[b q3] o] st3]. specialize (IH q3 st3). destruct (close_takes _ _ _ _) as [[[c q4] m] st4].
    by eapply quiet_trans. }
  specialize (H3 cmds q1 st2). destruct (close_takes _ _ _ _) as [[[c q4] m] st4]. eapply quiet_trans; [exact H1|by eapply quiet_trans].
Qed.

(** ** The announcement *)

(** Close frames sealed one after the other. *)
Inductive closings : Session -> list (list Z) -> Session -> Prop :=
| closings_nil s : closings s [] s
| closings_cons s buf s1 l s2 : send_control_close s = (Some buf, s1) -> closings s1 l s2 -> closings s (buf :: l) s2.

Lemma close_copies_spec n : ∀ accepts r,
  ∃ frames s', added frames r (close_copies n accepts r) ∧ closings (rs_session r) frames s' ∧ (length frames <= n)%nat ∧
    ((∀ k, accepts k = true) -> length frames = n ∨ (send_control_close s').1 = None).
Proof.
  induction n as [|n IH]; intros accepts r; cbn [close_copies].
  { exists [], (rs_session r). split_and!; [apply added_refl|constructor|done|by left]. }
  destruct (sends_end (rs_session r)) as (_ & _ & He). destruct (send_control_close (rs_session r)) as [[buf|] s] eqn:E; cbn [snd] in He.
  - destruct (accepts 0%nat) eqn:Ea.
    + destruct (IH (λ k, accepts (S k)) (add_effect (set_rs_session r s) (SendBytes buf))) as (fs & s' & Ha & Hc & Hl & Hall).
      exists (buf :: fs), s'. split_and!; [|by econstructor|cbn; lia|].
      * change (buf :: fs) with ([buf] ++ fs). eapply added_trans; [|exact Ha]. by split.
      * intros Hk. destruct (Hall (λ k, Hk (S k))); [left; cbn; lia|by right].
    + exists [], (rs_session r). split_and!; [split; [by rewrite app_nil_r|done]|constructor|cbn; lia|]. intros Hk. by rewrite Hk in Ea.
  - exists [], (rs_session r). split_and!; [split; [by rewrite app_nil_r|done]|constructor|cbn; lia|]. intros _. right. by rewrite E.
Qed.

End Close.

(** ** Behind the close of the peer *)

Section Draining.
Context `{Primitives} {ch : Mpsc} (cfg : LivenessConfig) (cover_interval : Z).

Definition loop_of (t : Turn) : Loop := match t with Stay l | Leave _ l => l end.

Definition pump_run (t : Turn) (ws : list Wake) : Turn :=
  foldl (λ t w, match t with Stay l => pump_turn cfg cover_interval l w | Leave _ _ => t end) t ws.

Definition pump_of (l : Loop) : RecvState := ss_pump (lp_state l).

(** What a turn behind the close leaves as it is. *)
Record drains (l l' : Loop) : Prop := {
  dn_quiet : quiet (pump_of l) (pump_of l');
  dn_until : lp_draining l' = lp_draining l;
  dn_conn : lp_conn l' = lp_conn l;
}.

Lemma drains_refl l : drains l l.
Proof. split; [by apply quiet_same|done|done]. Qed.

Lemma drains_trans l1 l2 l3 : drains l1 l2 -> drains l2 l3 -> drains l1 l3.
Proof. intros [] []. split; [by eapply quiet_trans|congruence|congruence]. Qed.

Lemma finish_closed a st : peer_closed (rs_session (ss_pump st)) = true -> finish a st = st.
Proof. intros E. unfold finish, finish_and_announce. rewrite E. by destruct st. Qed.

Lemma release_due_drains accepts l : drains l (release_due accepts l).
Proof.
  unfold release_due. pose proof (quiet_release accepts (lp_releases l) (lp_taken l) (lp_deferred l) (lp_state l)) as Hq.
  destruct (release_due_streams _ _ _ _ _) as [[[rel q] out] st]. by split.
Qed.

Lemma draining_turn l w until :
  lp_draining l = Some until -> peer_closed (rs_session (pump_of l)) = true ->
  drains l (loop_of (pump_turn cfg cover_interval l w)) ∧
  match w with Tick b _ => until <= bt_check b -> ∃ l', pump_turn cfg cover_interval l w = Leave false l' | _ => True end.
Proof.
  intros Hu Hp. assert (Hs : drains l l) by apply drains_refl. assert (Hf : ∀ a, finish a (lp_state l) = lp_state l) by (intros a; by apply finish_closed).
  destruct w as [b a|now a|now a|a| |a|a|a|]; cbn [pump_turn].
  - unfold tick, arm_draining. rewrite Hu, Hu. destruct (Z.leb_spec until (bt_check b)); (split; [done|]); [eauto|lia].
  - split; [|done]. by rewrite Hu.
  - split; [|done]. rewrite Hu. by rewrite andb_false_r.
  - split; [|done]. unfold close_pushes, pump_of in *. rewrite Hp. cbn. rewrite Hf. by split; [apply quiet_same| |].
  - split; [|done]. destruct (lp_controls l) as [|ctl rest]; [done|]. split; [|done|done]. apply quiet_control.
  - split; [|done]. destruct (lp_reports l) as [|id ids]; [done|]. eapply drains_trans; [|apply release_due_drains].
    by split; [apply quiet_same| |].
  - split; [|done]. case_bool_decide; [|done]. unfold command_turn. destruct (lp_cmds l) as [|cmd cmds]; [done|].
    rewrite Hu. destruct cmd; cbn [is_write]; try (eapply drains_trans; [|apply release_due_drains]; by split; [apply quiet_same| |]).
    cbn. rewrite Hf. by split; [apply quiet_same| |].
  - split; [|done]. case_test; [|done]. cbn. rewrite Hf. by split; [apply quiet_same| |].
  - done.
Qed.

Lemma draining_run ws : ∀ l until,
  lp_draining l = Some until -> peer_closed (rs_session (pump_of l)) = true ->
  let t := pump_run (Stay l) ws in
  drains l (loop_of t) ∧ ∀ b a, Tick b a ∈ ws -> until <= bt_check b -> ∃ died l', t = Leave died l'.
Proof.
  induction ws as [|w ws IH]; intros l until Hu Hp t; [split; [apply drains_refl|intros ? ? []%not_elem_of_nil]|].
  destruct (draining_turn l w until Hu Hp) as [Hd Ht]. subst t. unfold pump_run in *. cbn [foldl].
  destruct (pump_turn cfg cover_interval l w) as [l1|died l1] eqn:E; cbn [loop_of] in Hd.
  - destruct (IH l1 until) as [Hd2 Ht2]; [by rewrite (dn_until _ _ Hd)|by rewrite (proj2 (qt_end _ _ (dn_quiet _ _ Hd)))|].
    split; [by eapply drains_trans|]. intros b a [<-|Hin]%elem_of_cons Hb; [|by eapply Ht2]. by destruct (Ht Hb) as [? ?].
  - assert (Hl : foldl (λ t w, match t with Stay l => pump_turn cfg cover_interval l w | Leave _ _ => t end) (Leave died l1) ws = Leave died l1).
    { clear. by induction ws. }
    rewrite Hl. split; [done|]. eauto.
Qed.

End Draining.

(** ** Properties *)


#[local] Existing Instance list_chan.

(** A connected session with one stream and two writes, one of them still in the channel;
    the transport takes everything. *)
Definition toy_connected : RecvState := set_rs_session toy_client (set_sess_state (toy_pair true false) Connected).
Definition toy_writer : Sender :=
  foldl (sender_exec (H := toy_primitives)) (sender_init toy_connected (mk_cong (est_new 0) (unlimited 0)))
    [ActOpen 5; ActWrite 5 [1; 2]; ActTake; ActWrite 5 [3]].
Definition toy_answers : Answers := mk_answers true (λ _, true) (λ _ _, SendLoop.mk_moment 1 true) (λ _, true).



(** The close seen at 0, a write refused behind it, a tick at the deadline. *)
Definition toy_closed_loop : Loop :=
  mk_loop (mk_ss (set_rs_session toy_client (note_peer_closed (toy_pair true false))) (mk_cong (est_new 0) (unlimited 0)) ∅)
    [CmdSend [1]] [] [] [] [] 0 None None Conn.Connected None None 0 0 0.
Definition toy_beat (now : Z) : Beat := mk_beat now now now now now now now true true.

