(* ===== verification/CloseFrames.v ===== *)
(** * The close frames of a session at its peer

    The frames [announce_close] puts on the wire (PumpLoop.v), received by the other side
    (Pump.v): which of them are accepted, and what they do. *)

From Stdlib Require Import ZArith Lia.
From stdpp Require Import base numbers option gmap list sets relations sorting.
From S2P Require Import Bbr Pacer.
From S2P Require Import Prelude Errors Replay Wire Sack Rto StreamSend StreamRecv Arq Stream Path.
From S2P Require Import Crypto Shaping Cid Datagram Session Channel RekeySync Coalesce Mux Pump StreamTable SendLoop SendQueue Liveness PumpLoop.

Local Open Scope Z_scope.

Section Counters.
Context `{Primitives}.

(** ** What opening and sealing do to the rest of the session *)

Definition recv_count (s : Session) : Z := recv_counter (cs_session (crypto s)).

Lemma check_replay_crypto s pn : crypto (check_replay s pn).2 = crypto s.
Proof. unfold check_replay. by destruct (Replay.accept _ _ _) as [[]]. Qed.

Lemma confirm_crypto s : crypto (confirm_rekey_caught_up s) = crypto s.
Proof. done. Qed.

Lemma decrypt_counter c nonce aad ct pt x :
  decrypt_with_nonce c nonce aad ct = (Ok pt, x) -> 0 <= recv_counter c -> recv_counter x = recv_counter c + 1.
Proof.
  unfold decrypt_with_nonce. destruct (Z.leb_spec AEAD_MAX_INVOCATIONS (recv_counter c)); [done|].
  destruct (aead_open _ _ _ _ _); [|done]. intros [= <- <-] ?. cbn. apply wrap_small. unfold in_u.
  unfold AEAD_MAX_INVOCATIONS in *. lia.
Qed.

Lemma forward_counter s steps secret c : derive_forward_crypto s steps = Ok (secret, c) -> recv_counter (cs_session c) = 0.
Proof.
  unfold derive_forward_crypto, crypto_state_new. destruct (forward_secret _ _); cbn; [|done].
  destruct (is_server s); unfold from_shared_secret_peer, from_shared_secret; repeat case_match; intros; simplify_eq/=; done.
Qed.

Lemma packet_counter s h ct ext pt s' :
  decrypt_current s h ct ext = (Ok pt, s') -> 0 <= recv_count s -> recv_count s' = recv_count s + 1.
Proof.
  unfold decrypt_current, decrypt_packet. destruct (decrypt_with_nonce _ _ _ _) as [[pt'|e] x] eqn:E; [|done].
  set (s1 := set_crypto s _). pose proof (check_replay_crypto s1 (packet_number h)) as Hc. destruct (check_replay s1 _) as [[] s2]; [|done].
  intros [= <- <-] Hn. unfold recv_count. rewrite confirm_crypto. cbn [snd] in Hc. rewrite Hc. exact (decrypt_counter _ _ _ _ _ _ E Hn).
Qed.

Lemma open_counter s h ct ext pt s' :
  decrypt_packet_accepting_rekey s h ct ext = (Ok pt, s') -> 0 <= recv_count s -> recv_count s' <= recv_count s + 1.
Proof.
  unfold decrypt_packet_accepting_rekey. intros E Hn.
  assert (Hcur : ∀ p x, decrypt_current s h ct ext = (Ok p, x) -> recv_count x <= recv_count s + 1).
  { intros p x E1. pose proof (packet_counter _ _ _ _ _ _ E1 Hn). lia. }
  destruct (epoch h =? sess_epoch s); [by eapply Hcur|]. destruct (epoch h <? sess_epoch s); [done|]. destruct (negb _); [done|].
  unfold decrypt_forward in E. destruct (epoch h =? sess_epoch s); [by eapply Hcur|]. destruct (epoch h <? sess_epoch s); [done|].
  destruct (MAX_REKEY_CATCHUP <? _); [done|]. destruct (derive_forward_crypto s _) as [[secret c]|] eqn:Ed; [|done].
  destruct (decrypt_with_nonce _ _ _ _) as [[pt'|e] x] eqn:Ex; [|done].
  set (s1 := commit_forward_crypto s _ _ _) in E. pose proof (check_replay_crypto s1 (packet_number h)) as Hc.
  destruct (check_replay s1 _) as [[] s2]; [|done]. injection E as <- <-.
  unfold recv_count at 1. rewrite confirm_crypto. cbn [snd] in Hc. rewrite Hc. cbn.
  apply decrypt_counter in Ex; [|by rewrite (forward_counter _ _ _ _ Ed)]. rewrite Ex, (forward_counter _ _ _ _ Ed). lia.
Qed.

Lemma stamp_cid s : cid (rekey_before_stamp s).2 = cid s.
Proof.
  unfold rekey_before_stamp, rekey. case_test; [|done]. case_test; [done|]. by destruct (derive_forward_crypto s 1) as [[]|].
Qed.

Lemma seal_cid s bits stream path pt : cid (seal_frame s bits stream path pt).2 = cid s.
Proof.
  unfold seal_frame, next_send_pn, encrypt_packet. destruct (encrypt_with_nonce _ _ _ _) as [[ct|e] x]; [|done].
  unfold aead_to_core. by case_match.
Qed.

Lemma close_frame_cid s : cid (send_control_close s).2 = cid s.
Proof.
  unfold send_control_close. pose proof (stamp_cid s) as Hc. destruct (rekey_before_stamp s) as [[extra|] s1]; [|done].
  destruct (pad_frame _ _ _). cbn [snd] in Hc. by rewrite seal_cid.
Qed.

(** Every number from [n] on is above all that were accepted. *)
Definition newer (s : Session) (n : Z) : Prop :=
  initialized (recv_replay s) = false ∨ high_watermark (recv_replay s) < n.

Lemma newer_accepted s n : newer s n ->
  (Replay.accept 64 (recv_replay s) n).1 = true ∧
  let w := (Replay.accept 64 (recv_replay s) n).2 in initialized w = true ∧ high_watermark w = n.
Proof.
  intros Hn. unfold accept. destruct (initialized (recv_replay s)) eqn:E; [|done]. cbn [negb].
  destruct Hn as [?|Hn]; [congruence|]. by rewrite (proj2 (Z.ltb_lt _ _) Hn).
Qed.

End Counters.

Section Peer.
Context `{PrimitiveLaws} {ch : Mpsc}.

(** ** A peer that can take what is coming *)

(** [b] can take the next [n] frames of [a]: it is not too many epochs behind even if
    each of them rotates the keys, its keys are not used up, and it has accepted no later
    number. *)
Record ready (init : list Z) (n : nat) (a b : Session) : Prop := {
  rd_peers : peers init a b;
  rd_epochs : sess_epoch b <= sess_epoch a;
  rd_lag : sess_epoch a + Z.of_nat n < sess_epoch b + MAX_REKEY_CATCHUP;
  rd_unconfirmed : sess_epoch b < sess_epoch a -> rekey_unconfirmed a = true;
  rd_count : recv_count b + Z.of_nat n <= AEAD_MAX_INVOCATIONS;
  rd_newer : newer b (send_packet_number a);
  rd_numbers : send_packet_number a + Z.of_nat n <= u_max 64;
  rd_path : is_byte (send_path_id (cid a));
}.

Lemma close_frame_flags unconfirmed padded bits :
  pad_frame Padme [CONTROL_CLOSE] (Z.lor (Z.lor ENCRYPTED CONTROL) (if unconfirmed : bool then REKEY else 0)) = (padded, bits) ->
  in_u 16 bits ∧ flags_contains bits ENCRYPTED = true ∧ (unconfirmed = true -> flags_contains bits REKEY = true) ∧
  flags_contains bits KEEPALIVE = false ∧ flags_contains bits CONTROL = true ∧
  (if flags_contains bits PADDED then strip_padding padded = Ok [CONTROL_CLOSE] else padded = [CONTROL_CLOSE]) ∧ len padded <= 5.
Proof.
  destruct unconfirmed; vm_compute; intros [= <- <-]; split_and!; try done; by intros.
Qed.

Lemma masked_length p mask : (length (to_wire_masked p mask) <= HEADER_SIZE + length (payload p))%nat.
Proof.
  unfold to_wire_masked, packet_to_wire. rewrite !length_app, length_drop, length_app, header_to_wire_length.
  pose proof (xor_zip_length (slice HP_PROTECTED_OFFSET HEADER_SIZE (header_to_wire (header p) ++ payload p)) mask) as Hx.
  unfold slice in *. rewrite length_take, length_drop, length_app, header_to_wire_length in Hx.
  unfold HP_PROTECTED_OFFSET, HEADER_SIZE in *. rewrite take_0. cbn [length]. lia.
Qed.

(** The sender moves on. *)
Lemma ready_sent init n a b wire a1 : ready init (S n) a b -> send_control_close a = (Some wire, a1) ->
  ready init n a1 b ∧ sess_epoch a <= sess_epoch a1 ∧ send_packet_number a1 = send_packet_number a + 1.
Proof.
  intros [Hp He Hl Hu Hc Hn Hnum Hpath] E. pose proof (close_frame_cid a) as Hcid. rewrite E in Hcid. cbn [snd] in Hcid.
  unfold send_control_close in E. destruct (rekey_before_stamp a) as [[extra|] a0] eqn:Er; [|done].
  destruct (rekey_before_stamp_spec init a extra a0 (peer_wf_a _ _ _ Hp) Er) as (Hwf0 & _ & Hep & E1 & _ & E3 & E4 & E5 & _).
  destruct (pad_frame _ _ _) as [padded bits].
  destruct (seal_frame_spec init _ _ _ _ _ _ _ Hwf0 E) as [(Hwf1 & F1 & _ & F3 & F4 & F5 & F6 & F7) _].
  pose proof (wf_pn _ _ (peer_wf_a _ _ _ Hp)) as Hpn. rewrite wrap_small in F3 by (unfold in_u, u_max in *; lia).
  split; [|split; [lia|congruence]]. split; [| | | |lia| | |by rewrite Hcid].
  - destruct Hp. split; try done; congruence.
  - lia.
  - lia.
  - intros Hlt. rewrite F7. destruct Hep as [[? ->]|[? ->]]; [apply Hu; lia|done].
  - destruct Hn as [?|?]; [by left|right; lia].
  - lia.
Qed.

(** The receiver takes the frame. *)
Lemma close_opens init n a b now wire a1 : ready init (S n) a b -> send_control_close a = (Some wire, a1) -> 0 <= recv_count b ->
  ∃ p b', parse_protected b wire = Ok p ∧ version (header p) = WIRE_VERSION ∧ len wire <= MAX_RECV_FRAME ∧
    flags_contains (flags (header p)) KEEPALIVE = false ∧ flags_contains (flags (header p)) CONTROL = true ∧
    open_frame b now p = (Some [CONTROL_CLOSE], b') ∧ ready init n a1 b' ∧ 0 <= recv_count b'.
Proof.
  intros Hrd E Hpos. destruct (ready_sent _ _ _ _ _ _ Hrd E) as (Hrd1 & _ & Hpn1). pose proof Hrd as [Hp He Hl Hu Hc Hn Hnum Hpath].
  unfold send_control_close in E. destruct (rekey_before_stamp a) as [[extra|] a0] eqn:Er; [|done].
  destruct (rekey_before_stamp_spec init a extra a0 (peer_wf_a _ _ _ Hp) Er) as (Hwf0 & -> & Hep & E1 & _ & E3 & E4 & E5 & E6).
  destruct (pad_frame _ _ _) as [padded bits] eqn:Epad. destruct (close_frame_flags _ _ _ Epad) as (Hbits & Henc & Hrk & Hka & Hctl & Hstrip & Hlen).
  set (h := frame_header a0 bits RAW_APP_STREAM_ID (send_path_id (cid a0))).
  set (b1 := set_path_registry b (Path.mark_seen (path_registry b) (path_id h) now)).
  assert (Hp1 : peers init a0 b1) by (destruct Hp as [? Hb ? ? ?]; split; [done|destruct Hb; by split|cbn; congruence..]).
  assert (Hadm : epoch_admitted b1 h).
  { unfold epoch_admitted. change (epoch h) with (sess_epoch a0). change (sess_epoch b1) with (sess_epoch b).
    change (flags h) with bits. destruct (decide (sess_epoch a0 = sess_epoch b)); [by left|right].
    split; [lia|]. apply Hrk. destruct Hep as [[? ->]|[? ->]]; [apply Hu; lia|done]. }
  destruct (newer_accepted b _ Hn) as [Hacc [Hini Hhw]].
  destruct (seal_opens init a0 b1 bits RAW_APP_STREAM_ID (send_path_id (cid a0)) padded wire a1)
    as (ct & b' & Hparse & Hdec & Hop & Hu'); [done|done|done|by rewrite E6|done|done|unfold recv_count in Hc; change (recv_counter (cs_session (crypto b)) < AEAD_MAX_INVOCATIONS); lia|by rewrite E1|].
  destruct (seal_frame_spec init _ _ _ _ _ _ _ Hwf0 E) as [(_ & Hea & _ & _ & Hca & Hsa & Hia & _) (ct' & mask & Hct & _ & _ & Hw)].
  assert (Hcnt : recv_count b' <= recv_count b + 1) by exact (open_counter b1 _ _ _ _ _ Hdec Hpos).
  destruct Hop as (Hwf' & Hee & Hrep & _ & Hcb & Hsb & Hib).
  exists (packet_new h ct), b'. split_and!; [exact Hparse|done| |done|done| | |].
  - rewrite Hw. pose proof (masked_length (packet_new h ct') mask) as Hm. apply seal_length in Hct. cbn [payload packet_new] in Hm.
    unfold len in *. fold h. unfold MAX_RECV_FRAME, LEGACY_APP_CHUNK, PER_PACKET_OVERHEAD, RELIABLE_OFFSET_LEN, AEAD_OVERHEAD, HEADER_SIZE in *. lia.
  - apply (open_frame_ok _ _ _ _ padded); [|done..]. rewrite (peer_id _ _ _ Hp). exact E5.
  - destruct Hrd1 as [Hp' He' Hl' Hu1 Hc' Hn' Hnum' Hpath']. change (epoch (frame_header a0 bits RAW_APP_STREAM_ID (send_path_id (cid a0)))) with (sess_epoch a0) in Hee.
    split; try done; [|lia|lia|lia|lia|].
    + destruct Hp'. split; try done; cbn in *; congruence.
    + right. rewrite Hrep. change (recv_replay b1) with (recv_replay b). change (packet_number (frame_header a0 bits RAW_APP_STREAM_ID (send_path_id (cid a0)))) with (send_packet_number a0).
      rewrite E1, Hhw, Hpn1. lia.
  - destruct Hwf' as [_ _ _ _ (sc & rc & _ & Hrc & Ecr) _ _]. unfold recv_count. rewrite Ecr. cbn. unfold in_u in Hrc. lia.
Qed.

(** What the reader does to the session beside opening the packet. *)
Lemma authenticated_session r now path :
  ∃ c, rs_session (on_authenticated r now path) = set_cid (update_activity (rs_session r) now) c.
Proof.
  unfold on_authenticated. destruct (note_migration_path _ _) as [[slide|] c]; [|by eexists].
  destruct (advance_outbound_cid _) as [new_cid c2]. by eexists.
Qed.

Lemma ready_aside init n a b now c :
  ready init n a b -> ready init n a (note_peer_closed (set_cid (update_activity b now) c)).
Proof.
  intros [[? [] ? ? ?] ? ? ? ? ? ? ?]. by split.
Qed.

Lemma close_received init n a r now view wire a1 :
  ready init (S n) a (rs_session r) -> send_control_close a = (Some wire, a1) -> 0 <= recv_count (rs_session r) ->
  let r' := receive_bytes r now view wire in
  (∃ p, parse_protected (rs_session r) wire = Ok p ∧ (open_frame (rs_session r) now p).1 = Some [CONTROL_CLOSE]) ∧
  peer_closed (rs_session r') = true ∧ ready init n a1 (rs_session r') ∧ 0 <= recv_count (rs_session r').
Proof.
  intros Hrd E Hpos. destruct (close_opens init n a (rs_session r) now wire a1 Hrd E Hpos)
    as (p & b' & Hparse & Hver & Hlen & Hka & Hctl & Hopen & Hrd' & Hpos').
  split; [exists p; by rewrite Hopen|]. unfold receive_bytes. rewrite (proj2 (Z.ltb_ge _ _) Hlen), Hparse, Hver. cbn [negb].
  change (WIRE_VERSION =? WIRE_VERSION) with true. cbn [negb]. unfold handle_packet. rewrite Hopen.
  destruct (authenticated_session (set_rs_session r b') now (path_id (header p))) as [c Hc].
  unfold dispatch. rewrite Hka, Hctl. unfold handle_control. change (CONTROL_CLOSE =? CONTROL_CLOSE) with true. cbn iota.
  cbn [rs_session set_rs_session] in *. rewrite Hc. split_and!; [done|by apply ready_aside|exact Hpos'].
Qed.

Definition receive_all (r : RecvState) (got : list (list Z * (Z * TransportView))) : RecvState :=
  foldl (λ r x, receive_bytes r x.2.1 x.2.2 x.1) r got.

Definition opens_as_close (r : RecvState) (x : list Z * (Z * TransportView)) : Prop :=
  ∃ p, parse_protected (rs_session r) x.1 = Ok p ∧ (open_frame (rs_session r) x.2.1 p).1 = Some [CONTROL_CLOSE].

Lemma copies_received init frames : ∀ a a' r got,
  closings a frames a' -> got.*1 `sublist_of` frames -> ready init (length frames) a (rs_session r) -> 0 <= recv_count (rs_session r) ->
  (∀ i x, got !! i = Some x -> opens_as_close (receive_all r (take i got)) x) ∧
  (peer_closed (rs_session r) = true ∨ got ≠ [] -> peer_closed (rs_session (receive_all r got)) = true).
Proof.
  induction frames as [|wire frames IH]; intros a a' r got Hc Hs Hrd Hpos; inversion Hc as [|? ? a1 ? ? E Hc1]; subst.
  { apply sublist_nil_r, fmap_nil_inv in Hs as ->. split; [done|]. by intros [?|?]. }
  destruct got as [|[w [now view]] got]; [split; [done|by intros [?|?]]|].
  cbn in Hs. apply sublist_cons_r in Hs as [Hs|(l & [= <- <-] & Hs)].
  - destruct (ready_sent _ _ _ _ _ _ Hrd E) as [Hrd1 _]. exact (IH a1 a' r ((w, (now, view)) :: got) Hc1 Hs Hrd1 Hpos).
  - destruct (close_received init (length frames) a r now view w a1 Hrd E Hpos) as (Hop & Hcl & Hrd1 & Hpos1).
    destruct (IH a1 a' _ got Hc1 Hs Hrd1 Hpos1) as [H1 H2]. split.
    + intros [|i] x Hx; [injection Hx as <-; exact Hop|]. exact (H1 i x Hx).
    + intros _. apply H2. by left.
Qed.

End Peer.

(** ** Properties *)

(** A peer that can still follow the keys of a closing session, and receives any of its
    close frames, in order and with any of them lost, learns of the close from the first;
    and it opens each of the others as well: every copy has a number of its own, so none
    of them is a replay. *)
Theorem every_close_copy_is_accepted `{PrimitiveLaws} {ch : Mpsc} (init : list Z) (a a' : Session) (frames : list (list Z)) (r : RecvState)
    (got : list (list Z * (Z * TransportView))) :
  closings a frames a' -> got.*1 `sublist_of` frames -> ready init (length frames) a (rs_session r) ->
  (got ≠ [] -> peer_closed (rs_session (receive_all r got)) = true) ∧
  ∀ i x, got !! i = Some x -> opens_as_close (receive_all r (take i got)) x.
Proof.
  intros Hc Hs Hrd. assert (Hpos : 0 <= recv_count (rs_session r)).
  { destruct (wf_crypto _ _ (peer_wf_b _ _ _ (rd_peers _ _ _ _ Hrd))) as (sc & rc & _ & Hrc & Ecr).
    unfold recv_count. rewrite Ecr. cbn. unfold in_u in Hrc. lia. }
  destruct (copies_received init frames a a' r got Hc Hs Hrd Hpos) as [H1 H2]. split; [by intros ?; apply H2; right|done].
Qed.

#[local] Existing Instance list_chan.

(** The close frames of the toy client. *)
Fixpoint toy_copies (n : nat) (a : Session) : list (list Z) * Session :=
  match n with
  | O => ([], a)
  | S n' => match @send_control_close toy_primitives a with
            | (Some buf, a1) => let '(l, a2) := toy_copies n' a1 in (buf :: l, a2)
            | (None, _) => ([], a)
            end
  end.

Lemma toy_copies_closings n a : @closings toy_primitives a (toy_copies n a).1 (toy_copies n a).2.
Proof.
  revert a. induction n as [|n IH]; intros a; cbn [toy_copies]; [constructor|].
  destruct (send_control_close a) as [[buf|] a1] eqn:E; [|constructor].
  specialize (IH a1). destruct (toy_copies n a1) as [l a2]. by econstructor.
Qed.

Definition toy_frames : list (list Z) := (toy_copies 3 (toy_pair true false)).1.
Definition toy_frame (i : nat) : list Z := nth i toy_frames [].
Definition toy_peer : RecvState := set_rs_session toy_client (toy_pair true true).

Lemma toy_ready : @ready toy_primitives (replicate 32 9) 3 (toy_pair true false) (rs_session toy_peer).
Proof.
  split; [apply toy_peers|by vm_compute|by vm_compute|by vm_compute|by vm_compute|by left|by vm_compute|by vm_compute].
Qed.

(** The second of three copies is lost; the first and the third are both opened. *)
Lemma every_close_copy_is_accepted_witness :
  let got := [(toy_frame 0, (5, toy_view)); (toy_frame 2, (6, toy_view))] in
  peer_closed (rs_session (receive_all (H := toy_primitives) toy_peer got)) = true ∧
  opens_as_close (H := toy_primitives) (receive_all (H := toy_primitives) toy_peer (take 1 got)) (toy_frame 2, (6, toy_view)).
Proof.
  intros got. assert (E : toy_frames = [toy_frame 0; toy_frame 1; toy_frame 2]) by (vm_compute; reflexivity).
  destruct (every_close_copy_is_accepted (H := toy_primitives) (replicate 32 9) (toy_pair true false) (toy_copies 3 (toy_pair true false)).2
              toy_frames toy_peer got) as [H1 H2].
  - apply toy_copies_closings.
  - rewrite E. cbn [got fmap list_fmap fst]. apply sublist_skip, sublist_cons, sublist_skip, sublist_nil_l.
  - rewrite E. apply toy_ready.
  - split; [by apply H1|]. exact (H2 1%nat _ eq_refl).
Defined.
