(* ===== verification/ByteStream.v ===== *)
(** * Message transports over a byte stream ([core/src/api/tcp_transport.rs],
      [core/src/transport/write_stall.rs], [core/src/transport/legs/mimic_tls/leg.rs])

    A stream socket carries bytes in order and in pieces of any size.  The two stream
    transports put messages on it with a framing each; what they need of the framing is
    the class [Framing] with [FramingLaws], against which delivery is proved here once.
    The framing of the TCP transport is defined here, that of the mimicry leg in
    TlsRecords.v.

    The socket is a parameter: what each write call answers ([WriteAnswer]), and the
    pieces in which bytes arrive at the other end. *)

From Stdlib Require Import ZArith Lia.
From stdpp Require Import base numbers option list.
From S2P Require Import Prelude Errors UdpTransport.

Local Open Scope Z_scope.

Definition HANDSHAKE_FRAME_CAP : Z := 64 * 1024.
Definition STEADY_STATE_FRAME_CAP : Z := 4 * 1024 * 1024.
Definition RECV_CHUNK : nat := Z.to_nat (64 * 1024).
(** The largest piece one read of a transport asks for. *)
Definition READ_MAX : Z := 64 * 1024.

Definition phase_cap (p : FramePhase) : Z :=
  match p with PhaseHandshake => HANDSHAKE_FRAME_CAP | PhaseEstablished => STEADY_STATE_FRAME_CAP end.

(** ** Writes that give up on a peer which stopped reading *)

(** What one [write] call came to within the deadline. *)
Inductive WriteAnswer := Took (n : nat) | Interrupted | WriteError | NoProgress.
Inductive FlushAnswer := Flushed | FlushError | FlushNoProgress.

(** [StillWriting]: the answers given so far do not settle the write. *)
Inductive WriteOutcome := Written | Stalled | IoFailed | StillWriting.

(** The loop over one part: the outcome, the bytes the socket took, the answers left. *)
Fixpoint write_part (rest : list Z) (answers : list WriteAnswer) : WriteOutcome * list Z * list WriteAnswer :=
  match rest with
  | [] => (Written, [], answers)
  | _ =>
    match answers with
    | [] => (StillWriting, [], [])
    | NoProgress :: more => (Stalled, [], more)
    | Took O :: more => (IoFailed, [], more)
    | Took n :: more => let '(o, w, kept) := write_part (drop n rest) more in (o, take n rest ++ w, kept)
    | Interrupted :: more => write_part rest more
    | WriteError :: more => (IoFailed, [], more)
    end
  end.

Fixpoint write_all_making_progress (parts : list (list Z)) (answers : list WriteAnswer) (flush : FlushAnswer) : WriteOutcome * list Z :=
  match parts with
  | [] => (match flush with Flushed => Written | FlushError => IoFailed | FlushNoProgress => Stalled end, [])
  | part :: parts' =>
    match write_part part answers with
    | (Written, w, kept) => let '(o, w') := write_all_making_progress parts' kept flush in (o, w ++ w')
    | (o, w, _) => (o, w)
    end
  end.

Lemma write_part_takes answers : ∀ rest o w kept,
  write_part rest answers = (o, w, kept) -> w `prefix_of` rest ∧ (o = Written -> w = rest).
Proof.
  induction answers as [|a answers IH]; intros rest o w kept E; destruct rest as [|z rest]; cbn in E;
    try (injection E as <- <- <-; by split; [apply prefix_nil|]).
  destruct a as [[|n]| | |]; try (injection E as <- <- <-; by split; [apply prefix_nil|]); [|by apply IH in E].
  destruct (write_part (drop (S n) (z :: rest)) answers) as [[o' w'] l'] eqn:E'. injection E as <- <- <-.
  apply IH in E' as [Hp Ho]. split.
  - apply (prefix_app (take (S n) (z :: rest))) in Hp. by rewrite take_drop in Hp.
  - intros ->. rewrite (Ho eq_refl). apply (take_drop (S n) (z :: rest)).
Qed.

Lemma write_all_takes parts : ∀ answers flush o w,
  write_all_making_progress parts answers flush = (o, w) -> w `prefix_of` concat parts ∧ (o = Written -> w = concat parts).
Proof.
  induction parts as [|part parts IH]; intros answers flush o w E; cbn in E.
  { injection E as <- <-. by split. }
  destruct (write_part part answers) as [[o1 w1] kept] eqn:E1. apply write_part_takes in E1 as [Hp Ho].
  destruct o1; try (injection E as <- <-; split; [cbn; by apply prefix_app_r|done]).
  destruct (write_all_making_progress parts kept flush) as [o2 w2] eqn:E2. injection E as <- <-. apply IH in E2 as [Hp2 Ho2].
  rewrite Ho by done. cbn. split; [by apply prefix_app|]. intros ->. by rewrite Ho2.
Qed.

(** ** What a transport needs of its framing *)

Class Framing := {
  fr_state : Type;
  fr_new : fr_state;
  fr_set_phase : fr_state -> FramePhase -> fr_state;
  fr_push : fr_state -> list Z -> fr_state;
  fr_next : fr_state -> result (option (list Z)) CoreError * fr_state;
  fr_parts : list Z -> result (list (list Z)) CoreError;
  fr_eof : CoreError;  (* what [recv_bytes] answers at the end of the stream *)
}.

Section Pipe.
Context {F : Framing}.

(** ** Sending *)

(** The one bit a transport keeps of its writes. *)
Record Pipe := mk_pipe { pp_stalled : bool }.

(** What one write met: the answers of the socket. *)
Record Writes := mk_writes { wr_answers : list WriteAnswer; wr_flush : FlushAnswer }.

(** [send_bytes]: the answer ([None] while the write waits), the transport and the bytes
    the socket took. *)
Definition send_bytes (p : Pipe) (data : list Z) (wr : Writes) : option (result () CoreError) * Pipe * list Z :=
  if STEADY_STATE_FRAME_CAP <? len data then (Some (Err NetworkError), p, [])
  else if pp_stalled p then (Some (Err Timeout), p, [])
  else match fr_parts data with
  | Err e => (Some (Err e), p, [])
  | Ok parts =>
    match write_all_making_progress parts (wr_answers wr) (wr_flush wr) with
    | (Written, w) => (Some (Ok ()), p, w)
    | (IoFailed, w) => (Some (Err NetworkError), p, w)
    | (Stalled, w) => (Some (Err Timeout), mk_pipe true, w)
    | (StillWriting, w) => (None, p, w)
    end
  end.

(** The writes of a session, one after the other; nothing follows a write that waits. *)
Fixpoint send_all_messages (p : Pipe) (l : list (list Z * Writes)) : list (option (result () CoreError)) * list Z :=
  match l with
  | [] => ([], [])
  | (m, wr) :: l' =>
    let '(r, p1, w) := send_bytes p m wr in
    match r with
    | None => ([r], w)
    | Some _ => let '(rs, w') := send_all_messages p1 l' in (r :: rs, w ++ w')
    end
  end.

(** ** Receiving *)

(** [recv_bytes] once the phase is set: the pieces the socket hands over, an empty one
    for the end of the stream.  [None] while it waits. *)
Fixpoint recv_loop (s : fr_state) (pieces : list (list Z)) : option (result (list Z) CoreError) * fr_state * list (list Z) :=
  match fr_next s with
  | (Err e, s1) => (Some (Err e), s1, pieces)
  | (Ok (Some m), s1) => (Some (Ok m), s1, pieces)
  | (Ok None, s1) =>
    match pieces with
    | [] => (None, s1, [])
    | [] :: more => (Some (Err fr_eof), s1, more)
    | d :: more => recv_loop (fr_push s1 d) more
    end
  end.

Definition recv_bytes (ph : FramePhase) (s : fr_state) (pieces : list (list Z)) : option (result (list Z) CoreError) * fr_state * list (list Z) :=
  recv_loop (fr_set_phase s ph) pieces.

(** Calls until one waits or fails: the messages, and the failure. *)
Fixpoint recv_all (calls : nat) (ph : FramePhase) (s : fr_state) (pieces : list (list Z)) : list (list Z) * option CoreError :=
  match calls with
  | O => ([], None)
  | S calls' =>
    match recv_bytes ph s pieces with
    | (Some (Ok m), s1, more) => let '(ms, e) := recv_all calls' ph s1 more in (m :: ms, e)
    | (Some (Err e), _, _) => ([], Some e)
    | (None, _, _) => ([], None)
    end
  end.

End Pipe.

Section Encodings.
Context {F : Framing}.

(** The bytes of a message, and of messages one after the other. *)
Definition enc (m : list Z) : list Z := match fr_parts m with Ok parts => concat parts | Err _ => [] end.
Definition encs (ms : list (list Z)) : list Z := ms ≫= enc.

Lemma encs_app l1 l2 : encs (l1 ++ l2) = encs l1 ++ encs l2.
Proof. apply bind_app. Qed.
End Encodings.

(** [fr_holds ph s b]: in phase [ph] the receiver is in state [s], with the bytes [b]
    received and not yet handed over.  What it does with them is stated for bytes that
    are the beginning of a sequence of messages. *)
Class FramingLaws {F : Framing} := {
  fr_holds : FramePhase -> fr_state -> list Z -> Prop;
  enc_total m : len m <= STEADY_STATE_FRAME_CAP -> ∃ parts, fr_parts m = Ok parts ∧ concat parts ≠ [];
  hold_new : fr_holds PhaseHandshake fr_new [];
  hold_phase ph ph' s b : fr_holds ph s b -> phase_cap ph <= phase_cap ph' -> fr_holds ph' (fr_set_phase s ph') b;
  hold_push ph s b d m : fr_holds ph s b -> len m <= phase_cap ph -> b `prefix_of` enc m -> b ≠ enc m -> len d <= READ_MAX ->
    fr_holds ph (fr_push s d) (b ++ d);
  hold_message ph s m ms b : fr_holds ph s (enc m ++ b) -> Forall (λ m, len m <= phase_cap ph) (m :: ms) -> b `prefix_of` encs ms ->
    ∃ s', fr_next s = (Ok (Some m), s') ∧ fr_holds ph s' b;
  hold_part ph s m b : fr_holds ph s b -> len m <= phase_cap ph -> b `prefix_of` enc m -> b ≠ enc m ->
    ∃ s', fr_next s = (Ok None, s') ∧ fr_holds ph s' b;
}.

Section Delivery.
Context `{FramingLaws}.

Lemma phase_cap_steady ph : phase_cap ph <= STEADY_STATE_FRAME_CAP.
Proof. destruct ph; done. Qed.

Lemma enc_nonempty m : len m <= STEADY_STATE_FRAME_CAP -> enc m ≠ [].
Proof. intros Hm. unfold enc. destruct (enc_total m Hm) as (parts & -> & Hne). done. Qed.

Lemma prefix_split {A} `{EqDecision A} (b e r : list A) : b `prefix_of` e ++ r -> (∃ b', b = e ++ b' ∧ b' `prefix_of` r) ∨ (b `prefix_of` e ∧ b ≠ e).
Proof.
  intros Hp. destruct (prefix_weak_total e b (e ++ r)) as [[b' ->]|Hb]; [by exists r|done| |].
  - left. exists b'. split; [done|]. by apply prefix_app_inv in Hp.
  - destruct (decide (b = e)) as [->|Hne]; [|by right]. left. exists []. rewrite app_nil_r. split; [done|apply prefix_nil].
Qed.

Definition piece_ok (d : list Z) : Prop := d ≠ [] ∧ len d <= READ_MAX.
Definition fits (ph : FramePhase) (m : list Z) : Prop := len m <= phase_cap ph.

Lemma recv_loop_spec ph pieces : ∀ s b ms,
  fr_holds ph s b -> Forall (fits ph) ms -> Forall piece_ok pieces -> b ++ concat pieces `prefix_of` encs ms ->
  (∃ s', recv_loop s pieces = (None, s', []) ∧ ∀ m, ms !! 0%nat = Some m -> ~ enc m `prefix_of` b ++ concat pieces) ∨
  ∃ m ms' s' b' pieces', ms = m :: ms' ∧ recv_loop s pieces = (Some (Ok m), s', pieces') ∧ fr_holds ph s' b' ∧ Forall piece_ok pieces' ∧
    b ++ concat pieces = enc m ++ b' ++ concat pieces'.
Proof.
  induction pieces as [|d pieces IH]; intros s b ms Hh Hms Hpc Hpre; cbn [recv_loop concat] in *.
  - rewrite app_nil_r in Hpre |- *. assert (Hcase : (∃ m ms' b', ms = m :: ms' ∧ b = enc m ++ b' ∧ b' `prefix_of` encs ms') ∨
      (∃ m, fits ph m ∧ b `prefix_of` enc m ∧ b ≠ enc m ∧ ∀ m', ms !! 0%nat = Some m' -> m' = m)).
    { destruct ms as [|m ms].
      - apply prefix_nil_inv in Hpre as ->. right. exists []. split_and!; [by destruct ph|apply prefix_nil| |done].
        intros E. by apply (enc_nonempty [] ltac:(by vm_compute)).
      - apply Forall_cons in Hms as [Hm Hms]. destruct (prefix_split b (enc m) (encs ms) Hpre) as [(b' & -> & Hb)|[Hb Hne]]; [left; eauto 10|].
        right. exists m. split_and!; [done..|]. by intros m' [= <-]. }
    destruct Hcase as [(m & ms' & b' & -> & -> & Hb)|(m & Hm & Hb & Hne & Hhd)].
    + destruct (hold_message ph s m ms' b' Hh Hms Hb) as (s' & -> & Hh'). right. exists m, ms', s', b', []. cbn. rewrite app_nil_r. done.
    + destruct (hold_part ph s m b Hh Hm Hb Hne) as (s' & -> & Hh'). left. exists s'. split; [done|].
      intros m' ->%Hhd Hp. apply Hne. by apply (anti_symm prefix).
  - apply Forall_cons in Hpc as [[Hd Hdl] Hpc].
    assert (Hb0 : b `prefix_of` encs ms) by (etrans; [by apply prefix_app_r|done]).
    destruct ms as [|m ms].
    { apply prefix_nil_inv, app_nil in Hpre as [_ Hpre]. apply app_nil in Hpre as [-> _]. done. }
    pose proof Hms as Hms0. apply Forall_cons in Hms as [Hm Hms].
    destruct (prefix_split b (enc m) (encs ms) Hb0) as [(b' & -> & Hb)|[Hb Hne]].
    + destruct (hold_message ph s m ms b' Hh Hms0 Hb) as (s' & -> & Hh'). right. exists m, ms, s', b', (d :: pieces).
      split_and!; [done|done|done|by constructor|]. cbn. by rewrite <- app_assoc.
    + destruct (hold_part ph s m b Hh Hm Hb Hne) as (s' & -> & Hh'). destruct d as [|z d]; [done|].
      rewrite app_assoc in Hpre |- *. apply (IH _ _ (m :: ms)); [by apply (hold_push _ _ _ _ m)|done|done|done].
Qed.

(** What a receiver has handed over when it waits again. *)
Lemma recv_all_spec ph n : ∀ ph0 s b ms pieces,
  fr_holds ph0 s b -> phase_cap ph0 <= phase_cap ph -> Forall (fits ph) ms -> Forall piece_ok pieces -> b ++ concat pieces `prefix_of` encs ms ->
  ∃ got, recv_all n ph s pieces = (got, None) ∧ got `prefix_of` ms ∧
    ((length ms < n)%nat -> ∀ m, got ++ [m] `prefix_of` ms -> ~ encs (got ++ [m]) `prefix_of` b ++ concat pieces).
Proof.
  induction n as [|n IH]; intros ph0 s b ms pieces Hh Hcap Hms Hpc Hpre; cbn [recv_all].
  { exists []. split_and!; [done|apply prefix_nil|lia]. }
  unfold recv_bytes. destruct (recv_loop_spec ph pieces (fr_set_phase s ph) b ms) as [(s' & -> & Hno)|(m & ms' & s' & b' & pc' & -> & -> & Hh' & Hpc' & E)];
    [by apply (hold_phase ph0)|done..| |].
  - exists []. split_and!; [done|apply prefix_nil|]. intros _ m [k ->] Hp. apply (Hno m eq_refl). unfold encs in Hp. cbn in Hp. by rewrite app_nil_r in Hp.
  - rewrite E in Hpre. cbn in Hpre. apply prefix_app_inv in Hpre. apply Forall_cons in Hms as [Hm Hms].
    destruct (IH ph s' b' ms' pc' Hh' ltac:(lia) Hms Hpc' Hpre) as (got & -> & Hg & Hmax). exists (m :: got). split_and!; [done|by apply prefix_cons|].
    intros Hlen x Hx Hp. cbn in Hlen. apply prefix_cons_inv_2 in Hx. apply (Hmax ltac:(lia) x Hx). rewrite E in Hp. cbn in Hp. by apply prefix_app_inv in Hp.
Qed.

End Delivery.

Section Sending.
Context `{FramingLaws}.

(** The messages whose [send_bytes] answered success. *)
Fixpoint succeeded (l : list (list Z * Writes)) (rs : list (option (result () CoreError))) : list (list Z) :=
  match l, rs with
  | (m, _) :: l', Some (Ok _) :: rs' => m :: succeeded l' rs'
  | _ :: l', _ :: rs' => succeeded l' rs'
  | _, _ => []
  end.

Lemma succeeded_nil l : succeeded l [] = [].
Proof. by destruct l as [|[]]. Qed.

(** A socket that failed in the middle of a frame takes nothing more. *)
Fixpoint failure_is_final (p : Pipe) (l : list (list Z * Writes)) : Prop :=
  match l with
  | [] => True
  | (m, wr) :: l' =>
    let '(r, p1, w) := send_bytes p m wr in
    (r = Some (Err NetworkError) -> w ≠ [] -> (send_all_messages p1 l').2 = []) ∧ failure_is_final p1 l'
  end.

Lemma send_bytes_spec p m wr r p1 w : send_bytes p m wr = (r, p1, w) ->
  w `prefix_of` enc m ∧ (r = Some (Ok ()) -> w = enc m ∧ len m <= STEADY_STATE_FRAME_CAP ∧ p1 = p ∧ pp_stalled p = false) ∧
  (w = [] ∨ len m <= STEADY_STATE_FRAME_CAP) ∧ (pp_stalled p = true -> pp_stalled p1 = true ∧ w = [] ∧ r ≠ None ∧ r ≠ Some (Ok ())) ∧
  (r = Some (Err Timeout) -> pp_stalled p1 = true) ∧ (∀ e, r = Some (Err e) -> e = Timeout ∨ e = NetworkError ∨ w = []).
Proof.
  unfold send_bytes, enc. destruct (Z.ltb_spec STEADY_STATE_FRAME_CAP (len m)).
  { intros [= <- <- <-]. split_and!; auto using prefix_nil; try done. }
  destruct (pp_stalled p) eqn:Ep.
  { intros [= <- <- <-]. split_and!; auto using prefix_nil; try done. }
  destruct (enc_total m) as (parts & -> & _); [done|].
  destruct (write_all_making_progress parts _ _) as [o w0] eqn:E. apply write_all_takes in E as [Hp Ho].
  destruct o; intros [= <- <- <-]; split_and!; try done; auto; try (by intros e [= <-]; auto).
Qed.

Lemma stalled_sends_nothing l : ∀ p, pp_stalled p = true ->
  (send_all_messages p l).2 = [] ∧ succeeded l (send_all_messages p l).1 = [].
Proof.
  induction l as [|[m wr] l IH]; intros p Hp; cbn [send_all_messages]; [done|].
  destruct (send_bytes p m wr) as [[r p1] w] eqn:E. apply send_bytes_spec in E as (_ & _ & _ & Hst & _).
  destruct (Hst Hp) as (Hp1 & -> & Hr & Hok). destruct r as [r|]; [|done]. destruct (IH p1 Hp1) as [IH1 IH2].
  destruct (send_all_messages p1 l) as [rs w']. cbn [fst snd] in *. subst w'. split; [done|]. cbn. by destruct r as [[]|].
Qed.

(** What the writes put on the wire: the messages that were sent, whole and in order, then
    at most the beginning of one more. *)
Lemma sends_whole l : ∀ p, failure_is_final p l ->
  let '(rs, w) := send_all_messages p l in
  Forall (λ m, len m <= STEADY_STATE_FRAME_CAP) (succeeded l rs) ∧
  ∃ part, w = encs (succeeded l rs) ++ part ∧ (part = [] ∨ ∃ m, m ∈ l.*1 ∧ len m <= STEADY_STATE_FRAME_CAP ∧ part `prefix_of` enc m).
Proof.
  induction l as [|[m wr] l IH]; intros p Hf; cbn [send_all_messages].
  { split; [constructor|]. exists []. split; [done|by left]. }
  cbn [failure_is_final] in Hf. destruct (send_bytes p m wr) as [[r p1] w] eqn:E. destruct Hf as [Hio Hf].
  apply send_bytes_spec in E as (Hw & Hok & Hlen & _ & Hto & Herr).
  assert (Hpart : w = [] ∨ ∃ m', m' ∈ m :: l.*1 ∧ len m' <= STEADY_STATE_FRAME_CAP ∧ w `prefix_of` enc m').
  { destruct Hlen as [?|?]; [by left|right]. exists m. split_and!; [by left|done|done]. }
  destruct r as [r|]; [|cbn [succeeded]; rewrite succeeded_nil; split; [constructor|by exists w]].
  specialize (IH p1 Hf). pose proof (stalled_sends_nothing l p1) as Hstall. destruct (send_all_messages p1 l) as [rs w'] eqn:Es. cbn [fst snd] in *.
  destruct IH as [HF (part & -> & Hp)].
  assert (Hp' : part = [] ∨ ∃ m', m' ∈ m :: l.*1 ∧ len m' <= STEADY_STATE_FRAME_CAP ∧ part `prefix_of` enc m').
  { destruct Hp as [?|(m' & ? & ?)]; [by left|right]. exists m'. split; [by right|done]. }
  destruct r as [[]|e]; cbn [succeeded].
  - destruct (Hok eq_refl) as (-> & Hm & _). split; [by constructor|]. exists part. split; [|done]. cbn. by rewrite app_assoc.
  - destruct w as [|z w0] eqn:Ew; [cbn; split; [done|by exists part]|]. rewrite <- Ew in *.
    assert (Hrest : encs (succeeded l rs) ++ part = [] ∧ succeeded l rs = []).
    { destruct (Herr e eq_refl) as [->|[->|Hw0]]; [|split; [by apply Hio; subst|]|by subst].
      - destruct (Hstall (Hto eq_refl)) as [? ?]. done.
      - assert (E0 : encs (succeeded l rs) ++ part = []) by (apply Hio; [done|by subst]). apply app_nil in E0 as [E0 _].
        destruct (succeeded l rs) as [|x xs]; [done|]. apply Forall_cons in HF as [Hx _]. cbn in E0. apply app_nil in E0 as [E0 _].
        by apply enc_nonempty in E0. }
    destruct Hrest as [-> ->]. rewrite app_nil_r. split; [constructor|]. by exists w.
Qed.

(** Both ends together, from a receiver that already holds the bytes [b]. *)
Lemma pipe_delivers_from ph0 s b ph l pieces n :
  fr_holds ph0 s b -> phase_cap ph0 <= phase_cap ph ->
  failure_is_final (mk_pipe false) l -> Forall (fits ph) l.*1 -> Forall piece_ok pieces ->
  let '(rs, w) := send_all_messages (mk_pipe false) l in
  b ++ concat pieces `prefix_of` w -> (S (length l) < n)%nat ->
  ∃ got, recv_all n ph s pieces = (got, None) ∧
    (got `prefix_of` succeeded l rs ∨ ∃ m, m ∈ l.*1 ∧ got = succeeded l rs ++ [m]) ∧
    (b ++ concat pieces = w -> succeeded l rs `prefix_of` got).
Proof.
  intros Hh Hcap Hf Hfit Hpc. pose proof (sends_whole l (mk_pipe false) Hf) as Hs.
  assert (Hsub : Forall (fits ph) (succeeded l (send_all_messages (mk_pipe false) l).1) ∧
                 (length (succeeded l (send_all_messages (mk_pipe false) l).1) <= length l)%nat).
  { generalize (send_all_messages (mk_pipe false) l).1. clear -Hfit. intros rs. revert rs. induction l as [|[m wr] l IH]; intros [|r rs]; cbn; try (split; [constructor|lia]).
    apply Forall_cons in Hfit as [Hm Hfit]. destruct (IH Hfit rs) as [H1 H2].
    destruct r as [[[]|]|]; (split; [done || by constructor|cbn; lia]). }
  destruct (send_all_messages (mk_pipe false) l) as [rs w]. cbn [fst] in Hsub. destruct Hsub as [Hsub Hlen].
  destruct Hs as (_ & part & -> & Hpart). intros Hpre Hn. set (ms := succeeded l rs) in *.
  assert (Hmore : ∃ ms', Forall (fits ph) ms' ∧ encs ms ++ part `prefix_of` encs ms' ∧ (ms' = ms ∨ ∃ m, m ∈ l.*1 ∧ ms' = ms ++ [m]) ∧ (length ms' <= S (length ms))%nat).
  { destruct Hpart as [->|(m & Hm & _ & Hp)].
    - exists ms. rewrite app_nil_r. split_and!; [done|done|by left|lia].
    - exists (ms ++ [m]). split_and!; [|rewrite encs_app; apply prefix_app; unfold encs; cbn; by rewrite app_nil_r|right; eauto|rewrite length_app; cbn; lia].
      apply Forall_app. split; [done|]. constructor; [|constructor]. by rewrite Forall_forall in Hfit; apply Hfit. }
  destruct Hmore as (ms' & Hfit' & Hp' & Hms' & Hlen').
  destruct (recv_all_spec ph n ph0 s b ms' pieces) as (got & Eg & Hg & Hmax); [done|done|done|done|by etrans|].
  exists got. assert (Hcase : got `prefix_of` ms ∨ ∃ m, m ∈ l.*1 ∧ got = ms ++ [m]).
  { destruct Hms' as [->|(m & Hm & ->)]; [by left|]. destruct (prefix_split _ _ _ Hg) as [(b' & -> & Hb)|[Hb _]]; [|by left].
    destruct b' as [|x b']; [left; by rewrite app_nil_r|]. apply prefix_cons_inv_1 in Hb as E1; subst x. apply prefix_cons_inv_2, prefix_nil_inv in Hb as ->.
    right. eauto. }
  split_and!; [done|done|]. intros Ew. destruct Hcase as [Hg'|(m & _ & ->)]; [|by apply prefix_app_r].
  destruct Hg' as [k Ek]. destruct k as [|x k]; [rewrite app_nil_r in Ek; by rewrite Ek|]. exfalso.
  assert (Hx : got ++ [x] `prefix_of` ms) by (exists k; by rewrite <- app_assoc).
  apply (Hmax ltac:(lia) x).
  - etrans; [exact Hx|]. destruct Hms' as [->|(m & _ & ->)]; [done|by apply prefix_app_r].
  - rewrite Ew. apply prefix_app_r. destruct Hx as [k' ->]. rewrite (encs_app (got ++ [x])). by apply prefix_app_r.
Qed.

Lemma pipe_delivers ph l pieces n :
  failure_is_final (mk_pipe false) l -> Forall (fits ph) l.*1 -> Forall piece_ok pieces ->
  let '(rs, w) := send_all_messages (mk_pipe false) l in
  concat pieces `prefix_of` w -> (S (length l) < n)%nat ->
  ∃ got, recv_all n ph fr_new pieces = (got, None) ∧
    (got `prefix_of` succeeded l rs ∨ ∃ m, m ∈ l.*1 ∧ got = succeeded l rs ++ [m]) ∧
    (concat pieces = w -> succeeded l rs `prefix_of` got).
Proof. apply (pipe_delivers_from PhaseHandshake fr_new []); [apply hold_new|by destruct ph]. Qed.

End Sending.

(** ** The TCP transport *)

Module Tcp.

Record TcpRecv := mk_tcp { frame_cap : Z; arrived : list Z }.

Definition tcp_new : TcpRecv := mk_tcp HANDSHAKE_FRAME_CAP [].
Definition set_frame_phase (s : TcpRecv) (ph : FramePhase) : TcpRecv := mk_tcp (phase_cap ph) (arrived s).
Definition tcp_push (s : TcpRecv) (d : list Z) : TcpRecv := mk_tcp (frame_cap s) (arrived s ++ d).

(** The body, read in pieces of at most [RECV_CHUNK]; [None] while one is incomplete.
    Every pass reads at least one byte, so [need] passes are enough. *)
Fixpoint read_body (fuel need : nat) (bytes : list Z) : option (list Z * list Z) :=
  match need, fuel with
  | O, _ => Some ([], bytes)
  | S _, O => None
  | S _, S fuel' =>
    let chunk := Nat.min need RECV_CHUNK in
    if (length bytes <? chunk)%nat then None
    else '(body, rest) ← read_body fuel' (need - chunk) (drop chunk bytes); Some (take chunk bytes ++ body, rest)
  end.

(** One [recv_bytes] over what has arrived: the length first, refused above the cap
    before any of the body is read. *)
Definition tcp_next (s : TcpRecv) : result (option (list Z)) CoreError * TcpRecv :=
  if (length (arrived s) <? 4)%nat then (Ok None, s)
  else
    let n := be_decode (take 4 (arrived s)) in
    if frame_cap s <? n then (Err NetworkError, s)
    else match read_body (Z.to_nat n) (Z.to_nat n) (drop 4 (arrived s)) with
    | None => (Ok None, s)
    | Some (m, rest) => (Ok (Some m), mk_tcp (frame_cap s) rest)
    end.

(** The two parts of a frame, written one after the other. *)
Definition tcp_parts (m : list Z) : result (list (list Z)) CoreError := Ok [be_encode 4 (wrap 32 (len m)); m].

#[export] Instance tcp_framing : Framing := {|
  fr_state := TcpRecv;
  fr_new := tcp_new;
  fr_set_phase := set_frame_phase;
  fr_push := tcp_push;
  fr_next := tcp_next;
  fr_parts := tcp_parts;
  fr_eof := NetworkError;
|}.

Lemma read_body_spec fuel : ∀ need bytes, (need <= fuel)%nat ->
  read_body fuel need bytes = if (length bytes <? need)%nat then None else Some (take need bytes, drop need bytes).
Proof.
  induction fuel as [|fuel IH]; intros [|need] bytes Hf; cbn [read_body]; try done; [lia|].
  assert (Hc : (1 <= RECV_CHUNK)%nat) by (unfold RECV_CHUNK; lia). set (chunk := Nat.min (S need) RECV_CHUNK).
  assert (Hn : (1 <= chunk <= S need)%nat) by (unfold chunk; lia). clearbody chunk.
  destruct (Nat.ltb_spec (length bytes) chunk).
  { destruct (Nat.ltb_spec (length bytes) (S need)); [done|lia]. }
  rewrite IH by lia. rewrite length_drop.
  destruct (Nat.ltb_spec (length bytes - chunk) (S need - chunk)), (Nat.ltb_spec (length bytes) (S need)); try lia; [done|].
  cbn [mbind option_bind]. rewrite drop_drop. f_equal. f_equal; [|f_equal; lia].
  rewrite <- (take_drop chunk (take (S need) bytes)) at 1. rewrite take_take, skipn_firstn_comm. f_equal; f_equal; lia.
Qed.

Lemma tcp_enc m : enc m = be_encode 4 (wrap 32 (len m)) ++ m.
Proof. unfold enc. cbn. by rewrite app_nil_r. Qed.

Lemma cap_width ph (m : list Z) : len m <= phase_cap ph -> wrap 32 (len m) = len m ∧ be_decode (be_encode 4 (len m)) = len m.
Proof.
  intros Hm. pose proof (phase_cap_steady ph) as Hc. unfold STEADY_STATE_FRAME_CAP in Hc. pose proof (len_nonneg m).
  split; [apply wrap_small; unfold in_u; lia|]. apply be_decode_encode. lia.
Qed.

(** The header is complete. *)
Lemma header_of m b : len m < 2 ^ 32 -> b `prefix_of` enc m -> (4 <= length b)%nat ->
  ∃ b', b = be_encode 4 (len m) ++ b' ∧ b' `prefix_of` m.
Proof.
  intros Hm Hp Hb. pose proof (len_nonneg m). rewrite tcp_enc, wrap_small in Hp by (unfold in_u; lia).
  destruct (prefix_split _ _ _ Hp) as [?|[Hp' Hne]]; [done|].
  apply prefix_length_eq in Hp' as ->; [done|by rewrite be_encode_length].
Qed.

#[export] Instance tcp_laws : FramingLaws.
Proof.
  refine {| fr_holds ph s b := frame_cap s = phase_cap ph ∧ arrived s = b |}.
  - intros m Hm. by eexists.
  - done.
  - intros ph ph' s b [_ <-] _. done.
  - intros ph s b d m [Hc <-] _ _ _ _. done.
  - intros ph s m ms b [Hc Ha] Hfit _. apply Forall_cons in Hfit as [Hm _]. destruct (cap_width ph m Hm) as [Hw Hd].
    cbn [fr_next tcp_framing]. unfold tcp_next. rewrite Ha, tcp_enc, Hw, <- app_assoc, take_app_length', drop_app_length' by (by rewrite be_encode_length).
    destruct (Nat.ltb_spec (length (be_encode 4 (len m) ++ m ++ b)) 4) as [Hl|_]; [rewrite length_app, be_encode_length in Hl; lia|].
    rewrite Hd, Hc. destruct (Z.ltb_spec (phase_cap ph) (len m)); [lia|]. rewrite read_body_spec by lia. unfold len. rewrite Nat2Z.id.
    destruct (Nat.ltb_spec (length (m ++ b)) (length m)) as [Hl|_]; [rewrite length_app in Hl; lia|].
    rewrite take_app_length, drop_app_length. by eexists.
  - intros ph s m b [Hc Ha] Hm Hp Hne. destruct (cap_width ph m Hm) as [Hw Hd]. exists s. split; [|done].
    cbn [fr_next tcp_framing]. unfold tcp_next. rewrite Ha. destruct (Nat.ltb_spec (length b) 4) as [|Hb]; [done|].
    destruct (header_of m b) as (b' & -> & Hb'); [pose proof (phase_cap_steady ph); unfold STEADY_STATE_FRAME_CAP in *; lia|done|done|].
    rewrite take_app_length', drop_app_length' by (by rewrite be_encode_length). rewrite Hd, Hc.
    destruct (Z.ltb_spec (phase_cap ph) (len m)); [lia|]. rewrite read_body_spec by lia. unfold len. rewrite Nat2Z.id.
    destruct (Nat.ltb_spec (length b') (length m)) as [|Hl]; [done|]. destruct Hne. rewrite tcp_enc, Hw.
    f_equal. by apply prefix_length_eq.
Qed.



End Tcp.
