(* ===== verification/TlsRecords.v ===== *)
(** * The record framing of the mimicry leg ([core/src/transport/legs/mimic_tls/record.rs],
      [theater.rs], [leg.rs])

    Messages travel inside TLS ApplicationData records: a length prefix per message makes
    a byte stream, the stream is cut into chunks, and each chunk goes into one record
    behind its own length; the rest of a record is padding.  The receiving side is a
    state machine over the bytes of the socket with bounds on what it buffers.  Its
    delivery is the instance of [Framing] for ByteStream.v. *)

From Stdlib Require Import ZArith Lia.
From stdpp Require Import base numbers option list relations.
From S2P Require Import Prelude Errors UdpTransport ByteStream.

Local Open Scope phantom_scope.
Local Open Scope Z_scope.

Definition CT_CHANGE_CIPHER_SPEC : Z := 20.
Definition CT_HANDSHAKE : Z := 22.
Definition CT_APPLICATION_DATA : Z := 23.
Definition VER_TLS10 : Z := 769.
Definition VER_TLS12 : Z := 771.
Definition TLS_RECORD_HEADER_LEN : nat := 5.
Definition MAX_RECORD_FRAGMENT : Z := 16384.
Definition MAX_RECORD_FRAGMENT_WIRE : Z := MAX_RECORD_FRAGMENT + 256.
Definition INNER_CHUNK_HEADER_LEN : nat := 2.
Definition STREAM_SLACK : Z := 256 * 1024.
Definition MAX_CONSECUTIVE_EMPTY : Z := 64.
Definition MAX_STREAM_CHUNK : Z := MAX_RECORD_FRAGMENT - Z.of_nat INNER_CHUNK_HEADER_LEN.

(** ** Sending *)

(** The bytes [encode_record] appends. *)
Definition encode_record (content_type version : Z) (fragment : list Z) : result (list Z) CoreError :=
  if MAX_RECORD_FRAGMENT_WIRE <? len fragment then Err NetworkError
  else Ok ([content_type] ++ be_encode 2 version ++ be_encode 2 (wrap 16 (len fragment)) ++ fragment).

Fixpoint frame_chunks (cs : list (list Z)) : result (list Z) CoreError :=
  match cs with
  | [] => Ok []
  | c :: cs' =>
    rec <-? encode_record CT_APPLICATION_DATA VER_TLS12 (be_encode 2 (wrap 16 (len c)) ++ c);
    rest <-? frame_chunks cs';
    Ok (rec ++ rest)
  end.

Definition frame_message (message : list Z) : result (list Z) CoreError :=
  if u_max 32 <? len message then Err NetworkError
  else frame_chunks (chunks (Z.to_nat MAX_STREAM_CHUNK) (be_encode 4 (len message) ++ message)).

(** ** Receiving *)

Record RecordDeframer := mk_deframer { wire : list Z; stream : list Z; cap : Z; consecutive_empty : Z }.

Definition deframer_new : RecordDeframer := mk_deframer [] [] HANDSHAKE_FRAME_CAP 0.
Definition set_phase (d : RecordDeframer) (ph : FramePhase) : RecordDeframer :=
  mk_deframer (wire d) (stream d) (phase_cap ph) (consecutive_empty d).
Definition push (d : RecordDeframer) (data : list Z) : RecordDeframer :=
  mk_deframer (wire d ++ data) (stream d) (cap d) (consecutive_empty d).

Definition note_empty (d : RecordDeframer) : result () CoreError * RecordDeframer :=
  let d1 := mk_deframer (wire d) (stream d) (cap d) (consecutive_empty d + 1) in
  (if MAX_CONSECUTIVE_EMPTY <? consecutive_empty d1 then Err NetworkError else Ok (), d1).

(** The length a record header declares. *)
Definition declared (l : list Z) : Z := be_decode (slice 3 5 l).

(** What one fragment does, once it is cut off the wire. *)
Definition take_fragment (d : RecordDeframer) (fragment : list Z) : result () CoreError * RecordDeframer :=
  if (length fragment =? 0)%nat then note_empty d
  else if (length fragment <? INNER_CHUNK_HEADER_LEN)%nat then (Err NetworkError, d)
  else
    let chunk_len := be_decode (take 2 fragment) in
    if len fragment - Z.of_nat INNER_CHUNK_HEADER_LEN <? chunk_len then (Err NetworkError, d)
    else if chunk_len =? 0 then note_empty d
    else
      let chunk := take (Z.to_nat chunk_len) (drop INNER_CHUNK_HEADER_LEN fragment) in
      let d1 := mk_deframer (wire d) (stream d ++ chunk) (cap d) 0 in
      (if cap d1 + STREAM_SLACK <? len (stream d1) then Err NetworkError else Ok (), d1).

(** The loop of [drain_records].  Every pass takes a record off the wire, so the length
    of the wire is enough fuel. *)
Fixpoint drain_loop (fuel : nat) (d : RecordDeframer) : result () CoreError * RecordDeframer :=
  match fuel with
  | O => (Ok (), d)
  | S fuel' =>
    if (length (wire d) <? TLS_RECORD_HEADER_LEN)%nat then (Ok (), d)
    else
      let frag_len := declared (wire d) in
      if MAX_RECORD_FRAGMENT_WIRE <? frag_len then (Err NetworkError, d)
      else if negb (nth 0 (wire d) 0 =? CT_APPLICATION_DATA) then (Err NetworkError, d)
      else if len (wire d) <? Z.of_nat TLS_RECORD_HEADER_LEN + frag_len then (Ok (), d)
      else
        let body := drop TLS_RECORD_HEADER_LEN (wire d) in
        let d1 := mk_deframer (drop (Z.to_nat frag_len) body) (stream d) (cap d) (consecutive_empty d) in
        match take_fragment d1 (take (Z.to_nat frag_len) body) with
        | (Err e, d2) => (Err e, d2)
        | (Ok _, d2) => drain_loop fuel' d2
        end
  end.

Definition drain_records (d : RecordDeframer) : result () CoreError * RecordDeframer := drain_loop (length (wire d)) d.

Definition next_message (d : RecordDeframer) : result (option (list Z)) CoreError * RecordDeframer :=
  match drain_records d with
  | (Err e, d1) => (Err e, d1)
  | (Ok _, d1) =>
    if (length (stream d1) <? 4)%nat then (Ok None, d1)
    else
      let msg_len := be_decode (take 4 (stream d1)) in
      if cap d1 <? msg_len then (Err NetworkError, d1)
      else if len (stream d1) <? 4 + msg_len then (Ok None, d1)
      else
        let body := drop 4 (stream d1) in
        (Ok (Some (take (Z.to_nat msg_len) body)),
         mk_deframer (wire d1) (drop (Z.to_nat msg_len) body) (cap d1) (consecutive_empty d1))
  end.

#[export] Instance record_framing : Framing := {|
  fr_state := RecordDeframer;
  fr_new := deframer_new;
  fr_set_phase := set_phase;
  fr_push := push;
  fr_next := next_message;
  fr_parts m := bytes <-? frame_message m; Ok [bytes];
  fr_eof := ConnectionClosed;
|}.

(** ** Records *)

(** The record that carries the chunk [c]. *)
Definition record_of (c : list Z) : list Z :=
  [CT_APPLICATION_DATA] ++ be_encode 2 VER_TLS12 ++ be_encode 2 (len c + 2) ++ be_encode 2 (len c) ++ c.
Definition records (cs : list (list Z)) : list Z := cs ≫= record_of.

Definition chunk_ok (c : list Z) : Prop := 0 < len c <= MAX_STREAM_CHUNK.

Definition chunks_of (m : list Z) : list (list Z) := chunks (Z.to_nat MAX_STREAM_CHUNK) (be_encode 4 (len m) ++ m).

Lemma records_app l1 l2 : records (l1 ++ l2) = records l1 ++ records l2.
Proof. apply bind_app. Qed.

Lemma record_length c : length (record_of c) = (7 + length c)%nat.
Proof. unfold record_of. rewrite !length_app, !be_encode_length. done. Qed.

Lemma frame_chunks_ok cs : Forall chunk_ok cs -> frame_chunks cs = Ok (records cs).
Proof.
  induction 1 as [|c cs [H1 H2] HF IH]; [done|]. cbn [frame_chunks]. unfold MAX_STREAM_CHUNK, MAX_RECORD_FRAGMENT, INNER_CHUNK_HEADER_LEN in *.
  assert (Hl : ∀ x, len (be_encode 2 x ++ c) = len c + 2) by (intros x; rewrite len_app; unfold len; rewrite be_encode_length; lia).
  unfold encode_record. rewrite Hl, IH, !wrap_small by (unfold in_u; lia).
  destruct (Z.ltb_spec MAX_RECORD_FRAGMENT_WIRE (len c + 2)) as [Hx|_]; [unfold MAX_RECORD_FRAGMENT_WIRE, MAX_RECORD_FRAGMENT in Hx; lia|].
  done.
Qed.

Lemma chunks_fuel_nonempty {A} fuel n (l : list A) : (0 < n)%nat -> Forall (λ c, c ≠ []) (chunks_fuel fuel n l).
Proof.
  intros Hn. revert l. induction fuel as [|fuel IH]; intros l; cbn; [constructor|]. destruct l as [|x l]; constructor; [|apply IH].
  by destruct n as [|n]; [lia|].
Qed.

Lemma chunk_size_pos : (0 < Z.to_nat MAX_STREAM_CHUNK)%nat.
Proof. unfold MAX_STREAM_CHUNK, MAX_RECORD_FRAGMENT, INNER_CHUNK_HEADER_LEN. lia. Qed.

Lemma chunks_of_ok m : Forall chunk_ok (chunks_of m).
Proof.
  unfold chunks_of, chunks, chunk_ok. apply Forall_and. split.
  - eapply Forall_impl; [apply chunks_fuel_nonempty, chunk_size_pos|].
    intros [|x c] Hc; [done|]. unfold len. cbn [length]. lia.
  - eapply Forall_impl; [apply chunks_fuel_bound|]. intros c Hc. unfold len, MAX_STREAM_CHUNK, MAX_RECORD_FRAGMENT, INNER_CHUNK_HEADER_LEN in *. lia.
Qed.

Lemma chunks_of_concat m : concat (chunks_of m) = be_encode 4 (len m) ++ m.
Proof. apply chunks_concat, chunk_size_pos. Qed.

Lemma record_enc ph m : len m <= phase_cap ph -> fr_parts m = Ok [records (chunks_of m)] ∧ enc m = records (chunks_of m).
Proof.
  intros Hm. assert (E : fr_parts m = Ok [records (chunks_of m)]).
  { cbn. unfold frame_message. pose proof (phase_cap_steady ph). unfold STEADY_STATE_FRAME_CAP in *.
    destruct (Z.ltb_spec (u_max 32) (len m)) as [Hx|_]; [unfold u_max in Hx; lia|]. fold (chunks_of m).
    by rewrite (frame_chunks_ok _ (chunks_of_ok m)). }
  split; [done|]. unfold enc. rewrite E. cbn. by rewrite app_nil_r.
Qed.

Lemma encs_records ph ms : Forall (λ m, len m <= phase_cap ph) ms -> encs ms = records (ms ≫= chunks_of).
Proof.
  induction 1 as [|m ms Hm HF IH]; [done|].
  change (encs (m :: ms)) with (enc m ++ encs ms). change ((m :: ms) ≫= chunks_of) with (chunks_of m ++ (ms ≫= chunks_of)).
  rewrite records_app, IH. f_equal. by apply (record_enc ph).
Qed.

(** Any record with its five bytes of header. *)
Definition tls_record (content_type version : Z) (fragment : list Z) : list Z :=
  [content_type] ++ be_encode 2 version ++ be_encode 2 (len fragment) ++ fragment.

Lemma tls_record_length t v f : length (tls_record t v f) = (5 + length f)%nat.
Proof. unfold tls_record. rewrite !length_app, !be_encode_length. done. Qed.

Lemma encode_record_ok t v f : len f <= MAX_RECORD_FRAGMENT_WIRE -> encode_record t v f = Ok (tls_record t v f).
Proof.
  intros Hf. unfold encode_record. destruct (Z.ltb_spec MAX_RECORD_FRAGMENT_WIRE (len f)); [lia|].
  rewrite wrap_small; [done|]. pose proof (len_nonneg f). unfold MAX_RECORD_FRAGMENT_WIRE, MAX_RECORD_FRAGMENT, in_u in *. lia.
Qed.

(** A record is read back: its type, its length, its fragment. *)
Lemma tls_record_header t v f l : len f < 2 ^ 16 ->
  nth 0 (tls_record t v f ++ l) 0 = t ∧ declared (tls_record t v f ++ l) = len f ∧ drop TLS_RECORD_HEADER_LEN (tls_record t v f ++ l) = f ++ l.
Proof.
  intros Hf. assert (Hs : ∀ a b : list Z, length a = 3%nat -> length b = 2%nat -> ∀ t, slice 3 5 (a ++ b ++ t) = b ∧ drop 5 (a ++ b ++ t) = t).
  { intros a b Ha Hb u. unfold slice. split.
    - by rewrite (drop_app_length' a) by done; rewrite take_app_length' by (cbn; lia).
    - rewrite app_assoc. apply drop_app_length'. rewrite length_app. lia. }
  split; [done|]. unfold tls_record, declared. change TLS_RECORD_HEADER_LEN with 5%nat.
  replace (([t] ++ be_encode 2 v ++ be_encode 2 (len f) ++ f) ++ l) with (([t] ++ be_encode 2 v) ++ be_encode 2 (len f) ++ (f ++ l)) by (by rewrite <- !app_assoc).
  destruct (Hs ([t] ++ be_encode 2 v) (be_encode 2 (len f)) eq_refl (be_encode_length 2 _) (f ++ l)) as [-> ->].
  split; [|done]. pose proof (len_nonneg f). apply be_decode_encode. lia.
Qed.

(** The header of a record that has begun is the header of the record. *)
Lemma tls_record_begun t v f w : len f < 2 ^ 16 -> w `prefix_of` tls_record t v f -> (TLS_RECORD_HEADER_LEN <= length w)%nat ->
  nth 0 w 0 = t ∧ declared w = len f.
Proof.
  intros Hf [k Ek] Hw. destruct (tls_record_header t v f [] Hf) as (H1 & H2 & _). rewrite app_nil_r, Ek in H1, H2. unfold TLS_RECORD_HEADER_LEN in Hw.
  rewrite app_nth1 in H1 by lia. split; [done|]. rewrite <- H2. unfold declared, slice.
  rewrite drop_app_le, take_app_le by (rewrite ?length_drop; lia). done.
Qed.

Lemma record_of_tls c : record_of c = tls_record CT_APPLICATION_DATA VER_TLS12 (be_encode 2 (len c) ++ c) ∧ len (be_encode 2 (len c) ++ c) = len c + 2.
Proof.
  assert (El : len (be_encode 2 (len c) ++ c) = len c + 2) by (unfold len; rewrite length_app, be_encode_length; lia).
  split; [|done]. unfold record_of, tls_record. by rewrite El.
Qed.

Lemma record_header c l : chunk_ok c ->
  nth 0 (record_of c ++ l) 0 = CT_APPLICATION_DATA ∧ declared (record_of c ++ l) = len c + 2 ∧
  drop TLS_RECORD_HEADER_LEN (record_of c ++ l) = be_encode 2 (len c) ++ c ++ l.
Proof.
  intros [H1 H2]. unfold MAX_STREAM_CHUNK, MAX_RECORD_FRAGMENT, INNER_CHUNK_HEADER_LEN in *. destruct (record_of_tls c) as [-> El].
  rewrite app_assoc, <- El. apply tls_record_header. lia.
Qed.

(** Records are read back one way only. *)
Lemma record_prefix c d l l' : chunk_ok c -> chunk_ok d -> record_of c ++ l = record_of d ++ l' -> c = d ∧ l = l'.
Proof.
  intros Hc Hd E. destruct (record_header c l Hc) as (_ & Ec & Bc). destruct (record_header d l' Hd) as (_ & Ed & Bd).
  rewrite E, Ed in Ec. rewrite E, Bd in Bc. assert (El : len c = len d) by lia. rewrite El in Bc.
  apply app_inj_1 in Bc as [_ Bc]; [|done]. apply app_inj_1 in Bc as [-> ->]; [done|]. unfold len in El. lia.
Qed.

Lemma records_split cs : ∀ L w,
  Forall chunk_ok cs -> Forall chunk_ok L -> records cs ++ w `prefix_of` records L -> ∃ L', L = cs ++ L' ∧ w `prefix_of` records L'.
Proof.
  induction cs as [|c cs IH]; intros L w Hcs HL Hp; [by exists L|].
  apply Forall_cons in Hcs as [Hc Hcs]. change (records (c :: cs)) with (record_of c ++ records cs) in Hp. destruct L as [|d L].
  { apply prefix_nil_inv in Hp. apply (f_equal length) in Hp. rewrite !length_app, record_length in Hp. cbn in Hp. lia. }
  apply Forall_cons in HL as [Hd HL]. destruct Hp as [k Ek]. change (records (d :: L)) with (record_of d ++ records L) in Ek.
  rewrite <- !app_assoc in Ek. apply record_prefix in Ek as [-> Ek]; [|done|done].
  destruct (IH L w Hcs HL) as (L' & -> & Hw); [exists k; by rewrite Ek, app_assoc|]. by exists L'.
Qed.

Lemma record_begun c w : chunk_ok c -> w `prefix_of` record_of c -> (TLS_RECORD_HEADER_LEN <= length w)%nat ->
  nth 0 w 0 = CT_APPLICATION_DATA ∧ declared w = len c + 2.
Proof.
  intros [H1 H2]. unfold MAX_STREAM_CHUNK, MAX_RECORD_FRAGMENT, INNER_CHUNK_HEADER_LEN in *. destruct (record_of_tls c) as [-> El].
  rewrite <- El. apply tls_record_begun. lia.
Qed.

Lemma take_chunk d c : chunk_ok c -> len (stream d) + len c <= cap d + STREAM_SLACK ->
  take_fragment d (be_encode 2 (len c) ++ c) = (Ok (), mk_deframer (wire d) (stream d ++ c) (cap d) 0).
Proof.
  intros [H1 H2] Hfit. unfold MAX_STREAM_CHUNK, MAX_RECORD_FRAGMENT, INNER_CHUNK_HEADER_LEN in *. unfold take_fragment.
  assert (El : length (be_encode 2 (len c) ++ c) = (2 + length c)%nat) by (by rewrite length_app, be_encode_length).
  rewrite El. destruct (Nat.eqb_spec (2 + length c) 0); [lia|]. destruct (Nat.ltb_spec (2 + length c) INNER_CHUNK_HEADER_LEN); [unfold INNER_CHUNK_HEADER_LEN in *; lia|].
  rewrite take_app_length' by (by rewrite be_encode_length). rewrite be_decode_encode by lia.
  assert (Elz : len (be_encode 2 (len c) ++ c) = 2 + len c) by (unfold len at 1; rewrite El; unfold len; lia). rewrite Elz. unfold INNER_CHUNK_HEADER_LEN.
  destruct (Z.ltb_spec (2 + len c - Z.of_nat 2) (len c)); [lia|]. destruct (Z.eqb_spec (len c) 0); [lia|].
  rewrite drop_app_length' by (by rewrite be_encode_length). rewrite (take_ge c) by (unfold len; lia). cbn [cap stream].
  rewrite len_app. destruct (Z.ltb_spec (cap d + STREAM_SLACK) (len (stream d) + len c)); [lia|done].
Qed.

(** Every whole record is moved, and nothing of the one that has only begun. *)
Lemma drain_loop_spec L : ∀ fuel d,
  Forall chunk_ok L -> wire d `prefix_of` records L -> (length (wire d) <= fuel)%nat -> consecutive_empty d = 0 ->
  len (stream d) + len (wire d) <= cap d + STREAM_SLACK ->
  ∃ L1 L2 w, L = L1 ++ L2 ∧ wire d = records L1 ++ w ∧ drain_loop fuel d = (Ok (), mk_deframer w (stream d ++ concat L1) (cap d) 0) ∧
    w `prefix_of` records L2 ∧ ∀ c k, L2 = c :: k -> (length w < length (record_of c))%nat.
Proof.
  induction L as [|c L IH]; intros fuel [w s cp ce] HL Hp Hf He Hfit; cbn [wire stream cap consecutive_empty] in *; subst ce.
  { apply prefix_nil_inv in Hp as ->. exists [], [], []. cbn [records concat]. split_and!; try done. rewrite app_nil_r. by destruct fuel. }
  apply Forall_cons in HL as [Hc HL]. change (records (c :: L)) with (record_of c ++ records L) in Hp.
  destruct (prefix_split _ _ _ Hp) as [(b & -> & Hb)|[Hw Hne]].
  - destruct (record_header c b Hc) as (E1 & E2 & E3). pose proof Hc as [Hc1 Hc2].
    assert (El : length (record_of c ++ b) = (7 + length c + length b)%nat) by (by rewrite length_app, record_length).
    destruct fuel as [|fuel]; [rewrite El in Hf; lia|]. cbn [drain_loop wire stream cap consecutive_empty]. rewrite E1, E2, E3, El.
    unfold MAX_STREAM_CHUNK, MAX_RECORD_FRAGMENT_WIRE, MAX_RECORD_FRAGMENT, INNER_CHUNK_HEADER_LEN, TLS_RECORD_HEADER_LEN in *.
    destruct (Nat.ltb_spec (7 + length c + length b) 5); [lia|]. destruct (Z.ltb_spec (16384 + 256) (len c + 2)); [lia|].
    rewrite Z.eqb_refl. cbn [negb]. assert (Elz : len (record_of c ++ b) = 7 + len c + len b) by (unfold len; lia).
    pose proof (len_nonneg b). destruct (Z.ltb_spec (len (record_of c ++ b)) (Z.of_nat 5 + (len c + 2))); [lia|].
    rewrite app_assoc, take_app_length', drop_app_length' by (rewrite length_app, be_encode_length; unfold len; lia).
    rewrite take_chunk by (done || cbn; lia). cbn [wire stream cap].
    destruct (IH fuel (mk_deframer b (s ++ c) cp 0)) as (L1 & L2 & w & -> & Ew & -> & Hw & Hlt); cbn [wire stream cap consecutive_empty] in *;
      [done|done|lia|done|rewrite len_app; lia|].
    exists (c :: L1), L2, w. subst b. cbn [concat records]. rewrite !app_assoc. split_and!; done.
  - exists [], (c :: L), w. cbn [concat]. rewrite (app_nil_r s).
    assert (Hlt : (length w < length (record_of c))%nat).
    { pose proof (prefix_length _ _ Hw). destruct (decide (length w = length (record_of c))) as [E|]; [|lia]. destruct Hne. by apply prefix_length_eq; [|lia]. }
    split_and!; try done; [|by intros ? ? [= <- <-]].
    destruct fuel as [|fuel]; [done|]. cbn [drain_loop wire]. destruct (Nat.ltb_spec (length w) TLS_RECORD_HEADER_LEN) as [|H5]; [done|].
    destruct (record_begun c w Hc Hw H5) as [-> ->]. pose proof Hc as [Hc1 Hc2]. rewrite record_length in Hlt.
    unfold MAX_STREAM_CHUNK, MAX_RECORD_FRAGMENT_WIRE, MAX_RECORD_FRAGMENT, INNER_CHUNK_HEADER_LEN, TLS_RECORD_HEADER_LEN in *.
    destruct (Z.ltb_spec (16384 + 256) (len c + 2)); [lia|]. rewrite Z.eqb_refl. cbn [negb].
    destruct (Z.ltb_spec (len w) (Z.of_nat 5 + (len c + 2))) as [|Hx]; [done|]. unfold len in Hx. lia.
Qed.

(** The overhead of the framing stays far below the slack of the buffer. *)
Lemma records_length cs : len (records cs) = 7 * len cs + len (concat cs).
Proof.
  induction cs as [|c cs IH]; [done|]. change (records (c :: cs)) with (record_of c ++ records cs). cbn [concat].
  rewrite !len_app, IH. unfold len. rewrite record_length. cbn [length]. lia.
Qed.

Lemma enc_size ph m : len m <= phase_cap ph -> len (enc m) <= phase_cap ph + 4096.
Proof.
  intros Hm. destruct (record_enc ph m Hm) as [_ ->]. rewrite records_length, chunks_of_concat, len_app.
  unfold chunks_of. rewrite chunks_length by apply chunk_size_pos. rewrite len_app.
  assert (E4 : len (be_encode 4 (len m)) = 4) by (unfold len; by rewrite be_encode_length). rewrite E4.
  pose proof (len_nonneg m). pose proof (phase_cap_steady ph). unfold STEADY_STATE_FRAME_CAP in *.
  assert (Hd : div_ceil (4 + len m) (Z.of_nat (Z.to_nat MAX_STREAM_CHUNK)) <= 257); [|lia].
  change (Z.of_nat (Z.to_nat MAX_STREAM_CHUNK)) with 16382.
  transitivity (div_ceil 4194308 16382); [|done]. unfold div_ceil. apply Z.div_le_mono; lia.
Qed.

(** The chunks moved into the stream, and the bytes still on the wire. *)
Definition holds (ph : FramePhase) (d : RecordDeframer) (b : list Z) : Prop :=
  cap d = phase_cap ph ∧ consecutive_empty d = 0 ∧ len b <= phase_cap ph + STREAM_SLACK ∧
  ∃ cs, Forall chunk_ok cs ∧ b = records cs ++ wire d ∧ stream d = concat cs.

(** What parsing leaves, for bytes that begin the records [L]. *)
Lemma drain_holds ph d b L : holds ph d b -> Forall chunk_ok L -> b `prefix_of` records L ->
  ∃ cs L2 w, L = cs ++ L2 ∧ b = records cs ++ w ∧ drain_records d = (Ok (), mk_deframer w (concat cs) (phase_cap ph) 0) ∧
    w `prefix_of` records L2 ∧ ∀ c k, L2 = c :: k -> (length w < length (record_of c))%nat.
Proof.
  intros (Hc & He & Hl & cs & Hcs & -> & Hs) HL Hp. destruct (records_split cs L (wire d) Hcs HL Hp) as (L' & -> & Hw).
  apply Forall_app in HL as [_ HL]. rewrite len_app, records_length in Hl. pose proof (len_nonneg cs).
  destruct (drain_loop_spec L' (length (wire d)) d HL Hw) as (L1 & L2 & w & -> & Ew & Ed & Hw' & Hlt); [done|done|rewrite Hs, Hc; lia|].
  exists (cs ++ L1), L2, w. rewrite records_app, concat_app, <- !app_assoc, <- Ew, <- Hs, <- Hc. done.
Qed.

Lemma holds_intro ph cs w b : len b <= phase_cap ph + STREAM_SLACK -> Forall chunk_ok cs -> b = records cs ++ w ->
  holds ph (mk_deframer w (concat cs) (phase_cap ph) 0) b.
Proof. intros. split_and!; [done..|]. by exists cs. Qed.

Lemma message_chunks_ok ms : Forall chunk_ok (ms ≫= chunks_of).
Proof. induction ms as [|m ms IH]; [constructor|]. apply Forall_app. split; [apply chunks_of_ok|done]. Qed.

(** The message at the head of the stream. *)
Lemma message_at_head ph m rest : len m <= phase_cap ph ->
  (4 <= length ((be_encode 4 (len m) ++ m) ++ rest))%nat ∧ be_decode (take 4 ((be_encode 4 (len m) ++ m) ++ rest)) = len m ∧
  drop 4 ((be_encode 4 (len m) ++ m) ++ rest) = m ++ rest.
Proof.
  intros Hm. rewrite <- app_assoc. rewrite length_app, be_encode_length, take_app_length', drop_app_length' by (by rewrite be_encode_length).
  split_and!; [lia| |done]. by apply (Tcp.cap_width ph).
Qed.

Lemma next_whole ph d m ms b : holds ph d (enc m ++ b) -> Forall (λ m, len m <= phase_cap ph) (m :: ms) -> b `prefix_of` encs ms ->
  ∃ d', next_message d = (Ok (Some m), d') ∧ holds ph d' b.
Proof.
  intros Hh Hfit Hb. pose proof Hh as (_ & _ & Hlen & _). apply Forall_cons in Hfit as [Hm Hms]. destruct (record_enc ph m Hm) as [_ Em].
  rewrite (encs_records ph ms Hms) in Hb. rewrite Em in Hh, Hlen.
  destruct (drain_holds ph d _ (chunks_of m ++ (ms ≫= chunks_of)) Hh) as (cs & L2 & w & EL & Eb & Ed & Hw & Hlt).
  { apply Forall_app. split; [apply chunks_of_ok|apply message_chunks_ok]. }
  { rewrite records_app. by apply prefix_app. }
  assert (Hcs : ∃ k, cs = chunks_of m ++ k).
  { destruct (prefix_weak_total (chunks_of m) cs (cs ++ L2)) as [[k ->]|[k Ek]]; [rewrite <- EL; by apply prefix_app_r|by apply prefix_app_r|by exists k|].
    destruct k as [|c k]; [exists []; by rewrite Ek, !app_nil_r|]. exfalso.
    rewrite Ek, <- app_assoc in EL. apply app_inv_head in EL. rewrite Ek, records_app, <- app_assoc in Eb. apply app_inv_head in Eb.
    specialize (Hlt c _ (eq_sym EL)). rewrite <- Eb in Hlt. change (records (c :: k)) with (record_of c ++ records k) in Hlt. rewrite !length_app in Hlt. lia. }
  destruct Hcs as [k ->]. rewrite records_app, <- app_assoc in Eb. apply app_inv_head in Eb. rewrite concat_app, chunks_of_concat in Ed.
  destruct (message_at_head ph m (concat k) Hm) as (H4 & Hd & Hdrop). unfold next_message. rewrite Ed. cbn [stream cap wire consecutive_empty].
  destruct (Nat.ltb_spec (length ((be_encode 4 (len m) ++ m) ++ concat k)) 4); [lia|]. rewrite Hd, Hdrop.
  destruct (Z.ltb_spec (phase_cap ph) (len m)); [lia|].
  destruct (Z.ltb_spec (len ((be_encode 4 (len m) ++ m) ++ concat k)) (4 + len m)) as [Hx|_].
  { unfold len in Hx. rewrite !length_app, be_encode_length in Hx. lia. }
  rewrite take_app_length', drop_app_length' by (unfold len; lia). eexists. split; [done|].
  apply holds_intro; [rewrite len_app in Hlen; pose proof (len_nonneg (records (chunks_of m))); lia| |done].
  assert (Hall : Forall chunk_ok (chunks_of m ++ (ms ≫= chunks_of))) by (apply Forall_app; split; [apply chunks_of_ok|apply message_chunks_ok]).
  rewrite EL, !Forall_app in Hall. tauto.
Qed.

Lemma next_part ph d m b : holds ph d b -> len m <= phase_cap ph -> b `prefix_of` enc m -> b ≠ enc m ->
  ∃ d', next_message d = (Ok None, d') ∧ holds ph d' b.
Proof.
  intros Hh Hm Hb Hne. pose proof Hh as (_ & _ & Hlen & _). destruct (record_enc ph m Hm) as [_ Em]. rewrite Em in Hb, Hne.
  destruct (drain_holds ph d _ (chunks_of m) Hh (chunks_of_ok m) Hb) as (cs & L2 & w & EL & Eb & Ed & Hw & Hlt).
  pose proof (chunks_of_ok m) as Hok. rewrite EL in Hok. apply Forall_app in Hok as [Hcs HL2].
  unfold next_message. rewrite Ed. cbn [stream cap wire consecutive_empty].
  assert (Hh' : holds ph (mk_deframer w (concat cs) (phase_cap ph) 0) b) by (by apply holds_intro).
  destruct L2 as [|c k].
  { destruct Hne. rewrite EL, app_nil_r, Eb. apply prefix_nil_inv in Hw as ->. by rewrite app_nil_r. }
  destruct (Nat.ltb_spec (length (concat cs)) 4) as [|H4]; [by eexists|].
  pose proof (chunks_of_concat m) as Ec. rewrite EL, concat_app in Ec. apply Forall_cons in HL2 as [[Hc _] _].
  assert (Hlt4 : len (concat cs) < 4 + len m).
  { apply (f_equal len) in Ec. cbn [concat] in Ec. rewrite !len_app in Ec. unfold len in Ec, Hc |- *. rewrite be_encode_length in Ec. lia. }
  assert (Et : take 4 (concat cs) = be_encode 4 (len m)).
  { apply (f_equal (take 4)) in Ec. rewrite take_app_le in Ec by lia. by rewrite take_app_length' in Ec by (by rewrite be_encode_length). }
  rewrite Et. destruct (Tcp.cap_width ph m Hm) as [_ ->].
  destruct (Z.ltb_spec (phase_cap ph) (len m)); [lia|]. destruct (Z.ltb_spec (len (concat cs)) (4 + len m)); [by eexists|lia].
Qed.

#[export] Instance record_laws : FramingLaws.
Proof.
  refine {| fr_holds := holds |}.
  - intros m Hm. destruct (record_enc PhaseEstablished m Hm) as [-> _]. eexists. split; [done|]. cbn [concat]. rewrite app_nil_r.
    intros E. apply (f_equal len) in E. rewrite records_length, chunks_of_concat, len_app in E.
    unfold len in E. rewrite be_encode_length in E. cbn in E. lia.
  - apply (holds_intro PhaseHandshake [] [] []); [done|constructor|done].
  - intros ph ph' d b (Hc & He & Hl & Hr) Hle. split_and!; [done|done|lia|done].
  - intros ph d b x m (Hc & He & Hl & cs & Hcs & -> & Hs) Hm Hp _ Hx. split_and!; [done|done| |].
    + apply prefix_length in Hp. pose proof (enc_size ph m Hm) as Hz. rewrite (len_app (records cs ++ wire d) x). unfold len, READ_MAX, STREAM_SLACK in *. lia.
    + exists cs. cbn [fr_push record_framing push wire stream]. by rewrite app_assoc.
  - apply next_whole.
  - apply next_part.
Defined.

(** The fuel is enough: more of it changes nothing. *)
Lemma take_fragment_wire d f r d' : take_fragment d f = (r, d') -> wire d' = wire d.
Proof. unfold take_fragment, note_empty. intros E. repeat case_match; by injection E as <- <-. Qed.

Lemma drain_loop_fuel f1 : ∀ f2 d, (length (wire d) <= f1)%nat -> (length (wire d) <= f2)%nat -> drain_loop f1 d = drain_loop f2 d.
Proof.
  assert (H0 : ∀ f d, (length (wire d) <= 0)%nat -> drain_loop f d = (Ok (), d)).
  { intros [|f] d Hd; [done|]. cbn [drain_loop]. destruct (Nat.ltb_spec (length (wire d)) TLS_RECORD_HEADER_LEN); [done|]. unfold TLS_RECORD_HEADER_LEN in *. lia. }
  induction f1 as [|f1 IH]; intros f2 d H1 H2; [by rewrite !H0|]. destruct f2 as [|f2]; [by rewrite !H0|]. cbn [drain_loop].
  destruct (Nat.ltb_spec (length (wire d)) TLS_RECORD_HEADER_LEN); [done|]. destruct (_ <? _); [done|]. destruct (negb _); [done|]. destruct (_ <? _); [done|].
  destruct (take_fragment _ _) as [[[]|e] d2] eqn:E; [|done]. apply take_fragment_wire in E. cbn [wire] in E.
  apply IH; rewrite E, !length_drop; unfold TLS_RECORD_HEADER_LEN in *; lia.
Qed.

(** ** Bytes from anyone *)

(** What the receiver holds after parsing: the stream within its bound, less than a
    record on the wire, and no more empty records in a row than it tolerates. *)
Definition within (d : RecordDeframer) : Prop :=
  len (stream d) <= cap d + STREAM_SLACK ∧ consecutive_empty d <= MAX_CONSECUTIVE_EMPTY.
Definition over_by_one (d : RecordDeframer) : Prop :=
  len (stream d) <= cap d + STREAM_SLACK + MAX_RECORD_FRAGMENT_WIRE ∧ consecutive_empty d <= MAX_CONSECUTIVE_EMPTY + 1.

Lemma take_fragment_within d fragment r d' :
  within d -> len fragment <= MAX_RECORD_FRAGMENT_WIRE -> take_fragment d fragment = (r, d') ->
  wire d' = wire d ∧ cap d' = cap d ∧ over_by_one d' ∧ (r = Ok () -> within d').
Proof.
  unfold within, over_by_one, STREAM_SLACK, MAX_CONSECUTIVE_EMPTY. intros [Hs He] Hf E.
  assert (Hne : note_empty d = (r, d') -> wire d' = wire d ∧ cap d' = cap d ∧
    (len (stream d') <= cap d' + 256 * 1024 + MAX_RECORD_FRAGMENT_WIRE ∧ consecutive_empty d' <= 64 + 1) ∧
    (r = Ok () -> len (stream d') <= cap d' + 256 * 1024 ∧ consecutive_empty d' <= 64)).
  { unfold note_empty, MAX_CONSECUTIVE_EMPTY, MAX_RECORD_FRAGMENT_WIRE, MAX_RECORD_FRAGMENT. intros [= <- <-]. cbn [wire stream cap consecutive_empty].
    destruct (Z.ltb_spec 64 (consecutive_empty d + 1)); split_and!; try done; lia. }
  unfold take_fragment in E. repeat case_match; auto;
    injection E as <- <-; cbn [wire stream cap consecutive_empty] in *; split_and!; try done;
    try (intros _; bool_to_prop; rewrite ?len_app in *; unfold STREAM_SLACK, MAX_RECORD_FRAGMENT_WIRE, MAX_RECORD_FRAGMENT in *; lia);
    try (unfold MAX_RECORD_FRAGMENT_WIRE, MAX_RECORD_FRAGMENT in *; lia);
    rewrite len_app; unfold len in *; rewrite length_take, length_drop; lia.
Qed.

Lemma drain_loop_within fuel : ∀ d r d',
  within d -> (length (wire d) <= fuel)%nat -> drain_loop fuel d = (r, d') ->
  cap d' = cap d ∧ over_by_one d' ∧ len (wire d') <= len (wire d) ∧
  (r = Ok () -> within d' ∧ len (wire d') < Z.of_nat TLS_RECORD_HEADER_LEN + MAX_RECORD_FRAGMENT_WIRE).
Proof.
  assert (Hw : ∀ d, within d -> over_by_one d).
  { unfold within, over_by_one, MAX_RECORD_FRAGMENT_WIRE, MAX_RECORD_FRAGMENT. lia. }
  induction fuel as [|fuel IH]; intros d r d' Hd Hf E; cbn [drain_loop] in E.
  { injection E as <- <-. split_and!; [done|by apply Hw|done|]. intros _. split; [done|]. unfold len, MAX_RECORD_FRAGMENT_WIRE, MAX_RECORD_FRAGMENT. lia. }
  destruct (Nat.ltb_spec (length (wire d)) TLS_RECORD_HEADER_LEN) as [H5|H5].
  { injection E as <- <-. split_and!; [done|by apply Hw|done|]. intros _. split; [done|]. unfold len, MAX_RECORD_FRAGMENT_WIRE, MAX_RECORD_FRAGMENT. lia. }
  destruct (Z.ltb_spec MAX_RECORD_FRAGMENT_WIRE (declared (wire d))) as [|Hlen]; [injection E as <- <-; split_and!; auto; done|].
  destruct (negb _); [injection E as <- <-; split_and!; auto; done|].
  destruct (Z.ltb_spec (len (wire d)) (Z.of_nat TLS_RECORD_HEADER_LEN + declared (wire d))) as [Hshort|Hfull].
  { injection E as <- <-. split_and!; [done|by apply Hw|done|]. intros _. split; [done|lia]. }
  set (body := drop TLS_RECORD_HEADER_LEN (wire d)) in *. set (d1 := mk_deframer _ _ _ _) in E.
  assert (Hb : (length body + 5 = length (wire d))%nat) by (unfold body; rewrite length_drop; unfold TLS_RECORD_HEADER_LEN in *; lia).
  destruct (take_fragment d1 _) as [r1 d2] eqn:Et. apply take_fragment_within in Et as (Ew & Ec & Ho & Hok); [|done|].
  2:{ unfold len. rewrite length_take. unfold MAX_RECORD_FRAGMENT_WIRE, MAX_RECORD_FRAGMENT in *. lia. }
  cbn [d1 wire cap] in Ew, Ec. assert (Hw2 : (length (wire d2) < length (wire d))%nat) by (rewrite Ew, length_drop; lia).
  destruct r1 as [[]|e]; [|injection E as <- <-; split_and!; [done|done|unfold len; lia|done]].
  apply IH in E as (Ec' & Ho' & Hl & Hok'); [|by apply Hok|lia]. split_and!; [congruence|done|unfold len in *; lia|done].
Qed.

Lemma next_within d r d' : within d -> next_message d = (r, d') ->
  cap d' = cap d ∧ over_by_one d' ∧ len (wire d') <= len (wire d) ∧
  (∀ o, r = Ok o -> within d' ∧ len (wire d') < Z.of_nat TLS_RECORD_HEADER_LEN + MAX_RECORD_FRAGMENT_WIRE) ∧
  (∀ m, r = Ok (Some m) -> 0 <= cap d -> len m <= cap d).
Proof.
  intros Hd E. unfold next_message, drain_records in E. destruct (drain_loop _ d) as [r1 d1] eqn:Ed.
  apply drain_loop_within in Ed as (Ec & Ho & Hl & Hok); [|done|done]. destruct r1 as [[]|e]; [|injection E as <- <-; split_and!; done].
  destruct (Hok eq_refl) as [Hd1 Hw1]. destruct (Nat.ltb_spec (length (stream d1)) 4); [injection E as <- <-; split_and!; auto; done|].
  destruct (Z.ltb_spec (cap d1) (be_decode (take 4 (stream d1)))); [injection E as <- <-; split_and!; auto; done|].
  destruct (Z.ltb_spec (len (stream d1)) (4 + be_decode (take 4 (stream d1)))); [injection E as <- <-; split_and!; auto; done|]. injection E as <- <-. cbn [wire cap stream consecutive_empty].
  destruct Hd1 as [Hd1 He1]. destruct Ho as [Ho1 Ho2]. unfold within, over_by_one. cbn [wire cap stream consecutive_empty].
  assert (Hs : len (drop (Z.to_nat (be_decode (take 4 (stream d1)))) (drop 4 (stream d1))) <= len (stream d1)).
  { unfold len. rewrite !length_drop. lia. }
  split_and!; [done|lia|lia|done|intros o _; lia|]. intros m [= <-] Hc. unfold len in *. rewrite length_take, length_drop. rewrite <- Ec.
  destruct (Z.le_gt_cases 0 (be_decode (take 4 (stream d1)))) as [|Hneg]; [lia|]. rewrite Z2Nat.nonpos by lia.
  cbn. lia.
Qed.

(** What a leg holds while it reads, whatever bytes arrive. *)
Lemma recv_loop_within pieces : ∀ d r d' rest,
  within d -> Forall (λ p, len p <= READ_MAX) pieces -> len (wire d) <= Z.of_nat TLS_RECORD_HEADER_LEN + MAX_RECORD_FRAGMENT_WIRE + READ_MAX ->
  recv_loop d pieces = (r, d', rest) ->
  cap d' = cap d ∧ over_by_one d' ∧ len (wire d') <= Z.of_nat TLS_RECORD_HEADER_LEN + MAX_RECORD_FRAGMENT_WIRE + READ_MAX ∧
  (∀ m, r = Some (Ok m) -> 0 <= cap d -> len m <= cap d ∧ within d').
Proof.
  induction pieces as [|p pieces IH]; intros d r d' rest Hd Hp Hw E; cbn [recv_loop fr_next record_framing] in E;
    destruct (next_message d) as [[[m|]|e] d1] eqn:En; apply next_within in En as (Ec & Ho & Hl & Hok & Hm); try done;
    try (injection E as <- <- <-; split_and!; [done|done|lia|intros m' [= <-] Hc; split; [by apply Hm|by eapply Hok]]);
    try (injection E as <- <- <-; split_and!; [done|done|lia|done]).
  apply Forall_cons in Hp as [Hp1 Hp]. destruct (Hok None eq_refl) as [Hd1 Hw1].
  destruct p as [|z p]; [injection E as <- <- <-; split_and!; [done|done|lia|done]|].
  apply IH in E as (Ec' & Ho' & Hw' & Hm'); [|done|done|cbn [fr_push record_framing push wire]; rewrite len_app; lia].
  cbn [fr_push record_framing push cap] in *. split_and!; [congruence|done|done|]. rewrite Ec in Hm'. done.
Qed.

(** One [recv_bytes] of a leg that handed a message over, on any bytes; the phase only
    goes forward. *)
Definition read_step (a b : FramePhase * RecordDeframer) : Prop :=
  ∃ pieces rest m, Forall (λ p, len p <= READ_MAX) pieces ∧ phase_cap a.1 <= phase_cap b.1 ∧
    recv_bytes b.1 a.2 pieces = (Some (Ok m), b.2, rest).

Definition leg_inv (a : FramePhase * RecordDeframer) : Prop :=
  cap a.2 = phase_cap a.1 ∧ within a.2 ∧ len (wire a.2) <= Z.of_nat TLS_RECORD_HEADER_LEN + MAX_RECORD_FRAGMENT_WIRE + READ_MAX.

Lemma leg_call a ph pieces r d' rest :
  leg_inv a -> phase_cap a.1 <= phase_cap ph -> Forall (λ p, len p <= READ_MAX) pieces -> recv_bytes ph a.2 pieces = (r, d', rest) ->
  cap d' = phase_cap ph ∧ over_by_one d' ∧ len (wire d') <= Z.of_nat TLS_RECORD_HEADER_LEN + MAX_RECORD_FRAGMENT_WIRE + READ_MAX ∧
  (∀ m, r = Some (Ok m) -> len m <= phase_cap ph ∧ within d').
Proof.
  intros (Hc & [Hs He] & Hw) Hph Hp E. unfold recv_bytes in E. cbn [fr_set_phase record_framing] in E.
  apply recv_loop_within in E as (Ec & Ho & Hw' & Hm); [|split; cbn [set_phase stream cap consecutive_empty]; lia|done|done].
  cbn [set_phase cap] in *. split_and!; [done|done|done|]. intros m Er. apply Hm; [done|by destruct ph].
Qed.

Lemma leg_inv_reachable a b : leg_inv a -> rtc read_step a b -> leg_inv b.
Proof.
  intros Ha Hr. induction Hr as [|x y z (pieces & rest & m & Hp & Hph & E) Hr IH]; [done|]. apply IH.
  destruct (leg_call x y.1 pieces _ _ _ Ha Hph Hp E) as (Hc & _ & Hw & Hm). destruct (Hm m eq_refl) as [_ Hd]. by split_and!.
Qed.

(** C34: Whatever bytes a peer sends, in whatever pieces, a leg of the mimicry transport
    holds at most a cap, the slack and one fragment of reassembled stream, and less than
    a record and a read on the wire; and a message it hands over is within the cap of its
    phase. *)
Theorem mimic_memory_bounded a ph pieces r d' rest :
  rtc read_step (PhaseHandshake, deframer_new) a -> phase_cap a.1 <= phase_cap ph -> Forall (λ p, len p <= READ_MAX) pieces ->
  recv_bytes ph a.2 pieces = (r, d', rest) ->
  len (stream d') <= phase_cap ph + STREAM_SLACK + MAX_RECORD_FRAGMENT_WIRE ∧
  len (wire d') <= Z.of_nat TLS_RECORD_HEADER_LEN + MAX_RECORD_FRAGMENT_WIRE + READ_MAX ∧
  ∀ m, r = Some (Ok m) -> len m <= phase_cap ph.
Proof.
  intros Hr Hph Hp E. apply leg_inv_reachable in Hr; [|by split_and!].
  destruct (leg_call a ph pieces r d' rest Hr Hph Hp E) as (Hc & [Ho _] & Hw & Hm). rewrite Hc in Ho. split_and!; [done|done|]. intros m Er. by apply Hm.
Qed.

Lemma mimic_memory_bounded_witness : len (stream (mk_deframer [] [7] HANDSHAKE_FRAME_CAP 0)) <= phase_cap PhaseHandshake + STREAM_SLACK + MAX_RECORD_FRAGMENT_WIRE.
Proof.
  refine (proj1 (mimic_memory_bounded (PhaseHandshake, deframer_new) PhaseHandshake [[23; 3; 3; 0; 4]; [0; 1; 7; 9]] None _ [] _ _ _ _)).
  - constructor.
  - by vm_compute.
  - repeat constructor; by vm_compute.
  - vm_compute. reflexivity.
Defined.

(** The mimicry leg delivers: of the messages whose [send_bytes] succeeded the receiver
    hands over a prefix, whole and in order, however the bytes are cut on the way; and
    all of them once all the bytes have arrived.  At most one message more can come out:
    one whose bytes were all taken although its write did not report success. *)
Theorem mimic_delivers ph l pieces n :
  failure_is_final (mk_pipe false) l -> Forall (fits ph) l.*1 -> Forall piece_ok pieces ->
  let '(rs, w) := send_all_messages (mk_pipe false) l in
  concat pieces `prefix_of` w -> (S (length l) < n)%nat ->
  ∃ got, recv_all n ph deframer_new pieces = (got, None) ∧
    (got `prefix_of` succeeded l rs ∨ ∃ m, m ∈ l.*1 ∧ got = succeeded l rs ++ [m]) ∧
    (concat pieces = w -> succeeded l rs `prefix_of` got).
Proof. exact (pipe_delivers ph l pieces n). Qed.

Lemma mimic_delivers_witness : ∃ got,
  recv_all 4 PhaseHandshake deframer_new [[23; 3; 3; 0; 8; 0; 6]; [0; 0; 0; 2; 5; 6; 23; 3; 3]; [0; 6; 0; 4; 0; 0; 0; 0]] = (got, None) ∧
  (got `prefix_of` [[5; 6]; []] ∨ ∃ m, m ∈ [[5; 6]; []] ∧ got = [[5; 6]; []] ++ [m]) ∧
  (concat [[23; 3; 3; 0; 8; 0; 6]; [0; 0; 0; 2; 5; 6; 23; 3; 3]; [0; 6; 0; 4; 0; 0; 0; 0]] = [23; 3; 3; 0; 8; 0; 6; 0; 0; 0; 2; 5; 6; 23; 3; 3; 0; 6; 0; 4; 0; 0; 0; 0] ->
   [[5; 6]; []] `prefix_of` got).
Proof.
  refine (mimic_delivers PhaseHandshake
    [([5; 6], mk_writes [Took 9; Interrupted; Took 4] Flushed); ([], mk_writes [Took 11] Flushed)]
    [[23; 3; 3; 0; 8; 0; 6]; [0; 0; 0; 2; 5; 6; 23; 3; 3]; [0; 6; 0; 4; 0; 0; 0; 0]] 4 _ _ _ _ _).
  - vm_compute. split; [done|]. by split.
  - repeat constructor; by vm_compute.
  - repeat constructor; try done; by vm_compute.
  - by exists [].
  - cbn. lia.
Defined.
