(* ===== verification/TlsHello.v ===== *)
(** * The hello messages of the mimicry leg ([core/src/transport/legs/mimic_tls/client_hello.rs],
      [server_hello.rs], [core/src/crypto/rng.rs])

    The leg opens with a synthetic TLS 1.3 ClientHello in the shape of a browser's and
    answers it with a ServerHello made from what the ClientHello offered.  The random
    source is a parameter; the bytes it fills are the state threaded through. *)

From Stdlib Require Import ZArith Lia.
From stdpp Require Import base numbers option list.
From S2P Require Import Prelude Errors.

Local Open Scope phantom_scope.
Local Open Scope Z_scope.

(** ** The random source *)

Class Rng := { rng : Type; fill_bytes : rng -> nat -> list Z * rng }.
Class RngLaws {R : Rng} := { fill_length r n : length (fill_bytes r n).1 = n; fill_are_bytes r n : is_bytes (fill_bytes r n).1 }.

Definition next_u64 {R : Rng} (r : rng) : Z * rng := let '(b, r1) := fill_bytes r 8 in (le_decode b, r1).

(** ** Constants *)

Definition PROFILE_CAPTURED : Z := 202506.
Definition TLS_LEGACY_VERSION : Z := 0x0303.
Definition HS_TYPE_CLIENT_HELLO : Z := 1.
Definition HS_TYPE_SERVER_HELLO : Z := 2.
Definition MAX_SNI_LEN : Z := 253.

Definition EXT_SERVER_NAME : Z := 0x0000.
Definition EXT_STATUS_REQUEST : Z := 0x0005.
Definition EXT_SUPPORTED_GROUPS : Z := 0x000a.
Definition EXT_EC_POINT_FORMATS : Z := 0x000b.
Definition EXT_SIGNATURE_ALGORITHMS : Z := 0x000d.
Definition EXT_ALPN : Z := 0x0010.
Definition EXT_SCT : Z := 0x0012.
Definition EXT_PADDING : Z := 0x0015.
Definition EXT_EXTENDED_MASTER_SECRET : Z := 0x0017.
Definition EXT_COMPRESS_CERTIFICATE : Z := 0x001b.
Definition EXT_SESSION_TICKET : Z := 0x0023.
Definition EXT_KEY_SHARE : Z := 0x0033.
Definition EXT_PSK_KEY_EXCHANGE_MODES : Z := 0x002d.
Definition EXT_SUPPORTED_VERSIONS : Z := 0x002b.
Definition EXT_RENEGOTIATION_INFO : Z := 0xff01.
Definition EXT_APPLICATION_SETTINGS : Z := 0x4469.

Definition GROUP_X25519_MLKEM768 : Z := 0x11ec.
Definition GROUP_X25519 : Z := 0x001d.
Definition GROUP_SECP256R1 : Z := 0x0017.
Definition GROUP_SECP384R1 : Z := 0x0018.

Definition group_key_exchange_len (group : Z) : nat :=
  if group =? GROUP_X25519 then 32
  else if group =? GROUP_X25519_MLKEM768 then 1216
  else if group =? GROUP_SECP256R1 then 65
  else if group =? GROUP_SECP384R1 then 97
  else 32.

Record ChromeProfile := mk_profile {
  pr_cipher_suites : list Z;
  pr_supported_groups : list Z;
  pr_key_share_groups : list Z;
  pr_signature_algorithms : list Z;
  pr_alpn : list (list Z);
}.

(** [h2] and [http/1.1] as bytes. *)
Definition ALPN_H2 : list Z := [104; 50].
Definition ALPN_HTTP11 : list Z := [104; 116; 116; 112; 47; 49; 46; 49].

Definition CHROME : ChromeProfile := {|
  pr_cipher_suites := [0x1301; 0x1302; 0x1303; 0xc02b; 0xc02f; 0xc02c; 0xc030; 0xcca9; 0xcca8; 0xc013; 0xc014; 0x009c; 0x009d; 0x002f; 0x0035];
  pr_supported_groups := [GROUP_X25519_MLKEM768; GROUP_X25519; GROUP_SECP256R1; GROUP_SECP384R1];
  pr_key_share_groups := [GROUP_X25519_MLKEM768; GROUP_X25519];
  pr_signature_algorithms := [0x0403; 0x0804; 0x0401; 0x0503; 0x0805; 0x0501; 0x0806; 0x0601];
  pr_alpn := [ALPN_H2; ALPN_HTTP11];
|}.

(** ** The client's side *)

(** What [push_u16] and [push_u16_vec] append. *)
Definition push_u16 (v : Z) : list Z := be_encode 2 v.
Definition push_u16_vec (body : list Z) : list Z := push_u16 (wrap 16 (len body)) ++ body.
Definition extension (ext_type : Z) (data : list Z) : list Z := push_u16 ext_type ++ push_u16_vec data.

(** A handshake message: the type, three bytes of length, the body. *)
Definition handshake_message (hs_type : Z) (body : list Z) : list Z := hs_type :: be_encode 3 (wrap 32 (len body)) ++ body.

Definition padding_extension (body_prefix ext_bytes : list Z) : option (list Z) :=
  let approx := len body_prefix + 2 + len ext_bytes in
  if (256 <=? approx) && (approx <? 512) then
    let pad := sat_sub (sat_sub 512 approx) 4 in Some (extension EXT_PADDING (replicate (Z.to_nat pad) 0))
  else None.

(** [slice::swap]; an index out of range panics, which [shuffle] never asks for. *)
Definition swap {A} (l : list A) (i j : nat) : list A :=
  match l !! i, l !! j with Some a, Some b => <[i := b]> (<[j := a]> l) | _, _ => l end.

Section Client.
Context {R : Rng}.

Definition grease_value (r : rng) : Z * rng :=
  let '(x, r1) := next_u64 r in
  let n := Z.land x 0x0f in
  (Z.lor (Z.lor (Z.shiftl n 12) (Z.shiftl n 4)) 0x0a0a, r1).

(** The loop of [shuffle], from index [i] down. *)
Fixpoint shuffle_from {A} (i : nat) (items : list A) (r : rng) : list A * rng :=
  match i with
  | O => (items, r)
  | S i' =>
    let '(x, r1) := next_u64 r in
    let j := Z.to_nat (x mod (Z.of_nat i + 1)) in
    shuffle_from i' (swap items i j) r1
  end.

Definition shuffle {A} (items : list A) (r : rng) : list A * rng :=
  let n := length items in if (n <? 2)%nat then (items, r) else shuffle_from (n - 1) items r.

(** The entries of the key share, each a fresh key of the length of its group. *)
Fixpoint key_share_entries (groups : list Z) (r : rng) : list Z * rng :=
  match groups with
  | [] => ([], r)
  | grp :: groups' =>
    let '(key, r1) := fill_bytes r (group_key_exchange_len grp) in
    let '(rest, r2) := key_share_entries groups' r1 in
    (push_u16 grp ++ push_u16_vec key ++ rest, r2)
  end.

Record Greases := mk_greases { g_cipher : Z; g_group : Z; g_ext_first : Z; g_ext_last : Z; g_version : Z; g_ks : Z }.

Definition draw_greases (r : rng) : Greases * rng :=
  let '(grease_cipher, r1) := grease_value r in
  let '(grease_group, r2) := grease_value r1 in
  let '(grease_ext_first, r3) := grease_value r2 in
  let '(grease_ext_last, r4) := grease_value r3 in
  let '(grease_version, r5) := grease_value r4 in
  let '(grease_ks, r6) := grease_value r5 in
  (mk_greases grease_cipher grease_group grease_ext_first grease_ext_last grease_version grease_ks, r6).

(** The extensions as [build_client_hello] collects them, before the shuffle. *)
Definition hello_extensions (g : Greases) (sni shares : list Z) : list (Z * list Z) :=
  [(g_ext_first g, []);
   (EXT_SERVER_NAME, push_u16_vec (0x00 :: push_u16_vec sni));
   (EXT_EXTENDED_MASTER_SECRET, []);
   (EXT_RENEGOTIATION_INFO, [0x00]);
   (EXT_SUPPORTED_GROUPS, push_u16_vec (push_u16 (g_group g) ++ (pr_supported_groups CHROME ≫= push_u16)));
   (EXT_EC_POINT_FORMATS, [0x01; 0x00]);
   (EXT_SESSION_TICKET, []);
   (EXT_ALPN, push_u16_vec (pr_alpn CHROME ≫= λ p, wrap 8 (len p) :: p));
   (EXT_STATUS_REQUEST, [0x01; 0x00; 0x00; 0x00; 0x00]);
   (EXT_SIGNATURE_ALGORITHMS, push_u16_vec (pr_signature_algorithms CHROME ≫= push_u16));
   (EXT_SCT, []);
   (EXT_KEY_SHARE, push_u16_vec (push_u16 (g_ks g) ++ push_u16 1 ++ [0x00] ++ shares));
   (EXT_PSK_KEY_EXCHANGE_MODES, [0x01; 0x01]);
   (EXT_SUPPORTED_VERSIONS, let l := push_u16 (g_version g) ++ push_u16 0x0304 in wrap 8 (len l) :: l);
   (EXT_COMPRESS_CERTIFICATE, [0x02; 0x00; 0x02]);
   (EXT_APPLICATION_SETTINGS, push_u16_vec (2 :: ALPN_H2));
   (g_ext_last g, [])].

Definition build_client_hello (sni : list Z) (r : rng) : result (list Z) CoreError * rng :=
  if MAX_SNI_LEN <? len sni then (Err ValidationError, r)
  else
    let '(g, r1) := draw_greases r in
    let '(random, r2) := fill_bytes r1 32 in
    let '(session_id, r3) := fill_bytes r2 32 in
    let body := push_u16 TLS_LEGACY_VERSION ++ random ++ [32] ++ session_id ++
      push_u16_vec (push_u16 (g_cipher g) ++ (pr_cipher_suites CHROME ≫= push_u16)) ++ [1; 0x00] in
    let '(shares, r4) := key_share_entries (pr_key_share_groups CHROME) r3 in
    let '(exts, r5) := shuffle ((uncurry extension) <$> hello_extensions g sni shares) r4 in
    let ext_bytes := concat exts in
    let ext_bytes := match padding_extension body ext_bytes with Some pad => ext_bytes ++ pad | None => ext_bytes end in
    (Ok (handshake_message HS_TYPE_CLIENT_HELLO (body ++ push_u16_vec ext_bytes)), r5).

End Client.

(** Months of a date written [YYYYMM]. *)
Definition to_months (ym : Z) : Z := (ym / 100) * 12 + ym mod 100.
Definition profile_is_fresh (now_yyyymm max_age_months : Z) : bool :=
  sat_sub (to_months now_yyyymm) (to_months PROFILE_CAPTURED) <=? max_age_months.

(** ** The server's side *)

Definition HRR_RANDOM : list Z :=
  [0xCF; 0x21; 0xAD; 0x74; 0xE5; 0x9A; 0x61; 0x11; 0xBE; 0x1D; 0x8C; 0x02; 0x1E; 0x65; 0xB8; 0x91;
   0xC2; 0xA2; 0x11; 0x16; 0x7A; 0xBB; 0x8C; 0x5E; 0x07; 0x9E; 0x09; 0xE2; 0xC8; 0xA8; 0x33; 0x9C].
Definition DOWNGRADE_TLS12 : list Z := [0x44; 0x4F; 0x57; 0x4E; 0x47; 0x52; 0x44; 0x01].
Definition DOWNGRADE_TLS11 : list Z := [0x44; 0x4F; 0x57; 0x4E; 0x47; 0x52; 0x44; 0x00].

Definition is_grease (v : Z) : bool :=
  let hi := wrap 8 (Z.shiftr v 8) in
  let lo := wrap 8 (Z.land v 0xff) in
  (hi =? lo) && (Z.land hi 0x0f =? 0x0a).

Record ParsedClientHello := mk_parsed {
  legacy_session_id : list Z;
  cipher_suites : list Z;
  supported_groups : list Z;
  key_share_groups : list Z;
}.

(** *** The cursor: the bytes it has not read *)

Abbreviation Cursor := (list Z) (only parsing).

Definition cur_take (n : Z) (c : Cursor) : result (list Z * Cursor) CoreError :=
  if len c <? n then Err NetworkError else Ok (take (Z.to_nat n) c, drop (Z.to_nat n) c).
Definition cur_uint (n : nat) (c : Cursor) : result (Z * Cursor) CoreError :=
  sc <-? cur_take (Z.of_nat n) c; Ok (be_decode sc.1, sc.2).
Definition u8_vec (c : Cursor) : result (list Z * Cursor) CoreError :=
  nc <-? cur_uint 1 c; cur_take nc.1 nc.2.
Definition u16_vec (c : Cursor) : result (list Z * Cursor) CoreError :=
  nc <-? cur_uint 2 c; cur_take nc.1 nc.2.

Definition parse_u16_list (b : list Z) : result (list Z) CoreError :=
  if negb (len b mod 2 =? 0) then Err NetworkError else Ok (be_decode <$> chunks 2 b).

(** The loop over the key shares: it collects their groups.  A pass reads at least the two
    bytes of a group, so the length of the bytes is enough fuel. *)
Fixpoint parse_shares (fuel : nat) (s : Cursor) (groups : list Z) : result (list Z) CoreError :=
  match fuel with
  | O => Ok groups
  | S fuel' =>
    if len s =? 0 then Ok groups
    else
      gc <-? cur_uint 2 s;
      sc <-? u16_vec gc.2;
      parse_shares fuel' sc.2 (groups ++ [gc.1])
  end.

(** The loop over the extensions, with the same fuel. *)
Fixpoint parse_extensions (fuel : nat) (e : Cursor) (sg ks : list Z) : result (list Z * list Z) CoreError :=
  match fuel with
  | O => Ok (sg, ks)
  | S fuel' =>
    if len e =? 0 then Ok (sg, ks)
    else
      tc <-? cur_uint 2 e;
      dc <-? u16_vec tc.2;
      if tc.1 =? EXT_SUPPORTED_GROUPS then
        gc <-? u16_vec dc.1;
        sg' <-? parse_u16_list gc.1;
        parse_extensions fuel' dc.2 sg' ks
      else if tc.1 =? EXT_KEY_SHARE then
        kc <-? u16_vec dc.1;
        ks' <-? parse_shares (length kc.1) kc.1 ks;
        parse_extensions fuel' dc.2 sg ks'
      else parse_extensions fuel' dc.2 sg ks
  end.

Definition parse_client_hello (msg : list Z) : result ParsedClientHello CoreError :=
  t <-? cur_uint 1 msg;
  if negb (t.1 =? HS_TYPE_CLIENT_HELLO) then Err NetworkError
  else
    n <-? cur_uint 3 t.2;
    if negb (len n.2 =? n.1) then Err NetworkError
    else
      v <-? cur_uint 2 n.2;
      if negb (v.1 =? TLS_LEGACY_VERSION) then Err NetworkError
      else
        random <-? cur_take 32 v.2;
        sid <-? u8_vec random.2;
        csb <-? u16_vec sid.2;
        cs <-? parse_u16_list csb.1;
        compression <-? u8_vec csb.2;
        if 0 <? len compression.2 then
          eb <-? u16_vec compression.2;
          gs <-? parse_extensions (length eb.1) eb.1 [] [];
          Ok (mk_parsed sid.1 cs gs.1 gs.2)
        else Ok (mk_parsed sid.1 cs [] []).

(** *** The answer *)

Definition find_first (f : Z -> bool) (l : list Z) : option Z := snd <$> list_find f l.
Definition contains (l : list Z) (x : Z) : bool := existsb (Z.eqb x) l.

Definition choose_cipher (client : ParsedClientHello) : option Z :=
  match find_first (contains [0x1301; 0x1302; 0x1303]) (cipher_suites client) with
  | Some c => Some c
  | None => find_first (λ c, negb (is_grease c)) (cipher_suites client)
  end.

Definition usable (client : ParsedClientHello) (g : Z) : bool :=
  negb (is_grease g) && contains (supported_groups client) g && contains (key_share_groups client) g.

Definition choose_group (client : ParsedClientHello) : option Z :=
  if usable client GROUP_X25519 then Some GROUP_X25519 else find_first (usable client) (key_share_groups client).

Section Server.
Context {R : Rng}.

Definition random_ok (r : list Z) : bool :=
  negb (bool_decide (r = HRR_RANDOM)) && negb (bool_decide (slice 24 32 r = DOWNGRADE_TLS12)) && negb (bool_decide (slice 24 32 r = DOWNGRADE_TLS11)).

(** The loop of [fresh_server_random], which draws until a random is allowed: [None] when
    [tries] draws were not enough. *)
Fixpoint fresh_server_random (tries : nat) (r : rng) : option (list Z * rng) :=
  match tries with
  | O => None
  | S tries' =>
    let '(x, r1) := fill_bytes r 32 in
    if random_ok x then Some (x, r1) else fresh_server_random tries' r1
  end.

(** The body of the ServerHello, from the choices and the random bytes. *)
Definition server_hello_body (client : ParsedClientHello) (cipher group : Z) (random key : list Z) : list Z :=
  push_u16 TLS_LEGACY_VERSION ++ random ++ [wrap 8 (len (legacy_session_id client))] ++ legacy_session_id client ++
  push_u16 cipher ++ [0x00] ++
  push_u16_vec (extension EXT_SUPPORTED_VERSIONS (push_u16 0x0304) ++ extension EXT_KEY_SHARE (push_u16 group ++ push_u16_vec key)).

Definition build_server_hello (tries : nat) (client : ParsedClientHello) (r : rng) : option (result (list Z) CoreError * rng) :=
  match choose_cipher client with
  | None => Some (Err NetworkError, r)
  | Some cipher =>
    match choose_group client with
    | None => Some (Err NetworkError, r)
    | Some group =>
      '(random, r1) ← fresh_server_random tries r;
      let '(key, r2) := fill_bytes r1 (group_key_exchange_len group) in
      Some (Ok (handshake_message HS_TYPE_SERVER_HELLO (server_hello_body client cipher group random key)), r2)
    end
  end.

End Server.

(** ** Reading back what was written *)

Lemma push_u16_vec_length b : length (push_u16_vec b) = (2 + length b)%nat.
Proof. unfold push_u16_vec, push_u16. by rewrite length_app, be_encode_length. Qed.

Lemma extension_length t d : length (extension t d) = (4 + length d)%nat.
Proof. unfold extension, push_u16. by rewrite length_app, push_u16_vec_length, be_encode_length. Qed.

Lemma cur_take_app n a l : len a = n -> cur_take n (a ++ l) = Ok (a, l).
Proof.
  intros <-. unfold cur_take. rewrite len_app. pose proof (len_nonneg l).
  destruct (Z.ltb_spec (len a + len l) (len a)); [lia|]. unfold len. by rewrite Nat2Z.id, take_app_length, drop_app_length.
Qed.

Lemma cur_uint_app n x l : 0 <= x < 256 ^ Z.of_nat n -> cur_uint n (be_encode n x ++ l) = Ok (x, l).
Proof.
  intros Hx. unfold cur_uint. rewrite cur_take_app by (unfold len; by rewrite be_encode_length). cbn [fst snd].
  by rewrite be_decode_encode.
Qed.

Lemma u16_vec_app b l : len b < 2 ^ 16 -> u16_vec (push_u16_vec b ++ l) = Ok (b, l).
Proof.
  intros Hb. pose proof (len_nonneg b). unfold u16_vec, push_u16_vec, push_u16. rewrite <- app_assoc, wrap_small by (unfold in_u; lia).
  rewrite cur_uint_app by (cbn; lia). by apply cur_take_app.
Qed.

Lemma u8_vec_app b l : len b < 256 -> u8_vec ([len b] ++ b ++ l) = Ok (b, l).
Proof.
  intros Hb. pose proof (len_nonneg b). unfold u8_vec.
  replace [len b] with (be_encode 1 (len b)) by (cbn; by rewrite Z.div_1_r, Z.mod_small by lia).
  rewrite cur_uint_app by (cbn; lia). by apply cur_take_app.
Qed.

Lemma u16s_length l : length (l ≫= push_u16) = (2 * length l)%nat.
Proof. induction l as [|x l IH]; [done|]. cbn [mbind list_bind]. rewrite length_app, IH. unfold push_u16. rewrite be_encode_length. cbn. lia. Qed.

Lemma parse_u16_list_app l : Forall (in_u 16) l -> parse_u16_list (l ≫= push_u16) = Ok l.
Proof.
  intros Hl. unfold parse_u16_list, len. rewrite u16s_length, Nat2Z.inj_mul, Z.mul_comm, Z.mod_mul by done. cbn [negb Z.eqb]. f_equal.
  unfold chunks. rewrite u16s_length. assert (Hf : (length l <= 2 * length l)%nat) by lia. revert Hf. generalize (2 * length l)%nat.
  induction Hl as [|x l Hx Hl IH]; intros fuel Hf; [by destruct fuel|]. destruct fuel as [|fuel]; [cbn in Hf; lia|].
  cbn [mbind list_bind]. cbn [chunks_fuel]. destruct (push_u16 x ++ (l ≫= push_u16)) as [|z t] eqn:E; [done|]. rewrite <- E.
  rewrite take_app_length', drop_app_length' by (unfold push_u16; by rewrite be_encode_length). cbn [fmap list_fmap].
  rewrite IH by (cbn in Hf; lia). f_equal. apply be_decode_encode. unfold in_u in Hx. cbn. lia.
Qed.

(** The groups of a list of key shares. *)
Definition share (p : Z * list Z) : list Z := push_u16 p.1 ++ push_u16_vec p.2.
Definition field_ok (p : Z * list Z) : Prop := in_u 16 p.1 ∧ len p.2 < 2 ^ 16.

Lemma parse_shares_app l : ∀ fuel groups, Forall field_ok l -> (length l <= fuel)%nat ->
  parse_shares fuel (l ≫= share) groups = Ok (groups ++ l.*1).
Proof.
  induction l as [|[g k] l IH]; intros fuel groups Hl Hf; [cbn; rewrite app_nil_r; by destruct fuel|].
  apply Forall_cons in Hl as [[Hg Hk] Hl]. destruct fuel as [|fuel]; [cbn in Hf; lia|]. cbn [mbind list_bind parse_shares].
  destruct (Z.eqb_spec (len (share (g, k) ++ (l ≫= share))) 0) as [E|_].
  { unfold len, share, push_u16 in E. rewrite !length_app, be_encode_length in E. lia. }
  unfold share at 1. cbn [fst snd] in *. rewrite <- app_assoc. unfold push_u16 at 1. rewrite cur_uint_app by (unfold in_u in Hg; cbn; lia). cbn [fst snd].
  rewrite u16_vec_app by done. cbn [fst snd]. rewrite IH by (done || cbn in Hf; lia). by rewrite <- app_assoc.
Qed.

(** A walk over extensions: the one with the groups and the one with the shares count,
    wherever they stand. *)
Lemma parse_extensions_app G K dg dk L : ∀ fuel sg ks,
  Forall field_ok L -> (length L <= fuel)%nat ->
  (∀ d, (EXT_SUPPORTED_GROUPS, d) ∈ L -> d = push_u16_vec dg) -> len dg < 2 ^ 16 -> parse_u16_list dg = Ok G ->
  (∀ d, (EXT_KEY_SHARE, d) ∈ L -> d = push_u16_vec dk) -> len dk < 2 ^ 16 -> (∀ ks, parse_shares (length dk) dk ks = Ok (ks ++ K)) ->
  parse_extensions fuel (concat (uncurry extension <$> L)) sg ks =
    Ok (if bool_decide (EXT_SUPPORTED_GROUPS ∈ L.*1) then G else sg, ks ++ concat (replicate (length (filter (λ p, p.1 = EXT_KEY_SHARE) L)) K)).
Proof.
  induction L as [|[t d] L IH]; intros fuel sg ks HL Hf Hdg Hg HG Hdk Hk HK; [cbn; rewrite app_nil_r; by destruct fuel|].
  apply Forall_cons in HL as [[Ht Hd] HL]. destruct fuel as [|fuel]; [cbn in Hf; lia|]. cbn [fst snd] in *.
  cbn [fmap list_fmap uncurry concat parse_extensions].
  destruct (Z.eqb_spec (len (extension t d ++ concat (uncurry extension <$> L))) 0) as [E|_].
  { unfold len in E. rewrite length_app, extension_length in E. lia. }
  unfold extension at 1, push_u16 at 1. rewrite <- app_assoc, cur_uint_app by (unfold in_u in Ht; cbn; lia). cbn [fst snd].
  rewrite u16_vec_app by done. cbn [fst snd].
  assert (IH' : ∀ sg ks, parse_extensions fuel (concat (uncurry extension <$> L)) sg ks =
    Ok (if bool_decide (EXT_SUPPORTED_GROUPS ∈ L.*1) then G else sg, ks ++ concat (replicate (length (filter (λ p, p.1 = EXT_KEY_SHARE) L)) K))).
  { intros. apply IH; try done; [cbn in Hf; lia|intros d' Hd'; apply Hdg; by right|intros d' Hd'; apply Hdk; by right]. }
  destruct (Z.eqb_spec t EXT_SUPPORTED_GROUPS) as [->|Hne1].
  - rewrite (Hdg d) by (by left). rewrite <- (app_nil_r (push_u16_vec dg)), u16_vec_app by done. cbn [fst snd]. rewrite HG, IH'.
    rewrite filter_cons_False by done. rewrite (bool_decide_eq_true_2 (_ ∈ EXT_SUPPORTED_GROUPS :: _)) by (by left). by destruct (bool_decide _).
  - assert (Hb : bool_decide (EXT_SUPPORTED_GROUPS ∈ t :: L.*1) = bool_decide (EXT_SUPPORTED_GROUPS ∈ L.*1)).
    { apply bool_decide_ext. rewrite elem_of_cons. naive_solver. }
    rewrite Hb. destruct (Z.eqb_spec t EXT_KEY_SHARE) as [->|Hne2].
    + rewrite (Hdk d) by (by left). rewrite <- (app_nil_r (push_u16_vec dk)), u16_vec_app by done. cbn [fst snd]. rewrite HK, IH'.
      rewrite filter_cons_True by done. cbn [length replicate concat]. by rewrite app_assoc.
    + rewrite IH', filter_cons_False by done. done.
Qed.

(** ** The draws *)

Lemma swap_perm {A} (l : list A) i j : swap l i j ≡ₚ l.
Proof.
  unfold swap. destruct (l !! i) as [a|] eqn:Ei, (l !! j) as [b|] eqn:Ej; try done.
  destruct (decide (i = j)) as [->|Hij].
  { rewrite Ei in Ej. injection Ej as ->. by rewrite (list_insert_id l j b), (list_insert_id l j b). }
  apply Permutation_inj. split; [by rewrite !length_insert|].
  exists (λ k, if decide (k = i) then j else if decide (k = j) then i else k). split; [intros x y; repeat case_decide; naive_solver|].
  intros k. pose proof (lookup_lt_Some _ _ _ Ei). pose proof (lookup_lt_Some _ _ _ Ej).
  destruct (decide (k = i)) as [->|Hki]; [by rewrite list_lookup_insert_eq by (by rewrite length_insert)|].
  rewrite list_lookup_insert_ne by done.
  destruct (decide (k = j)) as [->|Hkj]; [by rewrite list_lookup_insert_eq|by rewrite list_lookup_insert_ne].
Qed.

Section Draws.
Context `{RngLaws}.

Lemma shuffle_perm {A} (l : list A) r : (shuffle l r).1 ≡ₚ l.
Proof.
  assert (Hfrom : ∀ i (l : list A) r, (shuffle_from i l r).1 ≡ₚ l).
  { intros i. induction i as [|i IH]; intros l' r'; [done|]. cbn [shuffle_from]. destruct (next_u64 r') as [x r1].
    etrans; [apply IH|apply swap_perm]. }
  unfold shuffle. destruct (_ <? _)%nat; [done|apply Hfrom].
Qed.

Lemma grease_shape r : is_grease (grease_value r).1 = true ∧ in_u 16 (grease_value r).1.
Proof.
  unfold grease_value. destruct (next_u64 r) as [x r1]. cbn [fst]. set (n := Z.land x 15).
  assert (Hn : 0 <= n < 16).
  { subst n. change 15 with (Z.ones 4). rewrite Z.land_ones by lia. apply Z.mod_pos_bound. lia. }
  clearbody n. assert (Hc : n = 0 ∨ n = 1 ∨ n = 2 ∨ n = 3 ∨ n = 4 ∨ n = 5 ∨ n = 6 ∨ n = 7 ∨ n = 8 ∨ n = 9 ∨ n = 10 ∨ n = 11 ∨ n = 12 ∨ n = 13 ∨ n = 14 ∨ n = 15) by lia.
  repeat destruct Hc as [->|Hc]; [by split..|]. by subst.
Qed.

Lemma greases_shape r : let g := (draw_greases r).1 in
  Forall (λ x, is_grease x = true ∧ in_u 16 x) [g_cipher g; g_group g; g_ext_first g; g_ext_last g; g_version g; g_ks g].
Proof.
  unfold draw_greases.
  destruct (grease_value r) as [x1 r1] eqn:E1. destruct (grease_value r1) as [x2 r2] eqn:E2. destruct (grease_value r2) as [x3 r3] eqn:E3.
  destruct (grease_value r3) as [x4 r4] eqn:E4. destruct (grease_value r4) as [x5 r5] eqn:E5. destruct (grease_value r5) as [x6 r6] eqn:E6.
  cbn. pose proof (grease_shape r). pose proof (grease_shape r1). pose proof (grease_shape r2). pose proof (grease_shape r3).
  pose proof (grease_shape r4). pose proof (grease_shape r5). rewrite E1, E2, E3, E4, E5, E6 in *. cbn [fst] in *. rewrite !Forall_cons, Forall_nil. tauto.
Qed.

(** The shares of the profile's groups. *)
Lemma key_share_spec gs : ∀ r, Forall (in_u 16) gs ->
  ∃ l, (key_share_entries gs r).1 = l ≫= share ∧ l.*1 = gs ∧ Forall field_ok l ∧ (length <$> l.*2) = group_key_exchange_len <$> gs.
Proof.
  induction gs as [|g gs IH]; intros r Hg; [by exists []|]. apply Forall_cons in Hg as [Hg Hgs]. cbn [key_share_entries].
  pose proof (fill_length r (group_key_exchange_len g)) as Hl. destruct (fill_bytes r (group_key_exchange_len g)) as [key r1]. cbn [fst] in Hl.
  destruct (IH r1 Hgs) as (l & El & E1 & HF & E2). destruct (key_share_entries gs r1) as [rest r2]. cbn [fst] in *. subst rest.
  exists ((g, key) :: l). split_and!.
  - cbn [mbind list_bind]. unfold share at 2. cbn [fst snd]. by rewrite app_assoc.
  - cbn. by f_equal.
  - constructor; [|done]. split; [done|]. cbn [snd]. unfold len. rewrite Hl. unfold group_key_exchange_len. repeat case_match; cbn; lia.
  - cbn. by rewrite Hl, E2.
Qed.

End Draws.

(** ** The ClientHello and its reader *)

Lemma concat_perm_length {A} (l1 l2 : list (list A)) : l1 ≡ₚ l2 -> length (concat l1) = length (concat l2).
Proof. induction 1; cbn; rewrite ?length_app in *; lia. Qed.

Lemma bind_concat {A B} (f : A -> list B) l : l ≫= f = concat (f <$> l).
Proof. induction l as [|x l IH]; [done|]. cbn. by rewrite <- IH. Qed.

Lemma pieces_length {A B} (f : A -> list B) l : (∀ x, (0 < length (f x))%nat) -> (length l <= length (concat (f <$> l)))%nat.
Proof. intros Hf. induction l as [|x l IH]; [done|]. cbn [fmap list_fmap concat length]. rewrite length_app. specialize (Hf x). lia. Qed.

Section Hello.
Context `{RngLaws}.

(** The parts of the hello that vary. *)
Record Parts := mk_parts { p_g : Greases; p_random : list Z; p_sid : list Z; p_shares : list (Z * list Z) }.

Definition parts_ok (p : Parts) : Prop :=
  Forall (λ x, is_grease x = true ∧ in_u 16 x) [g_cipher (p_g p); g_group (p_g p); g_ext_first (p_g p); g_ext_last (p_g p); g_version (p_g p); g_ks (p_g p)] ∧
  length (p_random p) = 32%nat ∧ length (p_sid p) = 32%nat ∧
  (p_shares p).*1 = pr_key_share_groups CHROME ∧ Forall field_ok (p_shares p) ∧ (length <$> (p_shares p).*2) = [1216%nat; 32%nat].

Definition hello_prefix (p : Parts) : list Z :=
  push_u16 TLS_LEGACY_VERSION ++ p_random p ++ [32] ++ p_sid p ++
  push_u16_vec (push_u16 (g_cipher (p_g p)) ++ (pr_cipher_suites CHROME ≫= push_u16)) ++ [1; 0x00].

Lemma shares_length p : parts_ok p -> length (p_shares p ≫= share) = 1256%nat.
Proof.
  intros (_ & _ & _ & E1 & _ & E2). destruct p as [g x s [|[g1 k1] [|[g2 k2] [|? ?]]]]; try done. cbn [p_shares fmap list_fmap snd] in E2.
  injection E2 as E2 E3. cbn [p_shares mbind list_bind]. unfold share. cbn [fst snd].
  rewrite !length_app, !push_u16_vec_length, E2, E3. done.
Qed.

Lemma extensions_length p sni : parts_ok p ->
  length (concat (uncurry extension <$> hello_extensions (p_g p) sni (p_shares p ≫= share))) = (1403 + length sni)%nat.
Proof.
  intros Hp. unfold hello_extensions. cbn [fmap list_fmap uncurry concat]. rewrite !length_app, !extension_length, !push_u16_vec_length.
  cbn [length]. rewrite !length_app, !push_u16_vec_length, shares_length by done. cbn. lia.
Qed.

Lemma hello_prefix_length p : parts_ok p -> length (hello_prefix p) = 103%nat.
Proof.
  intros (_ & Hr & Hs & _). unfold hello_prefix. rewrite !length_app, push_u16_vec_length, Hr, Hs. done.
Qed.

(** What [build_client_hello] returns: no padding is ever due. *)
Lemma client_hello_shape sni r : len sni <= MAX_SNI_LEN ->
  ∃ p L r', p_g p = (draw_greases r).1 ∧ parts_ok p ∧ L ≡ₚ hello_extensions (p_g p) sni (p_shares p ≫= share) ∧
    build_client_hello sni r = (Ok (handshake_message HS_TYPE_CLIENT_HELLO (hello_prefix p ++ push_u16_vec (concat (uncurry extension <$> L)))), r').
Proof.
  intros Hs. unfold build_client_hello. destruct (Z.ltb_spec MAX_SNI_LEN (len sni)); [lia|].
  pose proof (greases_shape r) as Hg. destruct (draw_greases r) as [g r1]. cbn [fst] in *.
  pose proof (fill_length r1 32) as Hr. destruct (fill_bytes r1 32) as [random r2]. cbn [fst] in Hr.
  pose proof (fill_length r2 32) as Hi. destruct (fill_bytes r2 32) as [sid r3]. cbn [fst] in Hi.
  destruct (key_share_spec (pr_key_share_groups CHROME) r3) as (l & El & E1 & HF & E2); [by repeat constructor|].
  destruct (key_share_entries (pr_key_share_groups CHROME) r3) as [shares r4]. cbn [fst] in El. subst shares.
  set (p := mk_parts g random sid l). assert (Hp : parts_ok p) by (by split_and!).
  pose proof (shuffle_perm (uncurry extension <$> hello_extensions g sni (l ≫= share)) r4) as Hperm.
  destruct (shuffle _ r4) as [exts r5]. cbn [fst] in Hperm.
  pose proof (eq_trans (concat_perm_length _ _ Hperm) (extensions_length p sni Hp)) as Hlen.
  apply Permutation_map_inv in Hperm as (L & -> & HL). exists p, L, r5. split_and!; [done|done|by symmetry|].
  unfold padding_extension. pose proof (hello_prefix_length p Hp) as Hpl. unfold hello_prefix in Hpl |- *. cbn [p p_g p_random p_sid] in Hpl |- *. rewrite (andb_false_intro2 (256 <=? _) (_ <? 512)); [done|]. apply Z.ltb_ge.
  unfold len. lia.
Qed.

Lemma not_grease (x y : Z) : is_grease x = true ∧ in_u 16 x -> is_grease y = false -> x ≠ y.
Proof. intros [Hx _] Hy ->. congruence. Qed.

Lemma extensions_ok p sni : parts_ok p -> len sni <= MAX_SNI_LEN -> Forall field_ok (hello_extensions (p_g p) sni (p_shares p ≫= share)).
Proof.
  intros Hp Hs. pose proof (shares_length p Hp) as Hl. destruct Hp as [Hg _]. rewrite !Forall_cons in Hg. destruct Hg as (_ & _ & [_ H1] & [_ H2] & _).
  unfold hello_extensions, field_ok, in_u, MAX_SNI_LEN in *. rewrite !Forall_cons, Forall_nil. unfold len in *.
  cbn [fst snd]. rewrite !push_u16_vec_length. cbn [length]. rewrite !length_app, push_u16_vec_length, Hl.
  repeat split; try (by vm_compute); cbn [length]; try lia.
Qed.

Lemma extension_data p sni shares t d : (t, d) ∈ hello_extensions (p_g p) sni shares ->
  g_ext_first (p_g p) ≠ t -> g_ext_last (p_g p) ≠ t ->
  (t = EXT_SUPPORTED_GROUPS -> d = push_u16_vec ((g_group (p_g p) :: pr_supported_groups CHROME) ≫= push_u16)) ∧
  (t = EXT_KEY_SHARE -> d = push_u16_vec (push_u16 (g_ks (p_g p)) ++ push_u16 1 ++ [0x00] ++ shares)).
Proof.
  unfold hello_extensions. rewrite !elem_of_cons. intros Hd H1 H2. destruct_or! Hd; try (by apply not_elem_of_nil in Hd);
    apply pair_equal_spec in Hd as [-> ->]; try done; split; done.
Qed.

(** The extensions give the groups and the shares, in any order. *)
Lemma extensions_read p L sni : parts_ok p -> len sni <= MAX_SNI_LEN -> L ≡ₚ hello_extensions (p_g p) sni (p_shares p ≫= share) ->
  parse_extensions (length (concat (uncurry extension <$> L))) (concat (uncurry extension <$> L)) [] [] =
    Ok (g_group (p_g p) :: pr_supported_groups CHROME, g_ks (p_g p) :: pr_key_share_groups CHROME).
Proof.
  intros Hp Hs HL. pose proof Hp as (Hg & _ & _ & E1 & HF & _). rewrite !Forall_cons in Hg. destruct Hg as (_ & [_ Hgg] & Hx1 & Hx2 & _ & [_ Hgk] & _).
  pose proof (shares_length p Hp) as Hlen. set (sh := (g_ks (p_g p), [0]) :: p_shares p).
  assert (Hne : ∀ y, is_grease y = false -> g_ext_first (p_g p) ≠ y ∧ g_ext_last (p_g p) ≠ y) by (intros; split; by apply not_grease).
  pose proof (Hne EXT_SUPPORTED_GROUPS eq_refl) as [Ha1 Ha2]. pose proof (Hne EXT_KEY_SHARE eq_refl) as [Hb1 Hb2]. clear Hne.
  rewrite (parse_extensions_app (g_group (p_g p) :: pr_supported_groups CHROME) sh.*1
    ((g_group (p_g p) :: pr_supported_groups CHROME) ≫= push_u16) (sh ≫= share)).
  - rewrite bool_decide_eq_true_2 by (rewrite HL; cbn; rewrite !elem_of_cons; tauto).
    rewrite (Permutation_length (filter_Permutation (λ q, q.1 = EXT_KEY_SHARE) _ _ HL)).
    unfold hello_extensions. repeat (first [rewrite filter_cons_True by done|rewrite filter_cons_False by (cbn [fst]; done)]).
    cbn [length filter list_filter replicate concat sh fmap list_fmap fst]. by rewrite E1, !app_nil_r.
  - rewrite HL. by apply extensions_ok.
  - apply pieces_length. intros [t d]. cbn [uncurry]. rewrite extension_length. lia.
  - intros d Hd. rewrite HL in Hd. by apply extension_data in Hd as [Hd _]; [apply Hd|..].
  - by vm_compute.
  - apply parse_u16_list_app. constructor; [done|]. by repeat constructor.
  - intros d Hd. rewrite HL in Hd. by apply extension_data in Hd as [_ Hd]; [apply Hd|..].
  - unfold len, sh. cbn [mbind list_bind]. rewrite length_app, Hlen. unfold share, push_u16. rewrite length_app, push_u16_vec_length, be_encode_length. cbn. lia.
  - intros ks. apply parse_shares_app.
    + constructor; [|done]. by split.
    + rewrite bind_concat. apply pieces_length. intros q. unfold share. rewrite length_app, push_u16_vec_length. lia.
Qed.

Definition offered (p : Parts) : ParsedClientHello :=
  mk_parsed (p_sid p) (g_cipher (p_g p) :: pr_cipher_suites CHROME) (g_group (p_g p) :: pr_supported_groups CHROME) (g_ks (p_g p) :: pr_key_share_groups CHROME).

Lemma hello_read p L sni : parts_ok p -> len sni <= MAX_SNI_LEN -> L ≡ₚ hello_extensions (p_g p) sni (p_shares p ≫= share) ->
  let body := hello_prefix p ++ push_u16_vec (concat (uncurry extension <$> L)) in
  len body <= 1761 ∧ parse_client_hello (handshake_message HS_TYPE_CLIENT_HELLO body) = Ok (offered p).
Proof.
  intros Hp Hs HL body. pose proof Hp as (Hg & Hr & Hi & _). rewrite !Forall_cons in Hg. destruct Hg as ([_ Hgc] & _).
  assert (Hext : length (concat (uncurry extension <$> L)) = (1403 + length sni)%nat).
  { rewrite <- (extensions_length p sni Hp). apply concat_perm_length. by rewrite HL. }
  assert (Hbody : len body = 1508 + len sni).
  { unfold body, len. rewrite length_app, push_u16_vec_length, hello_prefix_length, Hext by done. lia. }
  unfold MAX_SNI_LEN in *. pose proof (len_nonneg sni). split; [lia|]. unfold parse_client_hello, handshake_message.
  change (HS_TYPE_CLIENT_HELLO :: ?l) with (be_encode 1 HS_TYPE_CLIENT_HELLO ++ l). rewrite cur_uint_app by (by vm_compute). cbn [fst snd]. rewrite Z.eqb_refl. cbn [negb].
  rewrite wrap_small by (unfold in_u; lia). rewrite cur_uint_app by (change (256 ^ Z.of_nat 3) with 16777216; lia). cbn [fst snd]. rewrite Z.eqb_refl. cbn [negb].
  unfold body, hello_prefix. rewrite <- !app_assoc. unfold push_u16 at 1. rewrite cur_uint_app by (by vm_compute). cbn [fst snd]. rewrite Z.eqb_refl. cbn [negb].
  rewrite cur_take_app by (unfold len; by rewrite Hr). cbn [fst snd].
  replace [32] with [len (p_sid p)] by (unfold len; by rewrite Hi). rewrite u8_vec_app by (unfold len; rewrite Hi; lia). cbn [fst snd].
  change (push_u16 (g_cipher (p_g p)) ++ (pr_cipher_suites CHROME ≫= push_u16)) with ((g_cipher (p_g p) :: pr_cipher_suites CHROME) ≫= push_u16).
  rewrite u16_vec_app by (unfold len; rewrite u16s_length; cbn; lia). cbn [fst snd].
  rewrite parse_u16_list_app by (constructor; [done|by repeat constructor]).
  change [1; 0] with ([len [0]] ++ [0]). rewrite <- app_assoc, u8_vec_app by (by vm_compute). cbn [fst snd].
  rewrite <- (app_nil_r (push_u16_vec (concat (uncurry extension <$> L)))).
  destruct (Z.ltb_spec 0 (len (push_u16_vec (concat (uncurry extension <$> L)) ++ []))) as [_|Hx];
    [|unfold len in Hx; rewrite length_app, push_u16_vec_length in Hx; lia].
  rewrite u16_vec_app by (unfold len in *; rewrite Hext; lia). cbn [fst snd]. rewrite (extensions_read p L sni) by done. done.
Qed.

End Hello.

(** ** What a reader accepts *)

Lemma cur_take_bytes n c a c' : is_bytes c -> cur_take n c = Ok (a, c') -> is_bytes a ∧ is_bytes c'.
Proof.
  unfold cur_take, is_bytes. intros Hc. destruct (_ <? _); [done|]. intros [= <- <-]. split; [by apply Forall_take|by apply Forall_drop].
Qed.

Lemma cur_take_len n c a c' : 0 <= n -> cur_take n c = Ok (a, c') -> len a = n ∧ len a + len c' = len c.
Proof.
  unfold cur_take. intros Hn. destruct (Z.ltb_spec (len c) n); [done|]. intros [= <- <-]. unfold len in *. rewrite length_take, length_drop. lia.
Qed.

(** The fuel of the two loops is enough: more of it changes nothing. *)
Lemma cur_take_shrinks n c a c' : cur_take n c = Ok (a, c') -> (length c' <= length c)%nat.
Proof. unfold cur_take. destruct (_ <? _); [done|]. intros [= <- <-]. rewrite length_drop. lia. Qed.

Lemma cur_uint_shrinks n c x c' : cur_uint n c = Ok (x, c') -> (length c' + n = length c)%nat.
Proof.
  unfold cur_uint. destruct (cur_take (Z.of_nat n) c) as [[a c1]|] eqn:E; [|done]. intros [= <- <-]. apply cur_take_len in E as [E1 E2]; [|lia].
  cbn [snd]. unfold len in *. lia.
Qed.

Lemma u16_vec_shrinks c a c' : u16_vec c = Ok (a, c') -> (length c' <= length c)%nat.
Proof.
  unfold u16_vec. destruct (cur_uint 2 c) as [[n c1]|] eqn:E; [|done]. cbn [fst snd]. intros Et%cur_take_shrinks. apply cur_uint_shrinks in E. lia.
Qed.

Lemma parse_shares_fuel f1 : ∀ f2 s groups, (length s <= f1)%nat -> (length s <= f2)%nat -> parse_shares f1 s groups = parse_shares f2 s groups.
Proof.
  induction f1 as [|f1 IH]; intros [|f2] s groups H1 H2; cbn [parse_shares]; try done;
    try (by destruct s; [|cbn in *; lia]).
  destruct (_ =? _); [done|]. destruct (cur_uint 2 s) as [[g c]|] eqn:E1; [|done]. cbn [fst snd]. apply cur_uint_shrinks in E1.
  destruct (u16_vec c) as [[k c']|] eqn:E2; [|done]. cbn [fst snd]. apply u16_vec_shrinks in E2. apply IH; lia.
Qed.

Lemma parse_extensions_fuel f1 : ∀ f2 e sg ks, (length e <= f1)%nat -> (length e <= f2)%nat -> parse_extensions f1 e sg ks = parse_extensions f2 e sg ks.
Proof.
  induction f1 as [|f1 IH]; intros [|f2] e sg ks H1 H2; cbn [parse_extensions]; try done;
    try (by destruct e; [|cbn in *; lia]).
  destruct (_ =? _); [done|]. destruct (cur_uint 2 e) as [[t c]|] eqn:E1; [|done]. cbn [fst snd]. apply cur_uint_shrinks in E1.
  destruct (u16_vec c) as [[d c']|] eqn:E2; [|done]. cbn [fst snd]. apply u16_vec_shrinks in E2.
  repeat case_match; try done; apply IH; lia.
Qed.

Lemma cur_uint_range n c x c' : is_bytes c -> cur_uint n c = Ok (x, c') -> 0 <= x < 256 ^ Z.of_nat n ∧ is_bytes c'.
Proof.
  unfold cur_uint. intros Hc. destruct (cur_take (Z.of_nat n) c) as [[a c1]|] eqn:E; [|done]. cbn [fst snd]. intros [= <- <-].
  destruct (cur_take_bytes _ _ _ _ Hc E) as [Ha Hc1]. apply cur_take_len in E as [El _]; [|lia]. split; [|done].
  pose proof (be_decode_bound a Ha) as Hb. unfold len in El. by replace (Z.of_nat (length a)) with (Z.of_nat n) in Hb by lia.
Qed.

Lemma u16_vec_bytes c a c' : is_bytes c -> u16_vec c = Ok (a, c') -> is_bytes a ∧ is_bytes c'.
Proof.
  unfold u16_vec. intros Hc. destruct (cur_uint 2 c) as [[n c1]|] eqn:E; [|done]. apply cur_uint_range in E as [_ Hc1]; [|done].
  cbn [fst snd]. by apply cur_take_bytes.
Qed.

Lemma u8_vec_bytes c a c' : is_bytes c -> u8_vec c = Ok (a, c') -> is_bytes a ∧ is_bytes c' ∧ len a < 256.
Proof.
  unfold u8_vec. intros Hc. destruct (cur_uint 1 c) as [[n c1]|] eqn:E; [|done]. apply cur_uint_range in E as [Hn Hc1]; [|done].
  cbn [fst snd]. intros Ht. destruct (cur_take_bytes _ _ _ _ Hc1 Ht) as [Ha Hc']. apply cur_take_len in Ht as [-> _]; [|lia].
  split_and!; [done|done|]. cbn in Hn. lia.
Qed.

Lemma parse_u16_list_range b l : is_bytes b -> parse_u16_list b = Ok l -> Forall (in_u 16) l.
Proof.
  unfold parse_u16_list. intros Hb. destruct (negb _); [done|]. intros [= <-]. unfold chunks. generalize (length b) as fuel. intros fuel. revert b Hb.
  induction fuel as [|fuel IH]; intros b Hb; [constructor|]. cbn [chunks_fuel]. destruct b as [|z b]; [constructor|].
  cbn [fmap list_fmap]. constructor; [|apply IH; by apply Forall_drop]. assert (Ht : is_bytes (take 2 (z :: b))) by (by apply Forall_take).
  pose proof (be_decode_bound _ Ht) as Hx. pose proof (length_take (z :: b) 2) as Hl. unfold in_u.
  assert (256 ^ Z.of_nat (length (take 2 (z :: b))) <= 2 ^ 16); [|lia]. transitivity (256 ^ 2); [apply Z.pow_le_mono_r; lia|done].
Qed.

Lemma parse_shares_range fuel : ∀ s groups l, is_bytes s -> Forall (in_u 16) groups -> parse_shares fuel s groups = Ok l -> Forall (in_u 16) l.
Proof.
  induction fuel as [|fuel IH]; intros s groups l Hs Hg E; cbn [parse_shares] in E; [by injection E as <-|].
  destruct (_ =? _); [by injection E as <-|]. destruct (cur_uint 2 s) as [[g c]|] eqn:E1; [|done]. cbn [fst snd] in E.
  apply cur_uint_range in E1 as [Hx Hc]; [|done]. destruct (u16_vec c) as [[k c']|] eqn:E2; [|done]. cbn [fst snd] in E.
  apply u16_vec_bytes in E2 as [_ Hc']; [|done]. apply IH in E; [done|done|]. apply Forall_app. split; [done|]. by constructor.
Qed.

Lemma parse_extensions_range fuel : ∀ e sg ks r, is_bytes e -> Forall (in_u 16) ks -> parse_extensions fuel e sg ks = Ok r -> Forall (in_u 16) r.2.
Proof.
  induction fuel as [|fuel IH]; intros e sg ks r He Hks E; cbn [parse_extensions] in E; [by injection E as <-|].
  destruct (_ =? _); [by injection E as <-|]. destruct (cur_uint 2 e) as [[t c]|] eqn:E1; [|done]. cbn [fst snd] in E.
  apply cur_uint_range in E1 as [_ Hc]; [|done]. destruct (u16_vec c) as [[d c']|] eqn:E2; [|done]. cbn [fst snd] in E.
  apply u16_vec_bytes in E2 as [Hd Hc']; [|done]. destruct (t =? EXT_SUPPORTED_GROUPS).
  { destruct (u16_vec d) as [[x y]|]; [|done]. cbn [fst snd] in E. destruct (parse_u16_list x); [|done]. by apply IH in E. }
  destruct (t =? EXT_KEY_SHARE); [|by apply IH in E].
  destruct (u16_vec d) as [[x y]|] eqn:E3; [|done]. cbn [fst snd] in E. apply u16_vec_bytes in E3 as [Hx _]; [|done].
  destruct (parse_shares (length x) x ks) as [l|] eqn:E4; [|done]. apply parse_shares_range in E4; [|done|done]. by apply IH in E.
Qed.

Lemma parsed_ranges msg client : is_bytes msg -> parse_client_hello msg = Ok client ->
  len (legacy_session_id client) < 256 ∧ Forall (in_u 16) (cipher_suites client) ∧ Forall (in_u 16) (key_share_groups client).
Proof.
  unfold parse_client_hello. intros Hb E.
  destruct (cur_uint 1 msg) as [[t c1]|] eqn:E1; [|done]. cbn [fst snd] in E. destruct (negb _); [done|]. apply cur_uint_range in E1 as [_ H1]; [|done].
  destruct (cur_uint 3 c1) as [[n c2]|] eqn:E2; [|done]. cbn [fst snd] in E. destruct (negb _); [done|]. apply cur_uint_range in E2 as [_ H2]; [|done].
  destruct (cur_uint 2 c2) as [[v c3]|] eqn:E3; [|done]. cbn [fst snd] in E. destruct (negb _); [done|]. apply cur_uint_range in E3 as [_ H3]; [|done].
  destruct (cur_take 32 c3) as [[rd c4]|] eqn:E4; [|done]. cbn [fst snd] in E. apply cur_take_bytes in E4 as [_ H4]; [|done].
  destruct (u8_vec c4) as [[sid c5]|] eqn:E5; [|done]. cbn [fst snd] in E. apply u8_vec_bytes in E5 as (_ & H5 & Hsid); [|done].
  destruct (u16_vec c5) as [[csb c6]|] eqn:E6; [|done]. cbn [fst snd] in E. apply u16_vec_bytes in E6 as [Hcs H6]; [|done].
  destruct (parse_u16_list csb) as [cs|] eqn:E7; [|done]. apply parse_u16_list_range in E7; [|done].
  destruct (u8_vec c6) as [[cm c7]|] eqn:E8; [|done]. cbn [fst snd] in E. apply u8_vec_bytes in E8 as (_ & H8 & _); [|done].
  destruct (0 <? len c7); [|injection E as <-; by split_and!].
  destruct (u16_vec c7) as [[eb c8]|] eqn:E9; [|done]. cbn [fst snd] in E. apply u16_vec_bytes in E9 as [Heb _]; [|done].
  destruct (parse_extensions (length eb) eb [] []) as [gs|] eqn:E10; [|done]. apply parse_extensions_range in E10; [|done|constructor].
  injection E as <-. by split_and!.
Qed.

Lemma find_first_spec f l x : find_first f l = Some x -> x ∈ l ∧ f x = true.
Proof.
  unfold find_first. intros E. apply fmap_Some in E as ([i y] & E & ->). apply list_find_Some in E as (E & Hf & _).
  split; [by eapply list_elem_of_lookup_2|]. by apply Is_true_eq_true.
Qed.

Lemma contains_spec l x : contains l x = true -> x ∈ l.
Proof. unfold contains. rewrite existsb_exists. intros (y & Hy & ->%Z.eqb_eq). by apply list_elem_of_In. Qed.

Lemma choose_cipher_spec client c : choose_cipher client = Some c -> c ∈ cipher_suites client ∧ is_grease c = false.
Proof.
  unfold choose_cipher. destruct (find_first (contains _) _) as [x|] eqn:E.
  - intros [= <-]. apply find_first_spec in E as [Hx Hc]. split; [done|]. apply contains_spec in Hc. rewrite !elem_of_cons in Hc.
    destruct_or! Hc; subst; try done. by apply not_elem_of_nil in Hc.
  - intros [Hc Hg]%find_first_spec. split; [done|]. by apply negb_true_iff.
Qed.

Lemma choose_group_spec client g : choose_group client = Some g ->
  g ∈ supported_groups client ∧ g ∈ key_share_groups client ∧ is_grease g = false.
Proof.
  assert (Hu : ∀ x, usable client x = true -> x ∈ supported_groups client ∧ x ∈ key_share_groups client ∧ is_grease x = false).
  { unfold usable. intros x [[H1 H2]%andb_true_iff H3]%andb_true_iff. split_and!; [by apply contains_spec|by apply contains_spec|by apply negb_true_iff]. }
  unfold choose_group. destruct (usable client GROUP_X25519) eqn:E; [intros [= <-]; by apply Hu|]. intros [_ Hf]%find_first_spec. by apply Hu.
Qed.

Lemma fresh_random_spec `{RngLaws} tries : ∀ r x r', fresh_server_random tries r = Some (x, r') -> random_ok x = true ∧ length x = 32%nat.
Proof.
  induction tries as [|tries IH]; intros r x r' E; [done|]. cbn [fresh_server_random] in E. pose proof (fill_length r 32) as Hl.
  destruct (fill_bytes r 32) as [y r1]. destruct (random_ok y) eqn:Ey; [by injection E as <- <-|]. by apply IH in E.
Qed.

(** What an observer reads in a ServerHello, following the framing of TLS: the random,
    the echoed session id, the cipher suite, the version and the group of the share. *)
Record Observed := mk_observed { o_random : list Z; o_session_id : list Z; o_cipher : Z; o_version : Z; o_group : Z; o_key : list Z }.

Definition observe_server_hello (msg : list Z) : result Observed CoreError :=
  t <-? cur_uint 1 msg;
  n <-? cur_uint 3 t.2;
  if negb (t.1 =? HS_TYPE_SERVER_HELLO) || negb (len n.2 =? n.1) then Err NetworkError
  else
    v <-? cur_uint 2 n.2;
    random <-? cur_take 32 v.2;
    sid <-? u8_vec random.2;
    cipher <-? cur_uint 2 sid.2;
    compression <-? cur_uint 1 cipher.2;
    exts <-? u16_vec compression.2;
    t1 <-? cur_uint 2 exts.1;
    d1 <-? u16_vec t1.2;
    version <-? cur_uint 2 d1.1;
    t2 <-? cur_uint 2 d1.2;
    d2 <-? u16_vec t2.2;
    group <-? cur_uint 2 d2.1;
    key <-? u16_vec group.2;
    if (t1.1 =? EXT_SUPPORTED_VERSIONS) && (t2.1 =? EXT_KEY_SHARE) && (len d2.2 =? 0) && (len key.2 =? 0) && (len exts.2 =? 0)
    then Ok (mk_observed random.1 sid.1 cipher.1 version.1 group.1 key.1) else Err NetworkError.

(** The hello a builder writes is the hello an observer reads. *)
Lemma server_hello_observed client cipher group random key :
  len (legacy_session_id client) < 256 -> in_u 16 cipher -> in_u 16 group -> length random = 32%nat -> len key <= 2000 ->
  observe_server_hello (handshake_message HS_TYPE_SERVER_HELLO (server_hello_body client cipher group random key)) =
    Ok (mk_observed random (legacy_session_id client) cipher 0x0304 group key).
Proof.
  unfold in_u. intros Hs Hc Hg Hr Hk. pose proof (len_nonneg key). pose proof (len_nonneg (legacy_session_id client)).
  assert (Hks : len (push_u16 group ++ push_u16_vec key) = 4 + len key).
  { unfold len, push_u16. rewrite length_app, push_u16_vec_length, be_encode_length. lia. }
  assert (Hex : len (extension EXT_SUPPORTED_VERSIONS (push_u16 0x0304) ++ extension EXT_KEY_SHARE (push_u16 group ++ push_u16_vec key)) = 14 + len key).
  { unfold len. rewrite length_app, !extension_length. unfold len in *. change (length (push_u16 0x0304)) with 2%nat. lia. }
  assert (Hb : len (server_hello_body client cipher group random key) < 3000 ∧ 0 <= len (server_hello_body client cipher group random key)).
  { split; [|apply len_nonneg]. unfold len in *. unfold server_hello_body. rewrite !length_app, push_u16_vec_length, Hr. rewrite length_app in Hex.
    rewrite length_app. unfold push_u16 at 1 2. rewrite !be_encode_length. cbn [length]. lia. }
  unfold observe_server_hello, handshake_message.
  change (HS_TYPE_SERVER_HELLO :: ?l) with (be_encode 1 HS_TYPE_SERVER_HELLO ++ l). rewrite cur_uint_app by (by vm_compute). cbn [fst snd].
  rewrite wrap_small by (unfold in_u; lia). rewrite cur_uint_app by (change (256 ^ Z.of_nat 3) with 16777216; lia). cbn [fst snd]. rewrite !Z.eqb_refl. cbn [negb orb].
  unfold server_hello_body at 1. rewrite wrap_small by (unfold in_u; lia). unfold push_u16 at 1. rewrite cur_uint_app by (by vm_compute). cbn [fst snd].
  rewrite cur_take_app by (unfold len; by rewrite Hr). cbn [fst snd]. rewrite u8_vec_app by done. cbn [fst snd].
  unfold push_u16 at 1. rewrite cur_uint_app by (cbn; lia). cbn [fst snd]. change [0] with (be_encode 1 0). rewrite cur_uint_app by (by vm_compute). cbn [fst snd].
  rewrite <- (app_nil_r (push_u16_vec _)), u16_vec_app by lia. cbn [fst snd].
  unfold extension at 1. rewrite <- app_assoc. unfold push_u16 at 1. rewrite cur_uint_app by (by vm_compute). cbn [fst snd]. rewrite u16_vec_app by (by vm_compute). cbn [fst snd].
  rewrite <- (app_nil_r (push_u16 0x0304)) at 1. unfold push_u16 at 1. rewrite cur_uint_app by (by vm_compute). cbn [fst snd].
  unfold extension at 1. unfold push_u16 at 1. rewrite cur_uint_app by (by vm_compute). cbn [fst snd].
  rewrite <- (app_nil_r (push_u16_vec (push_u16 group ++ _))), u16_vec_app by lia. cbn [fst snd].
  unfold push_u16 at 1. rewrite cur_uint_app by (cbn; lia). cbn [fst snd].
  rewrite <- (app_nil_r (push_u16_vec key)), u16_vec_app by lia. done.
Qed.

(** Two random sources: one whose bytes count its calls, and one that only gives zeros. *)
Definition count_fill (s : Z) (n : nat) : list Z * Z := (replicate n (s mod 256), s + 1).
Definition count_rng : Rng := {| rng := Z; fill_bytes := count_fill |}.
Definition zero_rng : Rng := {| rng := (); fill_bytes _ n := (replicate n 0, tt) |}.

Lemma count_rng_laws : @RngLaws count_rng.
Proof.
  split; intros r n; cbn; [apply length_replicate|]. apply Forall_replicate. unfold is_byte. pose proof (Z.mod_pos_bound r 256). lia.
Qed.

Lemma zero_rng_laws : @RngLaws zero_rng.
Proof. split; intros r n; cbn; [apply length_replicate|]. apply Forall_replicate. unfold is_byte. lia. Qed.

(** The ServerHello a server sends answers the ClientHello it read, whatever bytes that
    one was: read by the framing of TLS, it echoes the session id, names a cipher suite
    the client offered and a group the client both supports and sent a share for, none of
    them a GREASE value, selects TLS 1.3, carries a key of the length of its group, and
    its random is none of the reserved values. *)
Theorem server_answer_consistent `{RngLaws} msg client tries r sh r' :
  is_bytes msg -> parse_client_hello msg = Ok client -> build_server_hello tries client r = Some (Ok sh, r') ->
  ∃ o, observe_server_hello sh = Ok o ∧ o_session_id o = legacy_session_id client ∧
    o_cipher o ∈ cipher_suites client ∧ is_grease (o_cipher o) = false ∧ o_version o = 0x0304 ∧
    o_group o ∈ supported_groups client ∧ o_group o ∈ key_share_groups client ∧ is_grease (o_group o) = false ∧
    length (o_key o) = group_key_exchange_len (o_group o) ∧ random_ok (o_random o) = true.
Proof.
  intros Hb Hp E. apply parsed_ranges in Hp as (Hs & Hcs & Hks); [|done]. unfold build_server_hello in E.
  destruct (choose_cipher client) as [cipher|] eqn:Ec; [|done]. apply choose_cipher_spec in Ec as [Hc Hcg].
  destruct (choose_group client) as [group|] eqn:Eg; [|done]. apply choose_group_spec in Eg as (Hg1 & Hg2 & Hgg).
  destruct (fresh_server_random tries r) as [[random r1]|] eqn:Er; [|done]. apply fresh_random_spec in Er as [Hok Hr].
  cbn [mbind option_bind] in E. pose proof (fill_length r1 (group_key_exchange_len group)) as Hk.
  destruct (fill_bytes r1 (group_key_exchange_len group)) as [key r2]. cbn [fst] in Hk. injection E as <- <-.
  rewrite Forall_forall in Hcs, Hks. exists (mk_observed random (legacy_session_id client) cipher 0x0304 group key).
  split; [|by split_and!]. apply server_hello_observed; [done|by apply Hcs|by apply Hks|done|].
  unfold len. rewrite Hk. unfold group_key_exchange_len. repeat case_match; lia.
Qed.

Lemma server_answer_consistent_witness : ∃ o,
  o_group o = GROUP_X25519 ∧ o_group o ∈ [0x001d] ∧ o_group o ∈ [0x1a1a; 0x001d].
Proof.
  destruct (@server_answer_consistent count_rng count_rng_laws
    (handshake_message 1 (push_u16 0x0303 ++ replicate 32 7 ++ [2; 8; 9] ++ push_u16_vec (push_u16 0x1301) ++ [1; 0] ++
       push_u16_vec (extension 0x0033 (push_u16_vec (share (0x1a1a, [0]) ++ share (0x001d, replicate 32 5))) ++ extension 0x000a (push_u16_vec (push_u16 0x001d)))))
    (mk_parsed [8; 9] [0x1301] [0x001d] [0x1a1a; 0x001d]) 1 (0 : @rng count_rng)
    (handshake_message 2 (server_hello_body (mk_parsed [8; 9] [0x1301] [0x001d] [0x1a1a; 0x001d]) 0x1301 0x001d (count_fill 0 32).1 (count_fill 1 32).1)) (2 : @rng count_rng))
    as (o & Ho & _ & _ & _ & _ & H1 & H2 & _).
  - apply is_bytes_check. by vm_compute.
  - by vm_compute.
  - by vm_compute.
  - exists o. split_and!; [|done|done]. cbn [supported_groups] in H1. by apply list_elem_of_singleton in H1.
Defined.

(** ** Two rules the hello does not keep *)

(** The types of the extensions of a hello of this builder. *)
Fixpoint types_of (fuel : nat) (e : list Z) : list Z :=
  match fuel with
  | O => []
  | S fuel' => match cur_uint 2 e with Ok (t, c) => match u16_vec c with Ok (_, c') => t :: types_of fuel' c' | Err _ => [t] end | Err _ => [] end
  end.
Definition extension_types (msg : list Z) : list Z := let e := drop 109 msg in types_of (length e) e.

(** The six GREASE values are drawn independently.  Two extensions of one hello can
    therefore have the same type, and the key share can name a group the hello does not
    list as supported; TLS 1.3 forbids both. *)
Theorem hello_breaks_tls_rules :
  (∃ (R : Rng) (_ : RngLaws) (r r' : rng) msg, build_client_hello [120] r = (Ok msg, r') ∧ ~ NoDup (extension_types msg)) ∧
  (∃ (R : Rng) (_ : RngLaws) (r r' : rng) msg client g, build_client_hello [120] r = (Ok msg, r') ∧ parse_client_hello msg = Ok client ∧
     g ∈ key_share_groups client ∧ g ∉ supported_groups client).
Proof.
  split.
  - exists zero_rng, zero_rng_laws, tt, tt. eexists. split; [vm_compute; reflexivity|].
    apply (bool_decide_eq_false_1 (NoDup _)). by vm_compute.
  - exists count_rng, count_rng_laws, 0. do 2 eexists. eexists. exists 0x5a5a. split_and!; [vm_compute; reflexivity|vm_compute; reflexivity| |].
    + apply (bool_decide_eq_true_1 (_ ∈ _)). by vm_compute.
    + apply (bool_decide_eq_false_1 (_ ∈ _)). by vm_compute.
Qed.
