(* ===== verification/TlsPrelude.v ===== *)
(** * The prelude of the mimicry leg ([core/src/transport/legs/mimic_tls/theater.rs], [leg.rs])

    Before a leg carries messages its two ends exchange a fixed sequence of TLS records:
    a ClientHello, four records of the server, two of the client.  What was read past the
    prelude seeds the record framing of TlsRecords.v.  A server whose prelude fails keeps
    silent until the deadline that would have ended the prelude anyway.

    The socket is a parameter, as in ByteStream.v: the pieces in which the peer's bytes
    arrive, and what each write came to. *)

From Stdlib Require Import ZArith Lia.
From stdpp Require Import base numbers option list relations.
From S2P Require Import Prelude Errors UdpTransport ByteStream TlsRecords TlsHello.

Local Open Scope phantom_scope.
Local Open Scope Z_scope.

Definition CHANGE_CIPHER_SPEC : list Z := [0x14; 0x03; 0x03; 0x00; 0x01; 0x01].
Definition OPAQUE_FLIGHT_MIN : Z := 1500.
Definition OPAQUE_FLIGHT_MAX : Z := 4000.
Definition TICKET_MIN : Z := 150.
Definition TICKET_MAX : Z := 300.
Definition FINISHED_MIN : Z := 36.
Definition FINISHED_MAX : Z := 64.
Definition CLOSE_NOTIFY_MIN : Z := 19.
Definition CLOSE_NOTIFY_MAX : Z := 31.
(** Milliseconds. *)
Definition PRELUDE_DEADLINE : Z := 10000.

Definition SERVER_FLIGHT_TYPES : list Z := [CT_HANDSHAKE; CT_CHANGE_CIPHER_SPEC; CT_APPLICATION_DATA; CT_APPLICATION_DATA].
Definition CLIENT_FINISHED_TYPES : list Z := [CT_CHANGE_CIPHER_SPEC; CT_APPLICATION_DATA].

(** ** The records *)

Section Theater.
Context {R : Rng}.

Definition rand_len (r : rng) (min max : Z) : Z * rng :=
  let '(x, r1) := next_u64 r in (min + x mod (max - min + 1), r1).

Definition opaque_record (content_type n : Z) (r : rng) : result (list Z) CoreError * rng :=
  let '(frag, r1) := fill_bytes r (Z.to_nat n) in (encode_record content_type VER_TLS12 frag, r1).

Definition client_hello_record (sni : list Z) (r : rng) : result (list Z) CoreError * rng :=
  let '(ch, r1) := build_client_hello sni r in
  (ch <-? ch; encode_record CT_HANDSHAKE VER_TLS10 ch, r1).

(** [None] as in [build_server_hello]: the random was not settled in [tries] draws. *)
Definition server_flight (tries : nat) (client : ParsedClientHello) (r : rng) : option (result (list Z) CoreError * rng) :=
  '(sh, r1) ← build_server_hello tries client r;
  match (sh <-? sh; encode_record CT_HANDSHAKE VER_TLS12 sh) with
  | Err e => Some (Err e, r1)
  | Ok hello =>
    let '(n, r2) := rand_len r1 OPAQUE_FLIGHT_MIN OPAQUE_FLIGHT_MAX in
    let '(opaque, r3) := opaque_record CT_APPLICATION_DATA n r2 in
    match opaque with
    | Err e => Some (Err e, r3)
    | Ok opaque =>
      let '(m, r4) := rand_len r3 TICKET_MIN TICKET_MAX in
      let '(ticket, r5) := opaque_record CT_APPLICATION_DATA m r4 in
      Some (ticket <-? ticket; Ok (hello ++ CHANGE_CIPHER_SPEC ++ opaque ++ ticket), r5)
    end
  end.

Definition client_finished_flight (r : rng) : result (list Z) CoreError * rng :=
  let '(n, r1) := rand_len r FINISHED_MIN FINISHED_MAX in
  let '(fin, r2) := opaque_record CT_APPLICATION_DATA n r1 in
  (fin <-? fin; Ok (CHANGE_CIPHER_SPEC ++ fin), r2).

Definition close_notify_record (r : rng) : result (list Z) CoreError * rng :=
  let '(n, r1) := rand_len r CLOSE_NOTIFY_MIN CLOSE_NOTIFY_MAX in opaque_record CT_APPLICATION_DATA n r1.

End Theater.

(** ** Reading records *)

Definition take_record (buf : list Z) (expected_type : Z) : result (option (list Z)) CoreError * list Z :=
  if (length buf <? TLS_RECORD_HEADER_LEN)%nat then (Ok None, buf)
  else
    let frag_len := declared buf in
    if MAX_RECORD_FRAGMENT_WIRE <? frag_len then (Err NetworkError, buf)
    else if negb (nth 0 buf 0 =? expected_type) then (Err NetworkError, buf)
    else if len buf <? Z.of_nat TLS_RECORD_HEADER_LEN + frag_len then (Ok None, buf)
    else
      let body := drop TLS_RECORD_HEADER_LEN buf in
      (Ok (Some (take (Z.to_nat frag_len) body)), drop (Z.to_nat frag_len) body).

(** [read_one_record] over the pieces the socket hands over, an empty one for the end of
    the stream; [None] while it waits. *)
Fixpoint read_one_record (buf : list Z) (pieces : list (list Z)) (expected_type : Z) : option (result (list Z) CoreError) * list Z * list (list Z) :=
  match take_record buf expected_type with
  | (Err e, b) => (Some (Err e), b, pieces)
  | (Ok (Some frag), b) => (Some (Ok frag), b, pieces)
  | (Ok None, b) =>
    match pieces with
    | [] => (None, b, [])
    | [] :: more => (Some (Err ConnectionClosed), b, more)
    | p :: more => read_one_record (b ++ p) more expected_type
    end
  end.

Fixpoint read_records (types : list Z) (buf : list Z) (pieces : list (list Z)) : option (result () CoreError) * list Z * list (list Z) :=
  match types with
  | [] => (Some (Ok ()), buf, pieces)
  | t :: types' =>
    match read_one_record buf pieces t with
    | (Some (Ok _), b, more) => read_records types' b more
    | (Some (Err e), b, more) => (Some (Err e), b, more)
    | (None, b, more) => (None, b, more)
    end
  end.

(** ** The two ends *)

(** What [write_all] and [flush] came to: everything, or an error after some bytes. *)
Inductive Wrote := AllOfIt | FailedAfter (n : nat).
Definition write (w : Wrote) (data : list Z) : result () CoreError * list Z :=
  match w with AllOfIt => (Ok (), data) | FailedAfter n => (Err NetworkError, take n data) end.

(** Where the exchange stands when the pieces are used up: over, failed, or waiting for
    the peer. *)
Inductive PreludeEnd := Done (leftover : list Z) (more : list (list Z)) | Failed (e : CoreError) | Waiting.

Section Ends.
Context {R : Rng}.

(** The client: its end, and the bytes it put on the wire. *)
Definition client_prelude (sni : list Z) (r : rng) (w1 w2 : Wrote) (pieces : list (list Z)) : PreludeEnd * list Z :=
  let '(ch, r1) := client_hello_record sni r in
  match ch with
  | Err e => (Failed e, [])
  | Ok ch =>
    match write w1 ch with
    | (Err e, out) => (Failed e, out)
    | (Ok _, out) =>
      match read_records SERVER_FLIGHT_TYPES [] pieces with
      | (None, _, _) => (Waiting, out)
      | (Some (Err e), _, _) => (Failed e, out)
      | (Some (Ok _), buf, more) =>
        let '(fin, _) := client_finished_flight r1 in
        match fin with
        | Err e => (Failed e, out)
        | Ok fin =>
          match write w2 fin with
          | (Err e, out2) => (Failed e, out ++ out2)
          | (Ok _, out2) => (Done buf more, out ++ out2)
          end
        end
      end
    end
  end.

(** The server, the same way; [None] while the random of its hello is not settled. *)
Definition server_prelude (tries : nat) (r : rng) (w : Wrote) (pieces : list (list Z)) : option (PreludeEnd * list Z) :=
  match read_one_record [] pieces CT_HANDSHAKE with
  | (None, _, _) => Some (Waiting, [])
  | (Some (Err e), _, _) => Some (Failed e, [])
  | (Some (Ok ch), buf, more) =>
    match parse_client_hello ch with
    | Err e => Some (Failed e, [])
    | Ok parsed =>
      '(flight, _) ← server_flight tries parsed r;
      match flight with
      | Err e => Some (Failed e, [])
      | Ok flight =>
        match write w flight with
        | (Err e, out) => Some (Failed e, out)
        | (Ok _, out) =>
          match read_records CLIENT_FINISHED_TYPES buf more with
          | (None, _, _) => Some (Waiting, out)
          | (Some (Err e), _, _) => Some (Failed e, out)
          | (Some (Ok _), buf2, more2) => Some (Done buf2 more2, out)
          end
        end
      end
    end
  end.

End Ends.

(** [RecordDeframer::new] seeded with what was read past the prelude. *)
Definition leg_of (leftover : list Z) : RecordDeframer := push deframer_new leftover.

(** What [connect] returns, an exchange still waiting at the deadline included. *)
Definition connect (e : PreludeEnd) : result (RecordDeframer * list (list Z)) CoreError :=
  match e with
  | Done leftover more => Ok (leg_of leftover, more)
  | Failed e => Err e
  | Waiting => Err Timeout
  end.

(** What the socket of a refused peer does while it is drained, with the time since the
    drain began. *)
Inductive ReadEvent := SomeBytes | EndOfStream | ReadFailed.

(** [black_hole]: how long it drains. *)
Fixpoint black_hole (remaining : Z) (events : list (Z * ReadEvent)) : Z :=
  match events with
  | [] => remaining
  | (t, ev) :: more =>
    if remaining <=? t then remaining
    else match ev with SomeBytes => black_hole remaining more | EndOfStream | ReadFailed => t end
  end.

(** What [accept] returns and the time it takes when the prelude ended [elapsed] after the
    start ([Waiting] at the deadline). *)
Definition accept (e : PreludeEnd) (elapsed : Z) (events : list (Z * ReadEvent)) : result (RecordDeframer * list (list Z)) CoreError * Z :=
  match e with
  | Done leftover more => (Ok (leg_of leftover, more), elapsed)
  | Failed _ | Waiting => (Err ConnectionClosed, elapsed + black_hole (sat_sub PRELUDE_DEADLINE elapsed) events)
  end.

(** ** Records on the wire *)

Record Rec := mk_rec { rec_type : Z; rec_version : Z; rec_fragment : list Z }.
Definition rec_bytes (x : Rec) : list Z := tls_record (rec_type x) (rec_version x) (rec_fragment x).
Definition rec_ok (x : Rec) : Prop := len (rec_fragment x) <= MAX_RECORD_FRAGMENT_WIRE.

(** What a reader may hold: a record that is not complete and one piece. *)
Definition HELD_MAX : Z := Z.of_nat TLS_RECORD_HEADER_LEN + MAX_RECORD_FRAGMENT_WIRE + READ_MAX.

Lemma take_whole x l : rec_ok x -> take_record (rec_bytes x ++ l) (rec_type x) = (Ok (Some (rec_fragment x)), l).
Proof.
  unfold rec_ok. intros Hx. unfold rec_bytes. destruct x as [t v f]. cbn [rec_type rec_version rec_fragment] in *.
  assert (Hf : len f < 2 ^ 16) by (unfold MAX_RECORD_FRAGMENT_WIRE, MAX_RECORD_FRAGMENT in Hx; lia).
  destruct (tls_record_header t v f l Hf) as (H1 & H2 & H3). unfold take_record. rewrite H1, H2, H3, Z.eqb_refl. cbn [negb].
  assert (Hl : length (tls_record t v f ++ l) = (5 + length f + length l)%nat) by (by rewrite length_app, tls_record_length).
  destruct (Nat.ltb_spec (length (tls_record t v f ++ l)) TLS_RECORD_HEADER_LEN); [unfold TLS_RECORD_HEADER_LEN in *; lia|].
  destruct (Z.ltb_spec MAX_RECORD_FRAGMENT_WIRE (len f)); [lia|].
  destruct (Z.ltb_spec (len (tls_record t v f ++ l)) (Z.of_nat TLS_RECORD_HEADER_LEN + len f)) as [Hx'|_].
  { unfold len, TLS_RECORD_HEADER_LEN in Hx'. lia. }
  unfold len. by rewrite Nat2Z.id, take_app_length, drop_app_length.
Qed.

Lemma take_begun x w : rec_ok x -> w `prefix_of` rec_bytes x -> w ≠ rec_bytes x ->
  take_record w (rec_type x) = (Ok None, w) ∧ len w < Z.of_nat TLS_RECORD_HEADER_LEN + MAX_RECORD_FRAGMENT_WIRE.
Proof.
  unfold rec_ok. intros Hx Hw Hne. unfold rec_bytes in *. destruct x as [t v f]. cbn [rec_type rec_version rec_fragment] in *.
  assert (Hf : len f < 2 ^ 16) by (unfold MAX_RECORD_FRAGMENT_WIRE, MAX_RECORD_FRAGMENT in Hx; lia).
  assert (Hlt : (length w < 5 + length f)%nat).
  { pose proof (prefix_length _ _ Hw) as Hl. rewrite tls_record_length in Hl. destruct (decide (length w = 5 + length f)%nat) as [E|]; [|lia].
    destruct Hne. apply prefix_length_eq; [done|]. rewrite tls_record_length. lia. }
  split; [|unfold len, TLS_RECORD_HEADER_LEN in *; lia]. unfold take_record. destruct (Nat.ltb_spec (length w) TLS_RECORD_HEADER_LEN) as [|H5]; [done|].
  destruct (tls_record_begun t v f w Hf Hw H5) as [-> ->]. rewrite Z.eqb_refl. cbn [negb]. destruct (Z.ltb_spec MAX_RECORD_FRAGMENT_WIRE (len f)); [lia|].
  destruct (Z.ltb_spec (len w) (Z.of_nat TLS_RECORD_HEADER_LEN + len f)) as [|Hge]; [done|]. unfold len, TLS_RECORD_HEADER_LEN in Hge. lia.
Qed.

(** A record is read whole, however its bytes are cut, and nothing after it is lost. *)
Lemma read_one_spec x rest : rec_ok x -> ∀ pieces buf,
  buf ++ concat pieces = rec_bytes x ++ rest -> Forall piece_ok pieces -> len buf <= HELD_MAX ->
  ∃ buf' pieces', read_one_record buf pieces (rec_type x) = (Some (Ok (rec_fragment x)), buf', pieces') ∧
    buf' ++ concat pieces' = rest ∧ Forall piece_ok pieces' ∧ len buf' <= HELD_MAX.
Proof.
  intros Hx. induction pieces as [|p pieces IH]; intros buf E Hp Hb.
  - cbn [concat] in E. rewrite app_nil_r in E. subst buf. exists rest, []. cbn [read_one_record]. rewrite take_whole by done.
    rewrite len_app in Hb. pose proof (len_nonneg (rec_bytes x)). split_and!; [done|apply app_nil_r|done|lia].
  - cbn [read_one_record]. assert (Hpre : buf `prefix_of` rec_bytes x ++ rest) by (eexists; by symmetry).
    destruct (prefix_split _ _ _ Hpre) as [(b & -> & _)|[Hw Hne]].
    + rewrite take_whole by done. rewrite <- app_assoc in E. apply app_inv_head in E. exists b, (p :: pieces).
      rewrite len_app in Hb. pose proof (len_nonneg (rec_bytes x)). split_and!; [done|done|done|lia].
    + destruct (take_begun x buf Hx Hw Hne) as [-> Hl]. apply Forall_cons in Hp as [[Hne' Hpl] Hp]. destruct p as [|z p]; [done|].
      apply IH; [by rewrite <- app_assoc|done|]. rewrite len_app. unfold HELD_MAX. lia.
Qed.

Lemma read_records_spec xs rest : Forall rec_ok xs -> ∀ pieces buf,
  buf ++ concat pieces = (xs ≫= rec_bytes) ++ rest -> Forall piece_ok pieces -> len buf <= HELD_MAX ->
  ∃ buf' pieces', read_records (rec_type <$> xs) buf pieces = (Some (Ok ()), buf', pieces') ∧
    buf' ++ concat pieces' = rest ∧ Forall piece_ok pieces' ∧ len buf' <= HELD_MAX.
Proof.
  induction 1 as [|x xs Hx HF IH]; intros pieces buf E Hp Hb; [by exists buf, pieces|].
  cbn [mbind list_bind] in E. rewrite <- app_assoc in E. cbn [fmap list_fmap read_records].
  destruct (read_one_spec x _ Hx pieces buf E Hp Hb) as (b & ps & -> & E' & Hp' & Hb'). by apply IH.
Qed.

(** With nothing to read a reader waits. *)
Lemma read_records_wait t ts pieces : concat pieces = [] -> Forall piece_ok pieces -> read_records (t :: ts) [] pieces = (None, [], []).
Proof. intros E Hp. destruct pieces as [|p pieces]; [done|]. apply Forall_cons in Hp as [[Hp _] _]. cbn in E. by apply app_nil in E as [-> _]. Qed.

(** ** What the two ends write *)

Section Flights.
Context `{RngLaws}.

Lemma rand_len_range r min max : min <= max -> min <= (rand_len r min max).1 <= max.
Proof.
  intros Hm. unfold rand_len. destruct (next_u64 r) as [x r1]. cbn. pose proof (Z.mod_pos_bound x (max - min + 1)). lia.
Qed.

(** A draw of a length and a record of that many bytes. *)
Lemma opaque_spec r min max : 0 <= min <= max -> max <= 4000 ->
  ∃ x r', rec_ok x ∧ rec_type x = CT_APPLICATION_DATA ∧
    (let '(n, r1) := rand_len r min max in opaque_record CT_APPLICATION_DATA n r1) = (Ok (rec_bytes x), r').
Proof.
  intros H1 H2. pose proof (rand_len_range r min max ltac:(lia)) as Hn. destruct (rand_len r min max) as [n r1]. cbn [fst] in Hn.
  unfold opaque_record. pose proof (fill_length r1 (Z.to_nat n)) as Hl. destruct (fill_bytes r1 (Z.to_nat n)) as [f r2]. cbn [fst] in Hl.
  assert (Hf : len f <= MAX_RECORD_FRAGMENT_WIRE) by (unfold len, MAX_RECORD_FRAGMENT_WIRE, MAX_RECORD_FRAGMENT; lia).
  exists (mk_rec CT_APPLICATION_DATA VER_TLS12 f), r2. split_and!; [done|done|]. by rewrite encode_record_ok.
Qed.

Definition ccs : Rec := mk_rec CT_CHANGE_CIPHER_SPEC VER_TLS12 [1].
Lemma ccs_bytes : CHANGE_CIPHER_SPEC = rec_bytes ccs.
Proof. done. Qed.

Lemma finished_spec r : ∃ xs r', Forall rec_ok xs ∧ rec_type <$> xs = CLIENT_FINISHED_TYPES ∧
  client_finished_flight r = (Ok (xs ≫= rec_bytes), r').
Proof.
  destruct (opaque_spec r FINISHED_MIN FINISHED_MAX) as (x & r' & Hx & Ht & E); [done|done|]. unfold client_finished_flight.
  destruct (rand_len r FINISHED_MIN FINISHED_MAX) as [n r1]. rewrite E. exists [ccs; x], r'. split_and!.
  - constructor; [done|]. by constructor.
  - cbn. by rewrite Ht.
  - rewrite ccs_bytes. cbn [mbind list_bind]. by rewrite app_nil_r.
Qed.

(** The hello record of a client. *)
Lemma client_hello_record_spec sni r : len sni <= MAX_SNI_LEN -> ∃ x p r',
  rec_ok x ∧ rec_type x = CT_HANDSHAKE ∧ parts_ok p ∧ client_hello_record sni r = (Ok (rec_bytes x), r') ∧
  parse_client_hello (rec_fragment x) = Ok (offered p).
Proof.
  intros Hs. destruct (client_hello_shape sni r Hs) as (p & L & r' & _ & Hp & HL & E).
  destruct (hello_read p L sni Hp Hs HL) as [Hlen Hparse]. unfold client_hello_record. rewrite E.
  set (msg := handshake_message _ _) in *. exists (mk_rec CT_HANDSHAKE VER_TLS10 msg), p, r'.
  assert (Hm : len msg <= MAX_RECORD_FRAGMENT_WIRE).
  { unfold msg, handshake_message, MAX_RECORD_FRAGMENT_WIRE, MAX_RECORD_FRAGMENT. unfold len in *. cbn [length]. rewrite length_app, be_encode_length. lia. }
  split_and!; [done|done|done| |done]. by rewrite encode_record_ok.
Qed.

(** What a client of this leg offers always has an answer. *)
Lemma offered_answered p : parts_ok p -> ∃ cipher, choose_cipher (offered p) = Some cipher ∧ choose_group (offered p) = Some GROUP_X25519.
Proof.
  intros (Hg & _). rewrite !Forall_cons in Hg. destruct Hg as ([Hc _] & _). unfold offered.
  assert (Hu : usable (offered p) GROUP_X25519 = true).
  { unfold usable, contains, offered. cbn [supported_groups key_share_groups existsb].
    apply andb_true_iff. split; [apply andb_true_iff; split; [done|]|]; apply orb_true_iff; right; done. }
  unfold choose_group. fold (offered p). rewrite Hu. unfold choose_cipher, find_first, offered. cbn [cipher_suites list_find].
  destruct (decide _) as [_|_]; [by eexists|]. cbn. by eexists.
Qed.

(** The answer of a server to it. *)
Lemma server_flight_spec tries p r x : parts_ok p -> fresh_server_random tries r = Some x ->
  ∃ xs r', Forall rec_ok xs ∧ rec_type <$> xs = SERVER_FLIGHT_TYPES ∧ server_flight tries (offered p) r = Some (Ok (xs ≫= rec_bytes), r').
Proof.
  intros Hp Hx. destruct (offered_answered p Hp) as (cipher & Ec & Eg). unfold server_flight, build_server_hello. rewrite Ec, Eg, Hx.
  cbn [mbind option_bind]. destruct x as [random r1]. apply fresh_random_spec in Hx as [_ Hr].
  pose proof (fill_length r1 (group_key_exchange_len GROUP_X25519)) as Hk. destruct (fill_bytes r1 _) as [key r2]. cbn [fst] in Hk.
  set (msg := handshake_message _ _). assert (Hm : len msg <= MAX_RECORD_FRAGMENT_WIRE).
  { destruct Hp as (_ & _ & Hs & _). unfold msg, handshake_message, server_hello_body, len, MAX_RECORD_FRAGMENT_WIRE, MAX_RECORD_FRAGMENT. cbn [length legacy_session_id offered].
    rewrite !length_app, push_u16_vec_length, !length_app, !extension_length, !length_app, push_u16_vec_length, Hr, Hs, Hk. cbn. lia. }
  cbn [mbind option_bind]. rewrite encode_record_ok by done.
  destruct (opaque_spec r2 OPAQUE_FLIGHT_MIN OPAQUE_FLIGHT_MAX) as (x1 & r3 & Hx1 & Ht1 & E1); [done|done|].
  destruct (rand_len r2 OPAQUE_FLIGHT_MIN OPAQUE_FLIGHT_MAX) as [n1 r2']. rewrite E1.
  destruct (opaque_spec r3 TICKET_MIN TICKET_MAX) as (x2 & r4 & Hx2 & Ht2 & E2); [done|done|].
  destruct (rand_len r3 TICKET_MIN TICKET_MAX) as [n2 r3']. rewrite E2.
  exists [mk_rec CT_HANDSHAKE VER_TLS12 msg; ccs; x1; x2], r4. split_and!.
  - by repeat (apply Forall_cons; split).
  - cbn. by rewrite Ht1, Ht2.
  - rewrite ccs_bytes. cbn [mbind list_bind]. by rewrite app_nil_r.
Qed.

End Flights.

(** ** The exchange *)

(** An end of the leg whose peer's bytes past the prelude begin with [data]: none of them
    is lost, and when they are the bytes of messages, the messages come out. *)
Definition seeded (data : list Z) (leftover : list Z) (more : list (list Z)) : Prop :=
  leftover ++ concat more = data ∧ Forall piece_ok more ∧
  ∀ ph l n, failure_is_final (mk_pipe false) l -> Forall (fits ph) l.*1 ->
    let '(rs, w) := send_all_messages (mk_pipe false) l in
    data `prefix_of` w -> (S (length l) < n)%nat ->
    ∃ got, recv_all n ph (leg_of leftover) more = (got, None) ∧
      (got `prefix_of` succeeded l rs ∨ ∃ m, m ∈ l.*1 ∧ got = succeeded l rs ++ [m]) ∧
      (data = w -> succeeded l rs `prefix_of` got).

Lemma seeded_intro data leftover more : leftover ++ concat more = data -> Forall piece_ok more -> len leftover <= HELD_MAX -> seeded data leftover more.
Proof.
  intros <- Hp Hl. split_and!; [done|done|]. intros ph l n Hf Hfit.
  apply (pipe_delivers_from (F := record_framing) PhaseHandshake (leg_of leftover) leftover ph); [|by destruct ph|done|done|done].
  unfold HELD_MAX, TLS_RECORD_HEADER_LEN, MAX_RECORD_FRAGMENT_WIRE, MAX_RECORD_FRAGMENT, READ_MAX in Hl.
  apply (holds_intro PhaseHandshake [] leftover leftover); [|constructor|done].
  cbn [phase_cap]. unfold HANDSHAKE_FRAME_CAP, STREAM_SLACK. lia.
Qed.

Section Exchange.
Context `{RngLaws}.


End Exchange.


(** ** Peers that are refused *)

Lemma black_hole_full remaining events : Forall (λ ev, ev.2 = SomeBytes ∨ remaining <= ev.1) events -> black_hole remaining events = remaining.
Proof.
  induction 1 as [|[t ev] events [He|He] HF IH]; cbn in *; [done| |].
  - subst ev. by destruct (_ <=? _).
  - by destruct (Z.leb_spec remaining t); [|lia].
Qed.

(** A peer the server refuses learns nothing from it: whatever the reason and whenever it
    arose, a peer that keeps the connection open sees it dropped at the deadline and with
    the same answer; and unless it sent a ClientHello the server could read, it has not
    received one byte. *)
Theorem refused_peers_look_alike {R : Rng} tries r w pieces e out elapsed events :
  server_prelude tries r w pieces = Some (e, out) -> (∀ leftover more, e ≠ Done leftover more) -> 0 <= elapsed <= PRELUDE_DEADLINE ->
  Forall (λ ev, ev.2 = SomeBytes ∨ PRELUDE_DEADLINE - elapsed <= ev.1) events ->
  accept e elapsed events = (Err ConnectionClosed, PRELUDE_DEADLINE) ∧
  (out = [] ∨ ∃ ch buf more client, read_one_record [] pieces CT_HANDSHAKE = (Some (Ok ch), buf, more) ∧ parse_client_hello ch = Ok client).
Proof.
  intros E Hne Ht Hev. split.
  - unfold accept, sat_sub. rewrite Z.max_r by lia. rewrite black_hole_full by done.
    destruct e as [b m|err|]; [by destruct (Hne b m)|f_equal; lia|f_equal; lia].
  - unfold server_prelude in E. destruct (read_one_record [] pieces CT_HANDSHAKE) as [[[[ch|err]|] buf] more]; [|by injection E as <- <-; left..].
    destruct (parse_client_hello ch) as [client|err] eqn:Ep; [|by injection E as <- <-; left]. right. by exists ch, buf, more, client.
Qed.

Lemma refused_peers_look_alike_witness :
  accept (Failed NetworkError) 40 [(3, SomeBytes); (9990, EndOfStream)] = (Err ConnectionClosed, PRELUDE_DEADLINE).
Proof.
  refine (proj1 (@refused_peers_look_alike zero_rng 1 (tt : @rng zero_rng) AllOfIt [[71; 69; 84; 32; 47; 32]] (Failed NetworkError) [] 40
    [(3, SomeBytes); (9990, EndOfStream)] _ _ _ _)).
  - by vm_compute.
  - done.
  - by vm_compute.
  - constructor; [by left|]. constructor; [by right|constructor].
Defined.
