(* ===== verification/Frames.v ===== *)
(** * Length-prefixed frames ([core/src/transport/framing.rs],
      [core/src/transport/legs/embedded/framing.rs], [embedded/mod.rs])

    Two more users of a four-byte length in front of a frame.  The frame writer seals
    each frame under the counter nonces of a [CryptoSession] and writes it in one call;
    the embedded leg carries messages over a serial link into a buffer of fixed size. *)

From Stdlib Require Import ZArith Lia.
From stdpp Require Import base numbers option list.
From S2P Require Import Prelude Errors Crypto ByteStream.

Local Open Scope phantom_scope.
Local Open Scope Z_scope.

Definition FRAME_HEADER_SIZE : nat := 4.
Definition MAX_FRAME_PAYLOAD : Z := 64 * 1024.

Inductive FrameError := FrameIo | EncryptFailed | DecryptFailed | FrameTooLarge (n : Z).

(** What [write_all] came to: everything, or an error after some bytes. *)
Inductive StreamWrite := WroteAll | WriteFailedAfter (n : nat).

Section Frames.
Context `{Primitives}.

(** One frame: the length of the ciphertext, which is also the associated data, and the
    ciphertext behind it. *)
Definition seal_frame (session : CryptoSession) (chunk : list Z) : result (list Z) FrameError * CryptoSession :=
  let ct_len := len chunk + AEAD_OVERHEAD in
  let len_bytes := be_encode 4 (wrap 32 ct_len) in
  let '(ct, session1) := encrypt session len_bytes chunk in
  (match ct with Ok ct => Ok (len_bytes ++ ct) | Err _ => Err EncryptFailed end, session1).

(** The frames of a batch in one buffer; a frame that cannot be sealed ends it. *)
Fixpoint seal_frames (session : CryptoSession) (l : list (list Z)) : result (list Z) FrameError * CryptoSession :=
  match l with
  | [] => (Ok [], session)
  | chunk :: l' =>
    match seal_frame session chunk with
    | (Err e, session1) => (Err e, session1)
    | (Ok frame, session1) =>
      let '(rest, session2) := seal_frames session1 l' in
      (rest <-? rest; Ok (frame ++ rest), session2)
    end
  end.

(** What is written, and what the call returns. *)
Definition write_batch (session : CryptoSession) (l : list (list Z)) (total : Z) (w : StreamWrite) : result Z FrameError * CryptoSession * list Z :=
  let '(buf, session1) := seal_frames session l in
  match buf with
  | Err e => (Err e, session1, [])
  | Ok buf => match w with WroteAll => (Ok total, session1, buf) | WriteFailedAfter n => (Err FrameIo, session1, take n buf) end
  end.

(** A message in frames of at most [MAX_FRAME_PAYLOAD]. *)
Definition write_frame (session : CryptoSession) (data : list Z) (w : StreamWrite) : result Z FrameError * CryptoSession * list Z :=
  if len data =? 0 then (Ok 0, session, [])
  else write_batch session (chunks (Z.to_nat MAX_FRAME_PAYLOAD) data) (len data) w.

Definition write_frames_batch (session : CryptoSession) (payloads : list (list Z)) (w : StreamWrite) : result Z FrameError * CryptoSession * list Z :=
  if len payloads =? 0 then (Ok 0, session, [])
  else write_batch session payloads (foldr (λ p n, len p + n) 0 payloads) w.

(** [read_frame] over the bytes that have arrived, the stream open or at its end: [None]
    while it waits. *)
Definition read_frame (session : CryptoSession) (arrived : list Z) (at_end : bool) : option (result (list Z) FrameError) * CryptoSession * list Z :=
  let short := if at_end then (Some (Err FrameIo), session, []) else (None, session, arrived) in
  if (length arrived <? FRAME_HEADER_SIZE)%nat then short
  else
    let header := take FRAME_HEADER_SIZE arrived in
    let body := drop FRAME_HEADER_SIZE arrived in
    let ct_len := be_decode header in
    if MAX_FRAME_PAYLOAD + AEAD_OVERHEAD <? ct_len then (Some (Err (FrameTooLarge ct_len)), session, body)
    else if len body <? ct_len then short
    else
      let '(pt, session1) := decrypt session header (take (Z.to_nat ct_len) body) in
      (Some (match pt with Ok pt => Ok pt | Err _ => Err DecryptFailed end), session1, drop (Z.to_nat ct_len) body).

(** Frames until one waits or fails. *)
Fixpoint read_frames (calls : nat) (session : CryptoSession) (arrived : list Z) : list (list Z) * option FrameError * CryptoSession :=
  match calls with
  | O => ([], None, session)
  | S calls' =>
    match read_frame session arrived false with
    | (None, session1, _) => ([], None, session1)
    | (Some (Err e), session1, _) => ([], Some e, session1)
    | (Some (Ok pt), session1, rest) => let '(pts, e, session2) := read_frames calls' session1 rest in (pt :: pts, e, session2)
    end
  end.

(** ** The two ends of a connection *)

Definition paired (a b : CryptoSession) : Prop :=
  suite a = suite b ∧ send_key a = recv_key b ∧ nonce_prefix a = nonce_prefix b ∧ send_counter a = recv_counter b ∧ 0 <= send_counter a.

Context `{!PrimitiveLaws}.

Lemma seal_frame_ok a c : 0 <= send_counter a < AEAD_MAX_INVOCATIONS -> len c <= MAX_FRAME_PAYLOAD ->
  ∃ ct, aead_seal (suite a) (send_key a) (make_nonce a (send_counter a)) (be_encode 4 (len c + AEAD_OVERHEAD)) c = Some ct ∧
    seal_frame a c = (Ok (be_encode 4 (len c + AEAD_OVERHEAD) ++ ct), set_send_counter a (send_counter a + 1)) ∧ len ct = len c + AEAD_OVERHEAD.
Proof.
  unfold AEAD_MAX_INVOCATIONS, MAX_FRAME_PAYLOAD, AEAD_OVERHEAD. intros Hc Hl. pose proof (len_nonneg c).
  destruct (seal_total (suite a) (send_key a) (make_nonce a (send_counter a)) (be_encode 4 (len c + 16)) c) as [ct Ect]; [lia|].
  exists ct. split; [done|]. split; [|by apply seal_length in Ect]. unfold seal_frame, encrypt, AEAD_OVERHEAD, AEAD_MAX_INVOCATIONS.
  rewrite wrap_small by (unfold in_u; lia). destruct (Z.leb_spec (2 ^ 48) (send_counter a)); [lia|]. rewrite wrap_small by (unfold in_u; lia).
  by rewrite Ect.
Qed.

Lemma paired_next a b : paired a b -> paired (set_send_counter a (send_counter a + 1)) (set_recv_counter b (recv_counter b + 1)).
Proof. intros (E1 & E2 & E3 & E4 & Hpos). split_and!; cbn; try done; lia. Qed.

(** The peer reads the frame back. *)
Lemma read_frame_ok a b c : paired a b -> send_counter a < AEAD_MAX_INVOCATIONS -> len c <= MAX_FRAME_PAYLOAD ->
  ∃ frame, seal_frame a c = (Ok frame, set_send_counter a (send_counter a + 1)) ∧
    ∀ rest, read_frame b (frame ++ rest) false = (Some (Ok c), set_recv_counter b (recv_counter b + 1), rest).
Proof.
  intros (E1 & E2 & E3 & E4 & Hpos) Hc Hl. destruct (seal_frame_ok a c) as (ct & Ect & Es & Elen); [lia|done|].
  exists (be_encode 4 (len c + AEAD_OVERHEAD) ++ ct). split; [done|]. intros rest.
  pose proof (len_nonneg c). unfold AEAD_OVERHEAD, MAX_FRAME_PAYLOAD, AEAD_MAX_INVOCATIONS in *. unfold read_frame, FRAME_HEADER_SIZE.
  rewrite <- app_assoc. destruct (Nat.ltb_spec (length (be_encode 4 (len c + 16) ++ ct ++ rest)) 4) as [Hx|_].
  { rewrite length_app, be_encode_length in Hx. lia. }
  rewrite take_app_length', drop_app_length' by (by rewrite be_encode_length). rewrite be_decode_encode by (cbn; lia).
  unfold MAX_FRAME_PAYLOAD, AEAD_OVERHEAD. destruct (Z.ltb_spec (64 * 1024 + 16) (len c + 16)); [lia|]. rewrite len_app. pose proof (len_nonneg rest).
  destruct (Z.ltb_spec (len ct + len rest) (len c + 16)); [lia|].
  rewrite take_app_length', drop_app_length' by (unfold len in *; lia). unfold decrypt, AEAD_MAX_INVOCATIONS. rewrite <- E4.
  destruct (Z.leb_spec (2 ^ 48) (send_counter a)); [lia|]. unfold make_nonce in *. rewrite <- E1, <- E2, <- E3.
  rewrite (open_seal _ _ _ _ _ _ Ect). cbn [ok_or]. by rewrite wrap_small by (unfold in_u; lia).
Qed.

(** A batch of frames, read frame by frame. *)
Lemma read_frames_ok l : ∀ a b, paired a b -> send_counter a + len l <= AEAD_MAX_INVOCATIONS -> Forall (λ c, len c <= MAX_FRAME_PAYLOAD) l ->
  ∃ buf a' b', seal_frames a l = (Ok buf, a') ∧ send_counter a' = send_counter a + len l ∧ paired a' b' ∧
    ∀ n rest, read_frames (length l + n) b (buf ++ rest) = let '(more, e, b2) := read_frames n b' rest in (l ++ more, e, b2).
Proof.
  induction l as [|c l IH]; intros a b Hp Hc Hl.
  { exists [], a, b. split_and!; [done|unfold len; cbn; lia|done|]. intros n rest. cbn. by destruct (read_frames n b rest) as [[m e] b2]. }
  apply Forall_cons in Hl as [Hlc Hl]. unfold len in Hc |- *. cbn [length] in *. rewrite Nat2Z.inj_succ in *.
  destruct (read_frame_ok a b c Hp) as (frame & Es & Er); [lia|done|].
  destruct (IH _ _ (paired_next a b Hp)) as (buf & a' & b' & Eb & Ec & Hp' & Ef); [cbn; unfold len; lia|done|].
  exists (frame ++ buf), a', b'. cbn [seal_frames]. rewrite Es, Eb. split_and!; [done|cbn in Ec; unfold len in Ec; lia|done|].
  intros n rest. cbn [Nat.add read_frames]. rewrite <- app_assoc, Er, Ef. by destruct (read_frames n b' rest) as [[m e] b2].
Qed.

End Frames.

(** What a writer writes with [write_frame], call by call. *)
Fixpoint write_all_frames `{Primitives} (session : CryptoSession) (l : list (list Z)) : list (result Z FrameError) * list Z * CryptoSession :=
  match l with
  | [] => ([], [], session)
  | m :: l' =>
    let '(r, session1, w) := write_frame session m WroteAll in
    let '(rs, w', session2) := write_all_frames session1 l' in (r :: rs, w ++ w', session2)
  end.

(** The number of frames of the messages. *)
Definition frames_of (l : list (list Z)) : list (list Z) := l ≫= chunks (Z.to_nat MAX_FRAME_PAYLOAD).

Section RoundTrip.
Context `{PrimitiveLaws}.

Lemma chunk_bound (m : list Z) : Forall (λ c, len c <= MAX_FRAME_PAYLOAD) (chunks (Z.to_nat MAX_FRAME_PAYLOAD) m).
Proof. unfold chunks. eapply Forall_impl; [apply chunks_fuel_bound|]. intros c Hc. unfold len, MAX_FRAME_PAYLOAD in *. lia. Qed.

Lemma write_all_read l : ∀ a b, paired a b -> send_counter a + len (frames_of l) <= AEAD_MAX_INVOCATIONS ->
  ∃ w a' b', write_all_frames a l = ((λ m, Ok (len m)) <$> l, w, a') ∧ paired a' b' ∧
    ∀ n rest, read_frames (length (frames_of l) + n) b (w ++ rest) = let '(more, e, b2) := read_frames n b' rest in (frames_of l ++ more, e, b2).
Proof.
  induction l as [|m l IH]; intros a b Hp Hc.
  { exists [], a, b. split_and!; [done|done|]. intros n rest. cbn. by destruct (read_frames n b rest) as [[x e] b2]. }
  change (frames_of (m :: l)) with (chunks (Z.to_nat MAX_FRAME_PAYLOAD) m ++ frames_of l) in *. rewrite len_app in Hc.
  pose proof (len_nonneg (frames_of l)). cbn [write_all_frames].
  assert (Hm : ∃ w1 a1 b1, write_frame a m WroteAll = (Ok (len m), a1, w1) ∧ send_counter a1 = send_counter a + len (chunks (Z.to_nat MAX_FRAME_PAYLOAD) m) ∧ paired a1 b1 ∧
    ∀ n rest, read_frames (length (chunks (Z.to_nat MAX_FRAME_PAYLOAD) m) + n) b (w1 ++ rest) =
      let '(more, e, b2) := read_frames n b1 rest in (chunks (Z.to_nat MAX_FRAME_PAYLOAD) m ++ more, e, b2)).
  { unfold write_frame. destruct (Z.eqb_spec (len m) 0) as [E0|_].
    - destruct m; [|unfold len in E0; cbn in E0; lia]. exists [], a, b. split_and!; [done|unfold len; cbn; lia|done|].
      intros n rest. cbn. by destruct (read_frames n b rest) as [[x e] b2].
    - destruct (read_frames_ok (chunks (Z.to_nat MAX_FRAME_PAYLOAD) m) a b Hp) as (buf & a1 & b1 & Es & Ec & Hp1 & Er); [lia|apply chunk_bound|].
      exists buf, a1, b1. unfold write_batch. by rewrite Es. }
  destruct Hm as (w1 & a1 & b1 & -> & Ec & Hp1 & Er1). destruct (IH a1 b1 Hp1) as (w & a' & b' & -> & Hp' & Er); [lia|].
  exists (w1 ++ w), a', b'. split_and!; [done|done|]. intros n rest. rewrite length_app, <- Nat.add_assoc, <- app_assoc, Er1, Er.
  destruct (read_frames n b' rest) as [[x e] b2]. by rewrite app_assoc.
Qed.

(** What one end writes with [write_frame] the other reads: every call succeeds, and the
    frames read are the messages' bytes, in order and with nothing left over, as long as
    the session's budget of seals lasts. *)
Theorem frames_round_trip a b l :
  paired a b -> send_counter a + len (frames_of l) <= AEAD_MAX_INVOCATIONS ->
  let '(rs, w, _) := write_all_frames a l in
  rs = (λ m, Ok (len m)) <$> l ∧
  ∃ pts b', read_frames (S (length (frames_of l))) b w = (pts, None, b') ∧ concat pts = concat l.
Proof.
  intros Hp Hc. destruct (write_all_read l a b Hp Hc) as (w & a' & b' & -> & _ & Er). split; [done|].
  exists (frames_of l), b'. rewrite <- Nat.add_1_r, <- (app_nil_r w), Er. cbn. rewrite app_nil_r. split; [done|]. clear Hc Er.
  induction l as [|m l IH]; [done|]. change (frames_of (m :: l)) with (chunks (Z.to_nat MAX_FRAME_PAYLOAD) m ++ frames_of l). rewrite concat_app, IH.
  cbn. f_equal. apply chunks_concat. unfold MAX_FRAME_PAYLOAD. lia.
Qed.

(** A batch is not split: [write_frames_batch] succeeds on a payload above the limit, and
    the reader of the other end refuses its frame. *)
Theorem batch_frame_refused a b p : paired a b -> send_counter a < AEAD_MAX_INVOCATIONS -> MAX_FRAME_PAYLOAD < len p <= 2 ^ 24 ->
  ∃ a' w, write_frames_batch a [p] WroteAll = (Ok (len p), a', w) ∧
    ∃ b' rest, read_frame b w false = (Some (Err (FrameTooLarge (len p + AEAD_OVERHEAD))), b', rest).
Proof.
  intros (_ & _ & _ & _ & Hpos) Hc Hp. unfold write_frames_batch, write_batch. cbn [seal_frames foldr]. change (len [p] =? 0) with false.
  unfold seal_frame, encrypt. destruct (Z.leb_spec AEAD_MAX_INVOCATIONS (send_counter a)); [lia|].
  destruct (seal_total (suite a) (send_key a) (make_nonce a (send_counter a)) (be_encode 4 (wrap 32 (len p + AEAD_OVERHEAD))) p) as [ct Ect]; [lia|].
  rewrite Ect. cbn [ok_or]. rewrite Z.add_0_r, app_nil_r. do 2 eexists. split; [done|]. unfold AEAD_OVERHEAD, MAX_FRAME_PAYLOAD in *.
  rewrite wrap_small by (unfold in_u; lia). unfold read_frame, FRAME_HEADER_SIZE.
  destruct (Nat.ltb_spec (length (be_encode 4 (len p + 16) ++ ct)) 4) as [Hx|_]; [rewrite length_app, be_encode_length in Hx; lia|].
  rewrite take_app_length' by (by rewrite be_encode_length). rewrite be_decode_encode by (cbn; lia). unfold MAX_FRAME_PAYLOAD, AEAD_OVERHEAD.
  destruct (Z.ltb_spec (64 * 1024 + 16) (len p + 16)); [|lia]. by do 2 eexists.
Qed.

End RoundTrip.

#[local] Existing Instance toy_primitives.

Lemma frames_round_trip_witness :
  let '(rs, w, _) := write_all_frames (mk_crypto Aes256Gcm [1] [2] 5 0 [9; 9; 9; 9]) [[1; 2; 3]; []; [4]] in
  rs = [Ok 3; Ok 0; Ok 1] ∧
  ∃ pts b', read_frames 3 (mk_crypto Aes256Gcm [2] [1] 0 5 [9; 9; 9; 9]) w = (pts, None, b') ∧ concat pts = [1; 2; 3; 4].
Proof.
  refine (frames_round_trip (mk_crypto Aes256Gcm [1] [2] 5 0 [9; 9; 9; 9]) (mk_crypto Aes256Gcm [2] [1] 0 5 [9; 9; 9; 9]) [[1; 2; 3]; []; [4]] _ _).
  - split_and!; try done; by vm_compute.
  - by vm_compute.
Defined.

Lemma batch_frame_refused_witness :
  ∃ a' w, write_frames_batch (mk_crypto Aes256Gcm [1] [2] 5 0 [9; 9; 9; 9]) [replicate (Z.to_nat 65537) 0] WroteAll = (Ok (len (replicate (Z.to_nat 65537) 0)), a', w) ∧
    ∃ b' rest, read_frame (mk_crypto Aes256Gcm [2] [1] 0 5 [9; 9; 9; 9]) w false = (Some (Err (FrameTooLarge (len (replicate (Z.to_nat 65537) 0) + AEAD_OVERHEAD))), b', rest).
Proof.
  refine (batch_frame_refused (mk_crypto Aes256Gcm [1] [2] 5 0 [9; 9; 9; 9]) (mk_crypto Aes256Gcm [2] [1] 0 5 [9; 9; 9; 9]) (replicate (Z.to_nat 65537) 0) _ _ _).
  - split_and!; try done; by vm_compute.
  - by vm_compute.
  - unfold len. rewrite length_replicate, Z2Nat.id by lia. unfold MAX_FRAME_PAYLOAD. lia.
Defined.

(** ** The embedded leg *)

Module Embedded.

Definition HEADER_LEN : nat := 4.

Inductive FramingError := TooLarge (n capacity : Z).

Definition encode_header (payload_len capacity : Z) : result (list Z) FramingError :=
  if capacity <? payload_len then Err (TooLarge payload_len capacity)
  else if u_max 32 <? payload_len then Err (TooLarge payload_len capacity)
  else Ok (be_encode 4 payload_len).

Definition decode_header (header : list Z) (capacity : Z) : result Z FramingError :=
  let n := be_decode header in if capacity <? n then Err (TooLarge n capacity) else Ok n.

(** What a write call of the writer came to, with the bytes it took. *)
Inductive HalWrite := HalOk | HalTimedOut (n : nat) | HalError (n : nat).

(** The writes of one frame: header, payload, flush. *)
Record HalWrites := mk_hal { hal_header : HalWrite; hal_payload : HalWrite; hal_flush : HalWrite }.

Definition hal_take (w : HalWrite) (data : list Z) : list Z :=
  match w with HalOk => data | HalTimedOut n | HalError n => take n data end.

(** The leg keeps one bit, whether a write ever timed out. *)
Definition send_frame (capacity : Z) (timed_out : bool) (data : list Z) (w : HalWrites) : result () CoreError * bool * list Z :=
  match encode_header (len data) capacity with
  | Err _ => (Err NetworkError, timed_out, [])
  | Ok header =>
    if timed_out then (Err Timeout, true, [])
    else match hal_header w with
    | HalTimedOut _ => (Err Timeout, true, hal_take (hal_header w) header)
    | HalError _ => (Err NetworkError, false, hal_take (hal_header w) header)
    | HalOk =>
      match hal_payload w with
      | HalTimedOut _ => (Err Timeout, true, header ++ hal_take (hal_payload w) data)
      | HalError _ => (Err NetworkError, false, header ++ hal_take (hal_payload w) data)
      | HalOk =>
        match hal_flush w with
        | HalTimedOut _ => (Err Timeout, true, header ++ data)
        | HalError _ => (Err NetworkError, false, header ++ data)
        | HalOk => (Ok (), false, header ++ data)
        end
      end
    end
  end.

(** [recv_frame] over the bytes that have arrived, the stream open or at its end. *)
Definition recv_frame (capacity : Z) (arrived : list Z) (at_end : bool) : option (result (list Z) CoreError) * list Z :=
  let short := if at_end then (Some (Err NetworkError), []) else (None, arrived) in
  if (length arrived <? HEADER_LEN)%nat then short
  else
    let body := drop HEADER_LEN arrived in
    match decode_header (take HEADER_LEN arrived) capacity with
    | Err _ => (Some (Err NetworkError), body)
    | Ok n => if len body <? n then short else (Some (Ok (take (Z.to_nat n) body)), drop (Z.to_nat n) body)
    end.

Fixpoint recv_frames (calls : nat) (capacity : Z) (arrived : list Z) : list (list Z) * option CoreError :=
  match calls with
  | O => ([], None)
  | S calls' =>
    match recv_frame capacity arrived false with
    | (None, _) => ([], None)
    | (Some (Err e), _) => ([], Some e)
    | (Some (Ok m), rest) => let '(ms, e) := recv_frames calls' capacity rest in (m :: ms, e)
    end
  end.

(** Bytes as the TCP transport frames them. *)
#[local] Existing Instance Tcp.tcp_framing.

Definition frame_fits (capacity : Z) (m : list Z) : Prop := len m <= capacity ∧ len m <= u_max 32.

Lemma recv_one capacity m rest : frame_fits capacity m -> recv_frame capacity (enc m ++ rest) false = (Some (Ok m), rest).
Proof.
  intros [Hm Hu]. pose proof (len_nonneg m). pose proof (len_nonneg rest). unfold u_max in Hu. rewrite Tcp.tcp_enc, wrap_small by (unfold in_u; lia).
  rewrite <- app_assoc. unfold recv_frame, HEADER_LEN, decode_header.
  destruct (Nat.ltb_spec (length (be_encode 4 (len m) ++ m ++ rest)) 4) as [Hx|_]; [rewrite length_app, be_encode_length in Hx; lia|].
  rewrite take_app_length', drop_app_length' by (by rewrite be_encode_length). rewrite be_decode_encode by (cbn; lia).
  destruct (Z.ltb_spec capacity (len m)); [lia|]. rewrite len_app. destruct (Z.ltb_spec (len m + len rest) (len m)); [lia|].
  unfold len. by rewrite Nat2Z.id, take_app_length, drop_app_length.
Qed.

(** The embedded leg speaks the framing of the TCP transport: a message that fits goes
    out as the bytes the TCP transport would write, and a sequence of messages a TCP
    transport wrote comes out whole and in order.  Once a write has timed out nothing
    more is written, whatever is asked. *)
Theorem embedded_speaks_tcp capacity ms :
  Forall (frame_fits capacity) ms ->
  recv_frames (S (length ms)) capacity (encs ms) = (ms, None) ∧
  (∀ m, m ∈ ms -> send_frame capacity false m (mk_hal HalOk HalOk HalOk) = (Ok (), false, enc m)) ∧
  ∀ m w, ∃ e, send_frame capacity true m w = (Err e, true, []).
Proof.
  intros Hf. split_and!.
  - induction Hf as [|m ms Hm Hf IH]; [done|]. change (encs (m :: ms)) with (enc m ++ encs ms).
    change (recv_frames (S (length (m :: ms))) capacity (enc m ++ encs ms)) with
      (match recv_frame capacity (enc m ++ encs ms) false with
       | (None, _) => ([], None) | (Some (Err e), _) => ([], Some e)
       | (Some (Ok m), rest) => let '(ms', e) := recv_frames (S (length ms)) capacity rest in (m :: ms', e) end).
    by rewrite recv_one, IH.
  - intros m Hm. rewrite Forall_forall in Hf. destruct (Hf m Hm) as [Hl Hu]. pose proof (len_nonneg m).
    unfold send_frame, encode_header. cbn [hal_header hal_payload hal_flush]. destruct (Z.ltb_spec capacity (len m)); [lia|].
    destruct (Z.ltb_spec (u_max 32) (len m)); [lia|]. rewrite Tcp.tcp_enc, wrap_small; [done|]. unfold in_u, u_max in *. lia.
  - intros m w. unfold send_frame. destruct (encode_header _ _); by eexists.
Qed.

Lemma embedded_speaks_tcp_witness : recv_frames 3 16 (encs [[7; 8]; [9]]) = ([[7; 8]; [9]], None).
Proof.
  refine (proj1 (embedded_speaks_tcp 16 [[7; 8]; [9]] _)).
  repeat constructor; by vm_compute.
Defined.

End Embedded.
