(* ===== verification/Wasi.v ===== *)
(** * The WASI leg ([core/src/transport/legs/wasi.rs])

    The framing of the TCP transport over the blocking streams of WASI: writes under
    permits of [check_write] with a deadline between them, reads that return at most what
    is asked for.  What the host answers is an argument: one [CheckWrite] per call of
    [check_write], and the pieces in which bytes arrive.

    The write loop is shown to be that of ByteStream.v on corresponding answers, and the
    read loop to deliver what a TCP transport wrote. *)

From Stdlib Require Import ZArith Lia.
From stdpp Require Import base numbers option list sets.
From S2P Require Import Prelude Errors UdpTransport ByteStream.

Local Open Scope Z_scope.

Definition MAX_FRAME_BYTES : Z := 4 * 1024 * 1024.
Definition RECV_CHUNK : nat := Z.to_nat (64 * 1024).

(** One [check_write] and what follows: an error of the stream; no room, and the poll that
    waits for it ends with room or at the deadline; room for [S n] bytes, and the [write]
    of them succeeds or not. *)
Inductive CheckWrite := CheckError | RoomLater | NoRoom | Room (n : nat) (write_ok : bool).

Inductive WriteFailure := Stalled | StreamFailed | Waiting.

(** The loop over one part; [Waiting] when the answers do not settle it.  With the bytes
    the stream took and the answers left. *)
Fixpoint write_part (rest : list Z) (answers : list CheckWrite) : result () WriteFailure * list Z * list CheckWrite :=
  match rest with
  | [] => (Ok (), [], answers)
  | _ =>
    match answers with
    | [] => (Err Waiting, [], [])
    | CheckError :: more => (Err StreamFailed, [], more)
    | RoomLater :: more => write_part rest more
    | NoRoom :: more => (Err Stalled, [], more)
    | Room _ false :: more => (Err StreamFailed, [], more)
    | Room n true :: more =>
      let k := Nat.min (S n) (length rest) in
      let '(o, w, kept) := write_part (drop k rest) more in (o, take k rest ++ w, kept)
    end
  end.

(** After [flush]: until [check_write] shows room. *)
Fixpoint await_flush (answers : list CheckWrite) : result () WriteFailure :=
  match answers with
  | [] => Err Waiting
  | CheckError :: _ => Err StreamFailed
  | RoomLater :: more => await_flush more
  | NoRoom :: _ => Err Stalled
  | Room _ _ :: _ => Ok ()
  end.

Fixpoint write_parts (parts : list (list Z)) (answers : list CheckWrite) (flush_ok : bool) : result () WriteFailure * list Z :=
  match parts with
  | [] => (if flush_ok then await_flush answers else Err StreamFailed, [])
  | part :: parts' =>
    match write_part part answers with
    | (Ok _, w, kept) => let '(o, w') := write_parts parts' kept flush_ok in (o, w ++ w')
    | (Err e, w, _) => (Err e, w)
    end
  end.

(** [send_bytes]; [None] while the write waits.  The output stream is there as long as the
    leg is. *)
Definition send_bytes (stalled : bool) (data : list Z) (answers : list CheckWrite) (flush_ok : bool)
  : option (result () CoreError) * bool * list Z :=
  if MAX_FRAME_BYTES <? len data then (Some (Err NetworkError), stalled, [])
  else if stalled then (Some (Err Timeout), true, [])
  else match write_parts [be_encode 4 (wrap 32 (len data)); data] answers flush_ok with
  | (Ok _, w) => (Some (Ok ()), false, w)
  | (Err Stalled, w) => (Some (Err Timeout), true, w)
  | (Err StreamFailed, w) => (Some (Err NetworkError), false, w)
  | (Err Waiting, w) => (None, false, w)
  end.

(** The input stream of the host. *)
Class WasiInput := {
  wi_state : Type;
  blocking_read : nat -> wi_state -> result (list Z * wi_state) ();
}.

Section Read.
Context {I : WasiInput}.

(** [read_exact]: every pass reads at least a byte, so [need] passes are enough.  Of a
    chunk longer than asked for, the rest is discarded. *)
Fixpoint read_exact_loop (fuel need : nat) (h : wi_state) : result (list Z * wi_state) CoreError :=
  match need, fuel with
  | O, _ => Ok ([], h)
  | S _, O => Err InternalError
  | S _, S fuel' =>
    match blocking_read need h with
    | Err _ => Err NetworkError
    | Ok ([], _) => Err NetworkError
    | Ok (chunk, h1) =>
      let k := Nat.min (length chunk) need in
      match read_exact_loop fuel' (need - k) h1 with
      | Ok (bytes, h2) => Ok (take k chunk ++ bytes, h2)
      | Err e => Err e
      end
    end
  end.

Definition read_exact (need : nat) : wi_state -> result (list Z * wi_state) CoreError := read_exact_loop need need.

(** The body in steps of [RECV_CHUNK]; [need] steps are enough. *)
Fixpoint read_body (fuel need : nat) (h : wi_state) : result (list Z * wi_state) CoreError :=
  match need, fuel with
  | O, _ => Ok ([], h)
  | S _, O => Err InternalError
  | S _, S fuel' =>
    let chunk := Nat.min need RECV_CHUNK in
    match read_exact chunk h with
    | Err e => Err e
    | Ok (bytes, h1) =>
      match read_body fuel' (need - chunk) h1 with
      | Ok (body, h2) => Ok (bytes ++ body, h2)
      | Err e => Err e
      end
    end
  end.

Definition recv_bytes (h : wi_state) : result (list Z * wi_state) CoreError :=
  match read_exact 4 h with
  | Err e => Err e
  | Ok (header, h1) =>
    let n := be_decode header in
    if MAX_FRAME_BYTES <? n then Err NetworkError else read_body (Z.to_nat n) (Z.to_nat n) h1
  end.

(** [recv_bytes] until it fails. *)
Fixpoint recv_all (calls : nat) (h : wi_state) : list (list Z) * option CoreError :=
  match calls with
  | O => ([], None)
  | S calls' =>
    match recv_bytes h with
    | Err e => ([], Some e)
    | Ok (m, h1) => let '(ms, e) := recv_all calls' h1 in (m :: ms, e)
    end
  end.

End Read.

(** What is documented of [blocking_read]: it hands over the stream in order, at least a
    byte and at most what was asked for, until the stream ends. *)
Class WasiInputLaws (I : WasiInput) := {
  incoming : wi_state -> list Z;  (* the bytes still to come before the end *)
  blocking_read_some n h : (0 < n)%nat -> incoming h ≠ [] ->
    ∃ chunk h', blocking_read n h = Ok (chunk, h') ∧ chunk ≠ [] ∧ (length chunk <= n)%nat ∧ incoming h = chunk ++ incoming h';
  blocking_read_end n h : (0 < n)%nat -> incoming h = [] -> (∃ e, blocking_read n h = Err e) ∨ ∃ h', blocking_read n h = Ok ([], h');
}.

(** ** Dropping the leg *)

Inductive Resource := Output | Input | Socket.

(** What [drop] gives back to the host, in order: after a stall the output stream and the
    socket are forgotten. *)
Definition drop_leg (stalled : bool) : list Resource := if stalled then [Input] else [Output; Input; Socket].

(** ** The write loop is that of the stream transports *)

Definition as_answer (c : CheckWrite) : WriteAnswer :=
  match c with
  | CheckError | Room _ false => WriteError
  | RoomLater => Interrupted
  | NoRoom => NoProgress
  | Room n true => Took (S n)
  end.

Definition as_outcome (r : result () WriteFailure) : WriteOutcome :=
  match r with Ok _ => Written | Err Stalled => ByteStream.Stalled | Err StreamFailed => IoFailed | Err Waiting => StillWriting end.

Lemma write_part_same answers : ∀ rest,
  let '(o, w, kept) := write_part rest answers in
  ByteStream.write_part rest (as_answer <$> answers) = (as_outcome o, w, as_answer <$> kept).
Proof.
  induction answers as [|a answers IH]; intros [|z rest]; cbn; try done.
  destruct a as [| | |n [|]]; try done; [apply (IH (z :: rest))|]. cbn.
  set (k := Nat.min n (length rest)). specialize (IH (drop k rest)).
  assert (Hk : drop n rest = drop k rest ∧ take n rest = take k rest).
  { unfold k. destruct (Nat.le_ge_cases n (length rest)); [by rewrite Nat.min_l|]. rewrite Nat.min_r by done.
    by rewrite !drop_ge, !take_ge. }
  destruct Hk as [-> ->]. destruct (write_part (drop k rest) answers) as [[o w] kept]. by rewrite IH.
Qed.

Lemma write_parts_same parts : ∀ answers flush_ok o w,
  write_parts parts answers flush_ok = (o, w) -> o ≠ Err Waiting ->
  ∃ flush, write_all_making_progress parts (as_answer <$> answers) flush = (as_outcome o, w).
Proof.
  induction parts as [|part parts IH]; intros answers flush_ok o w E Hw; cbn in *.
  - injection E as <- <-. destruct flush_ok; [|by exists FlushError].
    destruct (await_flush answers) as [u|[]]; [by exists Flushed|by exists FlushNoProgress|by exists FlushError|done].
  - pose proof (write_part_same answers part) as Hp. destruct (write_part part answers) as [[[[]|e] w1] kept]; rewrite Hp; cbn in *.
    + destruct (write_parts parts kept flush_ok) as [o2 w2] eqn:E2. injection E as <- <-.
      destruct (IH _ _ _ _ E2 Hw) as [flush Ef]. exists flush. by rewrite Ef.
    + injection E as <- <-. exists Flushed. by destruct e.
Qed.

(** A peer that keeps reading is served: the answers never say error or deadline. *)
Definition patient (c : CheckWrite) : Prop := match c with RoomLater | Room _ true => True | _ => False end.
Definition is_room (c : CheckWrite) : Prop := match c with Room _ _ => True | _ => False end.
#[global] Instance is_room_dec c : Decision (is_room c).
Proof. destruct c; cbn; apply _. Defined.

Definition rooms (answers : list CheckWrite) : nat := length (filter is_room answers).

Lemma write_part_served answers : ∀ rest, Forall patient answers -> (length rest <= rooms answers)%nat ->
  ∃ kept, write_part rest answers = (Ok (), rest, kept) ∧ Forall patient kept ∧ (rooms answers <= length rest + rooms kept)%nat.
Proof.
  unfold rooms. induction answers as [|a answers IH]; intros rest HF Hr.
  { destruct rest; [by eexists|cbn in Hr; lia]. }
  destruct rest as [|z rest]; [by eexists|]. apply Forall_cons in HF as [Ha HF]. destruct a as [| | |n [|]]; try done; cbn [write_part].
  - rewrite filter_cons_False in Hr |- * by (by intros []). by apply IH.
  - rewrite filter_cons_True in Hr |- * by exact Logic.I. cbn [length] in Hr. set (k := Nat.min (S n) (length (z :: rest))).
    assert (Hk : (1 <= k <= length (z :: rest))%nat) by (unfold k; cbn; lia). clearbody k.
    destruct (IH (drop k (z :: rest)) HF) as (kept & -> & HF' & Hl); [rewrite length_drop; cbn [length] in *; lia|].
    exists kept. rewrite take_drop. split_and!; [done..|]. rewrite length_drop in Hl. cbn [length] in *. lia.
Qed.

Lemma await_served answers : Forall patient answers -> (0 < rooms answers)%nat -> await_flush answers = Ok ().
Proof.
  unfold rooms. induction 1 as [|a answers Ha HF IH]; [cbn; lia|]. by destruct a as [| | |n [|]].
Qed.

Lemma parts_served parts : ∀ answers, Forall patient answers -> (length (concat parts) < rooms answers)%nat ->
  write_parts parts answers true = (Ok (), concat parts).
Proof.
  induction parts as [|part parts IH]; intros answers HF Hr; cbn [write_parts].
  - by rewrite await_served.
  - cbn [concat] in *. rewrite length_app in Hr. destruct (write_part_served answers part HF) as (kept & -> & HF' & Hl); [lia|].
    rewrite IH; [done|done|lia].
Qed.

(** ** Reading what was written *)

Section ReadSpec.
Context {I : WasiInput} {L : WasiInputLaws I}.

(** Enough bytes are coming: [n] of them are read, no more. *)
Definition reads (n : nat) (h : wi_state) (r : result (list Z * wi_state) CoreError) : Prop :=
  ∃ h', r = Ok (take n (incoming h), h') ∧ incoming h' = drop n (incoming h).

Lemma take_split {A} (k n : nat) (l : list A) : (k <= n)%nat -> take n l = take k l ++ take (n - k) (drop k l).
Proof. intros Hk. rewrite <- (take_drop k (take n l)) at 1. rewrite take_take, skipn_firstn_comm. f_equal; f_equal; lia. Qed.

Lemma read_exact_reads fuel : ∀ need h, (need <= fuel)%nat -> (need <= length (incoming h))%nat -> reads need h (read_exact_loop fuel need h).
Proof.
  induction fuel as [|fuel IH]; intros [|need] h Hf Hn; try (by eexists); [lia|]. cbn [read_exact_loop].
  destruct (blocking_read_some (S need) h) as (chunk & h1 & -> & Hc & Hl & Hi); [lia|intros E; by rewrite E in Hn; cbn in Hn; lia|].
  destruct chunk as [|z chunk]; [done|]. set (c := z :: chunk) in *. assert (H1 : (1 <= length c)%nat) by (cbn; lia). clearbody c.
  rewrite Nat.min_l by done. rewrite Hi, length_app in Hn. destruct (IH (S need - length c)%nat h1) as (h2 & -> & H2); [lia..|].
  exists h2. rewrite Hi, H2. split.
  - rewrite (take_split (length c) (S need)), take_app_length, drop_app_length by lia. by rewrite take_ge.
  - rewrite drop_app. by rewrite (drop_ge c) by lia.
Qed.

Lemma read_body_reads fuel : ∀ need h, (need <= fuel)%nat -> (need <= length (incoming h))%nat -> reads need h (read_body fuel need h).
Proof.
  induction fuel as [|fuel IH]; intros [|need] h Hf Hn; try (by eexists); [lia|]. cbn [read_body].
  set (k := Nat.min (S need) RECV_CHUNK). assert (Hk : (1 <= k <= S need)%nat) by (unfold k, RECV_CHUNK; lia). clearbody k.
  destruct (read_exact_reads k k h) as (h1 & E & H1); [lia..|]. unfold read_exact. rewrite E.
  destruct (IH (S need - k)%nat h1) as (h2 & -> & H2); [lia|rewrite H1, length_drop; lia|].
  exists h2. rewrite H2, H1, drop_drop, (take_split k (S need)) by lia. split; [done|]. f_equal. lia.
Qed.

#[local] Existing Instance Tcp.tcp_framing.

Lemma wasi_recv_one h m rest : len m <= MAX_FRAME_BYTES -> incoming h = enc m ++ rest -> ∃ h', recv_bytes h = Ok (m, h') ∧ incoming h' = rest.
Proof.
  unfold MAX_FRAME_BYTES. intros Hm Hi. pose proof (len_nonneg m). rewrite Tcp.tcp_enc, wrap_small in Hi by (unfold in_u; lia).
  rewrite <- app_assoc in Hi. destruct (read_exact_reads 4 4 h) as (h1 & E1 & H1); [lia|rewrite Hi, length_app, be_encode_length; lia|].
  unfold recv_bytes, read_exact. rewrite E1. rewrite Hi in *. rewrite take_app_length', drop_app_length' in * by (by rewrite be_encode_length).
  rewrite be_decode_encode by (cbn; lia). unfold MAX_FRAME_BYTES. case_test; [lia|].
  unfold len. rewrite Nat2Z.id. destruct (read_body_reads (length m) (length m) h1) as (h2 & -> & H2); [lia|rewrite H1, length_app; lia|].
  exists h2. by rewrite H2, H1, take_app_length, drop_app_length.
Qed.

Lemma recv_end h : incoming h = [] -> recv_bytes h = Err NetworkError.
Proof.
  intros Hi. unfold recv_bytes, read_exact. cbn [read_exact_loop].
  by destruct (blocking_read_end 4 h ltac:(lia) Hi) as [[e ->]|[h' ->]].
Qed.

Lemma recv_messages ms : ∀ h, Forall (λ m, len m <= MAX_FRAME_BYTES) ms -> incoming h = encs ms ->
  recv_all (S (length ms)) h = (ms, Some NetworkError).
Proof.
  induction ms as [|m ms IH]; intros h HF Hi.
  - cbn [recv_all length]. by rewrite recv_end.
  - apply Forall_cons in HF as [Hm HF]. change (encs (m :: ms)) with (enc m ++ encs ms) in Hi.
    destruct (wasi_recv_one h m (encs ms) Hm Hi) as (h1 & E & H1). cbn [length]. cbn [recv_all]. rewrite E.
    specialize (IH h1 HF H1). cbn [recv_all] in IH. by rewrite IH.
Qed.

(** The WASI leg speaks the framing of the TCP transport.  A call that settles answers
    what the TCP transport answers on the corresponding answers of its socket, with the
    same bytes written and the same mark of a stall; a call on a stalled leg writes
    nothing; a peer that keeps reading, however slowly, gets the whole frame.  Messages a
    TCP transport wrote come out whole and in order, however the host cuts the stream,
    and its end is an error. *)
Theorem wasi_speaks_tcp h ms :
  Forall (λ m, len m <= MAX_FRAME_BYTES) ms -> incoming h = encs ms ->
  recv_all (S (length ms)) h = (ms, Some NetworkError) ∧
  (∀ stalled m answers flush_ok r st w, send_bytes stalled m answers flush_ok = (Some r, st, w) ->
    ∃ flush, ByteStream.send_bytes (mk_pipe stalled) m (mk_writes (as_answer <$> answers) flush) = (Some r, mk_pipe st, w)) ∧
  (∀ m answers flush_ok, ∃ e, send_bytes true m answers flush_ok = (Some (Err e), true, [])) ∧
  ∀ m answers, m ∈ ms -> Forall patient answers -> (length (enc m) < rooms answers)%nat ->
    send_bytes false m answers true = (Some (Ok ()), false, enc m).
Proof.
  intros HF Hi. split_and!; [by apply recv_messages| | |].
  - intros stalled m answers flush_ok r st w E. unfold send_bytes, ByteStream.send_bytes in *. cbn [pp_stalled wr_answers wr_flush].
    change STEADY_STATE_FRAME_CAP with MAX_FRAME_BYTES. destruct (MAX_FRAME_BYTES <? len m); [injection E as <- <- <-; by exists Flushed|].
    destruct stalled; [injection E as <- <- <-; by exists Flushed|].
    destruct (write_parts _ answers flush_ok) as [o w1] eqn:E1. destruct (write_parts_same _ _ _ _ _ E1) as [flush Ef].
    { by intros ->. }
    exists flush. change (fr_parts m) with (Ok (E := CoreError) [be_encode 4 (wrap 32 (len m)); m]). cbv beta iota.
    rewrite Ef. destruct o as [[]|[]]; by simplify_eq.
  - intros m answers flush_ok. unfold send_bytes. destruct (_ <? _); by eexists.
  - intros m answers Hm Hp Hr. rewrite Forall_forall in HF. specialize (HF m Hm). unfold send_bytes. case_test; [cbn in *; lia|].
    rewrite Tcp.tcp_enc in *. rewrite parts_served; [cbn [concat]; by rewrite app_nil_r|done|cbn [concat]; by rewrite app_nil_r].
Qed.

End ReadSpec.

(** A host that hands over prepared pieces. *)
Definition read_pieces (n : nat) (pieces : list (list Z)) : result (list Z * list (list Z)) () :=
  match filter (λ p, p ≠ []) pieces with
  | [] => Err ()
  | p :: more => Ok (take n p, drop n p :: more)
  end.

#[global] Instance piece_input : WasiInput := {| wi_state := list (list Z); blocking_read := read_pieces |}.

Lemma concat_nonempty (pieces : list (list Z)) : concat (filter (λ p, p ≠ []) pieces) = concat pieces.
Proof. induction pieces as [|[|z p] pieces IH]; [done|by rewrite filter_cons_False by naive_solver|]. rewrite filter_cons_True by done. cbn. by rewrite IH. Qed.

Lemma nonempty_pieces (pieces : list (list Z)) : Forall (λ p, p ≠ []) (filter (λ p, p ≠ []) pieces).
Proof. apply Forall_forall. intros p Hp. by apply list_elem_of_filter in Hp as [? _]. Qed.

#[global] Program Instance piece_input_laws : WasiInputLaws piece_input := {| incoming := @concat Z |}.
Next Obligation.
  intros n pieces Hn Hi. cbn in *. unfold read_pieces. rewrite <- (concat_nonempty pieces) in Hi |- *.
  destruct (nonempty_pieces pieces) as [|p more Hp _]; [done|]. do 2 eexists. split_and!; [done| | |].
  - destruct p, n; (done || lia).
  - rewrite length_take. lia.
  - cbn. by rewrite app_assoc, take_drop.
Qed.
Next Obligation.
  intros n pieces Hn Hi. cbn in *. unfold read_pieces. rewrite <- (concat_nonempty pieces) in Hi.
  destruct (nonempty_pieces pieces) as [|p more Hp _]; [left; by eexists|]. by destruct p.
Qed.

Lemma wasi_speaks_tcp_witness :
  recv_all 3 [[0; 0]; [0; 2; 7]; []; [8; 0; 0; 0; 1]; [9]] = ([[7; 8]; [9]], Some NetworkError) ∧
  send_bytes false [9] (RoomLater :: replicate 6 (Room 0 true)) true = (Some (Ok ()), false, [0; 0; 0; 1; 9]).
Proof.
  destruct (wasi_speaks_tcp (I := piece_input) [[0; 0]; [0; 2; 7]; []; [8; 0; 0; 0; 1]; [9]] [[7; 8]; [9]]) as (Hr & _ & _ & Hs).
  - repeat constructor; by vm_compute.
  - by vm_compute.
  - split; [exact Hr|]. apply (Hs [9]); [set_solver|repeat constructor|vm_compute; lia].
Defined.

(** The socket goes back to the host only after the streams derived from it, and a leg
    that stalled keeps the stream with undelivered bytes. *)
Theorem drop_keeps_parent_after_children stalled :
  (Output ∈ drop_leg stalled <-> stalled = false) ∧
  (∀ l r, drop_leg stalled = l ++ Socket :: r -> Output ∈ l ∧ Input ∈ l).
Proof.
  split; [destruct stalled; cbn; set_solver|]. intros l r E.
  destruct stalled, l as [|a1 [|a2 [|a3 [|a4 l]]]]; cbn in E; simplify_eq; set_solver.
Qed.

