(* ===== verification/Compression.v ===== *)
(** * Adaptive compression ([core/src/transport/compression.rs])

    A compressor that measures itself and stops when it saves nothing, and a decompressor
    that never produces more than its limit.  The two codecs are parameters. *)

From Stdlib Require Import ZArith Lia.
From Stdlib Require Import Floats.SpecFloat.
From stdpp Require Import base numbers option list.
From S2P Require Import Prelude Errors F64.

Local Open Scope phantom_scope.
Local Open Scope Z_scope.

(** ** The codecs *)

(** LZ4 with its length in front; Zstd, whose decoder is read as a stream: the bytes it
    gives, and whether it then ends well ([None]: it cannot be set up). *)
Class Codecs := {
  zstd_enabled : bool;  (* the build feature *)
  lz4_compress : list Z -> list Z;
  lz4_decompress : list Z -> option (list Z);
  zstd_encode : Z -> list Z -> option (list Z);
  zstd_stream : list Z -> option (list Z * bool);
}.

(** Documented behaviour: each codec reads what it wrote, the length in front of an LZ4
    block is that of its plaintext, and a block never gives more than that length. *)
Class CodecLaws `{Codecs} := {
  lz4_size d : len d < 2 ^ 32 -> take 4 (lz4_compress d) = le_encode 4 (len d) ∧ 4 <= len (lz4_compress d);
  lz4_round d : len d < 2 ^ 32 -> lz4_decompress (lz4_compress d) = Some d;
  lz4_bounded d out : lz4_decompress d = Some out -> 4 <= len d ∧ len out <= le_decode (take 4 d);
  zstd_round level d c : zstd_encode level d = Some c -> zstd_stream c = Some (d, true);
}.

Inductive CompressionAlgo := AlgoNone | Lz4 | Zstd1.

Definition from_byte (b : Z) : option CompressionAlgo :=
  if b =? 0 then Some AlgoNone else if b =? 1 then Some Lz4 else if b =? 2 then Some Zstd1 else None.
Definition to_byte (a : CompressionAlgo) : Z := match a with AlgoNone => 0 | Lz4 => 1 | Zstd1 => 2 end.

Definition MIN_COMPRESS_SIZE : Z := 64.
Definition MAX_DECOMPRESSED_LEN : Z := 16 * 1024 * 1024.

Record CompressionStats := mk_stats { total_input : Z; total_output : Z; samples : Z }.
Definition stats_new : CompressionStats := mk_stats 0 0 0.

Definition ratio (s : CompressionStats) : f64 :=
  if total_output s =? 0 then of_uint 1 else f64_div (of_uint (total_input s)) (of_uint (total_output s)).

Record AdaptiveCompressor := mk_compressor {
  algo : CompressionAlgo;
  stats : CompressionStats;
  probe_threshold : f64;
  probe_samples : Z;
  disabled_by_probe : bool;
  zstd_level : Z;
}.

Definition compressor_new (a : CompressionAlgo) : AdaptiveCompressor := mk_compressor a stats_new (literal 105 100) 32 false 1.
Definition compressor_none : AdaptiveCompressor := compressor_new AlgoNone.
Definition compressor_lz4 : AdaptiveCompressor := compressor_new Lz4.
Definition compressor_zstd (level : Z) : AdaptiveCompressor :=
  let c := compressor_new Zstd1 in
  mk_compressor (algo c) (stats c) (probe_threshold c) (probe_samples c) (disabled_by_probe c) (Z.max 1 (Z.min level 22)).

Definition algorithm (c : AdaptiveCompressor) : CompressionAlgo := if disabled_by_probe c then AlgoNone else algo c.
Definition is_active (c : AdaptiveCompressor) : bool := match algorithm c with AlgoNone => false | _ => true end.

Definition reset_probe (c : AdaptiveCompressor) : AdaptiveCompressor :=
  mk_compressor (algo c) stats_new (probe_threshold c) (probe_samples c) false (zstd_level c).

Inductive CompressionError := UnknownAlgorithm (b : Z) | DecompressFailed | OutputTooLarge (limit : Z).

Section Compression.
Context `{Codecs}.

Definition compress_zstd (data : list Z) (level : Z) : list Z := default data (zstd_encode level data).

Definition compress (c : AdaptiveCompressor) (data : list Z) : Z * list Z * AdaptiveCompressor :=
  let active := algorithm c in
  if negb (is_active c) || (len data <? MIN_COMPRESS_SIZE) then (to_byte AlgoNone, data, c)
  else
    let compressed := match active with Zstd1 => if zstd_enabled then compress_zstd data (zstd_level c) else lz4_compress data | _ => lz4_compress data end in
    let s := mk_stats (wrap 64 (total_input (stats c) + len data)) (wrap 64 (total_output (stats c) + len compressed)) (wrap 32 (samples (stats c) + 1)) in
    let c1 := mk_compressor (algo c) s (probe_threshold c) (probe_samples c) (disabled_by_probe c) (zstd_level c) in
    if (samples s =? probe_samples c) && SFltb (ratio s) (probe_threshold c) then
      (to_byte AlgoNone, data, mk_compressor (algo c) s (probe_threshold c) (probe_samples c) true (zstd_level c))
    else if len compressed <? len data then (to_byte active, compressed, c1)
    else (to_byte AlgoNone, data, c1).

Definition decompress_lz4 (data : list Z) (max_output : Z) : result (list Z) CompressionError :=
  if (4 <=? len data) && (max_output <? le_decode (take 4 data)) then Err (OutputTooLarge max_output)
  else ok_or (lz4_decompress data) DecompressFailed.

(** [take(n).read_to_end]: an error of the stream counts only within the first [n] bytes. *)
Definition read_capped (n : Z) (out : list Z) (ends_well : bool) : option (list Z) :=
  if n <=? len out then Some (take (Z.to_nat n) out) else if ends_well then Some out else None.

Definition decompress_zstd (data : list Z) (max_output : Z) : result (list Z) CompressionError :=
  s <-? ok_or (zstd_stream data) DecompressFailed;
  out <-? ok_or (read_capped (Z.min (max_output + 1) (u_max 64)) s.1 s.2) DecompressFailed;
  if max_output <? len out then Err (OutputTooLarge max_output) else Ok out.

Definition decompress_with_limit (algo_byte : Z) (data : list Z) (max_output : Z) : result (list Z) CompressionError :=
  a <-? ok_or (from_byte algo_byte) (UnknownAlgorithm algo_byte);
  match a with
  | AlgoNone => if max_output <? len data then Err (OutputTooLarge max_output) else Ok data
  | Lz4 => decompress_lz4 data max_output
  | Zstd1 => if zstd_enabled then decompress_zstd data max_output else Err DecompressFailed
  end.

Definition decompress (algo_byte : Z) (data : list Z) : result (list Z) CompressionError :=
  decompress_with_limit algo_byte data MAX_DECOMPRESSED_LEN.

End Compression.

(** ** Round trip and bound *)

Section Laws.
Context `{CodecLaws}.

Lemma decompress_lz4_ok d limit : len d < 2 ^ 32 -> len d <= limit -> decompress_lz4 (lz4_compress d) limit = Ok d.
Proof.
  intros Hd Hl. destruct (lz4_size d Hd) as [Hs Hs4]. unfold decompress_lz4. rewrite Hs, le_decode_encode by (pose proof (len_nonneg d); cbn; lia).
  destruct (Z.ltb_spec limit (len d)); [lia|]. rewrite andb_false_r, lz4_round by done. done.
Qed.

Lemma decompress_zstd_ok level d c limit : zstd_encode level d = Some c -> len d <= limit <= u_max 64 -> decompress_zstd c limit = Ok d.
Proof.
  intros E Hl. unfold decompress_zstd. rewrite (zstd_round _ _ _ E). cbn [ok_or fst snd]. unfold read_capped.
  assert (Hc : (if Z.min (limit + 1) (u_max 64) <=? len d then Some (take (Z.to_nat (Z.min (limit + 1) (u_max 64))) d) else Some d) = Some d).
  { destruct (Z.leb_spec (Z.min (limit + 1) (u_max 64)) (len d)); [|done]. rewrite take_ge; [done|]. unfold len in *. lia. }
  rewrite Hc. cbn [ok_or]. destruct (Z.ltb_spec limit (len d)); [lia|done].
Qed.

(** What the compressor returns, from whatever it has measured so far, the decompressor
    turns back into the payload, when the limit admits it. *)
Theorem compress_round_trip c data limit :
  (algorithm c = Zstd1 -> zstd_enabled = true) -> len data < 2 ^ 32 -> len data <= limit <= u_max 64 ->
  let '(b, d, _) := compress c data in decompress_with_limit b d limit = Ok data.
Proof.
  intros Hz Hd Hl. unfold compress.
  assert (Hnone : decompress_with_limit (to_byte AlgoNone) data limit = Ok data).
  { cbn. destruct (Z.ltb_spec limit (len data)); [lia|done]. }
  destruct (_ || _) eqn:Ea; [done|]. apply orb_false_iff in Ea as [Ea _]. apply negb_false_iff in Ea. unfold is_active in Ea.
  destruct (algorithm c) eqn:Ealg; [done| |]; destruct (_ && _); try done.
  - destruct (Z.ltb_spec (len (lz4_compress data)) (len data)); [unfold decompress_with_limit; cbn [from_byte to_byte Z.eqb Pos.eqb ok_or]; apply decompress_lz4_ok; lia|done].
  - rewrite (Hz eq_refl). unfold compress_zstd. destruct (zstd_encode (zstd_level c) data) as [x|] eqn:E; cbn [default from_option]; unfold id.
    + destruct (Z.ltb_spec (len x) (len data)); [|done]. unfold decompress_with_limit. cbn [from_byte to_byte Z.eqb Pos.eqb ok_or].
      rewrite (Hz eq_refl). by apply (decompress_zstd_ok (zstd_level c)).
    + by rewrite Z.ltb_irrefl.
Qed.

(** Whatever the bytes and whatever algorithm they claim, decompression gives no more than
    its limit. *)
Theorem decompress_bounded b data limit out : decompress_with_limit b data limit = Ok out -> len out <= limit.
Proof.
  unfold decompress_with_limit. destruct (from_byte b) as [[]|]; cbn [ok_or]; [| | |done].
  - destruct (Z.ltb_spec limit (len data)); [done|]. by intros [= <-].
  - unfold decompress_lz4. destruct (_ && _) eqn:E; [done|]. destruct (lz4_decompress data) as [o|] eqn:Eo; [|done]. cbn [ok_or]. intros [= <-].
    apply lz4_bounded in Eo as [H4 Ho]. apply andb_false_iff in E as [E|E]; [apply Z.leb_gt in E|apply Z.ltb_ge in E]; lia.
  - destruct zstd_enabled; [|done]. unfold decompress_zstd. destruct (zstd_stream data) as [[s ok]|]; [|done]. cbn [ok_or fst snd].
    destruct (read_capped _ s ok) as [o|]; [|done]. cbn [ok_or]. destruct (Z.ltb_spec limit (len o)); [done|]. by intros [= <-].
Qed.

(** In a build without Zstd the compressor set to it compresses with LZ4 and still marks
    the payload as Zstd, which the decompressor of the same build refuses. *)
Theorem fallback_is_unreadable level data :
  zstd_enabled = false -> MIN_COMPRESS_SIZE <= len data -> len (lz4_compress data) < len data ->
  ∃ c', compress (compressor_zstd level) data = (to_byte Zstd1, lz4_compress data, c') ∧
    decompress (to_byte Zstd1) (lz4_compress data) = Err DecompressFailed.
Proof.
  intros Hz Hm Hs. unfold compress, decompress, decompress_with_limit. rewrite Hz. cbn [is_active algorithm compressor_zstd disabled_by_probe compressor_new algo negb orb].
  destruct (Z.ltb_spec (len data) MIN_COMPRESS_SIZE); [lia|]. cbn [stats samples stats_new compressor_zstd compressor_new probe_samples].
  change (wrap 32 (0 + 1) =? 32) with false. cbn [andb]. destruct (Z.ltb_spec (len (lz4_compress data)) (len data)); [|lia]. by eexists.
Qed.

End Laws.

(** ** A concrete codec

    The length, then either one byte and the value it repeats or the bytes as they are. *)

Definition toy_pack (d : list Z) : list Z :=
  le_encode 4 (len d) ++ match d with x :: _ => if bool_decide (d = replicate (length d) x) then [1; x] else 0 :: d | [] => [0] end.

Definition toy_unpack (c : list Z) : option (list Z) :=
  let n := le_decode (take 4 c) in
  if (length c <? 4)%nat || (n <? 0) then None
  else match drop 4 c with
  | t :: rest =>
    if t =? 1 then match rest with [x] => Some (replicate (Z.to_nat n) x) | _ => None end
    else if len rest =? n then Some rest else None
  | [] => None
  end.

Lemma toy_unpack_pack d : len d < 2 ^ 32 -> toy_unpack (toy_pack d) = Some d.
Proof.
  intros Hd. pose proof (len_nonneg d). unfold toy_unpack, toy_pack. rewrite length_app, le_encode_length, take_app_length', drop_app_length' by (by rewrite le_encode_length).
  rewrite le_decode_encode by (cbn; lia). destruct (Z.ltb_spec (len d) 0); [lia|]. cbn [Nat.add Nat.ltb Nat.leb orb].
  destruct d as [|x d]; [done|]. destruct (bool_decide_reflect (x :: d = replicate (length (x :: d)) x)) as [E|_].
  - cbn [Z.eqb Pos.eqb]. unfold len. rewrite Nat2Z.id. by rewrite <- E.
  - by rewrite Z.eqb_refl.
Qed.

Definition toy_codecs (zstd : bool) : Codecs := {|
  zstd_enabled := zstd;
  lz4_compress := toy_pack;
  lz4_decompress := toy_unpack;
  zstd_encode _ d := if len d <? 2 ^ 32 then Some (toy_pack d) else None;
  zstd_stream c := (λ d, (d, true)) <$> toy_unpack c;
|}.

Lemma toy_codec_laws zstd : @CodecLaws (toy_codecs zstd).
Proof.
  split; cbn [lz4_compress lz4_decompress zstd_encode zstd_stream toy_codecs].
  - intros d Hd. unfold toy_pack. rewrite take_app_length' by (by rewrite le_encode_length). split; [done|].
    unfold len. rewrite length_app, le_encode_length. lia.
  - apply toy_unpack_pack.
  - intros d out. unfold toy_unpack. destruct (Nat.ltb_spec (length d) 4); [done|]. cbn [orb].
    destruct (Z.ltb_spec (le_decode (take 4 d)) 0); [done|]. destruct (drop 4 d) as [|t rest]; [done|]. intros E. split; [unfold len; lia|].
    destruct (t =? 1).
    + destruct rest as [|x [|? ?]]; try done. injection E as <-. unfold len. rewrite length_replicate. lia.
    + destruct (Z.eqb_spec (len rest) (le_decode (take 4 d))); [|done]. injection E as <-. lia.
  - intros level d c. destruct (Z.ltb_spec (len d) (2 ^ 32)); [|done]. intros [= <-]. by rewrite toy_unpack_pack.
Qed.

Lemma compress_round_trip_witness :
  let '(b, d, _) := @compress (toy_codecs true) (compressor_zstd 3) (replicate 80 7) in @decompress_with_limit (toy_codecs true) b d 100 = Ok (replicate 80 7).
Proof. refine (@compress_round_trip (toy_codecs true) (toy_codec_laws true) (compressor_zstd 3) (replicate 80 7) 100 _ _ _); by vm_compute. Defined.

Lemma decompress_bounded_witness : len (replicate 9 5) <= 20.
Proof. refine (@decompress_bounded (toy_codecs true) (toy_codec_laws true) 1 [9; 0; 0; 0; 1; 5] 20 (replicate 9 5) _); by vm_compute. Defined.

Lemma fallback_is_unreadable_witness : ∃ c',
  @compress (toy_codecs false) (compressor_zstd 3) (replicate 80 7) = (2, toy_pack (replicate 80 7), c') ∧
  @decompress (toy_codecs false) 2 (toy_pack (replicate 80 7)) = Err DecompressFailed.
Proof. refine (@fallback_is_unreadable (toy_codecs false) 3 (replicate 80 7) _ _ _); by vm_compute. Defined.
