(* ===== verification/SessionApi.v ===== *)
(** * The calls of the application ([core/src/api/stream.rs] and the [PhantomSession] calls
      of [core/src/api/session.rs])

    The first part is what each call answers: [send], [recv], [await_ready],
    [flush_queue], [disconnect] and [migrate] of a session; the writes, [recv],
    [set_priority] and [disconnect] of a stream handle, and its drop.

    The second part is the system they make with the task that connects and then runs
    the pump.  A call that awaits is two steps, what it decides and what it then does, so
    a handshake can complete in between.  It extends the system of SendQueue.v to the time
    before the pump runs, when a session queues what it is given. *)

From Stdlib Require Import ZArith Lia.
From stdpp Require Import base numbers option gmap list sets relations.
From S2P Require Import Bbr Pacer.
From S2P Require Import Prelude Errors Replay Wire Sack Rto StreamSend StreamRecv Arq Stream Path.
From S2P Require Import Crypto Shaping Cid Datagram Session Coalesce Mux Pump StreamTable SendLoop SendQueue Liveness.

Local Open Scope Z_scope.

(** ** What the calls answer *)

(** The value a [ConnectionState] is published as, and read back from. *)
Definition to_u8 (c : Conn.ConnectionState) : Z :=
  match c with
  | Conn.Connecting => 0 | Conn.Connected => 4 | Conn.Failed => 5 | Conn.Closed => 6
  | Conn.Migrating => 7 | Conn.Dead => 8 | Conn.Draining => 9
  end.

Definition from_u8 (v : Z) : Conn.ConnectionState :=
  if v =? 0 then Conn.Connecting else if v =? 4 then Conn.Connected else if v =? 5 then Conn.Failed
  else if v =? 6 then Conn.Closed else if v =? 7 then Conn.Migrating else if v =? 8 then Conn.Dead
  else if v =? 9 then Conn.Draining else Conn.Failed.

Definition is_data_ready (c : Conn.ConnectionState) : bool :=
  match c with Conn.Connected | Conn.Migrating => true | _ => false end.

Definition end_without_a_cause (c : Conn.ConnectionState) : CoreError :=
  match c with Conn.Failed | Conn.Dead => NetworkError | _ => ConnectionClosed end.

(** The recorded cause, or what is said when there is none. *)
Definition terminal_answer (c : Conn.ConnectionState) (slot : option CoreError) : CoreError :=
  default (end_without_a_cause c) slot.

(** Where [PhantomSession::send] takes its data: the command channel, or the queue of a
    session that is still connecting. *)
Inductive Route := ToPump | ToQueue.

Definition send_route (c : Conn.ConnectionState) (slot : option CoreError) : result Route CoreError :=
  match c with
  | Conn.Draining => Err ConnectionClosed
  | Conn.Connected | Conn.Migrating => Ok ToPump
  | Conn.Connecting => Ok ToQueue
  | _ => Err (terminal_answer c slot)
  end.

(** A call that may have to wait. *)
Inductive Poll (A : Type) := Pending | Ready (a : A).
Arguments Pending {A}.
Arguments Ready {A} a.

(** [PhantomSession::recv] on what the channel holds; [open] while a sender is left. *)
Definition session_recv (c : Conn.ConnectionState) (slot : option CoreError) (rx : list (list Z)) (open : bool)
  : Poll (result (list Z) CoreError * list (list Z)) :=
  match rx with
  | bytes :: rest => Ready (Ok bytes, rest)
  | [] => if open then Pending else Ready (Err (terminal_answer c slot), [])
  end.

(** [await_ready]: [ready] is the last value of the watch, [open] while its sender lives. *)
Definition await_ready (ready : Conn.ConnectionState) (open : bool) (c : Conn.ConnectionState) (slot : option CoreError)
  : Poll (result unit CoreError) :=
  match ready with
  | Conn.Connecting => if open then Pending else Ready (Err NetworkError)
  | _ =>
    Ready match c with
    | Conn.Draining => Err ConnectionClosed
    | Conn.Failed | Conn.Dead | Conn.Closed => Err (terminal_answer c slot)
    | _ => Ok tt
    end
  end.

(** [PhantomSession::disconnect]: the state it publishes, and the close it raises. *)
Definition session_disconnect (c : Conn.ConnectionState) (close_requested : bool) : Conn.ConnectionState * bool :=
  (publish_disconnect c, true).

(** The command channel: depth 256, and an error once the receiver is gone. *)
Definition COMMAND_CHANNEL_DEPTH : nat := 256.
Definition CONTROL_CHANNEL_DEPTH : nat := 32.

Definition push_channel {A} (depth : nat) (receiver : bool) (a : A) (q : list A) : Poll (result (list A) CoreError) :=
  if negb receiver then Ready (Err ConnectionClosed)
  else if (length q <? depth)%nat then Ready (Ok (q ++ [a])) else Pending.

(** [PhantomSession::migrate] and [migrate_server] on a session whose transport can, or
    cannot, move this way; an ended session is a [NetworkError] here. *)
Definition session_migrate (capable receiver : bool) (ctl : ControlCommand) (q : list ControlCommand)
  : Poll (result (list ControlCommand) CoreError) :=
  if negb capable then Ready (Err Unsupported)
  else match push_channel CONTROL_CHANNEL_DEPTH receiver ctl q with
  | Ready (Err _) => Ready (Err NetworkError)
  | p => p
  end.

(** *** The stream handle *)

(** [PhantomStream]: [ps_rx] is its end of the route, [ps_routed] while the route exists. *)
Record PhantomStream := mk_phantom_stream {
  ps_id : Z;
  ps_issued : bool;
  ps_rx : list StreamMessage;
  ps_routed : bool;
}.

Definition refuse_while_draining (c : Conn.ConnectionState) : result unit CoreError :=
  match c with Conn.Draining => Err ConnectionClosed | _ => Ok tt end.

Definition issued (h : PhantomStream) : PhantomStream := mk_phantom_stream (ps_id h) true (ps_rx h) (ps_routed h).

(** The three commands of a handle differ in what they queue. *)
Definition handle_command (c : Conn.ConnectionState) (receiver : bool) (cmd : SessionCommand) (h : PhantomStream)
  (q : list SessionCommand) : Poll (result (list SessionCommand) CoreError) * PhantomStream :=
  match refuse_while_draining c with
  | Err e => (Ready (Err e), h)
  | Ok _ => (push_channel COMMAND_CHANNEL_DEPTH receiver cmd q, issued h)
  end.

Definition stream_send_reliable c receiver (data : list Z) (h : PhantomStream) :=
  handle_command c receiver (CmdSendReliable (ps_id h) data) h.
Definition stream_send_unreliable c receiver (data : list Z) (h : PhantomStream) :=
  handle_command c receiver (CmdSendUnreliable (ps_id h) data) h.
Definition stream_disconnect c receiver (h : PhantomStream) :=
  handle_command c receiver (CmdCloseStream (ps_id h)) h.

(** [set_priority] is asked of a draining session too. *)
Definition stream_set_priority (receiver : bool) (prio : Z) (h : PhantomStream) (q : list ControlCommand)
  : Poll (result (list ControlCommand) CoreError) :=
  push_channel CONTROL_CHANNEL_DEPTH receiver (CtlSetPriority (ps_id h) prio) q.

(** The loop of [PhantomStream::recv]: acknowledgements are passed over. *)
Fixpoint recv_messages (rx : list StreamMessage) (routed : bool) : Poll (result (option (list Z)) CoreError * list StreamMessage) :=
  match rx with
  | MsgData b :: rest => Ready (Ok (Some b), rest)
  | MsgAck _ :: rest => recv_messages rest routed
  | MsgClose :: rest => Ready (Ok None, rest)
  | [] => if routed then Pending else Ready (Err ConnectionClosed, [])
  end.

Definition stream_recv (h : PhantomStream) : Poll (result (option (list Z)) CoreError) * PhantomStream :=
  match recv_messages (ps_rx h) (ps_routed h) with
  | Ready (r, rest) => (Ready r, mk_phantom_stream (ps_id h) (ps_issued h) rest (ps_routed h))
  | Pending => (Pending, mk_phantom_stream (ps_id h) (ps_issued h) [] (ps_routed h))
  end.

(** ** The system *)

(** How far the background task is: the handshake; the session published, its queue not
    taken yet; the pump; the channels dropped. *)
Inductive Phase := Handshaking | Established | Pumping | Over.

Definition receives (p : Phase) : bool := match p with Over => false | _ => true end.

(** A call that has looked at the state and awaits the command channel, or the lock of
    the queue. *)
Inductive Call := CallPump (cmd : SessionCommand) | CallQueue (data : list Z) | CallFlush.

Section System.
Context `{Primitives} {ch : Mpsc}.

(** [ap_flush] is the [flush_queue] that holds the queue's lock, with what it has still to
    hand over; [ap_calls] the calls that have read the state and await a channel or the
    lock ([send] and the handles' commands; [flush_queue]); [ap_handles] the handles in the application's hands, with [issued_command].

    The rest is history: the reliable writes answered [Ok], the early data queued again,
    what was queued after the session stopped connecting, and whether a [flush_queue]
    began before the pump ran. *)
Record Api := mk_api {
  ap_conn : Conn.ConnectionState;
  ap_phase : Phase;
  ap_queue : list (list Z);
  ap_flush : option (list (list Z));
  ap_calls : list Call;
  ap_handles : gmap Z bool;
  ap_sender : Sender;
  ap_accepted : list (Z * list Z);
  ap_requeued : list (list Z);
  ap_late : list (list Z);
  ap_flushed_early : bool;
}.

(** The stream a call writes on, and what it writes there. *)
Definition writes_of (cmd : SessionCommand) : list (Z * list Z) :=
  match cmd with
  | CmdSend data => [(RAW_APP_STREAM_ID, data)]
  | CmdSendReliable id data => [(id, data)]
  | _ => []
  end.

Definition command_stream (cmd : SessionCommand) : option Z :=
  match cmd with
  | CmdSendReliable id _ | CmdSendUnreliable id _ | CmdCloseStream id => Some id
  | _ => None
  end.

Definition call_stream (c : Call) : option Z := match c with CallPump cmd => command_stream cmd | _ => None end.

(** What [send] goes on to await. *)
Definition send_call (route : Route) (data : list Z) : Call :=
  match route with ToPump => CallPump (CmdSend data) | ToQueue => CallQueue data end.

(** A command that has found room. *)
Definition issue (cmd : SessionCommand) (cmds : list SessionCommand) (x : Sender) : Sender :=
  mk_sender (sn_state x) cmds (sn_deferred x) (sn_reports x) (sn_releases x) (sn_taken x) (sn_log x)
    (sn_written x ++ writes_of cmd) (sn_known x) (sn_dropped x)
    (match cmd with CmdCloseStream id => {[id]} ∪ sn_closed x | _ => sn_closed x end).

(** The pump takes the queue. *)
Definition start_sender (queued : list (list Z)) (x : Sender) : Sender :=
  let started := start_queue queued (sn_state x) in
  mk_sender started.2 (sn_cmds x) started.1 (sn_reports x) (sn_releases x) (sn_taken x) (sn_log x)
    ((pair RAW_APP_STREAM_ID <$> queued) ++ sn_written x) (sn_known x) (sn_dropped x) (sn_closed x).

(** [open_stream] on the sender's side. *)
Definition opened_sender (id : Z) (r : RecvState) (x : Sender) : Sender :=
  mk_sender (mk_ss r (ss_cong (sn_state x)) (ss_detached (sn_state x))) (sn_cmds x) (sn_deferred x) (sn_reports x)
    (sn_releases x) (sn_taken x) (sn_log x) (sn_written x) ({[id]} ∪ sn_known x) (sn_dropped x) (sn_closed x).

(** [Drop for PhantomStream]: retired on the spot, or reported. *)
Definition drop_handle (id : Z) (issued_command : bool) (x : Sender) : Sender :=
  let '(gone, st) := if issued_command then (false, sn_state x) else retire_untouched_local id (sn_state x) in
  mk_sender (if gone : bool then st else sn_state x) (sn_cmds x) (sn_deferred x)
    (if gone : bool then sn_reports x else sn_reports x ++ [id]) (sn_releases x) (sn_taken x) (sn_log x)
    (sn_written x) (sn_known x) ({[id]} ∪ sn_dropped x) (sn_closed x).

Definition conn_is_connecting (c : Conn.ConnectionState) : bool := match c with Conn.Connecting => true | _ => false end.

Definition with_sender (a : Api) (x : Sender) : Api :=
  mk_api (ap_conn a) (ap_phase a) (ap_queue a) (ap_flush a) (ap_calls a) (ap_handles a) x
    (ap_accepted a) (ap_requeued a) (ap_late a) (ap_flushed_early a).
Definition with_calls (a : Api) (calls : list Call) (accepted : list (Z * list Z)) : Api :=
  mk_api (ap_conn a) (ap_phase a) (ap_queue a) (ap_flush a) calls (ap_handles a) (ap_sender a)
    (ap_accepted a ++ accepted) (ap_requeued a) (ap_late a) (ap_flushed_early a).
Definition with_handles (a : Api) (m : gmap Z bool) : Api :=
  mk_api (ap_conn a) (ap_phase a) (ap_queue a) (ap_flush a) (ap_calls a) m (ap_sender a)
    (ap_accepted a) (ap_requeued a) (ap_late a) (ap_flushed_early a).
Definition with_conn (a : Api) (c : Conn.ConnectionState) (p : Phase) : Api :=
  mk_api c p (ap_queue a) (ap_flush a) (ap_calls a) (ap_handles a) (ap_sender a)
    (ap_accepted a) (ap_requeued a) (ap_late a) (ap_flushed_early a).
Definition with_flush (a : Api) (l : option (list (list Z))) : Api :=
  mk_api (ap_conn a) (ap_phase a) (ap_queue a) l (ap_calls a) (ap_handles a) (ap_sender a)
    (ap_accepted a) (ap_requeued a) (ap_late a) (ap_flushed_early a).
(** A queued write: late when the session is no longer connecting. *)
Definition queue_push (a : Api) (calls : list Call) (data : list Z) : Api :=
  mk_api (ap_conn a) (ap_phase a) (ap_queue a ++ [data]) (ap_flush a) calls (ap_handles a) (ap_sender a)
    (ap_accepted a ++ [(RAW_APP_STREAM_ID, data)]) (ap_requeued a)
    (if conn_is_connecting (ap_conn a) then ap_late a else ap_late a ++ [data]) (ap_flushed_early a).

(** The handshake is done: rejected early data goes back in front, the state is published. *)
Definition publish_session (a : Api) (early : option (list Z)) : Api :=
  let again := match early with Some ed => [ed] | None => [] end in
  mk_api (publish_unless_ended (ap_conn a) Conn.Connected) Established (again ++ ap_queue a) (ap_flush a)
    (ap_calls a) (ap_handles a) (ap_sender a) (ap_accepted a) again (ap_late a) (ap_flushed_early a).

Definition start_pump (a : Api) : Api :=
  mk_api (ap_conn a) Pumping [] (ap_flush a) (ap_calls a) (ap_handles a) (start_sender (ap_queue a) (ap_sender a))
    (ap_accepted a) (ap_requeued a) (ap_late a) (ap_flushed_early a).

(** [flush_queue] takes the lock and empties the queue. *)
Definition begin_flush (a : Api) (calls : list Call) : Api :=
  mk_api (ap_conn a) (ap_phase a) [] (Some (ap_queue a)) calls (ap_handles a) (ap_sender a)
    (ap_accepted a) (ap_requeued a) (ap_late a)
    (match ap_phase a with Handshaking | Established => true | _ => ap_flushed_early a end).

(** What the pump and the other tasks do: nothing the application did is undone. *)
Definition pump_side (x y : Sender) : Prop :=
  sender_step x y ∧ sn_written y = sn_written x ∧ sn_dropped y = sn_dropped x ∧ sn_closed y = sn_closed x.

Definition push_command (a : Api) (cmd : SessionCommand) : Poll (result (list SessionCommand) CoreError) :=
  push_channel COMMAND_CHANNEL_DEPTH (receives (ap_phase a)) cmd (sn_cmds (ap_sender a)).

(** Every step but the call of [flush_queue].  The state changes otherwise as the task or
    the application publish it: never back to connecting, and to a state that carries
    data only while the pump runs.  The task ends with the handshake or with the pump,
    not between.  A handle is not dropped while a call borrows it. *)
Inductive api_step (a : Api) : Api -> Prop :=
| as_send slot data route :
    send_route (ap_conn a) slot = Ok route ->
    api_step a (with_calls a (ap_calls a ++ [send_call route data]) [])
| as_command id b cmd :
    ap_handles a !! id = Some b -> command_stream cmd = Some id -> refuse_while_draining (ap_conn a) = Ok tt ->
    api_step a (with_handles (with_calls a (ap_calls a ++ [CallPump cmd]) []) (<[id := true]> (ap_handles a)))
| as_pushed c1 cmd c2 cmds :
    ap_calls a = c1 ++ CallPump cmd :: c2 -> push_command a cmd = Ready (Ok cmds) ->
    api_step a (with_sender (with_calls a (c1 ++ c2) (writes_of cmd)) (issue cmd cmds (ap_sender a)))
| as_refused c1 cmd c2 e :
    ap_calls a = c1 ++ CallPump cmd :: c2 -> push_command a cmd = Ready (Err e) ->
    api_step a (with_calls a (c1 ++ c2) [])
| as_queued c1 data c2 :
    ap_calls a = c1 ++ CallQueue data :: c2 -> ap_flush a = None ->
    api_step a (queue_push a (c1 ++ c2) data)
| as_flush_begin c1 c2 :
    ap_calls a = c1 ++ CallFlush :: c2 -> ap_flush a = None -> api_step a (begin_flush a (c1 ++ c2))
| as_flush_one data rest cmds :
    ap_flush a = Some (data :: rest) -> push_command a (CmdSend data) = Ready (Ok cmds) ->
    api_step a (with_flush (with_sender a (issue (CmdSend data) cmds (ap_sender a))) (Some rest))
| as_flush_failed data rest e :
    ap_flush a = Some (data :: rest) -> push_command a (CmdSend data) = Ready (Err e) ->
    api_step a (with_flush a None)
| as_flush_done : ap_flush a = Some [] -> api_step a (with_flush a None)
| as_publish early :
    ap_phase a = Handshaking -> (is_Some early -> ap_flush a = None) -> api_step a (publish_session a early)
| as_start : ap_phase a = Established -> ap_flush a = None -> api_step a (start_pump a)
| as_pump y : ap_phase a = Pumping -> pump_side (ap_sender a) y -> api_step a (with_sender a y)
| as_state c :
    c ≠ Conn.Connecting -> (is_data_ready c = true -> ap_phase a = Pumping) ->
    api_step a (with_conn a c (ap_phase a))
| as_over c :
    ap_phase a = Handshaking ∨ ap_phase a = Pumping -> Conn.ended c = true -> api_step a (with_conn a c Over)
| as_open id r :
    open_local_stream (ss_pump (sn_state (ap_sender a))) = (Ok id, r) -> RAW_APP_STREAM_ID < id -> id ∉ sn_known (ap_sender a) ->
    api_step a (with_handles (with_sender a (opened_sender id r (ap_sender a))) (<[id := false]> (ap_handles a)))
| as_accept id :
    RAW_APP_STREAM_ID < id -> id ∈ sn_known (ap_sender a) -> id ∉ sn_dropped (ap_sender a) -> ap_handles a !! id = None ->
    api_step a (with_handles a (<[id := false]> (ap_handles a)))
| as_drop id b :
    ap_handles a !! id = Some b -> Forall (λ c, call_stream c ≠ Some id) (ap_calls a) ->
    api_step a (with_handles (with_sender a (drop_handle id b (ap_sender a))) (delete id (ap_handles a))).

Inductive flush_call (a : Api) : Api -> Prop :=
| fc_call : refuse_while_draining (ap_conn a) = Ok tt -> flush_call a (with_calls a (ap_calls a ++ [CallFlush]) []).

Definition any_step (a b : Api) : Prop := api_step a b ∨ flush_call a b.

Definition api_init (r : RecvState) (c : Congestion) : Api :=
  mk_api Conn.Connecting Handshaking [] None [] ∅ (sender_init r c) [] [] [] false.

Definition api_reachable (a : Api) : Prop := ∃ r c, rtc any_step (api_init r c) a.

(** ** The sender underneath *)

Definition raw (l : list (Z * list Z)) : list (list Z) := (filter (λ w, w.1 = RAW_APP_STREAM_ID) l).*2.

#[global] Arguments raw : simpl never.

Lemma raw_app l1 l2 : raw (l1 ++ l2) = raw l1 ++ raw l2.
Proof. unfold raw. by rewrite filter_app, fmap_app. Qed.

Lemma raw_queued q : raw (pair RAW_APP_STREAM_ID <$> q) = q.
Proof. unfold raw. induction q as [|d q IH]; [done|]. cbn. rewrite decide_True by done. cbn. by f_equal. Qed.

Lemma push_command_spec a cmd cmds :
  push_command a cmd = Ready (Ok cmds) ->
  receives (ap_phase a) = true ∧ (length (sn_cmds (ap_sender a)) < COMMAND_CHANNEL_DEPTH)%nat ∧ cmds = sn_cmds (ap_sender a) ++ [cmd].
Proof. unfold push_command, push_channel. destruct (receives _); cbn [negb]; [|done]. destruct (Nat.ltb_spec (length (sn_cmds (ap_sender a))) COMMAND_CHANNEL_DEPTH); [|done]. intros [= <-]. auto. Qed.

Lemma issue_step cmd x :
  cmd ≠ CmdClose -> (∀ id d, cmd = CmdSendReliable id d -> id ∈ sn_known x ∧ (id ∉ sn_dropped x)) ->
  sender_step x (issue cmd (sn_cmds x ++ [cmd]) x).
Proof.
  intros Hc Hr. destruct x as [st C D P L n log W K X CL], cmd as [d|i d|i d|i|]; unfold issue; cbn; rewrite ?app_nil_r; [apply sn_send| | | |done].
  - destruct (Hr i d eq_refl). by apply sn_write.
  - apply sn_unreliable.
  - apply sn_disconnect.
Qed.

Lemma opened_reachable id r x :
  sender_reachable x -> open_local_stream (ss_pump (sn_state x)) = (Ok id, r) -> id ∉ sn_known x ->
  sender_reachable (opened_sender id r x).
Proof.
  intros Hx Ho Hk. destruct x as [st C D P L n log W K X CL]. unfold opened_sender. cbn in *.
  eapply sender_more in Hx; [|by apply (sn_open _ _ _ _ _ _ _ _ _ _ _ id)].
  eapply sender_more; [exact Hx|]. apply (sn_session (on_pump (put_stream id (stream_new id)) st)). unfold open_local_stream in Ho. cbn.
  destruct (try_open_local _) as [[] g]; [|done]. destruct (open_stream _ _) as [[i|e] d]; [|done]. by injection Ho as <- <-.
Qed.

Lemma drop_step id b x :
  id ∈ sn_known x -> RAW_APP_STREAM_ID < id -> (b = false -> Forall (λ w, w.1 ≠ id) (sn_written x)) ->
  sender_step x (drop_handle id b x).
Proof.
  intros Hk Hraw HW. destruct x as [st C D P L n log W K X CL]. unfold drop_handle. cbn in *.
  destruct b; [by apply sn_drop|]. destruct (retire_untouched_local id st) as [[] st'] eqn:E; [|by apply sn_drop].
  by apply sn_drop_unused; auto.
Qed.

Lemma started_step q x : sn_deferred x = [] -> sn_log x = [] -> sender_step x (start_sender q x).
Proof. destruct x as [st C D P L n log W K X CL]. cbn. intros -> ->. by apply sn_start. Qed.

(** ** Invariants *)

Record api_inv (a : Api) : Prop := {
  iv_reach : sender_reachable (ap_sender a);
  iv_idle : ap_phase a = Handshaking ∨ ap_phase a = Established -> sn_deferred (ap_sender a) = [] ∧ sn_log (ap_sender a) = [];
  iv_handles : ∀ id b, ap_handles a !! id = Some b ->
    id ∈ sn_known (ap_sender a) ∧ (id ∉ sn_dropped (ap_sender a)) ∧ RAW_APP_STREAM_ID < id;
  iv_written : ∀ id d, (id, d) ∈ sn_written (ap_sender a) ->
    id = RAW_APP_STREAM_ID ∨ id ∈ sn_dropped (ap_sender a) ∨ ap_handles a !! id = Some true;
  iv_dropped : sn_dropped (ap_sender a) ⊆ sn_known (ap_sender a);
  iv_calls : ∀ cmd, CallPump cmd ∈ ap_calls a ->
    (∃ d, cmd = CmdSend d) ∨ ∃ id, command_stream cmd = Some id ∧ ap_handles a !! id = Some true;
  iv_streams : ∀ id, id ≠ RAW_APP_STREAM_ID ->
    filter (λ w, w.1 = id) (ap_accepted a) = filter (λ w, w.1 = id) (sn_written (ap_sender a));
}.

Lemma filter_raw_none id q :
  id ≠ RAW_APP_STREAM_ID -> filter (λ w, w.1 = id) (pair RAW_APP_STREAM_ID <$> q) = ([] : list (Z * list Z)).
Proof. intros Hid. induction q as [|d q IH]; [done|]. cbn. by rewrite decide_False. Qed.

Lemma inv_calls_subset a c1 c c2 cmd : ap_calls a = c1 ++ c :: c2 -> CallPump cmd ∈ c1 ++ c2 -> CallPump cmd ∈ ap_calls a.
Proof. intros ->. set_solver. Qed.

Lemma call_issues a cmd : api_inv a -> CallPump cmd ∈ ap_calls a ->
  sender_step (ap_sender a) (issue cmd (sn_cmds (ap_sender a) ++ [cmd]) (ap_sender a)).
Proof.
  intros Hi Hc. destruct (iv_calls _ Hi _ Hc) as [[e ->]|(i & Hs & Hh)]; apply issue_step; try done; [by destruct cmd|].
  intros i' d ->. cbn in Hs. injection Hs as ->. by destruct (iv_handles _ Hi _ _ Hh) as (? & ? & _).
Qed.

(** A step that leaves the sender, the handles and what was accepted alone. *)
Lemma inv_quiet a b :
  api_inv a -> ap_sender b = ap_sender a -> ap_handles b = ap_handles a ->
  (∀ cmd, CallPump cmd ∈ ap_calls b -> CallPump cmd ∈ ap_calls a ∨ ∃ d, cmd = CmdSend d) ->
  (ap_phase b = Handshaking ∨ ap_phase b = Established -> ap_phase a = Handshaking ∨ ap_phase a = Established) ->
  (∀ id, id ≠ RAW_APP_STREAM_ID -> filter (λ w, w.1 = id) (ap_accepted b) = filter (λ w, w.1 = id) (ap_accepted a)) ->
  api_inv b.
Proof.
  intros [I1 I2 I3 I4 I7 I5 I6] Es Eh Hc Hp Ha. split; rewrite ?Es, ?Eh; auto.
  - intros cmd [?|?]%Hc; auto.
  - intros id Hid. rewrite Ha; auto.
Qed.

Lemma inv_issued a b cmd :
  api_inv a -> sender_step (ap_sender a) (issue cmd (sn_cmds (ap_sender a) ++ [cmd]) (ap_sender a)) ->
  ap_sender b = issue cmd (sn_cmds (ap_sender a) ++ [cmd]) (ap_sender a) -> ap_handles b = ap_handles a -> ap_phase b = ap_phase a ->
  (∀ cmd, CallPump cmd ∈ ap_calls b -> CallPump cmd ∈ ap_calls a) ->
  (∀ id d, (id, d) ∈ writes_of cmd -> id = RAW_APP_STREAM_ID ∨ ap_handles a !! id = Some true) ->
  (∀ id, id ≠ RAW_APP_STREAM_ID ->
    filter (λ w, w.1 = id) (ap_accepted b) = filter (λ w, w.1 = id) (ap_accepted a ++ writes_of cmd)) -> api_inv b.
Proof.
  intros [I1 I2 I3 I4 I7 I5 I6] Hs Es Eh Ep Hc Hw Ha. split; rewrite ?Es, ?Eh, ?Ep; cbn; auto.
  - by eapply sender_more.
  - intros id d [Hd|Hd]%elem_of_app; [by eapply I4|]. apply Hw in Hd as [|]; auto.
  - intros id Hid. rewrite Ha, !filter_app, I6; auto.
Qed.

Lemma inv_pump a y : api_inv a -> ap_phase a = Pumping -> pump_side (ap_sender a) y -> api_inv (with_sender a y).
Proof.
  intros [I1 I2 I3 I4 I7 I5 I6] Hp (Hs & HW & HX & _).
  assert (HK : sn_known (ap_sender a) ⊆ sn_known y) by (clear -Hs; destruct Hs; cbn; set_solver).
  split; cbn; rewrite ?HW, ?HX; auto.
  - by eapply sender_more.
  - rewrite Hp. intros [|]; done.
  - intros id b (? & ? & ?)%I3. auto.
  - by etrans.
Qed.

Lemma inv_handle_step a b : api_inv a -> (∃ id flag cmd, ap_handles a !! id = Some flag ∧ command_stream cmd = Some id ∧
    b = with_handles (with_calls a (ap_calls a ++ [CallPump cmd]) []) (<[id := true]> (ap_handles a))) -> api_inv b.
Proof.
  intros [I1 I2 I3 I4 I7 I5 I6] (id & flag & cmd & Hh & Hc & ->). split; cbn; rewrite ?app_nil_r; auto.
  - intros i b. destruct (decide (i = id)) as [->|Hne]; [intros _; by eapply I3|rewrite lookup_insert_ne by done; apply I3].
  - intros i d Hw. destruct (decide (i = id)) as [->|Hne]; [rewrite lookup_insert_eq; auto|rewrite lookup_insert_ne by done; by eapply I4].
  - intros c [Hin|Hin]%elem_of_app.
    + destruct (I5 _ Hin) as [?|(i & ? & ?)]; [by left|]. right. exists i. split; [done|].
      destruct (decide (i = id)) as [->|]; [by rewrite lookup_insert_eq|by rewrite lookup_insert_ne].
    + apply list_elem_of_singleton in Hin. injection Hin as ->. right. exists id. by rewrite lookup_insert_eq.
Qed.

Lemma inv_new_handle a x id :
  api_inv a -> sender_reachable x -> sn_known (ap_sender a) ⊆ sn_known x -> id ∈ sn_known x -> id ∉ sn_dropped x -> RAW_APP_STREAM_ID < id ->
  ap_handles a !! id = None -> sn_dropped x = sn_dropped (ap_sender a) -> sn_written x = sn_written (ap_sender a) ->
  sn_deferred x = sn_deferred (ap_sender a) -> sn_log x = sn_log (ap_sender a) ->
  api_inv (with_handles (with_sender a x) (<[id := false]> (ap_handles a))).
Proof.
  intros [I1 I2 I3 I4 I7 I5 I6] Hx HK Hid Hd Hraw Hh EX EW ED EL. split; cbn; rewrite ?EX, ?EW, ?ED, ?EL; auto.
  - intros i b. destruct (decide (i = id)) as [->|Hne]; [intros _; rewrite <- EX; auto|rewrite lookup_insert_ne by done].
    intros (? & ? & ?)%I3. auto.
  - intros i d [|[|Hi]]%I4; auto. right. right. rewrite lookup_insert_ne; [done|]. intros <-. congruence.
  - by etrans.
  - intros c [?|(i & ? & Hi)]%I5; [by left|]. right. exists i. split; [done|]. rewrite lookup_insert_ne; [done|]. intros <-. congruence.
Qed.

Lemma inv_drop_handle a id b :
  api_inv a -> ap_handles a !! id = Some b -> Forall (λ c, call_stream c ≠ Some id) (ap_calls a) ->
  api_inv (with_handles (with_sender a (drop_handle id b (ap_sender a))) (delete id (ap_handles a))).
Proof.
  intros Hi Hb HF. pose proof Hi as [I1 I2 I3 I4 I7 I5 I6]. destruct (I3 _ _ Hb) as (Hk & Hd & Hraw).
  assert (HW : b = false -> Forall (λ w, w.1 ≠ id) (sn_written (ap_sender a))).
  { intros ->. apply Forall_forall. intros [i d] Hw Hid. cbn in Hid. subst i. destruct (I4 _ _ Hw) as [->|[|]]; [lia|done|congruence]. }
  pose proof (drop_step id b (ap_sender a) Hk Hraw HW) as Hs.
  unfold drop_handle in *. destruct (if b then _ else _) as [gone st]. split; cbn; auto.
  - by eapply sender_more.
  - intros i c [Hne Hc]%lookup_delete_Some. destruct (I3 _ _ Hc) as (? & ? & ?). set_solver.
  - intros i d Hw. destruct (I4 _ _ Hw) as [|[|Hh]]; [by left|right; left; set_solver|]. right.
    destruct (decide (i = id)) as [->|]; [left; set_solver|right; by rewrite lookup_delete_ne].
  - set_solver.
  - intros c Hin. destruct (I5 _ Hin) as [?|(i & Hc & Hh)]; [by left|]. right. exists i. split; [done|].
    rewrite lookup_delete_ne; [done|]. intros <-. rewrite Forall_forall in HF. by apply (HF _ Hin).
Qed.

Lemma api_inv_step a b : any_step a b -> api_inv a -> api_inv b.
Proof.
  intros Hstep Hi. destruct Hstep as [Hstep|[]]; [|eapply inv_quiet; try done; [set_solver|cbn; intros; by rewrite app_nil_r]].
  destruct Hstep as [slot data route Hr|id b cmd Hb Hc _|c1 cmd c2 cmds Hc [_ [_ ->]]%push_command_spec|c1 cmd c2 e Hc _|c1 data c2 Hc _|c1 c2 Hc _
    |data rest cmds Hf [_ [_ ->]]%push_command_spec|data rest e Hf _|Hf|early Hp _|Hp _|y Hp Hs|c Hne _|c Hp _|id r Ho Hraw Hk|id Hraw Hk Hd Hh|id b Hb HF].
  - eapply inv_quiet; try done; [|cbn; intros; by rewrite app_nil_r]. cbn. intros cmd [|Hin%list_elem_of_singleton]%elem_of_app; [by left|].
    right. destruct route; cbn in Hin; simplify_eq; eauto.
  - eapply inv_handle_step; eauto 10.
  - assert (Hin : CallPump cmd ∈ ap_calls a) by (rewrite Hc; set_solver).
    eapply (inv_issued a _ cmd); [done|by apply call_issues|done|done|done| | |done].
    + intros c. by apply inv_calls_subset with (c := CallPump cmd).
    + intros i d Hw. destruct (iv_calls _ Hi _ Hin) as [[e ->]|(j & Hj & ?)]; [left; cbn in Hw; set_solver|].
      destruct cmd; cbn in *; simplify_eq; set_solver.
  - eapply inv_quiet; try done; [|cbn; intros; by rewrite app_nil_r]. intros cmd' Hin. left. by eapply inv_calls_subset.
  - eapply inv_quiet; try done; [intros cmd' Hin; left; by eapply inv_calls_subset|].
    cbn. intros id Hid. rewrite filter_app. cbn. rewrite decide_False by done. apply app_nil_r.
  - eapply inv_quiet; try done. intros cmd' Hin. left. by eapply inv_calls_subset.
  - eapply (inv_issued a _ (CmdSend data)); try done; [by apply issue_step|cbn; set_solver|].
    cbn. intros id Hid. rewrite filter_app. cbn. rewrite decide_False by done. by rewrite app_nil_r.
  - eapply inv_quiet; try done; auto.
  - eapply inv_quiet; try done; auto.
  - eapply inv_quiet; try done; auto.
  - destruct (iv_idle _ Hi) as [HD HL]; [auto|]. pose proof Hi as [I1 I2 I3 I4 I7 I5 I6]. split; cbn; auto.
    + by eapply sender_more, started_step.
    + intros [|]; done.
    + intros id d [Hw|Hw]%elem_of_app; [|by eapply I4]. apply list_elem_of_fmap in Hw as (? & [= <- <-] & _). by left.
    + intros id Hid. by rewrite filter_app, filter_raw_none, I6.
  - by apply inv_pump.
  - eapply inv_quiet; try done; auto.
  - eapply inv_quiet; try done; auto. cbn. intros [|]; done.
  - pose proof Hi as [I1 I2 I3 I4 I7 I5 I6]. apply inv_new_handle; cbn; auto; [by apply opened_reachable|set_solver..|].
    destruct (ap_handles a !! id) eqn:E; [|done]. by destruct (I3 _ _ E) as [? _].
  - replace (with_handles a _) with (with_handles (with_sender a (ap_sender a)) (<[id := false]> (ap_handles a))) by (by destruct a).
    apply inv_new_handle; auto. by apply iv_reach.
  - by apply inv_drop_handle.
Qed.

(** ** The raw stream before and after the pump starts *)

Definition held_back (a : Api) : list (list Z) := ap_queue a ++ default [] (ap_flush a).

Record raw_inv (a : Api) : Prop := {
  rw_kept : ap_phase a ≠ Over ->
    ap_requeued a ++ raw (ap_accepted a) ≡ₚ held_back a ++ raw (sn_written (ap_sender a));
  rw_connecting : ap_phase a ≠ Handshaking -> ap_conn a ≠ Conn.Connecting;
  rw_handshake : ap_phase a = Handshaking ->
    is_data_ready (ap_conn a) = false ∧ (∀ d, CallPump (CmdSend d) ∉ ap_calls a) ∧ ap_requeued a = [];
  rw_order : ap_late a = [] -> ap_flushed_early a = false ->
    match ap_phase a with
    | Handshaking => raw (sn_written (ap_sender a)) = [] ∧ raw (ap_accepted a) = ap_queue a ∧ ap_flush a = None
    | Established => ap_requeued a ++ raw (ap_accepted a) = ap_queue a ++ raw (sn_written (ap_sender a)) ∧ ap_flush a = None
    | Pumping => ap_requeued a ++ raw (ap_accepted a) = raw (sn_written (ap_sender a)) ∧ held_back a = []
    | Over => True
    end;
}.

(** Nothing the invariant reads has changed. *)
Lemma raw_quiet a b :
  raw_inv a -> ap_conn b = ap_conn a -> ap_phase b = ap_phase a -> ap_queue b = ap_queue a -> ap_flush b = ap_flush a ->
  raw (sn_written (ap_sender b)) = raw (sn_written (ap_sender a)) -> raw (ap_accepted b) = raw (ap_accepted a) ->
  ap_requeued b = ap_requeued a -> ap_late b = ap_late a -> ap_flushed_early b = ap_flushed_early a ->
  (ap_phase a = Handshaking -> ∀ d, CallPump (CmdSend d) ∈ ap_calls b -> CallPump (CmdSend d) ∈ ap_calls a) -> raw_inv b.
Proof.
  intros [R1 R2 R3 R4] E1 E2 E3 E4 E5 E6 E7 E8 E9 Hc. split; unfold held_back in *; rewrite ?E1, ?E2, ?E3, ?E4, ?E5, ?E6, ?E7, ?E8, ?E9; auto.
  intros Hp. destruct (R3 Hp) as (? & Hno & ?). split_and!; [done| |done]. intros d Hd%Hc; [|done]. by eapply Hno.
Qed.

Lemma call_raw a cmd : api_inv a -> CallPump cmd ∈ ap_calls a -> raw (writes_of cmd) = [] ∨ ∃ d, cmd = CmdSend d.
Proof.
  intros Hi Hin. destruct (iv_calls _ Hi _ Hin) as [?|(id & Hid & Hh)]; [by right|left]. destruct (iv_handles _ Hi _ _ Hh) as (_ & _ & ?).
  destruct cmd; cbn in *; simplify_eq; try done. unfold raw. cbn. rewrite decide_False by lia. done.
Qed.

Lemma raw_pushed a c1 cmd c2 :
  api_inv a -> raw_inv a -> ap_calls a = c1 ++ CallPump cmd :: c2 ->
  raw_inv (with_sender (with_calls a (c1 ++ c2) (writes_of cmd)) (issue cmd (sn_cmds (ap_sender a) ++ [cmd]) (ap_sender a))).
Proof.
  intros Hi Hr Hc. assert (Hin : CallPump cmd ∈ ap_calls a) by (rewrite Hc; set_solver).
  destruct (call_raw _ _ Hi Hin) as [E|[d ->]].
  { eapply raw_quiet; [exact Hr|try done..]; [cbn; by rewrite raw_app, E, app_nil_r..|]. intros _ d. by apply inv_calls_subset with (c := CallPump cmd). }
  destruct Hr as [R1 R2 R3 R4]. assert (Hp : ap_phase a ≠ Handshaking) by (intros Hp; destruct (R3 Hp) as (_ & Hno & _); by apply (Hno d)).
  split; unfold held_back in *; cbn -[writes_of]; rewrite ?raw_app; auto.
  - intros Ho. rewrite (assoc_L (++)), R1, <- !(assoc_L (++)) by done. done.
  - done.
  - intros H1 H2. specialize (R4 H1 H2). destruct (ap_phase a); try done; destruct R4 as [R4 ?]; rewrite !(assoc_L (++)), R4; auto.
Qed.

Lemma raw_flush_one a data rest :
  raw_inv a -> ap_flush a = Some (data :: rest) ->
  raw_inv (with_flush (with_sender a (issue (CmdSend data) (sn_cmds (ap_sender a) ++ [CmdSend data]) (ap_sender a))) (Some rest)).
Proof.
  intros [R1 R2 R3 R4] Hf. split; unfold held_back in *; cbn -[writes_of]; auto.
  - intros Ho. rewrite raw_app, R1, Hf by done. cbn. change (raw [_]) with [data]. solve_Permutation.
  - intros H1 H2. specialize (R4 H1 H2). rewrite Hf in R4. destruct (ap_phase a); [by destruct R4 as (_ & _ & ?)|by destruct R4| |done].
    destruct R4 as [_ R4]. by destruct (ap_queue a).
Qed.

Lemma raw_queue_push a c1 data c2 :
  raw_inv a -> ap_calls a = c1 ++ CallQueue data :: c2 -> ap_flush a = None -> raw_inv (queue_push a (c1 ++ c2) data).
Proof.
  intros [R1 R2 R3 R4] Hc Hf. split; unfold held_back in *; cbn; rewrite ?raw_app; auto.
  - intros Ho. rewrite (assoc_L (++)), R1, Hf by done. cbn. change (raw [_]) with [data]. solve_Permutation.
  - intros Hp. destruct (R3 Hp) as (? & Hno & ?). split_and!; [done| |done]. intros d Hd. apply (Hno d). by eapply inv_calls_subset.
  - destruct (conn_is_connecting (ap_conn a)) eqn:Ec; [|by destruct (ap_late a)]. intros H1 H2. specialize (R4 H1 H2).
    assert (ap_phase a = Handshaking) as Hp by (destruct (ap_phase a) eqn:Hp; [done|..]; destruct (ap_conn a) eqn:E; try done; by destruct R2).
    rewrite Hp in *. destruct R4 as (-> & -> & ->). done.
Qed.

Lemma raw_publish a early :
  raw_inv a -> ap_phase a = Handshaking -> (is_Some early -> ap_flush a = None) -> raw_inv (publish_session a early).
Proof.
  intros [R1 R2 R3 R4] Hp He. destruct (R3 Hp) as (Hready & Hno & Hreq). split; unfold held_back in *; cbn; try done.
  - intros _. rewrite <- !(assoc_L (++)). apply Permutation_app_head. rewrite Hreq, Hp in R1. cbn in R1. by rewrite R1, (assoc_L (++)).
  - intros _. by destruct (ap_conn a).
  - intros H1 H2. specialize (R4 H1 H2). rewrite Hp in R4. destruct R4 as (-> & -> & ->). by rewrite app_nil_r.
Qed.

Lemma raw_start a : raw_inv a -> ap_phase a = Established -> ap_flush a = None -> raw_inv (start_pump a).
Proof.
  intros [R1 R2 R3 R4] Hp Hf. split; unfold held_back in *; cbn; try done; rewrite ?raw_app, ?raw_queued, ?Hf; cbn; auto.
  - intros _. rewrite R1, Hf by (by rewrite Hp). cbn. by rewrite app_nil_r.
  - intros _. apply R2. by rewrite Hp.
  - intros H1 H2. specialize (R4 H1 H2). rewrite Hp in R4. by destruct R4 as [-> _].
Qed.
Lemma raw_flush_begin a c1 c2 :
  raw_inv a -> ap_calls a = c1 ++ CallFlush :: c2 -> ap_flush a = None -> raw_inv (begin_flush a (c1 ++ c2)).
Proof.
  intros [R1 R2 R3 R4] Hc Hf. split; unfold held_back in *; cbn; auto.
  - intros Ho. by rewrite R1, Hf, app_nil_r.
  - intros Hp. destruct (R3 Hp) as (? & Hno & ?). split_and!; [done| |done]. intros d Hd. apply (Hno d). by eapply inv_calls_subset.
  - intros H1. destruct (ap_phase a) eqn:Ep; try done. intros H2. destruct (R4 H1 H2) as [? Hq]. split; [done|].
    by destruct (ap_queue a).
Qed.

Lemma raw_flush_over a data rest e :
  raw_inv a -> push_command a (CmdSend data) = Ready (Err e) -> ap_flush a = Some (data :: rest) -> raw_inv (with_flush a None).
Proof.
  intros [R1 R2 R3 R4] He Hf. unfold push_command, push_channel in He.
  destruct (ap_phase a) eqn:Ep; cbn [receives negb] in He; try (by destruct (_ <? _)%nat). by split; cbn; rewrite ?Ep.
Qed.

Lemma raw_flush_done a : raw_inv a -> ap_flush a = Some [] -> raw_inv (with_flush a None).
Proof.
  intros [R1 R2 R3 R4] Hf. split; unfold held_back in *; cbn; rewrite ?Hf in *; auto.
  intros H1 H2. specialize (R4 H1 H2). destruct (ap_phase a); [by destruct R4 as (_ & _ & ?)|by destruct R4|done..].
Qed.

Lemma raw_state a c p :
  raw_inv a -> c ≠ Conn.Connecting -> (p = ap_phase a ∧ (is_data_ready c = true -> p = Pumping)) ∨ p = Over -> raw_inv (with_conn a c p).
Proof.
  intros [R1 R2 R3 R4] Hc [[-> Hr]| ->]; [|by split]. split; cbn; auto. intros Hp. destruct (R3 Hp) as (_ & ? & ?). split_and!; [|done..].
  destruct (is_data_ready c); [|done]. rewrite Hp in Hr. by discriminate Hr.
Qed.

Lemma raw_inv_step a b : any_step a b -> api_inv a -> raw_inv a -> raw_inv b.
Proof.
  intros Hstep Hi Hr. destruct Hstep as [Hstep|[]]; [|eapply raw_quiet; try done; [cbn; by rewrite app_nil_r|set_solver]].
  destruct Hstep as [slot data route Hs|id b cmd Hb Hc _|c1 cmd c2 cmds Hc [_ [_ ->]]%push_command_spec|c1 cmd c2 e Hc _|c1 data c2 Hc Hf|c1 c2 Hc Hf
    |data rest cmds Hf [_ [_ ->]]%push_command_spec|data rest e Hf He|Hf|early Hp He|Hp Hf|y Hp (Hs & HW & _)|c Hne Hd|c Hp Hd|id r Ho Hraw Hk|id Hraw Hk Hd Hh|id b Hb HF];
    [..|eapply raw_quiet; try done; by unfold drop_handle; destruct (if b then _ else _)].
  - eapply raw_quiet; try done; [cbn; by rewrite app_nil_r|]. cbn. intros Hp d [|Hin%list_elem_of_singleton]%elem_of_app; [done|].
    destruct (rw_handshake _ Hr Hp) as [Hn _]. destruct route; cbn in Hin; [|done]. by destruct (ap_conn a).
  - eapply raw_quiet; try done; [cbn; by rewrite app_nil_r|]. cbn. intros _ d [|Hin%list_elem_of_singleton]%elem_of_app; [done|].
    injection Hin as <-. done.
  - by apply raw_pushed.
  - eapply raw_quiet; try done; [cbn; by rewrite app_nil_r|]. intros _ d Hd. by eapply inv_calls_subset.
  - by apply raw_queue_push.
  - by apply raw_flush_begin.
  - by apply raw_flush_one.
  - by eapply raw_flush_over.
  - by apply raw_flush_done.
  - by apply raw_publish.
  - by apply raw_start.
  - eapply raw_quiet; try done. cbn. by rewrite HW.
  - apply raw_state; auto.
  - apply raw_state; auto. by destruct c.
  - by eapply raw_quiet.
  - by eapply raw_quiet.
Qed.

Lemma api_reachable_inv a : api_reachable a -> api_inv a ∧ raw_inv a.
Proof.
  intros (r & c & Hs). remember (api_init r c) as a0 eqn:E0. assert (api_inv a0 ∧ raw_inv a0) as H0.
  { subst. split; split; cbn; try set_solver. apply sender_start. }
  clear E0. induction Hs as [|a1 a2 a3 Hstep _ IH]; [done|]. destruct H0. apply IH. split; [by eapply api_inv_step|by eapply raw_inv_step].
Qed.

(** What was written on a stream, the early data that was queued again first. *)
Definition writes_on (id : Z) (a : Api) : list (list Z) :=
  (filter (λ w, w.1 = id) ((pair RAW_APP_STREAM_ID <$> ap_requeued a) ++ ap_accepted a)).*2.

Lemma carried a id :
  api_inv a -> raw_inv a -> ap_phase a = Pumping -> ap_late a = [] -> ap_flushed_early a = false ->
  (filter (λ w, w.1 = id) (sn_written (ap_sender a))).*2 = writes_on id a.
Proof.
  intros Hi [_ _ _ R4] Hp H1 H2. specialize (R4 H1 H2). rewrite Hp in R4. destruct R4 as [R4 _].
  unfold writes_on. rewrite filter_app, fmap_app. destruct (decide (id = RAW_APP_STREAM_ID)) as [->|Hne].
  - fold (raw (pair RAW_APP_STREAM_ID <$> ap_requeued a)). rewrite raw_queued. exact (eq_sym R4).
  - rewrite filter_raw_none by done. by rewrite (iv_streams _ Hi id Hne).
Qed.

(** ** Runs *)

Inductive api_act :=
| DoSend (data : list Z) | DoWrite (id : Z) (data : list Z) | DoFlush | DoNext
| DoOpen | DoDrop (id : Z) | DoPublish (early : option (list Z)) | DoStart
| DoPumpFlush | DoPumpTake | DoPumpReport | DoPumpRelease.

(** What is first in line: the call in front, or the next message of a [flush_queue]. *)
Definition next_step (a : Api) : Api :=
  match ap_flush a with
  | Some [] => with_flush a None
  | Some (data :: rest) =>
    match push_command a (CmdSend data) with
    | Ready (Ok cmds) => with_flush (with_sender a (issue (CmdSend data) cmds (ap_sender a))) (Some rest)
    | _ => a
    end
  | None =>
    match ap_calls a with
    | CallPump cmd :: calls =>
      match push_command a cmd with
      | Ready (Ok cmds) => with_sender (with_calls a calls (writes_of cmd)) (issue cmd cmds (ap_sender a))
      | _ => a
      end
    | CallQueue data :: calls => queue_push a calls data
    | CallFlush :: calls => begin_flush a calls
    | [] => a
    end
  end.

Definition pump_exec (a : Api) (act : sender_act) : Api :=
  match ap_phase a with Pumping => with_sender a (sender_exec (ap_sender a) act) | _ => a end.

Definition api_exec (a : Api) (act : api_act) : Api :=
  match act with
  | DoSend data =>
    match send_route (ap_conn a) None with Ok route => with_calls a (ap_calls a ++ [send_call route data]) [] | Err _ => a end
  | DoWrite id data =>
    match ap_handles a !! id, refuse_while_draining (ap_conn a) with
    | Some _, Ok _ => with_handles (with_calls a (ap_calls a ++ [CallPump (CmdSendReliable id data)]) []) (<[id := true]> (ap_handles a))
    | _, _ => a
    end
  | DoFlush => match refuse_while_draining (ap_conn a) with Ok _ => with_calls a (ap_calls a ++ [CallFlush]) [] | Err _ => a end
  | DoNext => next_step a
  | DoOpen =>
    match open_local_stream (ss_pump (sn_state (ap_sender a))) with
    | (Ok id, r) =>
      if decide (RAW_APP_STREAM_ID < id ∧ (id ∉ sn_known (ap_sender a)))
      then with_handles (with_sender a (opened_sender id r (ap_sender a))) (<[id := false]> (ap_handles a)) else a
    | _ => a
    end
  | DoDrop id =>
    match ap_handles a !! id, ap_calls a with
    | Some b, [] => with_handles (with_sender a (drop_handle id b (ap_sender a))) (delete id (ap_handles a))
    | _, _ => a
    end
  | DoPublish early =>
    match ap_phase a, early, ap_flush a with
    | Handshaking, None, _ | Handshaking, Some _, None => publish_session a early
    | _, _, _ => a
    end
  | DoStart => match ap_phase a, ap_flush a with Established, None => start_pump a | _, _ => a end
  | DoPumpFlush => pump_exec a ActFlush
  | DoPumpTake => pump_exec a ActTake
  | DoPumpReport => pump_exec a ActReport
  | DoPumpRelease => pump_exec a ActRelease
  end.

(** The pump's own steps, run. *)
Lemma sender_exec_pump x act : act ∈ [ActFlush; ActTake; ActReport; ActRelease] -> sender_exec x act = x ∨ pump_side x (sender_exec x act).
Proof.
  intros Hin. destruct x as [st C D P L n log W K X CL], act; try set_solver; cbn.
  - destruct C as [|cmd C], D as [|d D]; auto. destruct (take_command _ _ _ _) as [[[[] D'] out] st'] eqn:E; [by left|]. right.
    split; [by eapply sn_take|done].
  - destruct P as [|id P]; auto. right. split; [apply sn_report|done].
  - destruct (release_due_streams _ _ _ _ _) as [[[L' D'] out] st'] eqn:E. right. split; [by eapply sn_release|done].
  - destruct (flush_deferred_sends _ _ _) as [[D' out] st'] eqn:E. right. split; [by eapply sn_flush|done].
Qed.

Lemma next_step_ok a : rtc any_step a (next_step a).
Proof.
  unfold next_step. destruct (ap_flush a) as [[|data rest]|] eqn:Hf.
  - apply rtc_once. left. by apply as_flush_done.
  - destruct (push_command _ _) as [|[cmds|e]] eqn:Hp; try done. apply rtc_once. left. by eapply as_flush_one.
  - destruct (ap_calls a) as [|[cmd|data|] calls] eqn:Hc; [done|..].
    + destruct (push_command _ _) as [|[cmds|e]] eqn:Hp; try done. apply rtc_once. left. by apply (as_pushed a []).
    + apply rtc_once. left. by apply (as_queued a []).
    + apply rtc_once. left. by apply (as_flush_begin a []).
Qed.

Lemma pump_exec_ok a act : act ∈ [ActFlush; ActTake; ActReport; ActRelease] -> rtc any_step a (pump_exec a act).
Proof.
  intros Hb. unfold pump_exec. destruct (ap_phase a) eqn:Hp; try done.
  destruct (sender_exec_pump (ap_sender a) act Hb) as [->|Hs]; [by destruct a|]. apply rtc_once. left. by apply as_pump.
Qed.

Lemma api_exec_ok a act : rtc any_step a (api_exec a act).
Proof.
  destruct act; cbn [api_exec]; try (apply pump_exec_ok; set_solver).
  - destruct (send_route _ _) as [route|e] eqn:E; [|done]. apply rtc_once. left. by eapply as_send.
  - destruct (ap_handles a !! id) eqn:Hh; [|done]. destruct (refuse_while_draining _) as [[]|] eqn:E; [|done].
    apply rtc_once. left. by eapply as_command.
  - destruct (refuse_while_draining _) as [[]|] eqn:E; [|done]. apply rtc_once. by right.
  - apply next_step_ok.
  - destruct (open_local_stream _) as [[id|e] r] eqn:E; [|done]. case_decide as Hd; [|done]. destruct Hd. apply rtc_once. left. by apply as_open.
  - destruct (ap_handles a !! id) eqn:Hh; [|done]. destruct (ap_calls a) eqn:Hc; [|done]. apply rtc_once. left. apply as_drop; [done|by rewrite Hc].
  - destruct (ap_phase a) eqn:Hp; try done. destruct early as [ed|]; [destruct (ap_flush a) eqn:Hf; [done|]|]; apply rtc_once; left; apply as_publish; try done.
  - destruct (ap_phase a) eqn:Hp; try done. destruct (ap_flush a) eqn:Hf; [done|]. apply rtc_once. left. by apply as_start.
Qed.

Lemma api_run_ok acts : ∀ a, rtc any_step a (foldl api_exec a acts).
Proof. induction acts as [|act acts IH]; intros a; [done|]. cbn. etrans; [apply api_exec_ok|apply IH]. Qed.

(** ** Two states a session does not leave *)

(** A write queued behind the pump's back, no [flush_queue] under way. *)
Definition stranded (data : list Z) (a : Api) : Prop :=
  (ap_phase a = Pumping ∨ ap_phase a = Over) ∧ data ∈ ap_queue a ∧ ap_flush a = None ∧ (CallFlush ∉ ap_calls a).

Lemma stranded_step data a b : api_step a b -> stranded data a -> stranded data b.
Proof.
  intros Hs (Hp & Hd & Hf & Hc). unfold stranded. destruct Hs; cbn; rewrite ?Hf in *; try done;
    try (destruct Hp; congruence); try (split_and!; by auto);
    try (match goal with E : ap_calls a = _ ++ CallFlush :: _ |- _ => rewrite E in Hc; set_solver end);
    (split_and!; [by auto|set_solver|done|]);
    try (match goal with E : ap_calls a = _ |- _ => rewrite E in Hc end; set_solver).
  - destruct route; set_solver.
  - set_solver.
Qed.

Lemma stranded_run data a b : rtc api_step a b -> stranded data a -> data ∈ ap_queue b.
Proof. induction 1 as [x|x y z Hxy _ IH]; intros Hx; [by destruct Hx as (_ & ? & _)|]. apply IH. by eapply stranded_step. Qed.

(** A [flush_queue] that holds the queue and waits for room in a channel no one reads. *)
Definition stuck (a : Api) : Prop :=
  ap_phase a = Established ∧ (∃ data rest, ap_flush a = Some (data :: rest)) ∧ (COMMAND_CHANNEL_DEPTH <= length (sn_cmds (ap_sender a)))%nat.

Lemma stuck_step a b : any_step a b -> stuck a -> stuck b ∧ ap_flush b = ap_flush a.
Proof.
  intros Hs (Hp & (data & rest & Hf) & Hl).
  assert (Hfull : ∀ cmd r, push_command a cmd ≠ Ready r).
  { intros cmd r. unfold push_command, push_channel. rewrite Hp. cbn [receives negb].
    destruct (Nat.ltb_spec (length (sn_cmds (ap_sender a))) COMMAND_CHANNEL_DEPTH); [lia|done]. }
  destruct Hs as [Hs|[]]; [|unfold stuck; cbn; eauto 10]. destruct Hs; try (by destruct (Hfull _ _ ltac:(eassumption))); try congruence;
    try (unfold stuck; cbn; by eauto 10).
  - exfalso. intuition congruence.
  - unfold stuck, drop_handle. destruct (if b then _ else _). cbn. eauto 10.
Qed.

Lemma stuck_run a b : rtc any_step a b -> api_reachable a -> stuck a ->
  ap_phase b = Established ∧ sn_log (ap_sender b) = [] ∧ ap_flush b = ap_flush a.
Proof.
  intros Hs (r & c & Ha) Hx. assert (Hb : api_reachable b) by (exists r, c; by etrans).
  assert (stuck b ∧ ap_flush b = ap_flush a) as [(Hp & _) ?].
  { clear Ha Hb. induction Hs as [|x y z Hxy _ IH]; [done|]. destruct (stuck_step _ _ Hxy Hx) as [Hy <-]. auto. }
  apply api_reachable_inv in Hb as [Hi _]. split_and!; [done| |done]. by destruct (iv_idle _ Hi (or_intror Hp)).
Qed.

End System.

(** ** Properties *)

(** C17: However the calls of the application, the handshake and the pump interleave: when no
    write was queued after the session stopped connecting and no [flush_queue] began
    before the pump ran, what has entered the send buffer of a stream that no call closed
    is a prefix of what the application was told [Ok] for on it, in order, the rejected
    early data first on the raw stream; and a FIN that has entered is behind all of it,
    on a stream whose handle is gone. *)
Theorem accepted_writes_in_order `{Primitives} {ch : Mpsc} (a : Api) (id : Z) :
  api_reachable a -> ap_phase a = Pumping -> ap_late a = [] -> ap_flushed_early a = false ->
  id ∉ sn_closed (ap_sender a) -> len (sn_log (ap_sender a)) < u_max 32 ->
  let buffered := admits_for id (sn_log (ap_sender a)) in
  concat (datas buffered) `prefix_of` concat (writes_on id a) ∧
  ∀ d, (d, true) ∈ buffered -> ap_handles a !! id = None ∧ concat (datas buffered) = concat (writes_on id a).
Proof.
  intros [Hi Hr]%api_reachable_inv Hp H1 H2 Hcl Hb. cbv zeta. rewrite <- (carried a id) by done.
  destruct (reachable_inv id _ (iv_reach _ Hi) Hcl Hb) as [Hl Hs _ _ _ _ _ _]. rewrite <- wdata_bytes, <- Hl. split.
  - rewrite concat_app. by apply prefix_app_r.
  - intros d Hd. destruct Hs as [(_ & _ & HF)|[(_ & HX & Hrest)|(_ & _ & He & _)]].
    + rewrite Forall_forall in HF. by apply HF in Hd.
    + rewrite Hrest, app_nil_r. split; [|done]. destruct (ap_handles a !! id) eqn:E; [|done].
      by destruct (iv_handles _ Hi _ _ E) as (_ & ? & _).
    + rewrite He in Hd. by apply not_elem_of_nil in Hd.
Qed.

(** Nothing the application was told [Ok] for is lost on the way to the pump while the task
    lives: whatever the interleaving, it is in the queue, in the hands of a [flush_queue],
    or among what the pump was given. *)
Theorem accepted_writes_are_kept `{Primitives} {ch : Mpsc} (a : Api) :
  api_reachable a -> ap_phase a ≠ Over ->
  ap_requeued a ++ raw (ap_accepted a) ≡ₚ held_back a ++ raw (sn_written (ap_sender a)).
Proof. intros [_ Hr]%api_reachable_inv Hp. by apply rw_kept. Qed.

#[local] Existing Instance list_chan.

Definition toy_api : Api := api_init toy_client (mk_cong (est_new 0) (unlimited 0)).

Definition toy_run (acts : list api_act) : Api := foldl (api_exec (H := toy_primitives)) toy_api acts.

Lemma toy_run_reachable acts : api_reachable (H := toy_primitives) (toy_run acts).
Proof. eexists _, _. apply api_run_ok. Qed.

(** A stream opened and written on, and a write queued, before the handshake is done;
    the handle dropped, the pump started behind rejected early data. *)
Definition toy_session : Api :=
  toy_run [DoOpen; DoWrite 3 [5; 6]; DoNext; DoSend [1]; DoNext; DoDrop 3; DoPublish (Some [9]); DoStart; DoPumpFlush;
    DoSend [2]; DoNext; DoPumpReport; DoPumpTake; DoPumpTake; DoPumpRelease].

Lemma accepted_writes_in_order_witness :
  concat (datas (admits_for 1 (sn_log (ap_sender toy_session)))) = [9; 1; 2] ∧
  admits_for 3 (sn_log (ap_sender toy_session)) = [([5; 6], false); ([], true)] ∧
  concat (datas (admits_for 3 (sn_log (ap_sender toy_session)))) = concat (writes_on 3 toy_session).
Proof.
  split_and!; [vm_compute; reflexivity..|].
  destruct (accepted_writes_in_order (H := toy_primitives) toy_session 3) as [_ Hfin];
    [apply toy_run_reachable|vm_compute; reflexivity..|vm_compute; intros Hx; inversion Hx|vm_compute; reflexivity|].
  apply (Hfin []).
  replace (admits_for 3 (sn_log (ap_sender toy_session))) with [([5; 6], false); ([] : list Z, true)] by (vm_compute; reflexivity).
  right. left.
Defined.

Lemma accepted_writes_are_kept_witness :
  ap_phase toy_session ≠ Over ∧ raw (sn_written (ap_sender toy_session)) ≡ₚ [[9]; [1]; [2]].
Proof.
  assert (Hp : ap_phase toy_session ≠ Over) by (vm_compute; discriminate). split; [done|].
  pose proof (accepted_writes_are_kept (H := toy_primitives) toy_session (toy_run_reachable _) Hp) as Hk.
  replace (ap_requeued toy_session ++ raw (ap_accepted toy_session)) with [[9]; [1]; [2]] in Hk by (vm_compute; reflexivity).
  replace (held_back toy_session) with (@nil (list Z)) in Hk by (vm_compute; reflexivity).
  rewrite app_nil_l in Hk. symmetry. exact Hk.
Defined.

(** C19: A [send] that reads [Connecting] just before the handshake completes queues its data
    after the pump has taken the queue.  It is answered [Ok], and the data stays where it
    is for the rest of the session unless the application calls [flush_queue]. *)
Theorem handshake_race_strands_write :
  let a := toy_run [DoSend [7]; DoPublish None; DoStart; DoNext] in
  ap_conn a = Conn.Connected ∧ ap_phase a = Pumping ∧ ap_accepted a = [(1, [7])] ∧ ap_calls a = [] ∧
  sn_cmds (ap_sender a) = [] ∧ sn_deferred (ap_sender a) = [] ∧ sn_log (ap_sender a) = [] ∧
  ∀ b, rtc (api_step (H := toy_primitives)) a b -> [7] ∈ ap_queue b.
Proof.
  cbv zeta. split_and!; [vm_compute; reflexivity..|]. intros b Hs.
  apply (stranded_run _ _ _ Hs). split_and!; [left; vm_compute; reflexivity|vm_compute; left|vm_compute; reflexivity|vm_compute; intros Hx; inversion Hx].
Qed.

(** A [flush_queue] before the pump has taken the queue turns the order of writes around:
    what it hands over waits in the channel while later writes go ahead from the queue. *)
Theorem early_flush_reorders_writes :
  let a := toy_run [DoSend [1]; DoNext; DoFlush; DoNext; DoNext; DoNext; DoSend [2]; DoNext; DoPublish None; DoStart; DoPumpFlush; DoPumpTake] in
  ap_accepted a = [(1, [1]); (1, [2])] ∧ ap_late a = [] ∧ datas (admits_for 1 (sn_log (ap_sender a))) = [[2]; [1]].
Proof. vm_compute. done. Qed.

Definition toy_flush : list api_act :=
  concat (replicate 257 [DoSend [0]; DoNext]) ++ [DoFlush] ++ replicate 257 DoNext.

(** C18: With 257 writes queued, a [flush_queue] called while connecting fills the command
    channel and waits for room with the queue locked.  The handshake then completes and the
    session is published as connected, but the pump waits for the same lock before it
    reads the channel: as long as the call is awaited, the session carries nothing. *)
Theorem early_flush_holds_session_forever :
  let a := toy_run (toy_flush ++ [DoPublish None]) in
  ap_conn a = Conn.Connected ∧ length (ap_accepted a) = 257%nat ∧
  ∀ b, rtc (any_step (H := toy_primitives)) a b -> ap_phase b = Established ∧ sn_log (ap_sender b) = [] ∧ ap_flush b = Some [[0]].
Proof.
  cbv zeta. split_and!; [vm_compute; reflexivity..|]. intros b Hs.
  replace (Some [[0]]) with (ap_flush (toy_run (toy_flush ++ [DoPublish None]))) by (vm_compute; reflexivity).
  apply (stuck_run _ _ Hs); [apply toy_run_reachable|].
  split_and!; [vm_compute; reflexivity|eexists _, _; vm_compute; reflexivity|apply Nat.leb_le; vm_compute; reflexivity].
Qed.

(** *** The answers *)

Lemma from_to_u8 c : from_u8 (to_u8 c) = c.
Proof. by destruct c. Qed.

(** Every call gives the same account of a session that is over: [send], [recv] once what
    was delivered has been read, and [await_ready] answer with the recorded cause, and with
    a close when there is none and nothing failed.  A draining session refuses [send] and
    [await_ready] with a close, whatever is recorded, and goes on reading. *)
Theorem calls_agree_on_the_end (c : Conn.ConnectionState) (slot : option CoreError) (ready : Conn.ConnectionState) (open : bool) :
  ready ≠ Conn.Connecting ->
  (Conn.ended c = true ->
    let e := terminal_answer c slot in
    send_route c slot = Err e ∧ session_recv c slot [] false = Ready (Err e, []) ∧ await_ready ready open c slot = Ready (Err e) ∧
    (slot = None -> c = Conn.Closed -> e = ConnectionClosed)) ∧
  (c = Conn.Draining -> send_route c slot = Err ConnectionClosed ∧ await_ready ready open c slot = Ready (Err ConnectionClosed) ∧
    ∀ b rx, session_recv c slot (b :: rx) open = Ready (Ok b, rx)) ∧
  (is_data_ready c = true -> send_route c slot = Ok ToPump ∧ await_ready ready open c slot = Ready (Ok tt)).
Proof. intros Hr. split_and!; intros Hc; destruct c; try done; cbv zeta; destruct ready; try done; (split_and!; try done; by intros ->). Qed.

Lemma calls_agree_on_the_end_witness :
  send_route Conn.Dead (Some Errors.Timeout) = Err Errors.Timeout ∧ await_ready Conn.Connected false Conn.Dead (Some Errors.Timeout) = Ready (Err Errors.Timeout).
Proof.
  destruct (calls_agree_on_the_end Conn.Dead (Some Errors.Timeout) Conn.Connected false ltac:(discriminate)) as [He _].
  destruct (He eq_refl) as (-> & _ & -> & _). split; reflexivity.
Defined.

(** [recv] called again and again. *)
Fixpoint recv_all (fuel : nat) (h : PhantomStream) : list (result (option (list Z)) CoreError) :=
  match fuel with
  | O => []
  | S fuel' => match stream_recv h with (Ready r, h') => r :: recv_all fuel' h' | (Pending, _) => [] end
  end.

Definition message_data (m : StreamMessage) : option (list Z) := match m with MsgData b => Some b | _ => None end.

(** A reader gets everything the route took, in order, and then the truth about the end:
    an end of stream when the peer closed, an error when the route was dropped without
    one, and nothing while more may come. *)
Theorem stream_reads_to_the_end (id : Z) (b routed : bool) (ms : list StreamMessage) :
  Forall (λ m, m ≠ MsgClose) ms ->
  let data := Ok ∘ Some <$> omap message_data ms in
  let read tail r := recv_all (S (length data)) (mk_phantom_stream id b (ms ++ tail) r) in
  read [MsgClose] routed = data ++ [Ok None] ∧ read [] false = data ++ [Err ConnectionClosed] ∧ read [] true = data.
Proof.
  cbv zeta. rewrite length_fmap. induction 1 as [|m ms Hm _ IH]; [done|].
  destruct m as [d|seq|]; [|exact IH|done]. destruct IH as (IH1 & IH2 & IH3).
  cbn [omap list_omap message_data length fmap list_fmap app]. split_and!; cbn; f_equal; [exact IH1|exact IH2|exact IH3].
Qed.

Lemma stream_reads_to_the_end_witness :
  recv_all 3 (mk_phantom_stream 3 false [MsgData [1]; MsgAck 4; MsgData [2]; MsgClose] true) = [Ok (Some [1]); Ok (Some [2]); Ok None].
Proof.
  apply (stream_reads_to_the_end 3 false true [MsgData [1]; MsgAck 4; MsgData [2]]). repeat constructor; discriminate.
Defined.
