(* ===== verification/Listener.v ===== *)
(** * Accepting connections ([core/src/api/listener.rs])

    [PhantomListener]: the task that takes connections off the socket, the handshake
    tasks it starts under a bounded number of permits, the queue of finished sessions,
    and the calls [accept] and [shutdown] of the application.  [PhantomUdpListener] has
    the same [accept] and [shutdown].

    The tasks and the calls interleave; a step is what one of them does between two
    awaits.  How a handshake ends is its own business (Connect.v): here it succeeds, or
    fails or runs out of time.  A connection is a number.  The sweep of reputations on
    every 256th connection touches nothing modelled here. *)

From Stdlib Require Import ZArith Lia.
From stdpp Require Import base option list relations.
From S2P Require Import Prelude.

Definition MAX_INFLIGHT_HANDSHAKES : nat := 256.

(** The acceptor task: not started; at the top of its loop; awaiting a connection;
    holding one and awaiting a permit; gone. *)
Inductive Acceptor := NotSpawned | LoopTop | AwaitConnection | AwaitPermit (conn : nat) | Stopped.

(** A handshake task, and one that is done and awaits room in the queue. *)
Inductive Task := Shaking (conn : nat) | Finished (conn : nat).

Definition task_conn (t : Task) : nat := match t with Shaking c | Finished c => c end.

(** [ls_checked], [ls_waiting], [ls_holder] are the calls of [accept] that have passed the
    check of the flag, that await the receiver's lock, and that hold it; the last with
    whether its [Notified] has fired.

    The rest is history: connections taken off the socket, those that came to nothing,
    the sessions handed out and to whom, and the calls answered [ConnectionClosed]. *)
Record Listener := mk_listener {
  ls_shutting : bool;
  ls_acceptor : Acceptor;
  ls_free : nat;
  ls_tasks : list Task;
  ls_queue : list nat;
  ls_checked : list nat;
  ls_waiting : list nat;
  ls_holder : option (nat * bool);
  ls_taken : nat;
  ls_lost : list nat;
  ls_returned : list (nat * nat);
  ls_refused : list nat;
}.

Definition listener_init : Listener :=
  mk_listener false NotSpawned MAX_INFLIGHT_HANDSHAKES [] [] [] [] None 0 [] [] [].

Definition with_acceptor (s : Listener) (a : Acceptor) (taken : nat) (lost : list nat) : Listener :=
  mk_listener (ls_shutting s) a (ls_free s) (ls_tasks s) (ls_queue s) (ls_checked s) (ls_waiting s) (ls_holder s)
    taken lost (ls_returned s) (ls_refused s).
Definition with_tasks (s : Listener) (free : nat) (tasks : list Task) (queue lost : list nat) : Listener :=
  mk_listener (ls_shutting s) (ls_acceptor s) free tasks queue (ls_checked s) (ls_waiting s) (ls_holder s)
    (ls_taken s) lost (ls_returned s) (ls_refused s).
Definition with_callers (s : Listener) (checked waiting : list nat) (holder : option (nat * bool)) (refused : list nat) : Listener :=
  mk_listener (ls_shutting s) (ls_acceptor s) (ls_free s) (ls_tasks s) (ls_queue s) checked waiting holder
    (ls_taken s) (ls_lost s) (ls_returned s) refused.

(** [accept] up to the check of the flag. *)
Definition accept_check (s : Listener) (call : nat) : Listener :=
  if ls_shutting s then with_callers s (ls_checked s) (ls_waiting s) (ls_holder s) (ls_refused s ++ [call])
  else with_callers s (ls_checked s ++ [call]) (ls_waiting s) (ls_holder s) (ls_refused s).

Definition ensure_acceptor (a : Acceptor) : Acceptor := match a with NotSpawned => LoopTop | _ => a end.

(** It goes on to [ensure_acceptor], and joins the line for the lock. *)
Definition accept_enqueue (s : Listener) (c1 : list nat) (call : nat) (c2 : list nat) : Listener :=
  with_callers (with_acceptor s (ensure_acceptor (ls_acceptor s)) (ls_taken s) (ls_lost s))
    (c1 ++ c2) (ls_waiting s ++ [call]) (ls_holder s) (ls_refused s).

(** The [select!] of [accept], the shutdown first; [None] while it waits. *)
Definition accept_poll (s : Listener) (call : nat) (notified : bool) : option Listener :=
  if notified then Some (with_callers s (ls_checked s) (ls_waiting s) None (ls_refused s ++ [call]))
  else match ls_queue s with
  | [] => None
  | conn :: rest =>
    Some (mk_listener (ls_shutting s) (ls_acceptor s) (ls_free s) (ls_tasks s) rest (ls_checked s) (ls_waiting s) None
      (ls_taken s) (ls_lost s) (ls_returned s ++ [(call, conn)]) (ls_refused s))
  end.

(** [shutdown]: the flag, the calls that wait on the [Notify], the acceptor aborted with
    the connection it may hold. *)
Definition shutdown (s : Listener) : Listener :=
  mk_listener true (match ls_acceptor s with NotSpawned => NotSpawned | _ => Stopped end) (ls_free s) (ls_tasks s) (ls_queue s)
    (ls_checked s) (ls_waiting s) ((λ h, (h.1, true)) <$> ls_holder s) (ls_taken s)
    (match ls_acceptor s with AwaitPermit conn => ls_lost s ++ [conn] | _ => ls_lost s end) (ls_returned s) (ls_refused s).

(** A turn of [run_acceptor] up to its next await: [arrives] when the socket has a
    connection, [false] for an error of [accept]. *)
Definition acceptor_turn (s : Listener) (arrives : bool) : option Listener :=
  match ls_acceptor s with
  | LoopTop => Some (with_acceptor s (if ls_shutting s then Stopped else AwaitConnection) (ls_taken s) (ls_lost s))
  | AwaitConnection =>
    if arrives then Some (with_acceptor s (AwaitPermit (ls_taken s)) (S (ls_taken s)) (ls_lost s))
    else Some (with_acceptor s LoopTop (ls_taken s) (ls_lost s))
  | AwaitPermit conn =>
    match ls_free s with
    | O => None
    | S free =>
      Some (with_acceptor (with_tasks s free (ls_tasks s ++ [Shaking conn]) (ls_queue s) (ls_lost s)) LoopTop (ls_taken s) (ls_lost s))
    end
  | NotSpawned | Stopped => None
  end.

(** A turn of [serve_connection]: the handshake ends, well or not; the outcome is sent
    when there is room, and with the task its permit goes. *)
Definition task_turn (s : Listener) (t1 : list Task) (t : Task) (t2 : list Task) (succeeds : bool) : option Listener :=
  match t with
  | Shaking conn =>
    if succeeds then Some (with_tasks s (ls_free s) (t1 ++ Finished conn :: t2) (ls_queue s) (ls_lost s))
    else Some (with_tasks s (S (ls_free s)) (t1 ++ t2) (ls_queue s) (ls_lost s ++ [conn]))
  | Finished conn =>
    if (length (ls_queue s) <? MAX_INFLIGHT_HANDSHAKES)%nat
    then Some (with_tasks s (S (ls_free s)) (t1 ++ t2) (ls_queue s ++ [conn]) (ls_lost s)) else None
  end.

(** Every step but a [shutdown]. *)
Inductive serve_step (s : Listener) : Listener -> Prop :=
| sv_call call : serve_step s (accept_check s call)
| sv_enqueue c1 call c2 : ls_checked s = c1 ++ call :: c2 -> serve_step s (accept_enqueue s c1 call c2)
| sv_lock call rest :
    ls_waiting s = call :: rest -> ls_holder s = None ->
    serve_step s (with_callers s (ls_checked s) rest (Some (call, false)) (ls_refused s))
| sv_poll call notified s' : ls_holder s = Some (call, notified) -> accept_poll s call notified = Some s' -> serve_step s s'
| sv_acceptor arrives s' : acceptor_turn s arrives = Some s' -> serve_step s s'
| sv_task t1 t t2 succeeds s' : ls_tasks s = t1 ++ t :: t2 -> task_turn s t1 t t2 succeeds = Some s' -> serve_step s s'.

Definition listener_step (s s' : Listener) : Prop := serve_step s s' ∨ s' = shutdown s.

Definition listener_reachable (s : Listener) : Prop := rtc listener_step listener_init s.

(** ** The invariant *)

Definition held_by_acceptor (a : Acceptor) : list nat := match a with AwaitPermit conn => [conn] | _ => [] end.

(** Where the connections are: at the acceptor, in a task, finished and queued, with the
    application, or come to nothing. *)
Definition all_connections (s : Listener) : list nat :=
  held_by_acceptor (ls_acceptor s) ++ (task_conn <$> ls_tasks s) ++ ls_queue s ++ (ls_returned s).*2 ++ ls_lost s.

Record listener_inv (s : Listener) : Prop := {
  li_permits : (ls_free s + length (ls_tasks s) = MAX_INFLIGHT_HANDSHAKES)%nat;
  li_queue : (length (ls_queue s) <= MAX_INFLIGHT_HANDSHAKES)%nat;
  li_once : all_connections s ≡ₚ seq 0 (ls_taken s);
}.

Lemma serve_inv s s' : serve_step s s' -> listener_inv s -> listener_inv s'.
Proof.
  intros Hs [H1 H2 H3]. unfold all_connections in *. destruct Hs as [call|c1 call c2 Hc|call rest Hw Hh|call n s' Hh Hp|arr s' Ha|t1 t t2 ok s' Ht Hp].
  - unfold accept_check. by destruct (ls_shutting s).
  - split; [done..|]. unfold all_connections. cbn. by destruct (ls_acceptor s).
  - by split.
  - unfold accept_poll in Hp. destruct n; [by injection Hp as <-|]. destruct (ls_queue s) as [|conn q] eqn:Eq; [done|]. injection Hp as <-.
    split; [done|cbn in *; lia|]. unfold all_connections. cbn. rewrite <- H3, fmap_app. cbn. solve_Permutation.
  - unfold acceptor_turn in Ha. destruct (ls_acceptor s) eqn:Ea; try done.
    + injection Ha as <-. split; [done..|]. unfold all_connections. cbn. by destruct (ls_shutting s).
    + destruct arr; injection Ha as <-; (split; [done..|]; unfold all_connections; cbn -[seq]); [|done].
      rewrite seq_S. cbn -[seq] in *. rewrite <- H3. solve_Permutation.
    + destruct (ls_free s) as [|free] eqn:Ef; [done|]. injection Ha as <-. split; [cbn; rewrite length_app; cbn; lia|done|].
      unfold all_connections. cbn. rewrite <- H3, fmap_app. cbn. solve_Permutation.
  - rewrite Ht, fmap_app in H3. rewrite Ht, length_app in H1. cbn in H1, H3. destruct t as [conn|conn]; cbn [task_turn] in Hp.
    + destruct ok; injection Hp as <-; (split; [cbn; rewrite ?length_app; cbn; lia|done|]); unfold all_connections; cbn;
        rewrite fmap_app, <- H3; cbn; solve_Permutation.
    + destruct (Nat.ltb_spec (length (ls_queue s)) MAX_INFLIGHT_HANDSHAKES); [|done]. injection Hp as <-.
      split; [cbn; rewrite length_app; lia|cbn; rewrite length_app; cbn; lia|]. unfold all_connections. cbn.
      rewrite fmap_app, <- H3. cbn. solve_Permutation.
Qed.

Lemma listener_inv_step s s' : listener_step s s' -> listener_inv s -> listener_inv s'.
Proof.
  intros [Hs| ->]; [by apply serve_inv|]. intros [H1 H2 H3]. split; [done..|]. unfold all_connections in *. cbn -[seq].
  rewrite <- H3. destruct (ls_acceptor s); cbn; solve_Permutation.
Qed.

Lemma listener_reachable_inv s : listener_reachable s -> listener_inv s.
Proof.
  unfold listener_reachable. assert (H0 : listener_inv listener_init) by (split; [done|cbn; lia|done]). revert H0. generalize listener_init.
  induction 2 as [|x y z Hxy _ IH]; eauto using listener_inv_step.
Qed.

(** ** Shutting down *)

(** No connection is taken any more: the flag is up, and no task is past the check. *)
Definition closed_down (s : Listener) : Prop :=
  ls_shutting s = true ∧ match ls_acceptor s with AwaitConnection | AwaitPermit _ => False | _ => True end.

Lemma closed_down_step s s' : listener_step s s' -> closed_down s ->
  closed_down s' ∧ ls_taken s' = ls_taken s ∧ task_conn <$> ls_tasks s' ⊆ task_conn <$> ls_tasks s.
Proof.
  intros [Hs| ->] (Hf & Ha); [|unfold closed_down; cbn; by destruct (ls_acceptor s)].
  destruct Hs as [call|c1 call c2 Hc|call rest Hw Hh|call n s' Hh Hp|arr s' Hp|t1 t t2 ok s' Ht Hp].
  - unfold accept_check. by rewrite Hf.
  - unfold closed_down. cbn. by destruct (ls_acceptor s).
  - done.
  - unfold accept_poll in Hp. destruct n; [by injection Hp as <-|]. destruct (ls_queue s); [done|]. by injection Hp as <-.
  - unfold acceptor_turn in Hp. rewrite Hf in Hp. destruct (ls_acceptor s) eqn:E; try done. by injection Hp as <-.
  - unfold closed_down. destruct t as [conn|conn]; cbn [task_turn] in Hp.
    + destruct ok; injection Hp as <-; cbn; rewrite Ht, !fmap_app; set_solver.
    + destruct (_ <? _)%nat; [|done]. injection Hp as <-. cbn. rewrite Ht, !fmap_app. set_solver.
Qed.

(** A call that got the lock after the [Notify] had fired, with nothing left to hand out. *)
Definition left_waiting (call : nat) (s : Listener) : Prop :=
  closed_down s ∧ ls_tasks s = [] ∧ ls_queue s = [] ∧ ls_holder s = Some (call, false).

Lemma left_waiting_step call s s' : serve_step s s' -> left_waiting call s -> left_waiting call s'.
Proof.
  intros Hs (Hcl & Ht & Hq & Hh). destruct (closed_down_step s s' (or_introl Hs) Hcl) as (Hcl' & _ & Hsub). split; [done|]. clear Hcl'.
  rewrite Ht in Hsub. cbn in Hsub. destruct Hcl as [Hf Ha].
  destruct Hs as [c|c1 c c2 Hc|c rest Hw Hh'|c n s' Hh' Hp|arr s' Hp|t1 t t2 ok s' Ht' Hp].
  - unfold accept_check. by rewrite Hf.
  - done.
  - congruence.
  - unfold accept_poll in Hp. rewrite Hh in Hh'. injection Hh' as <- <-. by rewrite Hq in Hp.
  - unfold acceptor_turn in Hp. destruct (ls_acceptor s) eqn:E; try done. by injection Hp as <-.
  - rewrite Ht in Ht'. by destruct t1.
Qed.

(** ** Runs *)

(** One task at a time, by place: the first call in each line, the [n]th task. *)
Inductive act := Call (c : nat) | Enqueue | Lock | Answer | Turn (arrives : bool) | Finish (n : nat) (succeeds : bool) | Stop.

Definition exec (s : Listener) (a : act) : Listener :=
  match a with
  | Call c => accept_check s c
  | Enqueue => match ls_checked s with call :: rest => accept_enqueue s [] call rest | [] => s end
  | Lock =>
    match ls_waiting s, ls_holder s with
    | call :: rest, None => with_callers s (ls_checked s) rest (Some (call, false)) (ls_refused s)
    | _, _ => s
    end
  | Answer => match ls_holder s with Some (call, n) => default s (accept_poll s call n) | None => s end
  | Turn arrives => default s (acceptor_turn s arrives)
  | Finish n succeeds =>
    match ls_tasks s !! n with
    | Some t => default s (task_turn s (take n (ls_tasks s)) t (drop (S n) (ls_tasks s)) succeeds)
    | None => s
    end
  | Stop => shutdown s
  end.

Lemma exec_step s a : rtc listener_step s (exec s a).
Proof.
  assert (Hserve : ∀ s', serve_step s s' -> rtc listener_step s s') by (intros; apply rtc_once; by left).
  destruct a as [c| | | |arr|n ok|]; cbn.
  - apply Hserve, sv_call.
  - destruct (ls_checked s) eqn:E; [done|]. by apply Hserve, (sv_enqueue s []).
  - destruct (ls_waiting s) eqn:E; [done|]. destruct (ls_holder s) eqn:E2; [done|]. by apply Hserve, sv_lock.
  - destruct (ls_holder s) as [[c n]|] eqn:E; [|done]. destruct (accept_poll s c n) eqn:E2; [|done]. by eapply Hserve, sv_poll.
  - destruct (acceptor_turn s arr) eqn:E; [|done]. by eapply Hserve, sv_acceptor.
  - destruct (ls_tasks s !! n) as [t|] eqn:E; [|done]. destruct (task_turn _ _ _ _ _) eqn:E2; [|done].
    eapply Hserve, sv_task; [|exact E2]. symmetry. by apply take_drop_middle.
  - apply rtc_once. by right.
Qed.

Lemma run_steps acts : ∀ s, rtc listener_step s (foldl exec s acts).
Proof. induction acts as [|a acts IH]; intros s; [done|]. cbn. etrans; [apply exec_step|apply IH]. Qed.

(** ** Properties *)

(** C26: The listener holds at most 256 handshakes, finished ones that await room included, and
    at most 256 sessions in the queue, so at most twice as many wait for the application;
    and every connection taken off the socket is in exactly one place: at the acceptor, in
    one task, queued once, given to one call of [accept], or come to nothing. *)
Theorem listener_is_bounded (s : Listener) :
  listener_reachable s ->
  (ls_free s + length (ls_tasks s) = MAX_INFLIGHT_HANDSHAKES)%nat ∧
  (length (ls_tasks s) + length (ls_queue s) <= 2 * MAX_INFLIGHT_HANDSHAKES)%nat ∧
  NoDup (all_connections s) ∧ (∀ c, c ∈ all_connections s <-> (c < ls_taken s)%nat).
Proof.
  intros [H1 H2 H3]%listener_reachable_inv. split_and!; [done|lia| |].
  - rewrite H3. apply NoDup_seq.
  - intros c. rewrite H3, elem_of_seq. lia.
Qed.

(** After [shutdown] no connection is taken and no handshake is started, whatever happens
    in between; a call made then is refused, and so is the one that waits for a session. *)
Theorem shutdown_stops_accepting (s s' : Listener) (call : nat) :
  rtc listener_step (shutdown s) s' ->
  ls_taken s' = ls_taken s ∧ task_conn <$> ls_tasks s' ⊆ task_conn <$> ls_tasks s ∧
  ls_refused (accept_check s' call) = ls_refused s' ++ [call] ∧
  ∀ c n, ls_holder s = Some (c, n) -> ∃ s1, accept_poll (shutdown s) c true = Some s1 ∧ c ∈ ls_refused s1.
Proof.
  intros Hs. assert (Hinv : closed_down s' ∧ ls_taken s' = ls_taken s ∧ task_conn <$> ls_tasks s' ⊆ task_conn <$> ls_tasks s).
  { assert (H0 : closed_down (shutdown s)) by (unfold closed_down; cbn; by destruct (ls_acceptor s)).
    change (ls_taken s) with (ls_taken (shutdown s)). change (ls_tasks s) with (ls_tasks (shutdown s)).
    revert H0 Hs. generalize (shutdown s). induction 2 as [|x y z Hxy _ IH]; [done|].
    destruct (closed_down_step _ _ Hxy H0) as (Hy & E & Hsub). destruct (IH Hy) as (? & ? & ?). split_and!; [done|congruence|set_solver]. }
  destruct Hinv as ([Hf _] & ? & ?). split_and!; [done..| |].
  - unfold accept_check. by rewrite Hf.
  - intros c n Hh. eexists. split; [done|]. cbn. set_solver.
Qed.

(** Peers that stall their handshake do not hold up the others: while a permit is free, a
    new connection can be accepted, shake hands and reach a waiting call of [accept]
    without any step of the handshakes under way. *)
Theorem slow_peers_do_not_block (s : Listener) (call : nat) :
  ls_acceptor s = AwaitConnection -> (0 < ls_free s)%nat -> ls_queue s = [] -> ls_holder s = Some (call, false) ->
  ∃ s', rtc serve_step s s' ∧ ls_tasks s' = ls_tasks s ∧ ls_returned s' = ls_returned s ++ [(call, ls_taken s)].
Proof.
  destruct s as [f a free tasks q ck w h taken lost ret ref]. cbn. intros -> Hfree -> ->. destruct free as [|free]; [lia|].
  eexists. split; [|split].
  - eapply rtc_l; [by apply (sv_acceptor _ true)|]. cbn.
    eapply rtc_l; [by apply (sv_acceptor _ true)|]. cbn.
    eapply rtc_l; [by apply (sv_task _ tasks (Shaking taken) [] true)|]. cbn.
    eapply rtc_l; [by apply (sv_task _ tasks (Finished taken) [] true)|]. cbn.
    eapply rtc_l; [by eapply (sv_poll _ call false)|]. apply rtc_refl.
  - cbn. apply app_nil_r.
  - done.
Qed.

(** C27: Two calls of [accept] wait, one of them for the receiver's lock.  [shutdown] wakes the
    first; the second then gets the lock and begins to wait on the [Notify], which has
    fired already.  With no handshake under way it is never answered, whatever else the
    application and the tasks do, unless [shutdown] is called again. *)
Theorem second_accept_survives_shutdown :
  let s := foldl exec listener_init [Call 0; Call 1; Enqueue; Enqueue; Lock; Turn false; Stop; Answer; Lock] in
  listener_reachable s ∧ ls_shutting s = true ∧ ls_refused s = [0%nat] ∧ ls_holder s = Some (1%nat, false) ∧
  ∀ s', rtc serve_step s s' -> ls_holder s' = Some (1%nat, false).
Proof.
  split_and!; [apply run_steps|done..|]. intros s' Hs.
  assert (left_waiting 1 s') as (_ & _ & _ & ?); [|done].
  assert (H0 : left_waiting 1 (foldl exec listener_init [Call 0; Call 1; Enqueue; Enqueue; Lock; Turn false; Stop; Answer; Lock])) by done.
  revert H0. induction Hs as [|x y z Hxy _ IH]; eauto using left_waiting_step.
Qed.

(** Two connections shake hands, one is handed out. *)
Definition toy_listener : Listener :=
  foldl exec listener_init
    [Call 0; Enqueue; Lock; Turn true; Turn true; Turn true; Turn true; Turn true; Turn true; Finish 1 true; Finish 1 true; Answer; Call 1; Enqueue; Lock; Turn true].

Lemma listener_is_bounded_witness :
  ls_returned toy_listener = [(0, 1)]%nat ∧ length (ls_tasks toy_listener) = 1%nat ∧ NoDup (all_connections toy_listener).
Proof. split_and!; [done..|]. apply (listener_is_bounded toy_listener), run_steps. Defined.

Lemma shutdown_stops_accepting_witness :
  let s' := foldl exec (shutdown toy_listener) [Finish 0 true; Finish 0 true; Turn true; Answer; Call 7] in
  ls_refused s' = [1; 7]%nat ∧ ls_taken s' = 2%nat.
Proof.
  cbv zeta. split; [done|]. destruct (shutdown_stops_accepting toy_listener
    (foldl exec (shutdown toy_listener) [Finish 0 true; Finish 0 true; Turn true; Answer; Call 7]) 9) as (-> & _); [|done].
  apply run_steps.
Defined.

Lemma slow_peers_do_not_block_witness :
  ls_tasks toy_listener = [Shaking 0] ∧ ∃ s', rtc serve_step toy_listener s' ∧ ls_tasks s' = [Shaking 0] ∧ ls_returned s' = [(0, 1); (1, 2)]%nat.
Proof. split; [done|]. apply (slow_peers_do_not_block toy_listener 1); (done || (cbn; lia)). Defined.
