(* ===== verification/Sidelines.v ===== *)
(** * Standalone modules of the core

    Parts no packet passes through today: the path scheduler
    ([core/src/transport/scheduler.rs]), the degrade/heal machine
    ([core/src/transport/fallback.rs]), the buffer pool
    ([core/src/transport/buffer_pool.rs]), the input checks ([core/src/validation.rs]); and
    the configuration record ([core/src/config.rs]).  Time is in nanoseconds and an
    argument. *)

From Stdlib Require Import ZArith Lia Sorting.
From stdpp Require Import base numbers option list gmap sets sorting.
From S2P Require Import Prelude Errors Wire Crypto SessionCache Liveness.

Local Open Scope Z_scope.

(** ** The path scheduler *)

Module Scheduler.

Record PathInfo := mk_path { rtt_ms : Z; loss_percent : Z; active : bool; bytes_sent : Z }.

Definition path_new : PathInfo := mk_path 150 0 true 0.

(** The hash map is an association list: its order is the order of iteration, which the
    map leaves open. *)
Record Scheduler := mk_scheduler { mode : SchedulerMode; paths : list (LegType * PathInfo); total_bytes : Z }.

Definition scheduler_new (m : SchedulerMode) : Scheduler := mk_scheduler m [] 0.

Definition register_path (s : Scheduler) (leg : LegType) : Scheduler :=
  if decide (leg ∈ (paths s).*1) then s else mk_scheduler (mode s) (paths s ++ [(leg, path_new)]) (total_bytes s).

Definition update_path (s : Scheduler) (leg : LegType) (f : PathInfo -> PathInfo) (total : Z) : Scheduler :=
  mk_scheduler (mode s) ((λ x, if decide (x.1 = leg) then (x.1, f x.2) else x) <$> paths s) total.

Definition set_path_available (s : Scheduler) (leg : LegType) (available : bool) : Scheduler :=
  update_path s leg (λ p, mk_path (rtt_ms p) (loss_percent p) available (bytes_sent p)) (total_bytes s).
Definition update_rtt (s : Scheduler) (leg : LegType) (rtt : Z) : Scheduler :=
  update_path s leg (λ p, mk_path rtt (loss_percent p) (active p) (bytes_sent p)) (total_bytes s).
Definition record_sent (s : Scheduler) (leg : LegType) (bytes : Z) : Scheduler :=
  update_path s leg (λ p, mk_path (rtt_ms p) (loss_percent p) (active p) (wrap 64 (bytes_sent p + bytes))) (wrap 64 (total_bytes s + bytes)).

Definition by_rtt (x y : LegType * PathInfo) : Prop := rtt_ms x.2 <= rtt_ms y.2.
#[export] Instance by_rtt_dec x y : Decision (by_rtt x y).
Proof. unfold by_rtt. apply _. Defined.

Definition available (s : Scheduler) : list (LegType * PathInfo) := filter (λ x, active x.2 = true) (paths s).

Definition select_paths (s : Scheduler) (is_priority : bool) : list LegType :=
  let best n := take n (merge_sort by_rtt (available s)).*1 in
  if is_priority then best 1%nat
  else match mode s with
  | LowLatency => best 1%nat
  | HighThroughput => (available s).*1
  | Reliability | Stealth => best 2%nat
  end.

(** How many paths a mode asks for. *)
Definition wanted (s : Scheduler) (is_priority : bool) : nat :=
  if is_priority then 1 else match mode s with LowLatency => 1 | HighThroughput => length (paths s) | _ => 2 end.

#[export] Instance by_rtt_total : Total by_rtt.
Proof. intros x y. unfold by_rtt. lia. Qed.
#[export] Instance by_rtt_trans : Transitive by_rtt.
Proof. intros x y z. unfold by_rtt. lia. Qed.

Lemma available_nodup s : NoDup (paths s).*1 -> NoDup (available s).*1.
Proof. intros Hnd. eapply sublist_NoDup; [exact Hnd|]. apply fmap_sublist, sublist_filter. Qed.

(** The first [n] of a sorted list: nothing behind them comes before them. *)
Lemma best_first (l : list (LegType * PathInfo)) n leg p other q :
  StronglySorted by_rtt l -> NoDup l.*1 -> leg ∈ take n l.*1 -> (leg, p) ∈ l -> (other, q) ∈ l -> other ∉ take n l.*1 ->
  rtt_ms p <= rtt_ms q.
Proof.
  intros Hs Hnd Hin Hp Hq Hout. rewrite <- fmap_take in *. rewrite <- (take_drop n l) in Hp, Hq, Hs, Hnd. rewrite fmap_app in Hnd.
  apply NoDup_app in Hnd as (_ & Hdis & _).
  apply elem_of_app in Hp as [Hp|Hp]; [|by destruct (Hdis _ Hin); apply (list_elem_of_fmap_2 fst) in Hp].
  apply elem_of_app in Hq as [Hq|Hq]; [by destruct Hout; apply (list_elem_of_fmap_2 fst) in Hq|].
  clear -Hs Hp Hq. induction (take n l) as [|x k IH]; [set_solver|]. cbn in Hs. apply StronglySorted_inv in Hs as [Hs HF].
  apply elem_of_cons in Hp as [<-|Hp]; [|auto]. rewrite Forall_forall in HF. apply (HF (other, q)). set_solver.
Qed.

(** Whatever the order of the map: the paths chosen are active ones, each once; there are
    as many as asked for, as far as there are active paths; and no active path left out
    is faster than one chosen. *)
Theorem select_paths_best (s : Scheduler) (is_priority : bool) :
  NoDup (paths s).*1 ->
  let chosen := select_paths s is_priority in
  NoDup chosen ∧ chosen ⊆ (available s).*1 ∧ length chosen = (wanted s is_priority `min` length (available s))%nat ∧
  ∀ leg p other q, leg ∈ chosen -> (leg, p) ∈ available s -> (other, q) ∈ available s -> other ∉ chosen -> rtt_ms p <= rtt_ms q.
Proof.
  intros Hnd%available_nodup. cbv zeta. pose proof (merge_sort_Permutation by_rtt (available s)) as Hp.
  pose proof (StronglySorted_merge_sort by_rtt (available s)) as Hs. set (l := merge_sort by_rtt (available s)) in *.
  assert (Hnl : NoDup l.*1) by by rewrite Hp.
  assert (Hbest : ∀ n, let chosen := take n l.*1 in
    NoDup chosen ∧ chosen ⊆ (available s).*1 ∧ length chosen = (n `min` length (available s))%nat ∧
    ∀ leg p other q, leg ∈ chosen -> (leg, p) ∈ available s -> (other, q) ∈ available s -> other ∉ chosen -> rtt_ms p <= rtt_ms q).
  { intros n. cbv zeta. split_and!.
    - eapply sublist_NoDup; [exact Hnl|apply sublist_take].
    - rewrite <- Hp. intros x Hx. by eapply elem_of_take in Hx as (? & ? & _); eapply list_elem_of_lookup_2.
    - by rewrite length_take, length_fmap, <- Hp.
    - intros leg p other q H1 H2 H3 H4. rewrite <- Hp in H2, H3. by eapply best_first. }
  unfold select_paths, wanted. destruct is_priority; [apply Hbest|]. destruct (mode s); try apply Hbest. split_and!; [done..| |].
  - rewrite length_fmap. assert (length (available s) <= length (paths s))%nat by apply length_filter. lia.
  - intros leg p other q _ _ H3 []. by apply (list_elem_of_fmap_2 fst) in H3.
Qed.

Definition toy_scheduler : Scheduler :=
  set_path_available (update_rtt (update_rtt (register_path (register_path (register_path (scheduler_new Reliability) Tcp) Udp) FakeTls) Udp 20) Tcp 90) FakeTls false.

Lemma select_paths_best_witness : select_paths toy_scheduler false = [Udp; Tcp] ∧ NoDup (select_paths toy_scheduler true).
Proof.
  split; [vm_compute; reflexivity|]. apply (select_paths_best toy_scheduler true). vm_compute. repeat constructor; set_solver.
Defined.

End Scheduler.

(** ** The degrade/heal machine *)

Module Fallback.

Inductive TransportMode := Turbo | Reliable | Stealth.

Record Machine := mk_machine {
  fb_mode : TransportMode;
  fb_threshold : Z;
  fb_failures : Z;
  fb_sent : Z;
  fb_acked : Z;
  fb_last_success : Z;
  fb_last_change : Z;
  fb_last_probe : Z;
}.

Definition PROBE_AFTER : Z := 30 * 1000000000.

Definition machine_new (threshold now : Z) : Machine := mk_machine Turbo threshold 0 0 0 0 now now.

Definition step_down (m : TransportMode) : TransportMode := match m with Turbo => Reliable | _ => Stealth end.

Definition degrade (m : Machine) (now : Z) : Machine :=
  match fb_mode m with
  | Stealth => m
  | mode => mk_machine (step_down mode) (fb_threshold m) (fb_failures m) (fb_sent m) (fb_acked m) (fb_last_success m) now (fb_last_probe m)
  end.

Definition check_and_fallback (m : Machine) (now : Z) : bool * Machine :=
  if fb_threshold m <=? fb_failures m then (true, degrade m now) else (false, m).

Definition record_failure (m : Machine) (now : Z) : Machine :=
  (check_and_fallback (mk_machine (fb_mode m) (fb_threshold m) (wrap 32 (fb_failures m + 1)) (fb_sent m) (fb_acked m) (fb_last_success m)
    (fb_last_change m) (fb_last_probe m)) now).2.

Definition record_sent (m : Machine) : Machine :=
  mk_machine (fb_mode m) (fb_threshold m) (fb_failures m) (wrap 64 (fb_sent m + 1)) (fb_acked m) (fb_last_success m) (fb_last_change m) (fb_last_probe m).

Definition record_success (m : Machine) (wall_clock : Z) : Machine :=
  mk_machine (fb_mode m) (fb_threshold m) 0 (fb_sent m) (wrap 64 (fb_acked m + 1)) wall_clock (fb_last_change m) (fb_last_probe m).

Definition upgrade (m : Machine) (now : Z) : Machine :=
  match fb_mode m with
  | Turbo => m
  | _ => mk_machine Turbo (fb_threshold m) 0 (fb_sent m) (fb_acked m) (fb_last_success m) now (fb_last_probe m)
  end.

Definition should_probe (m : Machine) (now : Z) : bool :=
  match fb_mode m with
  | Turbo => false
  | _ => (PROBE_AFTER <? sat_sub now (fb_last_probe m)) && (PROBE_AFTER <? sat_sub now (fb_last_change m))
  end.

Definition record_probe (m : Machine) (now : Z) : Machine :=
  mk_machine (fb_mode m) (fb_threshold m) (fb_failures m) (fb_sent m) (fb_acked m) (fb_last_success m) (fb_last_change m) now.

(** The mode after a number of failures in a row, none counted before. *)
Definition mode_after (threshold k : Z) : TransportMode :=
  if k <? threshold then Turbo else if k =? threshold then Reliable else Stealth.

Lemma failures_run m times :
  fb_mode m = Turbo -> fb_failures m = 0 -> 0 < fb_threshold m -> len times < 2 ^ 32 ->
  let m' := foldl record_failure m times in
  fb_mode m' = mode_after (fb_threshold m) (len times) ∧ fb_failures m' = len times ∧ fb_threshold m' = fb_threshold m.
Proof.
  intros Hm Hf Ht. induction times as [|t times IH] using rev_ind; intros Hlen.
  { cbn. unfold mode_after. change (len (@nil Z)) with 0. case_test; [done|lia]. }
  rewrite len_app in Hlen |- *. change (len [t]) with 1 in *. pose proof (len_nonneg times).
  destruct IH as (IH1 & IH2 & IH3); [lia|]. cbv zeta. rewrite foldl_app. cbn [foldl]. set (m1 := foldl record_failure m times) in *.
  unfold record_failure, check_and_fallback. cbn. rewrite IH2, IH3, wrap_small by (unfold in_u, u_max; lia).
  unfold degrade, mode_after in *. cbn.
  repeat case_test; cbn; rewrite ?IH1; cbn; repeat case_test; try lia; done.
Qed.

(** Below the threshold nothing moves; the failure that reaches it takes the machine one
    tier down, and since the count is kept, the very next one takes it to the bottom.  The
    way back is one step to the top, and from there the same number of failures is needed
    again. *)
Theorem failures_walk_the_ladder (m : Machine) (times again : list Z) (now : Z) :
  fb_mode m = Turbo -> fb_failures m = 0 -> 0 < fb_threshold m -> len times < 2 ^ 32 -> len again < 2 ^ 32 ->
  let down := foldl record_failure m times in
  fb_mode down = mode_after (fb_threshold m) (len times) ∧
  (fb_threshold m <= len times -> fb_mode (foldl record_failure (upgrade down now) again) = mode_after (fb_threshold m) (len again)) ∧
  ∀ t, should_probe down t = true -> fb_threshold m <= len times ∧ fb_last_change down + PROBE_AFTER < t.
Proof.
  intros Hm Hf Ht H1 H2. cbv zeta. destruct (failures_run m times Hm Hf Ht H1) as (E1 & E2 & E3). set (down := foldl _ _ _) in *. split_and!.
  - done.
  - intros Hle. assert (fb_mode down ≠ Turbo) as Hd by (rewrite E1; unfold mode_after; repeat case_test; [lia|done..]).
    destruct (failures_run (upgrade down now) again) as (E & _); [unfold upgrade; by destruct (fb_mode down)..| |done|];
      [unfold upgrade; destruct (fb_mode down); cbn; lia|]. rewrite E, <- E3. unfold upgrade. by destruct (fb_mode down).
  - intros t. unfold should_probe. rewrite E1. unfold mode_after, sat_sub. repeat case_test; try done; intros [Hp Hc]%andb_true_iff; bool_to_prop; unfold PROBE_AFTER in *; lia.
Qed.

Lemma failures_walk_the_ladder_witness :
  let m := machine_new 3 0 in
  fb_mode (foldl record_failure m [1; 2]) = Turbo ∧ fb_mode (foldl record_failure m [1; 2; 3]) = Reliable ∧
  fb_mode (foldl record_failure m [1; 2; 3; 4]) = Stealth.
Proof.
  cbv zeta. split_and!; [vm_compute; reflexivity..|].
  by apply (failures_walk_the_ladder (machine_new 3 0) [1; 2; 3; 4] [] 9).
Defined.

End Fallback.

(** ** The buffer pool *)

Module BufferPool.

Definition BATCH_SIZE : nat := 32.
Definition MAX_LOCAL_BUFFERS : nat := 64.

(** A buffer is its capacity: what it holds is cleared on the way in and out.  The queue
    of a pool is first in, first out. *)
Record Pool := mk_pool { buffers : list Z; buffer_size : Z; max_buffers : nat; allocations : Z; hits : Z }.

Definition pool_new (size : Z) (initial_count limit : nat) : Pool :=
  let count := (initial_count `min` limit)%nat in mk_pool (replicate count size) size limit (Z.of_nat count) 0.

(** The refill of [acquire]: up to [n] buffers move to the thread's stack, its top first. *)
Fixpoint refill (n : nat) (global local : list Z) : list Z * list Z :=
  match n, global with
  | S n', b :: rest => refill n' rest (b :: local)
  | _, _ => (global, local)
  end.

(** [acquire] on a pool and the stack of the thread, which is one for all pools. *)
Definition acquire (p : Pool) (local : list Z) : Z * Pool * list Z :=
  let '(global, stack) := match local with [] => refill BATCH_SIZE (buffers p) [] | _ => (buffers p, local) end in
  match stack with
  | b :: rest => (b, mk_pool global (buffer_size p) (max_buffers p) (allocations p) (hits p + 1), rest)
  | [] => (buffer_size p, mk_pool global (buffer_size p) (max_buffers p) (allocations p + 1) (hits p), [])
  end.

(** [ArrayQueue::push]: a full queue refuses, and the buffer is dropped. *)
Definition push_global (limit : nat) (global : list Z) (b : Z) : list Z :=
  if (length global <? limit)%nat then global ++ [b] else global.

Definition return_buffer (p : Pool) (local : list Z) (b : Z) : Pool * list Z :=
  if (length local <? MAX_LOCAL_BUFFERS)%nat then (p, b :: local)
  else
    let half := (MAX_LOCAL_BUFFERS / 2)%nat in
    (mk_pool (foldl (push_global (max_buffers p)) (buffers p) (take half local)) (buffer_size p) (max_buffers p) (allocations p) (hits p),
     b :: drop half local).

(** [Drop for PooledBuffer]. *)
Definition drop_buffer (p : Pool) (local : list Z) (b : Z) : Pool * list Z :=
  if 0 <? b then return_buffer p local b else (p, local).

(** Pools of one thread, by index. *)
Record Thread := mk_thread { pools : list Pool; local_pool : list Z }.

Inductive pool_op := Acquire (i : nat) | Release (i : nat) (b : Z).

Definition pool_step (t : Thread) (o : pool_op) : Thread :=
  match o with
  | Acquire i =>
    match pools t !! i with
    | Some p => let '(_, p', local) := acquire p (local_pool t) in mk_thread (<[i := p']> (pools t)) local
    | None => t
    end
  | Release i b =>
    match pools t !! i with
    | Some p => let '(p', local) := drop_buffer p (local_pool t) b in mk_thread (<[i := p']> (pools t)) local
    | None => t
    end
  end.

Lemma pool_refill_spec n : ∀ global local g l, refill n global local = (g, l) ->
  (length g <= length global)%nat ∧ (length l <= length local + n)%nat ∧ g ++ l ≡ₚ global ++ local.
Proof.
  induction n as [|n IH]; intros [|b global] local g l E; cbn in E; try (injection E as <- <-; cbn; split_and!; [lia..|done]).
  apply IH in E as (H1 & H2 & H3). cbn in *. split_and!; [lia..|]. rewrite H3. solve_Permutation.
Qed.

Lemma acquire_spec p local b p' local' : acquire p local = (b, p', local') ->
  (length (buffers p') <= length (buffers p))%nat ∧ max_buffers p' = max_buffers p ∧ buffer_size p' = buffer_size p ∧
  (length local' <= length local `max` MAX_LOCAL_BUFFERS)%nat ∧
  (b = buffer_size p ∨ b ∈ local ++ buffers p) ∧ (∀ x, x ∈ local' ++ buffers p' -> x ∈ local ++ buffers p).
Proof.
  unfold acquire. destruct local as [|b0 rest].
  - destruct (refill _ _ _) as [g l] eqn:E. apply pool_refill_spec in E as (H1 & H2 & H3).
    assert (Hin : ∀ x, x ∈ g ++ l -> x ∈ buffers p) by (intros x; by rewrite H3, app_nil_r).
    destruct l as [|x l]; intros [= <- <- <-]; cbn; (split_and!; [lia|done|done|cbn in *; unfold MAX_LOCAL_BUFFERS, BATCH_SIZE in *; lia| |]); set_solver.
  - intros [= <- <- <-]. cbn. split_and!; [lia|done|done|lia| |]; set_solver.
Qed.

Lemma push_global_spec limit bs : ∀ global, (length global <= limit)%nat ->
  let g := foldl (push_global limit) global bs in (length g <= limit)%nat ∧ ∀ x, x ∈ g -> x ∈ global ++ bs.
Proof.
  induction bs as [|b bs IH]; intros global Hl; cbn -[push_global]; [split; [done|set_solver]|].
  assert (Hl' : (length (push_global limit global b) <= limit)%nat).
  { unfold push_global. destruct (Nat.ltb_spec (length global) limit); [rewrite length_app; cbn; lia|done]. }
  destruct (IH _ Hl') as [H1 H2]. split; [done|]. intros x Hx%H2. unfold push_global in Hx. destruct (_ <? _)%nat; set_solver.
Qed.

Lemma drop_buffer_spec p local b p' local' : (length (buffers p) <= max_buffers p)%nat -> (length local <= MAX_LOCAL_BUFFERS)%nat ->
  drop_buffer p local b = (p', local') ->
  (length (buffers p') <= max_buffers p)%nat ∧ max_buffers p' = max_buffers p ∧ buffer_size p' = buffer_size p ∧
  (length local' <= MAX_LOCAL_BUFFERS)%nat ∧ ∀ x, x ∈ local' ++ buffers p' -> x = b ∨ x ∈ local ++ buffers p.
Proof.
  intros Hg Hl. unfold drop_buffer, return_buffer. case_test; [|intros [= <- <-]; split_and!; auto].
  destruct (Nat.ltb_spec (length local) MAX_LOCAL_BUFFERS); intros [= <- <-]; cbn -[MAX_LOCAL_BUFFERS Nat.div].
  - split_and!; [done..|cbn; lia|set_solver].
  - destruct (push_global_spec (max_buffers p) (take (MAX_LOCAL_BUFFERS / 2) local) (buffers p) Hg) as [H1 H2].
    split_and!; [done..| |].
    + rewrite length_drop. change (MAX_LOCAL_BUFFERS / 2)%nat with 32%nat. unfold MAX_LOCAL_BUFFERS in *. lia.
    + assert (Hlocal : ∀ x, x ∈ take (MAX_LOCAL_BUFFERS / 2) local ∨ x ∈ drop (MAX_LOCAL_BUFFERS / 2) local -> x ∈ local).
      { intros x Hx. rewrite <- (take_drop (MAX_LOCAL_BUFFERS / 2) local). by apply elem_of_app. }
      intros x [->|[Hx|[Hx|Hx]%H2%elem_of_app]%elem_of_app]%elem_of_cons; [by left|right; apply elem_of_app; auto..].
Qed.
(** Every pool keeps to its limit and the thread to 64 buffers. *)
Definition thread_bounded (t : Thread) : Prop :=
  (length (local_pool t) <= MAX_LOCAL_BUFFERS)%nat ∧ Forall (λ p, (length (buffers p) <= max_buffers p)%nat) (pools t).

Lemma bounded_insert i (p p' : Pool) ps local :
  Forall (λ p, (length (buffers p) <= max_buffers p)%nat) ps -> ps !! i = Some p -> (length (buffers p') <= max_buffers p')%nat ->
  (length local <= MAX_LOCAL_BUFFERS)%nat -> thread_bounded (mk_thread (<[i := p']> ps) local).
Proof. intros HF Hi Hp Hl. split; [done|]. by apply Forall_insert. Qed.

(** However pools of one thread are used, the memory they keep is bounded: 64 buffers on
    the thread, [max_buffers] in each pool. *)
Theorem pool_memory_bounded (t : Thread) (ops : list pool_op) :
  thread_bounded t -> thread_bounded (foldl pool_step t ops).
Proof.
  revert t. induction ops as [|o ops IH]; intros t Ht; [done|]. cbn. apply IH. clear IH. destruct Ht as [Hl HF].
  destruct o as [i|i b]; cbn; (destruct (pools t !! i) as [p|] eqn:Hi; [|done]); pose proof (Forall_lookup_1 _ _ _ _ HF Hi) as Hp; cbn in Hp.
  - destruct (acquire _ _) as [[b p'] local'] eqn:E. apply acquire_spec in E as (H1 & H2 & _ & H3 & _).
    eapply bounded_insert; try done; lia.
  - destruct (drop_buffer _ _ _) as [p' local'] eqn:E. apply drop_buffer_spec in E as (H1 & H2 & _ & H3 & _); [|done..].
    eapply bounded_insert; try done. lia.
Qed.

Lemma pool_memory_bounded_witness :
  let t := mk_thread [pool_new 2048 3 10] [] in
  local_pool (foldl pool_step t [Acquire 0; Release 0 2048; Release 0 0]) = [2048; 2048; 2048] ∧
  thread_bounded (foldl pool_step t [Acquire 0; Release 0 2048; Release 0 0]).
Proof.
  cbv zeta. split; [vm_compute; reflexivity|]. apply (pool_memory_bounded (mk_thread [pool_new 2048 3 10] [])).
  split; [cbn; unfold MAX_LOCAL_BUFFERS; lia|]. repeat constructor; cbn; lia.
Defined.

(** The stack of the thread is shared by all pools, so a pool of large buffers hands out
    the small buffer another pool took back. *)
Theorem pool_hands_out_foreign_buffer :
  let t := foldl pool_step (mk_thread [pool_new 100 1 4; pool_new 65536 1 4] []) [Acquire 0; Release 0 100] in
  ∃ p, pools t !! 1%nat = Some p ∧ buffer_size p = 65536 ∧ (acquire p (local_pool t)).1.1 = 100.
Proof. cbv zeta. eexists. split; [vm_compute; reflexivity|]. done. Qed.

End BufferPool.

(** ** Input checks *)

Module Validation.

(** Which check failed. *)
Inductive Refusal := EmptyMessage | TooLarge | BadLength | ZeroId | TooFarAhead | TooOld.

Definition validate_message_size (data : list Z) (max_size : Z) : result unit Refusal :=
  if len data =? 0 then Err EmptyMessage else if max_size <? len data then Err TooLarge else Ok tt.

Definition validate_group_id (group_id : list Z) : result (list Z) Refusal :=
  if negb (len group_id =? 16) then Err BadLength
  else if forallb (Z.eqb 0) group_id then Err ZeroId else Ok group_id.

Definition MAX_EPOCH_DRIFT : Z := 50.

(** The sum overflows: it wraps in a release build, and [None] is the panic of a build
    that checks. *)
Definition validate_epoch (checked : bool) (epoch current_epoch : Z) : option (result unit Refusal) :=
  if checked && (u_max 64 <? current_epoch + MAX_EPOCH_DRIFT) then None
  else if wrap 64 (current_epoch + MAX_EPOCH_DRIFT) <? epoch then Some (Err TooFarAhead)
  else if (MAX_EPOCH_DRIFT <? current_epoch) && (epoch <? current_epoch - MAX_EPOCH_DRIFT) then Some (Err TooOld)
  else Some (Ok tt).

(** Away from the top of the range an epoch passes exactly when it is within 50 of the
    current one; at the top the current epoch itself is refused, or the check panics. *)
Theorem epoch_window (checked : bool) (epoch current : Z) :
  in_u 64 epoch -> in_u 64 current ->
  (current + MAX_EPOCH_DRIFT <= u_max 64 ->
    (validate_epoch checked epoch current = Some (Ok tt) <-> current - MAX_EPOCH_DRIFT <= epoch <= current + MAX_EPOCH_DRIFT)) ∧
  (u_max 64 < current + MAX_EPOCH_DRIFT -> validate_epoch true epoch current = None ∧ validate_epoch false current current = Some (Err TooFarAhead)).
Proof.
  intros He Hc. unfold validate_epoch, MAX_EPOCH_DRIFT, in_u, u_max in *. split; intros Hr.
  - rewrite wrap_small by (unfold in_u, u_max; lia). repeat case_test; bool_to_prop; try (split; [done|lia]); try (split; [lia|done]); lia.
  - cbn [andb]. split; [by case_test; [|lia]|]. unfold wrap, u_max in *. replace ((current + 50) mod 2 ^ 64) with (current + 50 - 2 ^ 64).
    + case_test; [done|lia].
    + symmetry. rewrite <- (Z.mod_add _ (-1)) by lia. apply Z.mod_small. lia.
Qed.

Lemma epoch_window_witness : validate_epoch true 60 100 = Some (Ok tt) ∧ validate_epoch false (u_max 64) (u_max 64) = Some (Err TooFarAhead).
Proof.
  split; [apply (epoch_window true 60 100); vm_compute; intuition discriminate|].
  apply (epoch_window true 0 (u_max 64)); vm_compute; intuition discriminate.
Defined.

End Validation.

(** ** The configuration *)

Module Config.

Definition sec (n : Z) : Z := n * 1000000000.

Record PhantomConfig := mk_config {
  keepalive : Z;
  session_timeout : Z;
  session_cache_capacity : Z;
  session_ticket_lifetime : Z;
  write_stall_timeout : Z;
}.

Definition DEFAULT_WRITE_STALL_TIMEOUT : Z := sec 30.
Definition MIN_WRITE_STALL_TIMEOUT : Z := sec 1.

Definition mobile : PhantomConfig := mk_config (sec 30) (sec 3600) 32 (sec 86400) (sec 120).
Definition server : PhantomConfig := mk_config (sec 60) (sec 7200) 1024 (sec 604800) DEFAULT_WRITE_STALL_TIMEOUT.
Definition iot : PhantomConfig := mk_config (sec 120) (sec 1800) 4 (sec 3600) (sec 120).

Definition liveness (c : PhantomConfig) : LivenessConfig :=
  mk_liveness (min_pto liveness_default) (path_down_ptos liveness_default) (session_timeout c) (Some (keepalive c)).

Definition session_cache (c : PhantomConfig) : SessionCache :=
  with_capacity (session_cache_capacity c) (session_ticket_lifetime c).

Definition stream_write_stall_timeout (c : PhantomConfig) : result Z CoreError :=
  if write_stall_timeout c <? MIN_WRITE_STALL_TIMEOUT then Err ConfigError else Ok (write_stall_timeout c).

(** A cache of capacity zero stays empty. *)
Lemma disabled_stays_empty c ops : max_entries c = 0 -> tickets c = ∅ -> max_entries (cache_run c ops) = 0 ∧ tickets (cache_run c ops) = ∅.
Proof.
  revert c. induction ops as [|o ops IH]; intros c Hm Ht; [done|]. cbn. apply IH.
  - by destruct (exec_limits c o) as [-> _].
  - destruct o; cbn; unfold store, reinsert_with_expiry, is_disabled, try_resume, peek; rewrite ?Hm, ?Ht, ?lookup_empty; cbn; try done.
Qed.

(** Capacity zero turns resumption off: whatever is stored and asked for, no ticket of a
    listener configured so is ever redeemed.  The presets allow resumption and pass the
    check of the write deadline. *)
Theorem zero_capacity_turns_resumption_off (c : PhantomConfig) (ops : list cache_op) (id : list Z) (now : Z) :
  session_cache_capacity c = 0 ->
  (try_resume (cache_run (session_cache c) ops) id now).1 = None ∧ (peek (cache_run (session_cache c) ops) id now).1 = None ∧
  Forall (λ preset, 0 < session_cache_capacity preset ∧ stream_write_stall_timeout preset = Ok (write_stall_timeout preset)) [mobile; server; iot].
Proof.
  intros Hc. destruct (disabled_stays_empty (session_cache c) ops) as [_ E]; [done..|]. unfold try_resume, peek. rewrite E, lookup_empty.
  split_and!; [done..|]. repeat constructor.
Qed.

Lemma zero_capacity_turns_resumption_off_witness :
  let c := mk_config (sec 1) (sec 1) 0 (sec 60) (sec 2) in
  (try_resume (cache_run (session_cache c) [OpStore [1] [2] Aes256Gcm 5]) [1] 6).1 = None ∧
  (try_resume (cache_run (session_cache mobile) [OpStore [1] [2] Aes256Gcm 5]) [1] 6).1 = Some ([2], Aes256Gcm).
Proof.
  cbv zeta. split; [|vm_compute; reflexivity].
  by apply (zero_capacity_turns_resumption_off (mk_config (sec 1) (sec 1) 0 (sec 60) (sec 2)) [OpStore [1] [2] Aes256Gcm 5] [1] 6).
Defined.

End Config.
